(* ===== verification/_CoqProject ===== *)
-Q . S2P
Prelude.v
CInt.v
Cpp.v
MathTools.v
SimValue.v
SimValueLaws.v
SimMemory.v
MemoryRefinement.v
MemoryAccess.v
OSAL.v
ControlUnit.v
ControlFlow.v
BaseInt.v
BaseIntSpec.v
BaseMemory.v
LoadStore.v
Executors.v
ExecutorLaws.v
DelayLines.v
OperationPool.v
FunctionUnit.v
FunctionUnitLaws.v
IntEmulation.v
EmulationAgrees.v
FPState.v
Rounding.v
SoftFloatPrim.v
Float32.v
Float64.v
SqrtEstimate.v
Float32Round.v
Float32Arith.v
Float32MulDiv.v
Float32Sqrt.v
Emulate.v
FpEnvironment.v
Float32Compare.v
Float32Conv.v
HostFloat.v
HalfFloat.v
Float32Rem.v
Float64Round.v
Float64Arith.v
Float64Sum.v
Float64MulDiv.v
Float64Div.v
Float64Rem.v
Float64Sqrt.v
Float64Compare.v
Float64Conv.v
HostDouble.v
ValueFloat.v
BaseFloat.v
FloatNaN.v
FloatAgrees.v
Float64Int.v
Float64Long.v
RoundToInt.v
RoundToInt64.v
Formats.v
Trunctfdf2.v
Lwpr.v
OclLauncher.v
Pthread.v
ThreadPool.v
