(* ===== verification/Prelude.v ===== *)
(** * The run-time library and the simulator of OpenASIP, verified

    OpenASIP (src/openasip) is a toolset for designing transport-triggered processors.  A program
    compiled for such a processor links against a run-time library written in C; it runs on the
    processor or in the toolset's simulator, which is C++.  Modelled here, as
    executable Rocq functions translated from the source, are that library and the core of the
    simulator, with theorems about each and about how they fit together.

    ** Parts of the program and how they interact

    A TTA processor has only the function units its designer gave it.  For every operation that is
    missing the compiler calls a routine of newlib's tce port (newlib-1.17.0/newlib/libc/sys/tce):
    - integer division, remainder, multiplication and shifts are the [__divsi3] family of
      standard_emulation.c;
    - floating-point operations are the [__emulate_*] entry points at the end of
      float_emulation.c, or the compiler-rt names of bclib/cpp/softfloat_wrappers.c, which unpack
      their arguments and call the [float32_*] and [float64_*] routines of the soft-float library
      in the rest of float_emulation.c; these share the multi-word primitives at its beginning and
      the global rounding mode and exception flags.
    Besides, pthread_tce.c provides threads switched by a timer, bclib/lwpr/lwpr.c prints without
    [printf], data/riscv/runtime/trunctfdf2.c truncates [long double] on RISC-V, and
    data/tcecc/oclc_launcher_single.c is the template of the launcher oacc generates for each
    OpenCL kernel.

    The simulator keeps every register, port and bus as a [SimValue] of up to 4096 bits, which uses
    the bit-field arithmetic of MathTools. An operation is a behaviour written in the macros of
    OSAL.hh, which read and write the [SimValue]s of its operands; opset/base/base.cc holds those
    of the base library. In each cycle the moves of the instruction write ports; a function unit
    whose trigger port was written starts an operation in one of its executors, which delivers the
    result when the latency is over; stores queue requests in a memory, which commits them when its
    clock advances, or, in the compiled simulator, at the store; the control unit runs control-flow
    operations through a pipeline with delay slots and keeps the hardware loop. The operations and
    the emulation routines are two implementations of one instruction set.

    ** Files

    Foundations:
    - Prelude: C booleans and operators, loops with fuel and their rules, tactics ([zbool],
      [ztest], [dlia]), lemmas on powers of two, division and bits shared by everything.
    - CInt: machine integers.  A C object is the [Z] it denotes; conversions [u32], [s32], ...
      are written where the code converts, implicitly or not.
    - Cpp: outcomes of C++ code, a result, a thrown exception or undefined behaviour, with the
      notation of sequencing.

    The C library:
    - IntEmulation: standard_emulation.c.  The 32-bit routines and their 64-bit copies have the
      same text and are one Section over the width [w].
    - FPState: the globals float_rounding_mode and float_exception_flags, and the state monad
      [FP] (state passing, with [None] for a loop out of fuel or an undefined shift).
    - SoftFloatPrim: float_emulation.c up to countLeadingZeros32, with the value lemmas of each
      primitive ([add64_val], [mul64To128_val], [estimateDiv64To32_bounds], ...); SqrtEstimate: the
      square-root estimate.
    - Float32, Float64: the [float32_*] and [float64_*] routines, one definition per C function; a
      shared tail reached by [goto] is a local definition named after it ([float32_mul_tail]).
      A [float32] is its bit pattern, a [float64] a pair of words as in the C struct.
    - Emulate: the [__emulate_*] entry points and softfloat_wrappers.c.
    - Rounding: the specification.  An exact result is a rational [N / D] in units of the least
      positive number; [ref_bits] is its rounding to the format and [ref_flags] the IEEE
      exceptions, in four rounding modes and with tininess detected before or after rounding.
      [ref_mag_nearest] shows that the specification itself returns a nearest value.  [sticky] is
      the relation that a right shift with jamming establishes, and [ref_sticky] says that rounding
      through it is exact.
    - Float32Round, Float64Round: [roundAndPackFloat32] and [roundAndPackFloat64] implement
      [ref_bits] and [ref_flags].
    - Float32Arith, Float32MulDiv, Float32Sqrt, Float32Rem, RoundToInt and Float64Arith, Float64Sum,
      Float64MulDiv, Float64Div, Float64Sqrt, Float64Rem, RoundToInt64: the arithmetic routines
      against the specification; Float32Compare, Float64Compare: comparisons and their entry points;
      Float32Conv, Float64Conv, Float64Int, Float64Long: conversions; Formats: the theorems that
      hold of both formats; FpEnvironment: what any routine does to the rounding mode and flags.
    - Trunctfdf2, Lwpr, OclLauncher: the C files of the same names.
    - Pthread: pthread_tce.c.  A heap (a finite map from addresses to thread records), the lock
      and [threadInternals] are the state of a monad whose outcomes tell a result from waiting for
      ever, following a bad pointer, and [exit].  [wf] is the invariant: the records from the main
      thread on form the doubly linked list [l], the removed ones the list [d].  ThreadPool: the
      queue of threads that it refines.

    The simulator (src/openasip/src):
    - MathTools: tools/MathTools.icc and .cc.
    - SimValue, SimValueLaws: tools/SimValue.cc, the raw bytes with width and mask, and what they
      hold.  HostFloat, HostDouble: the float and double of the host as classes whose laws are those
      of IEEE 754 up to the choice of a NaN, each with the instance that the specification of
      Rounding gives.  HalfFloat: tools/HalfFloatWord.cc.  ValueFloat: the floating-point operators
      of SimValue.cc.
    - SimMemory: base/memory (Memory.cc, IdealSRAM.cc, DirectAccessMemory.cc, PagedArray), with the
      virtual methods as classes.  MemoryRefinement, MemoryAccess: the flat memory it refines, with
      the class [StorageLaws] of what the derived classes promise, range checks and fast paths.
    - OSAL: operand access, assignment and extension of OSAL.hh.  BaseInt, BaseMemory, BaseFloat:
      the behaviours of opset/base/base.cc; BaseIntSpec, LoadStore: what they compute.
    - ControlUnit: GCUState, its transport pipeline, the control-flow operations and the hardware
      loop of base.cc, and a cycle of SimulationController.  ControlFlow: executions.
    - Executors: the three operation executors.  FunctionUnit: FUState with its ports and clock.
      ExecutorLaws is the class of what an executor promises to its unit, a delay line; DelayLines
      and OperationPool are its instances; FunctionUnitLaws proves the unit against the class.
    - EmulationAgrees, FloatAgrees: the routines of the C library against the operations of the
      simulator that they replace; FloatNaN: what the routines do to NaNs, and the sign bit.

    ** What the theorems show

    - Arithmetic, both formats: addition, subtraction, multiplication, division and square root
      return, for every pattern, every rounding mode and either tininess detection, the correctly
      rounded result with exactly the IEEE exceptions, or the NaN, infinity and invalid-operation
      results of the special operands; the remainder is the IEEE remainder; rounding to an integral
      value follows the mode.  No sequence of calls spoils the environment.
    - Comparisons agree with the order of the values and differ on NaNs as documented, while some
      [__emulate_*] entry points, defined by negating another, answer true on NaNs.
    - Conversions: to and from 32- and 64-bit integers and between the formats, with the range and
      rounding of each; widening to double and back is the identity.
    - Integer emulation: quotient and remainder, for all operands except divisors of magnitude one
      with large dividends, where the loops provably never return; division by zero;
      multiplication and shifts for all.
    - Threads: from the initial state every sequence of creations, exits and timer switches keeps
      the invariant and no step faults, and it refines a queue, so that every thread gets its turn;
      [pthread_join] waits exactly for listed threads.  What goes wrong outside, a creation without
      memory and a thread that exits twice, is stated too.
    - Printing reads back; truncation of binary128 is correctly rounded; the OpenCL launcher visits
      every group of the grid once, in order, but leaves numbers of groups uninitialised.
    - Simulator values hold numbers modulo 2^w, their elements are independent lanes, extension works
      in place.  Memories refine a flat memory: the stores of an IdealSRAM take effect at the end of
      the cycle, in either byte order; those of a DirectAccessMemory at once if they are big-endian,
      and never if they are little-endian and made through the interface of Memory.  Its unchecked
      accesses, which the compiled simulator uses, read and write what they should in either order.
    - Operations: every integer operation computes its table, with the operands on which it throws or
      is undefined; loads and stores move the bytes they should.  Control transfers execute their
      delay slots, hardware loops run as often as the count says, and function units deliver each
      result in the cycle in which its latency is over.
    - The two implementations of the instruction set agree, for integers and for floats, except on
      the operands the theorems list.

    ** Fuel

    Loops whose number of iterations is not structural take fuel, and their theorems ask only for
    a bound that suffices on every input: more than 2 for [estimateDiv64To32] and
    single-precision division (the estimate is at most two too large), more than 4 for
    double-precision division and both square roots (at most four), more than 10 for the
    single-precision remainder (thirty bits a round) and 73 for the double-precision one
    (twenty-nine bits), more than the width plus one for the integer routines (division by zero takes
    the longest), 10 for printing, more than the number of removed threads for [freeDeadThreads] and
    of listed threads for the search, more than the largest grid dimension for the launcher.  The
    theorems then state that a result is returned.  LMBD (34) and the normalisation of a denormal
    half (11) have their fuel built in, and the theorems about them show that it is enough.

    ** Not modelled

    - Timer interrupts inside a routine of pthread_tce.c: its comments require these routines to be
      in the list of functions the timer does not interrupt, so that each is one step.
    - The mutex functions and the second half of standard_emulation.c are under [#if 0].
    - old_emulation_functions.c is not compiled (the Makefile does not list it); crt0.c and the
      system-call stubs (sbrk.c, read.c, ...) are stubs around linker symbols and simulator calls.
    - The local-buffer allocation of the OpenCL launcher, which is [realloc] calls on a
      generated table.
    - Of the simulator: the construction of the machine model, instruction decoding, breakpoints and
      traces, the compiled engine's code generator, resource conflict detection and the SystemC models
      called at every stage of an operation; of base.cc the operations that talk to the outside
      (STDOUT, LEDS, SLEEP, timers) and INVSQRTH, whose square root depends on the C++ headers; of
      SimValue.cc the textual dumps; of MathTools the random and double-precision helpers.
    - Sums and quotients of half-precision numbers are translated but only products are specified.
    - The rest of the toolset (machine and program models, scheduler, processor generator, compiler
      back end, explorer and graphical tools), and the rest of newlib, which is third-party code.
      The development takes the parts from which results of programs are computed; the remaining ones
      transform descriptions and would each need a model of the architecture description format. *)

From Stdlib Require Export ZArith Bool List Lia.
Export ListNotations.

#[export] Set Default Goal Selector "!".

Declare Scope c_scope.
Delimit Scope c_scope with c.

(** Bit operators of C, in their own scope. *)
Notation "a << b" := (Z.shiftl a b) (at level 39, left associativity) : c_scope.
Notation "a >> b" := (Z.shiftr a b) (at level 39, left associativity) : c_scope.
Notation "a &&& b" := (Z.land a b) (at level 40, left associativity) : c_scope.
Notation "a ^^^ b" := (Z.lxor a b) (at level 45, left associativity) : c_scope.
Notation "a ||| b" := (Z.lor a b) (at level 50, left associativity) : c_scope.

Open Scope Z_scope.
Open Scope c_scope.

(** ** Booleans as C integers *)

Definition b2z (b : bool) : Z := if b then 1 else 0.

(** C truth of an integer expression. *)
Definition truthy (x : Z) : bool := negb (x =? 0).

(** ** Loops with fuel

    [while] returns [None] exactly when the fuel runs out before the condition fails. *)

Fixpoint while {S : Type} (fuel : nat) (cond : S -> bool) (body : S -> S) (s : S) : option S :=
  match fuel with
  | O => None
  | Datatypes.S n => if cond s then while n cond body (body s) else Some s
  end.

(** [do body while (cond)]. *)
Definition do_while {S : Type} (fuel : nat) (body : S -> S) (cond : S -> bool) (s : S) : option S :=
  while fuel cond body (body s).

(** A loop whose body may itself run out of fuel. *)
Fixpoint while_opt {S : Type} (fuel : nat) (cond : S -> bool) (body : S -> option S) (s : S)
  : option S :=
  match fuel with
  | O => None
  | Datatypes.S n =>
    if cond s then match body s with None => None | Some s' => while_opt n cond body s' end
    else Some s
  end.

Lemma while_rule {S : Type} (cond : S -> bool) (body : S -> S) (I : nat -> S -> Prop) :
  (forall n s, I n s -> cond s = true -> exists m, (m < n)%nat /\ I m (body s)) ->
  forall n s fuel, I n s -> (n < fuel)%nat ->
    exists s' n', while fuel cond body s = Some s' /\ cond s' = false /\ I n' s'.
Proof.
  intros Hstep n. induction n as [n IH] using (well_founded_induction lt_wf).
  intros s [|fuel] HI Hf; [lia|]. cbn [while].
  destruct (cond s) eqn:Hc; [|now exists s, n].
  destruct (Hstep n s HI Hc) as (m & Hm & HI').
  apply (IH m Hm); [exact HI' | lia].
Qed.

Lemma while_opt_rule {S : Type} (cond : S -> bool) (body : S -> option S) (I : nat -> S -> Prop) :
  (forall n s, I n s -> cond s = true -> exists s' m, body s = Some s' /\ (m < n)%nat /\ I m s') ->
  forall n s fuel, I n s -> (n < fuel)%nat ->
    exists s' n', while_opt fuel cond body s = Some s' /\ cond s' = false /\ I n' s'.
Proof.
  intros Hstep n. induction n as [n IH] using (well_founded_induction lt_wf).
  intros s [|fuel] HI Hf; [lia|]. cbn [while_opt].
  destruct (cond s) eqn:Hc; [|now exists s, n].
  destruct (Hstep n s HI Hc) as (s' & m & -> & Hm & HI').
  apply (IH m Hm); [exact HI' | lia].
Qed.

(** Partial correctness: what an iteration preserves holds of a returned state. *)
Lemma while_inv {S : Type} (cond : S -> bool) (body : S -> S) (I : S -> Prop) :
  (forall s, I s -> cond s = true -> I (body s)) ->
  forall fuel s s', I s -> while fuel cond body s = Some s' -> I s' /\ cond s' = false.
Proof.
  intros H fuel. induction fuel as [|fuel IH]; intros s s' Hs Hr; [discriminate|].
  cbn [while] in Hr. destruct (cond s) eqn:Hc; [eauto | now injection Hr as <-].
Qed.

(** A loop whose condition is invariant never returns, whatever the fuel. *)
Lemma while_diverges {S : Type} (cond : S -> bool) (body : S -> S) (I : S -> Prop) :
  (forall s, I s -> cond s = true /\ I (body s)) ->
  forall fuel s, I s -> while fuel cond body s = None.
Proof.
  intros H fuel. induction fuel as [|fuel IH]; intros s Hs; [reflexivity|].
  cbn [while]. destruct (H s Hs) as [-> Hb]. auto.
Qed.

(** More fuel never changes a result. *)
Lemma while_mono {S : Type} (cond : S -> bool) (body : S -> S) fuel fuel' s s' :
  while fuel cond body s = Some s' -> (fuel <= fuel')%nat -> while fuel' cond body s = Some s'.
Proof.
  revert fuel' s. induction fuel as [|fuel IH]; intros fuel' s H Hle; [discriminate|].
  destruct fuel' as [|fuel']; [lia|]. cbn [while] in *.
  destruct (cond s); [|exact H]. apply IH; [exact H | lia].
Qed.

(** ** Case analysis on boolean tests *)

(** Turn the integer tests of the context into propositions. *)
Ltac zbool :=
  repeat match goal with
  | H : (_ && _)%bool = true |- _ => apply andb_true_iff in H; destruct H
  | H : (_ || _)%bool = false |- _ => apply orb_false_iff in H; destruct H
  | H : negb _ = true |- _ => apply negb_true_iff in H
  | H : negb _ = false |- _ => apply negb_false_iff in H
  | H : (_ =? _) = true |- _ => apply Z.eqb_eq in H
  | H : (_ =? _) = false |- _ => apply Z.eqb_neq in H
  | H : (_ <? _) = true |- _ => apply Z.ltb_lt in H
  | H : (_ <? _) = false |- _ => apply Z.ltb_ge in H
  | H : (_ <=? _) = true |- _ => apply Z.leb_le in H
  | H : (_ <=? _) = false |- _ => apply Z.leb_gt in H
  end.

(** Split on an integer test of the goal, keeping what it says. *)
Ltac ztest :=
  match goal with
  | |- context [?a =? ?b] => destruct (Z.eqb_spec a b)
  | |- context [?a <? ?b] => destruct (Z.ltb_spec a b)
  | |- context [?a <=? ?b] => destruct (Z.leb_spec a b)
  end.

(** Decide every integer test of the goal. *)
Ltac zdec := repeat ztest; cbn [andb orb negb]; try reflexivity.

(** Linear arithmetic with quotients and remainders by constants. *)
Ltac dlia := Z.div_mod_to_equations; lia.

(** A sum of products of nonnegative factors is nonnegative. *)
Ltac nonneg :=
  solve [repeat first [lia | apply Z.add_nonneg_nonneg | apply Z.mul_nonneg_nonneg | apply Z.pow_nonneg]].

(** ** Lists updated by index *)

Fixpoint replace_nth {A : Type} (k : nat) (x : A) (l : list A) : list A :=
  match l, k with
  | [], _ => []
  | _ :: l, O => x :: l
  | y :: l, S k => y :: replace_nth k x l
  end.

Lemma replace_nth_length {A} k (x : A) l : length (replace_nth k x l) = length l.
Proof. revert k. induction l; intros [|k]; cbn; congruence. Qed.

Lemma nth_error_replace {A} k (x : A) l j :
  nth_error (replace_nth k x l) j = if Nat.eqb j k then option_map (fun _ => x) (nth_error l k) else nth_error l j.
Proof. revert k j. induction l as [|y l IH]; intros [|k] [|j]; cbn; try reflexivity; [now destruct (Nat.eqb j k) | apply IH]. Qed.

Lemma nth_replace {A} k (x d : A) l j : (k < length l)%nat ->
  nth j (replace_nth k x l) d = if Nat.eqb j k then x else nth j l d.
Proof.
  revert k j. induction l as [|y l IH]; intros [|k] [|j] Hk; cbn in *; try lia; try reflexivity. apply IH. lia.
Qed.

Lemma replace_nth_comm {A} j k (x y : A) l : j <> k ->
  replace_nth j x (replace_nth k y l) = replace_nth k y (replace_nth j x l).
Proof.
  revert j k. induction l as [|z l IH]; intros [|j] [|k] Hjk; cbn; try congruence. f_equal. apply IH. congruence.
Qed.

Lemma map_replace {A B} (f : A -> B) k x l : map f (replace_nth k x l) = replace_nth k (f x) (map f l).
Proof. revert k. induction l; intros [|k]; cbn; congruence. Qed.

Lemma replace_nth_id {A} k (x : A) l : nth_error l k = Some x -> replace_nth k x l = l.
Proof. revert k. induction l as [|y l IH]; intros [|k]; cbn; try congruence. intros H. f_equal. auto. Qed.

Lemma Forall_replace {A} (P : A -> Prop) k x l : Forall P l -> P x -> Forall P (replace_nth k x l).
Proof. intros Hl Hx. revert k. induction Hl; intros [|k]; cbn; auto. Qed.

Lemma nth_error_combine {A B} (l : list A) (m : list B) i x y :
  nth_error (combine l m) i = Some (x, y) <-> nth_error l i = Some x /\ nth_error m i = Some y.
Proof.
  revert m i. induction l as [|a l IH]; intros [|b m] [|i]; cbn; try (intuition congruence). apply IH.
Qed.

(** The elements of a list with their positions. *)
Lemma in_enumerate_from {A} (l : list A) s i x :
  In (i, x) (combine (seq s (length l)) l) <-> (s <= i)%nat /\ nth_error l (i - s) = Some x.
Proof.
  revert s. induction l as [|a l IH]; intros s; cbn [length seq combine In].
  - split; [easy|]. intros [_ E]. now destruct (i - s)%nat.
  - rewrite IH. split.
    + intros [[= <- <-]|[Hle E]]; [now rewrite Nat.sub_diag|]. split; [lia|].
      replace (i - s)%nat with (S (i - S s)) by lia. exact E.
    + intros [Hle E]. destruct (Nat.eq_dec i s) as [->|Hne].
      * rewrite Nat.sub_diag in E. injection E as ->. now left.
      * right. split; [lia|]. replace (i - s)%nat with (S (i - S s)) in E by lia. exact E.
Qed.

Lemma in_enumerate {A} (l : list A) i x : In (i, x) (combine (seq 0 (length l)) l) <-> nth_error l i = Some x.
Proof. rewrite in_enumerate_from, Nat.sub_0_r. intuition lia. Qed.

Lemma in_replace {A} k (x y : A) l : In y (replace_nth k x l) -> y = x \/ In y l.
Proof.
  revert k. induction l as [|z l IH]; intros [|k]; cbn; try tauto; [intuition congruence|].
  intros [->|H]; [tauto|]. apply IH in H. tauto.
Qed.

Lemma NoDup_concat_map {A B} (f : A -> list B) l : (forall x, In x l -> NoDup (f x)) ->
  (forall i j x y w, nth_error l i = Some x -> nth_error l j = Some y -> In w (f x) -> In w (f y) -> i = j) ->
  NoDup (concat (map f l)).
Proof.
  induction l as [|x l IH]; intros HN HU; [constructor|]. cbn [map concat]. apply NoDup_app.
  - apply HN. now left.
  - apply IH; [intros y Hy; apply HN; now right|]. intros i j y z w Hi Hj Hy Hz.
    injection (HU (S i) (S j) y z w Hi Hj Hy Hz). auto.
  - intros w Hx Hc. apply in_concat in Hc as (ws & Hws & Hw). apply in_map_iff in Hws as (y & <- & Hy).
    apply In_nth_error in Hy as (j & Hj). discriminate (HU 0%nat (S j) x y w eq_refl Hj Hx Hw).
Qed.

Lemma map_fst_combine {A B} (l : list A) (m : list B) : length l = length m -> map fst (combine l m) = l.
Proof. revert m. induction l as [|x l IH]; intros [|y m] H; try discriminate; [reflexivity|]. cbn. f_equal. auto. Qed.

(** ** Integer lemmas shared by the components *)

Create HintDb cint.
Create Rewrite HintDb cintrw.

Lemma pow2_pos n : 0 <= n -> 0 < 2 ^ n.
Proof. intros. apply Z.pow_pos_nonneg; lia. Qed.
#[export] Hint Resolve pow2_pos : cint.

Lemma pow2_le a b : 0 <= a -> a <= b -> 2 ^ a <= 2 ^ b.
Proof. intros. apply Z.pow_le_mono_r; lia. Qed.

Lemma pow2_lt a b : 0 <= a -> a < b -> 2 ^ a < 2 ^ b.
Proof. intros. apply Z.pow_lt_mono_r; lia. Qed.

Lemma pow2_succ n : 0 <= n -> 2 ^ (n + 1) = 2 * 2 ^ n.
Proof. intros. rewrite Z.pow_add_r by lia. lia. Qed.

(** Floor division is determined by its bounds. *)
Lemma div_eq a b q : 0 < b -> q * b <= a < (q + 1) * b -> a / b = q.
Proof. intros Hb H. symmetry. apply (Z.div_unique a b q (a - q * b)); lia. Qed.

Lemma div_bounds a b : 0 < b -> a / b * b <= a < (a / b + 1) * b.
Proof.
  intros Hb. pose proof (Z.div_mod a b ltac:(lia)). pose proof (Z.mod_pos_bound a b Hb). lia.
Qed.

Lemma land_ones_mod a n : 0 <= n -> a &&& (2 ^ n - 1) = a mod 2 ^ n.
Proof.
  intros. rewrite <- Z.land_ones by lia. f_equal. rewrite Z.ones_equiv. lia.
Qed.

(** Bitwise or of numbers with disjoint bits is their sum. *)
Lemma lor_add a b n : 0 <= n -> 0 <= b < 2 ^ n -> a mod 2 ^ n = 0 -> a ||| b = a + b.
Proof.
  intros Hn Hb Ha. rewrite Z.add_nocarry_lxor, Z.lxor_lor; try reflexivity.
  all: apply Z.bits_inj'; intros i Hi; rewrite Z.land_spec, Z.bits_0.
  all: destruct (Z.lt_ge_cases i n).
  1, 3: assert (Z.testbit a i = false) as ->; [|reflexivity].
  1, 2: rewrite <- (Z.mod_pow2_bits_low a n i) by lia; rewrite Ha; apply Z.bits_0.
  1, 2: assert (Z.testbit b i = false) as ->; [|apply andb_false_r].
  1, 2: rewrite <- (Z.mod_small b (2 ^ n)) by lia; apply Z.mod_pow2_bits_high; lia.
Qed.

Lemma shiftl_mod0 a n : 0 <= n -> (a << n) mod 2 ^ n = 0.
Proof. intros. rewrite Z.shiftl_mul_pow2 by lia. apply Z.mod_mul. pose proof (pow2_pos n). lia. Qed.
