(* ===== verification/CInt.v ===== *)
(** * Machine integers of the C code

    An object of a [w]-bit C type is the [Z] it denotes: unsigned types range over
    [0, 2^w), signed ones over [-2^(w-1), 2^(w-1)).  A conversion to the type is written out:
    [uw w] reduces modulo 2^w, [sw w] does so in two's complement. *)

From S2P Require Import Prelude.

Definition uw (w x : Z) : Z := x mod 2 ^ w.
Definition sw (w x : Z) : Z := (x + 2 ^ (w - 1)) mod 2 ^ w - 2 ^ (w - 1).

Definition u16 := uw 16.
Definition u32 := uw 32.
Definition u64 := uw 64.
Definition s8 := sw 8.
Definition s16 := sw 16.
Definition s32 := sw 32.
Definition s64 := sw 64.

Definition is_u (w x : Z) : Prop := 0 <= x < 2 ^ w.
Definition is_s (w x : Z) : Prop := - 2 ^ (w - 1) <= x < 2 ^ (w - 1).

Lemma uw_small w x : is_u w x -> uw w x = x.
Proof. apply Z.mod_small. Qed.

Lemma uw_range w x : 0 <= w -> is_u w (uw w x).
Proof. intros. apply Z.mod_pos_bound, pow2_pos. lia. Qed.

Lemma sw_small w x : 0 < w -> is_s w x -> sw w x = x.
Proof.
  intros Hw Hx. unfold sw, is_s in *.
  replace w with (w - 1 + 1) at 2 by lia. rewrite pow2_succ by lia.
  rewrite Z.mod_small; lia.
Qed.

Lemma sw_range w x : 0 < w -> is_s w (sw w x).
Proof.
  intros Hw. unfold sw, is_s.
  pose proof (Z.mod_pos_bound (x + 2 ^ (w - 1)) (2 ^ w) (pow2_pos w ltac:(lia))).
  replace w with (w - 1 + 1) in * by lia. rewrite pow2_succ in * by lia.
  replace (w - 1 + 1 - 1) with (w - 1) in * by lia. lia.
Qed.

Lemma uw_sw w x : 0 < w -> uw w (sw w x) = uw w x.
Proof.
  intros Hw. unfold uw, sw. rewrite Zminus_mod_idemp_l. f_equal. lia.
Qed.

Lemma sw_uw w x : 0 < w -> sw w (uw w x) = sw w x.
Proof. intros Hw. unfold uw, sw. now rewrite Zplus_mod_idemp_l. Qed.

(** Values that agree modulo 2^w convert to the same object. *)
Lemma sw_cong w x y : 0 < w -> x mod 2 ^ w = y mod 2 ^ w -> sw w x = sw w y.
Proof. intros Hw H. rewrite <- (sw_uw w x), <- (sw_uw w y) by lia. unfold uw. now rewrite H. Qed.

(** The conversion subtracts the multiple of 2^w that brings the value in range. *)
Lemma sw_wrap w x k : 0 < w -> is_s w (x + k * 2 ^ w) -> sw w x = x + k * 2 ^ w.
Proof.
  intros Hw H. rewrite <- (sw_small w (x + k * 2 ^ w)) by assumption. apply sw_cong; [assumption|].
  now rewrite Z.mod_add by (apply Z.pow_nonzero; lia).
Qed.

#[export] Hint Rewrite uw_sw sw_uw using lia : cintrw.
#[export] Hint Unfold u16 u32 u64 s8 s16 s32 s64 is_u is_s : cint.

(** ** Single bits *)

Lemma land_pow2 x n : 0 <= n -> x &&& 2 ^ n = if Z.testbit x n then 2 ^ n else 0.
Proof.
  intros Hn. apply Z.bits_inj'. intros i Hi. rewrite Z.land_spec, Z.pow2_bits_eqb by lia.
  destruct (Z.eqb_spec n i) as [<-|Hne].
  - destruct (Z.testbit x n); cbn [andb]; [now rewrite Z.pow2_bits_true | now rewrite Z.bits_0].
  - rewrite andb_false_r. destruct (Z.testbit x n); [|now rewrite Z.bits_0].
    rewrite Z.pow2_bits_false by lia. reflexivity.
Qed.

(** The sign-bit test [x & (1 << (w-1))] of an unsigned word. *)
Lemma truthy_top_bit w x : 0 < w -> is_u w x -> truthy (x &&& 2 ^ (w - 1)) = (2 ^ (w - 1) <=? x).
Proof.
  intros Hw Hx. rewrite land_pow2 by lia. pose proof (pow2_pos (w - 1) ltac:(lia)).
  unfold is_u in Hx. replace w with (w - 1 + 1) in Hx at 1 by lia. rewrite pow2_succ in Hx by lia.
  unfold truthy. destruct (Z.leb_spec (2 ^ (w - 1)) x) as [H1|H1].
  - rewrite (proj2 (Z.testbit_true x (w - 1) ltac:(lia))).
    + destruct (Z.eqb_spec (2 ^ (w - 1)) 0); [lia | reflexivity].
    + rewrite (div_eq x _ 1) by lia. reflexivity.
  - rewrite (proj2 (Z.testbit_false x (w - 1) ltac:(lia))); [reflexivity|].
    rewrite Z.div_small by lia. reflexivity.
Qed.

Lemma land_1_odd x : x &&& 1 = x mod 2.
Proof. exact (Z.land_ones x 1 ltac:(lia)). Qed.

Lemma shiftl_1 x : x << 1 = 2 * x.
Proof. rewrite Z.shiftl_mul_pow2 by lia. lia. Qed.

Lemma shiftr_1 x : x >> 1 = x / 2.
Proof. rewrite Z.shiftr_div_pow2 by lia. reflexivity. Qed.

Lemma truthy_pow2 n : 0 <= n -> truthy (2 ^ n) = true.
Proof. intros. pose proof (pow2_pos n ltac:(lia)). unfold truthy. destruct (Z.eqb_spec (2 ^ n) 0); [lia|reflexivity]. Qed.

#[export] Hint Rewrite shiftl_1 shiftr_1 : cintrw.

(** ** Range of the word operations *)

Lemma lor_bound a b n : 0 <= n -> 0 <= a < 2 ^ n -> 0 <= b < 2 ^ n -> 0 <= a ||| b < 2 ^ n.
Proof.
  intros Hn Ha Hb. split; [apply Z.lor_nonneg; lia|].
  assert (a ||| b = (a ||| b) mod 2 ^ n) as ->; [|apply Z.mod_pos_bound, pow2_pos; lia].
  rewrite <- Z.land_ones, Z.land_lor_distr_l, !Z.land_ones, !Z.mod_small by lia. reflexivity.
Qed.

Lemma lor_word w a b : 0 <= w -> is_u w a -> is_u w b -> is_u w (a ||| b).
Proof. apply lor_bound. Qed.

Lemma shr_word w a k : is_u w a -> 0 <= k -> is_u w (a >> k).
Proof.
  unfold is_u. intros Ha Hk. rewrite Z.shiftr_div_pow2 by lia. pose proof (pow2_pos k Hk).
  split; [apply Z.div_pos; lia | apply Z.div_lt_upper_bound; nia].
Qed.

Lemma b2z_word w b : 0 < w -> is_u w (b2z b).
Proof.
  intros Hw. pose proof (pow2_le 1 w ltac:(lia) ltac:(lia)). unfold is_u.
  destruct b; cbn [b2z]; lia.
Qed.

Lemma u32_word x : is_u 32 (u32 x).
Proof. apply uw_range. lia. Qed.

Lemma u32_small x : 0 <= x < 2 ^ 32 -> u32 x = x.
Proof. apply uw_small. Qed.

Lemma zero_word w : 0 <= w -> is_u w 0.
Proof. intros. pose proof (pow2_pos w). unfold is_u. lia. Qed.

#[export] Hint Resolve lor_word shr_word b2z_word u32_word zero_word : cint.
#[export] Hint Extern 1 (_ <= _) => lia : cint.
#[export] Hint Extern 1 (_ < _) => lia : cint.

(** ** Arithmetic modulo a power of two *)

Lemma land_mod x y n : 0 <= n -> (x mod 2 ^ n) &&& (y mod 2 ^ n) = (x &&& y) mod 2 ^ n.
Proof.
  intros Hn. rewrite <- !Z.land_ones by assumption. apply Z.bits_inj'. intros j Hj. rewrite !Z.land_spec.
  destruct (Z.testbit x j), (Z.testbit y j), (Z.testbit (Z.ones n) j); reflexivity.
Qed.

Lemma lor_mod x y n : 0 <= n -> (x mod 2 ^ n) ||| (y mod 2 ^ n) = (x ||| y) mod 2 ^ n.
Proof.
  intros Hn. rewrite <- !Z.land_ones by assumption. now rewrite Z.land_lor_distr_l.
Qed.

Lemma lxor_mod x y n : 0 <= n -> (x mod 2 ^ n) ^^^ (y mod 2 ^ n) = (x ^^^ y) mod 2 ^ n.
Proof.
  intros Hn. rewrite <- !Z.land_ones by assumption. apply Z.bits_inj'. intros j Hj.
  rewrite !Z.lxor_spec, !Z.land_spec, Z.lxor_spec.
  destruct (Z.testbit x j), (Z.testbit y j), (Z.testbit (Z.ones n) j); reflexivity.
Qed.

Lemma uw_idem w x : 0 <= w -> uw w (uw w x) = uw w x.
Proof. intros. unfold uw. now rewrite Z.mod_mod by (apply Z.pow_nonzero; lia). Qed.

Lemma uw_ring w x y : 0 <= w ->
  uw w (uw w x + uw w y) = uw w (x + y) /\ uw w (uw w x - uw w y) = uw w (x - y) /\ uw w (uw w x * uw w y) = uw w (x * y).
Proof.
  intros. unfold uw. pose proof (pow2_pos w). split; [|split].
  - symmetry. apply Z.add_mod. lia.
  - symmetry. apply Zminus_mod.
  - symmetry. apply Z.mul_mod. lia.
Qed.

Lemma uw_mul_l w x k : 0 <= w -> uw w (uw w x * k) = uw w (x * k).
Proof. intros. unfold uw. apply Zmult_mod_idemp_l. Qed.

Lemma sw_zero w x : 0 < w -> (sw w x =? 0) = (uw w x =? 0).
Proof.
  intros Hw. rewrite <- (sw_uw w x) by lia. pose proof (uw_range w x ltac:(lia)) as [R0 R1].
  pose proof (pow2_succ (w - 1) ltac:(lia)) as P. replace (w - 1 + 1) with w in P by lia.
  destruct (Z.eqb_spec (uw w x) 0) as [->|N].
  - rewrite sw_small by (unfold is_s; pose proof (pow2_pos (w - 1)); lia). reflexivity.
  - destruct (Z.ltb_spec (uw w x) (2 ^ (w - 1))).
    + rewrite sw_small by (unfold is_s; lia). now apply Z.eqb_neq.
    + rewrite (sw_wrap w _ (-1)) by (unfold is_s; lia). apply Z.eqb_neq. lia.
Qed.

(** Conversions through a wider type. *)
Lemma uw_uw w n x : 0 <= w <= n -> uw w (x mod 2 ^ n) = uw w x.
Proof.
  intros H. unfold uw. pose proof (pow2_pos w). replace n with (w + (n - w)) by lia. rewrite Z.pow_add_r by lia.
  rewrite Z.rem_mul_r by (try apply pow2_pos; lia).
  now rewrite Z.mul_comm, Z.mod_add, Z.mod_mod by lia.
Qed.

Lemma sw_mod w n x : 0 < w <= n -> sw w (x mod 2 ^ n) = sw w x.
Proof. intros H. rewrite <- (sw_uw w (x mod 2 ^ n)), <- (sw_uw w x) by lia. f_equal. apply uw_uw. lia. Qed.

Lemma sw_sw w n x : 0 < w <= n -> sw w (sw n x) = sw w x.
Proof.
  intros H. rewrite <- (sw_mod w n (sw n x)), <- (sw_mod w n x) by assumption.
  change (sw w (uw n (sw n x)) = sw w (uw n x)). now rewrite uw_sw by lia.
Qed.

Lemma s32_u32 x : s32 (u32 x) = s32 x.
Proof. apply (sw_uw 32). lia. Qed.

Lemma s64_u64 x : s64 (u64 x) = s64 x.
Proof. apply (sw_uw 64). lia. Qed.

Lemma u32_add_l x y : u32 (u32 x + y) = u32 (x + y).
Proof. apply Zplus_mod_idemp_l. Qed.
