(* ===== verification/Cpp.v ===== *)
(** * Outcomes of the toolset's C++ code

    A C++ function returns a value, throws one of the toolset's exceptions, or does something the
    language leaves undefined: shifting by the width of the type or more, following an index
    outside an array, or dividing by zero.  Left shifts of signed values are modular, as C++20 and
    the supported compilers have them. *)

From Stdlib Require String.
From S2P Require Import Prelude.
From S2P Require Import CInt.

Inductive exception :=
| OutOfRange
| InvalidData
| NumberFormatException
| KeyNotFound
| AssertionFailed
| SimulationExecutionError (message : String.string) (data : option Z)
| SimulatorException (message : String.string).

Inductive outcome (A : Type) :=
| Done (a : A)
| Throws (e : exception)
| Undefined.
Arguments Done {A} a.
Arguments Throws {A} e.
Arguments Undefined {A}.

Definition obind {A B : Type} (m : outcome A) (k : A -> outcome B) : outcome B :=
  match m with
  | Done a => k a
  | Throws e => Throws e
  | Undefined => Undefined
  end.

Definition outcome_map {A B : Type} (f : A -> B) (m : outcome A) : outcome B := obind m (fun a => Done (f a)).

Declare Scope cpp_scope.
Delimit Scope cpp_scope with cpp.
Notation "x <~ m ; k" := (obind m (fun x => k)) (at level 20, m at level 100, k at level 200) : cpp_scope.
Notation "' p <~ m ; k" := (obind m (fun p => k))
  (at level 20, p pattern, m at level 100, k at level 200) : cpp_scope.
Notation "'requires' c ; k" := (if c then k else Undefined)
  (at level 10, c at level 100, k at level 200) : cpp_scope.

(** A loop over a list that stops at the first outcome that is not a value. *)
Fixpoint traverse {A B : Type} (f : A -> outcome B) (l : list A) : outcome (list B) :=
  match l with
  | [] => Done []
  | x :: l => obind (f x) (fun y => outcome_map (cons y) (traverse f l))
  end.

(** Two computations that return related values, throw the same exception, or are both undefined. *)
Definition related {A B : Type} (R : A -> B -> Prop) (m : outcome A) (n : outcome B) : Prop :=
  match m, n with
  | Done a, Done b => R a b
  | Throws e, Throws e' => e = e'
  | Undefined, Undefined => True
  | _, _ => False
  end.

Lemma related_bind {A B A' B'} (R : A -> B -> Prop) (S : A' -> B' -> Prop) m n f g :
  related R m n -> (forall a b, R a b -> related S (f a) (g b)) -> related S (obind m f) (obind n g).
Proof. destruct m, n; cbn; auto; contradiction. Qed.

Lemma related_impl {A B} (R S : A -> B -> Prop) m n : (forall a b, R a b -> S a b) -> related R m n -> related S m n.
Proof. destruct m, n; cbn; auto. Qed.

Lemma related_refl {A} (R : A -> A -> Prop) m : (forall a, R a a) -> related R m m.
Proof. destruct m; cbn; auto. Qed.

Lemma traverse_done {A B} (f : A -> outcome B) (P : A -> B -> Prop) l :
  Forall (fun x => exists y, f x = Done y /\ P x y) l -> exists ys, traverse f l = Done ys /\ Forall2 P l ys.
Proof.
  induction 1 as [|x l (y & E & HP) _ (ys & E' & HP')]; [now exists []|].
  exists (y :: ys). cbn. rewrite E, E'. split; [reflexivity | now constructor].
Qed.

(** ** Shifts, with the count in range *)

(** [x << k] and [x >> k] on an unsigned type of [w] bits, [x << k] on a signed one. *)
Definition shl (w x k : Z) : outcome Z :=
  if (0 <=? k) && (k <? w) then Done (uw w (x << k)) else Undefined.
Definition shr (w x k : Z) : outcome Z :=
  if (0 <=? k) && (k <? w) then Done (x >> k) else Undefined.
Definition sshl (w x k : Z) : outcome Z :=
  if (0 <=? k) && (k <? w) then Done (sw w (x << k)) else Undefined.

Lemma shl_done w x k : 0 <= k < w -> shl w x k = Done (uw w (x * 2 ^ k)).
Proof. intros H. unfold shl. zdec; [now rewrite Z.shiftl_mul_pow2 by lia | lia..]. Qed.

Lemma shr_done w x k : 0 <= k < w -> shr w x k = Done (x / 2 ^ k).
Proof. intros H. unfold shr. zdec; [now rewrite Z.shiftr_div_pow2 by lia | lia..]. Qed.

Lemma sshl_done w x k : 0 <= k < w -> sshl w x k = Done (sw w (x * 2 ^ k)).
Proof. intros H. unfold sshl. zdec; [now rewrite Z.shiftl_mul_pow2 by lia | lia..]. Qed.

Lemma shl_undefined w x k : ~ 0 <= k < w -> shl w x k = Undefined.
Proof. intros H. unfold shl. zdec; lia. Qed.

Lemma shr_undefined w x k : ~ 0 <= k < w -> shr w x k = Undefined.
Proof. intros H. unfold shr. zdec; lia. Qed.

Lemma sshl_undefined w x k : ~ 0 <= k < w -> sshl w x k = Undefined.
Proof. intros H. unfold sshl. zdec; lia. Qed.

Create Rewrite HintDb cpp.
#[export] Hint Rewrite shl_done shr_done sshl_done using lia : cpp.

(** ** Masks *)

(** Shifting up by [w - n] and back down keeps the low [n] bits. *)
Lemma uw_shift_back w n x : 0 <= n <= w -> uw w (x * 2 ^ (w - n)) / 2 ^ (w - n) = uw n x.
Proof.
  intros H. unfold uw. pose proof (pow2_pos (w - n) ltac:(lia)). pose proof (pow2_pos n ltac:(lia)).
  replace w with (n + (w - n)) at 2 by lia. rewrite Z.pow_add_r by lia.
  rewrite Z.mul_mod_distr_r by lia. now rewrite Z.div_mul by lia.
Qed.

Lemma sw_shift_back w n x : 0 < n <= w -> sw w (x * 2 ^ (w - n)) / 2 ^ (w - n) = sw n x.
Proof.
  intros H. unfold sw. pose proof (pow2_pos (w - n) ltac:(lia)). pose proof (pow2_pos n ltac:(lia)).
  replace (2 ^ (w - 1)) with (2 ^ (n - 1) * 2 ^ (w - n)) by (rewrite <- Z.pow_add_r by lia; f_equal; lia).
  replace (2 ^ w) with (2 ^ n * 2 ^ (w - n)) by (rewrite <- Z.pow_add_r by lia; f_equal; lia).
  rewrite <- Z.mul_add_distr_r, Z.mul_mod_distr_r by lia. rewrite <- Z.mul_sub_distr_r.
  now rewrite Z.div_mul by lia.
Qed.

(** The complement of [n] shifted-out ones is a mask of [n] ones. *)
Lemma low_mask w n : 0 <= n <= w -> uw w (- 1 - uw w (- 1 * 2 ^ n)) = 2 ^ n - 1.
Proof.
  intros H. unfold uw. pose proof (pow2_pos n ltac:(lia)). pose proof (pow2_le n w ltac:(lia) ltac:(lia)).
  replace (-1 * 2 ^ n) with (2 ^ w - 2 ^ n + -1 * 2 ^ w) by lia.
  rewrite Z.mod_add by lia.
  destruct (Z.eq_dec n 0) as [->|].
  - rewrite (Z.mod_small (2 ^ w - 2 ^ 0)) by lia. replace (-1 - (2 ^ w - 2 ^ 0)) with (0 + -1 * 2 ^ w) by lia.
    rewrite Z.mod_add, Z.mod_0_l by lia. reflexivity.
  - rewrite (Z.mod_small (2 ^ w - 2 ^ n)) by lia.
    replace (-1 - (2 ^ w - 2 ^ n)) with (2 ^ n - 1 + -1 * 2 ^ w) by lia.
    rewrite Z.mod_add, Z.mod_small by lia. reflexivity.
Qed.

(** [~(~0u << n)]. *)
Lemma not_high_ones w n : 0 <= n <= w -> uw w (Z.lnot (uw w ((2 ^ w - 1) * 2 ^ n))) = 2 ^ n - 1.
Proof.
  intros H. rewrite <- (low_mask w n) by assumption. f_equal. unfold Z.lnot, uw.
  replace ((2 ^ w - 1) * 2 ^ n) with (-1 * 2 ^ n + 2 ^ n * 2 ^ w) by lia.
  rewrite Z.mod_add by (pose proof (pow2_pos w); lia). lia.
Qed.

Lemma uw_land_mask n w x : 0 <= n <= w -> uw w x &&& (2 ^ n - 1) = uw n x.
Proof.
  intros H. rewrite land_ones_mod by lia. unfold uw.
  pose proof (pow2_pos n ltac:(lia)). replace w with (n + (w - n)) by lia. rewrite Z.pow_add_r by lia.
  rewrite Z.rem_mul_r by (try apply pow2_pos; lia).
  rewrite Z.mul_comm, Z.add_mod, Z.mod_mul, Z.add_0_r, !Z.mod_mod by lia. reflexivity.
Qed.
