(* ===== verification/MathTools.v ===== *)
(** * Bit-field arithmetic of the toolset (src/tools/MathTools.icc, MathTools.cc)

    The helpers the simulator, the instruction encoder and the bit image generator share: widths of
    numbers, extension from a width, bit fields and powers of two.  [ULongWord] and [SLongWord] have
    64 bits.  The random and floating-point helpers (random, ceil_log2, ceil_div) are left out. *)

From S2P Require Import Prelude.
From S2P Require Import CInt.
From S2P Require Import Cpp.

#[local] Open Scope cpp_scope.

(** ** Widths of numbers *)

Definition required_step (s : Z * Z) : Z * Z := let '(number, bits) := s in (number >> 1, u32 (bits + 1)).

Definition requiredBits0Bit0 (fuel : nat) (number : Z) : option Z :=
  option_map (fun s => s32 (snd s)) (while fuel (fun s => negb (fst s =? 0)) required_step (number, 0)).

Definition requiredBits (fuel : nat) (number : Z) : option Z :=
  if number =? 0 then Some 1 else requiredBits0Bit0 fuel number.

Definition bitLength (fuel : nat) (number : Z) : option Z :=
  option_map snd (while fuel (fun s => negb (fst s =? 0)) required_step (number, 0)).

Definition requiredBitsSigned (fuel : nat) (number : Z) : option Z :=
  option_map snd
    (while fuel (fun s => negb (fst s =? -1) && negb (fst s =? 0))
       (fun s => (fst s >> 1, s32 (snd s + 1))) (number, 1)).

(** The overloads for [UInt32] and [ULongWord] reinterpret the argument as signed. *)
Definition requiredBitsSigned_UInt32 (fuel : nat) (number : Z) : option Z :=
  requiredBitsSigned fuel (s32 number).
Definition requiredBitsSigned_ULongWord (fuel : nat) (number : Z) : option Z :=
  requiredBitsSigned fuel (s64 number).

(** ** Extension from a width *)

Definition fastSignExtendTo (value width : Z) : outcome Z :=
  value <~ sshl 64 value (64 - width) ;
  shr 64 value (64 - width).

Definition signExtendTo (value width : Z) : outcome Z :=
  if 64 <? width then Throws OutOfRange else fastSignExtendTo value width.

Definition fastZeroExtendTo (value width : Z) : outcome Z :=
  mask <~ shr 64 (2 ^ 64 - 1) (64 - width) ;
  Done (value &&& mask).

Definition zeroExtendTo (value width : Z) : outcome Z :=
  if 64 <? width then Throws OutOfRange else fastZeroExtendTo value width.

(** ** Bit fields *)

Definition bitFieldsEquals (enc1 pos1 enc2 pos2 width : Z) : outcome bool :=
  if truthy width then
    enc1 <~ shr 32 enc1 pos1 ;
    enc2 <~ shr 32 enc2 pos2 ;
    ones <~ shl 32 (2 ^ 32 - 1) width ;
    let mask := u32 (Z.lnot ones) in
    Done ((enc1 &&& mask) =? (enc2 &&& mask))
  else Done false.

(** [1 << index] has type [int]; it is converted to [ULongWord] for the test. *)
Definition bit (integer index : Z) : outcome bool :=
  mask <~ sshl 32 1 index ;
  Done (truthy (integer &&& u64 mask)).

Definition setBit (w bits index : Z) (bitState : bool) : outcome Z :=
  mask <~ shl w 1 index ;
  Done (if bitState then bits ||| mask else bits &&& uw w (Z.lnot mask)).

Definition concatenateBits (msbBitField msbWidth lsbBitField lsbWidth : Z) : outcome Z :=
  let allOnes := u64 (-1) in
  msbOnes <~ shl 64 allOnes msbWidth ;
  lsbOnes <~ shl 64 allOnes lsbWidth ;
  high <~ shl 64 (msbBitField &&& u64 (Z.lnot msbOnes)) lsbWidth ;
  Done (high ||| (lsbBitField &&& u64 (Z.lnot lsbOnes))).

(** ** Powers of two *)

Fixpoint find_power (w : Z) (fuel : nat) (stop : Z -> bool) (i : Z) : outcome Z :=
  p <~ shl w 1 i ;
  if stop p then Done i
  else match fuel with O => Undefined | S fuel => find_power w fuel stop (i + 1) end.

(** Sixty-four rounds reach a count that is undefined before the fuel ends. *)
Definition roundUpToPowerTwo (number : Z) : outcome Z :=
  if number =? 0 then Done 0
  else i <~ find_power 32 64 (fun p => negb (p <? number)) 0 ; shl 32 1 i.

Definition roundUpToPowerTwo_int (number : Z) : outcome Z := outcome_map s32 (roundUpToPowerTwo (u32 number)).

Definition roundDownToPowerTwo (number : Z) : outcome Z :=
  if number =? 0 then Done 0
  else i <~ find_power 64 64 (fun p => negb (p <=? number)) 0 ; outcome_map (fun p => p >> 1) (shl 64 1 i).

Definition roundDownToPowerTwo_signed (number : Z) : outcome Z := outcome_map s64 (roundDownToPowerTwo (u64 number)).

Definition bitset_count (number : Z) : nat :=
  length (List.filter (fun i => Z.testbit number (Z.of_nat i)) (seq 0 32)).

Definition isInPowerOfTwo (number : Z) : bool := (bitset_count number =? 1)%nat.

(** The range of a field, for result types of [w] bits; negating the least integer overflows. *)
Definition bitsToIntegerRange (w bitWidth : Z) (signExtending : bool) : outcome (Z * Z) :=
  if bitWidth =? 0 then Done (0, 0)
  else if signExtending then
    low <~ sshl w 1 (u32 (bitWidth - 1)) ;
    high <~ shl w 1 (u32 (bitWidth - 1)) ;
    requires negb (low =? - 2 ^ (w - 1)) ;
    Done (- low, uw w (high - 1))
  else
    high <~ shl w 1 bitWidth ;
    Done (0, uw w (high - 1)).

Example required_bits_5 : requiredBits 65 5 = Some 3 /\ requiredBitsSigned 65 (-5) = Some 4.
Proof. now vm_compute. Qed.
Example extend_5 : signExtendTo 13 4 = Done (-3) /\ zeroExtendTo (2 ^ 64 - 3) 4 = Done 13.
Proof. now vm_compute. Qed.
(** The examples of the source's comments. *)
Example fields_equal : bitFieldsEquals 859 6 756 2 4 = Done true.
Proof. now vm_compute. Qed.
Example concatenated : concatenateBits 12 4 13 3 = Done 101.
Proof. now vm_compute. Qed.
Example powers : roundUpToPowerTwo 5 = Done 8 /\ roundDownToPowerTwo 5 = Done 4 /\ isInPowerOfTwo 6 = false.
Proof. now vm_compute. Qed.

(** ** Widths *)

(** The number of bits of a nonnegative number, and of a two's complement one. *)
Definition width (n : Z) : Z := if n =? 0 then 0 else Z.log2 n + 1.
Definition swidth (n : Z) : Z := width (if n <? 0 then - n - 1 else n) + 1.

Lemma width_half n : 0 < n -> width n = width (n / 2) + 1.
Proof.
  intros Hn. unfold width. destruct (Z.eqb_spec n 0); [lia|].
  destruct (Z.eqb_spec (n / 2) 0) as [E|E].
  - replace n with 1 by dlia. reflexivity.
  - rewrite <- (Z.div2_div n), Z.div2_spec, Z.log2_shiftr by lia.
    assert (1 <= Z.log2 n) by (apply Z.log2_le_pow2; dlia). lia.
Qed.

Lemma width_le n k : 0 <= n -> 0 <= k -> width n <= k <-> n < 2 ^ k.
Proof.
  intros Hn Hk. unfold width. destruct (Z.eqb_spec n 0) as [->|].
  - pose proof (pow2_pos k Hk). lia.
  - rewrite (Z.log2_lt_pow2 n k) by lia. lia.
Qed.

Lemma width_nonneg n : 0 <= width n.
Proof. unfold width. destruct (n =? 0); [lia|]. pose proof (Z.log2_nonneg n). lia. Qed.

Lemma width_unsigned n k : 0 <= k -> is_u k n <-> 0 <= n /\ width n <= k.
Proof.
  intros Hk. unfold is_u. split; [intros [H0 H1] | intros [H0 H1]]; split; try assumption;
    now apply (width_le n k).
Qed.

Lemma swidth_signed n k : 1 <= k -> is_s k n <-> swidth n <= k.
Proof.
  intros Hk. unfold is_s, swidth.
  pose proof (width_le (if n <? 0 then - n - 1 else n) (k - 1)). destruct (Z.ltb_spec n 0); lia.
Qed.

Lemma required_loop (k : nat) : forall n b fuel, 0 <= n < 2 ^ Z.of_nat k -> 0 <= b -> b + Z.of_nat k <= 64 ->
  (k < fuel)%nat ->
  while fuel (fun s => negb (fst s =? 0)) required_step (n, b) = Some (0, b + width n).
Proof.
  induction k as [|k IH]; intros n b fuel Hn Hb Hk Hf; (destruct fuel as [|fuel]; [lia|]); cbn [while fst].
  - replace n with 0 by (cbn in Hn; lia). now rewrite Z.add_0_r.
  - destruct (Z.eqb_spec n 0) as [->|]; cbn [negb]; [now rewrite Z.add_0_r|].
    cbn [required_step]. rewrite shiftr_1, u32_small by lia.
    rewrite Nat2Z.inj_succ, <- Z.add_1_r, pow2_succ in Hn by lia.
    rewrite IH, (width_half n) by dlia. do 2 f_equal. lia.
Qed.

Lemma required_signed_loop (k : nat) : forall n b fuel, - 2 ^ Z.of_nat k <= n < 2 ^ Z.of_nat k ->
  1 <= b -> b + Z.of_nat k <= 64 -> (k < fuel)%nat ->
  exists e, while fuel (fun s => negb (fst s =? -1) && negb (fst s =? 0))
       (fun s => (fst s >> 1, s32 (snd s + 1))) (n, b) = Some (e, b + (swidth n - 1)).
Proof.
  induction k as [|k IH]; intros n b fuel Hn Hb Hk Hf; (destruct fuel as [|fuel]; [lia|]); cbn [while fst snd].
  - exists n. cbn in Hn. assert (n = 0 \/ n = -1) as [-> | ->] by lia; cbn; do 2 f_equal; lia.
  - destruct (Z.eqb_spec n (-1)) as [->|]; [exists (-1); cbn; do 2 f_equal; lia|].
    destruct (Z.eqb_spec n 0) as [->|]; [exists 0; cbn; do 2 f_equal; lia|]. cbn [negb andb].
    rewrite shiftr_1. replace (s32 (b + 1)) with (b + 1) by (unfold s32; rewrite sw_small; unfold is_s; lia).
    rewrite Nat2Z.inj_succ, <- Z.add_1_r, pow2_succ in Hn by lia.
    destruct (IH (n / 2) (b + 1) fuel) as [e E]; [dlia | lia.. |]. exists e. rewrite E. do 2 f_equal.
    unfold swidth. destruct (Z.ltb_spec (n / 2) 0), (Z.ltb_spec n 0); [| dlia | dlia |].
    + rewrite (width_half (- n - 1)) by lia. replace (- (n / 2) - 1) with ((- n - 1) / 2) by dlia. lia.
    + rewrite (width_half n) by lia. lia.
Qed.

Lemma requiredBits_width fuel n : (64 < fuel)%nat -> is_u 64 n ->
  requiredBits fuel n = Some (Z.max 1 (width n)).
Proof.
  intros Hf Hn. unfold requiredBits, requiredBits0Bit0. destruct (Z.eqb_spec n 0) as [->|H0]; [reflexivity|].
  pose proof (proj1 (width_unsigned n 64 ltac:(lia)) Hn) as [_ Hw].
  rewrite (required_loop 64) by (unfold is_u in Hn; cbn; lia). cbn [option_map snd].
  unfold s32. pose proof (width_nonneg n). rewrite sw_small by (unfold is_s; lia). f_equal.
  unfold width. destruct (Z.eqb_spec n 0); [lia|]. pose proof (Z.log2_nonneg n). lia.
Qed.

Lemma requiredBitsSigned_width fuel n : (64 < fuel)%nat -> is_s 64 n ->
  requiredBitsSigned fuel n = Some (swidth n).
Proof.
  intros Hf Hn. unfold requiredBitsSigned. unfold is_s in Hn.
  destruct (required_signed_loop 63 n 1 fuel) as [e ->]; [cbn in *; lia..|]. cbn [option_map snd]. f_equal. lia.
Qed.

(** ** Extension *)

Lemma fastSignExtendTo_eq v width : 0 < width <= 64 -> fastSignExtendTo v width = Done (sw width v).
Proof.
  intros Hw. unfold fastSignExtendTo. rewrite sshl_done by lia. cbn [obind].
  rewrite shr_done by lia. now rewrite sw_shift_back.
Qed.

Lemma fastZeroExtendTo_eq v width : is_u 64 v -> 0 < width <= 64 ->
  fastZeroExtendTo v width = Done (uw width v).
Proof.
  intros Hv Hw. unfold fastZeroExtendTo. rewrite shr_done by lia. cbn [obind]. do 1 f_equal.
  replace ((2 ^ 64 - 1) / 2 ^ (64 - width)) with (2 ^ width - 1).
  - rewrite <- (uw_land_mask width 64) by lia. now rewrite uw_small.
  - symmetry. pose proof (pow2_pos (64 - width) ltac:(lia)).
    replace (2 ^ 64) with (2 ^ width * 2 ^ (64 - width)) by (rewrite <- Z.pow_add_r by lia; f_equal; lia).
    apply div_eq; nia.
Qed.

Lemma extension_undefined v w : w <= 0 -> signExtendTo v w = Undefined /\ zeroExtendTo v w = Undefined.
Proof.
  intros Hw. unfold signExtendTo, zeroExtendTo, fastSignExtendTo, fastZeroExtendTo.
  destruct (Z.ltb_spec 64 w); [lia|]. now rewrite sshl_undefined, shr_undefined by lia.
Qed.

Lemma sw_fixed w x : 0 < w -> sw w x = x <-> is_s w x.
Proof. intros Hw. split; [intros <-; now apply sw_range | now apply sw_small]. Qed.

Lemma uw_fixed w x : 0 <= w -> uw w x = x <-> is_u w x.
Proof. intros Hw. split; [intros <-; now apply uw_range | now apply uw_small]. Qed.

(** C13: The width functions and the extensions fit together.  Extending from [w] bits, 1 to 64,
    reduces modulo 2^w, in two's complement for the signed one; a wider request throws and one
    of zero or less shifts by at least the width of the type.  [requiredBits] and [requiredBitsSigned] return, for
    every 64-bit number and in at most 64 rounds, the least width of at least one bit from which
    the number comes back unchanged. *)
Theorem required_width_roundtrip fuel n m : (64 < fuel)%nat -> is_u 64 n -> is_s 64 m ->
  (forall w, zeroExtendTo n w
     = if 64 <? w then Throws OutOfRange else if 0 <? w then Done (uw w n) else Undefined) /\
  (forall w, signExtendTo m w
     = if 64 <? w then Throws OutOfRange else if 0 <? w then Done (sw w m) else Undefined) /\
  (exists k, requiredBits fuel n = Some k /\ 1 <= k <= 64 /\
     forall w, 1 <= w <= 64 -> zeroExtendTo n w = Done n <-> k <= w) /\
  (exists k, requiredBitsSigned fuel m = Some k /\ 1 <= k <= 64 /\
     forall w, 1 <= w <= 64 -> signExtendTo m w = Done m <-> k <= w).
Proof.
  intros Hf Hn Hm.
  assert (Z : forall w, 0 < w <= 64 -> zeroExtendTo n w = Done (uw w n)).
  { intros w Hw. unfold zeroExtendTo. destruct (Z.ltb_spec 64 w); [lia|]. now apply fastZeroExtendTo_eq. }
  assert (S : forall w, 0 < w <= 64 -> signExtendTo m w = Done (sw w m)).
  { intros w Hw. unfold signExtendTo. destruct (Z.ltb_spec 64 w); [lia|]. now apply fastSignExtendTo_eq. }
  split; [|split; [|split]].
  - intros w. destruct (Z.ltb_spec 64 w); [unfold zeroExtendTo; now zdec; lia|].
    destruct (Z.ltb_spec 0 w); [now apply Z|]. now apply extension_undefined.
  - intros w. destruct (Z.ltb_spec 64 w); [unfold signExtendTo; now zdec; lia|].
    destruct (Z.ltb_spec 0 w); [now apply S|]. now apply extension_undefined.
  - exists (Z.max 1 (width n)). split; [now apply requiredBits_width|].
    pose proof (proj1 (width_unsigned n 64 ltac:(lia)) Hn). split; [lia|]. intros w Hw. rewrite Z by lia.
    transitivity (uw w n = n); [split; congruence|]. rewrite uw_fixed, width_unsigned by lia. lia.
  - exists (swidth m). split; [now apply requiredBitsSigned_width|].
    pose proof (proj1 (swidth_signed m 64 ltac:(lia)) Hm). pose proof (width_nonneg (if m <? 0 then - m - 1 else m)).
    split; [unfold swidth in *; lia|]. intros w Hw. rewrite S by lia.
    transitivity (sw w m = m); [split; congruence|]. now rewrite sw_fixed, swidth_signed by lia.
Qed.

Lemma required_width_witness :
  (exists k, requiredBits 65 5 = Some k /\ zeroExtendTo 5 3 = Done 5) /\
  zeroExtendTo 5 65 = Throws OutOfRange.
Proof.
  destruct (required_width_roundtrip 65 5 (-5)) as (E & _ & (k & Ek & _ & H) & _);
    [lia | unfold is_u; lia | unfold is_s; lia |].
  split; [|exact (E 65)]. exists k. split; [exact Ek|]. apply H; [lia|].
  cbv in Ek. injection Ek as <-. lia.
Defined.

(** ** Bit fields *)

Lemma field_mask x k : 0 <= k < 32 -> is_u 32 x ->
  x &&& u32 (Z.lnot (uw 32 ((2 ^ 32 - 1) * 2 ^ k))) = x mod 2 ^ k.
Proof.
  intros Hk Hx. unfold u32. rewrite not_high_ones by lia.
  rewrite <- (uw_small 32 x) at 1 by assumption. apply uw_land_mask; lia.
Qed.

Lemma field_mask64 x k : 0 <= k < 64 -> is_u 64 x ->
  x &&& u64 (Z.lnot (uw 64 (u64 (-1) * 2 ^ k))) = x mod 2 ^ k.
Proof.
  intros Hk Hx. change (u64 (-1)) with (2 ^ 64 - 1). unfold u64. rewrite not_high_ones by lia.
  rewrite <- (uw_small 64 x) at 1 by assumption. apply uw_land_mask; lia.
Qed.

Lemma bitFieldsEquals_eq e1 p1 e2 p2 width : is_u 32 e1 -> is_u 32 e2 -> 0 <= p1 < 32 -> 0 <= p2 < 32 ->
  0 <= width ->
  bitFieldsEquals e1 p1 e2 p2 width
    = if width =? 0 then Done false
      else if width <? 32 then Done ((e1 / 2 ^ p1) mod 2 ^ width =? (e2 / 2 ^ p2) mod 2 ^ width)
      else Undefined.
Proof.
  intros H1 H2 Hp1 Hp2 Hw. unfold bitFieldsEquals, truthy. destruct (Z.eqb_spec width 0) as [|]; [reflexivity|].
  cbn [negb]. rewrite !shr_done by lia. cbn [obind].
  destruct (Z.ltb_spec width 32); [|now rewrite shl_undefined by lia].
  rewrite shl_done by lia. cbn [obind].
  assert (forall e p, is_u 32 e -> 0 <= p -> is_u 32 (e / 2 ^ p)).
  { intros e p He Hp. rewrite <- Z.shiftr_div_pow2 by lia. now apply shr_word. }
  now rewrite !field_mask by (lia || (apply H0; lia || assumption)).
Qed.

Lemma bit_eq x i : is_u 64 x -> 0 <= i ->
  bit x i = if i <? 31 then Done (Z.testbit x i) else if i =? 31 then Done (2 ^ 31 <=? x) else Undefined.
Proof.
  intros Hx Hi. unfold bit. destruct (Z.ltb_spec i 31).
  - rewrite sshl_done by lia. cbn [obind]. rewrite Z.mul_1_l.
    pose proof (pow2_lt i 31 ltac:(lia) ltac:(lia)). pose proof (pow2_pos i Hi).
    rewrite sw_small by (unfold is_s; lia). unfold u64. rewrite uw_small by (unfold is_u; lia).
    rewrite land_pow2 by lia. destruct (Z.testbit x i); [now rewrite truthy_pow2 | reflexivity].
  - destruct (Z.eqb_spec i 31) as [->|]; [|now rewrite sshl_undefined by lia].
    change (sshl 32 1 31) with (Done (- 2 ^ 31)). cbn [obind]. f_equal.
    change (u64 (- 2 ^ 31)) with (2 ^ 64 - 1 - (2 ^ 31 - 1)).
    assert (E : x = (x / 2 ^ 31) * 2 ^ 31 + x mod 2 ^ 31) by (rewrite Z.mul_comm; apply Z.div_mod; lia).
    assert (L : x &&& (2 ^ 64 - 1 - (2 ^ 31 - 1)) = x / 2 ^ 31 * 2 ^ 31).
    { change (2 ^ 64 - 1 - (2 ^ 31 - 1)) with (Z.shiftl (2 ^ 33 - 1) 31).
      transitivity (((x >> 31) &&& (2 ^ 33 - 1)) << 31).
      - apply Z.bits_inj'. intros j Hj. rewrite Z.shiftl_spec, !Z.land_spec, Z.shiftl_spec by lia.
        destruct (Z.ltb_spec j 31).
        + rewrite !(Z.testbit_neg_r _ (j - 31)) by lia. now rewrite !andb_false_r.
        + rewrite Z.shiftr_spec by lia. now replace (j - 31 + 31) with j by lia.
      - rewrite land_ones_mod, Z.shiftr_div_pow2, Z.shiftl_mul_pow2 by lia. unfold is_u in Hx.
        now rewrite Z.mod_small by dlia. }
    rewrite L. unfold truthy. unfold is_u in Hx.
    destruct (Z.leb_spec (2 ^ 31) x), (Z.eqb_spec (x / 2 ^ 31 * 2 ^ 31) 0); cbn [negb]; dlia.
Qed.

Lemma setBit_bits w x i state : is_u w x -> 0 <= i < w ->
  exists y, setBit w x i state = Done y /\ is_u w y /\
    forall j, 0 <= j -> Z.testbit y j = if j =? i then state else Z.testbit x j.
Proof.
  intros Hx Hi. unfold setBit. rewrite shl_done by lia. cbn [obind]. rewrite Z.mul_1_l.
  pose proof (pow2_pos i ltac:(lia)). pose proof (pow2_lt i w ltac:(lia) ltac:(lia)).
  rewrite (uw_small w (2 ^ i)) by (unfold is_u; lia).
  assert (high : forall j, w <= j -> Z.testbit x j = false).
  { intros j Hj. destruct (Z.eq_dec x 0) as [->|]; [apply Z.bits_0|]. unfold is_u in Hx.
    apply Z.bits_above_log2; [lia|]. apply Z.log2_lt_pow2; [lia|]. pose proof (pow2_le w j ltac:(lia) Hj). lia. }
  destruct state.
  - exists (x ||| 2 ^ i). split; [reflexivity|]. split; [apply lor_word; unfold is_u; lia || assumption|].
    intros j Hj. rewrite Z.lor_spec, Z.pow2_bits_eqb, (Z.eqb_sym i j) by lia.
    destruct (j =? i); [apply orb_true_r | apply orb_false_r].
  - exists (x &&& uw w (Z.lnot (2 ^ i))). split; [reflexivity|].
    assert (bits : forall j, 0 <= j -> Z.testbit (x &&& uw w (Z.lnot (2 ^ i))) j
      = if j =? i then false else Z.testbit x j).
    { intros j Hj. rewrite Z.land_spec. unfold uw. rewrite <- Z.land_ones, Z.land_spec by lia.
      destruct (Z.ltb_spec j w).
      - rewrite Z.ones_spec_low, andb_true_r, Z.lnot_spec, Z.pow2_bits_eqb, (Z.eqb_sym i j) by lia.
        destruct (j =? i); [apply andb_false_r | apply andb_true_r].
      - rewrite Z.ones_spec_high, !andb_false_r by lia. destruct (Z.eqb_spec j i); [lia|].
        now rewrite high. }
    split; [|exact bits]. apply width_unsigned; [lia|]. split; [apply Z.land_nonneg; left; apply Hx|].
    apply width_le; [apply Z.land_nonneg; left; apply Hx | lia |].
    apply Z.le_lt_trans with x; [|apply Hx]. unfold is_u in Hx.
    rewrite <- (Z.add_0_r (x &&& _)). apply Z.ldiff_le; [lia|]. apply Z.bits_inj'. intros j Hj.
    rewrite Z.add_0_r, Z.ldiff_spec, bits, Z.bits_0 by lia. destruct (j =? i); [reflexivity|].
    now destruct (Z.testbit x j).
Qed.

Lemma concatenateBits_eq m mw l lw : is_u 64 m -> is_u 64 l -> 0 <= mw -> 0 <= lw ->
  concatenateBits m mw l lw
    = if (mw <? 64) && (lw <? 64) then Done (uw 64 (m mod 2 ^ mw * 2 ^ lw) + l mod 2 ^ lw) else Undefined.
Proof.
  intros Hm Hl H1 H2. unfold concatenateBits.
  destruct (Z.ltb_spec mw 64); [|now rewrite shl_undefined by lia].
  rewrite (shl_done 64 _ mw) by lia. cbn [obind andb].
  destruct (Z.ltb_spec lw 64); [|now rewrite shl_undefined by lia].
  rewrite !(shl_done 64 _ lw) by lia. cbn [obind]. rewrite !field_mask64 by (lia || assumption).
  f_equal. apply (lor_add _ _ lw); [lia | apply Z.mod_pos_bound, pow2_pos; lia |].
  unfold uw. replace (2 ^ 64) with (2 ^ (64 - lw) * 2 ^ lw) by (rewrite <- Z.pow_add_r by lia; f_equal; lia).
  rewrite Z.mul_mod_distr_r by (pose proof (pow2_pos lw); pose proof (pow2_pos (64 - lw)); lia).
  apply Z.mod_mul. pose proof (pow2_pos lw). lia.
Qed.

(** The bit-field helpers.  For positions and widths inside the word, [bitFieldsEquals] compares
    the named fields, [concatenateBits] joins the low parts of its operands (modulo 2^64),
    [setBit] changes one bit and no other, and [bit] reads one, except at position 31, where the
    [int] mask is negative and the test answers whether any bit from 31 up is set.  A width or
    position that reaches the width of the type is an undefined shift. *)
Lemma bit_fields_correct e1 p1 e2 p2 n x y i :
  is_u 32 e1 -> is_u 32 e2 -> 0 <= p1 < 32 -> 0 <= p2 < 32 -> 0 <= n ->
  is_u 64 x -> is_u 64 y -> 0 <= i ->
  bitFieldsEquals e1 p1 e2 p2 n
    = (if n =? 0 then Done false
       else if n <? 32 then Done ((e1 / 2 ^ p1) mod 2 ^ n =? (e2 / 2 ^ p2) mod 2 ^ n) else Undefined) /\
  bit x i = (if i <? 31 then Done (Z.testbit x i) else if i =? 31 then Done (2 ^ 31 <=? x) else Undefined) /\
  (forall state, i < 64 -> exists z, setBit 64 x i state = Done z /\ is_u 64 z /\
     forall j, 0 <= j -> Z.testbit z j = if j =? i then state else Z.testbit x j) /\
  concatenateBits x n y i
    = if (n <? 64) && (i <? 64) then Done (uw 64 (x mod 2 ^ n * 2 ^ i) + y mod 2 ^ i) else Undefined.
Proof.
  intros. split; [|split; [|split]].
  - now apply bitFieldsEquals_eq.
  - now apply bit_eq.
  - intros. now apply setBit_bits.
  - now apply concatenateBits_eq.
Qed.



(** ** Powers of two *)

Lemma find_power_found w stop k : forall (fuel : nat) i, 0 <= i <= k -> k < w -> k - i <= Z.of_nat fuel ->
  (forall j, i <= j < k -> stop (2 ^ j) = false) -> stop (2 ^ k) = true ->
  find_power w fuel stop i = Done k.
Proof.
  induction fuel as [|fuel IH]; intros i Hi Hk Hf Hno Hyes; cbn [find_power];
    rewrite shl_done by lia; cbn [obind]; rewrite Z.mul_1_l;
    pose proof (pow2_lt i w ltac:(lia) ltac:(lia)); pose proof (pow2_pos i ltac:(lia));
    rewrite uw_small by (unfold is_u; lia).
  - replace i with k by lia. now rewrite Hyes.
  - destruct (Z.eq_dec i k) as [->|]; [now rewrite Hyes|]. rewrite Hno by lia.
    apply IH; try lia; [|assumption]. intros. apply Hno. lia.
Qed.

Lemma find_power_overrun w stop : forall (fuel : nat) i, 0 <= i ->
  (forall j, i <= j < w -> stop (2 ^ j) = false) -> find_power w fuel stop i = Undefined.
Proof.
  induction fuel as [|fuel IH]; intros i Hi Hno; cbn [find_power];
    (destruct (Z.ltb_spec i w); [|now rewrite shl_undefined by lia]);
    rewrite shl_done by lia; cbn [obind]; rewrite Z.mul_1_l;
    pose proof (pow2_lt i w ltac:(lia) ltac:(lia)); pose proof (pow2_pos i ltac:(lia));
    rewrite uw_small by (unfold is_u; lia); rewrite Hno by lia; [reflexivity|].
  apply IH; [lia|]. intros. apply Hno. lia.
Qed.

Lemma roundUpToPowerTwo_eq n : 0 < n < 2 ^ 32 ->
  roundUpToPowerTwo n = if n <=? 2 ^ 31 then Done (2 ^ Z.log2_up n) else Undefined.
Proof.
  intros Hn. unfold roundUpToPowerTwo. destruct (Z.eqb_spec n 0); [lia|].
  destruct (Z.leb_spec n (2 ^ 31)).
  - assert (L : Z.log2_up n <= 31) by (apply Z.log2_up_le_pow2; lia). pose proof (Z.log2_up_nonneg n).
    rewrite (find_power_found 32 _ (Z.log2_up n)); try lia.
    + cbn [obind]. rewrite shl_done by lia. pose proof (pow2_lt (Z.log2_up n) 32 ltac:(lia) ltac:(lia)).
      pose proof (pow2_pos (Z.log2_up n)). rewrite Z.mul_1_l, uw_small by (unfold is_u; lia). reflexivity.
    + intros j Hj. destruct (Z.ltb_spec (2 ^ j) n); [reflexivity|].
      pose proof (proj1 (Z.log2_up_le_pow2 n j ltac:(lia)) ltac:(lia)). lia.
    + destruct (Z.ltb_spec (2 ^ Z.log2_up n) n) as [Hl|]; [|reflexivity].
      pose proof (proj2 (Z.log2_up_le_pow2 n (Z.log2_up n) ltac:(lia)) ltac:(lia)). lia.
  - rewrite find_power_overrun; [reflexivity | lia |]. intros j Hj.
    destruct (Z.ltb_spec (2 ^ j) n); [reflexivity|]. pose proof (pow2_le j 31 ltac:(lia) ltac:(lia)). lia.
Qed.

Lemma roundDownToPowerTwo_eq n : 0 < n < 2 ^ 64 ->
  roundDownToPowerTwo n = if n <? 2 ^ 63 then Done (2 ^ Z.log2 n) else Undefined.
Proof.
  intros Hn. unfold roundDownToPowerTwo. destruct (Z.eqb_spec n 0); [lia|].
  pose proof (Z.log2_nonneg n). pose proof (Z.log2_spec n ltac:(lia)) as [Ll Lh].
  destruct (Z.ltb_spec n (2 ^ 63)).
  - assert (L : Z.log2 n < 63) by (apply Z.log2_lt_pow2; lia).
    rewrite (find_power_found 64 _ (Z.log2 n + 1)); try lia.
    + cbn [obind outcome_map]. rewrite shl_done by lia. cbn [outcome_map obind].
      pose proof (pow2_lt (Z.log2 n + 1) 64 ltac:(lia) ltac:(lia)).
      pose proof (pow2_pos (Z.log2 n + 1)). rewrite Z.mul_1_l, uw_small by (unfold is_u; lia).
      rewrite shiftr_1, pow2_succ, Z.mul_comm, Z.div_mul by lia. reflexivity.
    + intros j Hj. destruct (Z.leb_spec (2 ^ j) n); [reflexivity|].
      pose proof (pow2_le j (Z.log2 n) ltac:(lia) ltac:(lia)). lia.
  - rewrite find_power_overrun; [reflexivity | lia |]. intros j Hj.
    destruct (Z.leb_spec (2 ^ j) n); [reflexivity|]. pose proof (pow2_le j 63 ltac:(lia) ltac:(lia)). lia.
Qed.

Lemma filter_none {A} (f : A -> bool) l : (forall a, In a l -> f a = false) -> List.filter f l = [].
Proof.
  induction l as [|a l IH]; intros H; [reflexivity|]. cbn. rewrite (H a) by now left.
  apply IH. intros. apply H. now right.
Qed.

(** A number with one bit set is that power of two. *)
Lemma isInPowerOfTwo_spec n : is_u 32 n -> isInPowerOfTwo n = true <-> exists k, 0 <= k < 32 /\ n = 2 ^ k.
Proof.
  intros Hn. unfold isInPowerOfTwo, bitset_count. rewrite Nat.eqb_eq. split.
  - destruct (List.filter (fun i => Z.testbit n (Z.of_nat i)) (seq 0 32)) as [|k [|k' l]] eqn:E; try discriminate.
    intros _. assert (S : forall i, (i < 32)%nat -> Z.testbit n (Z.of_nat i) = true <-> i = k).
    { intros i Hi. transitivity (In i [k]); [|cbn; intuition lia]. rewrite <- E, List.filter_In, in_seq.
      intuition lia. }
    assert (Hk : (k < 32)%nat).
    { assert (In k (List.filter (fun i => Z.testbit n (Z.of_nat i)) (seq 0 32))) as I by (rewrite E; now left).
      apply List.filter_In in I as [I _]. apply in_seq in I. lia. }
    exists (Z.of_nat k). split; [lia|]. apply Z.bits_inj'. intros j Hj.
    rewrite Z.pow2_bits_eqb by lia. destruct (Z.ltb_spec j 32).
    + specialize (S (Z.to_nat j) ltac:(lia)). rewrite Z2Nat.id in S by lia.
      destruct (Z.eqb_spec (Z.of_nat k) j) as [<-|]; [apply S; lia|].
      destruct (Z.testbit n j); [|reflexivity]. destruct S as [S _]. specialize (S eq_refl). lia.
    + destruct (Z.eqb_spec (Z.of_nat k) j); [lia|]. destruct (Z.eq_dec n 0) as [->|]; [apply Z.bits_0|].
      unfold is_u in Hn. apply Z.bits_above_log2; [lia|].
      assert (Z.log2 n < 32) by (apply Z.log2_lt_pow2; lia). lia.
  - intros (k & Hk & ->).
    assert (E : forall i, In i (seq 0 32) -> Z.testbit (2 ^ k) (Z.of_nat i) = (i =? Z.to_nat k)%nat).
    { intros i _. rewrite Z.pow2_bits_eqb by lia. destruct (Nat.eqb_spec i (Z.to_nat k)), (Z.eqb_spec k (Z.of_nat i)); lia. }
    rewrite (List.filter_ext_in _ _ _ E).
    replace 32%nat with (Z.to_nat k + (1 + (31 - Z.to_nat k)))%nat by lia.
    rewrite !seq_app, !List.filter_app. cbn [seq List.filter].
    rewrite (filter_none _ (seq 0 _)), (filter_none _ (seq _ (31 - _))).
    + cbn. now rewrite Nat.eqb_refl.
    + intros a Ha. apply in_seq in Ha. apply Nat.eqb_neq. lia.
    + intros a Ha. apply in_seq in Ha. apply Nat.eqb_neq. lia.
Qed.

(** Rounding to powers of two.  Up, a nonzero 32-bit number gives the least power of two not
    below it while that is at most 2^31, and beyond, the search shifts a 32-bit one by 32; down, a
    nonzero 64-bit number below 2^63 gives the greatest power not above it, and from 2^63 on the
    search shifts by 64.  [isInPowerOfTwo] recognises exactly the powers, one included. *)
Lemma powers_of_two_correct n m : 0 < n < 2 ^ 32 -> 0 < m < 2 ^ 64 ->
  roundUpToPowerTwo n = (if n <=? 2 ^ 31 then Done (2 ^ Z.log2_up n) else Undefined) /\
  roundDownToPowerTwo m = (if m <? 2 ^ 63 then Done (2 ^ Z.log2 m) else Undefined) /\
  (isInPowerOfTwo n = true <-> exists k, 0 <= k < 32 /\ n = 2 ^ k).
Proof.
  intros Hn Hm. split; [now apply roundUpToPowerTwo_eq|]. split; [now apply roundDownToPowerTwo_eq|].
  apply isInPowerOfTwo_spec. unfold is_u. lia.
Qed.
