(* ===== verification/SimValue.v ===== *)
(** * Values of the simulator (src/tools/SimValue.cc)

    A [SimValue] is an array of 512 bytes, little-endian whatever the host, with a width in bits and
    a mask for the unsigned reads.  Constructors leave bytes they do not clear as they were in
    memory; that content is an argument.  The host is little-endian, so that a [memcpy] between a
    byte range and an integer object splits or joins its bytes.  The floating-point arithmetic
    operators, which are the host's, and the printing of dumps are left out. *)

From S2P Require Import Prelude.
From S2P Require Import CInt.
From S2P Require Import Cpp.
From S2P Require Import MathTools.

#[local] Open Scope cpp_scope.

Definition SIMD_WORD_WIDTH : Z := 4096.
Definition SIMVALUE_MAX_BYTE_SIZE : Z := SIMD_WORD_WIDTH / 8.

Record SimValue := mk_value { rawData_ : list Z; bitWidth_ : Z; mask_ : Z }.

Definition with_raw (raw : list Z) (v : SimValue) : SimValue := mk_value raw (bitWidth_ v) (mask_ v).

(** ** Bytes of objects *)

Definition bytes_of (n : nat) (x : Z) : list Z := map (fun i => (x >> (8 * Z.of_nat i)) &&& 255) (seq 0 n).
Definition value_of (bytes : list Z) : Z := fold_right (fun b x => b + 256 * x) 0 bytes.

(** [memcpy(dst + off, src, length src)] and [memset], inside the array. *)
Definition memcpy (dst : list Z) (off : nat) (src : list Z) : list Z :=
  firstn off dst ++ src ++ skipn (off + length src) dst.
Definition memset (dst : list Z) (off n : nat) (byte : Z) : list Z := memcpy dst off (repeat byte n).

Definition bytes_for (bits : Z) : Z := Z.quot (bits + 7) 8.

(** ** Width and construction *)

Definition width (v : SimValue) : Z := bitWidth_ v.

Definition clearToZero_bits (bitWidth : Z) (v : SimValue) : outcome SimValue :=
  if SIMD_WORD_WIDTH <? bitWidth then Throws AssertionFailed
  else requires 0 <=? bytes_for bitWidth ;
    Done (with_raw (memset (rawData_ v) 0 (Z.to_nat (bytes_for bitWidth)) 0) v).

Definition clearToZero (v : SimValue) : outcome SimValue := clearToZero_bits SIMD_WORD_WIDTH v.

(** The mask is narrowed, never widened; a negative width is a large [size_t]. *)
Definition setBitWidth (width : Z) (v : SimValue) : outcome SimValue :=
  if SIMD_WORD_WIDTH <? width then Throws AssertionFailed
  else
    mask <~ (if (0 <=? width) && (width <? 64)
             then outcome_map (fun ones => u64 (Z.lnot ones)) (shl 64 (2 ^ 64 - 1) width)
             else Done (mask_ v)) ;
    let v := mk_value (rawData_ v) width mask in
    requires 0 <=? bytes_for width ;
    if 8 <? bytes_for width then clearToZero_bits width v else clearToZero_bits 64 v.

(** What an object's memory holds before its constructor runs. *)
Definition uninitialised (memory : list Z) : SimValue := mk_value memory 0 (2 ^ 64 - 1).

Definition SimValue_default (memory : list Z) : outcome SimValue := setBitWidth 64 (uninitialised memory).
Definition SimValue_width (memory : list Z) (width : Z) : outcome SimValue := setBitWidth width (uninitialised memory).
Definition SimValue_value (memory : list Z) (value width : Z) : outcome SimValue :=
  v <~ setBitWidth width (uninitialised memory) ;
  let BYTE_COUNT := if width <? 64 then bytes_for width else 8 in
  Done (with_raw (memcpy (rawData_ v) 0 (bytes_of (Z.to_nat BYTE_COUNT) value)) v).

Definition deepCopy (source v : SimValue) : SimValue :=
  mk_value (memcpy (rawData_ v) 0 (firstn (Z.to_nat (bytes_for (bitWidth_ source))) (rawData_ source)))
    (bitWidth_ source) (mask_ source).

Definition SimValue_copy (memory : list Z) (source : SimValue) : SimValue := deepCopy source (uninitialised memory).

(** ** Assignment *)

Definition assign_bytes (n : nat) (x : Z) (v : SimValue) : SimValue :=
  with_raw (memcpy (rawData_ v) 0 (bytes_of n x)) v.

Definition assign_SIntWord : Z -> SimValue -> SimValue := assign_bytes 4.
Definition assign_UIntWord : Z -> SimValue -> SimValue := assign_bytes 4.
Definition assign_SLongWord : Z -> SimValue -> SimValue := assign_bytes 8.
Definition assign_ULongWord : Z -> SimValue -> SimValue := assign_bytes 8.

(** Floating-point values are assigned by their bit patterns. *)
Definition assign_HalfFloatWord (bits : Z) (v : SimValue) : outcome SimValue :=
  outcome_map (assign_bytes 2 bits) (setBitWidth 16 v).
Definition assign_FloatWord (bits : Z) (v : SimValue) : outcome SimValue :=
  outcome_map (assign_bytes 4 bits) (setBitWidth 32 v).
Definition assign_DoubleWord (bits : Z) (v : SimValue) : outcome SimValue :=
  outcome_map (assign_bytes 8 bits) (setBitWidth 64 v).

Definition assign_SimValue (source v : SimValue) : SimValue :=
  let DST_BYTE_COUNT := Z.to_nat (bytes_for (bitWidth_ v)) in
  let SRC_BYTE_COUNT := Z.to_nat (bytes_for (bitWidth_ source)) in
  let raw := memcpy (rawData_ v) 0 (firstn SRC_BYTE_COUNT (rawData_ source)) in
  if (SRC_BYTE_COUNT <? DST_BYTE_COUNT)%nat
  then with_raw (memset raw SRC_BYTE_COUNT (DST_BYTE_COUNT - SRC_BYTE_COUNT) 0) v
  else if truthy (Z.rem (bitWidth_ v) 8)
  then
    let msbBitMask := uw 8 ((1 << Z.rem (bitWidth_ v) 8) - 1) in
    with_raw (memcpy raw (DST_BYTE_COUNT - 1) [nth (DST_BYTE_COUNT - 1) raw 0 &&& msbBitMask]) v
  else with_raw raw v.

(** ** Reading as a number *)

Definition cast (n : nat) (v : SimValue) : Z := value_of (firstn n (rawData_ v)).

Definition intValue (v : SimValue) : outcome Z :=
  let bitWidth := if 32 <? bitWidth_ v then 32 else bitWidth_ v in
  outcome_map s32 (fastSignExtendTo (s32 (cast 4 v)) bitWidth).

Definition unsignedValue (v : SimValue) : outcome Z :=
  let bitWidth := if 32 <? bitWidth_ v then 32 else bitWidth_ v in
  outcome_map u32 (fastZeroExtendTo (cast 4 v) bitWidth).

Definition sIntWordValue (v : SimValue) : outcome Z :=
  if 32 <=? u32 (bitWidth_ v) then Done (s32 (cast 4 v))
  else outcome_map s32 (fastSignExtendTo (s32 (cast 4 v)) (bitWidth_ v)).

Definition uIntWordValue (v : SimValue) : Z := u32 (cast 4 v &&& mask_ v).

Definition sLongWordValue (v : SimValue) : outcome Z :=
  if 64 <=? u32 (bitWidth_ v) then Done (s64 (cast 8 v))
  else fastSignExtendTo (s64 (cast 8 v)) (bitWidth_ v).

Definition uLongWordValue (v : SimValue) : Z := cast 8 v &&& mask_ v.

Definition doubleWordValue (v : SimValue) : Z := cast 8 v.
Definition floatWordValue (v : SimValue) : Z := cast 4 v.
Definition halfFloatWordValue (v : SimValue) : Z := cast 2 v.

(** ** Integer arithmetic operators

    The operand is read, combined in its type and assigned to a copy; signed overflow and division
    by zero are undefined. *)

Definition checked_signed (w x : Z) : outcome Z :=
  requires (- 2 ^ (w - 1) <=? x) && (x <? 2 ^ (w - 1)) ; Done x.

Definition signed_op (op : Z -> Z -> Z) (w a b : Z) : outcome Z := checked_signed w (op a b).
Definition unsigned_op (op : Z -> Z -> Z) (w a b : Z) : outcome Z := Done (uw w (op a b)).
Definition division (o : (Z -> Z -> Z) -> Z -> Z -> Z -> outcome Z) (w a b : Z) : outcome Z :=
  requires negb (b =? 0) ; o Z.quot w a b.

Definition operator_SIntWord (op : Z -> Z -> Z -> outcome Z) (memory : list Z) (v : SimValue) (r : Z)
  : outcome SimValue :=
  a <~ sIntWordValue v ; x <~ op 32 a r ; Done (assign_SIntWord x (SimValue_copy memory v)).
Definition operator_UIntWord (op : Z -> Z -> Z -> outcome Z) (memory : list Z) (v : SimValue) (r : Z)
  : outcome SimValue :=
  x <~ op 32 (uIntWordValue v) r ; Done (assign_UIntWord x (SimValue_copy memory v)).
Definition operator_SLongWord (op : Z -> Z -> Z -> outcome Z) (memory : list Z) (v : SimValue) (r : Z)
  : outcome SimValue :=
  a <~ sLongWordValue v ; x <~ op 64 a r ; Done (assign_SLongWord x (SimValue_copy memory v)).
Definition operator_ULongWord (op : Z -> Z -> Z -> outcome Z) (memory : list Z) (v : SimValue) (r : Z)
  : outcome SimValue :=
  x <~ op 64 (uLongWordValue v) r ; Done (assign_ULongWord x (SimValue_copy memory v)).

Definition plus_SIntWord := operator_SIntWord (signed_op Z.add).
Definition plus_UIntWord := operator_UIntWord (unsigned_op Z.add).
Definition plus_SLongWord := operator_SLongWord (signed_op Z.add).
Definition plus_ULongWord := operator_ULongWord (unsigned_op Z.add).
Definition minus_SIntWord := operator_SIntWord (signed_op Z.sub).
Definition minus_UIntWord := operator_UIntWord (unsigned_op Z.sub).
Definition minus_SLongWord := operator_SLongWord (signed_op Z.sub).
Definition minus_ULongWord := operator_ULongWord (unsigned_op Z.sub).
Definition times_SIntWord := operator_SIntWord (signed_op Z.mul).
Definition times_UIntWord := operator_UIntWord (unsigned_op Z.mul).
Definition times_SLongWord := operator_SLongWord (signed_op Z.mul).
Definition times_ULongWord := operator_ULongWord (unsigned_op Z.mul).
Definition divided_SIntWord := operator_SIntWord (division signed_op).
Definition divided_UIntWord := operator_UIntWord (division unsigned_op).
Definition divided_SLongWord := operator_SLongWord (division signed_op).
Definition divided_ULongWord := operator_ULongWord (division unsigned_op).

Definition equal_SimValue (v r : SimValue) : bool := uIntWordValue v =? uIntWordValue r.
Definition equal_SIntWord (v : SimValue) (r : Z) : outcome bool := outcome_map (fun a => a =? r) (sIntWordValue v).
Definition equal_UIntWord (v : SimValue) (r : Z) : bool := uIntWordValue v =? r.
Definition equal_SLongWord (v : SimValue) (r : Z) : outcome bool := outcome_map (fun a => a =? r) (sLongWordValue v).
Definition equal_ULongWord (v : SimValue) (r : Z) : bool := uLongWordValue v =? r.
Definition equal_HalfFloatWord (v : SimValue) (r : Z) : bool := halfFloatWordValue v =? r.

(** ** Elements *)

Definition vectorElement (BYTE_COUNT : nat) (elementIndex : nat) (v : SimValue) : outcome Z :=
  if (SIMVALUE_MAX_BYTE_SIZE / Z.of_nat BYTE_COUNT <? Z.of_nat elementIndex + 1) then Throws AssertionFailed
  else Done (value_of (firstn BYTE_COUNT (skipn (elementIndex * BYTE_COUNT) (rawData_ v)))).

Definition wordElement := vectorElement 4.
Definition sIntWordElement (i : nat) (v : SimValue) : outcome Z := outcome_map s32 (wordElement i v).
Definition uIntWordElement := wordElement.
Definition halfWordElement := vectorElement 2.
Definition halfFloatElement := vectorElement 2.
Definition floatElement := vectorElement 4.
Definition doubleFloatElement := vectorElement 8.
Definition byteElement := vectorElement 1.

Definition bitElement (elementIndex : nat) (v : SimValue) : outcome Z :=
  if SIMD_WORD_WIDTH <? Z.of_nat elementIndex + 1 then Throws AssertionFailed
  else
    let data := nth (elementIndex / 8) (rawData_ v) 0 in
    Done (b2z (truthy (data &&& (1 << Z.of_nat (elementIndex mod 8))))).

Definition element_bytes (elementWidth : Z) : outcome Z :=
  if 8 <=? elementWidth then outcome_map (fun n => n / 8) (roundUpToPowerTwo elementWidth) else Done 1.

Definition element_mask (elementWidth : Z) : outcome Z :=
  if elementWidth <? 32 then outcome_map (fun ones => u32 (Z.lnot ones)) (shl 32 (2 ^ 32 - 1) elementWidth)
  else Done (2 ^ 32 - 1).

(** The reads of wider elements are not bounded by an assertion. *)
Definition element (elementIndex : nat) (elementWidth : Z) (v : SimValue) : outcome Z :=
  if (elementWidth =? 0) || (32 <? elementWidth) then Throws AssertionFailed
  else if elementWidth =? 1 then bitElement elementIndex v
  else
    BYTE_COUNT <~ element_bytes elementWidth ;
    mask <~ element_mask elementWidth ;
    requires (Z.of_nat elementIndex + 1) * BYTE_COUNT <=? SIMVALUE_MAX_BYTE_SIZE ;
    let n := Z.to_nat BYTE_COUNT in
    Done (value_of (firstn n (skipn (elementIndex * n) (rawData_ v))) &&& mask).

Definition setVectorElement (BYTE_COUNT : nat) (elementIndex : nat) (data : Z) (v : SimValue) : outcome SimValue :=
  if (SIMVALUE_MAX_BYTE_SIZE / Z.of_nat BYTE_COUNT <? Z.of_nat elementIndex + 1) then Throws AssertionFailed
  else Done (with_raw (memcpy (rawData_ v) (elementIndex * BYTE_COUNT) (bytes_of BYTE_COUNT data)) v).

Definition setWordElement := setVectorElement 4.
Definition setHalfWordElement := setVectorElement 2.
Definition setHalfFloatElement := setVectorElement 2.
Definition setFloatElement := setVectorElement 4.
Definition setDoubleFloatElement := setVectorElement 8.
Definition setByteElement := setVectorElement 1.

Definition setBitElement (elementIndex : nat) (data : Z) (v : SimValue) : outcome SimValue :=
  if SIMD_WORD_WIDTH <? Z.of_nat elementIndex + 1 then Throws AssertionFailed
  else
    let OFFSET := (elementIndex / 8)%nat in
    let mask := 1 << Z.of_nat (elementIndex mod 8) in
    let byte := nth OFFSET (rawData_ v) 0 in
    let byte := if data =? 0 then byte &&& Z.lnot mask else byte ||| mask in
    Done (with_raw (memcpy (rawData_ v) OFFSET [uw 8 byte]) v).

(** Copying more than the four bytes of the masked word would read past it. *)
Definition setElement (elementIndex : nat) (elementWidth data : Z) (v : SimValue) : outcome SimValue :=
  if elementWidth =? 0 then Throws AssertionFailed
  else if elementWidth =? 1 then setBitElement elementIndex data v
  else
    BYTE_COUNT <~ element_bytes elementWidth ;
    if SIMVALUE_MAX_BYTE_SIZE / BYTE_COUNT <? Z.of_nat elementIndex + 1 then Throws AssertionFailed
    else
      mask <~ element_mask elementWidth ;
      requires BYTE_COUNT <=? 4 ;
      let n := Z.to_nat BYTE_COUNT in
      Done (with_raw (memcpy (rawData_ v) (elementIndex * n) (bytes_of n (data &&& mask))) v).

(** ** Extension in place *)

Definition extend_last (extend : Z -> Z -> outcome Z) (bitWidth : Z) (v : SimValue) : outcome SimValue :=
  let last := (Z.to_nat (bytes_for bitWidth) - 1)%nat in
  byte <~ extend (nth last (rawData_ v) 0) ((bitWidth - 1) mod 8 + 1) ;
  Done (with_raw (memcpy (rawData_ v) last [uw 8 byte]) v).

Definition signExtendTo (bitWidth : Z) (v : SimValue) : outcome SimValue :=
  if SIMD_WORD_WIDTH <? bitWidth then Throws OutOfRange
  else if bitWidth <=? 0 then clearToZero v
  else
    v <~ extend_last fastSignExtendTo bitWidth v ;
    let FIRST_BYTE := Z.to_nat (bytes_for bitWidth) in
    let BYTE_COUNT := Z.to_nat (bytes_for (bitWidth_ v)) in
    if (FIRST_BYTE <? BYTE_COUNT)%nat then
      sign <~ bitElement (Z.to_nat (bitWidth - 1)) v ;
      Done (with_raw (memset (rawData_ v) FIRST_BYTE (BYTE_COUNT - FIRST_BYTE)
                        (if sign =? 0 then 0 else 255)) v)
    else Done v.

Definition zeroExtendTo (bitWidth : Z) (v : SimValue) : outcome SimValue :=
  if SIMD_WORD_WIDTH <? bitWidth then Throws OutOfRange
  else if bitWidth <=? 0 then clearToZero v
  else
    v <~ extend_last fastZeroExtendTo bitWidth v ;
    let FIRST_BYTE := Z.to_nat (bytes_for bitWidth) in
    let BYTE_COUNT := Z.to_nat (bytes_for (bitWidth_ v)) in
    if (FIRST_BYTE <? BYTE_COUNT)%nat
    then Done (with_raw (memset (rawData_ v) FIRST_BYTE (BYTE_COUNT - FIRST_BYTE) 0) v)
    else Done v.

(** ** Hexadecimal digits

    A string of hexadecimal digits is the list of their values, most significant first, without the
    optional prefix. *)

Fixpoint hex_digits (n : nat) (x : Z) : list Z :=
  match n with
  | O => []
  | S n => (x >> (4 * Z.of_nat n)) &&& 15 :: hex_digits n x
  end.

(** [Conversion::toHexString(value, digits)] pads with zeros but never cuts digits off. *)
Definition toHexString (value : Z) (digits : nat) : list Z :=
  hex_digits (Nat.max digits (Nat.max 1 (Z.to_nat ((MathTools.width value + 3) / 4)))) value.

Definition hexValue (noHexIdentifier : bool) (v : SimValue) : list Z :=
  let hexNumbers := Z.to_nat ((bitWidth_ v + 3) / 4) in
  if bitWidth_ v <=? 32
  then toHexString (if noHexIdentifier then uIntWordValue v else uLongWordValue v) hexNumbers
  else
    let BYTE_COUNT := Z.to_nat (bytes_for (bitWidth_ v)) in
    let MSB_MASK := u32 (Z.lnot (uw 64 ((2 ^ 64 - 1) << (8 - (Z.of_nat BYTE_COUNT * 8 - bitWidth_ v))))) in
    let digits := flat_map (fun i =>
      let value := nth i (rawData_ v) 0 in
      let value := if (i =? BYTE_COUNT - 1)%nat then value &&& MSB_MASK else value in
      toHexString value 2) (rev (seq 0 BYTE_COUNT)) in
    skipn (length digits - hexNumbers) digits.

(** [Conversion::toRawData]: two digits to a byte, after a zero if their number is odd. *)
Fixpoint digit_pairs (digits : list Z) : list Z :=
  match digits with
  | high :: low :: digits => (16 * high + low) :: digit_pairs digits
  | _ => []
  end.

Definition toRawData (digits : list Z) : list Z :=
  digit_pairs (if Nat.odd (length digits) then 0 :: digits else digits).

Definition setValue (hexValue : list Z) (v : SimValue) : outcome SimValue :=
  let VALUE_BITWIDTH := Z.of_nat (length hexValue) * 4 in
  let v := if bitWidth_ v =? 0 then mk_value (rawData_ v) VALUE_BITWIDTH (mask_ v) else v in
  if SIMD_WORD_WIDTH <? VALUE_BITWIDTH then Throws NumberFormatException
  else if VALUE_BITWIDTH =? 0 then Throws NumberFormatException
  else
    let paddingBytes := if bitWidth_ v <? VALUE_BITWIDTH then (VALUE_BITWIDTH - bitWidth_ v) / 8 else 0 in
    requires VALUE_BITWIDTH / 8 + paddingBytes <=? SIMVALUE_MAX_BYTE_SIZE ;
    let raw := memset (rawData_ v) (Z.to_nat (VALUE_BITWIDTH / 8)) (Z.to_nat paddingBytes) 0 in
    let byteWidth := Z.to_nat (VALUE_BITWIDTH / 8 + (if VALUE_BITWIDTH mod 8 =? 0 then 0 else 1)) in
    Done (with_raw (memcpy raw 0 (rev (firstn byteWidth (toRawData hexValue)))) v).

Definition memory0 : list Z := repeat 0 512.

Example narrow_value : (v <~ SimValue_width memory0 12 ;
  let v := assign_ULongWord 0xABCDE v in
  s <~ sIntWordValue v ; Done (uIntWordValue v, s, hexValue true v)) = Done (0xCDE, 0xCDE - 4096, [12; 13; 14]).
Proof. vm_compute. reflexivity. Qed.
Example set_and_get : (v <~ SimValue_width memory0 64 ; v <~ setElement 1 8 0x1FF v ; v <~ setElement 5 1 1 v ;
  a <~ element 0 8 v ; b <~ element 0 16 v ; Done (a, b)) = Done (0x20, 0xFF20).
Proof. vm_compute. reflexivity. Qed.
Example set_hex : (v <~ SimValue_width memory0 36 ; v <~ setValue [10; 0; 0; 0; 0; 0; 0; 0; 15] v ;
  Done (uLongWordValue v, hexValue true v)) = Done (0xA0000000F, [10; 0; 0; 0; 0; 0; 0; 0; 15]).
Proof. vm_compute. reflexivity. Qed.
