(* ===== verification/SimValueLaws.v ===== *)
(** * What simulator values hold

    Reading after writing for numbers, elements and hexadecimal strings, and the extensions as
    arithmetic on the number the bytes denote. *)

From S2P Require Import Prelude.
From S2P Require Import CInt.
From S2P Require Import Cpp.
From S2P Require Import MathTools.
From S2P Require Import SimValue.

#[local] Open Scope cpp_scope.

(** ** Byte lists *)

Definition slice (off n : nat) (l : list Z) : list Z := firstn n (skipn off l).

Lemma bytes_of_length n x : length (bytes_of n x) = n.
Proof. unfold bytes_of. now rewrite length_map, length_seq. Qed.

Lemma nth_bytes_of n x i : (i < n)%nat -> nth i (bytes_of n x) 0 = (x / 2 ^ (8 * Z.of_nat i)) mod 256.
Proof.
  intros Hi. unfold bytes_of. set (f := fun i : nat => _).
  rewrite (nth_indep _ 0 (f 0%nat)) by now rewrite length_map, length_seq.
  rewrite map_nth, seq_nth by assumption. unfold f. cbn [Nat.add].
  change 255 with (2 ^ 8 - 1). now rewrite land_ones_mod, Z.shiftr_div_pow2 by lia.
Qed.

Lemma bytes_of_range n x : Forall (is_u 8) (bytes_of n x).
Proof.
  unfold bytes_of. apply Forall_map, Forall_forall. intros i _. change 255 with (2 ^ 8 - 1).
  rewrite land_ones_mod by lia. apply Z.mod_pos_bound. lia.
Qed.

Lemma bytes_of_S n x : bytes_of (S n) x = x mod 256 :: bytes_of n (x / 256).
Proof.
  apply (nth_ext _ _ 0 0); [cbn [length]; now rewrite !bytes_of_length|].
  intros i Hi. rewrite bytes_of_length in Hi. rewrite nth_bytes_of by assumption. destruct i as [|i].
  - cbn [nth]. now rewrite Z.mul_0_r, Z.pow_0_r, Z.div_1_r.
  - cbn [nth]. rewrite nth_bytes_of by lia. rewrite Z.div_div by (try apply pow2_pos; lia).
    change 256 with (2 ^ 8) at 2. rewrite <- Z.pow_add_r by lia. do 3 f_equal. lia.
Qed.

Lemma pow256 n : 2 ^ (8 * Z.of_nat (S n)) = 256 * 2 ^ (8 * Z.of_nat n).
Proof. change 256 with (2 ^ 8). rewrite <- Z.pow_add_r by lia. f_equal. lia. Qed.

Lemma value_of_cons b bs : value_of (b :: bs) = b + 256 * value_of bs.
Proof. reflexivity. Qed.

Lemma value_of_bytes n : forall x, value_of (bytes_of n x) = x mod 2 ^ (8 * Z.of_nat n).
Proof.
  induction n as [|n IH]; intros x.
  - cbn. now rewrite Z.mod_1_r.
  - rewrite bytes_of_S, pow256, value_of_cons, IH, Z.rem_mul_r by (try apply pow2_pos; lia). reflexivity.
Qed.

Lemma value_of_range bs : Forall (is_u 8) bs -> is_u (8 * Z.of_nat (length bs)) (value_of bs).
Proof.
  induction 1 as [|b bs Hb _ IH]; [cbn; unfold is_u; lia|].
  cbn [length]. rewrite value_of_cons. unfold is_u in *. rewrite pow256. lia.
Qed.

Lemma value_of_app a b : value_of (a ++ b) = value_of a + 2 ^ (8 * Z.of_nat (length a)) * value_of b.
Proof.
  induction a as [|x a IH]; [change (value_of []) with 0; cbn [app length]; rewrite Z.mul_0_r, Z.pow_0_r; lia|].
  cbn [app length]. rewrite !value_of_cons, IH, pow256. ring.
Qed.

Lemma bytes_of_value bs : Forall (is_u 8) bs -> bytes_of (length bs) (value_of bs) = bs.
Proof.
  induction 1 as [|b bs Hb _ IH]; [reflexivity|]. cbn [length]. rewrite bytes_of_S.
  rewrite value_of_cons. unfold is_u in Hb. change (2 ^ 8) with 256 in Hb.
  f_equal; [rewrite Z.mul_comm, Z.mod_add, Z.mod_small by lia; reflexivity|].
  replace ((b + 256 * value_of bs) / 256) with (value_of bs); [assumption|].
  symmetry. rewrite Z.mul_comm, Z.div_add, Z.div_small by lia. lia.
Qed.

Lemma Forall_parts {A : Type} (P : A -> Prop) n l : Forall P l -> Forall P (firstn n l) /\ Forall P (skipn n l).
Proof. intros H. apply Forall_app. now rewrite firstn_skipn. Qed.

Section Memcpy.
Variables (dst src : list Z) (off : nat).
Hypothesis fits : (off + length src <= length dst)%nat.

Lemma memcpy_length : length (memcpy dst off src) = length dst.
Proof. unfold memcpy. rewrite !length_app, length_firstn, length_skipn. lia. Qed.

Lemma nth_memcpy i : nth i (memcpy dst off src) 0
  = if (off <=? i)%nat && (i <? off + length src)%nat then nth (i - off) src 0 else nth i dst 0.
Proof.
  unfold memcpy. destruct (Nat.leb_spec off i) as [H1|H1]; cbn [andb].
  - rewrite app_nth2; rewrite length_firstn, (Nat.min_l off) by lia; [|assumption].
    destruct (Nat.ltb_spec i (off + length src)).
    + now rewrite app_nth1 by lia.
    + rewrite app_nth2 by lia. rewrite nth_skipn. f_equal. lia.
  - rewrite app_nth1 by (rewrite length_firstn; lia). now rewrite nth_firstn, (proj2 (Nat.ltb_lt i off)) by lia.
Qed.

Lemma memcpy_range : Forall (is_u 8) dst -> Forall (is_u 8) src -> Forall (is_u 8) (memcpy dst off src).
Proof.
  intros Hd Hs. unfold memcpy. apply Forall_app. split; [now apply Forall_parts|].
  apply Forall_app. split; [assumption | now apply Forall_parts].
Qed.
End Memcpy.

Lemma slice_length off n l : (off + n <= length l)%nat -> length (slice off n l) = n.
Proof. intros H. unfold slice. rewrite length_firstn, length_skipn. lia. Qed.

Lemma nth_slice off n l i : (i < n)%nat -> nth i (slice off n l) 0 = nth (off + i) l 0.
Proof. intros Hi. unfold slice. now rewrite nth_firstn, (proj2 (Nat.ltb_lt i n)), nth_skipn by lia. Qed.

Lemma slice_ext off n l l' : length l = length l' -> (off + n <= length l)%nat ->
  (forall i, (i < n)%nat -> nth (off + i) l 0 = nth (off + i) l' 0) -> slice off n l = slice off n l'.
Proof.
  intros Hl Hn H. apply (nth_ext _ _ 0 0); [rewrite !slice_length; lia|].
  intros i Hi. rewrite slice_length in Hi by assumption. rewrite !nth_slice by assumption. now apply H.
Qed.

Lemma slice_memcpy_same dst src off : (off + length src <= length dst)%nat ->
  slice off (length src) (memcpy dst off src) = src.
Proof.
  intros H. apply (nth_ext _ _ 0 0); [rewrite slice_length; rewrite ?memcpy_length; lia|].
  intros i Hi. rewrite slice_length in Hi by (rewrite memcpy_length; lia). rewrite nth_slice, nth_memcpy by assumption.
  rewrite (proj2 (Nat.leb_le _ _)), (proj2 (Nat.ltb_lt _ _)) by lia. cbn [andb]. f_equal. lia.
Qed.

Lemma slice_memcpy_other dst src off off2 n : (off + length src <= length dst)%nat ->
  (off2 + n <= length dst)%nat -> (off2 + n <= off \/ off + length src <= off2)%nat ->
  slice off2 n (memcpy dst off src) = slice off2 n dst.
Proof.
  intros H H2 Hd. apply slice_ext; rewrite ?memcpy_length by assumption; [reflexivity | assumption |].
  intros i Hi. rewrite nth_memcpy by assumption.
  destruct (Nat.leb_spec off (off2 + i)), (Nat.ltb_spec (off2 + i) (off + length src)); cbn [andb]; lia || reflexivity.
Qed.

Lemma slice_range off n l : Forall (is_u 8) l -> Forall (is_u 8) (slice off n l).
Proof. intros H. now apply Forall_parts, Forall_parts. Qed.

(** ** Well-formed values *)

(** 512 bytes, and the mask of the width. *)
Record value_ok (v : SimValue) : Prop := {
  raw_length : length (rawData_ v) = 512%nat;
  raw_bytes : Forall (is_u 8) (rawData_ v);
  width_range : 0 <= bitWidth_ v <= SIMD_WORD_WIDTH;
  mask_width : mask_ v = if bitWidth_ v <? 64 then 2 ^ bitWidth_ v - 1 else 2 ^ 64 - 1;
}.

Lemma bytes_for_eq w : 0 <= w -> bytes_for w = (w + 7) / 8.
Proof. intros. unfold bytes_for. apply Z.quot_div_nonneg; lia. Qed.

Lemma repeat_range n b : is_u 8 b -> Forall (is_u 8) (repeat b n).
Proof. intros H. induction n; constructor; auto. Qed.

(** The width is set, the mask narrowed, and at least eight bytes cleared. *)
Lemma setBitWidth_eq v w : length (rawData_ v) = 512%nat -> 0 <= w <= SIMD_WORD_WIDTH ->
  exists n, (8 <= n <= 512)%nat /\ Z.of_nat n = Z.max 8 ((w + 7) / 8) /\
  setBitWidth w v = Done (mk_value (memset (rawData_ v) 0 n 0) w (if w <? 64 then 2 ^ w - 1 else mask_ v)).
Proof.
  intros Hl Hw. unfold SIMD_WORD_WIDTH in *. exists (Z.to_nat (Z.max 8 ((w + 7) / 8))).
  split; [dlia|]. split; [dlia|]. unfold setBitWidth, SIMD_WORD_WIDTH.
  destruct (Z.ltb_spec 4096 w); [lia|]. destruct (Z.leb_spec 0 w); [|lia]. cbn [andb].
  assert (M : (if w <? 64 then outcome_map (fun ones => u64 (Z.lnot ones)) (shl 64 (2 ^ 64 - 1) w) else Done (mask_ v))
    = Done (if w <? 64 then 2 ^ w - 1 else mask_ v)).
  { destruct (Z.ltb_spec w 64); [|reflexivity]. rewrite shl_done by lia. unfold outcome_map. cbn [obind]. f_equal.
    apply not_high_ones. lia. }
  rewrite M. cbn [obind]. rewrite bytes_for_eq by lia.
  destruct (Z.leb_spec 0 ((w + 7) / 8)); [|dlia].
  unfold clearToZero_bits, SIMD_WORD_WIDTH. destruct (Z.ltb_spec 8 ((w + 7) / 8)).
  - destruct (Z.ltb_spec 4096 w); [lia|]. rewrite bytes_for_eq by lia.
    destruct (Z.leb_spec 0 ((w + 7) / 8)); [|dlia]. unfold with_raw. cbn [rawData_ bitWidth_ mask_].
    now rewrite Z.max_r by lia.
  - change (4096 <? 64) with false. change (bytes_for 64) with 8. change (0 <=? 8) with true. cbv iota.
    unfold with_raw. cbn [rawData_ bitWidth_ mask_]. now rewrite Z.max_l by lia.
Qed.

Lemma setBitWidth_ok memory w : length memory = 512%nat -> Forall (is_u 8) memory -> 0 <= w <= SIMD_WORD_WIDTH ->
  exists v, SimValue_width memory w = Done v /\ value_ok v /\ bitWidth_ v = w /\ cast 8 v = 0.
Proof.
  intros Hl Hb Hw. unfold SimValue_width.
  destruct (setBitWidth_eq (uninitialised memory) w Hl Hw) as (n & Hn & _ & ->).
  cbn [uninitialised rawData_ mask_]. eexists. split; [reflexivity|].
  assert (F : (0 + length (repeat 0%Z n) <= length memory)%nat) by (rewrite repeat_length; lia).
  split; [|split; [reflexivity|]].
  - split; cbn [rawData_ bitWidth_ mask_]; [| | assumption | reflexivity].
    + unfold memset. rewrite memcpy_length by exact F. exact Hl.
    + unfold memset. apply memcpy_range; [assumption | apply repeat_range; unfold is_u; lia].
  - unfold cast, memset. cbn [rawData_].
    replace (firstn 8 (memcpy memory 0 (repeat 0 n))) with (repeat 0 8); [reflexivity|].
    apply (nth_ext _ _ 0 0); [rewrite repeat_length, length_firstn, memcpy_length by assumption; lia|].
    intros i Hi. rewrite repeat_length in Hi. rewrite nth_firstn, (proj2 (Nat.ltb_lt i 8)), nth_memcpy by assumption.
    rewrite repeat_length, (proj2 (Nat.ltb_lt i (0 + n))), (proj2 (Nat.leb_le 0 i)) by lia. cbn [andb].
    now rewrite !nth_repeat.
Qed.

(** ** Numbers *)

Lemma bytes_of_prefix k n x : (k <= n)%nat -> firstn k (bytes_of n x) = bytes_of k x.
Proof.
  intros H. apply (nth_ext _ _ 0 0); [rewrite length_firstn, !bytes_of_length; lia|].
  intros i Hi. rewrite length_firstn, bytes_of_length in Hi.
  now rewrite nth_firstn, (proj2 (Nat.ltb_lt i k)), !nth_bytes_of by lia.
Qed.

Lemma firstn_memcpy_0 k dst src : (k <= length src)%nat -> firstn k (memcpy dst 0 src) = firstn k src.
Proof.
  intros H. unfold memcpy. cbn [firstn app Nat.add]. rewrite firstn_app.
  replace (k - length src)%nat with 0%nat by lia. cbn [firstn]. apply app_nil_r.
Qed.

Lemma cast_assign k n x v : (k <= n)%nat -> cast k (assign_bytes n x v) = x mod 2 ^ (8 * Z.of_nat k).
Proof.
  intros H. unfold cast, assign_bytes, with_raw. cbn [rawData_].
  rewrite firstn_memcpy_0 by now rewrite bytes_of_length. rewrite bytes_of_prefix by assumption.
  apply value_of_bytes.
Qed.

Lemma cast_range k v : value_ok v -> (k <= 512)%nat -> is_u (8 * Z.of_nat k) (cast k v).
Proof.
  intros Hv Hk. unfold cast. pose proof (value_of_range (firstn k (rawData_ v))) as R.
  rewrite length_firstn, (raw_length _ Hv), Nat.min_l in R by assumption.
  apply R, Forall_parts, (raw_bytes _ Hv).
Qed.

Lemma cast_prefix k n v : value_ok v -> (k <= n <= 512)%nat -> cast k v = cast n v mod 2 ^ (8 * Z.of_nat k).
Proof.
  intros Hv Hk. pose proof (cast_range k v Hv ltac:(lia)) as R. unfold cast in *.
  replace (firstn n (rawData_ v)) with (firstn k (rawData_ v) ++ firstn (n - k) (skipn k (rawData_ v))).
  - rewrite value_of_app, length_firstn, (raw_length _ Hv), Nat.min_l by lia.
    rewrite Z.mul_comm, Z.mod_add by (apply Z.pow_nonzero; lia). symmetry. now apply Z.mod_small.
  - rewrite <- (firstn_skipn k (firstn n (rawData_ v))). f_equal.
    + rewrite firstn_firstn. f_equal. lia.
    + rewrite firstn_skipn_comm. do 2 f_equal. lia.
Qed.

(** What the reads return of the number [c] in the first eight bytes. *)
Definition reads (v : SimValue) (c : Z) : Prop :=
  uLongWordValue v = uw (Z.min (bitWidth_ v) 64) c /\
  sLongWordValue v = Done (sw (Z.min (bitWidth_ v) 64) c) /\
  uIntWordValue v = uw (Z.min (bitWidth_ v) 32) c /\
  sIntWordValue v = Done (sw (Z.min (bitWidth_ v) 32) c) /\
  unsignedValue v = Done (uw (Z.min (bitWidth_ v) 32) c) /\
  intValue v = Done (sw (Z.min (bitWidth_ v) 32) c).

Lemma land_mask c w : 0 <= w -> is_u 64 c -> c &&& (if w <? 64 then 2 ^ w - 1 else 2 ^ 64 - 1) = uw (Z.min w 64) c.
Proof.
  intros Hw Hc. destruct (Z.ltb_spec w 64).
  - rewrite Z.min_l, land_ones_mod by lia. reflexivity.
  - rewrite Z.min_r, land_ones_mod by lia. reflexivity.
Qed.

Lemma reads_cast v : value_ok v -> 0 < bitWidth_ v -> reads v (cast 8 v).
Proof.
  intros Hv Hw. pose proof (mask_width _ Hv) as Hm. pose proof (width_range _ Hv) as Hr.
  pose proof (cast_range 8 v Hv ltac:(lia)) as R8. pose proof (cast_range 4 v Hv ltac:(lia)) as R4.
  change (8 * Z.of_nat 8) with 64 in R8. change (8 * Z.of_nat 4) with 32 in R4.
  assert (E4 : cast 4 v = cast 8 v mod 2 ^ 32) by (apply (cast_prefix 4 8 v Hv); lia).
  unfold SIMD_WORD_WIDTH in Hr. assert (Eb : u32 (bitWidth_ v) = bitWidth_ v) by (apply u32_small; lia).
  assert (M32 : (if 32 <? bitWidth_ v then 32 else bitWidth_ v) = Z.min (bitWidth_ v) 32).
  { destruct (Z.ltb_spec 32 (bitWidth_ v)); lia. }
  assert (R4' : is_u 64 (cast 4 v)) by (unfold is_u in *; lia).
  assert (S4 : forall k, 0 < k <= 32 -> outcome_map s32 (fastSignExtendTo (s32 (cast 4 v)) k) = Done (sw k (cast 8 v))).
  { intros k Hk. rewrite fastSignExtendTo_eq by lia. unfold outcome_map. cbn [obind]. f_equal.
    unfold s32. rewrite (sw_sw k 32), E4, (sw_mod k 32) by lia. rewrite sw_small; [reflexivity | lia |].
    pose proof (sw_range k (cast 8 v) ltac:(lia)) as R. unfold is_s in *.
    pose proof (pow2_le (k - 1) (32 - 1) ltac:(lia) ltac:(lia)). lia. }
  unfold reads. split; [|split; [|split; [|split; [|split]]]].
  - unfold uLongWordValue. rewrite Hm. now apply land_mask; [lia|].
  - unfold sLongWordValue. rewrite Eb. destruct (Z.leb_spec 64 (bitWidth_ v)).
    + rewrite Z.min_r by lia. reflexivity.
    + rewrite Z.min_l, fastSignExtendTo_eq by lia. unfold s64. now rewrite sw_sw by lia.
  - unfold uIntWordValue. rewrite Hm, land_mask by (lia || assumption). rewrite E4. unfold u32.
    destruct (Z.leb_spec (bitWidth_ v) 32).
    + rewrite !Z.min_l, uw_uw by lia. apply uw_small. pose proof (uw_range (bitWidth_ v) (cast 8 v) ltac:(lia)).
      unfold is_u in *. pose proof (pow2_le (bitWidth_ v) 32). lia.
    + rewrite (Z.min_r (bitWidth_ v) 32) by lia. rewrite (uw_small (Z.min (bitWidth_ v) 64)).
      * unfold uw. now rewrite Z.mod_mod by lia.
      * unfold is_u. pose proof (Z.mod_pos_bound (cast 8 v) (2 ^ 32) ltac:(lia)).
        pose proof (pow2_le 32 (Z.min (bitWidth_ v) 64) ltac:(lia) ltac:(lia)). lia.
  - unfold sIntWordValue. rewrite Eb. destruct (Z.leb_spec 32 (bitWidth_ v)).
    + rewrite Z.min_r by lia. unfold s32. now rewrite E4, sw_mod by lia.
    + rewrite Z.min_l by lia. apply S4. lia.
  - unfold unsignedValue. rewrite M32, fastZeroExtendTo_eq by (assumption || lia). unfold outcome_map. cbn [obind].
    f_equal. rewrite E4, uw_uw by lia. apply u32_small.
    pose proof (uw_range (Z.min (bitWidth_ v) 32) (cast 8 v) ltac:(lia)) as R. unfold is_u in R.
    pose proof (pow2_le (Z.min (bitWidth_ v) 32) 32 ltac:(lia) ltac:(lia)). lia.
  - unfold intValue. rewrite M32. apply S4. lia.
Qed.

Lemma reads_mod v x : reads v (x mod 2 ^ 64) -> 0 < bitWidth_ v -> reads v x.
Proof.
  unfold reads. intros (A & B & C & D & E & F) Hw. rewrite A, B, C, D, E, F.
  now rewrite !uw_uw, !sw_mod by lia.
Qed.

Lemma assign_ok n x v : value_ok v -> (n <= 512)%nat -> value_ok (assign_bytes n x v).
Proof.
  intros [Hl Hb Hw Hm] Hn.
  assert (F : (0 + length (bytes_of n x) <= length (rawData_ v))%nat) by (rewrite bytes_of_length; lia).
  split; unfold assign_bytes, with_raw; cbn [rawData_ bitWidth_ mask_]; try assumption.
  - rewrite memcpy_length by exact F. exact Hl.
  - apply memcpy_range; [exact Hb | apply bytes_of_range].
Qed.

Lemma min_mask w : 0 <= w -> (if w <? 64 then 2 ^ w - 1 else 2 ^ 64 - 1) = 2 ^ Z.min w 64 - 1.
Proof. intros Hw. destruct (Z.ltb_spec w 64); [now rewrite Z.min_l by lia | now rewrite Z.min_r by lia]. Qed.

(** C14: A simulator value of width [w] holds a number modulo 2^w.  Whatever was in its memory, after
    the assignment of a 64-bit number, or made with it, a value of [w] bits reads back as that
    number reduced modulo 2^w by the unsigned reads and in two's complement by the signed ones,
    the 32-bit reads reducing it to 32 bits first.  A narrow value that is then assigned a double
    becomes 64 bits wide, but its mask stays narrow: the unsigned read returns only the low [w]
    bits of the new value. *)
Theorem values_hold_numbers memory w x d : length memory = 512%nat -> Forall (is_u 8) memory ->
  1 <= w <= SIMD_WORD_WIDTH ->
  exists v, SimValue_width memory w = Done v /\ bitWidth_ v = w /\
    reads (assign_ULongWord x v) x /\
    (w <= 64 -> exists v', SimValue_value memory x w = Done v' /\ reads v' x) /\
    (w < 64 -> exists v', assign_DoubleWord d (assign_ULongWord x v) = Done v' /\
       bitWidth_ v' = 64 /\ doubleWordValue v' = d mod 2 ^ 64 /\ uLongWordValue v' = uw w d).
Proof.
  intros Hl Hb Hw. destruct (setBitWidth_ok memory w Hl Hb ltac:(unfold SIMD_WORD_WIDTH in *; lia))
    as (v & E & Hv & Ew & H0).
  exists v. split; [exact E|]. split; [exact Ew|].
  pose proof (assign_ok 8 x v Hv ltac:(lia)) as Hv8.
  split; [|split].
  - apply reads_mod; [|unfold assign_ULongWord, assign_bytes; cbn; lia].
    change (x mod 2 ^ 64) with (x mod 2 ^ (8 * Z.of_nat 8)).
    rewrite <- (cast_assign 8 8 x v) by lia. apply reads_cast; [exact Hv8|]. cbn. lia.
  - intros H64. unfold SimValue_value, SimValue_width in *. rewrite E. cbn [obind].
    set (n := Z.to_nat (if w <? 64 then bytes_for w else 8)).
    assert (Hn : (n <= 8)%nat /\ w <= 8 * Z.of_nat n).
    { unfold n. rewrite bytes_for_eq by lia. destruct (Z.ltb_spec w 64); dlia. }
    eexists. split; [reflexivity|]. change (with_raw (memcpy (rawData_ v) 0 (bytes_of n x)) v) with (assign_bytes n x v).
    pose proof (assign_ok n x v Hv ltac:(lia)) as Hvn.
    assert (Hwn : bitWidth_ (assign_bytes n x v) = w) by exact Ew.
    pose proof (reads_cast _ Hvn ltac:(lia)) as R.
    assert (C : cast 8 (assign_bytes n x v) mod 2 ^ (8 * Z.of_nat n) = x mod 2 ^ (8 * Z.of_nat n)).
    { rewrite <- (cast_prefix n 8) by (assumption || lia). now apply cast_assign. }
    unfold reads in *. destruct R as (A & B & C' & D & F & G). rewrite A, B, C', D, F, G, Hwn.
    assert (U : forall k, 0 < k <= 8 * Z.of_nat n -> uw k (cast 8 (assign_bytes n x v)) = uw k x /\
      sw k (cast 8 (assign_bytes n x v)) = sw k x).
    { intros k Hk. rewrite <- (uw_uw k (8 * Z.of_nat n) x), <- (sw_mod k (8 * Z.of_nat n) x), <- C by lia.
      now rewrite uw_uw, sw_mod by lia. }
    destruct (U (Z.min w 64) ltac:(lia)) as [-> ->]. destruct (U (Z.min w 32) ltac:(lia)) as [-> ->]. easy.
  - intros H64. unfold assign_DoubleWord.
    destruct (setBitWidth_eq (assign_ULongWord x v) 64 (raw_length _ Hv8) ltac:(unfold SIMD_WORD_WIDTH; lia))
      as (n & Hn & _ & ->).
    unfold outcome_map. cbn [obind]. eexists. split; [reflexivity|]. split; [reflexivity|].
    change (64 <? 64) with false. cbv iota.
    split; [apply (cast_assign 8 8); lia|]. unfold uLongWordValue. rewrite cast_assign by lia.
    change (8 * Z.of_nat 8) with 64. cbn [assign_bytes with_raw mask_ assign_ULongWord].
    rewrite (mask_width _ Hv), Ew. destruct (Z.ltb_spec w 64); [|lia].
    rewrite land_ones_mod by lia. apply uw_uw. lia.
Qed.

Lemma values_hold_numbers_witness : exists v, SimValue_width memory0 12 = Done v /\
  uLongWordValue (assign_ULongWord 0xABCDE v) = 0xCDE /\
  exists v', assign_DoubleWord 0x3FF0000000000000 (assign_ULongWord 0xABCDE v) = Done v' /\
    uLongWordValue v' = 0.
Proof.
  destruct (values_hold_numbers memory0 12 0xABCDE 0x3FF0000000000000 eq_refl
    (repeat_range 512 0 ltac:(unfold is_u; lia)) ltac:(unfold SIMD_WORD_WIDTH; lia))
    as (v & E & Ew & (R & _) & _ & D).
  exists v. split; [exact E|]. split; [rewrite R; cbn [assign_ULongWord assign_bytes with_raw bitWidth_]; now rewrite Ew|].
  destruct (D ltac:(lia)) as (v' & E' & _ & _ & U). exists v'. split; [exact E' | exact U].
Defined.

(** ** Elements *)

Definition lane_bytes (w : Z) : nat := if w <=? 8 then 1 else if w <=? 16 then 2 else 4.
Definition lanes (w : Z) : Z := if w =? 1 then 4096 else 512 / Z.of_nat (lane_bytes w).

Lemma element_bytes_eq w : 2 <= w <= 32 -> element_bytes w = Done (Z.of_nat (lane_bytes w)).
Proof.
  intros Hw.
  assert (C : forallb (fun w => match element_bytes w with
    | Done n => n =? Z.of_nat (lane_bytes w) | _ => false end) (map Z.of_nat (seq 2 31)) = true) by (vm_compute; reflexivity).
  rewrite forallb_forall in C. specialize (C w).
  destruct (element_bytes w) as [n| |]; try (discriminate C; apply in_map_iff; exists (Z.to_nat w); rewrite in_seq; lia).
  f_equal. apply Z.eqb_eq, C, in_map_iff. exists (Z.to_nat w). rewrite in_seq. lia.
Qed.

Lemma element_mask_eq w : 2 <= w <= 32 -> element_mask w = Done (2 ^ w - 1).
Proof.
  intros Hw. unfold element_mask. destruct (Z.ltb_spec w 32).
  - rewrite shl_done by lia. unfold outcome_map. cbn [obind]. f_equal. apply not_high_ones. lia.
  - now replace w with 32 by lia.
Qed.

Lemma lane_bytes_spec w : 2 <= w <= 32 -> w <= 8 * Z.of_nat (lane_bytes w) /\ In (lane_bytes w) [1; 2; 4]%nat.
Proof. intros Hw. unfold lane_bytes. destruct (Z.leb_spec w 8), (Z.leb_spec w 16); split; cbn [In]; auto; lia. Qed.

Lemma lane_inside w i : 2 <= w <= 32 -> Z.of_nat i < lanes w -> (i * lane_bytes w + lane_bytes w <= 512)%nat.
Proof.
  intros Hw Hi. unfold lanes in Hi. destruct (Z.eqb_spec w 1); [lia|].
  destruct (lane_bytes_spec w Hw) as [_ [E|[E|[E|[]]]]]; rewrite <- E in *.
  - change (512 / Z.of_nat 1) with 512 in Hi. lia.
  - change (512 / Z.of_nat 2) with 256 in Hi. lia.
  - change (512 / Z.of_nat 4) with 128 in Hi. lia.
Qed.

Lemma element_eq w i v : 2 <= w <= 32 -> Z.of_nat i < lanes w ->
  element i w v = Done (value_of (slice (i * lane_bytes w) (lane_bytes w) (rawData_ v)) mod 2 ^ w).
Proof.
  intros Hw Hi. pose proof (lane_inside w i Hw Hi) as L. unfold element.
  destruct (Z.eqb_spec w 0); [lia|]. destruct (Z.ltb_spec 32 w); [lia|]. cbn [orb].
  destruct (Z.eqb_spec w 1); [lia|]. rewrite element_bytes_eq, element_mask_eq by lia. cbn [obind].
  change SIMVALUE_MAX_BYTE_SIZE with 512. rewrite Nat2Z.id.
  destruct (Z.leb_spec ((Z.of_nat i + 1) * Z.of_nat (lane_bytes w)) 512); [|lia].
  f_equal. apply land_ones_mod. lia.
Qed.

Lemma setElement_eq w i d v : 2 <= w <= 32 ->
  setElement i w d v
  = if Z.of_nat i <? lanes w
    then Done (with_raw (memcpy (rawData_ v) (i * lane_bytes w) (bytes_of (lane_bytes w) (d mod 2 ^ w))) v)
    else Throws AssertionFailed.
Proof.
  intros Hw. destruct (lane_bytes_spec w Hw) as [_ Hn]. unfold setElement, lanes.
  destruct (Z.eqb_spec w 0); [lia|]. destruct (Z.eqb_spec w 1); [lia|].
  rewrite element_bytes_eq, element_mask_eq by lia. cbn [obind]. change SIMVALUE_MAX_BYTE_SIZE with 512.
  rewrite Nat2Z.id, land_ones_mod by lia.
  destruct (Z.leb_spec (Z.of_nat (lane_bytes w)) 4); [|cbn in Hn; lia].
  destruct (Z.ltb_spec (512 / Z.of_nat (lane_bytes w)) (Z.of_nat i + 1)),
    (Z.ltb_spec (Z.of_nat i) (512 / Z.of_nat (lane_bytes w))); lia || reflexivity.
Qed.

Lemma with_raw_ok raw v : value_ok v -> length raw = 512%nat -> Forall (is_u 8) raw -> value_ok (with_raw raw v).
Proof. intros [_ _ Hw Hm] Hl Hb. now split. Qed.

Lemma lane_law w i d v : value_ok v -> 2 <= w <= 32 -> Z.of_nat i < lanes w ->
  exists v', setElement i w d v = Done v' /\ value_ok v' /\ bitWidth_ v' = bitWidth_ v /\
    element i w v' = Done (d mod 2 ^ w) /\
    forall j, j <> i -> Z.of_nat j < lanes w -> element j w v' = element j w v.
Proof.
  intros Hv Hw Hi. pose proof (lane_inside w i Hw Hi) as L. pose proof (raw_length _ Hv) as Hl.
  rewrite setElement_eq by assumption. destruct (Z.ltb_spec (Z.of_nat i) (lanes w)); [|lia].
  set (src := bytes_of (lane_bytes w) (d mod 2 ^ w)).
  assert (F : (i * lane_bytes w + length src <= length (rawData_ v))%nat) by (unfold src; rewrite bytes_of_length; lia).
  eexists. split; [reflexivity|]. split; [|split; [reflexivity|split]].
  - apply with_raw_ok; [assumption | now rewrite memcpy_length |].
    apply memcpy_range; [apply (raw_bytes _ Hv) | apply bytes_of_range].
  - rewrite element_eq by assumption. cbn [with_raw rawData_]. f_equal.
    assert (El : lane_bytes w = length src) by (unfold src; now rewrite bytes_of_length).
    rewrite El at 2. rewrite slice_memcpy_same by exact F. unfold src. rewrite value_of_bytes.
    destruct (lane_bytes_spec w Hw) as [Hb _].
    rewrite (Z.mod_small (d mod 2 ^ w)); [rewrite Z.mod_mod; [reflexivity | apply Z.pow_nonzero; lia]|].
    pose proof (Z.mod_pos_bound d (2 ^ w) (pow2_pos w ltac:(lia))).
    pose proof (pow2_le w (8 * Z.of_nat (lane_bytes w)) ltac:(lia) Hb). lia.
  - intros j Hj Hjl. rewrite !element_eq by assumption. cbn [with_raw rawData_]. do 2 f_equal. f_equal.
    pose proof (lane_inside w j Hw Hjl). apply slice_memcpy_other; [exact F | lia |].
    unfold src. rewrite bytes_of_length. destruct (Nat.lt_ge_cases j i); [left|right]; nia.
Qed.

Lemma bitElement_eq i v : Z.of_nat i < 4096 ->
  bitElement i v = Done (b2z (Z.testbit (nth (i / 8) (rawData_ v) 0) (Z.of_nat (i mod 8)))).
Proof.
  intros Hi. unfold bitElement, SIMD_WORD_WIDTH. destruct (Z.ltb_spec 4096 (Z.of_nat i + 1)); [lia|].
  do 2 f_equal. rewrite Z.shiftl_1_l, land_pow2 by lia.
  destruct (Z.testbit _ _); [apply truthy_pow2; lia | reflexivity].
Qed.

Lemma bit_law i d v : value_ok v -> Z.of_nat i < 4096 ->
  exists v', setBitElement i d v = Done v' /\ value_ok v' /\ bitWidth_ v' = bitWidth_ v /\
    bitElement i v' = Done (b2z (truthy d)) /\
    forall j, j <> i -> Z.of_nat j < 4096 -> bitElement j v' = bitElement j v.
Proof.
  intros Hv Hi. pose proof (raw_length _ Hv) as Hl. unfold setBitElement, SIMD_WORD_WIDTH.
  destruct (Z.ltb_spec 4096 (Z.of_nat i + 1)); [lia|].
  set (b := uw 8 _).
  assert (Hb : forall k, 0 <= k < 8 -> Z.testbit b k
    = if k =? Z.of_nat (i mod 8) then truthy d else Z.testbit (nth (i / 8) (rawData_ v) 0) k).
  { intros k Hk. unfold b, uw. rewrite Z.mod_pow2_bits_low by lia. rewrite Z.shiftl_1_l. unfold truthy.
    destruct (Z.eqb_spec d 0); cbn [negb].
    - rewrite Z.land_spec, Z.lnot_spec, Z.pow2_bits_eqb, (Z.eqb_sym k) by lia.
      destruct (Z.of_nat (i mod 8) =? k); [apply andb_false_r | apply andb_true_r].
    - rewrite Z.lor_spec, Z.pow2_bits_eqb, (Z.eqb_sym k) by lia.
      destruct (Z.of_nat (i mod 8) =? k); [apply orb_true_r | apply orb_false_r]. }
  assert (D : (i / 8 < 512)%nat) by (apply Nat.Div0.div_lt_upper_bound; lia).
  assert (F : (i / 8 + length [b] <= length (rawData_ v))%nat) by (cbn [length]; lia).
  assert (N : forall j, nth (j / 8) (memcpy (rawData_ v) (i / 8) [b]) 0
    = if (j / 8 =? i / 8)%nat then b else nth (j / 8) (rawData_ v) 0).
  { intros j. rewrite nth_memcpy by exact F. cbn [length].
    destruct (Nat.eqb_spec (j / 8) (i / 8)) as [->|].
    - rewrite Nat.leb_refl, (proj2 (Nat.ltb_lt _ _)) by lia. cbn [andb]. now rewrite Nat.sub_diag.
    - destruct (Nat.leb_spec (i / 8) (j / 8)), (Nat.ltb_spec (j / 8) (i / 8 + 1)); cbn [andb]; lia || reflexivity. }
  pose proof (Nat.mod_upper_bound i 8 ltac:(lia)).
  eexists. split; [reflexivity|]. split; [|split; [reflexivity|split]].
  - apply with_raw_ok; [assumption | now rewrite memcpy_length |].
    apply memcpy_range; [apply (raw_bytes _ Hv) | constructor; [apply uw_range; lia | constructor]].
  - rewrite bitElement_eq by assumption. cbn [with_raw rawData_]. rewrite N, Nat.eqb_refl, Hb by lia.
    now rewrite Z.eqb_refl.
  - intros j Hj Hjl. rewrite !bitElement_eq by assumption. cbn [with_raw rawData_]. rewrite N.
    pose proof (Nat.mod_upper_bound j 8 ltac:(lia)).
    destruct (Nat.eqb_spec (j / 8) (i / 8)) as [E|]; [|reflexivity]. rewrite Hb, E by lia.
    destruct (Z.eqb_spec (Z.of_nat (j mod 8)) (Z.of_nat (i mod 8))); [|reflexivity].
    exfalso. apply Hj. rewrite (Nat.div_mod_eq j 8), (Nat.div_mod_eq i 8). lia.
Qed.

(** C15: Elements are independent lanes.  For every element width from 1 to 32, writing an element
    whose lane lies inside the 4096 bits makes exactly that element read back, reduced to the width
    (a single bit reads whether the data were nonzero), leaves every other element of that width,
    and keeps the value well-formed; a lane beyond the end fails the assertion. *)
Theorem elements_roundtrip v w i d : value_ok v -> 1 <= w <= 32 ->
  if Z.of_nat i <? lanes w
  then exists v', setElement i w d v = Done v' /\ value_ok v' /\ bitWidth_ v' = bitWidth_ v /\
    element i w v' = Done (if w =? 1 then b2z (truthy d) else d mod 2 ^ w) /\
    forall j, j <> i -> Z.of_nat j < lanes w -> element j w v' = element j w v
  else setElement i w d v = Throws AssertionFailed.
Proof.
  intros Hv Hw. destruct (Z.eqb_spec w 1) as [->|].
  - change (lanes 1) with 4096.
    assert (E : forall j u, element j 1 u = bitElement j u) by reflexivity.
    change (setElement i 1 d v) with (setBitElement i d v). destruct (Z.ltb_spec (Z.of_nat i) 4096).
    + destruct (bit_law i d v Hv ltac:(lia)) as (v' & H1 & H2 & H3 & H4 & H5). exists v'. auto.
    + unfold setBitElement, SIMD_WORD_WIDTH. destruct (Z.ltb_spec 4096 (Z.of_nat i + 1)); [reflexivity | lia].
  - destruct (Z.ltb_spec (Z.of_nat i) (lanes w)).
    + apply lane_law; lia || assumption.
    + rewrite setElement_eq by lia. destruct (Z.ltb_spec (Z.of_nat i) (lanes w)); [lia | reflexivity].
Qed.

Lemma elements_roundtrip_witness : exists v v', SimValue_width memory0 64 = Done v /\
  setElement 1 8 0x1FF v = Done v' /\ element 1 8 v' = Done 0xFF /\ setElement 512 8 1 v = Throws AssertionFailed.
Proof.
  destruct (setBitWidth_ok memory0 64 eq_refl (repeat_range 512 0 ltac:(unfold is_u; lia))
    ltac:(unfold SIMD_WORD_WIDTH; lia)) as (v & E & Hv & _).
  destruct (elements_roundtrip v 8 1 0x1FF Hv ltac:(lia)) as (v' & E' & _ & _ & R & _).
  exists v, v'. split; [exact E|]. split; [exact E'|]. split; [exact R|].
  exact (elements_roundtrip v 8 512 1 Hv ltac:(lia)).
Defined.

(** ** Extension in place *)

Lemma split_at p (l : list Z) : (p < length l)%nat -> l = firstn p l ++ nth p l 0 :: skipn (S p) l.
Proof.
  intros H. rewrite <- (firstn_skipn p l) at 1. f_equal. revert l H.
  induction p as [|p IH]; intros [|x l] H; cbn [length] in H; try lia; [reflexivity|]. cbn. apply IH. lia.
Qed.

Lemma slice_app n k l : (n + k <= length l)%nat -> firstn (n + k) l = firstn n l ++ slice n k l.
Proof.
  intros H. rewrite <- (firstn_skipn n (firstn (n + k) l)). f_equal.
  - rewrite firstn_firstn. f_equal. lia.
  - unfold slice. rewrite firstn_skipn_comm. reflexivity.
Qed.

(** Replacing byte [p] changes the number by that byte's difference. *)
Lemma value_replace p b l n : (p < n)%nat -> (n <= length l)%nat ->
  value_of (firstn n (memcpy l p [b])) = value_of (firstn n l) + 2 ^ (8 * Z.of_nat p) * (b - nth p l 0).
Proof.
  intros Hp Hn. replace (firstn n l) with (firstn n (firstn p l ++ nth p l 0 :: skipn (S p) l))
    by (f_equal; symmetry; apply split_at; lia).
  unfold memcpy. cbn [length app].
  replace (p + 1)%nat with (S p) by lia. rewrite !firstn_app, length_firstn, Nat.min_l by lia.
  rewrite firstn_firstn, Nat.min_r by lia. replace (n - p)%nat with (S (n - p - 1)) by lia.
  cbn [app firstn]. rewrite !value_of_app, length_firstn, Nat.min_l, !value_of_cons by lia. ring.
Qed.

(** The number of the first [F] bytes, and of [n] after filling the bytes from [F] to [n]. *)
Lemma value_fill F n b l : (F <= n)%nat -> (n <= length l)%nat -> is_u 8 b ->
  value_of (firstn n (memset l F (n - F) b))
  = value_of (firstn F l) + 2 ^ (8 * Z.of_nat F) * value_of (repeat b (n - F)).
Proof.
  intros HF Hn Hb. unfold memset, memcpy. rewrite repeat_length.
  replace (F + (n - F))%nat with n by lia.
  rewrite app_assoc, firstn_app, length_app, length_firstn, repeat_length, Nat.min_l by lia.
  replace (n - (F + (n - F)))%nat with 0%nat by lia. cbn [firstn]. rewrite app_nil_r.
  rewrite firstn_all2 by (rewrite length_app, length_firstn, repeat_length; lia).
  now rewrite value_of_app, length_firstn, Nat.min_l by lia.
Qed.

Lemma value_zeros n : value_of (repeat 0 n) = 0.
Proof. induction n as [|n IH]; [reflexivity|]. cbn [repeat]. rewrite value_of_cons, IH. reflexivity. Qed.

Lemma value_ones n : value_of (repeat 255 n) = 2 ^ (8 * Z.of_nat n) - 1.
Proof. induction n as [|n IH]; [reflexivity|]. cbn [repeat]. rewrite value_of_cons, IH, pow256. lia. Qed.

(** Sign and zero extension from [8 p + r] bits work on byte [p]. *)
Lemma extend_split L b p r : 0 <= p -> 0 < r <= 8 -> is_u (8 * p) L ->
  sw (8 * p + r) (L + 2 ^ (8 * p) * b) = L + 2 ^ (8 * p) * sw r b /\ uw (8 * p + r) (L + 2 ^ (8 * p) * b) = L + 2 ^ (8 * p) * uw r b.
Proof.
  intros Hp Hr [L0 L1]. pose proof (pow2_pos (8 * p) ltac:(lia)) as P. set (P8 := 2 ^ (8 * p)) in *.
  assert (E : 2 ^ (8 * p + r) = P8 * 2 ^ r) by (unfold P8; rewrite <- Z.pow_add_r by lia; reflexivity).
  assert (E1 : 2 ^ (8 * p + r - 1) = P8 * 2 ^ (r - 1)) by (unfold P8; rewrite <- Z.pow_add_r by lia; f_equal; lia).
  assert (M : forall c, (L + P8 * c) mod (P8 * 2 ^ r) = L + P8 * (c mod 2 ^ r)).
  { intros c. pose proof (pow2_pos r ltac:(lia)). rewrite Z.rem_mul_r by lia.
    rewrite (Z.mul_comm P8 c), Z.mod_add, Z.div_add, (Z.mod_small L), (Z.div_small L) by lia. now rewrite Z.add_0_l. }
  unfold sw, uw. rewrite E, E1. split; [|apply M].
  replace (L + P8 * b + P8 * 2 ^ (r - 1)) with (L + P8 * (b + 2 ^ (r - 1))) by ring. rewrite M. ring.
Qed.

Lemma cast_split p v : (p < 512)%nat -> value_ok v ->
  cast (S p) v = cast p v + 2 ^ (8 * Z.of_nat p) * nth p (rawData_ v) 0.
Proof.
  intros Hp Hv. pose proof (raw_length _ Hv) as Hl. unfold cast.
  replace (firstn (S p) (rawData_ v)) with (firstn (S p) (firstn p (rawData_ v) ++ nth p (rawData_ v) 0 :: skipn (S p) (rawData_ v)))
    by (f_equal; symmetry; apply split_at; lia).
  rewrite firstn_app, length_firstn, firstn_firstn, Nat.min_r, Nat.min_l by lia.
  replace (S p - p)%nat with 1%nat by lia. cbn [firstn]. rewrite value_of_app, length_firstn, Nat.min_l by lia.
  change (value_of [nth p (rawData_ v) 0]) with (nth p (rawData_ v) 0 + 256 * 0). f_equal. f_equal. lia.
Qed.

(** The byte that holds bit [n - 1], extended from that bit. *)
Lemma extend_last_eq n v (signed : bool) : value_ok v -> 0 < n <= bitWidth_ v ->
  exists p r v', n = 8 * Z.of_nat p + r /\ 0 < r <= 8 /\ (p < 512)%nat /\ Z.to_nat (bytes_for n) = S p /\
    extend_last (if signed then fastSignExtendTo else fastZeroExtendTo) n v = Done v' /\
    value_ok v' /\ bitWidth_ v' = bitWidth_ v /\
    v' = with_raw (memcpy (rawData_ v) p
      [uw 8 (if signed then sw r (nth p (rawData_ v) 0) else uw r (nth p (rawData_ v) 0))]) v.
Proof.
  intros Hv Hn. pose proof (width_range _ Hv) as Hw. unfold SIMD_WORD_WIDTH in Hw.
  pose proof (raw_length _ Hv) as Hl.
  set (p := Z.to_nat ((n - 1) / 8)). exists p, ((n - 1) mod 8 + 1).
  assert (Hp : Z.of_nat p = (n - 1) / 8) by (unfold p; rewrite Z2Nat.id; [reflexivity | dlia]).
  assert (Hb : Z.to_nat (bytes_for n) = S p) by (rewrite bytes_for_eq by lia; unfold p; dlia).
  assert (Hp5 : (p < 512)%nat) by dlia.
  assert (Hu : is_u 8 (nth p (rawData_ v) 0)).
  { pose proof (proj1 (Forall_forall _ _) (raw_bytes _ Hv)) as R. apply R, nth_In. lia. }
  eexists. split; [dlia|]. split; [dlia|]. split; [exact Hp5|]. split; [exact Hb|].
  assert (Hu64 : is_u 64 (nth p (rawData_ v) 0)) by (unfold is_u in *; lia).
  split; [|split; [|split; [|reflexivity]]].
  - unfold extend_last. rewrite Hb. replace (S p - 1)%nat with p by lia.
    assert (R : 0 < (n - 1) mod 8 + 1 <= 64) by dlia.
    destruct signed; [rewrite fastSignExtendTo_eq by exact R | rewrite fastZeroExtendTo_eq by assumption];
      reflexivity.
  - apply with_raw_ok; [assumption | rewrite memcpy_length; [exact Hl | cbn [length]; lia] |].
    apply memcpy_range; [apply (raw_bytes _ Hv) | constructor; [apply uw_range; lia | constructor]].
  - reflexivity.
Qed.

(** The first [p] bytes do not change, and the last byte of the shorter number is the new one. *)
Lemma cast_replaced p b v : value_ok v -> (p < 512)%nat ->
  cast p (with_raw (memcpy (rawData_ v) p [b]) v) = cast p v /\
  cast (S p) (with_raw (memcpy (rawData_ v) p [b]) v) = cast p v + 2 ^ (8 * Z.of_nat p) * b.
Proof.
  intros Hv Hp. pose proof (raw_length _ Hv) as Hl. split; unfold cast at 1; cbn [with_raw rawData_].
  - unfold cast, memcpy. rewrite firstn_app, firstn_firstn, Nat.min_id, length_firstn, Nat.min_l by lia.
    now rewrite Nat.sub_diag, app_nil_r.
  - rewrite value_replace by lia. fold (cast (S p) v). rewrite cast_split by assumption. ring.
Qed.

(** The number of all the bytes, split at byte [p]. *)
Lemma cast_above p k v : value_ok v -> (p < k <= 512)%nat -> exists h, 0 <= h /\
  cast k v = cast p v + 2 ^ (8 * Z.of_nat p) * (nth p (rawData_ v) 0 + 256 * h).
Proof.
  intros Hv Hk. pose proof (raw_length _ Hv) as Hl. exists (value_of (slice (S p) (k - S p) (rawData_ v))).
  split; [apply value_of_range, slice_range, (raw_bytes _ Hv)|].
  rewrite <- (Nat.add_sub k (S p)) at 1. unfold cast at 1.
  replace (k + S p - S p)%nat with (S p + (k - S p))%nat by lia. rewrite slice_app by lia.
  rewrite value_of_app, length_firstn, Nat.min_l by lia. fold (cast (S p) v).
  rewrite cast_split, pow256 by (lia || assumption). ring.
Qed.

Lemma sw_low n p r L b h : n = 8 * Z.of_nat p + r -> 0 < r <= 8 -> is_u (8 * Z.of_nat p) L ->
  sw n (L + 2 ^ (8 * Z.of_nat p) * (b + 256 * h)) = L + 2 ^ (8 * Z.of_nat p) * sw r b /\
  uw n (L + 2 ^ (8 * Z.of_nat p) * (b + 256 * h)) = L + 2 ^ (8 * Z.of_nat p) * uw r b.
Proof.
  intros -> Hr HL. destruct (extend_split L (b + 256 * h) (Z.of_nat p) r ltac:(lia) Hr HL) as [-> ->].
  assert (E : (b + 256 * h) mod 2 ^ r = b mod 2 ^ r).
  { replace 256 with (2 ^ (8 - r) * 2 ^ r) by (rewrite <- Z.pow_add_r by lia; now replace (8 - r + r) with 8 by lia).
    rewrite Z.mul_shuffle0, Z.mod_add by (apply Z.pow_nonzero; lia). reflexivity. }
  unfold uw. rewrite E. split; [|reflexivity]. do 2 f_equal. apply sw_cong; [lia | exact E].
Qed.

Lemma zero_extension v n : value_ok v -> 0 < n <= bitWidth_ v ->
  exists v', zeroExtendTo n v = Done v' /\ value_ok v' /\ bitWidth_ v' = bitWidth_ v /\
    cast (Z.to_nat (bytes_for (bitWidth_ v))) v' = uw n (cast (Z.to_nat (bytes_for (bitWidth_ v))) v).
Proof.
  intros Hv Hn. pose proof (width_range _ Hv) as Hw. pose proof (raw_length _ Hv) as Hl.
  set (k := Z.to_nat (bytes_for (bitWidth_ v))).
  destruct (extend_last_eq n v false Hv Hn) as (p & r & u & En & Hr & Hp & Hb & Eu & Hu & Ewu & Du).
  assert (Hk : (S p <= k <= 512)%nat) by (unfold k, SIMD_WORD_WIDTH in *; rewrite <- Hb, !bytes_for_eq by lia; dlia).
  destruct (cast_above p k v Hv ltac:(lia)) as (h & Hh & Eh).
  destruct (cast_replaced p (uw 8 (uw r (nth p (rawData_ v) 0))) v Hv Hp) as [C1 C2]. rewrite <- Du in C1, C2.
  pose proof (cast_range p v Hv ltac:(lia)) as RL.
  assert (E8 : uw 8 (uw r (nth p (rawData_ v) 0)) = uw r (nth p (rawData_ v) 0)).
  { apply uw_small. pose proof (uw_range r (nth p (rawData_ v) 0) ltac:(lia)). unfold is_u in *.
    pose proof (pow2_le r 8 ltac:(lia) ltac:(lia)). lia. }
  unfold zeroExtendTo. destruct (Z.ltb_spec SIMD_WORD_WIDTH n); [lia|]. destruct (Z.leb_spec n 0); [lia|].
  rewrite Eu. cbn [obind]. rewrite Hb, Ewu. fold k.
  rewrite Eh, (proj2 (sw_low n p r _ _ h En Hr RL)).
  destruct (Nat.ltb_spec (S p) k).
  - eexists. split; [reflexivity|]. split; [|split; [exact Ewu|]].
    + assert (F : (S p + length (repeat 0%Z (k - S p)) <= length (rawData_ u))%nat)
        by (rewrite repeat_length, (raw_length _ Hu); lia).
      apply with_raw_ok; [exact Hu | unfold memset; rewrite memcpy_length by exact F; apply (raw_length _ Hu) |].
      apply memcpy_range; [apply (raw_bytes _ Hu) | apply repeat_range; unfold is_u; lia].
    + unfold cast at 1. cbn [with_raw rawData_]. rewrite value_fill; [| lia | rewrite (raw_length _ Hu); lia | unfold is_u; lia].
      fold (cast (S p) u). rewrite value_zeros, C2, E8. lia.
  - exists u. split; [reflexivity|]. split; [exact Hu|]. split; [exact Ewu|].
    replace k with (S p) by lia. now rewrite C2, E8.
Qed.

Lemma sign_bit r b : 0 < r <= 8 ->
  Z.testbit (uw 8 (sw r b)) (r - 1) = (sw r b <? 0) /\
  uw 8 (sw r b) = sw r b + (if sw r b <? 0 then 256 else 0).
Proof.
  intros Hr. pose proof (sw_range r b ltac:(lia)) as R. unfold is_s in R.
  assert (P : 2 ^ (r - 1) <= 2 ^ 7) by (apply pow2_le; lia). change (2 ^ 7) with 128 in P.
  pose proof (pow2_pos (r - 1) ltac:(lia)).
  assert (U : uw 8 (sw r b) = sw r b + (if sw r b <? 0 then 256 else 0)).
  { unfold uw. change (2 ^ 8) with 256. destruct (Z.ltb_spec (sw r b) 0).
    - rewrite <- (Z.mod_add _ 1) by lia. rewrite Z.mod_small; lia.
    - rewrite Z.mod_small; lia. }
  split; [|exact U]. unfold uw. rewrite Z.mod_pow2_bits_low by lia.
  destruct (Z.ltb_spec (sw r b) 0).
  - apply Z.testbit_true; [lia|]. replace (sw r b / 2 ^ (r - 1)) with (-1); [reflexivity|].
    symmetry. apply div_eq; lia.
  - apply Z.testbit_false; [lia|]. rewrite Z.div_small by lia. reflexivity.
Qed.

Lemma sign_extension v n : value_ok v -> 0 < n <= bitWidth_ v ->
  exists v', signExtendTo n v = Done v' /\ value_ok v' /\ bitWidth_ v' = bitWidth_ v /\
    cast (Z.to_nat (bytes_for (bitWidth_ v))) v'
    = uw (8 * Z.of_nat (Z.to_nat (bytes_for (bitWidth_ v)))) (sw n (cast (Z.to_nat (bytes_for (bitWidth_ v))) v)).
Proof.
  intros Hv Hn. pose proof (width_range _ Hv) as Hw. pose proof (raw_length _ Hv) as Hl.
  set (k := Z.to_nat (bytes_for (bitWidth_ v))).
  destruct (extend_last_eq n v true Hv Hn) as (p & r & u & En & Hr & Hp & Hb & Eu & Hu & Ewu & Du).
  assert (Hk : (S p <= k <= 512)%nat) by (unfold k, SIMD_WORD_WIDTH in *; rewrite <- Hb, !bytes_for_eq by lia; dlia).
  destruct (cast_above p k v Hv ltac:(lia)) as (h & Hh & Eh). set (b := nth p (rawData_ v) 0) in *.
  destruct (cast_replaced p (uw 8 (sw r b)) v Hv Hp) as [C1 C2]. rewrite <- Du in C1, C2.
  pose proof (cast_range p v Hv ltac:(lia)) as RL. destruct (sign_bit r b Hr) as [Sb Sv].
  rewrite Eh, (proj1 (sw_low n p r _ _ h En Hr RL)).
  assert (Nth : nth p (rawData_ u) 0 = uw 8 (sw r b)).
  { rewrite Du. cbn [with_raw rawData_]. rewrite nth_memcpy by (cbn [length]; lia). cbn [length].
    rewrite Nat.leb_refl, (proj2 (Nat.ltb_lt _ _)) by lia. cbn [andb]. now rewrite Nat.sub_diag. }
  assert (Bit : bitElement (Z.to_nat (n - 1)) u = Done (b2z (sw r b <? 0))).
  { unfold SIMD_WORD_WIDTH in Hw. rewrite bitElement_eq by lia.
    replace (Z.to_nat (n - 1) / 8)%nat with p by (apply (Nat.div_unique _ 8 p (Z.to_nat (r - 1))); lia).
    replace (Z.to_nat (n - 1) mod 8)%nat with (Z.to_nat (r - 1))
      by (apply (Nat.mod_unique _ 8 p); lia).
    rewrite Z2Nat.id, Nth, Sb by lia. reflexivity. }
  assert (Hf : is_u 8 (if sw r b <? 0 then 255 else 0)) by (destruct (sw r b <? 0); unfold is_u; lia).
  pose proof (pow2_pos (8 * Z.of_nat p) ltac:(lia)) as P.
  assert (Fill : cast p v + 2 ^ (8 * Z.of_nat p) * uw 8 (sw r b)
      + 2 ^ (8 * Z.of_nat (S p)) * value_of (repeat (if sw r b <? 0 then 255 else 0) (k - S p))
    = uw (8 * Z.of_nat k) (cast p v + 2 ^ (8 * Z.of_nat p) * sw r b)).
  { assert (Ek : 2 ^ (8 * Z.of_nat k) = 2 ^ (8 * Z.of_nat (S p)) * 2 ^ (8 * Z.of_nat (k - S p)))
      by (rewrite <- Z.pow_add_r by lia; f_equal; lia).
    pose proof (sw_range r b ltac:(lia)) as Rs. unfold is_s in Rs. pose proof (pow2_le (r - 1) 7 ltac:(lia) ltac:(lia)).
    change (2 ^ 7) with 128 in *. unfold is_u in RL. pose proof (pow2_pos (8 * Z.of_nat (k - S p)) ltac:(lia)).
    rewrite pow256 in Ek. rewrite pow256, Sv. unfold uw. rewrite Ek. destruct (Z.ltb_spec (sw r b) 0).
    - rewrite value_ones, <- (Z.mod_add _ 1) by lia. rewrite Z.mod_small by nia. ring.
    - rewrite value_zeros, Z.mod_small by nia. ring. }
  unfold signExtendTo. destruct (Z.ltb_spec SIMD_WORD_WIDTH n); [lia|]. destruct (Z.leb_spec n 0); [lia|].
  rewrite Eu. cbn [obind]. rewrite Hb, Ewu. fold k. destruct (Nat.ltb_spec (S p) k).
  - rewrite Bit. cbn [obind].
    replace (if b2z (sw r b <? 0) =? 0 then 0 else 255) with (if sw r b <? 0 then 255 else 0) by now destruct (sw r b <? 0).
    eexists. split; [reflexivity|]. split; [|split; [exact Ewu|]].
    + assert (F : (S p + length (repeat (if sw r b <? 0 then 255 else 0)%Z (k - S p)) <= length (rawData_ u))%nat)
        by (rewrite repeat_length, (raw_length _ Hu); lia).
      apply with_raw_ok; [exact Hu | unfold memset; rewrite memcpy_length by exact F; apply (raw_length _ Hu) |].
      apply memcpy_range; [apply (raw_bytes _ Hu) | now apply repeat_range].
    + unfold cast at 1. cbn [with_raw rawData_]. rewrite value_fill; [| lia | rewrite (raw_length _ Hu); lia | exact Hf].
      fold (cast (S p) u). now rewrite C2.
  - exists u. split; [reflexivity|]. split; [exact Hu|]. split; [exact Ewu|].
    replace k with (S p) in * by lia. rewrite Nat.sub_diag in Fill. cbn [repeat] in Fill.
    change (value_of []) with 0 in Fill. rewrite C2. lia.
Qed.

(** C16: Extension in place.  [signExtendTo n] and [zeroExtendTo n], for [n] from one bit up to the
    value's width, replace the number its bytes hold by its two's complement or unsigned reduction
    to [n] bits, spread over all the bytes of the width, and keep the value well-formed; a request
    beyond 4096 bits throws. *)
Theorem extension_in_place v n : value_ok v -> 0 < n <= bitWidth_ v ->
  let k := Z.to_nat (bytes_for (bitWidth_ v)) in
  (exists v', signExtendTo n v = Done v' /\ value_ok v' /\ bitWidth_ v' = bitWidth_ v /\
     cast k v' = uw (8 * Z.of_nat k) (sw n (cast k v))) /\
  (exists v', zeroExtendTo n v = Done v' /\ value_ok v' /\ bitWidth_ v' = bitWidth_ v /\
     cast k v' = uw n (cast k v)) /\
  (forall m, SIMD_WORD_WIDTH < m -> signExtendTo m v = Throws OutOfRange /\ zeroExtendTo m v = Throws OutOfRange).
Proof.
  intros Hv Hn k. split; [|split]; [now apply sign_extension | now apply zero_extension |].
  intros m Hm. unfold signExtendTo, zeroExtendTo. destruct (Z.ltb_spec SIMD_WORD_WIDTH m); [easy | lia].
Qed.

(** Five becomes minus three in four bits. *)
Lemma extension_witness : exists v v', SimValue_width memory0 16 = Done v /\
  signExtendTo 4 (assign_ULongWord 13 v) = Done v' /\ cast 2 v' = 2 ^ 16 - 3.
Proof.
  destruct (setBitWidth_ok memory0 16 eq_refl (repeat_range 512 0 ltac:(unfold is_u; lia))
    ltac:(unfold SIMD_WORD_WIDTH; lia)) as (v & E & Hv & Ew & _).
  assert (Ew' : bitWidth_ (assign_ULongWord 13 v) = 16) by exact Ew.
  destruct (extension_in_place (assign_ULongWord 13 v) 4 (assign_ok 8 13 v Hv ltac:(lia)) ltac:(lia))
    as ((v' & E' & _ & _ & C) & _).
  exists v, v'. split; [exact E|]. split; [exact E'|]. rewrite Ew' in C.
  change (Z.to_nat (bytes_for 16)) with 2%nat in C. rewrite C. unfold assign_ULongWord.
  rewrite cast_assign by lia. reflexivity.
Defined.
