(* ===== verification/SimMemory.v ===== *)
(** * Memories of the simulator

    src/base/memory: [Memory] turns loads and stores of several minimum addressable units (MAUs)
    into reads and writes of single ones, which a derived class provides; stores wait in a queue
    until the end of the cycle.  The pure virtual methods are the class [Storage], the methods of
    the base class that a derived class overrides are the class [Overrides]: the base versions are
    [Memory_writeBE], [Memory_advanceClock] and [Memory_reset], and a call through a [Memory &]
    goes to the fields of the class.  [IdealSRAM] keeps the base versions; [DirectAccessMemory]
    flushes its big-endian stores and has an empty clock and reset.  Both have the page table of
    tools/PagedArray.icc.  [ULongWord] has 64 bits, [Word] and the MAU type 32. *)

From S2P Require Import Prelude.
From S2P Require Import CInt.
From S2P Require Import Cpp.
From stdpp Require Import base gmap list.
#[local] Open Scope Z_scope.
#[local] Open Scope c_scope.
#[local] Open Scope cpp_scope.

(** ** The page table (PagedArray.icc, MemoryContents.hh) *)

Definition MEM_CHUNK_SIZE : Z := 1024.

Record PagedArray := mk_pages { pageTableSize : Z; pageTable : gmap Z (list Z) }.

(** [ceil] of the quotient in [double], exact for the 32-bit sizes the memories ask for. *)
Definition PagedArray_new (size : Z) : PagedArray :=
  mk_pages ((size + MEM_CHUNK_SIZE - 1) / MEM_CHUNK_SIZE) ∅.

Definition deletePages (p : PagedArray) : PagedArray := mk_pages (pageTableSize p) ∅.
Definition clear (p : PagedArray) : PagedArray := deletePages p.

Definition new_page : list Z := replicate (Z.to_nat MEM_CHUNK_SIZE) 0.

(** An index beyond the page table is not checked. *)
Definition writeData (index data : Z) (p : PagedArray) : outcome PagedArray :=
  requires index / MEM_CHUNK_SIZE <? pageTableSize p ;
  let page := default new_page (pageTable p !! (index / MEM_CHUNK_SIZE)) in
  Done (mk_pages (pageTableSize p)
    (<[index / MEM_CHUNK_SIZE := <[Z.to_nat (index mod MEM_CHUNK_SIZE) := data]> page]> (pageTable p))).

Definition readData (index : Z) (p : PagedArray) : outcome Z :=
  requires index / MEM_CHUNK_SIZE <? pageTableSize p ;
  match pageTable p !! (index / MEM_CHUNK_SIZE) with
  | None => Done 0
  | Some page => Done (default 0 (page !! Z.to_nat (index mod MEM_CHUNK_SIZE)))
  end.

(** ** The pure virtual methods of [Memory] *)

Class Storage (S : Type) := {
  write_mau : Z -> Z -> S -> outcome S;
  read_mau : Z -> S -> outcome Z;
}.

(** ** Memory.cc *)

Record WriteRequest := mk_request { address_ : Z; data_ : list Z }.

Record Memory (S : Type) := mk_memory {
  littleEndian_ : bool; start_ : Z; end_ : Z; MAUSize_ : Z; mask_ : Z;
  writeRequests_ : list WriteRequest; storage : S }.
Arguments mk_memory {S}.
Arguments littleEndian_ {S}.
Arguments start_ {S}.
Arguments end_ {S}.
Arguments MAUSize_ {S}.
Arguments mask_ {S}.
Arguments writeRequests_ {S}.
Arguments storage {S}.

Definition MAX_ACCESS_SIZE : nat := 64.

Section Memory.
Context {S : Type} `{Storage S}.
Implicit Types (m : Memory S).

Definition with_requests (q : list WriteRequest) m : Memory S :=
  mk_memory (littleEndian_ m) (start_ m) (end_ m) (MAUSize_ m) (mask_ m) q (storage m).
Definition with_storage (s : S) m : Memory S :=
  mk_memory (littleEndian_ m) (start_ m) (end_ m) (MAUSize_ m) (mask_ m) (writeRequests_ m) s.

(** The mask is an [int]: all ones is [-1]. *)
Definition Memory_new (start end' MAUSize : Z) (littleEndian : bool) (s : S) : outcome (Memory S) :=
  if MAUSize =? 32 then Done (mk_memory littleEndian start end' MAUSize (-1) [] s)
  else if 32 <? MAUSize then Throws OutOfRange
  else ones <~ shl 32 (2 ^ 32 - 1) MAUSize ;
    Done (mk_memory littleEndian start end' MAUSize (s32 (u32 (Z.lnot ones))) [] s).

(** The comparison is made in [unsigned int], so that [high - numberOfMAUs + 1] wraps around. *)
Definition checkRange (startAddress : Z) (numberOfMAUs : nat) m : outcome unit :=
  let low := u32 (start_ m) in
  let high := u32 (end_ m) in
  if (startAddress <? low) || (u32 (high - Z.of_nat numberOfMAUs + 1) <? startAddress)
  then Throws OutOfRange else Done tt.

Fixpoint unpackBE_loop (value shiftCount : Z) (n : nat) m : outcome (list Z) :=
  match n with
  | O => Done []
  | Datatypes.S n =>
    d <~ shr 64 value shiftCount ;
    rest <~ unpackBE_loop value (s32 (shiftCount - MAUSize_ m)) n m ;
    Done (u32 (d &&& u64 (mask_ m)) :: rest)
  end.

Definition unpackBE (value : Z) (size : nat) m : outcome (list Z) :=
  unpackBE_loop value (s32 (MAUSize_ m * (Z.of_nat size - 1))) size m.

Fixpoint unpackLE_loop (value shiftCount : Z) (n : nat) m : outcome (list Z) :=
  match n with
  | O => Done []
  | Datatypes.S n =>
    d <~ shr 64 value shiftCount ;
    rest <~ unpackLE_loop value (s32 (shiftCount + MAUSize_ m)) n m ;
    Done (u32 (d &&& u64 (mask_ m)) :: rest)
  end.

Definition unpackLE (value : Z) (size : nat) m : outcome (list Z) := unpackLE_loop value 0 size m.

(** Packing shifts 32-bit units in 32 bits. *)
Fixpoint packBE_loop (data : list Z) (shiftCount value : Z) m : outcome Z :=
  match data with
  | [] => Done value
  | d :: data =>
    x <~ shl 32 d shiftCount ;
    packBE_loop data (s32 (shiftCount - MAUSize_ m)) (value ||| x) m
  end.

Definition packBE (data : list Z) m : outcome Z :=
  packBE_loop data (s32 (MAUSize_ m * (Z.of_nat (length data) - 1))) 0 m.

Fixpoint packLE_loop (data : list Z) (shiftCount value : Z) m : outcome Z :=
  match data with
  | [] => Done value
  | d :: data =>
    x <~ shl 32 d shiftCount ;
    packLE_loop data (s32 (shiftCount + MAUSize_ m)) (value ||| x) m
  end.

Definition packLE (data : list Z) m : outcome Z := packLE_loop data 0 0 m.

(** A request keeps 32 bits of its address. *)
Definition push_request (address : Z) (data : list Z) m : Memory S :=
  with_requests (writeRequests_ m ++ [mk_request (u32 address) data]) m.

(** The units go through an array of [MAX_ACCESS_SIZE]. *)
Definition Memory_writeBE (address : Z) (count : nat) (data : Z) m : outcome (Memory S) :=
  _ <~ checkRange address count m ;
  requires (count <=? MAX_ACCESS_SIZE)%nat ;
  MAUData <~ unpackBE data count m ;
  Done (push_request address MAUData m).

Definition writeLE (address : Z) (count : nat) (data : Z) m : outcome (Memory S) :=
  _ <~ checkRange address count m ;
  requires (count <=? MAX_ACCESS_SIZE)%nat ;
  MAUData <~ unpackLE data count m ;
  Done (push_request address MAUData m).

(** The loop of [writeDirectlyBE] and of [Memory_advanceClock]; [next] adds to the address in its type. *)
Fixpoint write_units (next : Z -> Z) (address : Z) (data : list Z) (s : S) : outcome S :=
  match data with
  | [] => Done s
  | d :: data => s <~ write_mau address d s ; write_units next (next address) data s
  end.

Definition writeDirectlyBE (address : Z) (count : nat) (data : Z) m : outcome (Memory S) :=
  _ <~ checkRange address count m ;
  requires (count <=? MAX_ACCESS_SIZE)%nat ;
  MAUData <~ unpackBE data count m ;
  outcome_map (fun s => with_storage s m) (write_units (fun a => u64 (a + 1)) address MAUData (storage m)).

Definition writeDirectlyLE (address : Z) (count : nat) (data : Z) m : outcome (Memory S) :=
  _ <~ checkRange address count m ;
  requires (count <=? MAX_ACCESS_SIZE)%nat ;
  MAUData <~ unpackLE data count m ;
  outcome_map (fun s => with_storage s m) (write_units (fun a => u64 (a + 1)) address MAUData (storage m)).

(** The unit read has 32 bits and is shifted as such. *)
Fixpoint readBE_loop (address shiftCount data : Z) (n : nat) m : outcome Z :=
  match n with
  | O => Done data
  | Datatypes.S n =>
    d <~ read_mau address (storage m) ;
    x <~ shl 32 d shiftCount ;
    readBE_loop (u64 (address + 1)) (s32 (shiftCount - MAUSize_ m)) (data ||| x) n m
  end.

Definition readBE (address : Z) (size : nat) m : outcome Z :=
  _ <~ checkRange address size m ;
  readBE_loop address (s32 (MAUSize_ m * (Z.of_nat size - 1))) 0 size m.

(** Here it is widened to 64 bits first. *)
Fixpoint readLE_loop (address shiftCount data : Z) (n : nat) m : outcome Z :=
  match n with
  | O => Done data
  | Datatypes.S n =>
    d <~ read_mau address (storage m) ;
    x <~ shl 64 d shiftCount ;
    readLE_loop (u64 (address + 1)) (s64 (shiftCount + MAUSize_ m)) (data ||| x) n m
  end.

Definition readLE (address : Z) (size : nat) m : outcome Z :=
  _ <~ checkRange address size m ;
  readLE_loop address 0 0 size m.

Definition read (address : Z) (size : nat) m : outcome Z :=
  if littleEndian_ m then readLE address size m else readBE address size m.

(** [FloatWord] and [DoubleWord] are four and eight bytes; the host is little-endian, so that byte
    [i] of the union is bits [8 i] up. *)
Definition union_byte (bits i : Z) : Z := (bits >> (8 * i)) &&& 255.

Definition union_bytes_LE (MAUS : nat) (bits : Z) : list Z :=
  map (fun i => union_byte bits (Z.of_nat i)) (seq 0 MAUS).
Definition union_bytes_BE (MAUS : nat) (bits : Z) : list Z :=
  map (fun i => union_byte bits (Z.of_nat (MAUS - 1 - i))) (seq 0 MAUS).

Definition asserts_bytes {A : Type} m (k : outcome A) : outcome A :=
  if MAUSize_ m =? 8 then k else Throws AssertionFailed.

Definition writeBE_bits (MAUS : nat) (address bits : Z) m : outcome (Memory S) :=
  asserts_bytes m (_ <~ checkRange address MAUS m ; Done (push_request address (union_bytes_BE MAUS bits) m)).
Definition writeLE_bits (MAUS : nat) (address bits : Z) m : outcome (Memory S) :=
  asserts_bytes m (_ <~ checkRange address MAUS m ; Done (push_request address (union_bytes_LE MAUS bits) m)).

Definition writeBE_FloatWord := writeBE_bits 4.
Definition writeLE_FloatWord := writeLE_bits 4.
Definition writeBE_DoubleWord := writeBE_bits 8.
Definition writeLE_DoubleWord := writeLE_bits 8.
Definition write_DoubleWord (address bits : Z) m : outcome (Memory S) :=
  if littleEndian_ m then writeLE_DoubleWord address bits m else writeBE_DoubleWord address bits m.

(** Each byte of the union is stored to from one single-unit read. *)
Fixpoint read_bytes (rd : Z -> outcome Z) (place : Z -> Z) (address i acc : Z) (n : nat) : outcome Z :=
  match n with
  | O => Done acc
  | Datatypes.S n =>
    d <~ rd (u64 (address + i)) ;
    read_bytes rd place address (i + 1) (acc ||| (uw 8 d << (8 * place i))) n
  end.

Definition readBE_FloatWord (address : Z) m : outcome Z :=
  asserts_bytes m (_ <~ checkRange address 4 m ;
    read_bytes (fun a => readBE a 1 m) (fun i => 4 - 1 - i) address 0 0 4).
Definition readLE_FloatWord (address : Z) m : outcome Z :=
  asserts_bytes m (_ <~ checkRange address 4 m ;
    read_bytes (fun a => readLE a 1 m) (fun i => i) address 0 0 4).
Definition read_FloatWord (address : Z) m : outcome Z :=
  if littleEndian_ m then readLE_FloatWord address m else readBE_FloatWord address m.

(** The double-precision reads leave the range check to the single-unit ones. *)
Definition readBE_DoubleWord (address : Z) m : outcome Z :=
  asserts_bytes m (read_bytes (fun a => readBE a 1 m) (fun i => 8 - 1 - i) address 0 0 8).
Definition readLE_DoubleWord (address : Z) m : outcome Z :=
  asserts_bytes m (read_bytes (fun a => readLE a 1 m) (fun i => i) address 0 0 8).
Definition read_DoubleWord (address : Z) m : outcome Z :=
  if littleEndian_ m then readLE_DoubleWord address m else readBE_DoubleWord address m.

Definition Memory_reset m : Memory S := with_requests [] m.

(** Requests are committed in the order they were made; [address_ + i] is a 32-bit sum. *)
Fixpoint commit (q : list WriteRequest) (s : S) : outcome S :=
  match q with
  | [] => Done s
  | req :: q => s <~ write_units (fun a => u32 (a + 1)) (address_ req) (data_ req) s ; commit q s
  end.

Definition Memory_advanceClock m : outcome (Memory S) :=
  outcome_map (fun s => with_requests [] (with_storage s m)) (commit (writeRequests_ m) (storage m)).
End Memory.

(** ** Virtual calls

    The virtual methods that at least one of the two derived classes overrides; the others are
    called as the base class has them. *)

Class Overrides (S : Type) `{Storage S} := {
  advanceClock : Memory S -> outcome (Memory S);
  reset : Memory S -> Memory S;
  fillWithZeros : Memory S -> Memory S;
  writeBE : Z -> nat -> Z -> Memory S -> outcome (Memory S);
}.

(** Not virtual itself, but the stores it calls are. *)
Definition write {S : Type} `{Overrides S} (address : Z) (count : nat) (data : Z) (m : Memory S)
  : outcome (Memory S) :=
  if littleEndian_ m then writeLE address count data m else writeBE address count data m.

(** ** IdealSRAM.cc *)

Record IdealSRAM := mk_sram { sram_start : Z; sram_data : PagedArray }.

(** The members are 32-bit, and so is the difference that sizes the table. *)
Definition IdealSRAM_storage (start end' : Z) : IdealSRAM :=
  mk_sram (u32 start) (PagedArray_new (u32 (u32 end' - u32 start))).

Definition IdealSRAM_write (address data : Z) (s : IdealSRAM) : outcome IdealSRAM :=
  outcome_map (mk_sram (sram_start s)) (writeData (u32 (u64 (address - sram_start s))) data (sram_data s)).
Definition IdealSRAM_read (address : Z) (s : IdealSRAM) : outcome Z :=
  readData (u32 (u64 (address - sram_start s))) (sram_data s).

#[export] Instance IdealSRAM_is_storage : Storage IdealSRAM := {|
  write_mau := IdealSRAM_write;
  read_mau := IdealSRAM_read;
|}.

Definition IdealSRAM_fillWithZeros (m : Memory IdealSRAM) : Memory IdealSRAM :=
  with_storage (mk_sram (sram_start (storage m)) (clear (sram_data (storage m)))) m.

(** The clock, the reset and the stores are those of the base class. *)
#[export] Instance IdealSRAM_overrides : Overrides IdealSRAM := {|
  advanceClock := Memory_advanceClock;
  reset := Memory_reset;
  fillWithZeros := IdealSRAM_fillWithZeros;
  writeBE := Memory_writeBE;
|}.

Definition IdealSRAM_new (start end' MAUSize : Z) (littleEndian : bool) : outcome (Memory IdealSRAM) :=
  Memory_new start end' MAUSize littleEndian (IdealSRAM_storage start end').

(** ** DirectAccessMemory.cc *)

Record DirectAccess := mk_direct {
  direct_start : Z; direct_MAUSize : Z; MAUSize2_ : Z; MAUSize3_ : Z; direct_mask : Z; direct_data : PagedArray }.

Definition with_pages (p : PagedArray) (s : DirectAccess) : DirectAccess :=
  mk_direct (direct_start s) (direct_MAUSize s) (MAUSize2_ s) (MAUSize3_ s) (direct_mask s) p.

Definition DirectAccess_storage (start end' MAUSize : Z) : outcome DirectAccess :=
  mask <~ (if 32 <=? MAUSize then Done (2 ^ 32 - 1)
           else outcome_map (fun ones => u32 (Z.lnot ones)) (shl 32 (2 ^ 32 - 1) MAUSize)) ;
  Done (mk_direct (u32 start) MAUSize (u32 (MAUSize * 2)) (u32 (MAUSize * 3)) mask
          (PagedArray_new (u32 (u32 end' - u32 start)))).

(** [writeData(address - start_, (int)(data & mask_))], the index being converted to 32 bits. *)
Definition direct_put (index data : Z) (s : DirectAccess) : outcome DirectAccess :=
  outcome_map (fun p => with_pages p s) (writeData (u32 index) (u32 (s32 (data &&& direct_mask s))) (direct_data s)).
Definition direct_get (index : Z) (s : DirectAccess) : outcome Z := readData (u32 index) (direct_data s).

Definition fastWriteMAU (address data : Z) (s : DirectAccess) : outcome DirectAccess :=
  direct_put (u64 (address - direct_start s)) data s.

Definition fastWrite2MAUsBE (address data : Z) (s : DirectAccess) : outcome DirectAccess :=
  let index := u32 (address - direct_start s) in
  high <~ shr 64 data (direct_MAUSize s) ;
  s <~ direct_put index high s ;
  direct_put (index + 1) data s.

Definition fastWrite2MAUsLE (address data : Z) (s : DirectAccess) : outcome DirectAccess :=
  let index := u32 (address - direct_start s) in
  high <~ shr 64 data (direct_MAUSize s) ;
  s <~ direct_put (index + 1) high s ;
  direct_put index data s.

Definition fastWrite4MAUsBE (address data : Z) (s : DirectAccess) : outcome DirectAccess :=
  let index := u32 (address - direct_start s) in
  d3 <~ shr 64 data (MAUSize3_ s) ;
  s <~ direct_put index d3 s ;
  d2 <~ shr 64 data (MAUSize2_ s) ;
  s <~ direct_put (index + 1) d2 s ;
  d1 <~ shr 64 data (direct_MAUSize s) ;
  s <~ direct_put (index + 2) d1 s ;
  direct_put (index + 3) data s.

Definition fastWrite4MAUsLE (address data : Z) (s : DirectAccess) : outcome DirectAccess :=
  let index := u32 (address - direct_start s) in
  d3 <~ shr 64 data (MAUSize3_ s) ;
  s <~ direct_put (index + 3) d3 s ;
  d2 <~ shr 64 data (MAUSize2_ s) ;
  s <~ direct_put (index + 2) d2 s ;
  d1 <~ shr 64 data (direct_MAUSize s) ;
  s <~ direct_put (index + 1) d1 s ;
  direct_put index data s.

Definition fastReadMAU (address : Z) (s : DirectAccess) : outcome Z :=
  direct_get (u64 (address - direct_start s)) s.

Definition fastRead2MAUsBE (address : Z) (s : DirectAccess) : outcome Z :=
  let index := u32 (address - direct_start s) in
  d1 <~ direct_get index s ;
  x1 <~ shl 32 d1 (direct_MAUSize s) ;
  d0 <~ direct_get (index + 1) s ;
  Done (x1 ||| d0).

Definition fastRead2MAUsLE (address : Z) (s : DirectAccess) : outcome Z :=
  let index := u32 (address - direct_start s) in
  d1 <~ direct_get (index + 1) s ;
  x1 <~ shl 32 d1 (direct_MAUSize s) ;
  d0 <~ direct_get index s ;
  Done (x1 ||| d0).

Definition fastRead4MAUsBE (address : Z) (s : DirectAccess) : outcome Z :=
  let index := u32 (address - direct_start s) in
  d3 <~ direct_get index s ;
  x3 <~ shl 32 d3 (MAUSize3_ s) ;
  d2 <~ direct_get (index + 1) s ;
  x2 <~ shl 32 d2 (MAUSize2_ s) ;
  d1 <~ direct_get (index + 2) s ;
  x1 <~ shl 32 d1 (direct_MAUSize s) ;
  d0 <~ direct_get (index + 3) s ;
  Done (x3 ||| x2 ||| x1 ||| d0).

Definition fastRead4MAUsLE (address : Z) (s : DirectAccess) : outcome Z :=
  let index := u32 (address - direct_start s) in
  d3 <~ direct_get (index + 3) s ;
  x3 <~ shl 32 d3 (MAUSize3_ s) ;
  d2 <~ direct_get (index + 2) s ;
  x2 <~ shl 32 d2 (MAUSize2_ s) ;
  d1 <~ direct_get (index + 1) s ;
  x1 <~ shl 32 d1 (direct_MAUSize s) ;
  d0 <~ direct_get index s ;
  Done (x3 ||| x2 ||| x1 ||| d0).

#[export] Instance DirectAccess_is_storage : Storage DirectAccess := {|
  write_mau := fastWriteMAU;
  read_mau := fastReadMAU;
|}.

Definition DirectAccessMemory_fillWithZeros (m : Memory DirectAccess) : Memory DirectAccess :=
  with_storage (with_pages (clear (direct_data (storage m))) (storage m)) m.

(** The clock and the reset do nothing, not even to requests in the queue. *)
Definition DirectAccessMemory_advanceClock (m : Memory DirectAccess) : outcome (Memory DirectAccess) := Done m.
Definition DirectAccessMemory_reset (m : Memory DirectAccess) : Memory DirectAccess := m.

(** The big-endian store flushes the queue with the clock of the base class; [writeLE] and the
    floating-point stores are inherited and do not. *)
Definition DirectAccessMemory_writeBE (address : Z) (count : nat) (data : Z) (m : Memory DirectAccess)
  : outcome (Memory DirectAccess) :=
  m <~ Memory_writeBE address count data m ;
  Memory_advanceClock m.

#[export] Instance DirectAccess_overrides : Overrides DirectAccess := {|
  advanceClock := DirectAccessMemory_advanceClock;
  reset := DirectAccessMemory_reset;
  fillWithZeros := DirectAccessMemory_fillWithZeros;
  writeBE := DirectAccessMemory_writeBE;
|}.

Definition DirectAccessMemory_new (start end' MAUSize : Z) (littleEndian : bool) : outcome (Memory DirectAccess) :=
  s <~ DirectAccess_storage start end' MAUSize ;
  Memory_new start end' MAUSize littleEndian s.

Example sram_store_load :
  (m <~ IdealSRAM_new 0 99 8 false ;
   m <~ write 16 4 0x01020304 m ;
   before <~ read 16 4 m ;
   m <~ advanceClock m ;
   after <~ read 16 4 m ;
   byte <~ read 17 1 m ;
   Done (before, after, byte)) = Done (0, 0x01020304, 2).
Proof. vm_compute. reflexivity. Qed.

Example direct_store_load :
  (m <~ DirectAccessMemory_new 0 99 8 true ;
   s <~ fastWrite4MAUsLE 16 0x01020304 (storage m) ;
   half <~ fastRead2MAUsLE 18 s ;
   Done half) = Done 0x0102.
Proof. vm_compute. reflexivity. Qed.

(** A big-endian store is seen at once, a little-endian one not even after the clock. *)
Example direct_write_visible :
  map (fun little =>
    m <~ DirectAccessMemory_new 0 99 8 little ;
    m <~ write 16 4 0x01020304 m ;
    now <~ read 16 4 m ;
    m <~ advanceClock m ;
    later <~ read 16 4 m ;
    Done (now, later)) [false; true] = [Done (0x01020304, 0x01020304); Done (0, 0)].
Proof. vm_compute. reflexivity. Qed.
