(* ===== verification/MemoryRefinement.v ===== *)
(** * The simulated memories refine a flat memory with a list of pending stores

    The abstract memory is a map from addresses to units and the list of the stores that have not
    taken effect; a [timing] says when they do, for each derived class.  The proofs use a derived
    class only through [StorageLaws], which both satisfy. *)

From S2P Require Import Prelude.
From S2P Require Import CInt.
From S2P Require Import Cpp.
From S2P Require Import SimMemory.
From stdpp Require Import base gmap list.
#[local] Open Scope Z_scope.
#[local] Open Scope c_scope.
#[local] Open Scope cpp_scope.

(** ** The interface *)

(** When stores take effect: whether the clock commits the queue and the reset clears it, and
    whether a big-endian store flushes it. *)
Record timing := mk_timing { commits_at_clock : bool; flushes_BE : bool }.

Definition clocked : timing := mk_timing true false.
Definition unclocked : timing := mk_timing false true.

Class StorageLaws (S : Type) `{Overrides S} := {
  backed : S -> Z -> Prop;
  storable : S -> Z -> Prop;
  contents : S -> Z -> Z;
  timed : timing;
  read_contents : forall s a, backed s a -> read_mau a s = Done (contents s a);
  write_contents : forall s a d, backed s a -> storable s d ->
    exists s', write_mau a d s = Done s' /\
      (forall b, backed s b -> contents s' b = if b =? a then d else contents s b) /\
      (forall b, backed s b -> backed s' b) /\ (forall e, storable s e -> storable s' e);
  advanceClock_law : forall m, advanceClock m = if commits_at_clock timed then Memory_advanceClock m else Done m;
  reset_law : forall m, reset m = if commits_at_clock timed then Memory_reset m else m;
  writeBE_law : forall a n x m, writeBE a n x m
    = (m <~ Memory_writeBE a n x m ; if flushes_BE timed then Memory_advanceClock m else Done m);
  fillWithZeros_law : forall m, exists s', fillWithZeros m = with_storage s' m /\
    (forall b, contents s' b = 0) /\ (forall b, backed (storage m) b -> backed s' b) /\
    (forall e, storable (storage m) e -> storable s' e);
}.
Arguments timed S {_ _ _}.

(** ** The abstract memory *)

(** Unit [i] of a value, [M] bits wide; the units of a value in storage order. *)
Definition unit_of (M x : Z) (i : nat) : Z := (x / 2 ^ (M * Z.of_nat i)) mod 2 ^ M.
Definition units (little : bool) (M x : Z) (n : nat) : list Z :=
  map (unit_of M x) (if little then seq 0 n else rev (seq 0 n)).

Fixpoint units_at (a : Z) (data : list Z) : list (Z * Z) :=
  match data with
  | [] => []
  | d :: data => (a, d) :: units_at (a + 1) data
  end.

Definition apply_write (c : Z -> Z) (w : Z * Z) : Z -> Z := fun b => if b =? fst w then snd w else c b.
Definition apply_writes (ws : list (Z * Z)) (c : Z -> Z) : Z -> Z := fold_left apply_write ws c.

Fixpoint load_LE (M : Z) (c : Z -> Z) (a : Z) (n : nat) : Z :=
  match n with
  | O => 0
  | Datatypes.S n => c a + 2 ^ M * load_LE M c (a + 1) n
  end.

Fixpoint load_BE (M : Z) (c : Z -> Z) (a : Z) (n : nat) : Z :=
  match n with
  | O => 0
  | Datatypes.S n => c a * 2 ^ (M * Z.of_nat n) + load_BE M c (a + 1) n
  end.

Definition load (little : bool) := if little then load_LE else load_BE.

Record flat := mk_flat { cells : Z -> Z; pending : list (Z * Z) }.

(** The pending stores take effect. *)
Definition settle (f : flat) : flat := mk_flat (apply_writes (pending f) (cells f)) [].

Definition flat_store (t : timing) (little : bool) (M a : Z) (n : nat) (x : Z) (f : flat) : flat :=
  let f := mk_flat (cells f) (pending f ++ units_at a (units little M x n)) in
  if flushes_BE t && negb little then settle f else f.
Definition flat_tick (t : timing) (f : flat) : flat := if commits_at_clock t then settle f else f.
Definition flat_reset (t : timing) (f : flat) : flat := if commits_at_clock t then mk_flat (cells f) [] else f.
Definition flat_clear (f : flat) : flat := mk_flat (fun _ => 0) (pending f).

(** ** Sequences of accesses *)

Inductive access :=
| Load (a : Z) (n : nat)
| Store (a : Z) (n : nat) (x : Z)
| Tick
| Reset_
| Clear.

Fixpoint run_flat (t : timing) (little : bool) (M : Z) (l : list access) (f : flat) : list Z * flat :=
  match l with
  | [] => ([], f)
  | Load a n :: l =>
    let '(outs, f') := run_flat t little M l f in (load little M (cells f) a n :: outs, f')
  | Store a n x :: l => run_flat t little M l (flat_store t little M a n x f)
  | Tick :: l => run_flat t little M l (flat_tick t f)
  | Reset_ :: l => run_flat t little M l (flat_reset t f)
  | Clear :: l => run_flat t little M l (flat_clear f)
  end.

Section Run.
Context {S : Type} `{Overrides S}.

Fixpoint run (l : list access) (m : Memory S) : outcome (list Z * Memory S) :=
  match l with
  | [] => Done ([], m)
  | Load a n :: l => x <~ read a n m ; '(outs, m) <~ run l m ; Done (x :: outs, m)
  | Store a n x :: l => m <~ write a n x m ; run l m
  | Tick :: l => m <~ advanceClock m ; run l m
  | Reset_ :: l => run l (reset m)
  | Clear :: l => run l (fillWithZeros m)
  end.
End Run.

(** The accesses the memory can make: within the addresses, and within the widths the C++ code
    shifts in, 64 bits except for big-endian loads, which have 32. *)
Definition access_ok (little : bool) (M low high : Z) (x : access) : Prop :=
  match x with
  | Load a n => (0 < n <= MAX_ACCESS_SIZE)%nat /\ low <= a /\ a + Z.of_nat n - 1 <= high /\
      M * Z.of_nat n <= (if little then 64 else 32)
  | Store a n x => (0 < n <= MAX_ACCESS_SIZE)%nat /\ low <= a /\ a + Z.of_nat n - 1 <= high /\
      M * Z.of_nat n <= 64 /\ is_u 64 x
  | Tick | Reset_ | Clear => True
  end.

(** ** Units and words *)

Section Units.
Variable M : Z.
Hypothesis HM : 1 <= M <= 32.

Lemma unit_range x i : is_u M (unit_of M x i).
Proof. apply Z.mod_pos_bound, pow2_pos. lia. Qed.

Lemma units_range little x n : Forall (is_u M) (units little M x n).
Proof. unfold units. apply Forall_map, Forall_forall. intros i _. apply unit_range. Qed.

Lemma units_length little x n : length (units little M x n) = n.
Proof. unfold units. rewrite length_map. destruct little; now rewrite ?length_rev, length_seq. Qed.

Lemma load_LE_range c a n : (forall b, is_u M (c b)) -> is_u (M * Z.of_nat n) (load_LE M c a n).
Proof.
  intros Hc. revert a. induction n as [|n IH]; intros a; cbn [load_LE].
  - rewrite Z.mul_0_r. unfold is_u. lia.
  - specialize (IH (a + 1)). pose proof (Hc a). unfold is_u in *.
    replace (M * Z.of_nat (Datatypes.S n)) with (M + M * Z.of_nat n) by lia.
    rewrite Z.pow_add_r by lia. pose proof (pow2_pos M ltac:(lia)). nia.
Qed.

Lemma load_BE_range c a n : (forall b, is_u M (c b)) -> is_u (M * Z.of_nat n) (load_BE M c a n).
Proof.
  intros Hc. revert a. induction n as [|n IH]; intros a; cbn [load_BE].
  - rewrite Z.mul_0_r. unfold is_u. lia.
  - specialize (IH (a + 1)). pose proof (Hc a). unfold is_u in *.
    replace (M * Z.of_nat (Datatypes.S n)) with (M + M * Z.of_nat n) by lia.
    rewrite Z.pow_add_r by lia. pose proof (pow2_pos (M * Z.of_nat n) ltac:(lia)). nia.
Qed.

Lemma load_ext little c c' a n : (forall b, a <= b < a + Z.of_nat n -> c b = c' b) ->
  load little M c a n = load little M c' a n.
Proof.
  destruct little; cbn [load]; revert a; (induction n as [|n IH]; intros a Hc; [reflexivity|]);
    cbn [load_LE load_BE]; rewrite (Hc a), IH by (intros; try apply Hc; lia); reflexivity.
Qed.

(** ** Packing and unpacking, as the code does them *)

Context {S : Type} `{Storage S}.
Variable m : Memory S.
Hypothesis Hmau : MAUSize_ m = M.
Hypothesis Hmask : u64 (mask_ m) = if M =? 32 then 2 ^ 64 - 1 else 2 ^ M - 1.

Lemma masked d : is_u 64 d -> u32 (d &&& u64 (mask_ m)) = d mod 2 ^ M.
Proof.
  intros Hd. rewrite Hmask. destruct (Z.eqb_spec M 32) as [->|].
  - rewrite land_ones_mod, (Z.mod_small d) by (unfold is_u in Hd; lia). reflexivity.
  - rewrite land_ones_mod by lia. apply uw_small. unfold is_u.
    pose proof (Z.mod_pos_bound d (2 ^ M) (pow2_pos M ltac:(lia))). pose proof (pow2_lt M 32). lia.
Qed.

Lemma unit_masked x i : is_u 64 x -> u32 (x / 2 ^ (M * Z.of_nat i) &&& u64 (mask_ m)) = unit_of M x i.
Proof.
  intros Hx. apply masked. rewrite <- Z.shiftr_div_pow2 by lia. apply shr_word; [assumption | lia].
Qed.

Lemma unpackLE_eq x n : is_u 64 x -> M * Z.of_nat n <= 64 ->
  unpackLE x n m = Done (units true M x n).
Proof.
  intros Hx Hn. unfold unpackLE, units.
  assert (G : forall k i, M * Z.of_nat (i + k) <= 64 ->
    unpackLE_loop x (M * Z.of_nat i) k m = Done (map (unit_of M x) (seq i k))).
  { induction k as [|k IH]; intros i Hk; [reflexivity|]. cbn [unpackLE_loop seq map].
    rewrite shr_done by nia. cbn [obind]. rewrite Hmau.
    replace (s32 (M * Z.of_nat i + M)) with (M * Z.of_nat (Datatypes.S i))
      by (symmetry; unfold s32; rewrite sw_small; unfold is_s; nia).
    rewrite IH by (replace (Datatypes.S i + k)%nat with (i + Datatypes.S k)%nat by lia; assumption).
    cbn [obind]. now rewrite unit_masked. }
  replace 0 with (M * Z.of_nat 0) by lia. now apply G.
Qed.

Lemma unpackBE_eq x n : is_u 64 x -> M * Z.of_nat n <= 64 ->
  unpackBE x n m = Done (units false M x n).
Proof.
  intros Hx Hn. unfold unpackBE, units. rewrite Hmau.
  assert (G : forall k, M * Z.of_nat k <= 64 -> forall s, s = M * (Z.of_nat k - 1) ->
    unpackBE_loop x s k m = Done (map (unit_of M x) (rev (seq 0 k)))).
  { induction k as [|k IH]; intros Hk s ->; [reflexivity|].
    rewrite seq_S, rev_app_distr. cbn [unpackBE_loop rev app map Nat.add].
    replace (M * (Z.of_nat (Datatypes.S k) - 1)) with (M * Z.of_nat k) by lia.
    rewrite shr_done by nia. cbn [obind]. rewrite Hmau.
    rewrite IH; [|lia|unfold s32; rewrite sw_small; [lia | lia | unfold is_s; nia]].
    cbn [obind]. now rewrite unit_masked. }
  apply G; [assumption|]. unfold s32. rewrite sw_small; [reflexivity | lia | unfold is_s; nia].
Qed.
End Units.

(** ** The invariant of a memory and its representation *)

Section Refinement.
Context {S : Type} `{StorageLaws S}.
Implicit Types (m : Memory S) (s : S).

Definition request_ok (M low high : Z) (r : WriteRequest) : Prop :=
  low <= address_ r /\ address_ r + Z.of_nat (length (data_ r)) - 1 <= high /\ Forall (is_u M) (data_ r).

(** Every address is backed by the storage, and the cells hold units. *)
Definition storage_ok (M low high : Z) s : Prop :=
  (forall a, low <= a <= high -> backed s a /\ is_u M (contents s a)) /\
  (forall d, is_u M d -> storable s d).

Record memory_ok m : Prop := {
  mau_width : 1 <= MAUSize_ m <= 32;
  mask_of_mau : u64 (mask_ m) = if MAUSize_ m =? 32 then 2 ^ 64 - 1 else 2 ^ MAUSize_ m - 1;
  address_range : 0 <= start_ m <= end_ m /\ end_ m < 2 ^ 32;
  storage_backed : storage_ok (MAUSize_ m) (start_ m) (end_ m) (storage m);
  requests_ok : Forall (request_ok (MAUSize_ m) (start_ m) (end_ m)) (writeRequests_ m);
}.

Definition pending_of (q : list WriteRequest) : list (Z * Z) :=
  flat_map (fun r => units_at (address_ r) (data_ r)) q.

Definition represents m (f : flat) : Prop :=
  (forall a, start_ m <= a <= end_ m -> contents (storage m) a = cells f a) /\
  pending_of (writeRequests_ m) = pending f.

Lemma pending_snoc q r : pending_of (q ++ [r]) = pending_of q ++ units_at (address_ r) (data_ r).
Proof. unfold pending_of. rewrite flat_map_app. cbn [flat_map]. now rewrite app_nil_r. Qed.

(** ** Single accesses *)

Lemma checkRange_in m a n : memory_ok m -> (0 < n)%nat -> start_ m <= a ->
  a + Z.of_nat n - 1 <= end_ m -> checkRange a n m = Done tt.
Proof.
  intros [_ _ Hr _ _] Hn Ha He. unfold checkRange.
  rewrite (u32_small (start_ m)), (u32_small (end_ m)), u32_small by lia. now zdec; lia.
Qed.

Lemma checkRange_out m a n : memory_ok m -> 0 < Z.of_nat n <= end_ m - start_ m + 1 ->
  ~ (start_ m <= a /\ a + Z.of_nat n - 1 <= end_ m) -> checkRange a n m = Throws OutOfRange.
Proof.
  intros [_ _ Hr _ _] Hn Ha. unfold checkRange.
  rewrite (u32_small (start_ m)), (u32_small (end_ m)), u32_small by lia. now zdec; lia.
Qed.

Lemma write_units_spec (M low high : Z) (next : Z -> Z) data : forall s a c,
  storage_ok M low high s -> (forall b, low <= b <= high -> contents s b = c b) ->
  (forall b, low <= b < high -> next b = b + 1) ->
  low <= a -> a + Z.of_nat (length data) - 1 <= high -> Forall (is_u M) data ->
  exists s', write_units next a data s = Done s' /\ storage_ok M low high s' /\
    forall b, low <= b <= high -> contents s' b = apply_writes (units_at a data) c b.
Proof.
  induction data as [|d data IH]; intros s a c Hs Hc Hnext Ha He Hd; cbn [write_units units_at].
  { exists s. split; [reflexivity|]. split; [assumption|]. exact Hc. }
  rewrite length_cons in He. inversion Hd as [|? ? Hd1 Hd2]; subst. destruct Hs as [Hb Hst].
  destruct (write_contents s a d (proj1 (Hb a ltac:(lia))) (Hst d Hd1)) as (s1 & -> & Hw & Hk & Hk2).
  cbn [obind]. set (c1 := apply_write c (a, d)).
  assert (Hc1 : forall b, low <= b <= high -> contents s1 b = c1 b).
  { intros b Hbr. rewrite Hw by now apply Hb. unfold c1, apply_write. cbn [fst snd].
    destruct (b =? a); [reflexivity | now apply Hc]. }
  assert (Hs1 : storage_ok M low high s1).
  { split; [|auto]. intros b Hbr. split; [apply Hk; now apply Hb|]. rewrite Hw by now apply Hb.
    destruct (b =? a); [assumption | now apply Hb]. }
  destruct data as [|d' data].
  { exists s1. split; [reflexivity|]. split; assumption. }
  cbn [length] in He. rewrite Hnext by lia.
  destruct (IH s1 (a + 1) c1 Hs1 Hc1 Hnext) as (s2 & E & Hs2 & Hc2); [lia | cbn [length]; lia | assumption |].
  exists s2. split; [exact E|]. split; [exact Hs2|]. intros b Hbr. now rewrite Hc2.
Qed.

Lemma commit_spec (M low high : Z) q : 0 <= low -> high < 2 ^ 32 -> forall s c,
  storage_ok M low high s -> (forall b, low <= b <= high -> contents s b = c b) ->
  Forall (request_ok M low high) q ->
  exists s', commit q s = Done s' /\ storage_ok M low high s' /\
    forall b, low <= b <= high -> contents s' b = apply_writes (pending_of q) c b.
Proof.
  intros Hl Hh. induction q as [|r q IH]; intros s c Hs Hc Hq; cbn [commit].
  { exists s. auto. }
  inversion Hq as [|? ? (Q1 & Q2 & Q3) Hq']; subst.
  destruct (write_units_spec M low high (fun a => u32 (a + 1)) (data_ r) s (address_ r) c)
    as (s1 & -> & Hs1 & Hc1); try assumption.
  { intros b Hb. rewrite u32_small by lia. reflexivity. }
  cbn [obind]. destruct (IH s1 _ Hs1 Hc1 Hq') as (s2 & E & Hs2 & Hc2).
  exists s2. split; [exact E|]. split; [exact Hs2|]. intros b Hb. rewrite Hc2 by assumption.
  unfold pending_of, apply_writes. cbn [flat_map]. now rewrite fold_left_app.
Qed.

(** The accesses of one byte order, whatever the order of the memory. *)
Definition write_order (little : bool) (a : Z) (n : nat) (x : Z) m : outcome (Memory S) :=
  if little then writeLE a n x m else writeBE a n x m.
Definition read_order (little : bool) (a : Z) (n : nat) m : outcome Z :=
  if little then readLE a n m else readBE a n m.

(** The two memories have the same parameters. *)
Definition same_shape m m' : Prop :=
  littleEndian_ m' = littleEndian_ m /\ MAUSize_ m' = MAUSize_ m /\ start_ m' = start_ m /\ end_ m' = end_ m.

Lemma same_shape_trans m1 m2 m3 : same_shape m1 m2 -> same_shape m2 m3 -> same_shape m1 m3.
Proof. unfold same_shape. intuition congruence. Qed.

(** The clock of the base class commits the stores in order. *)
Lemma Memory_advanceClock_run m f : memory_ok m -> represents m f ->
  exists m', Memory_advanceClock m = Done m' /\ memory_ok m' /\ represents m' (settle f) /\ same_shape m m'.
Proof.
  intros Hm [Hc Hp]. pose proof Hm as [HM Hmask Hr Hs Hq]. unfold Memory_advanceClock.
  destruct (commit_spec (MAUSize_ m) (start_ m) (end_ m) (writeRequests_ m) ltac:(lia) ltac:(lia)
    (storage m) (cells f) Hs Hc Hq) as (s' & -> & Hs' & Hc').
  eexists. split; [reflexivity|]. split; [split; cbn; auto|]. split; [|now cbn].
  split; cbn; [|reflexivity]. intros a Ha. rewrite <- Hp. now apply Hc'.
Qed.

Lemma advanceClock_run m f : memory_ok m -> represents m f ->
  exists m', advanceClock m = Done m' /\ memory_ok m' /\ represents m' (flat_tick (timed S) f) /\ same_shape m m'.
Proof.
  intros Hm Hf. rewrite advanceClock_law. unfold flat_tick.
  destruct (commits_at_clock (timed S)); [now apply Memory_advanceClock_run | exists m; now cbn].
Qed.

Lemma reset_run m f : memory_ok m -> represents m f ->
  memory_ok (reset m) /\ represents (reset m) (flat_reset (timed S) f) /\ same_shape m (reset m).
Proof.
  intros Hm Hf. rewrite reset_law. unfold flat_reset. destruct (commits_at_clock (timed S)); [|now cbn].
  destruct Hm as [HM Hmask Hr Hs Hq], Hf as [Hc Hp]. split; [now split | now cbn].
Qed.

Lemma fillWithZeros_run m f : memory_ok m -> represents m f ->
  memory_ok (fillWithZeros m) /\ represents (fillWithZeros m) (flat_clear f) /\ same_shape m (fillWithZeros m).
Proof.
  intros [HM Hmask Hr [Hb Hst] Hq] [Hc Hp]. destruct (fillWithZeros_law m) as (s' & -> & Z0 & B' & S').
  split; [split; cbn; try assumption; split; [|auto]|now cbn].
  intros a Ha. rewrite Z0. split; [now apply B', Hb | apply zero_word; lia].
Qed.

(** The base class queues the units of the value. *)
Lemma queue_run little m f a n x : memory_ok m -> represents m f ->
  access_ok little (MAUSize_ m) (start_ m) (end_ m) (Store a n x) ->
  exists m', (if little then writeLE a n x m else Memory_writeBE a n x m) = Done m' /\ memory_ok m' /\
    represents m' (mk_flat (cells f) (pending f ++ units_at a (units little (MAUSize_ m) x n))) /\ same_shape m m'.
Proof.
  intros Hm [Hc Hp] ((Hn & Hx) & Ha & He & Hw & Hxr). pose proof Hm as [HM Hmask Hr Hs Hq].
  exists (push_request a (units little (MAUSize_ m) x n) m). split.
  - unfold writeLE, Memory_writeBE. rewrite checkRange_in by assumption. cbn [obind].
    rewrite (proj2 (Nat.leb_le _ _) Hx).
    destruct little.
    + rewrite (unpackLE_eq (MAUSize_ m)) by (assumption || reflexivity). reflexivity.
    + rewrite (unpackBE_eq (MAUSize_ m)) by (assumption || reflexivity). reflexivity.
  - split; [split; try assumption|]; cbn.
    + apply Forall_app. split; [assumption|]. constructor; [|constructor]. unfold request_ok. cbn.
      rewrite u32_small by lia. rewrite units_length. split; [lia|]. split; [lia|].
      now apply units_range.
    + split; [|now cbn]. split; [exact Hc|]. change (pending_of (writeRequests_ m ++
        [mk_request (u32 a) (units little (MAUSize_ m) x n)])
        = pending f ++ units_at a (units little (MAUSize_ m) x n)).
      now rewrite pending_snoc, u32_small, Hp by lia.
Qed.

Lemma write_order_run little m f a n x : memory_ok m -> represents m f ->
  access_ok little (MAUSize_ m) (start_ m) (end_ m) (Store a n x) ->
  exists m', write_order little a n x m = Done m' /\ memory_ok m' /\
    represents m' (flat_store (timed S) little (MAUSize_ m) a n x f) /\ same_shape m m'.
Proof.
  intros Hm Hf Hx. destruct (queue_run little m f a n x Hm Hf Hx) as (m1 & E & Hm1 & Hf1 & Es).
  unfold write_order, flat_store. destruct little; [rewrite andb_false_r; now exists m1|].
  rewrite writeBE_law, E, andb_true_r. cbn [obind].
  destruct (flushes_BE (timed S)); [|now exists m1].
  destruct (Memory_advanceClock_run m1 _ Hm1 Hf1) as (m2 & E2 & Hm2 & Hf2 & Es2).
  exists m2. split; [exact E2|]. split; [exact Hm2|]. split; [exact Hf2 | exact (same_shape_trans _ _ _ Es Es2)].
Qed.

Lemma write_run m f a n x : memory_ok m -> represents m f ->
  access_ok (littleEndian_ m) (MAUSize_ m) (start_ m) (end_ m) (Store a n x) ->
  exists m', write a n x m = Done m' /\ memory_ok m' /\
    represents m' (flat_store (timed S) (littleEndian_ m) (MAUSize_ m) a n x f) /\ same_shape m m'.
Proof. exact (write_order_run (littleEndian_ m) m f a n x). Qed.

Lemma readLE_loop_eq m a k : memory_ok m -> forall n i acc, 0 <= acc < 2 ^ (MAUSize_ m * Z.of_nat i) ->
  start_ m <= a -> a + Z.of_nat n - 1 <= end_ m -> MAUSize_ m * Z.of_nat (i + n) <= 64 ->
  k = MAUSize_ m * Z.of_nat i ->
  readLE_loop a k acc n m = Done (acc + 2 ^ k * load_LE (MAUSize_ m) (contents (storage m)) a n).
Proof.
  intros Hm n. revert a k. pose proof Hm as [HM Hmask Hr [Hb _] _].
  induction n as [|n IH]; intros a k i acc Hacc Ha He Hw ->; cbn [readLE_loop load_LE].
  { f_equal. lia. }
  destruct (Hb a ltac:(lia)) as [Hba Hd]. rewrite read_contents by assumption. cbn [obind].
  set (M := MAUSize_ m) in *. rewrite shl_done by nia. cbn [obind].
  set (d := contents (storage m) a) in *. unfold is_u in Hd.
  assert (P : 2 ^ (M * Z.of_nat i) * 2 ^ M = 2 ^ (M * Z.of_nat (Datatypes.S i))).
  { rewrite <- Z.pow_add_r by lia. f_equal. lia. }
  assert (Pb : 2 ^ (M * Z.of_nat (Datatypes.S i)) <= 2 ^ 64) by (apply pow2_le; nia).
  pose proof (pow2_pos (M * Z.of_nat i) ltac:(lia)).
  rewrite uw_small by (unfold is_u; nia).
  rewrite Z.lor_comm, (lor_add _ _ (M * Z.of_nat i)); [| lia | assumption | apply Z.mod_mul; lia].
  replace (s64 (M * Z.of_nat i + M)) with (M * Z.of_nat (Datatypes.S i))
    by (symmetry; unfold s64; rewrite sw_small; unfold is_s; nia).
  replace (u64 (a + 1)) with (a + 1) by (symmetry; apply uw_small; unfold is_u; lia).
  destruct n as [|n].
  { cbn [readLE_loop load_LE]. f_equal. nia. }
  rewrite (IH (a + 1) _ (Datatypes.S i)) by (try reflexivity; nia).
  f_equal. rewrite <- P. nia.
Qed.

Lemma readBE_loop_eq m : memory_ok m -> forall n a k acc, acc mod 2 ^ (MAUSize_ m * Z.of_nat n) = 0 ->
  start_ m <= a -> a + Z.of_nat n - 1 <= end_ m -> MAUSize_ m * Z.of_nat n <= 32 ->
  k = MAUSize_ m * (Z.of_nat n - 1) ->
  readBE_loop a k acc n m = Done (acc + load_BE (MAUSize_ m) (contents (storage m)) a n).
Proof.
  intros Hm. pose proof Hm as [HM Hmask Hr [Hb _] _]. set (M := MAUSize_ m) in *.
  induction n as [|n IH]; intros a k acc Hacc Ha He Hw ->; cbn [readBE_loop load_BE].
  { f_equal. lia. }
  destruct (Hb a ltac:(lia)) as [Hba Hd]. rewrite read_contents by assumption. cbn [obind].
  replace (M * (Z.of_nat (Datatypes.S n) - 1)) with (M * Z.of_nat n) by lia.
  rewrite shl_done by nia. cbn [obind].
  set (d := contents (storage m) a) in *. unfold is_u in Hd.
  assert (P : 2 ^ (M * Z.of_nat n) * 2 ^ M = 2 ^ (M * Z.of_nat (Datatypes.S n))).
  { rewrite <- Z.pow_add_r by lia. f_equal. lia. }
  assert (Pb : 2 ^ (M * Z.of_nat (Datatypes.S n)) <= 2 ^ 32) by (apply pow2_le; nia).
  pose proof (pow2_pos (M * Z.of_nat n) ltac:(lia)). pose proof (pow2_pos M ltac:(lia)).
  rewrite uw_small by (unfold is_u; nia).
  rewrite (lor_add _ _ (M * Z.of_nat (Datatypes.S n))); [| lia | nia | assumption].
  fold M. replace (s32 (M * Z.of_nat n - M)) with (M * (Z.of_nat n - 1))
    by (symmetry; unfold s32; rewrite sw_small; unfold is_s; nia).
  replace (u64 (a + 1)) with (a + 1) by (symmetry; apply uw_small; unfold is_u; lia).
  rewrite IH; [f_equal; lia | | lia | lia | nia | reflexivity].
  rewrite <- P in Hacc. apply Z.mod_divide in Hacc as [q Hq]; [|nia].
  rewrite Hq. replace (q * (2 ^ (M * Z.of_nat n) * 2 ^ M) + d * 2 ^ (M * Z.of_nat n))
    with ((q * 2 ^ M + d) * 2 ^ (M * Z.of_nat n)) by ring. apply Z.mod_mul. lia.
Qed.

(** Loading combines the committed units. *)
Lemma read_order_run little m f a n : memory_ok m -> represents m f ->
  access_ok little (MAUSize_ m) (start_ m) (end_ m) (Load a n) ->
  read_order little a n m = Done (load little (MAUSize_ m) (cells f) a n).
Proof.
  intros Hm [Hc _] (Hn & Ha & He & Hw). pose proof Hm as [HM _ Hr _ _].
  rewrite <- (load_ext (MAUSize_ m) little (contents (storage m))) by (intros; apply Hc; lia).
  unfold read_order, readLE, readBE. rewrite checkRange_in by (assumption || lia). cbn [obind].
  destruct little; cbn [load].
  - rewrite (readLE_loop_eq m a 0 Hm n 0 0) by (cbn; lia). f_equal. lia.
  - rewrite (readBE_loop_eq m Hm n); [reflexivity | now rewrite Z.mod_0_l by (apply Z.pow_nonzero; lia) | | | |];
      try lia. unfold s32. rewrite sw_small; [reflexivity | lia | unfold is_s; nia].
Qed.

Lemma read_run m f a n : memory_ok m -> represents m f ->
  access_ok (littleEndian_ m) (MAUSize_ m) (start_ m) (end_ m) (Load a n) ->
  read a n m = Done (load (littleEndian_ m) (MAUSize_ m) (cells f) a n).
Proof. exact (read_order_run (littleEndian_ m) m f a n). Qed.

(** The simulation: from related states, every sequence of accesses in range runs and gives the
    outputs of the flat memory. *)
Lemma memory_refines_flat l : forall m f, memory_ok m -> represents m f ->
  Forall (access_ok (littleEndian_ m) (MAUSize_ m) (start_ m) (end_ m)) l ->
  let r := run_flat (timed S) (littleEndian_ m) (MAUSize_ m) l f in
  exists m', run l m = Done (fst r, m') /\ memory_ok m' /\ represents m' (snd r).
Proof.
  cbv zeta. induction l as [|x l IH]; intros m f Hm Hf Hl; cbn [run run_flat].
  { exists m. auto. }
  inversion Hl as [|? ? Hx Hl']; subst.
  assert (next : forall m1 f1, memory_ok m1 /\ represents m1 f1 /\ same_shape m m1 ->
    let r := run_flat (timed S) (littleEndian_ m) (MAUSize_ m) l f1 in
    exists m', run l m1 = Done (fst r, m') /\ memory_ok m' /\ represents m' (snd r)).
  { intros m1 f1 (Hm1 & Hf1 & E1 & E2 & E3 & E4). cbv zeta. rewrite <- E1, <- E2 in *. rewrite <- E3, <- E4 in Hl'.
    now apply IH. }
  destruct x as [a n | a n x | | |].
  - rewrite (read_run m f) by assumption. cbn [obind].
    destruct (IH m f Hm Hf Hl') as (m' & -> & Hm' & Hf'). cbn [obind].
    destruct (run_flat (timed S) (littleEndian_ m) (MAUSize_ m) l f) as [outs f']. exists m'. auto.
  - destruct (write_run m f a n x Hm Hf Hx) as (m1 & -> & R). now apply next.
  - destruct (advanceClock_run m f Hm Hf) as (m1 & -> & R). now apply next.
  - apply next. now apply reset_run.
  - apply next. now apply fillWithZeros_run.
Qed.
End Refinement.

(** ** The page table *)

Definition pages_ok (p : PagedArray) : Prop :=
  map_Forall (fun _ page => length page = Z.to_nat MEM_CHUNK_SIZE) (pageTable p).

Definition page_contents (p : PagedArray) (i : Z) : Z :=
  match pageTable p !! (i / MEM_CHUNK_SIZE) with
  | None => 0
  | Some page => default 0 (page !! Z.to_nat (i mod MEM_CHUNK_SIZE))
  end.

Definition in_table (p : PagedArray) (i : Z) : Prop := 0 <= i /\ i / MEM_CHUNK_SIZE < pageTableSize p.

Lemma readData_eq p i : in_table p i -> readData i p = Done (page_contents p i).
Proof.
  intros [_ Hi]. unfold readData, page_contents. apply Z.ltb_lt in Hi. rewrite Hi.
  by destruct (pageTable p !! (i / MEM_CHUNK_SIZE)).
Qed.

Lemma page_contents_insert p i d j : pages_ok p -> 0 <= i -> 0 <= j ->
  page_contents (mk_pages (pageTableSize p) (<[i / MEM_CHUNK_SIZE := <[Z.to_nat (i mod MEM_CHUNK_SIZE) := d]>
    (default new_page (pageTable p !! (i / MEM_CHUNK_SIZE)))]> (pageTable p))) j
  = if j =? i then d else page_contents p j.
Proof.
  intros Hp Hi Hj. unfold page_contents. cbn [pageTable].
  pose proof (Z.mod_pos_bound i MEM_CHUNK_SIZE eq_refl) as Ri.
  pose proof (Z.mod_pos_bound j MEM_CHUNK_SIZE eq_refl) as Rj.
  assert (Hlen : length (default new_page (pageTable p !! (i / MEM_CHUNK_SIZE))) = Z.to_nat MEM_CHUNK_SIZE).
  { destruct (pageTable p !! (i / MEM_CHUNK_SIZE)) eqn:E; [exact (Hp _ _ E) | apply length_replicate]. }
  destruct (decide (j / MEM_CHUNK_SIZE = i / MEM_CHUNK_SIZE)) as [Eq|Ne].
  - rewrite Eq, lookup_insert_eq. destruct (Z.eqb_spec j i) as [->|Nij].
    + now rewrite list_lookup_insert_eq by (rewrite Hlen; lia).
    + rewrite list_lookup_insert_ne; [|intros E; apply Nij; unfold MEM_CHUNK_SIZE in *; dlia].
      destruct (pageTable p !! (i / MEM_CHUNK_SIZE)); [reflexivity|]. cbn [default].
      unfold new_page. rewrite lookup_replicate_2 by lia. reflexivity.
  - rewrite lookup_insert_ne by congruence. destruct (Z.eqb_spec j i) as [->|]; [congruence | reflexivity].
Qed.

Lemma writeData_eq p i d : pages_ok p -> in_table p i -> exists p', writeData i d p = Done p' /\ pages_ok p' /\
  pageTableSize p' = pageTableSize p /\
  forall j, 0 <= j -> page_contents p' j = if j =? i then d else page_contents p j.
Proof.
  intros Hp [Hi Ht]. unfold writeData. apply Z.ltb_lt in Ht. rewrite Ht. eexists. split; [reflexivity|].
  split; [|split; [reflexivity | intros; now apply page_contents_insert]].
  unfold pages_ok. cbn [pageTable]. apply map_Forall_insert_2; [|exact Hp]. rewrite length_insert.
  destruct (pageTable p !! (i / MEM_CHUNK_SIZE)) eqn:E; [exact (Hp _ _ E) | apply length_replicate].
Qed.

Lemma new_table size : 0 <= size -> pages_ok (PagedArray_new size) /\
  (forall i, page_contents (PagedArray_new size) i = 0) /\
  forall i, 0 <= i < size -> in_table (PagedArray_new size) i.
Proof.
  intros Hs. split; [apply map_Forall_empty|]. split.
  - intros i. unfold page_contents, PagedArray_new. cbn [pageTable]. now rewrite lookup_empty.
  - intros i Hi. split; [lia|]. unfold PagedArray_new, MEM_CHUNK_SIZE. cbn [pageTableSize]. dlia.
Qed.

(** ** IdealSRAM and DirectAccessMemory satisfy the laws *)

Lemma cleared_contents p i : page_contents (clear p) i = 0.
Proof. unfold page_contents, clear, deletePages. cbn [pageTable]. now rewrite lookup_empty. Qed.

Lemma cleared_ok p : pages_ok (clear p).
Proof. apply map_Forall_empty. Qed.

Definition sram_backed (s : IdealSRAM) (a : Z) : Prop :=
  is_u 32 (sram_start s) /\ sram_start s <= a < 2 ^ 32 /\ pages_ok (sram_data s) /\
  in_table (sram_data s) (a - sram_start s).

Lemma sram_index s a : sram_backed s a -> u32 (u64 (a - sram_start s)) = a - sram_start s.
Proof.
  intros ([H1 H2] & H3 & _). unfold u64. rewrite uw_small by (unfold is_u; lia). apply u32_small. lia.
Qed.

#[export] Program Instance sram_laws : StorageLaws IdealSRAM := {|
  backed := sram_backed;
  storable _ _ := True;
  contents s a := page_contents (sram_data s) (a - sram_start s);
  timed := clocked;
|}.
Next Obligation.
  intros s a Hs. cbn. unfold IdealSRAM_read. rewrite sram_index by assumption. apply readData_eq, Hs.
Qed.
Next Obligation.
  intros s a d Hs _. cbn. unfold IdealSRAM_write. rewrite sram_index by assumption.
  destruct Hs as (Hr & Ha & Hp & Ht).
  destruct (writeData_eq (sram_data s) (a - sram_start s) d Hp Ht) as (p' & -> & Hp' & Hs' & Hc).
  exists (mk_sram (sram_start s) p'). split; [reflexivity|]. split; [|split; [|auto]].
  - intros b (_ & Hb & _ & Hbt). cbn. rewrite Hc by lia.
    destruct (Z.eqb_spec (b - sram_start s) (a - sram_start s)), (Z.eqb_spec b a); lia || reflexivity.
  - intros b (_ & Hb & _ & Hbt). unfold sram_backed, in_table. cbn. rewrite Hs'. auto.
Qed.
Next Obligation. reflexivity. Qed.
Next Obligation. reflexivity. Qed.
Next Obligation. intros a n x m. cbn. now destruct (Memory_writeBE a n x m). Qed.
Next Obligation.
  intros m. eexists. split; [reflexivity|]. split; [|split; [|auto]].
  - intros b. apply cleared_contents.
  - intros b (Hr & Hb & _ & Hbt). unfold sram_backed. cbn. auto using cleared_ok.
Qed.

Definition direct_backed (s : DirectAccess) (a : Z) : Prop :=
  is_u 32 (direct_start s) /\ direct_start s <= a < 2 ^ 32 /\ pages_ok (direct_data s) /\
  in_table (direct_data s) (a - direct_start s).

Definition direct_storable (s : DirectAccess) (d : Z) : Prop := is_u 32 d /\ d &&& direct_mask s = d.

Lemma direct_put_eq s i d : pages_ok (direct_data s) -> in_table (direct_data s) i -> i < 2 ^ 32 ->
  is_u 32 (d &&& direct_mask s) ->
  exists p', direct_put i d s = Done (with_pages p' s) /\ pages_ok p' /\
    pageTableSize p' = pageTableSize (direct_data s) /\
    forall j, 0 <= j -> page_contents p' j = if j =? i then d &&& direct_mask s else page_contents (direct_data s) j.
Proof.
  intros Hp Ht Hi Hd. unfold direct_put. rewrite (u32_small i) by (destruct Ht; lia).
  replace (u32 (s32 (d &&& direct_mask s))) with (d &&& direct_mask s).
  - destruct (writeData_eq (direct_data s) i (d &&& direct_mask s) Hp Ht) as (p' & -> & Hp' & Hs' & Hc).
    exists p'. auto.
  - unfold u32, s32. rewrite uw_sw by lia. symmetry. now apply uw_small.
Qed.

Lemma direct_get_eq s i : in_table (direct_data s) i -> i < 2 ^ 32 ->
  direct_get i s = Done (page_contents (direct_data s) i).
Proof. intros Ht Hi. unfold direct_get. rewrite u32_small by (destruct Ht; lia). now apply readData_eq. Qed.

#[export] Program Instance direct_laws : StorageLaws DirectAccess := {|
  backed := direct_backed;
  storable := direct_storable;
  contents s a := page_contents (direct_data s) (a - direct_start s);
  timed := unclocked;
|}.
Next Obligation.
  intros s a ([H1 H2] & Ha & _ & Ht). cbn. unfold fastReadMAU.
  replace (u64 (a - direct_start s)) with (a - direct_start s) by (symmetry; apply uw_small; unfold is_u; lia).
  apply direct_get_eq; [assumption | lia].
Qed.
Next Obligation.
  intros s a d ([H1 H2] & Ha & Hp & Ht) [Hd Hm]. cbn. unfold fastWriteMAU.
  replace (u64 (a - direct_start s)) with (a - direct_start s) by (symmetry; apply uw_small; unfold is_u; lia).
  destruct (direct_put_eq s (a - direct_start s) d Hp Ht ltac:(lia)) as (p' & -> & Hp' & Hs' & Hc);
    [now rewrite Hm|].
  exists (with_pages p' s). split; [reflexivity|]. split; [|split; [|auto]].
  - intros b (_ & Hb & _ & _). cbn. rewrite Hc, Hm by lia.
    destruct (Z.eqb_spec (b - direct_start s) (a - direct_start s)), (Z.eqb_spec b a); lia || reflexivity.
  - intros b ([] & Hb & _ & Hbt). unfold direct_backed, in_table. cbn. rewrite Hs'. repeat split; lia || auto; apply Hbt.
Qed.
Next Obligation. reflexivity. Qed.
Next Obligation. reflexivity. Qed.
Next Obligation. reflexivity. Qed.
Next Obligation.
  intros m. eexists. split; [reflexivity|]. split; [|split; [|auto]].
  - intros b. apply cleared_contents.
  - intros b (Hr & Hb & _ & Hbt). unfold direct_backed. cbn. auto using cleared_ok.
Qed.

(** ** The constructed memories *)

Lemma table_covers size i : 0 <= size -> size mod MEM_CHUNK_SIZE <> 0 -> 0 <= i <= size ->
  in_table (PagedArray_new size) i.
Proof.
  intros Hs Hm Hi. split; [lia|]. unfold PagedArray_new, MEM_CHUNK_SIZE in *. cbn [pageTableSize]. dlia.
Qed.

(** The address space is 32-bit and its length less one is no multiple of the page size. *)
Definition space_ok (M low high : Z) : Prop :=
  1 <= M <= 32 /\ 0 <= low <= high /\ high < 2 ^ 32 /\ (high - low) mod MEM_CHUNK_SIZE <> 0.

Lemma Memory_new_ok {S : Type} `{StorageLaws S} (M low high : Z) (little : bool) (s : S) :
  space_ok M low high -> storage_ok M low high s ->
  exists m, Memory_new low high M little s = Done m /\ memory_ok m /\ storage m = s /\
    littleEndian_ m = little /\ MAUSize_ m = M /\ start_ m = low /\ end_ m = high /\ writeRequests_ m = [].
Proof.
  intros (HM & Hr & Hh & _) Hs. unfold Memory_new. destruct (Z.eqb_spec M 32) as [->|].
  - eexists. split; [reflexivity|]. split; [|repeat split]. split; cbn; auto.
  - destruct (Z.ltb_spec 32 M); [lia|]. rewrite shl_done by lia. cbn [obind].
    eexists. split; [reflexivity|]. split; [|repeat split]. split; cbn [MAUSize_ mask_ start_ end_ storage writeRequests_]; auto.
    destruct (Z.eqb_spec M 32); [lia|].
    assert (E : u32 (Z.lnot (uw 32 ((2 ^ 32 - 1) * 2 ^ M))) = 2 ^ M - 1).
    { apply not_high_ones. lia. }
    rewrite E. pose proof (pow2_pos M ltac:(lia)). pose proof (pow2_le M 31 ltac:(lia) ltac:(lia)).
    unfold s32. rewrite sw_small by (unfold is_s; lia). apply uw_small. unfold is_u. lia.
Qed.

Lemma sram_storage_ok M low high : space_ok M low high -> storage_ok M low high (IdealSRAM_storage low high).
Proof.
  intros (HM & Hr & Hh & Hc). unfold IdealSRAM_storage.
  rewrite (u32_small low), (u32_small high), u32_small by lia.
  destruct (new_table (high - low) ltac:(lia)) as (Hp & H0 & _).
  split; [|easy]. intros a Ha. cbn [backed contents sram_laws]. split.
  - repeat split; cbn; try lia; [exact Hp|]. apply (table_covers (high - low) (a - low)); lia || assumption.
  - cbn. rewrite H0. apply zero_word. lia.
Qed.

Lemma direct_storage_ok M low high : space_ok M low high ->
  exists s, DirectAccess_storage low high M = Done s /\ storage_ok M low high s /\
    (forall a, contents s a = 0).
Proof.
  intros (HM & Hr & Hh & Hc). unfold DirectAccess_storage.
  rewrite (u32_small low), (u32_small high), (u32_small (high - low)) by lia.
  set (mask := if 32 <=? M then _ else _).
  assert (E : mask = Done (2 ^ M - 1)).
  { unfold mask. destruct (Z.leb_spec 32 M); [now replace M with 32 by lia|].
    rewrite shl_done by lia. unfold outcome_map. cbn [obind]. f_equal. apply not_high_ones. lia. }
  rewrite E. cbn [obind]. destruct (new_table (high - low) ltac:(lia)) as (Hp & H0 & _).
  eexists. split; [reflexivity|]. split; [split|].
  - intros a Ha. cbn [backed contents direct_laws]. split.
    + repeat split; cbn; try lia; [exact Hp|]. apply (table_covers (high - low) (a - low)); lia || assumption.
    + cbn. rewrite H0. apply zero_word. lia.
  - intros d Hd. split; [|change (d &&& (2 ^ M - 1) = d); rewrite land_ones_mod by lia; now apply Z.mod_small].
    unfold is_u in *. pose proof (pow2_le M 32). lia.
  - intros a. cbn. apply H0.
Qed.

(** Decides [access_ok] of a concrete sequence. *)
Ltac accesses_in_range :=
  repeat (apply Forall_cons_iff; split); try apply Forall_nil;
  cbn [access_ok]; unfold is_u, MAX_ACCESS_SIZE; lia.

(** A memory as its constructor leaves it represents the zero memory. *)
Definition zeros : flat := mk_flat (fun _ => 0) [].

Lemma new_represents {S : Type} `{StorageLaws S} (m : Memory S) :
  (forall a, contents (storage m) a = 0) -> writeRequests_ m = [] -> represents m zeros.
Proof. intros Hc Hq. split; [intros; apply Hc | now rewrite Hq]. Qed.

Lemma sram_run little M low high l : space_ok M low high -> Forall (access_ok little M low high) l ->
  exists m m', IdealSRAM_new low high M little = Done m /\
    run l m = Done (fst (run_flat clocked little M l zeros), m').
Proof.
  intros Hsp Hl. destruct (Memory_new_ok M low high little _ Hsp (sram_storage_ok _ _ _ Hsp))
    as (m & E & Hm & Es & E1 & E2 & E3 & E4 & Eq).
  assert (R : represents m zeros) by (apply new_represents; [intros a; rewrite Es; exact (cleared_contents (PagedArray_new _) _) | assumption]).
  rewrite <- E1, <- E2, <- E3, <- E4 in Hl. destruct (memory_refines_flat l m zeros Hm R Hl) as (m' & Hrun & _).
  exists m, m'. split; [exact E|]. now rewrite Hrun, E1, E2.
Qed.

Lemma direct_run little M low high l : space_ok M low high -> Forall (access_ok little M low high) l ->
  exists m m', DirectAccessMemory_new low high M little = Done m /\
    run l m = Done (fst (run_flat unclocked little M l zeros), m').
Proof.
  intros Hsp Hl. destruct (direct_storage_ok M low high Hsp) as (s & Es & Hs & H0).
  destruct (Memory_new_ok M low high little s Hsp Hs) as (m & E & Hm & Em & E1 & E2 & E3 & E4 & Eq).
  assert (R : represents m zeros) by (apply new_represents; [intros a; now rewrite Em | assumption]).
  rewrite <- E1, <- E2, <- E3, <- E4 in Hl. destruct (memory_refines_flat l m zeros Hm R Hl) as (m' & Hrun & _).
  exists m, m'. split; [unfold DirectAccessMemory_new; now rewrite Es|]. now rewrite Hrun, E1, E2.
Qed.

(** Without a clock, big-endian memories have no pending stores, and little-endian ones never let
    one take effect. *)
Lemma unclocked_BE_settled M l : forall f, pending f = [] -> pending (snd (run_flat unclocked false M l f)) = [].
Proof.
  induction l as [|[a n|a n x| | |] l IH]; intros f Hf; cbn [run_flat]; auto.
  specialize (IH f Hf). now destruct (run_flat unclocked false M l f).
Qed.





(** ** What is stored is what is loaded *)

Lemma apply_units_at data : forall a c b,
  apply_writes (units_at a data) c b
  = if (a <=? b) && (b <? a + Z.of_nat (length data)) then nth (Z.to_nat (b - a)) data 0 else c b.
Proof.
  induction data as [|d data IH]; intros a c b; cbn [units_at length].
  - destruct (Z.leb_spec a b), (Z.ltb_spec b (a + Z.of_nat 0)); cbn [andb]; lia || reflexivity.
  - unfold apply_writes in *. cbn [fold_left]. rewrite IH. unfold apply_write. cbn [fst snd].
    rewrite Nat2Z.inj_succ. unfold Z.succ.
    destruct (Z.leb_spec (a + 1) b), (Z.leb_spec a b), (Z.ltb_spec b (a + 1 + Z.of_nat (length data))),
      (Z.ltb_spec b (a + (Z.of_nat (length data) + 1))), (Z.eqb_spec b a); cbn [andb]; try lia; try reflexivity.
    + replace (Z.to_nat (b - a)) with (Datatypes.S (Z.to_nat (b - (a + 1)))) by lia. reflexivity.
    + subst. now rewrite Z.sub_diag.
Qed.

Lemma unit_low M x k i : 0 < M ->
  unit_of M x i + 2 ^ M * ((x / 2 ^ (M * Z.of_nat (Datatypes.S i))) mod 2 ^ (M * Z.of_nat k))
  = (x / 2 ^ (M * Z.of_nat i)) mod 2 ^ (M * Z.of_nat (Datatypes.S k)).
Proof.
  intros HM. unfold unit_of. replace (M * Z.of_nat (Datatypes.S k)) with (M + M * Z.of_nat k) by lia.
  replace (M * Z.of_nat (Datatypes.S i)) with (M * Z.of_nat i + M) by lia.
  pose proof (pow2_pos M ltac:(lia)). pose proof (pow2_pos (M * Z.of_nat i) ltac:(lia)).
  pose proof (pow2_pos (M * Z.of_nat k) ltac:(lia)).
  rewrite !Z.pow_add_r, <- Z.div_div by lia. now rewrite Z.rem_mul_r by lia.
Qed.

Lemma load_LE_units M x c : 0 < M -> forall n i a,
  (forall j, (j < n)%nat -> c (a + Z.of_nat j) = unit_of M x (i + j)) ->
  load_LE M c a n = (x / 2 ^ (M * Z.of_nat i)) mod 2 ^ (M * Z.of_nat n).
Proof.
  intros HM. induction n as [|n IH]; intros i a Hc; cbn [load_LE].
  - rewrite Z.mul_0_r, Z.pow_0_r, Z.mod_1_r. reflexivity.
  - rewrite (IH (Datatypes.S i)).
    + rewrite <- unit_low by lia. specialize (Hc 0%nat ltac:(lia)).
      rewrite Z.add_0_r, Nat.add_0_r in Hc. now rewrite Hc.
    + intros j Hj. replace (a + 1 + Z.of_nat j) with (a + Z.of_nat (Datatypes.S j)) by lia.
      rewrite Hc by lia. f_equal. lia.
Qed.

Lemma load_BE_units M x c : 0 < M -> forall n a,
  (forall j, (j < n)%nat -> c (a + Z.of_nat j) = unit_of M x (n - 1 - j)) ->
  load_BE M c a n = x mod 2 ^ (M * Z.of_nat n).
Proof.
  intros HM. induction n as [|n IH]; intros a Hc; cbn [load_BE].
  - rewrite Z.mul_0_r, Z.pow_0_r, Z.mod_1_r. reflexivity.
  - rewrite IH.
    + specialize (Hc 0%nat ltac:(lia)). rewrite Z.add_0_r, Nat.sub_0_r in Hc. rewrite Hc.
      replace (Datatypes.S n - 1)%nat with n by lia. unfold unit_of.
      replace (M * Z.of_nat (Datatypes.S n)) with (M * Z.of_nat n + M) by lia.
      rewrite Z.pow_add_r, Z.rem_mul_r by (try apply Z.pow_nonzero; try apply pow2_pos; lia). lia.
    + intros j Hj. replace (a + 1 + Z.of_nat j) with (a + Z.of_nat (Datatypes.S j)) by lia.
      rewrite Hc by lia. f_equal. lia.
Qed.

Lemma load_stored little M x c a n : 1 <= M <= 32 ->
  load little M (apply_writes (units_at a (units little M x n)) c) a n = x mod 2 ^ (M * Z.of_nat n).
Proof.
  intros HM.
  assert (Hc : forall j, (j < n)%nat -> apply_writes (units_at a (units little M x n)) c (a + Z.of_nat j)
    = unit_of M x (if little then j else (n - 1 - j)%nat)).
  { intros j Hj. rewrite apply_units_at, units_length.
    replace ((a <=? a + Z.of_nat j) && (a + Z.of_nat j <? a + Z.of_nat n)) with true
      by (symmetry; apply andb_true_iff; split; [apply Z.leb_le | apply Z.ltb_lt]; lia).
    replace (Z.to_nat (a + Z.of_nat j - a)) with j by lia. unfold units.
    rewrite (nth_indep _ 0 (unit_of M x 0%nat)) by (rewrite length_map; destruct little; rewrite ?length_rev, length_seq; lia).
    rewrite map_nth. destruct little.
    - now rewrite seq_nth by lia.
    - rewrite rev_nth by (rewrite length_seq; lia). rewrite length_seq, seq_nth by lia. f_equal. lia. }
  destruct little; cbn [load].
  - rewrite (load_LE_units M x _ ltac:(lia) n 0 a) by exact Hc. now rewrite Z.mul_0_r, Z.pow_0_r, Z.div_1_r.
  - rewrite (load_BE_units M x _ ltac:(lia) n a) by exact Hc. reflexivity.
Qed.

Lemma run_flat_app t little M l1 : forall l2 f,
  run_flat t little M (l1 ++ l2) f
  = (fst (run_flat t little M l1 f) ++ fst (run_flat t little M l2 (snd (run_flat t little M l1 f))),
     snd (run_flat t little M l2 (snd (run_flat t little M l1 f)))).
Proof.
  induction l1 as [|[a n|a n x| | |] l1 IH]; intros l2 f; cbn [app run_flat fst snd]; try apply IH.
  - apply surjective_pairing.
  - rewrite IH. now destruct (run_flat t little M l1 f).
Qed.

(** After any history and a clock tick, a load made right after a store to the same units returns,
    in an [IdealSRAM], the value of before the cycle, and after the next tick the value stored,
    reduced to the width of the access; in a big-endian [DirectAccessMemory] it returns the value
    stored already in the same cycle. *)
Corollary store_then_load little M low high l a n x : space_ok M low high ->
  Forall (access_ok little M low high) (l ++ [Tick; Load a n; Store a n x; Load a n; Tick; Load a n]) ->
  let after := l ++ [Tick; Load a n; Store a n x; Load a n; Tick; Load a n] in
  let new := x mod 2 ^ (M * Z.of_nat n) in
  (exists outs old m m', IdealSRAM_new low high M little = Done m /\
     run after m = Done (outs ++ [old; old; new], m')) /\
  (little = false -> exists outs old m m', DirectAccessMemory_new low high M little = Done m /\
     run after m = Done (outs ++ [old; new; new], m')).
Proof.
  intros Hsp Hl. cbv zeta. split.
  - destruct (sram_run _ _ _ _ _ Hsp Hl) as (m & m' & Em & Hm).
    set (f := snd (run_flat clocked little M l zeros)).
    exists (fst (run_flat clocked little M l zeros)), (load little M (apply_writes (pending f) (cells f)) a n), m, m'.
    split; [exact Em|]. rewrite Hm, run_flat_app. fold f.
    cbn [run_flat flat_tick flat_store commits_at_clock flushes_BE clocked andb settle cells pending app fst].
    now rewrite load_stored by apply Hsp.
  - intros ->. destruct (direct_run _ _ _ _ _ Hsp Hl) as (d & d' & Ed & Hd).
    set (f := snd (run_flat unclocked false M l zeros)).
    exists (fst (run_flat unclocked false M l zeros)), (load false M (cells f) a n), d, d'.
    split; [exact Ed|]. rewrite Hd, run_flat_app. fold f.
    cbn [run_flat flat_tick flat_store commits_at_clock flushes_BE unclocked andb negb settle cells pending app fst].
    replace (pending f) with (@nil (Z * Z)) by (symmetry; now apply unclocked_BE_settled). cbn [app].
    now rewrite load_stored by apply Hsp.
Qed.

Lemma store_then_load_witness :
  let after := [] ++ [Tick; Load 8 4; Store 8 4 5; Load 8 4; Tick; Load 8 4] in
  (exists outs old m m', IdealSRAM_new 0 99 8 false = Done m /\ run after m = Done (outs ++ [old; old; 5], m')) /\
  exists outs old m m', DirectAccessMemory_new 0 99 8 false = Done m /\ run after m = Done (outs ++ [old; 5; 5], m').
Proof.
  cbv zeta. destruct (store_then_load false 8 0 99 [] 8 4 5) as [SRAM direct].
  - split; [lia | split; [lia | split; [lia | vm_compute; discriminate]]].
  - accesses_in_range.
  - split; [exact SRAM | exact (direct eq_refl)].
Defined.
