(* ===== verification/MemoryAccess.v ===== *)
(** * Range checks and fast paths of the simulated memories

    What [checkRange] accepts, where it and the page table let an access through that they should
    not, and the unchecked accesses of [DirectAccessMemory], by which the compiled simulator
    replaces the generic ones. *)

From S2P Require Import Prelude.
From S2P Require Import CInt.
From S2P Require Import Cpp.
From S2P Require Import SimMemory.
From S2P Require Import MemoryRefinement.
From stdpp Require Import base gmap list.
#[local] Open Scope Z_scope.
#[local] Open Scope c_scope.
#[local] Open Scope cpp_scope.

(** ** Range checks *)

Definition in_range {S : Type} (m : Memory S) (a : Z) (n : nat) : bool :=
  (start_ m <=? a) && (a + Z.of_nat n - 1 <=? end_ m).

(** The last address accepted when the access is longer than the addresses up to [end]. *)
Definition wrapped_limit {S : Type} (m : Memory S) (n : nat) : Z := 2 ^ 32 + end_ m - Z.of_nat n + 1.

Lemma checkRange_eq {S : Type} `{StorageLaws S} (m : Memory S) a n : memory_ok m ->
  0 < Z.of_nat n < 2 ^ 31 -> 0 <= a ->
  checkRange a n m
  = if Z.of_nat n <=? end_ m + 1
    then if in_range m a n then Done tt else Throws OutOfRange
    else if (start_ m <=? a) && (a <=? wrapped_limit m n) then Done tt else Throws OutOfRange.
Proof.
  intros [_ _ Hr _ _] Hn Ha. unfold checkRange, in_range, wrapped_limit.
  rewrite (u32_small (start_ m)), (u32_small (end_ m)) by lia.
  destruct (Z.leb_spec (Z.of_nat n) (end_ m + 1)).
  - rewrite u32_small by lia.
    destruct (Z.ltb_spec a (start_ m)), (Z.leb_spec (start_ m) a),
      (Z.ltb_spec (end_ m - Z.of_nat n + 1) a), (Z.leb_spec (a + Z.of_nat n - 1) (end_ m)); cbn; lia || reflexivity.
  - replace (u32 (end_ m - Z.of_nat n + 1)) with (2 ^ 32 + end_ m - Z.of_nat n + 1).
    + destruct (Z.ltb_spec a (start_ m)), (Z.leb_spec (start_ m) a),
        (Z.ltb_spec (2 ^ 32 + end_ m - Z.of_nat n + 1) a), (Z.leb_spec a (2 ^ 32 + end_ m - Z.of_nat n + 1));
        cbn; lia || reflexivity.
    + unfold u32, uw. symmetry. rewrite <- (Z.mod_add _ 1) by lia. rewrite Z.mod_small by lia. lia.
Qed.

Lemma sram_new_end M low high little : 1 <= M <= 32 -> 0 <= low <= high -> high < 2 ^ 32 ->
  (high - low) mod MEM_CHUNK_SIZE = 0 ->
  exists m, IdealSRAM_new low high M little = Done m /\ read high 1 m = Undefined.
Proof.
  intros HM Hr Hh Hc. unfold IdealSRAM_new, Memory_new.
  assert (K : forall k, exists m, Done (mk_memory little low high M k [] (IdealSRAM_storage low high)) = Done m /\
    read high 1 m = Undefined).
  { intros k. eexists. split; [reflexivity|]. unfold read, readLE, readBE, checkRange. cbn [start_ end_ littleEndian_].
    rewrite (u32_small low), (u32_small high), u32_small by lia.
    destruct (Z.ltb_spec high low); [lia|]. destruct (Z.ltb_spec (high - Z.of_nat 1 + 1) high); [lia|].
    cbn [orb obind readLE_loop readBE_loop storage].
    assert (E : read_mau high (IdealSRAM_storage low high) = Undefined).
    { cbn. unfold IdealSRAM_read, IdealSRAM_storage. cbn [sram_start sram_data].
      rewrite (u32_small low), (u32_small high), (u32_small (high - low)) by lia.
      unfold u64. rewrite uw_small, u32_small by (unfold is_u; lia).
      unfold readData, PagedArray_new. cbn [pageTableSize].
      destruct (Z.ltb_spec ((high - low) / MEM_CHUNK_SIZE) ((high - low + MEM_CHUNK_SIZE - 1) / MEM_CHUNK_SIZE));
        [unfold MEM_CHUNK_SIZE in *; dlia | reflexivity]. }
    rewrite E. now destruct little. }
  destruct (Z.eqb_spec M 32); [apply K|]. destruct (Z.ltb_spec 32 M); [lia|].
  rewrite shl_done by lia. cbn [obind]. apply K.
Qed.

(** C12: What the range check accepts.  An access no longer than the address space up to [end] is
    accepted exactly when all its units lie between [start] and [end], and otherwise loads and
    stores throw [OutOfRange].  A longer one makes the 32-bit bound wrap around, and then every
    address from [start] up to a limit near 2^32 passes.  And when the length of the range is one
    more than a multiple of the page size, the page table is one page short: reading the last
    address, in range, runs off it. *)
Theorem range_checks {S : Type} `{StorageLaws S} (m : Memory S) a (n : nat) x M low high little :
  memory_ok m -> 0 < Z.of_nat n < 2 ^ 31 -> 0 <= a ->
  1 <= M <= 32 -> 0 <= low <= high -> high < 2 ^ 32 -> (high - low) mod MEM_CHUNK_SIZE = 0 ->
  checkRange a n m
  = (if Z.of_nat n <=? end_ m + 1
     then if in_range m a n then Done tt else Throws OutOfRange
     else if (start_ m <=? a) && (a <=? wrapped_limit m n) then Done tt else Throws OutOfRange) /\
  (checkRange a n m = Throws OutOfRange -> read a n m = Throws OutOfRange /\ write a n x m = Throws OutOfRange) /\
  exists m', IdealSRAM_new low high M little = Done m' /\ read high 1 m' = Undefined.
Proof.
  intros Hm Hn Ha HM Hr Hh Hc. split; [now apply checkRange_eq|]. split; [|now apply sram_new_end].
  intros E. unfold read, readLE, readBE, write. rewrite writeBE_law. unfold writeLE, Memory_writeBE.
  rewrite E. now destruct (littleEndian_ m).
Qed.

(** Four bytes of a three-byte memory: any address passes. *)
Lemma range_checks_witness : exists m, IdealSRAM_new 0 2 8 false = Done m /\
  checkRange 1000000 4 m = Done tt /\
  exists m', IdealSRAM_new 0 1024 8 false = Done m' /\ read 1024 1 m' = Undefined.
Proof.
  destruct (Memory_new_ok 8 0 2 false (IdealSRAM_storage 0 2)) as (m & E & Hm & Es & E1 & E2 & E3 & E4 & Eq).
  { split; [lia | split; [lia | split; [lia | vm_compute; discriminate]]]. }
  { apply sram_storage_ok. split; [lia | split; [lia | split; [lia | vm_compute; discriminate]]]. }
  exists m. split; [exact E|].
  destruct (range_checks m 1000000 4 0 8 0 1024 false Hm ltac:(lia) ltac:(lia) ltac:(lia) ltac:(lia) ltac:(lia)
    eq_refl) as (R & _ & P).
  split; [|exact P]. rewrite R. unfold wrapped_limit. rewrite E3, E4. reflexivity.
Defined.

(** ** Fast paths *)

Definition fast_read (little : bool) (n : nat) : Z -> DirectAccess -> outcome Z :=
  match n, little with
  | 1%nat, _ => fastReadMAU
  | 2%nat, true => fastRead2MAUsLE
  | 2%nat, false => fastRead2MAUsBE
  | _, true => fastRead4MAUsLE
  | _, false => fastRead4MAUsBE
  end.

Definition fast_write (little : bool) (n : nat) : Z -> Z -> DirectAccess -> outcome DirectAccess :=
  match n, little with
  | 1%nat, _ => fastWriteMAU
  | 2%nat, true => fastWrite2MAUsLE
  | 2%nat, false => fastWrite2MAUsBE
  | _, true => fastWrite4MAUsLE
  | _, false => fastWrite4MAUsBE
  end.

(** A direct-access storage as the constructor sets it up. *)
Record direct_ok (M low high : Z) (s : DirectAccess) : Prop := {
  direct_storage : storage_ok M low high s;
  direct_first : direct_start s = low;
  direct_shifts : direct_MAUSize s = M /\ MAUSize2_ s = 2 * M /\ MAUSize3_ s = 3 * M;
  direct_masks : direct_mask s = 2 ^ M - 1;
}.

Section Fast.
Variables M low high : Z.
Hypothesis HM : 1 <= M <= 8.
Hypothesis Hspace : 0 <= low <= high /\ high < 2 ^ 32.

Lemma get_run s a : direct_ok M low high s -> low <= a <= high ->
  direct_get (a - low) s = Done (contents s a) /\ is_u M (contents s a).
Proof.
  intros [[Hb _] Hf _ _] Ha. destruct (Hb a Ha) as [(_ & _ & _ & Ht) Hu]. cbn in Ht, Hu |- *. rewrite Hf in *.
  split; [|exact Hu]. apply direct_get_eq; [assumption | lia].
Qed.

Lemma put_run s a d : direct_ok M low high s -> low <= a <= high -> 0 <= d ->
  exists s', direct_put (a - low) d s = Done s' /\ direct_ok M low high s' /\
    forall b, low <= b <= high -> contents s' b = apply_write (contents s) (a, d mod 2 ^ M) b.
Proof.
  intros Hs Ha Hd. pose proof Hs as [[Hb Hst] Hf Hsh Hmk].
  destruct (Hb a Ha) as [(Hr & Ha' & Hp & Ht) Hu]. cbn in Hr, Ha', Hp, Ht. rewrite Hf in *.
  pose proof (Z.mod_pos_bound d (2 ^ M) (pow2_pos M ltac:(lia))) as Hdm.
  pose proof (pow2_le M 32 ltac:(lia) ltac:(lia)).
  assert (E : d &&& direct_mask s = d mod 2 ^ M) by (rewrite Hmk; apply land_ones_mod; lia).
  destruct (direct_put_eq s (a - low) d Hp Ht ltac:(lia)) as (p' & -> & Hp' & Hsz & Hc);
    [rewrite E; unfold is_u; lia|]. rewrite E in Hc.
  exists (with_pages p' s). split; [reflexivity|].
  assert (C : forall b, low <= b <= high -> contents (with_pages p' s) b = apply_write (contents s) (a, d mod 2 ^ M) b).
  { intros b Hbr. unfold apply_write. cbn. rewrite Hf, Hc by lia.
    destruct (Z.eqb_spec (b - low) (a - low)), (Z.eqb_spec b a); lia || reflexivity. }
  split; [|exact C]. split; [split|exact Hf|exact Hsh|exact Hmk].
  - intros b Hbr. split.
    + destruct (Hb b Hbr) as [(H1 & H2 & H3 & H4 & H5) _]. refine (conj H1 (conj H2 (conj Hp' (conj H4 _)))).
      cbn. now rewrite Hsz.
    + rewrite C by assumption. unfold apply_write. cbn [fst snd]. destruct (b =? a); [exact Hdm | now apply Hb].
  - intros e He. exact (Hst e He).
Qed.

Lemma shift_unit x k : is_u 64 x -> 0 <= k < 4 -> shr 64 x (k * M) = Done (x / 2 ^ (k * M)) /\ 0 <= x / 2 ^ (k * M).
Proof.
  intros [H0 H1] Hk. split; [apply shr_done; nia|]. apply Z.div_pos; [lia | apply pow2_pos; lia].
Qed.

Lemma unit_of_eq x (k : nat) : (x / 2 ^ (Z.of_nat k * M)) mod 2 ^ M = unit_of M x k.
Proof. unfold unit_of. now rewrite Z.mul_comm. Qed.

(** The pieces of a two- or four-unit store. *)
Lemma put_unit s a x k : direct_ok M low high s -> low <= a <= high -> is_u 64 x -> (k < 4)%nat ->
  exists s', direct_put (a - low) (x / 2 ^ (Z.of_nat k * M)) s = Done s' /\ direct_ok M low high s' /\
    forall b, low <= b <= high -> contents s' b = apply_write (contents s) (a, unit_of M x k) b.
Proof.
  intros Hs Ha Hx Hk. destruct (shift_unit x (Z.of_nat k) Hx ltac:(lia)) as [_ H0].
  rewrite <- unit_of_eq. now apply put_run.
Qed.

Lemma fast_index s a : direct_ok M low high s -> low <= a <= high -> u32 (a - direct_start s) = a - low.
Proof. intros Hs Ha. rewrite (direct_first _ _ _ _ Hs). apply u32_small. lia. Qed.

Lemma fast_index64 s a : direct_ok M low high s -> low <= a <= high -> u64 (a - direct_start s) = a - low.
Proof. intros Hs Ha. rewrite (direct_first _ _ _ _ Hs). apply uw_small. unfold is_u. lia. Qed.

(** Fast stores put the units one after the other, in an order of their own. *)
Fixpoint puts (x : Z) (l : list (Z * nat)) (s : DirectAccess) : outcome DirectAccess :=
  match l with
  | [] => Done s
  | (a, k) :: l => s <~ direct_put (a - low) (x / 2 ^ (Z.of_nat k * M)) s ; puts x l s
  end.

Lemma puts_run x l : is_u 64 x -> forall s, direct_ok M low high s ->
  Forall (fun p => low <= fst p <= high /\ (snd p < 4)%nat) l ->
  exists s', puts x l s = Done s' /\ direct_ok M low high s' /\
    forall b, low <= b <= high ->
      contents s' b = apply_writes (map (fun p => (fst p, unit_of M x (snd p))) l) (contents s) b.
Proof.
  intros Hx. induction l as [|[a k] l IH]; intros s Hs Hl; cbn [puts].
  { exists s. auto. }
  inversion Hl as [|? ? [Ha Hk] Hl']; subst. cbn [fst snd] in Ha, Hk.
  destruct (put_unit s a x k Hs Ha Hx Hk) as (s1 & -> & Hs1 & Hc1). cbn [obind].
  destruct (IH s1 Hs1 Hl') as (s2 & -> & Hs2 & Hc2). exists s2. split; [reflexivity|]. split; [exact Hs2|].
  intros b Hb. rewrite Hc2 by assumption. cbn [map]. unfold apply_writes. cbn [fold_left fst snd].
  clear - Hc1 Hb HM. revert Hc1.
  generalize (contents s1) (apply_write (contents s) (a, unit_of M x k)). intros c1 c2 Hc1.
  assert (G : forall ws c1 c2, (forall b, low <= b <= high -> c1 b = c2 b) ->
    fold_left apply_write ws c1 b = fold_left apply_write ws c2 b); [|now apply G].
  clear c1 c2 Hc1. induction ws as [|w ws IHw]; intros c1 c2 Hc; [now apply Hc|]. cbn [fold_left]. apply IHw.
  intros b' Hb'. unfold apply_write. destruct (b' =? fst w); [reflexivity | now apply Hc].
Qed.

Definition fast_order (little : bool) (n : nat) (a : Z) : list (Z * nat) :=
  match n, little with
  | 1%nat, _ => [(a, 0%nat)]
  | 2%nat, true => [(a + 1, 1%nat); (a, 0%nat)]
  | 2%nat, false => [(a, 1%nat); (a + 1, 0%nat)]
  | _, true => [(a + 3, 3%nat); (a + 2, 2%nat); (a + 1, 1%nat); (a, 0%nat)]
  | _, false => [(a, 3%nat); (a + 1, 2%nat); (a + 2, 1%nat); (a + 3, 0%nat)]
  end.

Lemma direct_put_fields i d s s' : direct_put i d s = Done s' ->
  direct_MAUSize s' = direct_MAUSize s /\ MAUSize2_ s' = MAUSize2_ s /\ MAUSize3_ s' = MAUSize3_ s.
Proof.
  unfold direct_put, outcome_map. destruct (writeData _ _ _); cbn [obind]; try discriminate.
  intros E. injection E as <-. easy.
Qed.

Lemma obind_done {A : Type} (o : outcome A) : obind o Done = o.
Proof. now destruct o. Qed.

(** One put on both sides; the shift counts of the storage are unchanged. *)
Ltac same_put :=
  match goal with
  | |- obind (direct_put ?i ?d ?s) _ = obind (direct_put ?i ?d ?s) _ =>
    let E := fresh "E" in let s' := fresh "s" in
    destruct (direct_put i d s) as [s' | |] eqn:E; cbn [obind]; [|reflexivity..];
    apply direct_put_fields in E as (? & ? & ?)
  end.

Lemma fast_write_puts little n s a x : direct_ok M low high s -> In n [1; 2; 4]%nat -> low <= a ->
  a + Z.of_nat n - 1 <= high -> is_u 64 x ->
  fast_write little n a x s = puts x (fast_order little n a) s.
Proof.
  intros Hs Hn Ha He Hx.
  assert (E0 : x / 2 ^ (Z.of_nat 0 * M) = x) by now rewrite Z.mul_0_l, Z.pow_0_r, Z.div_1_r.
  pose proof (direct_shifts _ _ _ _ Hs) as (S1 & S2 & S3).
  assert (P : forall k, (k < 4)%nat -> shr 64 x (Z.of_nat k * M) = Done (x / 2 ^ (Z.of_nat k * M)))
    by (intros k Hk; apply (shift_unit x (Z.of_nat k) Hx); lia).
  replace M with (Z.of_nat 1 * M) in S1 by lia.
  change 2 with (Z.of_nat 2) in S2. change 3 with (Z.of_nat 3) in S3.
  destruct Hn as [<-|[<-|[<-|[]]]]; destruct little; cbn [fast_write fast_order puts]; rewrite E0;
    unfold fastWriteMAU, fastWrite2MAUsLE, fastWrite2MAUsBE, fastWrite4MAUsLE, fastWrite4MAUsBE; cbv zeta;
    rewrite ?fast_index, ?fast_index64 by (assumption || (cbn in He; lia));
    rewrite ?obind_done; try reflexivity;
    rewrite ?S1, ?S3, P by lia; cbn [obind]; rewrite <- ?Z.add_sub_swap;
    repeat (same_put; rewrite ?obind_done; try reflexivity;
      match goal with
      | |- context [shr 64 x (MAUSize2_ ?s')] => replace (MAUSize2_ s') with (Z.of_nat 2 * M) by congruence
      | |- context [shr 64 x (direct_MAUSize ?s')] =>
        replace (direct_MAUSize s') with (Z.of_nat 1 * M) by congruence
      end; rewrite P by lia; cbn [obind]).
Qed.

(** The orders of the fast stores give the units their places all the same. *)
Lemma fast_order_units little n a x c b : In n [1; 2; 4]%nat ->
  apply_writes (map (fun p => (fst p, unit_of M x (snd p))) (fast_order little n a)) c b
  = apply_writes (units_at a (units little M x n)) c b.
Proof.
  intros Hn. destruct Hn as [<-|[<-|[<-|[]]]]; destruct little; cbn; try reflexivity;
    unfold apply_writes; cbn [fold_left]; unfold apply_write; cbn [fst snd];
    repeat match goal with |- context [?p =? ?q] => destruct (Z.eqb_spec p q) end; lia || reflexivity.
Qed.

Lemma fast_write_run little n s a x : direct_ok M low high s -> In n [1; 2; 4]%nat -> low <= a ->
  a + Z.of_nat n - 1 <= high -> is_u 64 x ->
  exists s', fast_write little n a x s = Done s' /\ direct_ok M low high s' /\
    forall b, low <= b <= high ->
      contents s' b = apply_writes (units_at a (units little M x n)) (contents s) b.
Proof.
  intros Hs Hn Ha He Hx. rewrite fast_write_puts by assumption.
  destruct (puts_run x (fast_order little n a) Hx s Hs) as (s' & E & Hs' & Hc).
  - destruct Hn as [<-|[<-|[<-|[]]]]; destruct little; cbn [fast_order]; repeat constructor; cbn in *; lia.
  - exists s'. split; [exact E|]. split; [exact Hs'|]. intros b Hb. rewrite Hc by assumption.
    now apply fast_order_units.
Qed.

(** A unit shifted into its place in 32 bits, and the places joined. *)
Lemma shl_unit c k : is_u M c -> (k < 4)%nat -> shl 32 c (Z.of_nat k * M) = Done (c * 2 ^ (Z.of_nat k * M)).
Proof.
  intros Hc Hk. rewrite shl_done by nia. f_equal. apply uw_small. unfold is_u in *.
  assert (2 ^ M * 2 ^ (Z.of_nat k * M) <= 2 ^ 32).
  { rewrite <- Z.pow_add_r by nia. apply pow2_le; nia. }
  pose proof (pow2_pos (Z.of_nat k * M) ltac:(nia)). nia.
Qed.

Lemma join_unit hi lo k : 0 <= k -> is_u k lo -> (hi * 2 ^ k) ||| lo = hi * 2 ^ k + lo.
Proof. intros Hk Hlo. apply (lor_add _ _ k); [lia | exact Hlo | apply Z.mod_mul]. pose proof (pow2_pos k Hk). lia. Qed.

Lemma join_two c1 c0 : is_u M c1 -> is_u M c0 -> c1 * 2 ^ (Z.of_nat 1 * M) ||| c0 = c0 + 2 ^ M * c1.
Proof. intros H1 H0. rewrite Z.mul_1_l, join_unit by (lia || assumption). lia. Qed.

Lemma join_four c3 c2 c1 c0 : is_u M c3 -> is_u M c2 -> is_u M c1 -> is_u M c0 ->
  c3 * 2 ^ (Z.of_nat 3 * M) ||| c2 * 2 ^ (Z.of_nat 2 * M) ||| c1 * 2 ^ (Z.of_nat 1 * M) ||| c0
  = c0 + 2 ^ M * (c1 + 2 ^ M * (c2 + 2 ^ M * c3)).
Proof.
  intros H3 H2 H1 H0. pose proof (pow2_pos M ltac:(lia)).
  assert (E2 : 2 ^ (Z.of_nat 2 * M) = 2 ^ M * 2 ^ M) by (rewrite <- Z.pow_add_r by lia; f_equal; lia).
  assert (E3 : 2 ^ (Z.of_nat 3 * M) = 2 ^ M * 2 ^ (Z.of_nat 2 * M)) by (rewrite <- Z.pow_add_r by lia; f_equal; lia).
  assert (E1 : 2 ^ (Z.of_nat 1 * M) = 2 ^ M) by (f_equal; lia).
  assert (U : 2 ^ (Z.of_nat 3 * M) = 2 ^ M * 2 ^ M * 2 ^ M) by (rewrite E3, E2; ring).
  rewrite (join_unit c3 (c2 * 2 ^ (Z.of_nat 2 * M)) (Z.of_nat 3 * M))
    by (lia || (unfold is_u in *; rewrite U, E2; nia)).
  replace (c3 * 2 ^ (Z.of_nat 3 * M) + c2 * 2 ^ (Z.of_nat 2 * M))
    with ((c3 * 2 ^ M + c2) * 2 ^ (Z.of_nat 2 * M)) by (rewrite E3; ring).
  rewrite (join_unit (c3 * 2 ^ M + c2) (c1 * 2 ^ (Z.of_nat 1 * M)) (Z.of_nat 2 * M))
    by (lia || (unfold is_u in *; rewrite E1, E2; nia)).
  replace ((c3 * 2 ^ M + c2) * 2 ^ (Z.of_nat 2 * M) + c1 * 2 ^ (Z.of_nat 1 * M))
    with (((c3 * 2 ^ M + c2) * 2 ^ M + c1) * 2 ^ M) by (rewrite E2, E1; ring).
  rewrite join_unit by (lia || assumption). ring.
Qed.

Lemma fast_read_run little n s a : direct_ok M low high s -> In n [1; 2; 4]%nat -> low <= a ->
  a + Z.of_nat n - 1 <= high ->
  fast_read little n a s = Done (load little M (contents s) a n).
Proof.
  intros Hs Hn Ha He. pose proof (direct_shifts _ _ _ _ Hs) as (S1 & S2 & S3).
  replace M with (Z.of_nat 1 * M) in S1 by lia.
  change 2 with (Z.of_nat 2) in S2. change 3 with (Z.of_nat 3) in S3.
  assert (U : forall b, low <= b <= high -> is_u M (contents s b)) by (intros b Hb; now apply (get_run s b Hs)).
  assert (G : forall b, low <= b <= high -> direct_get (b - low) s = Done (contents s b))
    by (intros b Hb; now apply (get_run s b Hs)).
  destruct Hn as [<-|[<-|[<-|[]]]]; cbn in He; destruct little; cbn [fast_read load load_LE load_BE];
    unfold fastReadMAU, fastRead2MAUsLE, fastRead2MAUsBE, fastRead4MAUsLE, fastRead4MAUsBE; cbv zeta;
    rewrite ?fast_index, ?fast_index64 by (assumption || lia);
    rewrite <- ?Z.add_sub_swap; rewrite ?G by lia; cbn [obind]; rewrite ?S1, ?S2, ?S3, ?shl_unit by (lia || (apply U; lia));
    cbn [obind]; rewrite <- ?Z.add_sub_swap; rewrite ?G by lia; cbn [obind]; rewrite ?shl_unit by (lia || (apply U; lia));
    cbn [obind]; f_equal;
    rewrite ?join_four, ?join_two by (apply U; lia);
    rewrite <- ?Z.add_assoc; change (1 + 1) with 2; change (1 + (1 + 1)) with 3; change (1 + 2) with 3;
    rewrite ?Z.mul_0_r, ?Z.pow_0_r, ?Z.mul_1_r; try ring.
  replace (2 ^ (M * Z.of_nat 3)) with (2 ^ M * 2 ^ M * 2 ^ M)
    by (rewrite <- !Z.pow_add_r by lia; f_equal; lia).
  replace (2 ^ (M * Z.of_nat 2)) with (2 ^ M * 2 ^ M) by (rewrite <- Z.pow_add_r by lia; f_equal; lia). ring.
Qed.
End Fast.

Lemma direct_new_ok M low high little : space_ok M low high -> 1 <= M <= 8 ->
  exists m, DirectAccessMemory_new low high M little = Done m /\ memory_ok m /\
    direct_ok M low high (storage m) /\ littleEndian_ m = little /\ MAUSize_ m = M /\
    start_ m = low /\ end_ m = high /\ writeRequests_ m = [].
Proof.
  intros Hsp HM. destruct (direct_storage_ok M low high Hsp) as (s & Es & Hs & _).
  destruct (Memory_new_ok M low high little s Hsp Hs) as (m & E & Hm & <- & R).
  exists m. split; [unfold DirectAccessMemory_new; now rewrite Es|]. split; [exact Hm|]. split; [|exact R].
  destruct Hsp as (_ & Hr & Hh & _). split; [exact Hs | | |]; unfold DirectAccess_storage in Es;
    destruct (Z.leb_spec 32 M); try lia; rewrite shl_done in Es by lia; cbn in Es; injection Es as <-; cbn.
  - apply u32_small. lia.
  - rewrite !u32_small by lia. lia.
  - apply (not_high_ones 32 M). lia.
Qed.

(** C11: The unchecked accesses of [DirectAccessMemory] that the compiled simulator uses, on units of
    up to eight bits and one, two or four units in range, against the generic ones of the same
    memory.  A fast read returns what [read] returns; a fast write succeeds, leaves every unit as a
    flat memory has it after the store, and a fast read then returns the value.  On a big-endian
    memory [write] leaves every unit as the fast write does, at once.  On a little-endian memory
    it does not: [write] leaves the storage as it was, and so does the clock of the memory, which
    does nothing; only the clock of the base class would bring the units the fast write stores. *)
Theorem fast_paths_equal (m : Memory DirectAccess) n a x : memory_ok m ->
  direct_ok (MAUSize_ m) (start_ m) (end_ m) (storage m) -> MAUSize_ m <= 8 -> writeRequests_ m = [] ->
  In n [1; 2; 4]%nat -> start_ m <= a -> a + Z.of_nat n - 1 <= end_ m -> is_u 64 x ->
  let little := littleEndian_ m in
  let value := x mod 2 ^ (MAUSize_ m * Z.of_nat n) in
  let stored := apply_writes (units_at a (units little (MAUSize_ m) x n)) (contents (storage m)) in
  let same s s' := forall b, start_ m <= b <= end_ m -> read_mau b s = read_mau b s' in
  fast_read little n a (storage m) = read a n m /\
  exists s m1, fast_write little n a x (storage m) = Done s /\
    (forall b, start_ m <= b <= end_ m -> read_mau b s = Done (stored b)) /\
    fast_read little n a s = Done value /\
    write a n x m = Done m1 /\ advanceClock m1 = Done m1 /\
    if little
    then storage m1 = storage m /\ exists m2, Memory_advanceClock m1 = Done m2 /\ same s (storage m2)
    else read a n m1 = Done value /\ same s (storage m1).
Proof.
  intros Hm Hd HM Hq Hn Ha He Hx. cbv zeta. pose proof Hm as [HM1 _ Hr Hs _].
  assert (Hn4 : (0 < n <= 4)%nat) by (cbn in Hn; lia).
  set (little := littleEndian_ m). set (M := MAUSize_ m) in *.
  assert (R : represents m (mk_flat (contents (storage m)) [])) by (split; [reflexivity | now rewrite Hq]).
  assert (A : access_ok little M (start_ m) (end_ m) (Store a n x)).
  { cbn. unfold MAX_ACCESS_SIZE. repeat split; try assumption; try lia; try apply Hx. nia. }
  assert (L : access_ok little M (start_ m) (end_ m) (Load a n)).
  { cbn. unfold MAX_ACCESS_SIZE. repeat split; try assumption; try lia. destruct little; nia. }
  split.
  { rewrite (read_run m _ a n Hm R L). now rewrite (fast_read_run M (start_ m) (end_ m)) by (assumption || lia). }
  destruct (fast_write_run M (start_ m) (end_ m) ltac:(lia) ltac:(lia) little n (storage m) a x Hd Hn Ha He Hx)
    as (s & Ef & Hs' & Hc).
  assert (Hb : forall b, start_ m <= b <= end_ m -> backed s b) by (intros b; apply (direct_storage _ _ _ _ Hs')).
  assert (V : fast_read little n a s = Done (x mod 2 ^ (M * Z.of_nat n))).
  { rewrite (fast_read_run M (start_ m) (end_ m)) by (assumption || lia). f_equal.
    rewrite (load_ext M little _ _ a n) by (intros b Hbr; apply Hc; lia). now apply load_stored. }
  assert (U : forall m2, memory_ok m2 -> same_shape m m2 ->
    represents m2 (settle (mk_flat (contents (storage m)) ([] ++ units_at a (units little M x n)))) ->
    forall b, start_ m <= b <= end_ m -> read_mau b s = read_mau b (storage m2)).
  { intros m2 Hm2 (_ & _ & F3 & F4) [R2 _] b Hbr. destruct (storage_backed _ Hm2) as [Hb2 _]. rewrite F3, F4 in *.
    rewrite !read_contents by (apply Hb || apply Hb2; assumption). now rewrite Hc, R2. }
  destruct (write_run m _ a n x Hm R A) as (m1 & Ew & Hm1 & R1 & E1).
  exists s, m1. split; [exact Ef|]. split; [intros b Hbr; rewrite read_contents by auto; now rewrite Hc|].
  split; [exact V|]. split; [exact Ew|]. split; [reflexivity|].
  unfold flat_store in R1. cbn [timed direct_laws unclocked flushes_BE cells pending] in R1. fold little M in R1.
  unfold write in Ew. fold little in Ew. destruct little eqn:El; cbn [negb andb] in R1.
  - split.
    + unfold writeLE in Ew. rewrite checkRange_in in Ew by (assumption || lia). cbn [obind] in Ew.
      destruct (n <=? MAX_ACCESS_SIZE)%nat; [|discriminate]. destruct (unpackLE x n m); [|discriminate..].
      cbn [obind] in Ew. now injection Ew as <-.
    + destruct (Memory_advanceClock_run m1 _ Hm1 R1) as (m2 & Ec & Hm2 & R2 & E2).
      exists m2. split; [exact Ec|]. apply U; [exact Hm2 | exact (same_shape_trans _ _ _ E1 E2) | exact R2].
  - split; [|now apply U].
    rewrite (read_run m1 _ a n Hm1 R1); destruct E1 as (F1 & F2 & F3 & F4); rewrite F1, F2; fold little M; rewrite El;
      [|now rewrite F3, F4].
    cbn [cells settle pending app]. f_equal. now apply load_stored.
Qed.

Lemma fast_paths_witness : exists m, DirectAccessMemory_new 0 99 8 false = Done m /\
  fast_read false 4 16 (storage m) = read 16 4 m /\
  exists s m1, fast_write false 4 16 0x01020304 (storage m) = Done s /\ write 16 4 0x01020304 m = Done m1 /\
    fast_read false 4 16 s = Done 0x01020304 /\ read 16 4 m1 = Done 0x01020304.
Proof.
  destruct (direct_new_ok 8 0 99 false) as (m & E & Hm & Hd & El & Em & Es & Ee & Eq).
  { split; [lia | split; [lia | split; [lia | vm_compute; discriminate]]]. }
  { lia. }
  exists m. split; [exact E|].
  destruct (fast_paths_equal m 4 16 0x01020304 Hm) as (R & s & m1 & W1 & _ & W2 & W3 & _ & W4);
    rewrite ?Em, ?Es, ?Ee; try assumption; try (unfold is_u; lia); [cbn; tauto|].
  rewrite El, Em in *. split; [exact R|]. exists s, m1. split; [exact W1|]. split; [exact W3|].
  split; [exact W2 | exact (proj1 W4)].
Defined.
