(* ===== verification/OSAL.v ===== *)
(** * The operation behaviour language (src/base/osal/OSAL.hh)

    A trigger works on an array of pointers to the values of its operands, numbered from one, and on
    an operation context.  The values are kept in a list: no two operands of an operation are bound
    to one port.  [MEMORY] is another object and is passed where it is used. *)

From Stdlib Require String.
From S2P Require Import Prelude.
From S2P Require Import CInt.
From S2P Require Import Cpp.
From S2P Require Import SimValue.
#[local] Open Scope cpp_scope.

(** ** Operands *)

Definition operands := list SimValue.

Definition operand (n : nat) (io : operands) : outcome SimValue :=
  match nth_error io (n - 1) with Some v => Done v | None => Undefined end.

Definition INT (n : nat) (io : operands) : outcome Z := v <~ operand n io ; intValue v.
Definition UINT (n : nat) (io : operands) : outcome Z := v <~ operand n io ; unsignedValue v.
Definition LONG (n : nat) (io : operands) : outcome Z := v <~ operand n io ; sLongWordValue v.
Definition ULONG (n : nat) (io : operands) : outcome Z := v <~ operand n io ; Done (uLongWordValue v).
Definition FLT (n : nat) (io : operands) : outcome Z := v <~ operand n io ; Done (floatWordValue v).
Definition DBL (n : nat) (io : operands) : outcome Z := v <~ operand n io ; Done (doubleWordValue v).
Definition HFLT (n : nat) (io : operands) : outcome Z := v <~ operand n io ; Done (halfFloatWordValue v).
Definition BWIDTH (n : nat) (io : operands) : outcome Z := v <~ operand n io ; Done (width v).

(** [IO(n) = ...], by the assignment operator of the type on the right. *)
Definition IO (n : nat) (assign : SimValue -> outcome SimValue) (io : operands) : outcome operands :=
  v <~ operand n io ;
  v <~ assign v ;
  Done (replace_nth (n - 1) v io).

Definition as_int (x : Z) (v : SimValue) : outcome SimValue := Done (assign_SIntWord x v).
Definition as_uint (x : Z) (v : SimValue) : outcome SimValue := Done (assign_UIntWord x v).
Definition as_long (x : Z) (v : SimValue) : outcome SimValue := Done (assign_SLongWord x v).
Definition as_ulong (x : Z) (v : SimValue) : outcome SimValue := Done (assign_ULongWord x v).
Definition as_value (x : SimValue) (v : SimValue) : outcome SimValue := Done (assign_SimValue x v).

(** ** Extension *)

Definition SIGN_EXTEND (value width : Z) : outcome Z :=
  shifted <~ sshl 64 (s64 value) (64 - width) ; shr 64 shifted (64 - width).
Definition ZERO_EXTEND (value width : Z) : outcome Z :=
  shifted <~ shl 64 (u64 value) (64 - width) ; shr 64 shifted (64 - width).

(** ** Runtime errors (OperationGlobals.cc) *)

Definition RUNTIME_ERROR {A : Type} (message : String.string) : outcome A := Throws (SimulationExecutionError message None).
Definition RUNTIME_ERROR_WITH_INT {A : Type} (message : String.string) (data : Z) : outcome A :=
  Throws (SimulationExecutionError message (Some (s32 data))).
Definition RUNTIME_ERROR_WITH_LONG {A : Type} (message : String.string) (data : Z) : outcome A :=
  Throws (SimulationExecutionError message (Some (s64 data))).

(** ** Laws *)

Lemma SIGN_EXTEND_eq w x : 1 <= w <= 64 -> SIGN_EXTEND x w = Done (sw w x).
Proof.
  intros Hw. unfold SIGN_EXTEND. rewrite sshl_done by lia. cbn [obind]. rewrite shr_done by lia.
  rewrite sw_shift_back by lia. unfold s64. f_equal.
  apply sw_sw. lia.
Qed.

Lemma ZERO_EXTEND_eq w x : 1 <= w <= 64 -> ZERO_EXTEND x w = Done (uw w x).
Proof.
  intros Hw. unfold ZERO_EXTEND. rewrite shl_done by lia. cbn [obind]. rewrite shr_done by lia.
  rewrite uw_shift_back by lia. f_equal. apply uw_uw. lia.
Qed.
