(* ===== verification/ControlUnit.v ===== *)
(** * The control unit of the simulator

    The control-flow operations of opset/base/base.cc, the hardware loop among them, and the global
    control unit that runs them cycle by cycle (applibs/Simulator: GCUState, TransportPipeline and
    the control part of [SimulationController::simulateCycle]).  Instruction addresses have 32
    bits.  A state object is registered with the context when an operation of the unit has one:
    [None] is a unit without the hardware loop. *)

From Stdlib Require String.
From S2P Require Import Prelude.
From S2P Require Import CInt.
From S2P Require Import Cpp.
From S2P Require Import SimValue.
From S2P Require Import OSAL.
#[local] Open Scope cpp_scope.
Import String.StringSyntax.
#[local] Open Scope string_scope.

(** ** The state of the hardware loop *)

Record HLOOP_SETUP := mk_loop {
  loopCounter : Z; loopLength : Z; hwloopEnabled : bool; instrCount : Z; delayCycles : Z }.

Definition HLOOP_SETUP_new : HLOOP_SETUP := mk_loop 0 0 false 0 0.

(** [ADVANCE_CLOCK]: the new state and program counter. *)
Definition HLOOP_advanceClock (l : HLOOP_SETUP) (pc : Z) : HLOOP_SETUP * Z :=
  if 0 <? delayCycles l
  then (mk_loop (loopCounter l) (loopLength l) (hwloopEnabled l) (instrCount l) (u32 (delayCycles l - 1)), pc)
  else if hwloopEnabled l && (0 <? loopCounter l) then
    let count := u32 (instrCount l + 1) in
    let '(counter, count, pc) :=
      if count =? loopLength l then (u32 (loopCounter l - 1), 0, u32 (pc - loopLength l))
      else (loopCounter l, count, pc) in
    (mk_loop counter (loopLength l) (if counter =? 0 then false else hwloopEnabled l) count (delayCycles l), pc)
  else (l, pc).

(** ** The operation context *)

Record OperationContext := mk_context {
  programCounter : Z; returnAddress : SimValue; saveReturnAddress : bool; updateProgramCounter : bool;
  branchDelayCycles : Z; state : option HLOOP_SETUP }.

Definition SET_PROGRAM_COUNTER (value : Z) (c : OperationContext) : OperationContext :=
  mk_context (u32 value) (returnAddress c) (saveReturnAddress c) true (branchDelayCycles c) (state c).
Definition SAVE_RETURN_ADDRESS (c : OperationContext) : OperationContext :=
  mk_context (programCounter c) (returnAddress c) true (updateProgramCounter c) (branchDelayCycles c) (state c).
Definition set_state (l : HLOOP_SETUP) (c : OperationContext) : OperationContext :=
  mk_context (programCounter c) (returnAddress c) (saveReturnAddress c) (updateProgramCounter c)
    (branchDelayCycles c) (Some l).

(** ** The operations (base.cc) *)

Definition behavior := operands -> OperationContext -> outcome (operands * OperationContext).

Definition JUMP : behavior := fun io c =>
  a <~ UINT 1 io ; Done (io, SET_PROGRAM_COUNTER a c).
Definition JUMPR : behavior := fun io c =>
  a <~ INT 1 io ; Done (io, SET_PROGRAM_COUNTER (programCounter c + a) c).
Definition CALL : behavior := fun io c =>
  let c := SAVE_RETURN_ADDRESS c in
  a <~ UINT 1 io ; Done (io, SET_PROGRAM_COUNTER a c).
Definition CALLR : behavior := fun io c =>
  let c := SAVE_RETURN_ADDRESS c in
  a <~ INT 1 io ; Done (io, SET_PROGRAM_COUNTER (programCounter c + a) c).

Definition BZ : behavior := fun io c =>
  a <~ UINT 1 io ;
  if a =? 0 then t <~ UINT 2 io ; Done (io, SET_PROGRAM_COUNTER t c) else Done (io, c).
Definition BNZ : behavior := fun io c =>
  a <~ UINT 1 io ;
  if negb (a =? 0) then t <~ UINT 2 io ; Done (io, SET_PROGRAM_COUNTER t c) else Done (io, c).
Definition BZ1 : behavior := fun io c =>
  a <~ UINT 1 io ;
  if (a &&& 1) =? 0 then t <~ UINT 2 io ; Done (io, SET_PROGRAM_COUNTER t c) else Done (io, c).
Definition BNZ1 : behavior := fun io c =>
  a <~ UINT 1 io ;
  if negb ((a &&& 1) =? 0) then t <~ UINT 2 io ; Done (io, SET_PROGRAM_COUNTER t c) else Done (io, c).
Definition BZR : behavior := fun io c =>
  a <~ UINT 1 io ;
  if a =? 0 then t <~ INT 2 io ; Done (io, SET_PROGRAM_COUNTER (programCounter c + t) c) else Done (io, c).
Definition BNZR : behavior := fun io c =>
  a <~ UINT 1 io ;
  if negb (a =? 0) then t <~ INT 2 io ; Done (io, SET_PROGRAM_COUNTER (programCounter c + t) c) else Done (io, c).
Definition APC : behavior := fun io c =>
  a <~ INT 1 io ; io <~ IO 2 (as_uint (u32 (programCounter c + a))) io ; Done (io, c).

Definition HWLOOP : behavior := fun io c =>
  iterations <~ UINT 1 io ;
  if iterations =? 0 then RUNTIME_ERROR "Hardware loop invocation with 0 iterations is invalid."
  else
    length <~ UINT 2 io ;
    if length =? 0 then RUNTIME_ERROR "Hardware loop invocation with instruction length 0 is invalid."
    else match state c with
    | None => Throws KeyNotFound
    | Some l =>
      if hwloopEnabled l then RUNTIME_ERROR "Hardware loop execution already in progress."
      else
        let counter := u32 (iterations - 1) in
        Done (io, set_state (if 0 <? counter
                             then mk_loop counter length true 0 (u32 (branchDelayCycles c + 1))
                             else mk_loop counter (loopLength l) (hwloopEnabled l) (instrCount l) (delayCycles l)) c)
    end.

(** The operations a control unit can have, and what base.opp says of them. *)
Inductive ControlOperation :=
| op_JUMP | op_JUMPR | op_CALL | op_CALLR | op_BNZ | op_BZ1 | op_BNZ1 | op_BNZR | op_APC | op_HWLOOP.

Definition isCall (op : ControlOperation) : bool :=
  match op with op_CALL | op_CALLR => true | _ => false end.
Definition isBranch (op : ControlOperation) : bool :=
  match op with op_JUMP | op_JUMPR | op_BNZ | op_BZ1 | op_BNZ1 | op_BNZR => true | _ => false end.

Definition simulateTrigger (op : ControlOperation) : behavior :=
  match op with
  | op_JUMP => JUMP | op_JUMPR => JUMPR | op_CALL => CALL | op_CALLR => CALLR
  | op_BNZ => BNZ | op_BZ1 => BZ1 | op_BNZ1 => BNZ1 | op_BNZR => BNZR
  | op_APC => APC | op_HWLOOP => HWLOOP
  end.

(** ** The global control unit (GCUState) *)

Record GCUState := mk_gcu {
  pc_ : Z; returnAddressRegister_ : SimValue; newProgramCounter_ : Z;
  operationPending_ : bool; operationPendingTime_ : Z; latency_ : Z; branchDelayCycles_ : Z;
  instructionAddressIncrement_ : Z; loop_ : option HLOOP_SETUP; idle_ : bool;
  trigger_ : option (ControlOperation * operands) }.

Definition with_pc (pc : Z) (g : GCUState) : GCUState :=
  mk_gcu pc (returnAddressRegister_ g) (newProgramCounter_ g) (operationPending_ g) (operationPendingTime_ g)
    (latency_ g) (branchDelayCycles_ g) (instructionAddressIncrement_ g) (loop_ g) (idle_ g) (trigger_ g).
Definition with_pending (new : Z) (pending : bool) (time : Z) (g : GCUState) : GCUState :=
  mk_gcu (pc_ g) (returnAddressRegister_ g) new pending time
    (latency_ g) (branchDelayCycles_ g) (instructionAddressIncrement_ g) (loop_ g) (idle_ g) (trigger_ g).
Definition with_return (ra : SimValue) (g : GCUState) : GCUState :=
  mk_gcu (pc_ g) ra (newProgramCounter_ g) (operationPending_ g) (operationPendingTime_ g)
    (latency_ g) (branchDelayCycles_ g) (instructionAddressIncrement_ g) (loop_ g) (idle_ g) (trigger_ g).
Definition with_loop (l : option HLOOP_SETUP) (g : GCUState) : GCUState :=
  mk_gcu (pc_ g) (returnAddressRegister_ g) (newProgramCounter_ g) (operationPending_ g) (operationPendingTime_ g)
    (latency_ g) (branchDelayCycles_ g) (instructionAddressIncrement_ g) l (idle_ g) (trigger_ g).
Definition with_idle (idle : bool) (g : GCUState) : GCUState :=
  mk_gcu (pc_ g) (returnAddressRegister_ g) (newProgramCounter_ g) (operationPending_ g) (operationPendingTime_ g)
    (latency_ g) (branchDelayCycles_ g) (instructionAddressIncrement_ g) (loop_ g) idle (trigger_ g).
Definition with_trigger (t : option (ControlOperation * operands)) (g : GCUState) : GCUState :=
  mk_gcu (pc_ g) (returnAddressRegister_ g) (newProgramCounter_ g) (operationPending_ g) (operationPendingTime_ g)
    (latency_ g) (branchDelayCycles_ g) (instructionAddressIncrement_ g) (loop_ g) (idle_ g) t.

Definition setProgramCounter (value : Z) (g : GCUState) : outcome GCUState :=
  if operationPending_ g && negb (latency_ g =? operationPendingTime_ g)
  then Throws (SimulatorException "Cannot have jumps in delay slots.")
  else Done (with_pending value true (latency_ g) g).

Definition setReturnAddress (g : GCUState) : GCUState :=
  with_return (assign_UIntWord (u32 (pc_ g + u32 (s32 (latency_ g * instructionAddressIncrement_ g))))
    (returnAddressRegister_ g)) g.

(** *** The transport pipeline *)

(** The copy of the context an operation sees shares the registered states. *)
Definition tempContext (ra : SimValue) (g : GCUState) : OperationContext :=
  mk_context (pc_ g) (assign_SimValue (returnAddressRegister_ g) ra) false false (branchDelayCycles_ g) (loop_ g).

Definition startOperation (ra : SimValue) (op : ControlOperation) (io : operands) (g : GCUState)
  : outcome (operands * GCUState) :=
  ' (io, c) <~ simulateTrigger op io (tempContext ra g) ;
  let g := with_loop (state c) g in
  g <~ (if updateProgramCounter c && (isCall op || isBranch op)
        then setProgramCounter (programCounter c) g else Done g) ;
  Done (io, if saveReturnAddress c then setReturnAddress g else g).

(** *** The clock *)

(** [setTriggered] and [setOperation], by a move to a triggering port. *)
Definition setTriggered (op : ControlOperation) (io : operands) (g : GCUState) : GCUState :=
  with_idle false (with_trigger (Some (op, io)) g).

(** A started operation leaves the pipeline pending, which keeps the unit awake. *)
Definition endClock (ra : SimValue) (g : GCUState) : outcome GCUState :=
  match trigger_ g with
  | None => Done g
  | Some (op, io) => outcome_map (fun r => with_idle false (snd r)) (startOperation ra op io (with_trigger None g))
  end.

Definition isIdle (g : GCUState) : bool :=
  idle_ g && match loop_ g with None => true | Some _ => false end.

Definition advanceClock (g : GCUState) : GCUState :=
  let g := if operationPending_ g
           then with_pending (newProgramCounter_ g) true (s32 (operationPendingTime_ g - 1)) g else g in
  let g := if operationPending_ g && (operationPendingTime_ g <=? 0)
           then with_pending (newProgramCounter_ g) false (operationPendingTime_ g) (with_pc (newProgramCounter_ g) g)
           else g in
  match loop_ g with
  | Some l => let '(l, pc) := HLOOP_advanceClock l (pc_ g) in with_loop (Some l) (with_pc pc (with_idle false g))
  | None => with_idle (negb (operationPending_ g)) g
  end.

(** The control unit's part of [simulateCycle]: the instruction at the program counter may trigger
    an operation. *)
Definition simulateCycle (ra : SimValue) (instruction : option (ControlOperation * operands)) (g : GCUState)
  : outcome GCUState :=
  let g := match instruction with None => g | Some (op, io) => setTriggered op io g end in
  g <~ (if isIdle g then Done g else endClock ra g) ;
  let g := with_pc (u32 (pc_ g + 1)) g in
  Done (if isIdle g then g else advanceClock g).

Definition GCUState_reset (g : GCUState) : GCUState :=
  mk_gcu 0 (assign_SIntWord 0 (returnAddressRegister_ g)) 0 false 0 (latency_ g) (branchDelayCycles_ g)
    (instructionAddressIncrement_ g) (loop_ g) (idle_ g) (trigger_ g).

(** [latency] is [cuDelaySlots + 1]. *)
Definition GCUState_new (memory : list Z) (latency cuDelaySlots increment : Z) (loop : bool) : outcome GCUState :=
  ra <~ SimValue_width memory 64 ;
  Done (GCUState_reset (mk_gcu 0 ra 0 false 0 latency cuDelaySlots increment
    (if loop then Some HLOOP_SETUP_new else None) false None)).

(** The addresses a program executes: [issue k pc] is what the instruction at [pc] triggers in
    cycle [k]. *)
Fixpoint run (ra : SimValue) (issue : nat -> Z -> option (ControlOperation * operands)) (k n : nat) (g : GCUState)
  : outcome (list Z * GCUState) :=
  match n with
  | O => Done ([], g)
  | S n =>
    let pc := pc_ g in
    g <~ simulateCycle ra (issue k pc) g ;
    ' (pcs, g) <~ run ra issue (S k) n g ;
    Done (pc :: pcs, g)
  end.

Definition immediate (x : Z) : SimValue := mk_value (bytes_of 512 x) 32 (2 ^ 32 - 1).

Example loop_of_three : (g <~ GCUState_new memory0 3 2 1 true ;
  ' (pcs, _) <~ run (immediate 0) (fun _ pc => if pc =? 5 then Some (op_HWLOOP, [immediate 3; immediate 2]) else None)
    0 16 g ; Done pcs)
  = Done [0; 1; 2; 3; 4; 5; 6; 7; 8; 9; 8; 9; 8; 9; 10; 11].
Proof. vm_compute. reflexivity. Qed.

Example call_and_return : (g <~ GCUState_new memory0 3 2 1 false ;
  ' (pcs, g) <~ run (immediate 0) (fun _ pc => if pc =? 2 then Some (op_CALL, [immediate 100]) else None) 0 7 g ;
  Done (pcs, uLongWordValue (returnAddressRegister_ g)))
  = Done ([0; 1; 2; 3; 4; 100; 101], 5).
Proof. vm_compute. reflexivity. Qed.

(** The control unit's part of [SimulationController::reset] and [MachineState::resetAllFUs]. *)
Definition SimulationController_reset (initialPC : Z) (g : GCUState) : GCUState :=
  GCUState_reset (with_pc initialPC g).
