(* ===== verification/ControlFlow.v ===== *)
(** * Control flow of the simulated processor

    Which addresses the control unit makes the processor execute: transfers of control take effect
    after the delay slots, and a hardware loop repeats its body. *)

From Stdlib Require String.
From S2P Require Import Prelude.
From S2P Require Import CInt.
From S2P Require Import Cpp.
From S2P Require Import SimValue.
From S2P Require Import SimValueLaws.
From S2P Require Import OSAL.
From S2P Require Import ControlUnit.
Import String.StringSyntax.
#[local] Open Scope cpp_scope.
#[local] Open Scope string_scope.
#[local] Open Scope Z_scope.
#[local] Open Scope list_scope.

(** [n] consecutive addresses. *)
Definition span (a : Z) (n : nat) : list Z := map (fun i => u32 (a + Z.of_nat i)) (seq 0 n).

Lemma span_length a n : length (span a n) = n.
Proof. unfold span. now rewrite length_map, length_seq. Qed.

Lemma span_app a m n : span a (m + n) = span a m ++ span (u32 (a + Z.of_nat m)) n.
Proof.
  unfold span. rewrite seq_app, map_app. f_equal. apply (nth_ext _ _ 0 0); [now rewrite !length_map, !length_seq|].
  intros i Hi. rewrite length_map, length_seq in Hi.
  rewrite !(nth_indep _ 0 (u32 (a + Z.of_nat 0))) by now rewrite length_map, length_seq.
  rewrite !(map_nth (fun i => u32 (a + Z.of_nat i))), seq_nth by assumption.
  rewrite (nth_indep _ _ (u32 (u32 (a + Z.of_nat m) + Z.of_nat 0))) by now rewrite length_map, length_seq.
  rewrite (map_nth (fun i => u32 (u32 (a + Z.of_nat m) + Z.of_nat i))), seq_nth by assumption.
  rewrite u32_add_l. f_equal. lia.
Qed.

Lemma span_1 a : is_u 32 a -> span a 1 = [a].
Proof. intros H. unfold span. cbn [seq map Z.of_nat]. now rewrite Z.add_0_r, u32_small. Qed.

Lemma span_S a n : is_u 32 a -> span a (S n) = a :: span (u32 (a + 1)) n.
Proof. intros H. change (S n) with (1 + n)%nat. now rewrite span_app, span_1. Qed.

(** ** Cycles in which the unit is left alone *)

Definition loop_clock (l : option HLOOP_SETUP) (pc : Z) : option HLOOP_SETUP * Z :=
  match l with
  | Some l => let '(l, pc) := HLOOP_advanceClock l pc in (Some l, pc)
  | None => (None, pc)
  end.

Fixpoint quiet_run (n : nat) (l : option HLOOP_SETUP) (pc : Z) : list Z * (option HLOOP_SETUP * Z) :=
  match n with
  | O => ([], (l, pc))
  | S n =>
    let '(l, pc') := loop_clock l (u32 (pc + 1)) in
    let '(pcs, r) := quiet_run n l pc' in (pc :: pcs, r)
  end.

Lemma quiet_run_add m n l pc : quiet_run (m + n) l pc
  = let '(pcs, (l, pc)) := quiet_run m l pc in let '(pcs', r) := quiet_run n l pc in (pcs ++ pcs', r).
Proof.
  revert l pc. induction m as [|m IH]; intros l pc.
  - cbn. now destruct (quiet_run n l pc).
  - cbn [Nat.add quiet_run]. destruct (loop_clock l (u32 (pc + 1))) as [l1 pc1]. rewrite IH.
    destruct (quiet_run m l1 pc1) as [p [l2 pc2]]. now destruct (quiet_run n l2 pc2).
Qed.

(** What no cycle changes. *)
Record same_unit (g g' : GCUState) : Prop := {
  same_latency : latency_ g' = latency_ g;
  same_delay : ControlUnit.branchDelayCycles_ g' = ControlUnit.branchDelayCycles_ g;
  same_increment : instructionAddressIncrement_ g' = instructionAddressIncrement_ g }.

Lemma same_refl g : same_unit g g.
Proof. now split. Qed.

Lemma same_trans g g' g'' : same_unit g g' -> same_unit g' g'' -> same_unit g g''.
Proof. intros [] []. split; congruence. Qed.

(** A unit with no operation started or pending. *)
Definition quiet (g : GCUState) : Prop := trigger_ g = None /\ operationPending_ g = false.

Definition untriggered (issue : nat -> Z -> option (ControlOperation * operands)) (k n : nat) : Prop :=
  forall j a, (k <= j < k + n)%nat -> issue j a = None.

Section Runs.
Context (ra : SimValue) (issue : nat -> Z -> option (ControlOperation * operands)).

Lemma quiet_cycle g : quiet g -> exists g', simulateCycle ra None g = Done g' /\ quiet g' /\ same_unit g g' /\
  returnAddressRegister_ g' = returnAddressRegister_ g /\
  (loop_ g', pc_ g') = loop_clock (loop_ g) (u32 (pc_ g + 1)).
Proof.
  intros [Ht Hp]. unfold simulateCycle, endClock. rewrite Ht.
  assert (E : (if isIdle g then Done g else Done g) = Done g) by now destruct (isIdle g).
  rewrite E. cbn [obind]. eexists. split; [reflexivity|]. unfold isIdle, advanceClock, loop_clock.
  destruct g as [pc r new pending time latency delay increment loop idle trigger]. cbn in Ht, Hp. subst.
  destruct loop as [l|]; cbn; [rewrite andb_false_r; cbn | rewrite andb_true_r; destruct idle; cbn].
  - destruct (HLOOP_advanceClock l (u32 (pc + 1))) as [l' pc']. repeat split.
  - repeat split.
  - repeat split.
Qed.

Lemma run_quiet n : forall k g, quiet g -> untriggered issue k n ->
  exists g', run ra issue k n g = Done (fst (quiet_run n (loop_ g) (pc_ g)), g') /\ quiet g' /\ same_unit g g' /\
  returnAddressRegister_ g' = returnAddressRegister_ g /\
  (loop_ g', pc_ g') = snd (quiet_run n (loop_ g) (pc_ g)).
Proof.
  induction n as [|n IH]; intros k g Hq Hi.
  - exists g. cbn. auto using same_refl.
  - cbn [run quiet_run]. rewrite (Hi k) by lia.
    destruct (quiet_cycle g Hq) as (g1 & -> & Hq1 & Hs1 & Hr1 & E1). cbn [obind].
    destruct (IH (S k) g1 Hq1 ltac:(intros j a Hj; apply Hi; lia)) as (g2 & -> & Hq2 & Hs2 & Hr2 & E2).
    cbn [obind]. rewrite <- E1. exists g2. destruct (quiet_run n (loop_ g1) (pc_ g1)) as [pcs r].
    cbn [fst snd] in *. repeat split; try apply Hq2; try congruence.
    all: now destruct (same_trans _ _ _ Hs1 Hs2).
Qed.

Lemma run_add m n k g : run ra issue k (m + n) g
  = (' (a, g) <~ run ra issue k m g ; ' (b, g) <~ run ra issue (k + m) n g ; Done (a ++ b, g)).
Proof.
  revert k g. induction m as [|m IH]; intros k g.
  - cbn. rewrite Nat.add_0_r. now destruct (run ra issue k n g) as [[b g']| |].
  - cbn [Nat.add run]. destruct (simulateCycle ra (issue k (pc_ g)) g) as [g1| |]; cbn [obind]; [|reflexivity..].
    rewrite IH. replace (S k + m)%nat with (k + S m)%nat by lia.
    destruct (run ra issue (S k) m g1) as [[a g2]| |]; cbn [obind]; [|reflexivity..].
    now destruct (run ra issue (k + S m) n g2) as [[b g3]| |].
Qed.
End Runs.

(** ** The hardware loop, left alone *)

Definition disabled (l : option HLOOP_SETUP) : Prop :=
  match l with Some l => hwloopEnabled l = false | None => True end.

Lemma disabled_clock l pc : disabled l -> exists l', loop_clock l pc = (l', pc) /\ disabled l'.
Proof.
  destruct l as [l|]; cbn; [|now exists None]. intros H. unfold HLOOP_advanceClock. rewrite H. cbn [andb].
  destruct (0 <? delayCycles l); eexists; split; reflexivity || assumption.
Qed.

Lemma disabled_run n : forall l pc, is_u 32 pc -> disabled l ->
  exists l', quiet_run n l pc = (span pc n, (l', u32 (pc + Z.of_nat n))) /\ disabled l'.
Proof.
  induction n as [|n IH]; intros l pc Hpc Hl.
  - exists l. cbn. now rewrite Z.add_0_r, u32_small.
  - cbn [quiet_run]. destruct (disabled_clock l (u32 (pc + 1)) Hl) as (l1 & -> & Hl1).
    destruct (IH l1 (u32 (pc + 1)) (u32_word _) Hl1) as (l2 & -> & Hl2). exists l2. split; [|assumption].
    rewrite span_S, u32_add_l by assumption. now replace (pc + 1 + Z.of_nat n) with (pc + Z.of_nat (S n)) by lia.
Qed.

Lemma delay_run n : forall c L e i d pc, is_u 32 pc -> 0 <= d -> d + Z.of_nat n < 2 ^ 32 ->
  quiet_run n (Some (mk_loop c L e i (d + Z.of_nat n))) pc
  = (span pc n, (Some (mk_loop c L e i d), u32 (pc + Z.of_nat n))).
Proof.
  induction n as [|n IH]; intros c L e i d pc Hpc Hd Hn.
  - cbn. now rewrite !Z.add_0_r, u32_small.
  - cbn [quiet_run loop_clock]. unfold HLOOP_advanceClock. cbn [delayCycles loopCounter loopLength hwloopEnabled instrCount].
    destruct (Z.ltb_spec 0 (d + Z.of_nat (S n))); [|lia].
    replace (u32 (d + Z.of_nat (S n) - 1)) with (d + Z.of_nat n) by (rewrite u32_small; lia).
    rewrite IH by (apply u32_word || lia). rewrite span_S, u32_add_l by assumption.
    now replace (pc + 1 + Z.of_nat n) with (pc + Z.of_nat (S n)) by lia.
Qed.

(** Inside a pass the instructions are counted. *)
Lemma count_run n : forall c L i pc, is_u 32 pc -> 0 < c -> 0 <= i -> i + Z.of_nat n < L -> L < 2 ^ 32 ->
  quiet_run n (Some (mk_loop c L true i 0)) pc
  = (span pc n, (Some (mk_loop c L true (i + Z.of_nat n) 0), u32 (pc + Z.of_nat n))).
Proof.
  induction n as [|n IH]; intros c L i pc Hpc Hc Hi Hn HL.
  - cbn. now rewrite !Z.add_0_r, u32_small.
  - cbn [quiet_run loop_clock]. unfold HLOOP_advanceClock. cbn [delayCycles loopCounter loopLength hwloopEnabled instrCount].
    cbn [Z.ltb Z.compare andb]. destruct (Z.ltb_spec 0 c); [|lia]. rewrite (u32_small (i + 1)) by lia.
    destruct (Z.eqb_spec (i + 1) L); [lia|]. destruct (Z.eqb_spec c 0); [lia|].
    rewrite IH by (apply u32_word || lia). rewrite span_S, u32_add_l by assumption.
    replace (i + 1 + Z.of_nat n) with (i + Z.of_nat (S n)) by lia.
    now replace (pc + 1 + Z.of_nat n) with (pc + Z.of_nat (S n)) by lia.
Qed.

(** A pass that is not the last ends with the jump back. *)
Lemma pass_run n c pc : is_u 32 pc -> 0 < c < 2 ^ 32 -> Z.of_nat (S n) < 2 ^ 32 ->
  quiet_run (S n) (Some (mk_loop c (Z.of_nat (S n)) true 0 0)) pc
  = (span pc (S n), (Some (mk_loop (c - 1) (Z.of_nat (S n)) (negb (c - 1 =? 0)) 0 0), pc)).
Proof.
  intros Hpc Hc Hn. replace (S n) with (n + 1)%nat at 1 by lia. rewrite quiet_run_add, count_run by (assumption || lia).
  cbn [quiet_run loop_clock]. unfold HLOOP_advanceClock. cbn [delayCycles loopCounter loopLength hwloopEnabled instrCount].
  cbn [Z.ltb Z.compare andb]. destruct (Z.ltb_spec 0 c); [|lia].
  rewrite (u32_small (0 + Z.of_nat n + 1)) by lia.
  destruct (Z.eqb_spec (0 + Z.of_nat n + 1) (Z.of_nat (S n))); [|lia].
  rewrite (u32_small (c - 1)) by lia.
  replace (u32 (u32 (u32 (pc + Z.of_nat n) + 1) - Z.of_nat (S n))) with pc.
  2: { rewrite u32_add_l. unfold Z.sub. rewrite u32_add_l.
       replace (pc + Z.of_nat n + 1 + - Z.of_nat (S n)) with pc by lia. now rewrite u32_small. }
  replace (S n) with (n + 1)%nat at 2 by lia. rewrite span_app, (span_1 (u32 (pc + Z.of_nat n))) by apply u32_word.
  now destruct (c - 1 =? 0).
Qed.

Lemma passes_run L pc : is_u 32 pc -> (0 < L)%nat -> Z.of_nat L < 2 ^ 32 -> forall m, Z.of_nat m < 2 ^ 32 ->
  quiet_run (m * L) (Some (mk_loop (Z.of_nat m) (Z.of_nat L) (negb (Z.of_nat m =? 0)) 0 0)) pc
  = (concat (repeat (span pc L) m), (Some (mk_loop 0 (Z.of_nat L) false 0 0), pc)).
Proof.
  intros Hpc HL0 HL. destruct L as [|n]; [lia|]. induction m as [|m IH]; intros Hm; [reflexivity|].
  cbn [Nat.mul]. rewrite quiet_run_add. destruct (Z.eqb_spec (Z.of_nat (S m)) 0); [lia|]. cbn [negb].
  rewrite pass_run by (assumption || lia). replace (Z.of_nat (S m) - 1) with (Z.of_nat m) by lia. now rewrite IH by lia.
Qed.

(** ** Hardware loops *)

Lemma UINT_range n io x : UINT n io = Done x -> is_u 32 x.
Proof.
  unfold UINT, unsignedValue, outcome_map. destruct (operand n io) as [v| |]; cbn [obind]; try discriminate.
  match goal with |- obind ?m _ = _ -> _ => destruct m end; cbn [obind]; try discriminate.
  intros [= <-]. apply u32_word.
Qed.

Lemma idle_triggered op io g : isIdle (setTriggered op io g) = false.
Proof. reflexivity. Qed.

Definition loop_error (iterations length : Z) (l : option HLOOP_SETUP) : option exception :=
  if iterations =? 0
  then Some (SimulationExecutionError "Hardware loop invocation with 0 iterations is invalid." None)
  else if length =? 0
  then Some (SimulationExecutionError "Hardware loop invocation with instruction length 0 is invalid." None)
  else match l with
  | None => Some KeyNotFound
  | Some l =>
    if hwloopEnabled l then Some (SimulationExecutionError "Hardware loop execution already in progress." None)
    else None
  end.

(** The delay slots and the body, from the cycle after [HWLOOP]. *)
Lemma body_run l pc (N L D : nat) : Z.of_nat N < 2 ^ 32 -> Z.of_nat L < 2 ^ 32 -> Z.of_nat D < 2 ^ 31 ->
  (0 < N)%nat -> (0 < L)%nat ->
  (if 1 <? Z.of_nat N then l = Some (mk_loop (Z.of_nat N - 1) (Z.of_nat L) true 0 (Z.of_nat D)) else disabled l) ->
  exists l', quiet_run (D + N * L) l (u32 (pc + 1))
    = (span (u32 (pc + 1)) D ++ concat (repeat (span (u32 (pc + Z.of_nat (S D))) L) N),
       (l', u32 (u32 (pc + Z.of_nat (S D)) + Z.of_nat L))) /\ disabled l'.
Proof.
  intros RN RL HD HN HL El. rewrite quiet_run_add. destruct (Z.ltb_spec 1 (Z.of_nat N)) as [H1|H1].
  - pose proof (delay_run D (Z.of_nat N - 1) (Z.of_nat L) true 0 0 _ (u32_word (pc + 1)) ltac:(lia) ltac:(lia)) as DR.
    rewrite Z.add_0_l, u32_add_l in DR. rewrite El, DR. replace (pc + 1 + Z.of_nat D) with (pc + Z.of_nat (S D)) by lia.
    destruct N as [|m]; [lia|]. replace (S m * L)%nat with (m * L + L)%nat by lia. rewrite quiet_run_add.
    replace (Z.of_nat (S m) - 1) with (Z.of_nat m) by lia.
    pose proof (passes_run L (u32 (pc + Z.of_nat (S D))) (u32_word _) HL RL m ltac:(lia)) as P.
    destruct (Z.eqb_spec (Z.of_nat m) 0); [lia|]. cbn [negb] in P. rewrite P.
    destruct (disabled_run L (Some (mk_loop 0 (Z.of_nat L) false 0 0)) _ (u32_word (pc + Z.of_nat (S D))) eq_refl)
      as (l2 & -> & D2).
    exists l2. split; [|assumption]. replace (S m) with (m + 1)%nat by lia.
    rewrite repeat_app, concat_app. cbn [repeat concat]. now rewrite app_nil_r.
  - replace N with 1%nat by lia. rewrite Nat.mul_1_l.
    destruct (disabled_run D l _ (u32_word (pc + 1)) El) as (l2 & -> & D2).
    rewrite u32_add_l. replace (pc + 1 + Z.of_nat D) with (pc + Z.of_nat (S D)) by lia.
    destruct (disabled_run L l2 _ (u32_word (pc + Z.of_nat (S D))) D2) as (l3 & -> & D3).
    exists l3. split; [|assumption]. cbn [repeat concat]. now rewrite app_nil_r.
Qed.

Section HardwareLoop.
Context (ra : SimValue) (issue : nat -> Z -> option (ControlOperation * operands)).

Lemma hwloop_refused g io N L e : UINT 1 io = Done N -> UINT 2 io = Done L ->
  loop_error N L (loop_ g) = Some e -> simulateCycle ra (Some (op_HWLOOP, io)) g = Throws e.
Proof.
  intros HN HL He. unfold simulateCycle. rewrite idle_triggered. unfold endClock, startOperation.
  cbn [setTriggered with_idle with_trigger trigger_ simulateTrigger]. unfold HWLOOP. rewrite HN. cbn [obind].
  unfold loop_error in He. destruct (N =? 0); [now injection He as <-|]. rewrite HL. cbn [obind].
  destruct (L =? 0); [now injection He as <-|]. cbn. destruct (loop_ g) as [l|]; [|now injection He as <-].
  destruct (hwloopEnabled l); [now injection He as <- | discriminate].
Qed.

Lemma hwloop_cycle g io l N L : quiet g -> loop_ g = Some l -> hwloopEnabled l = false ->
  0 <= ControlUnit.branchDelayCycles_ g < 2 ^ 31 ->
  UINT 1 io = Done N -> UINT 2 io = Done L -> 0 < N -> 0 < L ->
  exists g', simulateCycle ra (Some (op_HWLOOP, io)) g = Done g' /\ quiet g' /\ same_unit g g' /\
    returnAddressRegister_ g' = returnAddressRegister_ g /\ pc_ g' = u32 (pc_ g + 1) /\
    if 1 <? N then loop_ g' = Some (mk_loop (N - 1) L true 0 (ControlUnit.branchDelayCycles_ g)) else disabled (loop_ g').
Proof.
  intros [Ht Hp] El Hl HD HN HL HN0 HL0. pose proof (UINT_range _ _ _ HN) as [_ RN].
  unfold simulateCycle. rewrite idle_triggered. unfold endClock, startOperation.
  destruct g as [pc r new pending time latency delay increment loop idle trigger]. cbn in Ht, Hp, El, HD. subst.
  cbn [setTriggered with_idle with_trigger trigger_ simulateTrigger]. unfold HWLOOP. rewrite HN. cbn [obind].
  destruct (Z.eqb_spec N 0); [lia|]. rewrite HL. cbn [obind]. destruct (Z.eqb_spec L 0); [lia|]. cbn. rewrite Hl.
  rewrite (u32_small (N - 1)), (u32_small (delay + 1)) by lia. cbn.
  destruct (Z.ltb_spec 0 (N - 1)), (Z.ltb_spec 1 N); try lia; cbn.
  - unfold HLOOP_advanceClock. cbn. destruct (Z.ltb_spec 0 (delay + 1)); [|lia]. cbn.
    replace (delay + 1 - 1) with delay by lia. rewrite (u32_small delay) by lia.
    eexists. split; [reflexivity|]. repeat split.
  - unfold HLOOP_advanceClock. cbn. rewrite ?Hl. cbn.
    destruct (0 <? delayCycles l); eexists; (split; [reflexivity|]); repeat split; assumption.
Qed.

(** C17: Hardware loops.  When no loop is in progress, [HWLOOP] with an iteration count and a length
    executes the delay slots and then the following [length] instructions exactly as many times as
    the count says, after which execution continues behind the body and the unit is ready for the
    next loop; addresses wrap around at 2^32.  A count or a length of zero, a loop already in progress
    and a unit without the loop's state are refused with the exceptions the operation documents. *)
Theorem hardware_loops g io k (N L D : nat) :
  quiet g -> is_u 32 (pc_ g) -> UINT 1 io = Done (Z.of_nat N) -> UINT 2 io = Done (Z.of_nat L) ->
  ControlUnit.branchDelayCycles_ g = Z.of_nat D -> Z.of_nat D < 2 ^ 31 ->
  issue k (pc_ g) = Some (op_HWLOOP, io) -> untriggered issue (S k) (D + N * L) ->
  match loop_error (Z.of_nat N) (Z.of_nat L) (loop_ g) with
  | Some e => run ra issue k 1 g = Throws e
  | None =>
    let body := u32 (pc_ g + Z.of_nat (S D)) in
    exists g', run ra issue k (S D + N * L) g = Done (span (pc_ g) (S D) ++ concat (repeat (span body L) N), g') /\
      quiet g' /\ pc_ g' = u32 (body + Z.of_nat L) /\ disabled (loop_ g')
  end.
Proof.
  intros Hq Hpc HN HL ED HD Hi Hu. destruct (loop_error _ _ _) as [e|] eqn:Ee.
  { cbn [run]. rewrite Hi, (hwloop_refused _ _ _ _ _ HN HL Ee). reflexivity. }
  unfold loop_error in Ee. destruct (Z.eqb_spec (Z.of_nat N) 0); [discriminate|].
  destruct (Z.eqb_spec (Z.of_nat L) 0); [discriminate|]. destruct (loop_ g) as [l|] eqn:El; [|discriminate].
  destruct (hwloopEnabled l) eqn:Hl; [discriminate|]. clear Ee.
  pose proof (UINT_range _ _ _ HN) as [_ RN]. pose proof (UINT_range _ _ _ HL) as [_ RL].
  destruct (hwloop_cycle g io l _ _ Hq El Hl ltac:(lia) HN HL ltac:(lia) ltac:(lia))
    as (g1 & E1 & Hq1 & _ & _ & Ep1 & El1).
  cbn zeta. change (S D + N * L)%nat with (1 + (D + N * L))%nat. rewrite run_add. cbn [run]. rewrite Hi, E1.
  cbn [obind]. replace (k + 1)%nat with (S k) by lia.
  destruct (run_quiet ra issue (D + N * L) (S k) g1 Hq1 Hu) as (g2 & -> & Hq2 & _ & _ & E2).
  cbn [obind]. exists g2. rewrite Ep1 in *.
  destruct (body_run (loop_ g1) (pc_ g) N L D ltac:(lia) ltac:(lia) ltac:(lia) ltac:(lia) ltac:(lia)) as (l' & EQ & DQ).
  { now rewrite <- ED. }
  rewrite EQ in E2 |- *. cbn [fst snd] in *. injection E2 as E2 ->. rewrite E2.
  rewrite span_S by assumption. auto.
Qed.
End HardwareLoop.

Definition loop_unit : GCUState :=
  mk_gcu 40 (immediate 0) 0 false 0 3 2 1 (Some HLOOP_SETUP_new) false None.
Definition loop_program (k : nat) (pc : Z) : option (ControlOperation * operands) :=
  match k with O => Some (op_HWLOOP, [immediate 3; immediate 2]) | _ => None end.

Lemma hardware_loops_witness : exists g', run (immediate 0) loop_program 0 9 loop_unit
  = Done ([40; 41; 42; 43; 44; 43; 44; 43; 44], g') /\ pc_ g' = 45.
Proof.
  destruct (hardware_loops (immediate 0) loop_program loop_unit [immediate 3; immediate 2] 0 3 2 2) as (g' & E & _ & P & _);
    [split; reflexivity | unfold is_u; cbn; lia | vm_compute; reflexivity.. | lia | reflexivity | |].
  - intros j a [Hj _]. destruct j; [lia | reflexivity].
  - exists g'. split; [exact E | rewrite P; reflexivity].
Defined.

(** ** Transfers of control *)

(** Where the operation goes, if it does. *)
Definition transfer (op : ControlOperation) (io : operands) (pc : Z) : outcome (option Z) :=
  let absolute n := outcome_map Some (UINT n io) in
  let relative n := outcome_map (fun d => Some (u32 (pc + d))) (INT n io) in
  let on (c : Z -> bool) (go : outcome (option Z)) := (a <~ UINT 1 io ; if c a then go else Done None) in
  match op with
  | op_JUMP | op_CALL => absolute 1%nat
  | op_JUMPR | op_CALLR => relative 1%nat
  | op_BNZ => on (fun a => negb (a =? 0)) (absolute 2%nat)
  | op_BZ1 => on Z.even (absolute 2%nat)
  | op_BNZ1 => on Z.odd (absolute 2%nat)
  | op_BNZR => on (fun a => negb (a =? 0)) (relative 2%nat)
  | op_APC | op_HWLOOP => Done None
  end.

Definition transfers (op : ControlOperation) : bool := isCall op || isBranch op.

Lemma land_1_even a : (a &&& 1 =? 0) = Z.even a.
Proof. rewrite land_1_odd, Zmod_even. now destruct (Z.even a). Qed.

Lemma simulateTrigger_transfer op io c t : transfers op = true -> transfer op io (programCounter c) = Done t ->
  simulateTrigger op io c
  = Done (io, let c := if isCall op then SAVE_RETURN_ADDRESS c else c in
              match t with Some a => SET_PROGRAM_COUNTER a c | None => c end) /\
  match t with Some a => is_u 32 a | None => isCall op = false end.
Proof.
  assert (R : forall n a, UINT n io = Done a -> is_u 32 a) by (intros n a; apply UINT_range).
  intros Ht. destruct op; try discriminate Ht; cbn [transfer simulateTrigger isCall];
    unfold JUMP, JUMPR, CALL, CALLR, BNZ, BZ1, BNZ1, BNZR; rewrite ?land_1_even, ?Z.negb_even; unfold outcome_map;
    repeat match goal with
    | |- context [UINT ?n io] => let E := fresh "E" in destruct (UINT n io) eqn:E; cbn [obind]; try discriminate;
        try apply R in E
    | |- context [INT ?n io] => destruct (INT n io); cbn [obind]; try discriminate
    | |- context [(?a &&& 1) =? 0] => rewrite (land_1_even a), ?Z.negb_even
    | |- context [if ?b then _ else _] => destruct b; cbn [obind]; try discriminate
    end; intros [= <-]; split; try reflexivity; try assumption; try apply u32_word.
  all: unfold SET_PROGRAM_COUNTER; cbn; unfold u32, uw; now rewrite Z.mod_mod.
Qed.

(** A unit whose taken transfer to [a] has [t] cycles to go. *)
Record waiting (t a : Z) (g : GCUState) : Prop := {
  waiting_trigger : trigger_ g = None;
  waiting_pending : operationPending_ g = true;
  waiting_time : operationPendingTime_ g = t;
  waiting_target : newProgramCounter_ g = a;
  waiting_idle : idle_ g = false }.

(** The clock of a cycle in which a transfer is pending. *)
Lemma advance_pending g : operationPending_ g = true -> trigger_ g = None -> disabled (loop_ g) ->
  - 2 ^ 31 < operationPendingTime_ g < 2 ^ 31 ->
  let g' := advanceClock g in
  let t := operationPendingTime_ g - 1 in
  (if t <=? 0 then quiet g' /\ pc_ g' = newProgramCounter_ g
   else waiting t (newProgramCounter_ g) g' /\ pc_ g' = pc_ g) /\
  same_unit g g' /\ returnAddressRegister_ g' = returnAddressRegister_ g /\ disabled (loop_ g').
Proof.
  intros Hp Ht Hd Hr. destruct g as [pc r new pending time latency delay increment loop idle trigger].
  cbn in Hp, Ht, Hd, Hr. subst. cbn zeta. unfold advanceClock. cbn. unfold s32.
  rewrite (sw_small 32 (time - 1)) by (unfold is_s; cbn; lia).
  destruct (time - 1 <=? 0) eqn:Et; cbn;
    (destruct loop as [l|]; cbn; [unfold HLOOP_advanceClock; cbn in Hd; rewrite Hd; destruct (0 <? delayCycles l)|]);
    cbn; repeat split; try assumption; reflexivity.
Qed.

Section Transfers.
Context (ra : SimValue) (issue : nat -> Z -> option (ControlOperation * operands)).

Lemma waiting_cycle t a g : waiting t a g -> disabled (loop_ g) -> 0 < t < 2 ^ 31 ->
  exists g', simulateCycle ra None g = Done g' /\
    (if t - 1 <=? 0 then quiet g' /\ pc_ g' = a else waiting (t - 1) a g' /\ pc_ g' = u32 (pc_ g + 1)) /\
    same_unit g g' /\ returnAddressRegister_ g' = returnAddressRegister_ g /\ disabled (loop_ g').
Proof.
  intros [Ht Hp Htime Hnew Hidle] Hd Hr. unfold simulateCycle, endClock, isIdle. rewrite Hidle, Ht.
  cbn [andb obind with_pc idle_]. rewrite Hidle. cbn [andb]. eexists. split; [reflexivity|].
  pose proof (advance_pending (with_pc (u32 (pc_ g + 1)) g)) as A. cbn in A. rewrite Htime, Hnew in A.
  destruct (A Hp Ht Hd ltac:(lia)) as (A1 & A2 & A3 & A4). repeat split; try assumption; apply A2.
Qed.

Lemma waiting_run n : forall t a k g, waiting t a g -> disabled (loop_ g) -> is_u 32 (pc_ g) -> Z.of_nat n < t < 2 ^ 31 ->
  untriggered issue k n ->
  exists g', run ra issue k n g = Done (span (pc_ g) n, g') /\ waiting (t - Z.of_nat n) a g' /\
    pc_ g' = u32 (pc_ g + Z.of_nat n) /\ same_unit g g' /\
    returnAddressRegister_ g' = returnAddressRegister_ g /\ disabled (loop_ g').
Proof.
  induction n as [|n IH]; intros t a k g Hw Hd Hpc Ht Hu.
  - exists g. cbn. rewrite Z.sub_0_r, Z.add_0_r, u32_small by assumption. auto 10 using same_refl.
  - cbn [run]. rewrite (Hu k) by lia.
    destruct (waiting_cycle t a g Hw Hd ltac:(lia)) as (g1 & -> & H1 & Hs1 & Hr1 & Hd1). cbn [obind].
    destruct (Z.leb_spec (t - 1) 0); [lia|]. destruct H1 as [Hw1 Hp1].
    destruct (IH (t - 1) a (S k) g1 Hw1 Hd1 ltac:(rewrite Hp1; apply u32_word) ltac:(lia)
                ltac:(intros j b Hj; apply Hu; lia)) as (g2 & -> & Hw2 & Hp2 & Hs2 & Hr2 & Hd2).
    cbn [obind]. exists g2. rewrite span_S, Hp1 by assumption. split; [reflexivity|].
    replace (t - Z.of_nat (S n)) with (t - 1 - Z.of_nat n) by lia. split; [assumption|].
    rewrite Hp2, Hp1, u32_add_l. split; [f_equal; lia|].
    split; [exact (same_trans _ _ _ Hs1 Hs2) | split; [congruence | assumption]].
Qed.

(** The rest of the delay slots: the transfer is made after the last. *)
Lemma waiting_done n a k g : waiting (Z.of_nat (S n)) a g -> disabled (loop_ g) -> is_u 32 (pc_ g) ->
  Z.of_nat (S n) < 2 ^ 31 -> untriggered issue k (S n) ->
  exists g', run ra issue k (S n) g = Done (span (pc_ g) (S n), g') /\ quiet g' /\ pc_ g' = a /\
    returnAddressRegister_ g' = returnAddressRegister_ g.
Proof.
  intros Hw Hd Hpc Hn Hu. replace (S n) with (n + 1)%nat by lia. rewrite run_add.
  destruct (waiting_run n _ a k g Hw Hd Hpc ltac:(lia) ltac:(intros j b Hj; apply Hu; lia))
    as (g1 & -> & Hw1 & Hp1 & _ & Hr1 & Hd1).
  cbn [obind run]. rewrite (Hu (k + n)%nat) by lia. replace (Z.of_nat (S n) - Z.of_nat n) with 1 in Hw1 by lia.
  destruct (waiting_cycle 1 a g1 Hw1 Hd1 ltac:(lia)) as (g2 & -> & H2 & _ & Hr2 & _). cbn [obind].
  destruct H2 as [Hq2 Hp2]. exists g2. rewrite span_app, Hp1, span_1 by apply u32_word.
  split; [reflexivity | split; [assumption | split; [assumption | congruence]]].
Qed.

Lemma startOperation_transfer op io g t : transfers op = true -> transfer op io (pc_ g) = Done t ->
  startOperation ra op io g
  = match t with
    | Some a => g <~ setProgramCounter a g ; Done (io, if isCall op then setReturnAddress g else g)
    | None => Done (io, g)
    end.
Proof.
  intros Ht Ho. unfold startOperation.
  destruct (simulateTrigger_transfer op io (tempContext ra g) t Ht Ho) as [-> Hr]. cbn [obind].
  assert (L : with_loop (loop_ g) g = g) by now destruct g.
  fold (transfers op). rewrite Ht. destruct t as [a|]; [|rewrite Hr; cbn; now rewrite L].
  destruct (isCall op); cbn; rewrite L, (u32_small a Hr); reflexivity.
Qed.

(** The return address is that of the instruction after the delay slots. *)
Definition return_register (op : ControlOperation) (g : GCUState) : SimValue :=
  if isCall op
  then assign_UIntWord (u32 (pc_ g + u32 (s32 (latency_ g * instructionAddressIncrement_ g)))) (returnAddressRegister_ g)
  else returnAddressRegister_ g.

Lemma taken_cycle op io g a D : quiet g -> disabled (loop_ g) -> transfers op = true ->
  transfer op io (pc_ g) = Done (Some a) -> latency_ g = D + 1 -> 0 <= D < 2 ^ 31 - 1 ->
  exists g', simulateCycle ra (Some (op, io)) g = Done g' /\
    (if D <=? 0 then quiet g' /\ pc_ g' = a else waiting D a g' /\ pc_ g' = u32 (pc_ g + 1)) /\
    same_unit g g' /\ returnAddressRegister_ g' = return_register op g /\ disabled (loop_ g').
Proof.
  intros [Ht Hp] Hd Hop Ho HD HDr. unfold simulateCycle. rewrite idle_triggered. unfold endClock.
  cbn [setTriggered with_idle with_trigger trigger_].
  pose proof (startOperation_transfer op io (with_trigger None (setTriggered op io g)) (Some a) Hop Ho) as S.
  cbn [setTriggered with_idle with_trigger] in S. rewrite S. unfold setProgramCounter.
  change (operationPending_ (with_trigger None (setTriggered op io g))) with (operationPending_ g).
  rewrite Hp. unfold outcome_map. cbn [andb obind snd].
  set (g1 := with_pc _ _).
  assert (I : isIdle g1 = false) by (unfold g1; now destruct (isCall op)). rewrite I.
  eexists. split; [reflexivity|].
  pose proof (advance_pending g1) as A. cbn zeta in A.
  replace (operationPendingTime_ g1) with (D + 1) in A by (unfold g1; destruct (isCall op); cbn; lia).
  replace (newProgramCounter_ g1) with a in A by (unfold g1; destruct (isCall op); reflexivity).
  replace (pc_ g1) with (u32 (pc_ g + 1)) in A by (unfold g1; destruct (isCall op); reflexivity).
  replace (D + 1 - 1) with D in A by lia.
  destruct A as (A1 & [B1 B2 B3] & A3 & A4); try (unfold g1; destruct (isCall op); (reflexivity || assumption)); [lia|].
  split; [exact A1|]. split; [|split; [|exact A4]].
  - unfold g1 in *. destruct (isCall op); split; assumption.
  - rewrite A3. unfold g1, return_register. now destruct (isCall op).
Qed.

Lemma untaken_cycle op io g : quiet g -> disabled (loop_ g) -> transfers op = true ->
  transfer op io (pc_ g) = Done None ->
  exists g', simulateCycle ra (Some (op, io)) g = Done g' /\ quiet g' /\ pc_ g' = u32 (pc_ g + 1) /\
    same_unit g g' /\ returnAddressRegister_ g' = returnAddressRegister_ g /\ disabled (loop_ g') /\ isCall op = false.
Proof.
  intros [Ht Hp] Hd Hop Ho. unfold simulateCycle. rewrite idle_triggered. unfold endClock.
  cbn [setTriggered with_idle with_trigger trigger_].
  pose proof (startOperation_transfer op io (with_trigger None (setTriggered op io g)) None Hop Ho) as S.
  cbn [setTriggered with_idle with_trigger] in S. rewrite S. cbn [obind outcome_map snd].
  pose proof (simulateTrigger_transfer op io (tempContext ra g) None Hop Ho) as [_ Hc].
  eexists. split; [reflexivity|]. unfold isIdle, advanceClock. cbn.
  destruct g as [pc r new pending time latency delay increment loop idle trigger]. cbn in *. subst.
  destruct loop as [l|]; cbn; [unfold HLOOP_advanceClock; cbn in Hd; rewrite Hd; destruct (0 <? delayCycles l)|];
    cbn; repeat split; assumption.
Qed.

Lemma refused_cycle op io g t a b : waiting t a g -> t < latency_ g -> transfers op = true ->
  transfer op io (pc_ g) = Done (Some b) ->
  simulateCycle ra (Some (op, io)) g = Throws (SimulatorException "Cannot have jumps in delay slots.").
Proof.
  intros [Ht Hp Htime _ _] Hl Hop Ho. unfold simulateCycle. rewrite idle_triggered. unfold endClock.
  cbn [setTriggered with_idle with_trigger trigger_].
  pose proof (startOperation_transfer op io (with_trigger None (setTriggered op io g)) (Some b) Hop Ho) as S.
  cbn [setTriggered with_idle with_trigger] in S. rewrite S. unfold setProgramCounter. cbn.
  rewrite Hp, Htime. destruct (Z.eqb_spec (latency_ g) t); [lia | reflexivity].
Qed.

Lemma return_register_reads op g : isCall op = true -> value_ok (returnAddressRegister_ g) ->
  32 <= bitWidth_ (returnAddressRegister_ g) -> latency_ g * instructionAddressIncrement_ g < 2 ^ 31 ->
  0 <= latency_ g * instructionAddressIncrement_ g ->
  unsignedValue (return_register op g) = Done (u32 (pc_ g + latency_ g * instructionAddressIncrement_ g)).
Proof.
  intros Hc Hok Hw Hl Hl0. unfold return_register. rewrite Hc. set (x := u32 (pc_ g + _)).
  assert (Hok' := assign_ok 4 x _ Hok ltac:(lia)).
  assert (Hb : bitWidth_ (assign_bytes 4 x (returnAddressRegister_ g)) = bitWidth_ (returnAddressRegister_ g)) by reflexivity.
  destruct (reads_cast _ Hok' ltac:(rewrite Hb; lia)) as (_ & _ & _ & _ & E & _).
  unfold assign_UIntWord. rewrite E, Hb, Z.min_r by lia. f_equal.
  pose proof (cast_prefix 4 8 _ Hok' ltac:(lia)) as P. rewrite cast_assign in P by lia.
  change (2 ^ (8 * Z.of_nat 4)) with (2 ^ 32) in P. unfold uw. rewrite <- P.
  unfold x, s32. rewrite (sw_small 32) by (unfold is_s; cbn in *; lia). rewrite (u32_small (latency_ g * _)) by lia.
  unfold u32, uw. now rewrite Z.mod_mod by lia.
Qed.

(** C18: Transfers of control.  A jump, call or branch executes the instructions of its delay slots,
    and then, if it is taken, continues at its target, absolute or relative to its own address, and
    otherwise behind the slots; a call leaves the address behind the slots in the return address
    register, and nothing else writes it.  A second taken transfer in a delay slot throws.  All
    addresses are modulo 2^32. *)
Theorem control_transfers g k op io t (D : nat) : quiet g -> disabled (loop_ g) -> is_u 32 (pc_ g) ->
  latency_ g = Z.of_nat D + 1 -> Z.of_nat D < 2 ^ 31 - 1 -> instructionAddressIncrement_ g = 1 ->
  value_ok (returnAddressRegister_ g) -> 32 <= bitWidth_ (returnAddressRegister_ g) ->
  transfers op = true -> issue k (pc_ g) = Some (op, io) -> transfer op io (pc_ g) = Done t ->
  let behind := u32 (pc_ g + Z.of_nat (S D)) in
  (untriggered issue (S k) D ->
   exists g', run ra issue k (S D) g = Done (span (pc_ g) (S D), g') /\ quiet g' /\
     pc_ g' = match t with Some a => a | None => behind end /\
     (if isCall op then unsignedValue (returnAddressRegister_ g') = Done behind
      else returnAddressRegister_ g' = returnAddressRegister_ g)) /\
  (forall j op2 io2 a b, t = Some a -> (j < D)%nat -> untriggered issue (S k) j ->
   let slot := u32 (pc_ g + Z.of_nat (S j)) in
   issue (S k + j)%nat slot = Some (op2, io2) -> transfers op2 = true -> transfer op2 io2 slot = Done (Some b) ->
   run ra issue k (S (S j)) g = Throws (SimulatorException "Cannot have jumps in delay slots.")).
Proof.
  intros Hq Hd Hpc HD HDr Hi Hok Hw Hop Hk Ho behind. split.
  - intros Hu. assert (RA : forall g', returnAddressRegister_ g' = return_register op g ->
      if isCall op then unsignedValue (returnAddressRegister_ g') = Done behind
      else returnAddressRegister_ g' = returnAddressRegister_ g).
    { intros g' ->. destruct (isCall op) eqn:Hc; [|unfold return_register; now rewrite Hc].
      rewrite return_register_reads by (assumption || rewrite ?HD, ?Hi; lia). unfold behind. rewrite HD, Hi. do 2 f_equal. lia. }
    cbn [run]. rewrite Hk. destruct t as [a|].
    + destruct (taken_cycle op io g a (Z.of_nat D) Hq Hd Hop Ho HD ltac:(lia)) as (g1 & -> & H1 & Hs1 & Hr1 & Hd1).
      cbn [obind]. rewrite span_S by assumption.
      destruct D as [|n]; cbn [Z.of_nat Z.leb Z.compare] in H1.
      * destruct H1 as [Hq1 Hp1]. cbn [run obind]. exists g1. specialize (RA g1 Hr1). auto.
      * destruct (Z.leb_spec (Z.of_nat (S n)) 0); [lia|]. destruct H1 as [Hw1 Hp1]. rewrite <- Hp1.
        destruct (waiting_done n a (S k) g1 Hw1 Hd1 ltac:(rewrite Hp1; apply u32_word) ltac:(lia) Hu)
          as (g2 & -> & Hq2 & Hp2 & Hr2).
        cbn [obind]. exists g2. split; [reflexivity|]. split; [assumption|]. split; [assumption|].
        apply RA. congruence.
    + destruct (untaken_cycle op io g Hq Hd Hop Ho) as (g1 & -> & Hq1 & Hp1 & _ & Hr1 & Hd1 & Hc). cbn [obind].
      destruct (run_quiet ra issue D (S k) g1 Hq1 Hu) as (g2 & -> & Hq2 & _ & Hr2 & E2). cbn [obind].
      destruct (disabled_run D (loop_ g1) (pc_ g1) ltac:(rewrite Hp1; apply u32_word) Hd1) as (l' & EQ & _).
      rewrite EQ in E2 |- *. cbn [fst snd] in *. injection E2 as _ Ep. exists g2.
      rewrite span_S, <- Hp1 by assumption. split; [reflexivity|]. split; [assumption|]. split.
      * rewrite Ep, Hp1, u32_add_l. unfold behind. f_equal. lia.
      * rewrite Hc. congruence.
  - intros j op2 io2 a b -> Hj Hu slot Hk2 Hop2 Ho2. replace (S (S j)) with (1 + (j + 1))%nat by lia. rewrite run_add.
    cbn [run]. rewrite Hk.
    destruct (taken_cycle op io g a (Z.of_nat D) Hq Hd Hop Ho HD ltac:(lia)) as (g1 & -> & H1 & [Hl1 _ _] & Hr1 & Hd1).
    destruct (Z.leb_spec (Z.of_nat D) 0); [lia|]. destruct H1 as [Hw1 Hp1]. cbn [obind].
    rewrite run_add. replace (k + 1)%nat with (S k) by lia.
    destruct (waiting_run j _ a (S k) g1 Hw1 Hd1 ltac:(rewrite Hp1; apply u32_word) ltac:(lia) Hu)
      as (g2 & -> & Hw2 & Hp2 & [Hl2 _ _] & _ & _).
    assert (Es : pc_ g2 = slot) by (rewrite Hp2, Hp1, u32_add_l; unfold slot; f_equal; lia).
    cbn [obind run]. rewrite Es, Hk2.
    rewrite (refused_cycle op2 io2 g2 _ a b Hw2) by (try assumption; rewrite ?Es; try assumption; lia). reflexivity.
Qed.
End Transfers.

Definition call_unit (ra : SimValue) : GCUState := mk_gcu 40 ra 0 false 0 3 2 1 None false None.
Definition call_program (k : nat) (pc : Z) : option (ControlOperation * operands) :=
  match k with O => Some (op_CALLR, [immediate (2 ^ 32 - 8)]) | _ => None end.

Lemma control_transfers_witness : exists v g', SimValue_width memory0 64 = Done v /\
  run (immediate 0) call_program 0 3 (call_unit v) = Done ([40; 41; 42], g') /\
  pc_ g' = 32 /\ unsignedValue (returnAddressRegister_ g') = Done 43.
Proof.
  destruct (setBitWidth_ok memory0 64 eq_refl (repeat_range 512 0 ltac:(unfold is_u; lia)) ltac:(unfold SIMD_WORD_WIDTH; lia))
    as (v & E & Hok & Hw & _).
  destruct (control_transfers (immediate 0) call_program (call_unit v) 0 op_CALLR [immediate (2 ^ 32 - 8)] (Some 32) 2)
    as [H _];
    [split; reflexivity | exact I | unfold is_u; cbn; lia | reflexivity | lia | reflexivity | exact Hok
    | cbn [call_unit returnAddressRegister_]; lia | reflexivity.. | vm_compute; reflexivity |].
  destruct H as (g' & R & _ & P & U); [intros j a [Hj _]; destruct j; [lia | reflexivity]|].
  exists v, g'. split; [exact E | split; [exact R | split; [exact P | exact U]]].
Defined.

(** A reset forgets the entry address it was given, and leaves a loop in progress. *)
Lemma reset_starts_at_zero entry g : pc_ (SimulationController_reset entry g) = 0 /\
  loop_ (SimulationController_reset entry g) = loop_ g.
Proof. split; reflexivity. Qed.
