(* ===== verification/BaseInt.v ===== *)
(** * Integer operations of the base library (opset/base/base.cc)

    One definition per [OPERATION], over the operand values.  Signed overflow, shifts by the width
    or more and divisions that overflow are undefined in the C++ code. *)

From Stdlib Require String.
From S2P Require Import Prelude.
From S2P Require Import CInt.
From S2P Require Import Cpp.
From S2P Require Import SimValue.
From S2P Require Import OSAL.
Import String.StringSyntax.
#[local] Open Scope cpp_scope.
#[local] Open Scope string_scope.
#[local] Open Scope Z_scope.

Definition trigger := operands -> outcome operands.

(** ** Addition, subtraction, multiplication *)

Definition ADD : trigger := fun io =>
  a <~ UINT 1 io ; b <~ UINT 2 io ; IO 3 (as_uint (u32 (a + b))) io.
Definition ADD64 : trigger := fun io =>
  a <~ ULONG 1 io ; b <~ ULONG 2 io ; IO 3 (as_ulong (u64 (a + b))) io.
Definition SUB : trigger := fun io =>
  a <~ UINT 1 io ; b <~ UINT 2 io ; IO 3 (as_uint (u32 (a - b))) io.
Definition SUB64 : trigger := fun io =>
  a <~ ULONG 1 io ; b <~ ULONG 2 io ; IO 3 (as_ulong (u64 (a - b))) io.
Definition MUL : trigger := fun io =>
  a <~ UINT 1 io ; b <~ UINT 2 io ; IO 3 (as_uint (u32 (a * b))) io.
Definition MUL64 : trigger := fun io =>
  a <~ ULONG 1 io ; b <~ ULONG 2 io ; IO 3 (as_ulong (u64 (a * b))) io.

(** The products are computed in [long long], the unsigned operands too. *)
Definition MULHI : trigger := fun io =>
  in1 <~ INT 1 io ; in2 <~ INT 2 io ;
  tmp <~ checked_signed 64 (in1 * in2) ; IO 3 (as_int (s32 (tmp >> 32))) io.
Definition MULHIU : trigger := fun io =>
  in1 <~ UINT 1 io ; in2 <~ UINT 2 io ;
  tmp <~ checked_signed 64 (in1 * in2) ; IO 3 (as_uint (u32 (tmp >> 32))) io.
Definition MULHISU : trigger := fun io =>
  in1 <~ INT 1 io ; in2 <~ UINT 2 io ;
  tmp <~ checked_signed 64 (in1 * in2) ; IO 3 (as_uint (u32 (tmp >> 32))) io.

(** ** Division *)

Definition divide_by_zero {A : Type} : outcome A := RUNTIME_ERROR "Divide by zero.".

(** [a % b] is undefined where [a / b] is. *)
Definition remainder_op (w a b : Z) : outcome Z := _ <~ division signed_op w a b ; Done (Z.rem a b).

Definition DIV : trigger := fun io =>
  b <~ UINT 2 io ;
  if b =? 0 then divide_by_zero
  else a <~ UINT 1 io ; q <~ division signed_op 32 (s32 a) (s32 b) ; IO 3 (as_int q) io.
Definition DIVU : trigger := fun io =>
  b <~ UINT 2 io ;
  if b =? 0 then divide_by_zero
  else a <~ UINT 1 io ; q <~ division unsigned_op 32 a b ; IO 3 (as_uint q) io.
Definition DIV64 : trigger := fun io =>
  b <~ ULONG 2 io ;
  if b =? 0 then divide_by_zero
  else a <~ LONG 1 io ; b <~ LONG 2 io ; q <~ division signed_op 64 a b ; IO 3 (as_long q) io.
Definition DIVU64 : trigger := fun io =>
  b <~ ULONG 2 io ;
  if b =? 0 then divide_by_zero
  else a <~ ULONG 1 io ; q <~ division unsigned_op 64 a b ; IO 3 (as_ulong q) io.
Definition MOD : trigger := fun io =>
  b <~ UINT 2 io ;
  if b =? 0 then divide_by_zero
  else a <~ UINT 1 io ; r <~ remainder_op 32 (s32 a) (s32 b) ; IO 3 (as_int r) io.
Definition MOD64 : trigger := fun io =>
  b <~ LONG 2 io ;
  if b =? 0 then divide_by_zero
  else a <~ LONG 1 io ; r <~ remainder_op 64 a b ; IO 3 (as_long r) io.
Definition MODU : trigger := fun io =>
  b <~ UINT 2 io ;
  if b =? 0 then divide_by_zero
  else a <~ UINT 1 io ; requires negb (b =? 0) ; IO 3 (as_uint (Z.rem a b)) io.
Definition MODU64 : trigger := fun io =>
  b <~ ULONG 2 io ;
  if b =? 0 then divide_by_zero
  else a <~ ULONG 1 io ; requires negb (b =? 0) ; IO 3 (as_ulong (Z.rem a b)) io.

(** [remainder] of the C library on integers, which [double] holds exactly: the quotient is rounded
    to nearest, ties to even. *)
Definition c_remainder (a b : Z) : Z :=
  let q := a / Z.abs b in
  let r := a mod Z.abs b in
  if (Z.abs b <? 2 * r) || ((2 * r =? Z.abs b) && Z.odd q) then r - Z.abs b else r.

Definition REM : trigger := fun io =>
  b <~ UINT 2 io ;
  if b =? 0 then divide_by_zero
  else a <~ UINT 1 io ; IO 3 (as_int (c_remainder (s32 a) (s32 b))) io.

(** Converting a negative [double] to an unsigned type is undefined. *)
Definition REMU : trigger := fun io =>
  b <~ UINT 2 io ;
  if b =? 0 then divide_by_zero
  else a <~ UINT 1 io ; requires 0 <=? c_remainder a b ; IO 3 (as_uint (c_remainder a b)) io.

(** ** Comparisons *)

Definition EQ : trigger := fun io =>
  a <~ UINT 1 io ; b <~ UINT 2 io ; if a =? b then IO 3 (as_int 1) io else IO 3 (as_int 0) io.
Definition EQ64 : trigger := fun io =>
  a <~ ULONG 1 io ; b <~ ULONG 2 io ; if a =? b then IO 3 (as_long 1) io else IO 3 (as_long 0) io.
Definition GT : trigger := fun io =>
  a <~ UINT 1 io ; b <~ UINT 2 io ; IO 3 (as_int (b2z (s32 b <? s32 a))) io.
Definition GT64 : trigger := fun io =>
  a <~ LONG 1 io ; b <~ LONG 2 io ; IO 3 (as_long (b2z (b <? a))) io.
Definition GTU : trigger := fun io =>
  a <~ UINT 1 io ; b <~ UINT 2 io ; IO 3 (as_int (b2z (b <? a))) io.
Definition GTU64 : trigger := fun io =>
  a <~ ULONG 1 io ; b <~ ULONG 2 io ; IO 3 (as_int (b2z (b <? a))) io.

Definition MIN : trigger := fun io =>
  a <~ INT 1 io ; b <~ INT 2 io ; IO 3 (as_int (if a <? b then a else b)) io.
Definition MIN64 : trigger := fun io =>
  a <~ LONG 1 io ; b <~ LONG 2 io ; IO 3 (as_long (if a <? b then a else b)) io.
Definition MAX : trigger := fun io =>
  a <~ INT 1 io ; b <~ INT 2 io ; IO 3 (as_int (if b <? a then a else b)) io.
Definition MAX64 : trigger := fun io =>
  a <~ LONG 1 io ; b <~ LONG 2 io ; IO 3 (as_long (if a <? b then b else a)) io.
Definition MINU : trigger := fun io =>
  a <~ UINT 1 io ; b <~ UINT 2 io ; if a <? b then IO 3 (as_uint a) io else IO 3 (as_uint b) io.
Definition MINU64 : trigger := fun io =>
  a <~ ULONG 1 io ; b <~ ULONG 2 io ; if a <? b then IO 3 (as_ulong a) io else IO 3 (as_ulong b) io.
Definition MAXU : trigger := fun io =>
  a <~ UINT 1 io ; b <~ UINT 2 io ; if b <? a then IO 3 (as_uint a) io else IO 3 (as_uint b) io.
Definition MAXU64 : trigger := fun io =>
  a <~ ULONG 1 io ; b <~ ULONG 2 io ; if b <? a then IO 3 (as_ulong a) io else IO 3 (as_ulong b) io.

(** ** Shifts and rotations *)

Definition OSAL_WORD_WIDTH : Z := 64.
Definition minimum (x y : Z) : Z := if x <? y then x else y.

Definition SHL : trigger := fun io =>
  a <~ UINT 1 io ; b <~ UINT 2 io ; x <~ shl 32 a b ; IO 3 (as_uint x) io.
Definition SHL64 : trigger := fun io =>
  a <~ ULONG 1 io ; b <~ ULONG 2 io ; x <~ shl 64 a b ; IO 3 (as_ulong x) io.
Definition SHR : trigger := fun io =>
  a <~ UINT 1 io ; b <~ UINT 2 io ; w <~ BWIDTH 1 io ;
  if minimum (s32 w) OSAL_WORD_WIDTH <? s32 b then IO 3 (as_int 0) io
  else x <~ shr 32 (s32 a) (s32 b) ; IO 3 (as_int x) io.
Definition SHR64 : trigger := fun io =>
  a <~ LONG 1 io ; b <~ LONG 2 io ; w <~ BWIDTH 1 io ;
  if minimum w OSAL_WORD_WIDTH <? b then IO 3 (as_int 0) io
  else x <~ shr 64 a b ; IO 3 (as_long x) io.
Definition SHRU : trigger := fun io =>
  a <~ UINT 1 io ; b <~ UINT 2 io ; w <~ BWIDTH 1 io ;
  if minimum (u32 w) OSAL_WORD_WIDTH <? b then IO 3 (as_int 0) io
  else x <~ shr 32 a b ; IO 3 (as_uint x) io.
Definition SHRU64 : trigger := fun io =>
  a <~ ULONG 1 io ; b <~ ULONG 2 io ;
  if 64 <? b then IO 3 (as_long 0) io
  else x <~ shr 64 a b ; IO 3 (as_ulong x) io.

Definition ROTL : trigger := fun io =>
  in1 <~ UINT 1 io ; in2 <~ UINT 2 io ;
  let in2 := in2 mod 32 in
  up <~ shl 32 in1 in2 ; down <~ shr 32 in1 (32 - in2) ; IO 3 (as_uint (up ||| down)) io.
Definition ROTL64 : trigger := fun io =>
  in1 <~ ULONG 1 io ; in2 <~ ULONG 2 io ;
  let in2 := in2 mod 64 in
  up <~ shl 64 in1 in2 ; down <~ shr 64 in1 (64 - in2) ; IO 3 (as_ulong (up ||| down)) io.
Definition ROTR : trigger := fun io =>
  in1 <~ outcome_map u32 (ULONG 1 io) ; in2 <~ outcome_map u32 (ULONG 2 io) ;
  let in2 := in2 mod 32 in
  down <~ shr 32 in1 in2 ; up <~ shl 32 in1 (32 - in2) ; IO 3 (as_uint (down ||| up)) io.
Definition ROTR64 : trigger := fun io =>
  in1 <~ ULONG 1 io ; in2 <~ ULONG 2 io ;
  let in2 := in2 mod 64 in
  down <~ shr 64 in1 in2 ; up <~ shl 64 in1 (64 - in2) ; IO 3 (as_ulong (down ||| up)) io.

(** ** Bits *)

Definition AND : trigger := fun io =>
  a <~ UINT 1 io ; b <~ UINT 2 io ; IO 3 (as_uint (a &&& b)) io.
Definition AND64 : trigger := fun io =>
  a <~ ULONG 1 io ; b <~ ULONG 2 io ; IO 3 (as_ulong (a &&& b)) io.
Definition IOR : trigger := fun io =>
  a <~ UINT 1 io ; b <~ UINT 2 io ; IO 3 (as_uint (a ||| b)) io.
Definition IOR64 : trigger := fun io =>
  a <~ ULONG 1 io ; b <~ ULONG 2 io ; IO 3 (as_ulong (a ||| b)) io.
Definition XOR : trigger := fun io =>
  a <~ UINT 1 io ; b <~ UINT 2 io ; IO 3 (as_uint (a ^^^ b)) io.
Definition XOR64 : trigger := fun io =>
  a <~ ULONG 1 io ; b <~ ULONG 2 io ; IO 3 (as_ulong (a ^^^ b)) io.
Definition NOT : trigger := fun io =>
  in1 <~ UINT 1 io ; IO 2 (as_int (Z.lnot (s32 in1))) io.
Definition NOT64 : trigger := fun io =>
  in1 <~ ULONG 1 io ; IO 2 (as_long (Z.lnot (s64 in1))) io.

(** The position is counted from the top; the loop tries one shift too many. *)
Definition LMBD : trigger := fun io =>
  word <~ UINT 1 io ;
  bitToSearch <~ outcome_map u32 (INT 2 io) ;
  if 1 <? bitToSearch then RUNTIME_ERROR "LMDB's 2nd operand must be 0 or 1!"
  else
    match while 34 (fun '(foundBits, word) => (foundBits <=? 32) && negb (word >> 31 =? bitToSearch))
            (fun '(foundBits, word) => (foundBits + 1, u32 (word << 1))) (0, word) with
    | Some (foundBits, _) => IO 3 (as_int foundBits) io
    | None => Undefined
    end.

(** ** Signs and extension *)

Definition NEG : trigger := fun io =>
  in1 <~ UINT 1 io ; x <~ checked_signed 32 (- s32 in1) ; IO 2 (as_int x) io.
Definition NEG64 : trigger := fun io =>
  in1 <~ LONG 1 io ; x <~ checked_signed 64 (- in1) ; IO 2 (as_long x) io.
Definition ABS : trigger := fun io =>
  in1 <~ UINT 1 io ;
  temp <~ (if s32 in1 <? 0 then checked_signed 32 (- s32 in1) else Done (s32 in1)) ; IO 2 (as_int temp) io.
Definition ABS64 : trigger := fun io =>
  in1 <~ LONG 1 io ;
  temp <~ (if in1 <? 0 then checked_signed 64 (- in1) else Done in1) ; IO 2 (as_long temp) io.

Definition SXBW : trigger := fun io => a <~ UINT 1 io ; x <~ SIGN_EXTEND a 1 ; IO 2 (as_long x) io.
Definition SXQW : trigger := fun io => a <~ UINT 1 io ; x <~ SIGN_EXTEND a 8 ; IO 2 (as_long x) io.
Definition SXHW : trigger := fun io => a <~ UINT 1 io ; x <~ SIGN_EXTEND a 16 ; IO 2 (as_long x) io.
Definition SXB64 : trigger := fun io => a <~ ULONG 1 io ; x <~ SIGN_EXTEND a 1 ; IO 2 (as_long x) io.
Definition SXQ64 : trigger := fun io => a <~ ULONG 1 io ; x <~ SIGN_EXTEND a 8 ; IO 2 (as_long x) io.
Definition SXH64 : trigger := fun io => a <~ ULONG 1 io ; x <~ SIGN_EXTEND a 16 ; IO 2 (as_long x) io.
Definition SXW64 : trigger := fun io => a <~ ULONG 1 io ; x <~ SIGN_EXTEND a 32 ; IO 2 (as_long x) io.
Definition ZXW64 : trigger := fun io => a <~ ULONG 1 io ; x <~ ZERO_EXTEND a 32 ; IO 2 (as_ulong x) io.
Definition TRUNCWH : trigger := fun io => a <~ UINT 1 io ; x <~ ZERO_EXTEND a 16 ; IO 2 (as_ulong x) io.

(** ** Moves *)

Definition SELECT : trigger := fun io =>
  c <~ UINT 3 io ;
  if truthy (c &&& 1) then a <~ operand 1 io ; IO 4 (as_value a) io else b <~ operand 2 io ; IO 4 (as_value b) io.
Definition SELECT64 : trigger := fun io =>
  c <~ ULONG 3 io ;
  if truthy (c &&& 1) then a <~ operand 1 io ; IO 4 (as_value a) io else b <~ operand 2 io ; IO 4 (as_value b) io.

(** The same value to each of the outputs, in order. *)
Fixpoint broadcast (n k : nat) (io : operands) : outcome operands :=
  match n with
  | O => Done io
  | S n => a <~ operand 1 io ; io <~ IO k (as_value a) io ; broadcast n (S k) io
  end.
Definition BCAST2 : trigger := broadcast 2 2.
Definition BCAST4 : trigger := broadcast 4 2.
Definition BCAST8 : trigger := broadcast 8 2.

Definition port (w x : Z) : SimValue := mk_value (bytes_of 512 x) w (if w <? 64 then 2 ^ w - 1 else 2 ^ 64 - 1).

Example divide : (io <~ DIV [port 32 (2 ^ 32 - 7); port 32 2; port 32 0] ; INT 3 io) = Done (-3).
Proof. vm_compute. reflexivity. Qed.
Example leftmost : (io <~ LMBD [port 32 0x00100000; port 32 1; port 32 0] ; UINT 3 io) = Done 11.
Proof. vm_compute. reflexivity. Qed.
Example leftmost_of_none : (io <~ LMBD [port 32 0; port 32 1; port 32 0] ; UINT 3 io) = Done 33.
Proof. vm_compute. reflexivity. Qed.
