(* ===== verification/BaseIntSpec.v ===== *)
(** * What the integer operations compute

    A table of the base library's integer operations over the numbers their operands hold, and the
    proof that each definition of [BaseInt] implements its line of the table. *)

From Stdlib Require String.
From S2P Require Import Prelude.
From S2P Require Import CInt.
From S2P Require Import Cpp.
From S2P Require Import MathTools.
From S2P Require Import SimValue.
From S2P Require Import SimValueLaws.
From S2P Require Import OSAL.
From S2P Require Import BaseInt.
Import String.StringSyntax.
#[local] Open Scope cpp_scope.
#[local] Open Scope string_scope.
#[local] Open Scope Z_scope.
#[local] Open Scope list_scope.

(** ** The table *)

(** A number, of which so many bytes are written to the result, an exception, or nothing the C++
    language promises. *)
Inductive result :=
| Value (bytes : nat) (x : Z)
| Fails (e : exception)
| Unspecified.

Inductive Binary :=
| ADD_ | ADD64_ | SUB_ | SUB64_ | MUL_ | MUL64_ | MULHI_ | MULHIU_ | MULHISU_
| DIV_ | DIVU_ | DIV64_ | DIVU64_ | MOD_ | MODU_ | MOD64_ | MODU64_ | REM_ | REMU_
| EQ_ | EQ64_ | GT_ | GT64_ | GTU_ | GTU64_ | MIN_ | MIN64_ | MAX_ | MAX64_ | MINU_ | MINU64_ | MAXU_ | MAXU64_
| SHL_ | SHL64_ | SHR_ | SHR64_ | SHRU_ | SHRU64_ | ROTL_ | ROTL64_ | ROTR_ | ROTR64_
| AND_ | AND64_ | IOR_ | IOR64_ | XOR_ | XOR64_ | LMBD_.

Inductive Unary :=
| NEG_ | NEG64_ | ABS_ | ABS64_ | NOT_ | NOT64_
| SXBW_ | SXQW_ | SXHW_ | SXB64_ | SXQ64_ | SXH64_ | SXW64_ | ZXW64_ | TRUNCWH_.

Definition binary_trigger (op : Binary) : trigger :=
  match op with
  | ADD_ => ADD | ADD64_ => ADD64 | SUB_ => SUB | SUB64_ => SUB64 | MUL_ => MUL | MUL64_ => MUL64
  | MULHI_ => MULHI | MULHIU_ => MULHIU | MULHISU_ => MULHISU
  | DIV_ => DIV | DIVU_ => DIVU | DIV64_ => DIV64 | DIVU64_ => DIVU64
  | MOD_ => MOD | MODU_ => MODU | MOD64_ => MOD64 | MODU64_ => MODU64 | REM_ => REM | REMU_ => REMU
  | EQ_ => EQ | EQ64_ => EQ64 | GT_ => GT | GT64_ => GT64 | GTU_ => GTU | GTU64_ => GTU64
  | MIN_ => MIN | MIN64_ => MIN64 | MAX_ => MAX | MAX64_ => MAX64
  | MINU_ => MINU | MINU64_ => MINU64 | MAXU_ => MAXU | MAXU64_ => MAXU64
  | SHL_ => SHL | SHL64_ => SHL64 | SHR_ => SHR | SHR64_ => SHR64 | SHRU_ => SHRU | SHRU64_ => SHRU64
  | ROTL_ => ROTL | ROTL64_ => ROTL64 | ROTR_ => ROTR | ROTR64_ => ROTR64
  | AND_ => AND | AND64_ => AND64 | IOR_ => IOR | IOR64_ => IOR64 | XOR_ => XOR | XOR64_ => XOR64 | LMBD_ => LMBD
  end.

Definition unary_trigger (op : Unary) : trigger :=
  match op with
  | NEG_ => NEG | NEG64_ => NEG64 | ABS_ => ABS | ABS64_ => ABS64 | NOT_ => NOT | NOT64_ => NOT64
  | SXBW_ => SXBW | SXQW_ => SXQW | SXHW_ => SXHW | SXB64_ => SXB64 | SXQ64_ => SXQ64 | SXH64_ => SXH64
  | SXW64_ => SXW64 | ZXW64_ => ZXW64 | TRUNCWH_ => TRUNCWH
  end.

(** The width of the operands an operation is for. *)
Definition binary_bits (op : Binary) : Z :=
  match op with
  | ADD64_ | SUB64_ | MUL64_ | DIV64_ | DIVU64_ | MOD64_ | MODU64_ | EQ64_ | GT64_ | GTU64_ | MIN64_ | MAX64_
  | MINU64_ | MAXU64_ | SHL64_ | SHR64_ | SHRU64_ | ROTL64_ | ROTR64_ | AND64_ | IOR64_ | XOR64_ => 64
  | _ => 32
  end.

Definition unary_bits (op : Unary) : Z :=
  match op with
  | NEG64_ | ABS64_ | NOT64_ | SXB64_ | SXQ64_ | SXH64_ | SXW64_ | ZXW64_ => 64
  | _ => 32
  end.

Definition zero_divisor : result := Fails (SimulationExecutionError "Divide by zero." None).

(** A signed result that must fit its type. *)
Definition fits (w : Z) (n : nat) (x : Z) : result :=
  if (- 2 ^ (w - 1) <=? x) && (x <? 2 ^ (w - 1)) then Value n x else Unspecified.

(** [w] is the width of the operation, [n] its size in bytes. *)
Definition quotient (w : Z) (n : nat) (a b : Z) : result := if b =? 0 then zero_divisor else fits w n (Z.quot a b).
Definition remainder (w : Z) (n : nat) (a b : Z) : result :=
  if b =? 0 then zero_divisor
  else match fits w n (Z.quot a b) with Unspecified => Unspecified | _ => Value n (Z.rem a b) end.

(** A right shift gives zero when the count exceeds the width of the port, 64 at most. *)
Definition right_shift (w : Z) (n : nat) (limit a b : Z) : result :=
  if limit <? b then Value n 0
  else if (0 <=? b) && (b <? w) then Value n (a / 2 ^ b) else Unspecified.

Definition rotation (w : Z) (n : nat) (a k : Z) : result :=
  if k =? 0 then Unspecified else Value n (a * 2 ^ k + a / 2 ^ (w - k)).

(** The number of bits above the leftmost one. *)
Definition leading (a none : Z) : Z := if a =? 0 then none else 31 - Z.log2 a.

Definition binary_spec (op : Binary) (width a b : Z) : result :=
  match op with
  | ADD_ => Value 4 (a + b) | SUB_ => Value 4 (a - b) | MUL_ => Value 4 (a * b)
  | ADD64_ => Value 8 (a + b) | SUB64_ => Value 8 (a - b) | MUL64_ => Value 8 (a * b)
  | MULHI_ => Value 4 (s32 a * s32 b / 2 ^ 32)
  | MULHIU_ => if u32 a * u32 b <? 2 ^ 63 then Value 4 (u32 a * u32 b / 2 ^ 32) else Unspecified
  | MULHISU_ => Value 4 (s32 a * u32 b / 2 ^ 32)
  | DIV_ => quotient 32 4 (s32 a) (s32 b) | DIV64_ => quotient 64 8 (s64 a) (s64 b)
  | DIVU_ => if u32 b =? 0 then zero_divisor else Value 4 (u32 a / u32 b)
  | DIVU64_ => if u64 b =? 0 then zero_divisor else Value 8 (u64 a / u64 b)
  | MOD_ => remainder 32 4 (s32 a) (s32 b) | MOD64_ => remainder 64 8 (s64 a) (s64 b)
  | MODU_ => if u32 b =? 0 then zero_divisor else Value 4 (u32 a mod u32 b)
  | MODU64_ => if u64 b =? 0 then zero_divisor else Value 8 (u64 a mod u64 b)
  | REM_ => if s32 b =? 0 then zero_divisor else Value 4 (c_remainder (s32 a) (s32 b))
  | REMU_ => if u32 b =? 0 then zero_divisor
             else if c_remainder (u32 a) (u32 b) <? 0 then Unspecified else Value 4 (c_remainder (u32 a) (u32 b))
  | EQ_ => Value 4 (b2z (u32 a =? u32 b)) | EQ64_ => Value 8 (b2z (u64 a =? u64 b))
  | GT_ => Value 4 (b2z (s32 b <? s32 a)) | GT64_ => Value 8 (b2z (s64 b <? s64 a))
  | GTU_ => Value 4 (b2z (u32 b <? u32 a)) | GTU64_ => Value 4 (b2z (u64 b <? u64 a))
  | MIN_ => Value 4 (Z.min (s32 a) (s32 b)) | MIN64_ => Value 8 (Z.min (s64 a) (s64 b))
  | MAX_ => Value 4 (Z.max (s32 a) (s32 b)) | MAX64_ => Value 8 (Z.max (s64 a) (s64 b))
  | MINU_ => Value 4 (Z.min (u32 a) (u32 b)) | MINU64_ => Value 8 (Z.min (u64 a) (u64 b))
  | MAXU_ => Value 4 (Z.max (u32 a) (u32 b)) | MAXU64_ => Value 8 (Z.max (u64 a) (u64 b))
  | SHL_ => if u32 b <? 32 then Value 4 (a * 2 ^ u32 b) else Unspecified
  | SHL64_ => if u64 b <? 64 then Value 8 (a * 2 ^ u64 b) else Unspecified
  | SHR_ => right_shift 32 4 (Z.min width 64) (s32 a) (s32 b)
  | SHR64_ => if Z.min width 64 <? s64 b then Value 4 0 else right_shift 64 8 (Z.min width 64) (s64 a) (s64 b)
  | SHRU_ => right_shift 32 4 (Z.min width 64) (u32 a) (u32 b)
  | SHRU64_ => right_shift 64 8 64 (u64 a) (u64 b)
  | ROTL_ => rotation 32 4 (u32 a) (b mod 32) | ROTL64_ => rotation 64 8 (u64 a) (b mod 64)
  | ROTR_ => rotation 32 4 (u32 a) ((- b) mod 32) | ROTR64_ => rotation 64 8 (u64 a) ((- b) mod 64)
  | AND_ => Value 4 (a &&& b) | IOR_ => Value 4 (a ||| b) | XOR_ => Value 4 (a ^^^ b)
  | AND64_ => Value 8 (a &&& b) | IOR64_ => Value 8 (a ||| b) | XOR64_ => Value 8 (a ^^^ b)
  | LMBD_ => if u32 b =? 0 then Value 4 (leading (2 ^ 32 - 1 - u32 a) 32)
             else if u32 b =? 1 then Value 4 (leading (u32 a) 33)
             else Fails (SimulationExecutionError "LMDB's 2nd operand must be 0 or 1!" None)
  end.

Definition unary_spec (op : Unary) (a : Z) : result :=
  match op with
  | NEG_ => fits 32 4 (- s32 a) | NEG64_ => fits 64 8 (- s64 a)
  | ABS_ => fits 32 4 (Z.abs (s32 a)) | ABS64_ => fits 64 8 (Z.abs (s64 a))
  | NOT_ => Value 4 (- a - 1) | NOT64_ => Value 8 (- a - 1)
  | SXBW_ | SXB64_ => Value 8 (sw 1 a) | SXQW_ | SXQ64_ => Value 8 (sw 8 a) | SXHW_ | SXH64_ => Value 8 (sw 16 a)
  | SXW64_ => Value 8 (sw 32 a) | ZXW64_ => Value 8 (uw 32 a) | TRUNCWH_ => Value 8 (uw 16 a)
  end.

(** The result is written over the first bytes of the last operand. *)
Definition deliver (r : result) (n : nat) (io : operands) (out : SimValue) : outcome operands :=
  match r with
  | Value k x => Done (replace_nth (n - 1) (assign_bytes k x out) io)
  | Fails e => Throws e
  | Unspecified => Undefined
  end.

(** ** Reading and writing operands *)

(** [v] holds the number [a] in a port of at least [w] bits. *)
Definition holds (w : Z) (v : SimValue) (a : Z) : Prop := w <= bitWidth_ v /\ bitWidth_ v <= SIMD_WORD_WIDTH /\ reads v a.

Lemma bytes_of_mod n x : bytes_of n (x mod 2 ^ (8 * Z.of_nat n)) = bytes_of n x.
Proof.
  apply (nth_ext _ _ 0 0); [now rewrite !bytes_of_length|]. intros i Hi. rewrite bytes_of_length in Hi.
  rewrite !nth_bytes_of by assumption. change 256 with (2 ^ 8).
  apply Z.bits_inj'. intros j Hj. destruct (Z.ltb_spec j 8).
  - rewrite !Z.mod_pow2_bits_low, !Z.div_pow2_bits by lia. apply Z.mod_pow2_bits_low. lia.
  - now rewrite !Z.mod_pow2_bits_high by lia.
Qed.

Lemma assign_bytes_cong n x y v : x mod 2 ^ (8 * Z.of_nat n) = y mod 2 ^ (8 * Z.of_nat n) ->
  assign_bytes n x v = assign_bytes n y v.
Proof. intros H. unfold assign_bytes. now rewrite <- (bytes_of_mod n x), <- (bytes_of_mod n y), H. Qed.

Lemma assign_4 x y v : u32 x = u32 y -> assign_bytes 4 x v = assign_bytes 4 y v.
Proof. apply (assign_bytes_cong 4). Qed.

Lemma assign_8 x y v : u64 x = u64 y -> assign_bytes 8 x v = assign_bytes 8 y v.
Proof. apply (assign_bytes_cong 8). Qed.

Section Reads.
Context (v : SimValue) (a : Z).

Lemma holds_unsigned w : 32 <= w -> holds w v a -> unsignedValue v = Done (u32 a).
Proof. intros Hw (H1 & _ & _ & _ & _ & _ & H & _). now rewrite Z.min_r in H by lia. Qed.

Lemma holds_int w : 32 <= w -> holds w v a -> intValue v = Done (s32 a).
Proof. intros Hw (H1 & _ & _ & _ & _ & _ & _ & H). now rewrite Z.min_r in H by lia. Qed.

Lemma holds_ulong : holds 64 v a -> uLongWordValue v = u64 a.
Proof. intros (H1 & _ & H & _). now rewrite Z.min_r in H by lia. Qed.

Lemma holds_long : holds 64 v a -> sLongWordValue v = Done (s64 a).
Proof. intros (H1 & _ & _ & H & _). now rewrite Z.min_r in H by lia. Qed.

Lemma holds_low_ulong : holds 32 v a -> u32 (uLongWordValue v) = u32 a.
Proof. intros (H1 & _ & H & _). rewrite H. apply (uw_uw 32). lia. Qed.
End Reads.

(** ** The operations *)

(** The assignments of the two integer widths, signed or not. *)
Lemma deliver_4 n io out x y : operand n io = Done out -> u32 x = u32 y ->
  IO n (as_uint x) io = deliver (Value 4 y) n io out /\ IO n (as_int x) io = deliver (Value 4 y) n io out.
Proof.
  intros Ho H. unfold IO, as_uint, as_int, assign_UIntWord, assign_SIntWord. rewrite Ho. cbn [obind deliver].
  now rewrite (assign_4 _ _ _ H).
Qed.

Lemma deliver_8 n io out x y : operand n io = Done out -> u64 x = u64 y ->
  IO n (as_ulong x) io = deliver (Value 8 y) n io out /\ IO n (as_long x) io = deliver (Value 8 y) n io out.
Proof.
  intros Ho H. unfold IO, as_ulong, as_long, assign_ULongWord, assign_SLongWord. rewrite Ho. cbn [obind deliver].
  now rewrite (assign_8 _ _ _ H).
Qed.

Section Binary.
Context (v1 v2 out : SimValue) (a b : Z).
Let io := [v1; v2; out].

Section Wide32.
Context (H1 : holds 32 v1 a) (H2 : holds 32 v2 b).

Lemma UINT_1 : UINT 1 io = Done (u32 a). Proof. exact (holds_unsigned _ _ 32 ltac:(lia) H1). Qed.
Lemma UINT_2 : UINT 2 io = Done (u32 b). Proof. exact (holds_unsigned _ _ 32 ltac:(lia) H2). Qed.
Lemma INT_1 : INT 1 io = Done (s32 a). Proof. exact (holds_int _ _ 32 ltac:(lia) H1). Qed.
Lemma INT_2 : INT 2 io = Done (s32 b). Proof. exact (holds_int _ _ 32 ltac:(lia) H2). Qed.
Lemma low_ULONG_1 : outcome_map u32 (ULONG 1 io) = Done (u32 a).
Proof. unfold ULONG, outcome_map. cbn. now rewrite (holds_low_ulong _ _ H1). Qed.
Lemma low_ULONG_2 : outcome_map u32 (ULONG 2 io) = Done (u32 b).
Proof. unfold ULONG, outcome_map. cbn. now rewrite (holds_low_ulong _ _ H2). Qed.
End Wide32.

Section Wide64.
Context (H1 : holds 64 v1 a) (H2 : holds 64 v2 b).

Lemma ULONG_1 : ULONG 1 io = Done (u64 a). Proof. unfold ULONG. cbn. now rewrite (holds_ulong _ _ H1). Qed.
Lemma ULONG_2 : ULONG 2 io = Done (u64 b). Proof. unfold ULONG. cbn. now rewrite (holds_ulong _ _ H2). Qed.
Lemma LONG_1 : LONG 1 io = Done (s64 a). Proof. exact (holds_long _ _ H1). Qed.
Lemma LONG_2 : LONG 2 io = Done (s64 b). Proof. exact (holds_long _ _ H2). Qed.
End Wide64.

Lemma BWIDTH_1 : BWIDTH 1 io = Done (bitWidth_ v1). Proof. reflexivity. Qed.

End Binary.
(** *** Common forms *)

Lemma checked_fits w n x : checked_signed w x
  = match fits w n x with Value _ y => Done y | Fails e => Throws e | Unspecified => Undefined end.
Proof. unfold checked_signed, fits. now destruct (_ && _). Qed.

Lemma checked_done w x : is_s w x -> checked_signed w x = Done x.
Proof. intros [A B]. unfold checked_signed. zdec; lia. Qed.

Lemma product_fits x y : is_s 32 x -> is_s 32 y \/ is_u 32 y -> is_s 64 (x * y).
Proof. unfold is_s, is_u. cbn. nia. Qed.

(** The two parts of a rotation have no bit in common. *)
Lemma rotate_lor w x k : 0 < k < w -> is_u w x ->
  uw w (uw w (x * 2 ^ k) ||| x / 2 ^ (w - k)) = uw w (x * 2 ^ k + x / 2 ^ (w - k)).
Proof.
  intros Hk [X0 X1]. pose proof (pow2_pos (w - k) ltac:(lia)) as P. pose proof (pow2_pos k ltac:(lia)) as Pk.
  assert (B : 0 <= x / 2 ^ (w - k) < 2 ^ k).
  { split; [apply Z.div_pos; lia|]. apply Z.div_lt_upper_bound; [lia|].
    rewrite <- Z.pow_add_r by lia. now replace (w - k + k) with w by lia. }
  rewrite (lor_add _ _ k) by (try lia; unfold uw;
    replace w with (k + (w - k)) at 1 by lia; rewrite Z.pow_add_r by lia;
    rewrite Z.rem_mul_r, Z.mod_mul by lia; rewrite Z.add_0_l, Z.mul_comm, Z.mod_mul by lia; reflexivity).
  unfold uw. now rewrite Zplus_mod_idemp_l.
Qed.

(** The loop of [LMBD]: [n] is the first position whose top bit is the one searched, or 33. *)
Lemma lmbd_loop x bit n : 0 <= n <= 33 ->
  (forall f, 0 <= f < n -> (u32 (x * 2 ^ f) / 2 ^ 31 =? bit) = false) ->
  (n = 33 \/ u32 (x * 2 ^ n) / 2 ^ 31 = bit) -> is_u 32 x ->
  while 34 (fun '(foundBits, word) => (foundBits <=? 32) && negb (word >> 31 =? bit))
    (fun '(foundBits, word) => (foundBits + 1, u32 (word << 1))) (0, x) = Some (n, u32 (x * 2 ^ n)).
Proof.
  intros Hn Hno Hyes Hx.
  assert (G : forall k f, 0 <= f -> f + Z.of_nat k = n -> forall fuel, (k < fuel)%nat ->
    while fuel (fun '(foundBits, word) => (foundBits <=? 32) && negb (word >> 31 =? bit))
      (fun '(foundBits, word) => (foundBits + 1, u32 (word << 1))) (f, u32 (x * 2 ^ f)) = Some (n, u32 (x * 2 ^ n))).
  { induction k as [|k IH]; intros f Hf Ek fuel Hfuel; (destruct fuel as [|fuel]; [lia|]); cbn [while];
      rewrite Z.shiftr_div_pow2 by lia.
    - replace f with n by lia. destruct Hyes as [Hyes | Hyes]; rewrite Hyes; [reflexivity|]. now rewrite Z.eqb_refl, andb_false_r.
    - rewrite Hno by lia. destruct (Z.leb_spec f 32); [|lia]. cbn [negb andb]. rewrite shiftl_1.
      replace (u32 (2 * u32 (x * 2 ^ f))) with (u32 (x * 2 ^ (f + 1))); [apply IH; lia|].
      rewrite pow2_succ by lia. unfold u32, uw. rewrite Zmult_mod_idemp_r. f_equal. ring. }
  rewrite <- (G (Z.to_nat n) 0 ltac:(lia) ltac:(lia) 34%nat ltac:(lia)).
  now rewrite Z.pow_0_r, Z.mul_1_r, u32_small.
Qed.

Lemma log2_shift c f : 0 < c < 2 ^ 32 -> 0 <= f -> f <= 31 - Z.log2 c ->
  c * 2 ^ f < 2 ^ (32 - (31 - Z.log2 c - f)) /\ 2 ^ (31 - (31 - Z.log2 c - f)) <= c * 2 ^ f.
Proof.
  intros Hc Hf HL. destruct (Z.log2_spec c) as [A B]; [lia|]. pose proof (Z.log2_nonneg c).
  replace (32 - (31 - Z.log2 c - f)) with (Z.succ (Z.log2 c) + f) by lia.
  replace (31 - (31 - Z.log2 c - f)) with (Z.log2 c + f) by lia. rewrite !Z.pow_add_r by lia.
  pose proof (pow2_pos f ltac:(lia)). nia.
Qed.

Lemma leading_range c none : 0 <= c < 2 ^ 32 -> 0 <= none <= 33 -> 0 <= leading c none <= 33.
Proof.
  intros Hc Hn. unfold leading. destruct (Z.eqb_spec c 0); [assumption|].
  pose proof (Z.log2_nonneg c). pose proof (proj1 (Z.log2_lt_pow2 c 32 ltac:(lia)) ltac:(lia)). lia.
Qed.

(** Searching for a one, and for a zero. *)
Lemma leading_one x : is_u 32 x -> let n := leading x 33 in
  (forall f, 0 <= f < n -> (u32 (x * 2 ^ f) / 2 ^ 31 =? 1) = false) /\ (n = 33 \/ u32 (x * 2 ^ n) / 2 ^ 31 = 1).
Proof.
  intros [X0 X1]. unfold leading. destruct (Z.eqb_spec x 0) as [->|N]; cbn zeta.
  - split; [intros f _; reflexivity | now left].
  - pose proof (Z.log2_nonneg x). pose proof (proj1 (Z.log2_lt_pow2 x 32 ltac:(lia)) ltac:(lia)).
    split; [intros f Hf | right].
    + destruct (log2_shift x f ltac:(lia) ltac:(lia) ltac:(lia)) as [A _].
      pose proof (pow2_le (32 - (31 - Z.log2 x - f)) 31 ltac:(lia) ltac:(lia)). pose proof (pow2_pos f ltac:(lia)).
      rewrite u32_small by nia. rewrite Z.div_small by nia. reflexivity.
    + destruct (log2_shift x (31 - Z.log2 x) ltac:(lia) ltac:(lia) ltac:(lia)) as [A B].
      rewrite !Z.sub_diag, !Z.sub_0_r in A, B. rewrite u32_small by lia. apply div_eq; lia.
Qed.

Lemma leading_zero x : is_u 32 x -> let n := leading (2 ^ 32 - 1 - x) 32 in
  (forall f, 0 <= f < n -> (u32 (x * 2 ^ f) / 2 ^ 31 =? 0) = false) /\ (n = 33 \/ u32 (x * 2 ^ n) / 2 ^ 31 = 0).
Proof.
  intros [X0 X1]. set (c := 2 ^ 32 - 1 - x).
  assert (U : forall f, 0 <= f -> 0 < (c + 1) * 2 ^ f <= 2 ^ 32 -> u32 (x * 2 ^ f) = 2 ^ 32 - (c + 1) * 2 ^ f).
  { intros f Hf Hr. unfold u32, uw. replace (x * 2 ^ f) with (2 ^ 32 - (c + 1) * 2 ^ f + (2 ^ f - 1) * 2 ^ 32)
      by (unfold c; ring). rewrite Z.mod_add by lia. apply Z.mod_small. lia. }
  unfold leading. destruct (Z.eqb_spec c 0) as [E|N]; cbn zeta.
  - rewrite E in U. split; [intros f Hf | right; rewrite U by (cbn; lia); reflexivity].
    pose proof (pow2_le f 31 ltac:(lia) ltac:(lia)). pose proof (pow2_pos f ltac:(lia)).
    rewrite U by lia. apply Z.eqb_neq. rewrite (div_eq _ _ 1) by lia. lia.
  - assert (Hc : 0 < c < 2 ^ 32) by (unfold c in *; lia).
    pose proof (Z.log2_nonneg c). pose proof (proj1 (Z.log2_lt_pow2 c 32 ltac:(lia)) ltac:(lia)).
    destruct (Z.log2_spec c) as [A B]; [lia|].
    assert (P : forall f, 0 <= f <= 31 - Z.log2 c ->
      2 ^ (Z.log2 c + f) < (c + 1) * 2 ^ f <= 2 ^ (Z.log2 c + 1 + f)).
    { intros f Hf. rewrite !Z.pow_add_r by lia. rewrite <- Z.add_1_r, Z.pow_add_r in B by lia.
      pose proof (pow2_pos f ltac:(lia)). nia. }
    split; [intros f Hf | right].
    + destruct (P f ltac:(lia)) as [P1 P2]. pose proof (pow2_le (Z.log2 c + 1 + f) 31 ltac:(lia) ltac:(lia)).
      pose proof (pow2_pos (Z.log2 c + f) ltac:(lia)).
      rewrite U by lia. apply Z.eqb_neq. rewrite (div_eq _ _ 1) by lia. lia.
    + destruct (P (31 - Z.log2 c) ltac:(lia)) as [P1 P2].
      replace (Z.log2 c + (31 - Z.log2 c)) with 31 in P1 by lia.
      replace (Z.log2 c + 1 + (31 - Z.log2 c)) with 32 in P2 by lia.
      rewrite U by lia. apply Z.div_small. lia.
Qed.

Section Operations.
Context (v1 v2 out : SimValue) (a b : Z).
Abbreviation io := [v1; v2; out].
Abbreviation implements op := (binary_trigger op io = deliver (binary_spec op (bitWidth_ v1) a b) 3 io out).


Section Bits32.
Context (H1 : holds 32 v1 a) (H2 : holds 32 v2 b).

Ltac reads32 :=
  cbn [binary_trigger binary_spec];
  rewrite ?(UINT_1 v1 v2 out a H1), ?(UINT_2 v1 v2 out b H2), ?(INT_1 v1 v2 out a H1), ?(INT_2 v1 v2 out b H2),
    ?(low_ULONG_1 v1 v2 out a H1), ?(low_ULONG_2 v1 v2 out b H2), ?BWIDTH_1; cbn [obind outcome_map]; rewrite ?s32_u32.

Lemma arithmetic_32 : implements ADD_ /\ implements SUB_ /\ implements MUL_.
Proof.
  destruct (uw_ring 32 a b ltac:(lia)) as (A & B & C).
  unfold binary_trigger, ADD, SUB, MUL. reads32. unfold u32.
  repeat split; apply (deliver_4 3 io out _ _ eq_refl); unfold u32; rewrite uw_idem by lia; assumption.
Qed.

Lemma high_products : implements MULHI_ /\ implements MULHIU_ /\ implements MULHISU_.
Proof.
  pose proof (sw_range 32 a ltac:(lia)) as Sa. pose proof (sw_range 32 b ltac:(lia)) as Sb.
  pose proof (u32_word a) as Ua. pose proof (u32_word b) as Ub. fold (s32 a) in Sa. fold (s32 b) in Sb.
  unfold binary_trigger, MULHI, MULHIU, MULHISU. reads32.
  rewrite !(checked_done 64 (s32 a * _)) by (apply product_fits; auto). cbn [obind].
  rewrite !Z.shiftr_div_pow2 by lia. split; [|split].
  - apply (deliver_4 3 io out _ _ eq_refl). unfold u32, s32. now rewrite uw_sw by lia.
  - unfold checked_signed. destruct (Z.ltb_spec (u32 a * u32 b) (2 ^ 63)).
    + rewrite (proj2 (Z.leb_le _ _)), (proj2 (Z.ltb_lt _ _)) by (unfold is_u in *; cbn in *; nia). cbn [andb obind].
      rewrite Z.shiftr_div_pow2 by lia. apply (deliver_4 3 io out _ _ eq_refl). apply uw_idem. lia.
    + rewrite (proj2 (Z.ltb_ge (u32 a * u32 b) _)) by (cbn in *; lia). now rewrite andb_false_r.
  - apply (deliver_4 3 io out _ _ eq_refl). apply uw_idem. lia.
Qed.

Lemma divisions : implements DIV_ /\ implements MOD_ /\ implements REM_ /\ implements DIVU_ /\ implements MODU_ /\
  implements REMU_.
Proof.
  pose proof (sw_zero 32 b ltac:(lia)) as Z0. fold (s32 b) in Z0. change (uw 32 b) with (u32 b) in Z0.
  pose proof (u32_word a) as [Ua _]. pose proof (u32_word b) as [Ub _].
  unfold binary_trigger, DIV, MOD, REM, DIVU, MODU, REMU. reads32.
  unfold quotient, remainder, remainder_op, division, signed_op, unsigned_op, zero_divisor, divide_by_zero, RUNTIME_ERROR.
  rewrite !(checked_fits 32 4), Z0. destruct (Z.eqb_spec (u32 b) 0) as [|Hb]; [repeat split|]. cbn [negb].
  unfold fits. destruct (_ && _); cbn [obind]; repeat split; try (apply (deliver_4 3 io out _ _ eq_refl); reflexivity).
  - now rewrite Z.quot_div_nonneg by lia; apply (deliver_4 3 io out _ _ eq_refl), uw_idem.
  - now rewrite Z.rem_mod_nonneg by lia; apply (deliver_4 3 io out _ _ eq_refl).
  - destruct (Z.leb_spec 0 (c_remainder (u32 a) (u32 b))), (Z.ltb_spec (c_remainder (u32 a) (u32 b)) 0);
      try lia; [now apply (deliver_4 3 io out _ _ eq_refl) | reflexivity].
  - now rewrite Z.quot_div_nonneg by lia; apply (deliver_4 3 io out _ _ eq_refl), uw_idem.
  - now rewrite Z.rem_mod_nonneg by lia; apply (deliver_4 3 io out _ _ eq_refl).
  - destruct (Z.leb_spec 0 (c_remainder (u32 a) (u32 b))), (Z.ltb_spec (c_remainder (u32 a) (u32 b)) 0);
      try lia; [now apply (deliver_4 3 io out _ _ eq_refl) | reflexivity].
Qed.

Lemma comparisons : implements EQ_ /\ implements GT_ /\ implements GTU_ /\ implements MIN_ /\ implements MAX_ /\
  implements MINU_ /\ implements MAXU_.
Proof.
  unfold binary_trigger, EQ, GT, GTU, MIN, MAX, MINU, MAXU. reads32.
  repeat split.
  - destruct (u32 a =? u32 b); now apply (deliver_4 3 io out _ _ eq_refl).
  - apply (deliver_4 3 io out _ _ eq_refl). f_equal. destruct (Z.ltb_spec (s32 a) (s32 b)); lia.
  - apply (deliver_4 3 io out _ _ eq_refl). f_equal. destruct (Z.ltb_spec (s32 b) (s32 a)); lia.
  - destruct (Z.ltb_spec (u32 a) (u32 b)); apply (deliver_4 3 io out _ _ eq_refl); f_equal; lia.
  - destruct (Z.ltb_spec (u32 b) (u32 a)); apply (deliver_4 3 io out _ _ eq_refl); f_equal; lia.
Qed.

Lemma minimum_width w : (if bitWidth_ v1 <? 64 then bitWidth_ v1 else 64) = w -> w = Z.min (bitWidth_ v1) 64.
Proof. intros <-. destruct (Z.ltb_spec (bitWidth_ v1) 64); lia. Qed.

Lemma shr_cases w n x k : 0 < w -> match shr w x k with Done y => Value n y | _ => Unspecified end
  = if (0 <=? k) && (k <? w) then Value n (x / 2 ^ k) else Unspecified.
Proof.
  intros Hw. unfold shr. destruct (Z.leb_spec 0 k); cbn [andb]; [|reflexivity].
  destruct (k <? w); [now rewrite Z.shiftr_div_pow2 by lia | reflexivity].
Qed.

Lemma shifts : implements SHL_ /\ implements SHR_ /\ implements SHRU_.
Proof.
  pose proof (u32_word b) as [Ub0 Ub1]. destruct H1 as (W0 & W1 & _). unfold SIMD_WORD_WIDTH in W1.
  unfold binary_trigger, SHL, SHR, SHRU, minimum, OSAL_WORD_WIDTH. reads32. unfold right_shift.
  rewrite (u32_small (bitWidth_ v1)) by lia. unfold s32 at 1 2. rewrite (sw_small 32 (bitWidth_ v1)) by (unfold is_s; lia).
  rewrite (minimum_width _ eq_refl). repeat split.
  - destruct (Z.ltb_spec (u32 b) 32).
    + rewrite shl_done by lia. cbn [obind]. apply (deliver_4 3 io out _ _ eq_refl). unfold u32. rewrite uw_idem by lia. apply uw_mul_l. lia.
    + now rewrite shl_undefined by lia.
  - destruct (_ <? _); [now apply (deliver_4 3 io out _ _ eq_refl)|]. unfold shr. destruct (_ && _) eqn:E; [|reflexivity].
    cbn [obind]. rewrite Z.shiftr_div_pow2 by lia. now apply (deliver_4 3 io out _ _ eq_refl).
  - destruct (_ <? _); [now apply (deliver_4 3 io out _ _ eq_refl)|]. unfold shr. destruct (_ && _) eqn:E; [|reflexivity].
    cbn [obind]. rewrite Z.shiftr_div_pow2 by lia. now apply (deliver_4 3 io out _ _ eq_refl).
Qed.

Lemma rotations : implements ROTL_ /\ implements ROTR_.
Proof.
  pose proof (u32_word a) as [Ua0 Ua1]. unfold binary_trigger, ROTL, ROTR. reads32. unfold rotation.
  assert (Eb : u32 b mod 32 = b mod 32) by (apply (uw_uw 5 32); lia). rewrite Eb.
  pose proof (Z.mod_pos_bound b 32 ltac:(lia)) as Rb.
  split.
  - rewrite shl_done by lia. cbn [obind]. destruct (Z.eqb_spec (b mod 32) 0) as [E|E].
    + now rewrite shr_undefined by lia.
    + rewrite shr_done by lia. cbn [obind]. apply (deliver_4 3 io out _ _ eq_refl). apply rotate_lor; [lia | split; assumption].
  - rewrite shr_done by lia. cbn [obind]. destruct (Z.eqb_spec (b mod 32) 0) as [E|E].
    + rewrite shl_undefined by lia. rewrite Z.mod_opp_l_z by lia. reflexivity.
    + rewrite shl_done by lia. cbn [obind]. rewrite Z.mod_opp_l_nz by lia.
      destruct (Z.eqb_spec (32 - b mod 32) 0); [lia|]. apply (deliver_4 3 io out _ _ eq_refl). rewrite Z.lor_comm.
      pose proof (rotate_lor 32 (u32 a) (32 - b mod 32) ltac:(lia) (conj Ua0 Ua1)) as R.
      replace (32 - (32 - b mod 32)) with (b mod 32) in R |- * by lia. exact R.
Qed.

Lemma bitwise : implements AND_ /\ implements IOR_ /\ implements XOR_.
Proof.
  unfold binary_trigger, AND, IOR, XOR. reads32. unfold u32, uw. rewrite land_mod, lor_mod, lxor_mod by lia.
  repeat split; apply (deliver_4 3 io out _ _ eq_refl); apply uw_idem; lia.
Qed.

Lemma leftmost_bit : implements LMBD_.
Proof.
  pose proof (u32_word a) as Ha. unfold binary_trigger, LMBD. reads32.
  assert (Eb : u32 (s32 b) = u32 b) by (apply (uw_sw 32); lia). rewrite Eb.
  pose proof (u32_word b) as [Ub0 _]. unfold RUNTIME_ERROR.
  destruct (Z.ltb_spec 1 (u32 b)), (Z.eqb_spec (u32 b) 0), (Z.eqb_spec (u32 b) 1); try lia; [reflexivity| |].
  - destruct (leading_zero (u32 a) Ha) as [L1 L2]. rewrite e.
    rewrite (lmbd_loop _ _ (leading (2 ^ 32 - 1 - u32 a) 32)) by (assumption || (apply leading_range; unfold is_u in Ha; lia)).
    now apply (deliver_4 3 io out _ _ eq_refl).
  - destruct (leading_one (u32 a) Ha) as [L1 L2]. rewrite e.
    rewrite (lmbd_loop _ _ (leading (u32 a) 33)) by (assumption || (apply leading_range; unfold is_u in Ha; lia)).
    now apply (deliver_4 3 io out _ _ eq_refl).
Qed.
End Bits32.

Section Bits64.
Context (H1 : holds 64 v1 a) (H2 : holds 64 v2 b).

Ltac reads64 :=
  cbn [binary_trigger binary_spec];
  rewrite ?(ULONG_1 v1 v2 out a H1), ?(ULONG_2 v1 v2 out b H2), ?(LONG_1 v1 v2 out a H1), ?(LONG_2 v1 v2 out b H2),
    ?BWIDTH_1; cbn [obind outcome_map]; rewrite ?s64_u64.
Ltac done_8 := apply (deliver_8 3 io out _ _ eq_refl).

Lemma arithmetic_64 : implements ADD64_ /\ implements SUB64_ /\ implements MUL64_.
Proof.
  destruct (uw_ring 64 a b ltac:(lia)) as (A & B & C).
  unfold binary_trigger, ADD64, SUB64, MUL64. reads64. unfold u64.
  repeat split; done_8; unfold u64; rewrite uw_idem by lia; assumption.
Qed.

Lemma divisions_64 : implements DIV64_ /\ implements MOD64_ /\ implements DIVU64_ /\ implements MODU64_.
Proof.
  pose proof (sw_zero 64 b ltac:(lia)) as Z0. fold (s64 b) in Z0. change (uw 64 b) with (u64 b) in Z0.
  pose proof (uw_range 64 a ltac:(lia)) as [Ua _]. pose proof (uw_range 64 b ltac:(lia)) as [Ub _].
  fold (u64 a) in Ua. fold (u64 b) in Ub.
  unfold binary_trigger, DIV64, MOD64, DIVU64, MODU64. reads64.
  unfold quotient, remainder, remainder_op, division, signed_op, unsigned_op, zero_divisor, divide_by_zero, RUNTIME_ERROR.
  rewrite !(checked_fits 64 8), Z0. destruct (Z.eqb_spec (u64 b) 0) as [|Hb]; [repeat split|]. cbn [negb].
  unfold fits. destruct (_ && _); cbn [obind]; repeat split; try (done_8; reflexivity).
  - now rewrite Z.quot_div_nonneg by lia; done_8; apply uw_idem.
  - now rewrite Z.rem_mod_nonneg by lia; done_8.
  - now rewrite Z.quot_div_nonneg by lia; done_8; apply uw_idem.
  - now rewrite Z.rem_mod_nonneg by lia; done_8.
Qed.

Lemma comparisons_64 : implements EQ64_ /\ implements GT64_ /\ implements GTU64_ /\ implements MIN64_ /\
  implements MAX64_ /\ implements MINU64_ /\ implements MAXU64_.
Proof.
  unfold binary_trigger, EQ64, GT64, GTU64, MIN64, MAX64, MINU64, MAXU64. reads64.
  repeat split.
  - destruct (u64 a =? u64 b); now done_8.
  - done_8. f_equal. destruct (Z.ltb_spec (s64 a) (s64 b)); lia.
  - done_8. f_equal. destruct (Z.ltb_spec (s64 a) (s64 b)); lia.
  - destruct (Z.ltb_spec (u64 a) (u64 b)); done_8; f_equal; lia.
  - destruct (Z.ltb_spec (u64 b) (u64 a)); done_8; f_equal; lia.
Qed.

Lemma shifts_64 : implements SHL64_ /\ implements SHR64_ /\ implements SHRU64_.
Proof.
  pose proof (uw_range 64 b ltac:(lia)) as [Ub0 Ub1]. fold (u64 b) in Ub0, Ub1.
  unfold binary_trigger, SHL64, SHR64, SHRU64, minimum, OSAL_WORD_WIDTH. reads64. unfold right_shift.
  rewrite (minimum_width _ eq_refl). repeat split.
  - destruct (Z.ltb_spec (u64 b) 64).
    + rewrite shl_done by lia. cbn [obind]. done_8. unfold u64. rewrite uw_idem by lia. apply uw_mul_l. lia.
    + now rewrite shl_undefined by lia.
  - destruct (_ <? _); [now apply (deliver_4 3 io out)|]. unfold shr. destruct (_ && _) eqn:E; [|reflexivity].
    cbn [obind]. rewrite Z.shiftr_div_pow2 by lia. now done_8.
  - destruct (_ <? _); [now done_8|]. unfold shr. destruct (_ && _) eqn:E; [|reflexivity].
    cbn [obind]. rewrite Z.shiftr_div_pow2 by lia. now done_8.
Qed.

Lemma rotations_64 : implements ROTL64_ /\ implements ROTR64_.
Proof.
  pose proof (uw_range 64 a ltac:(lia)) as Ha. fold (u64 a) in Ha.
  unfold binary_trigger, ROTL64, ROTR64. reads64. unfold rotation.
  assert (Eb : u64 b mod 64 = b mod 64) by (apply (uw_uw 6 64); lia). rewrite Eb.
  pose proof (Z.mod_pos_bound b 64 ltac:(lia)) as Rb.
  split.
  - rewrite shl_done by lia. cbn [obind]. destruct (Z.eqb_spec (b mod 64) 0) as [E|E].
    + now rewrite shr_undefined by lia.
    + rewrite shr_done by lia. cbn [obind]. done_8. apply rotate_lor; [lia | assumption].
  - rewrite shr_done by lia. cbn [obind]. destruct (Z.eqb_spec (b mod 64) 0) as [E|E].
    + rewrite shl_undefined by lia. rewrite Z.mod_opp_l_z by lia. reflexivity.
    + rewrite shl_done by lia. cbn [obind]. rewrite Z.mod_opp_l_nz by lia.
      destruct (Z.eqb_spec (64 - b mod 64) 0); [lia|]. done_8. rewrite Z.lor_comm.
      pose proof (rotate_lor 64 (u64 a) (64 - b mod 64) ltac:(lia) Ha) as R.
      replace (64 - (64 - b mod 64)) with (b mod 64) in R |- * by lia. exact R.
Qed.

Lemma bitwise_64 : implements AND64_ /\ implements IOR64_ /\ implements XOR64_.
Proof.
  unfold binary_trigger, AND64, IOR64, XOR64. reads64. unfold u64, uw. rewrite land_mod, lor_mod, lxor_mod by lia.
  repeat split; done_8; apply uw_idem; lia.
Qed.
End Bits64.

Lemma binary_correct op : holds (binary_bits op) v1 a -> holds (binary_bits op) v2 b -> implements op.
Proof.
  destruct op; cbn [binary_bits]; intros H1 H2;
    first [ apply (arithmetic_32 H1 H2) | apply (high_products H1 H2) | apply (divisions H1 H2)
          | apply (comparisons H1 H2) | apply (shifts H1 H2) | apply (rotations H1 H2) | apply (bitwise H1 H2)
          | apply (leftmost_bit H1 H2) | apply (arithmetic_64 H1 H2) | apply (divisions_64 H1 H2)
          | apply (comparisons_64 H1 H2) | apply (shifts_64 H1 H2) | apply (rotations_64 H1 H2)
          | apply (bitwise_64 H1 H2) ].
Qed.
End Operations.

Section UnaryOperations.
Context (v out : SimValue) (a : Z).
Abbreviation io := [v; out].
Abbreviation implements op := (unary_trigger op io = deliver (unary_spec op a) 2 io out).

Lemma unary_UINT : holds 32 v a -> UINT 1 io = Done (u32 a).
Proof. intros H. exact (holds_unsigned _ _ 32 ltac:(lia) H). Qed.
Lemma unary_ULONG : holds 64 v a -> ULONG 1 io = Done (u64 a).
Proof. intros H. unfold ULONG. cbn. now rewrite (holds_ulong _ _ H). Qed.
Lemma unary_LONG : holds 64 v a -> LONG 1 io = Done (s64 a).
Proof. intros H. exact (holds_long _ _ H). Qed.

Lemma fits_abs w n x : 0 < w -> is_s w x ->
  (if x <? 0 then fits w n (- x) else Value n x) = fits w n (Z.abs x).
Proof.
  intros Hw [A B]. destruct (Z.ltb_spec x 0); [now rewrite Z.abs_neq by lia|].
  rewrite Z.abs_eq by lia. unfold fits. zdec; lia.
Qed.

Lemma negations_32 : holds 32 v a -> implements NEG_ /\ implements ABS_ /\ implements NOT_.
Proof.
  intros H. pose proof (sw_range 32 a ltac:(lia)) as Sa. fold (s32 a) in Sa.
  unfold unary_trigger, NEG, ABS, NOT. rewrite (unary_UINT H). cbn [obind unary_spec]. rewrite s32_u32.
  rewrite <- fits_abs by (lia || assumption). rewrite !(checked_fits 32 4). repeat split.
  - unfold fits. destruct (_ && _); [now apply (deliver_4 2 io out) | reflexivity].
  - destruct (s32 a <? 0); [unfold fits; destruct (_ && _)|]; try reflexivity; now apply (deliver_4 2 io out).
  - apply (deliver_4 2 io out); [reflexivity|]. unfold Z.lnot, s32, u32.
    replace (- a - 1) with (- 1 - a) by lia. replace (Z.pred (- sw 32 a)) with (- 1 - sw 32 a) by lia.
    unfold uw. rewrite Zminus_mod. change (sw 32 a mod 2 ^ 32) with (uw 32 (sw 32 a)). rewrite uw_sw by lia.
    unfold uw. now rewrite <- Zminus_mod.
Qed.

Lemma negations_64 : holds 64 v a -> implements NEG64_ /\ implements ABS64_ /\ implements NOT64_.
Proof.
  intros H. pose proof (sw_range 64 a ltac:(lia)) as Sa. fold (s64 a) in Sa.
  unfold unary_trigger, NEG64, ABS64, NOT64. rewrite (unary_ULONG H), (unary_LONG H). cbn [obind unary_spec]. rewrite s64_u64.
  rewrite <- fits_abs by (lia || assumption). rewrite !(checked_fits 64 8). repeat split.
  - unfold fits. destruct (_ && _); [now apply (deliver_8 2 io out) | reflexivity].
  - destruct (s64 a <? 0); [unfold fits; destruct (_ && _)|]; try reflexivity; now apply (deliver_8 2 io out).
  - apply (deliver_8 2 io out); [reflexivity|]. unfold Z.lnot, s64, u64.
    replace (- a - 1) with (- 1 - a) by lia. replace (Z.pred (- sw 64 a)) with (- 1 - sw 64 a) by lia.
    unfold uw. rewrite Zminus_mod. change (sw 64 a mod 2 ^ 64) with (uw 64 (sw 64 a)). rewrite uw_sw by lia.
    unfold uw. now rewrite <- Zminus_mod.
Qed.

Lemma extensions_32 : holds 32 v a -> implements SXBW_ /\ implements SXQW_ /\ implements SXHW_ /\ implements TRUNCWH_.
Proof.
  intros H. unfold unary_trigger, SXBW, SXQW, SXHW, TRUNCWH. rewrite (unary_UINT H). cbn [obind unary_spec].
  rewrite !SIGN_EXTEND_eq, ZERO_EXTEND_eq by lia. cbn [obind]. change (u32 a) with (a mod 2 ^ 32).
  rewrite !(sw_mod _ 32), (uw_uw 16 32) by lia. repeat split; now apply (deliver_8 2 io out).
Qed.

Lemma extensions_64 : holds 64 v a ->
  implements SXB64_ /\ implements SXQ64_ /\ implements SXH64_ /\ implements SXW64_ /\ implements ZXW64_.
Proof.
  intros H. unfold unary_trigger, SXB64, SXQ64, SXH64, SXW64, ZXW64. rewrite (unary_ULONG H). cbn [obind unary_spec].
  rewrite !SIGN_EXTEND_eq, ZERO_EXTEND_eq by lia. cbn [obind]. change (u64 a) with (a mod 2 ^ 64).
  rewrite !(sw_mod _ 64), (uw_uw 32 64) by lia. repeat split; now apply (deliver_8 2 io out).
Qed.

Lemma unary_correct op : holds (unary_bits op) v a -> implements op.
Proof.
  destruct op; cbn [unary_bits]; intros H;
    first [ apply (negations_32 H) | apply (negations_64 H) | apply (extensions_32 H) | apply (extensions_64 H) ].
Qed.
End UnaryOperations.

(** C22: The integer operations of the base library compute their table.  With operands in ports at
    least as wide as the operation (32 or 64 bits) holding any numbers [a] and [b], each writes the
    bytes of its result, an expression in [a] and [b] over the integers, into the result operand and
    nothing else; division and remainder by zero, and a leftmost-bit search for something other than
    a bit, throw the documented exception; and the C++ code promises nothing for quotients and
    negations that overflow, for unsigned high products of 2^63 or more, for shifts by the width or
    more that are not cut off by the port's width, and for rotations by zero. *)
Theorem integer_operations_correct op1 op2 v1 v2 out a b :
  (holds (binary_bits op2) v1 a -> holds (binary_bits op2) v2 b ->
   binary_trigger op2 [v1; v2; out] = deliver (binary_spec op2 (bitWidth_ v1) a b) 3 [v1; v2; out] out) /\
  (holds (unary_bits op1) v1 a ->
   unary_trigger op1 [v1; out] = deliver (unary_spec op1 a) 2 [v1; out] out).
Proof. split; [apply binary_correct | apply unary_correct]. Qed.

(** A port of [w] bits with the number [x] in it. *)
Lemma port_ok w x : 1 <= w <= SIMD_WORD_WIDTH -> value_ok (port w x).
Proof.
  intros Hw. split; cbn [port rawData_ bitWidth_ SimValue.mask_]; [apply bytes_of_length | apply bytes_of_range | lia | reflexivity].
Qed.

Lemma port_holds w x : 1 <= w <= SIMD_WORD_WIDTH -> holds w (port w x) x.
Proof.
  intros Hw. unfold holds. cbn [port bitWidth_]. split; [lia|]. split; [lia|]. pose proof (port_ok w x Hw) as Hok.
  apply reads_mod; [|cbn; lia]. replace (x mod 2 ^ 64) with (cast 8 (port w x)); [apply reads_cast; [assumption | cbn; lia]|].
  unfold cast. cbn [port rawData_]. rewrite bytes_of_prefix by lia. exact (value_of_bytes 8 x).
Qed.

Lemma port_holds_32 w x : 32 <= w <= SIMD_WORD_WIDTH -> holds 32 (port w x) x.
Proof. intros Hw. destruct (port_holds w x ltac:(lia)) as (A & B & C). split; [lia | now split]. Qed.

Lemma integer_operations_witness :
  binary_trigger MOD_ [port 32 (-7); port 32 2; port 32 0] = Done [port 32 (-7); port 32 2; assign_bytes 4 (-1) (port 32 0)] /\
  binary_trigger DIV_ [port 32 5; port 32 0; port 32 0] = Throws (SimulationExecutionError "Divide by zero." None) /\
  unary_trigger ABS_ [port 32 (- 2 ^ 31); port 32 0] = Undefined.
Proof.
  split; [|split].
  - apply (integer_operations_correct ABS_ MOD_ (port 32 (-7)) (port 32 2) (port 32 0) (-7) 2);
      apply port_holds_32; unfold SIMD_WORD_WIDTH; lia.
  - apply (integer_operations_correct ABS_ DIV_ (port 32 5) (port 32 0) (port 32 0) 5 0);
      apply port_holds_32; unfold SIMD_WORD_WIDTH; lia.
  - apply (integer_operations_correct ABS_ DIV_ (port 32 (- 2 ^ 31)) (port 32 0) (port 32 0) (- 2 ^ 31) 0);
      apply port_holds_32; unfold SIMD_WORD_WIDTH; lia.
Defined.
