(* ===== verification/BaseMemory.v ===== *)
(** * Memory operations of the base library (opset/base/base.cc)

    Loads and stores in either byte order, by virtual calls of the memory they are given.  A
    runtime error throws, so that nothing after it is executed. *)

From Stdlib Require String.
From S2P Require Import Prelude.
From S2P Require Import CInt.
From S2P Require Import Cpp.
From S2P Require Import SimValue.
From S2P Require Import SimMemory.
From S2P Require Import OSAL.
Import String.StringSyntax.
#[local] Open Scope cpp_scope.
#[local] Open Scope string_scope.
#[local] Open Scope Z_scope.

Section MemoryOperations.
Context {S : Type} `{Overrides S}.
Implicit Types (m : Memory S).

Definition load_trigger := Memory S -> operands -> outcome operands.
Definition store_trigger := Memory S -> operands -> outcome (Memory S).

Definition misaligned_int {A : Type} (address : Z) : outcome A :=
  RUNTIME_ERROR_WITH_INT "Memory access alignment error, address: " address.
Definition misaligned_long {A : Type} (address : Z) : outcome A :=
  RUNTIME_ERROR_WITH_LONG "Memory access alignment error, address: " address.

(** ** Loads *)

Definition LDW : load_trigger := fun m io =>
  a <~ UINT 1 io ;
  if negb (a mod 4 =? 0) then misaligned_int a
  else data <~ readBE a 4 m ; x <~ SIGN_EXTEND data (MAUSize_ m * 4) ; IO 2 (as_long x) io.
Definition LD32 : load_trigger := fun m io =>
  a <~ ULONG 1 io ;
  if negb (a mod 4 =? 0) then misaligned_long a
  else data <~ readLE a 4 m ; x <~ SIGN_EXTEND data (MAUSize_ m * 4) ; IO 2 (as_long x) io.
Definition LDU32 : load_trigger := fun m io =>
  a <~ ULONG 1 io ;
  if negb (a mod 4 =? 0) then misaligned_long a
  else data <~ readLE a 4 m ; x <~ ZERO_EXTEND data (MAUSize_ m * 4) ; IO 2 (as_ulong x) io.
Definition LD64 : load_trigger := fun m io =>
  a <~ ULONG 1 io ;
  if negb (a mod 8 =? 0) then misaligned_long a
  else data <~ readLE a 8 m ; IO 2 (as_ulong data) io.
Definition LDQ : load_trigger := fun m io =>
  a <~ UINT 1 io ;
  data <~ readBE a 1 m ; x <~ SIGN_EXTEND data (MAUSize_ m) ; IO 2 (as_long x) io.
Definition LDH : load_trigger := fun m io =>
  a <~ UINT 1 io ;
  if negb (a mod 2 =? 0) then misaligned_int a
  else data <~ readBE a 2 m ; x <~ SIGN_EXTEND data (MAUSize_ m * 2) ; IO 2 (as_long x) io.
Definition LD16 : load_trigger := fun m io =>
  a <~ UINT 1 io ;
  if negb (a mod 2 =? 0) then misaligned_int a
  else al <~ ULONG 1 io ; data <~ readLE al 2 m ; x <~ SIGN_EXTEND data (MAUSize_ m * 2) ; IO 2 (as_long x) io.
Definition LDQU : load_trigger := fun m io =>
  a <~ UINT 1 io ;
  data <~ readBE a 1 m ; x <~ ZERO_EXTEND data (MAUSize_ m) ; IO 2 (as_ulong x) io.
Definition LDHU : load_trigger := fun m io =>
  a <~ UINT 1 io ;
  if negb (a mod 2 =? 0) then misaligned_int a
  else data <~ readBE a 2 m ; x <~ ZERO_EXTEND data (MAUSize_ m * 2) ; IO 2 (as_ulong x) io.
Definition LDU16 : load_trigger := fun m io =>
  a <~ UINT 1 io ;
  if negb (a mod 2 =? 0) then misaligned_int a
  else al <~ ULONG 1 io ; data <~ readLE al 2 m ; x <~ ZERO_EXTEND data (MAUSize_ m * 2) ; IO 2 (as_ulong x) io.
Definition LDD : load_trigger := fun m io =>
  a <~ UINT 1 io ;
  if negb (a mod 4 =? 0) then misaligned_int a
  else d <~ readBE_DoubleWord a m ; IO 2 (assign_DoubleWord d) io.

(** ** Stores *)

Definition STW : store_trigger := fun m io =>
  a <~ UINT 1 io ;
  if negb (a mod 4 =? 0) then misaligned_int a else x <~ UINT 2 io ; writeBE a 4 x m.
Definition ST32 : store_trigger := fun m io =>
  a <~ UINT 1 io ;
  if negb (a mod 4 =? 0) then misaligned_int a else x <~ UINT 2 io ; writeLE a 4 x m.
Definition ST64 : store_trigger := fun m io =>
  a <~ UINT 1 io ;
  if negb (a mod 8 =? 0) then al <~ ULONG 1 io ; misaligned_long al
  else x <~ ULONG 2 io ; al <~ ULONG 1 io ; writeLE al 8 x m.
Definition STQ : store_trigger := fun m io =>
  a <~ UINT 1 io ; x <~ UINT 2 io ; writeBE a 1 x m.
Definition STH : store_trigger := fun m io =>
  a <~ UINT 1 io ;
  if negb (a mod 2 =? 0) then misaligned_int a else x <~ UINT 2 io ; writeBE a 2 x m.
Definition ST16 : store_trigger := fun m io =>
  a <~ UINT 1 io ;
  if negb (a mod 2 =? 0) then misaligned_int a else x <~ UINT 2 io ; al <~ ULONG 1 io ; writeLE al 2 x m.
Definition STD : store_trigger := fun m io =>
  a <~ UINT 1 io ;
  if negb (a mod 4 =? 0) then misaligned_int a
  else asserts_bytes m (d <~ DBL 2 io ; writeBE_DoubleWord a d m).
End MemoryOperations.
