(* ===== verification/LoadStore.v ===== *)
(** * Loads and stores of the base library

    What the memory operations do to the flat memory a simulated memory stands for, with bytes as
    minimum addressable units. *)

From Stdlib Require String.
From S2P Require Import Prelude.
From S2P Require Import CInt.
From S2P Require Import Cpp.
From S2P Require Import SimValue.
From S2P Require Import SimValueLaws.
From S2P Require Import SimMemory.
From S2P Require Import MemoryRefinement.
From S2P Require Import OSAL.
From S2P Require Import BaseInt.
From S2P Require Import BaseIntSpec.
From S2P Require Import BaseMemory.
Import String.StringSyntax.
#[local] Open Scope cpp_scope.
#[local] Open Scope string_scope.
#[local] Open Scope Z_scope.
#[local] Open Scope list_scope.

(** ** The operations by size, byte order and extension *)

Inductive LoadOperation :=
| LDQ_ | LDQU_ | LDH_ | LDHU_ | LDW_ | LD16_ | LDU16_ | LD32_ | LDU32_ | LD64_.
Inductive StoreOperation := STQ_ | STH_ | STW_ | ST16_ | ST32_ | ST64_.

Definition load_bytes (op : LoadOperation) : nat :=
  match op with
  | LDQ_ | LDQU_ => 1 | LDH_ | LDHU_ | LD16_ | LDU16_ => 2 | LDW_ | LD32_ | LDU32_ => 4 | LD64_ => 8
  end.
Definition load_little (op : LoadOperation) : bool :=
  match op with LD16_ | LDU16_ | LD32_ | LDU32_ | LD64_ => true | _ => false end.
Definition load_signed (op : LoadOperation) : bool :=
  match op with LDQ_ | LDH_ | LDW_ | LD16_ | LD32_ => true | _ => false end.
Definition store_bytes (op : StoreOperation) : nat :=
  match op with STQ_ => 1 | STH_ | ST16_ => 2 | STW_ | ST32_ => 4 | ST64_ => 8 end.
Definition store_little (op : StoreOperation) : bool :=
  match op with ST16_ | ST32_ | ST64_ => true | _ => false end.

(** The number a load of [n] bytes delivers. *)
Definition extend (signed : bool) (n : nat) (x : Z) : Z :=
  if signed then sw (8 * Z.of_nat n) x else uw (8 * Z.of_nat n) x.

Definition alignment_error : exception -> Prop := fun e =>
  exists d, e = SimulationExecutionError "Memory access alignment error, address: " d.

Section LoadsAndStores.
Context {S : Type} `{StorageLaws S}.
Implicit Types (m : Memory S).

Definition load_trigger_of (op : LoadOperation) : Memory S -> operands -> outcome operands :=
  match op with
  | LDQ_ => LDQ | LDQU_ => LDQU | LDH_ => LDH | LDHU_ => LDHU | LDW_ => LDW
  | LD16_ => LD16 | LDU16_ => LDU16 | LD32_ => LD32 | LDU32_ => LDU32 | LD64_ => LD64
  end.
Definition store_trigger_of (op : StoreOperation) : Memory S -> operands -> outcome (Memory S) :=
  match op with STQ_ => STQ | STH_ => STH | STW_ => STW | ST16_ => ST16 | ST32_ => ST32 | ST64_ => ST64 end.

(** ** Addresses *)

(** An address in a port of 32 bits or more. *)
Definition address_in (v : SimValue) (a : Z) : Prop := holds 32 v a /\ is_u 32 a.

Lemma address_UINT v a io : address_in v a -> UINT 1 (v :: io) = Done a.
Proof. intros [Hh Ha]. unfold UINT. cbn. rewrite (holds_unsigned v a 32) by (lia || assumption). now rewrite u32_small. Qed.

Lemma address_ULONG v a io : address_in v a -> ULONG 1 (v :: io) = Done a.
Proof.
  intros [(Hw & _ & Hr & _) Ha]. unfold ULONG. cbn. rewrite Hr. f_equal. apply uw_small. unfold is_u in *.
  pose proof (pow2_le 32 (Z.min (bitWidth_ v) 64) ltac:(lia) ltac:(lia)). lia.
Qed.

Definition in_space m (a : Z) (n : nat) : Prop := start_ m <= a /\ a + Z.of_nat n - 1 <= end_ m.

(** ** Loads *)

Lemma load_range little c a n : (forall b, is_u 8 (c b)) -> is_u (8 * Z.of_nat n) (load little 8 c a n).
Proof.
  intros Hc. destruct little; cbn [load]; revert a; induction n as [|n IH]; intros a; cbn [load_LE load_BE];
    try (unfold is_u; cbn; lia); pose proof (Hc a) as [C0 C1]; specialize (IH (a + 1)); unfold is_u in *;
    rewrite pow256; change (2 ^ 8) with 256 in *; nia.
Qed.

Ltac small_nats :=
  change (Z.of_nat 1) with 1 in *; change (Z.of_nat 2) with 2 in *;
  change (Z.of_nat 4) with 4 in *; change (Z.of_nat 8) with 8 in *.

Ltac address Ha := rewrite ?(address_UINT _ _ _ Ha), ?(address_ULONG _ _ _ Ha); cbn [obind].

Lemma load_operation op m f v out a : memory_ok m -> MAUSize_ m = 8 -> represents m f -> address_in v a ->
  in_space m a (load_bytes op) -> a mod Z.of_nat (load_bytes op) = 0 ->
  load_trigger_of op m [v; out]
  = Done [v; assign_bytes 8 (extend (load_signed op) (load_bytes op) (load (load_little op) 8 (cells f) a (load_bytes op))) out].
Proof.
  intros Hm HM Hf Ha [Hs He] Hal.
  pose proof (read_order_run (load_little op) m f a (load_bytes op) Hm Hf) as R. rewrite HM in R.
  unfold read_order, access_ok, MAX_ACCESS_SIZE in R.
  specialize (R ltac:(repeat split; try assumption; destruct op; cbn; lia)).
  destruct op; cbn [load_trigger_of load_bytes load_little load_signed] in *; small_nats;
    unfold LDQ, LDQU, LDH, LDHU, LDW, LD16, LDU16, LD32, LDU32, LD64; address Ha; rewrite ?Hal; cbn [Z.eqb negb];
    rewrite R; cbn [obind]; rewrite ?HM;
    cbn [Z.mul Pos.mul]; rewrite ?SIGN_EXTEND_eq, ?ZERO_EXTEND_eq by lia; try reflexivity.
  rewrite <- (assign_8 (load true 8 (cells f) a 8) (extend false 8 _)); [reflexivity|].
  symmetry. apply (uw_idem 64). lia.
Qed.

Lemma load_misaligned op m v out a : address_in v a -> a mod Z.of_nat (load_bytes op) <> 0 ->
  exists e, load_trigger_of op m [v; out] = Throws e /\ alignment_error e.
Proof.
  intros Ha Hal.
  destruct op; cbn [load_trigger_of load_bytes] in *; small_nats;
    try (rewrite Z.mod_1_r in Hal; contradiction);
    unfold LDH, LDHU, LDW, LD16, LDU16, LD32, LDU32, LD64; address Ha; rewrite (proj2 (Z.eqb_neq _ 0) Hal); cbn [negb];
    eexists; (split; [reflexivity|]); eexists; reflexivity.
Qed.

(** ** Stores *)

Lemma unit_of_low k x i : 8 * (Z.of_nat i + 1) <= k -> unit_of 8 (x mod 2 ^ k) i = unit_of 8 x i.
Proof.
  intros Hk. unfold unit_of. apply Z.bits_inj'. intros j Hj. destruct (Z.ltb_spec j 8).
  - rewrite !Z.mod_pow2_bits_low, !Z.div_pow2_bits by lia. apply Z.mod_pow2_bits_low. lia.
  - now rewrite !Z.mod_pow2_bits_high by lia.
Qed.

Lemma units_low little k x n : 8 * Z.of_nat n <= k -> units little 8 (x mod 2 ^ k) n = units little 8 x n.
Proof.
  intros Hk. unfold units. apply map_ext_in. intros i Hi. apply unit_of_low.
  destruct little; [|apply in_rev in Hi]; apply in_seq in Hi; lia.
Qed.

Lemma store_operation op m f v1 v2 a x : memory_ok m -> MAUSize_ m = 8 -> represents m f -> address_in v1 a ->
  holds (8 * Z.max 4 (Z.of_nat (store_bytes op))) v2 x ->
  in_space m a (store_bytes op) -> a mod Z.of_nat (store_bytes op) = 0 ->
  exists m', store_trigger_of op m [v1; v2] = Done m' /\ memory_ok m' /\ MAUSize_ m' = 8 /\
    start_ m' = start_ m /\ end_ m' = end_ m /\
    represents m' (flat_store (timed S) (store_little op) 8 a (store_bytes op) x f).
Proof.
  intros Hm HM Hf Ha Hx [Hs He] Hal.
  set (k := 8 * Z.max 4 (Z.of_nat (store_bytes op))) in *.
  assert (Hk : 8 * Z.of_nat (store_bytes op) <= k /\ 0 <= k <= 64) by (unfold k; destruct op; cbn; lia).
  unfold flat_store. rewrite <- (units_low (store_little op) k) by apply Hk.
  destruct (write_order_run (store_little op) m f a (store_bytes op) (x mod 2 ^ k) Hm Hf) as (m' & W & Hm' & Hf' & (_ & E2 & E3 & E4)).
  { rewrite HM. unfold access_ok, MAX_ACCESS_SIZE. pose proof (uw_range k x ltac:(lia)) as [R0 R1].
    pose proof (pow2_le k 64 ltac:(lia) ltac:(lia)).
    repeat split; try assumption; try (destruct op; cbn; lia); unfold uw in *; lia. }
  exists m'. rewrite HM in Hf', E2. split; [|auto 10].
  unfold write_order in W. unfold k in *. clear k.
  assert (RX : (if (store_bytes op =? 8)%nat then ULONG 2 [v1; v2] else UINT 2 [v1; v2])
    = Done (x mod 2 ^ (8 * Z.max 4 (Z.of_nat (store_bytes op))))).
  { destruct op; cbn [store_bytes Nat.eqb] in *; small_nats; cbn [Z.max Z.compare Pos.compare Pos.compare_cont Z.mul Pos.mul Pos.add] in *;
      [apply (holds_unsigned v2 x 32); [lia | assumption].. | unfold ULONG; cbn; now rewrite (holds_ulong v2 x)]. }
  destruct op; cbn [store_trigger_of store_bytes store_little Nat.eqb] in *; small_nats;
    unfold STQ, STH, STW, ST16, ST32, ST64; address Ha; rewrite ?Hal; cbn [Z.eqb negb]; rewrite ?RX; cbn [obind];
    address Ha; exact W.
Qed.

Lemma store_misaligned op m v1 v2 a : address_in v1 a -> a mod Z.of_nat (store_bytes op) <> 0 ->
  exists e, store_trigger_of op m [v1; v2] = Throws e /\ alignment_error e.
Proof.
  intros Ha Hal.
  destruct op; cbn [store_trigger_of store_bytes] in *; small_nats;
    try (rewrite Z.mod_1_r in Hal; contradiction);
    unfold STH, STW, ST16, ST32, ST64; address Ha; rewrite (proj2 (Z.eqb_neq _ 0) Hal); cbn [negb]; address Ha;
    eexists; (split; [reflexivity|]); eexists; reflexivity.
Qed.

(** Address checks: [result] for an aligned address, the runtime error for another. *)
Definition aligned_or_error {A : Type} (a : Z) (n : nat) (run : outcome A) (result : Prop) : Prop :=
  if a mod Z.of_nat n =? 0 then result else exists e, run = Throws e /\ alignment_error e.

(** A load of the flat memory after a store to the same bytes in the same order. *)
Lemma load_settled little a n x g f : cells f = cells g -> pending f = pending g ++ units_at a (units little 8 x n) ->
  load little 8 (cells (settle f)) a n = x mod 2 ^ (8 * Z.of_nat n).
Proof.
  intros Ec Ep. unfold settle. cbn [cells]. rewrite Ec, Ep. unfold apply_writes. rewrite fold_left_app.
  now apply load_stored.
Qed.

Lemma extend_mod signed n x : (0 < n)%nat -> extend signed n (x mod 2 ^ (8 * Z.of_nat n)) = extend signed n x.
Proof. intros Hn. unfold extend. destruct signed; [apply sw_mod | apply uw_uw]; lia. Qed.

(** C23: Loads and stores of the base library on a byte-addressed memory of either class.  At an
    aligned address in range, a load delivers the bytes of the flat memory in its byte order, sign-
    or zero-extended to 64 bits, and a store appends the bytes of its operand, in its byte order, to
    the pending stores of the flat memory, which take effect when the class of the memory has it so:
    in [IdealSRAM] all of them at the end of the cycle, in [DirectAccessMemory] a big-endian store
    makes them take effect at once and the end of the cycle does nothing.  At an unaligned address
    both throw the alignment error.  A load of the same size and byte order as the store, in the
    same cycle or after its end, delivers the value stored, extended from its size, if the store
    has taken effect by then, and what it would have delivered before the store otherwise; a
    little-endian store to a [DirectAccessMemory] has not even after the end of the cycle. *)
Theorem loads_and_stores (st : StoreOperation) (ld : LoadOperation) m f v1 v2 out a x :
  memory_ok m -> MAUSize_ m = 8 -> represents m f -> address_in v1 a ->
  holds (8 * Z.max 4 (Z.of_nat (store_bytes st))) v2 x ->
  in_space m a (store_bytes st) -> in_space m a (load_bytes ld) ->
  let extended y := assign_bytes 8 (extend (load_signed ld) (load_bytes ld) y) out in
  let loaded := extended (load (load_little ld) 8 (cells f) a (load_bytes ld)) in
  let stored := flat_store (timed S) (store_little st) 8 a (store_bytes st) x f in
  let at_once := flushes_BE (timed S) && negb (store_little st) in
  let after_clock := at_once || commits_at_clock (timed S) in
  aligned_or_error a (load_bytes ld) (load_trigger_of ld m [v1; out])
    (load_trigger_of ld m [v1; out] = Done [v1; loaded]) /\
  aligned_or_error a (store_bytes st) (store_trigger_of st m [v1; v2])
    (exists m1 m2, store_trigger_of st m [v1; v2] = Done m1 /\ represents m1 stored /\
       advanceClock m1 = Done m2 /\ represents m2 (flat_tick (timed S) stored) /\
       (load_bytes ld = store_bytes st -> load_little ld = store_little st ->
        load_trigger_of ld m1 [v1; out] = Done [v1; if at_once then extended x else loaded] /\
        load_trigger_of ld m2 [v1; out] = Done [v1; if after_clock then extended x else loaded])).
Proof.
  intros Hm HM Hf Ha Hx Hs Hl extended loaded stored at_once after_clock. unfold aligned_or_error. split.
  - destruct (Z.eqb_spec (a mod Z.of_nat (load_bytes ld)) 0);
      [now apply (load_operation ld m f) | now apply (load_misaligned ld m v1 out a)].
  - destruct (Z.eqb_spec (a mod Z.of_nat (store_bytes st)) 0) as [Hal|]; [|now apply (store_misaligned st m v1 v2 a)].
    destruct (store_operation st m f v1 v2 a x Hm HM Hf Ha Hx Hs Hal) as (m1 & E1 & Hm1 & M1 & S1 & T1 & R1).
    fold stored in R1.
    destruct (advanceClock_run m1 stored Hm1 R1) as (m2 & E2 & Hm2 & R2 & (_ & M2 & S2 & T2)).
    exists m1, m2. do 4 (split; [assumption|]). intros En Eo. rewrite <- En in Hal.
    assert (Hn : (0 < load_bytes ld)%nat) by (destruct ld; cbn; lia).
    rewrite M1 in M2.
    rewrite (load_operation ld m1 stored v1 out a), (load_operation ld m2 (flat_tick (timed S) stored) v1 out a);
      try assumption; [|unfold in_space; now rewrite ?S2, ?T2, S1, T1..].
    fold (extended (load (load_little ld) 8 (cells stored) a (load_bytes ld))).
    fold (extended (load (load_little ld) 8 (cells (flat_tick (timed S) stored)) a (load_bytes ld))).
    assert (X : extended (x mod 2 ^ (8 * Z.of_nat (load_bytes ld))) = extended x)
      by (unfold extended; now rewrite extend_mod).
    set (queued := mk_flat (cells f) (pending f ++ units_at a (units (store_little st) 8 x (store_bytes st)))).
    assert (Q : load (load_little ld) 8 (cells (settle queued)) a (load_bytes ld)
      = x mod 2 ^ (8 * Z.of_nat (load_bytes ld))).
    { rewrite En, Eo. now apply (load_settled _ a _ x f). }
    unfold loaded, after_clock, stored, flat_tick, flat_store. fold queued at_once.
    destruct at_once; cbn [orb]; [rewrite Q, X; split; [reflexivity|]|split; [reflexivity|]].
    + destruct (commits_at_clock (timed S)); cbn [settle cells pending apply_writes fold_left] in *;
        rewrite ?Q, ?X; reflexivity.
    + destruct (commits_at_clock (timed S)); [now rewrite Q, X | reflexivity].
Qed.
End LoadsAndStores.

(** The same store and load on both classes of memory. *)
Lemma loads_and_stores_witness :
  (exists m m1 m2, IdealSRAM_new 0 99 8 false = Done m /\
     STH m [port 32 16; port 32 (-2)] = Done m1 /\ advanceClock m1 = Done m2 /\
     LDH m1 [port 32 16; port 32 0] = Done [port 32 16; assign_bytes 8 0 (port 32 0)] /\
     LDH m2 [port 32 16; port 32 0] = Done [port 32 16; assign_bytes 8 (-2) (port 32 0)]) /\
  (exists m m1 m2, DirectAccessMemory_new 0 99 8 false = Done m /\
     STH m [port 32 16; port 32 (-2)] = Done m1 /\ advanceClock m1 = Done m2 /\
     LDH m1 [port 32 16; port 32 0] = Done [port 32 16; assign_bytes 8 (-2) (port 32 0)] /\
     LDH m2 [port 32 16; port 32 0] = Done [port 32 16; assign_bytes 8 (-2) (port 32 0)]).
Proof.
  assert (Hsp : space_ok 8 0 99) by (split; [lia | split; [lia | split; [lia | discriminate]]]).
  assert (A : address_in (port 32 16) 16) by (split; [apply port_holds_32; unfold SIMD_WORD_WIDTH | unfold is_u]; lia).
  assert (X : holds (8 * Z.max 4 (Z.of_nat (store_bytes STH_))) (port 32 (-2)) (-2))
    by (apply port_holds_32; unfold SIMD_WORD_WIDTH; lia).
  split.
  - destruct (Memory_new_ok 8 0 99 false _ Hsp (sram_storage_ok _ _ _ Hsp)) as (m & E & Hm & Es & E1 & E2 & E3 & E4 & Eq).
    assert (R : represents m zeros) by (apply new_represents; [intros b; now rewrite Es | assumption]).
    destruct (loads_and_stores STH_ LDH_ m zeros (port 32 16) (port 32 (-2)) (port 32 0) 16 (-2) Hm E2 R A X)
      as [_ (m1 & m2 & F1 & _ & F2 & _ & F3)]; [unfold in_space; cbn; lia.. |].
    exists m, m1, m2. do 3 (split; [assumption|]). exact (F3 eq_refl eq_refl).
  - destruct (direct_storage_ok 8 0 99 Hsp) as (s & Es & Hs & H0).
    destruct (Memory_new_ok 8 0 99 false s Hsp Hs) as (m & E & Hm & Em & E1 & E2 & E3 & E4 & Eq).
    assert (R : represents m zeros) by (apply new_represents; [intros b; now rewrite Em | assumption]).
    destruct (loads_and_stores STH_ LDH_ m zeros (port 32 16) (port 32 (-2)) (port 32 0) 16 (-2) Hm E2 R A X)
      as [_ (m1 & m2 & F1 & _ & F2 & _ & F3)]; [unfold in_space; cbn; lia.. |].
    exists m, m1, m2. split; [unfold DirectAccessMemory_new; now rewrite Es|].
    do 2 (split; [assumption|]). exact (F3 eq_refl eq_refl).
Defined.
