(* ===== verification/Executors.v ===== *)
(** * Operation executors of the simulator

    What runs the operations of a function unit (applibs/Simulator): SimpleOperationExecutor keeps
    the results of an operation in a ring buffer for its latency, OneCycleOperationExecutor works on
    the ports themselves, and MultiLatencyOperationExecutor keeps a pool of operations in flight, each
    result with a latency of its own.  The ports of the unit are a list of values; [bindings_] is the
    ports of the inputs followed by those of the outputs.  An executor belongs to one operation, whose
    behaviour works on the values of its operands and a context [C]: memory and operation states. *)

From S2P Require Import Prelude.
From S2P Require Import CInt.
From S2P Require Import Cpp.
From S2P Require Import SimValue.
From S2P Require Import OSAL.
#[local] Open Scope cpp_scope.

(** ** Ports *)

Definition ports := list SimValue.
Definition null_value : SimValue := mk_value [] 0 0.
Definition port (ps : ports) (p : nat) : SimValue := nth p ps null_value.

(** [RegisterState::setValue], and writing through a pointer to the value. *)
Definition setValue (ps : ports) (write : nat * SimValue) : ports :=
  replace_nth (fst write) (assign_SimValue (snd write) (port ps (fst write))) ps.
Definition set_ports (writes : list (nat * SimValue)) (ps : ports) : ports := fold_left setValue writes ps.
Definition store_ports (writes : list (nat * SimValue)) (ps : ports) : ports :=
  fold_left (fun ps write => replace_nth (fst write) (snd write) ps) writes ps.

Section Executors.
Context {C : Type}.

Record Operation := mk_operation {
  outputWidths : list Z; simulateTrigger : operands -> C -> outcome (operands * C) }.

Record Binding := mk_binding { operation : Operation; inputPorts : list nat; outputPorts : list nat }.

Definition numberOfInputs (b : Binding) : nat := length (inputPorts b).
Definition numberOfOutputs (b : Binding) : nat := length (outputPorts b).

(** The interface of the executors: the function unit calls them through it. *)
Class OperationExecutor (E : Type) := {
  startOperation : E -> ports -> C -> outcome (E * ports * C);
  advanceClock : E -> ports -> C -> outcome (E * ports * C);
  hasPendingOperations : E -> bool }.

(** ** SimpleOperationExecutor *)

Record BufferCell := mk_cell { ioOrig_ : list SimValue; operation_ : bool; boundOperation_ : bool }.

Record SimpleOperationExecutor := mk_simple {
  simple_binding : Binding; nextSlot_ : nat; buffer_ : list BufferCell; pendingOperations_ : Z; simple_pending : bool }.

Definition SimpleOperationExecutor_new (memory : list Z) (latency : nat) (b : Binding) : outcome SimpleOperationExecutor :=
  v <~ SimValue_default memory ;
  Done (mk_simple b 0 (repeat (mk_cell (repeat v (numberOfOutputs b)) false false) latency) 0 true).

Definition null_cell : BufferCell := mk_cell [] false false.

Definition set_widths (widths : list Z) (values : list SimValue) : outcome (list SimValue) :=
  traverse (fun '(w, v) => setBitWidth w v) (combine widths values).

Definition start_simple (e : SimpleOperationExecutor) (ps : ports) (c : C)
  : outcome (SimpleOperationExecutor * ports * C) :=
  let b := simple_binding e in
  let nextSlot := nth (nextSlot_ e) (buffer_ e) null_cell in
  outputs <~ (if boundOperation_ nextSlot then Done (ioOrig_ nextSlot)
              else set_widths (outputWidths (operation b)) (ioOrig_ nextSlot)) ;
  ' (io, c) <~ simulateTrigger (operation b) (map (port ps) (inputPorts b) ++ outputs) c ;
  Done (mk_simple b (nextSlot_ e)
          (replace_nth (nextSlot_ e) (mk_cell (skipn (numberOfInputs b) io) true true) (buffer_ e))
          (u64 (pendingOperations_ e + 1)) true,
        store_ports (combine (inputPorts b) (firstn (numberOfInputs b) io)) ps, c).

Definition advance_simple (e : SimpleOperationExecutor) (ps : ports) (c : C)
  : outcome (SimpleOperationExecutor * ports * C) :=
  requires negb (length (buffer_ e) =? 0)%nat ;
  let b := simple_binding e in
  let index := ((nextSlot_ e + 1) mod length (buffer_ e))%nat in
  let oldestEntry := nth index (buffer_ e) null_cell in
  if operation_ oldestEntry then
    let pending := u64 (pendingOperations_ e - 1) in
    Done (mk_simple b index (replace_nth index (mk_cell (ioOrig_ oldestEntry) false (boundOperation_ oldestEntry)) (buffer_ e))
            pending (0 <? pending),
          set_ports (combine (outputPorts b) (ioOrig_ oldestEntry)) ps, c)
  else Done (mk_simple b index (buffer_ e) (pendingOperations_ e) (simple_pending e), ps, c).

#[export] Instance simple_executor : OperationExecutor SimpleOperationExecutor := {|
  startOperation := start_simple; advanceClock := advance_simple; hasPendingOperations := simple_pending |}.

(** ** OneCycleOperationExecutor *)

Record OneCycleOperationExecutor := mk_one { one_binding : Binding; one_pending : bool }.

Definition OneCycleOperationExecutor_new (b : Binding) : OneCycleOperationExecutor := mk_one b false.

(** The I/O vector points to the values of the ports; every behaviour answers that it is ready. *)
Definition start_one (e : OneCycleOperationExecutor) (ps : ports) (c : C)
  : outcome (OneCycleOperationExecutor * ports * C) :=
  let b := one_binding e in
  let bindings := inputPorts b ++ outputPorts b in
  ' (io, c) <~ simulateTrigger (operation b) (map (port ps) bindings) c ;
  Done (mk_one b false, store_ports (combine bindings io) ps, c).

Definition advance_one (e : OneCycleOperationExecutor) (ps : ports) (c : C)
  : outcome (OneCycleOperationExecutor * ports * C) := Done (mk_one (one_binding e) false, ps, c).

#[export] Instance one_executor : OperationExecutor OneCycleOperationExecutor := {|
  startOperation := start_one; advanceClock := advance_one; hasPendingOperations := one_pending |}.

(** ** MultiLatencyOperationExecutor *)

Definition INT_MAX : Z := 2 ^ 31 - 1.

Record PendingResult := mk_result { cyclesToGo_ : Z; resultLatency_ : Z }.

Record ExecutingOperation := mk_executing {
  iostorage_ : list SimValue; pendingResults_ : list PendingResult; stage_ : Z; free_ : bool }.

Definition PendingResult_reset (r : PendingResult) : PendingResult := mk_result (resultLatency_ r) (resultLatency_ r).

Definition start (x : ExecutingOperation) : ExecutingOperation :=
  mk_executing (iostorage_ x) (map PendingResult_reset (pendingResults_ x)) 0 false.
Definition stop (x : ExecutingOperation) : ExecutingOperation :=
  mk_executing (iostorage_ x) (pendingResults_ x) (stage_ x) true.

(** [PendingResult::advanceCycle] of each result, with its target and value. *)
Fixpoint advance_results (rs : list PendingResult) (targets : list (nat * SimValue)) (ps : ports)
  : list PendingResult * ports :=
  match rs, targets with
  | r :: rs, target :: targets =>
    let cycles := s32 (cyclesToGo_ r - 1) in
    let '(r, ps) := if cycles =? 0 then (mk_result INT_MAX (resultLatency_ r), setValue ps target)
                    else (mk_result cycles (resultLatency_ r), ps) in
    let '(rs, ps) := advance_results rs targets ps in (r :: rs, ps)
  | _, _ => (rs, ps)
  end.

Definition advanceCycle (b : Binding) (x : ExecutingOperation) (ps : ports) : ExecutingOperation * ports :=
  let '(rs, ps) := advance_results (pendingResults_ x) (combine (outputPorts b) (skipn (numberOfInputs b) (iostorage_ x))) ps in
  (mk_executing (iostorage_ x) rs (s32 (stage_ x + 1)) (free_ x), ps).

(** [latency] and [latencies] are those of [hwOperation_], of the whole and of each result. *)
Record MultiLatencyOperationExecutor := mk_multi {
  multi_binding : Binding; latency : Z; latencies : list Z;
  executingOps_ : list ExecutingOperation; freeExecOp_ : option nat;
  execOperationsInitialized_ : bool; multi_pending : bool }.

Definition MultiLatencyOperationExecutor_new (memory : list Z) (latency : Z) (latencies : list Z) (b : Binding)
  : outcome MultiLatencyOperationExecutor :=
  v <~ SimValue_default memory ;
  let eop := mk_executing (repeat v (numberOfInputs b + numberOfOutputs b)) [] 0 true in
  Done (mk_multi b latency latencies (repeat eop (Z.to_nat latency)) None false true).

(** The first free operation, or the last one of the pool. *)
Fixpoint find_free (pool : list ExecutingOperation) : nat :=
  match pool with
  | [] => 0
  | [_] => 0
  | x :: pool => if free_ x then 0 else S (find_free pool)
  end.

Definition findFreeExecutingOperation (e : MultiLatencyOperationExecutor) : outcome nat :=
  match freeExecOp_ e with
  | Some k => Done k
  | None => if (length (executingOps_ e) =? 0)%nat then Throws AssertionFailed else Done (find_free (executingOps_ e))
  end.

Definition initialize (e : MultiLatencyOperationExecutor) (ps : ports) (x : ExecutingOperation) : outcome ExecutingOperation :=
  let b := multi_binding e in
  values <~ set_widths (map (fun p => width (port ps p)) (inputPorts b ++ outputPorts b)) (iostorage_ x) ;
  Done (mk_executing values (pendingResults_ x ++ map (fun l => mk_result l l) (latencies e)) (stage_ x) (free_ x)).

Definition copy_inputs (b : Binding) (ps : ports) (io : list SimValue) : list SimValue :=
  map (fun '(p, v) => assign_SimValue (port ps p) v) (combine (inputPorts b) io) ++ skipn (numberOfInputs b) io.

Definition start_multi (e : MultiLatencyOperationExecutor) (ps : ports) (c : C)
  : outcome (MultiLatencyOperationExecutor * ports * C) :=
  let b := multi_binding e in
  k <~ findFreeExecutingOperation e ;
  pool <~ (if execOperationsInitialized_ e then Done (executingOps_ e) else traverse (initialize e ps) (executingOps_ e)) ;
  execOp <~ (match nth_error pool k with Some x => Done x | None => Undefined end) ;
  let execOp := mk_executing (copy_inputs b ps (iostorage_ execOp)) (pendingResults_ execOp) (stage_ execOp) (free_ execOp) in
  Done (mk_multi b (latency e) (latencies e) (replace_nth k (start execOp) pool) None true true, ps, c).

(** The loop over the pool, from index [i]. *)
Fixpoint advance_pool (b : Binding) (latency : Z) (i : nat) (pool : list ExecutingOperation)
  (free : option nat) (found : bool) (ps : ports) (c : C)
  : outcome (list ExecutingOperation * option nat * bool * ports * C) :=
  match pool with
  | [] => Done ([], free, found, ps, c)
  | execOp :: pool =>
    if free_ execOp then
      ' (pool, free, found, ps, c) <~ advance_pool b latency (S i) pool (Some i) found ps c ;
      Done (execOp :: pool, free, found, ps, c)
    else
      ' (execOp, c) <~ (if stage_ execOp =? 0 then
          ' (io, c) <~ simulateTrigger (operation b) (iostorage_ execOp) c ;
          Done (mk_executing io (pendingResults_ execOp) (stage_ execOp) (free_ execOp), c)
        else Done (execOp, c)) ;
      let '(execOp, ps) := advanceCycle b execOp ps in
      let execOp := if stage_ execOp =? latency then stop execOp else execOp in
      ' (pool, free, found, ps, c) <~ advance_pool b latency (S i) pool free true ps c ;
      Done (execOp :: pool, free, found, ps, c)
  end.

Definition advance_multi (e : MultiLatencyOperationExecutor) (ps : ports) (c : C)
  : outcome (MultiLatencyOperationExecutor * ports * C) :=
  ' (pool, free, found, ps, c) <~
    advance_pool (multi_binding e) (latency e) 0 (executingOps_ e) (freeExecOp_ e) false ps c ;
  Done (mk_multi (multi_binding e) (latency e) (latencies e) pool free (execOperationsInitialized_ e) found, ps, c).

Definition reset (e : MultiLatencyOperationExecutor) : MultiLatencyOperationExecutor :=
  mk_multi (multi_binding e) (latency e) (latencies e) (executingOps_ e) (freeExecOp_ e)
    (execOperationsInitialized_ e) false.

#[export] Instance multi_executor : OperationExecutor MultiLatencyOperationExecutor := {|
  startOperation := start_multi; advanceClock := advance_multi; hasPendingOperations := multi_pending |}.

(** Executors of several classes in one unit. *)
#[export] Instance either_executor (E F : Type) `{OperationExecutor E} `{OperationExecutor F}
  : OperationExecutor (E + F) := {|
  startOperation := fun e ps c => match e with
    | inl e => outcome_map (fun '(e, ps, c) => (inl e, ps, c)) (startOperation e ps c)
    | inr e => outcome_map (fun '(e, ps, c) => (inr e, ps, c)) (startOperation e ps c) end;
  advanceClock := fun e ps c => match e with
    | inl e => outcome_map (fun '(e, ps, c) => (inl e, ps, c)) (advanceClock e ps c)
    | inr e => outcome_map (fun '(e, ps, c) => (inr e, ps, c)) (advanceClock e ps c) end;
  hasPendingOperations := fun e => match e with
    | inl e => hasPendingOperations e | inr e => hasPendingOperations e end |}.
End Executors.
Arguments Operation : clear implicits.
Arguments Binding : clear implicits.
Arguments OperationExecutor : clear implicits.
Arguments SimpleOperationExecutor : clear implicits.
Arguments OneCycleOperationExecutor : clear implicits.
Arguments MultiLatencyOperationExecutor : clear implicits.
