(* ===== verification/ExecutorLaws.v ===== *)
(** * What an operation executor promises to its function unit

    An executor is a delay line: the result [i] of an operation started [d] cycles ago is written to
    its port at the end of the cycle in which [d + 1] equals the latency of the result.  The interface
    is a class over the past starts of the executor, most recent first; the three executors and their
    sums implement it. *)

From Stdlib Require Import Permutation.
From S2P Require Import Prelude.
From S2P Require Import CInt.
From S2P Require Import Cpp.
From S2P Require Import SimValue.
From S2P Require Import SimValueLaws.
From S2P Require Import OSAL.
From S2P Require Import Executors.
#[local] Open Scope cpp_scope.

(** ** Writing ports *)

Lemma setValue_length ps w : length (setValue ps w) = length ps.
Proof. apply replace_nth_length. Qed.

Lemma setValue_comm ps w w' : fst w <> fst w' -> setValue (setValue ps w) w' = setValue (setValue ps w') w.
Proof.
  intros H. unfold setValue, port. destruct w as [p v], w' as [p' v']. cbn [fst snd] in *.
  assert (N : forall a b x l, a <> b -> nth b (replace_nth a x l) null_value = nth b l null_value).
  { intros a b x l. revert a b. induction l as [|y l IH]; intros [|a] [|b] Hab; cbn; try congruence. apply IH. congruence. }
  rewrite !N by congruence. now apply replace_nth_comm.
Qed.

Lemma set_ports_app l l' ps : set_ports (l ++ l') ps = set_ports l' (set_ports l ps).
Proof. apply fold_left_app. Qed.

(** Writes to distinct ports can be made in any order. *)
Lemma set_ports_permutation l l' : Permutation l l' -> NoDup (map fst l) ->
  forall ps, set_ports l ps = set_ports l' ps.
Proof.
  induction 1 as [|w l l' _ IH|w w' l|l l' l'' P IH _ IH']; intros N ps.
  - reflexivity.
  - cbn in *. apply IH. now inversion N.
  - cbn in *. f_equal. apply setValue_comm. inversion N as [|? ? H _]; subst. cbn in H. intuition congruence.
  - rewrite IH by assumption. apply IH'. apply (Permutation_NoDup (Permutation_map fst P) N).
Qed.

(** ** The contract *)

(** When a behaviour runs: on the ports at once, on the input ports and a buffer when the operation
    starts, or on copies when the clock advances. *)
Inductive timing := Immediate | Early | Late.

Section Contracts.
Context {C : Type}.

Record Contract := mk_contract {
  binding_of : Binding C; when : timing; result_latencies : list nat; duration : nat }.

(** What an executor has of the current cycle: nothing to deliver, the results of an operation, or
    the operands of an operation that runs when the clock advances. *)
Inductive current := Nothing | Results (outs : list SimValue) | Waiting (io : list SimValue).

Definition start_contract (k : Contract) (storage : list SimValue) (ps : ports) (c : C)
  : outcome (current * ports * C) :=
  let b := binding_of k in
  let n := numberOfInputs b in
  match when k with
  | Immediate =>
    ' (io, c) <~ simulateTrigger (operation b) (map (port ps) (inputPorts b ++ outputPorts b)) c ;
    Done (Nothing, store_ports (combine (inputPorts b ++ outputPorts b) io) ps, c)
  | Early =>
    ' (io, c) <~ simulateTrigger (operation b) (map (port ps) (inputPorts b) ++ storage) c ;
    Done (Results (skipn n io), store_ports (combine (inputPorts b) (firstn n io)) ps, c)
  | Late => Done (Waiting (copy_inputs b ps storage), ps, c)
  end.

(** The operation of this cycle, once its behaviour has run. *)
Definition run_waiting (k : Contract) (now : current) (c : C) : outcome (option (list SimValue) * C) :=
  match now with
  | Nothing => Done (None, c)
  | Results outs => Done (Some outs, c)
  | Waiting io =>
    ' (io, c) <~ simulateTrigger (operation (binding_of k)) io c ;
    Done (Some (skipn (numberOfInputs (binding_of k)) io), c)
  end.

Definition deliver_result (past : list (option (list SimValue))) '(i, (p, l)) : list (nat * SimValue) :=
  match nth (l - 1) past None with
  | Some outs => [(p, nth i outs null_value)]
  | None => []
  end.

(** The results that are due, given the starts up to this cycle. *)
Definition deliveries (k : Contract) (past : list (option (list SimValue))) : list (nat * SimValue) :=
  let outputs := combine (outputPorts (binding_of k)) (result_latencies k) in
  concat (map (deliver_result past) (combine (seq 0 (length outputs)) outputs)).

(** Nothing in flight. *)
Definition quiet (k : Contract) (past : list (option (list SimValue))) : Prop :=
  forall d, (S d < duration k)%nat -> nth d past None = None.

Definition width_ok (v : SimValue) : Prop := 0 <= bitWidth_ v <= SIMD_WORD_WIDTH.

(** A behaviour has as many operands after as before, and gives none an impossible width. *)
Record binding_ok (b : Binding C) : Prop := {
  trigger_values : forall io c io' c', simulateTrigger (operation b) io c = Done (io', c') ->
    Forall2 (fun v v' => width_ok v -> width_ok v') io io';
  widths_length : length (outputWidths (operation b)) = numberOfOutputs b;
  widths_range : Forall (fun w => 0 <= w <= SIMD_WORD_WIDTH) (outputWidths (operation b));
  outputs_distinct : NoDup (outputPorts b) }.

Record contract_ok (k : Contract) : Prop := {
  contract_binding : binding_ok (binding_of k);
  latencies_length : length (result_latencies k) = numberOfOutputs (binding_of k);
  latencies_range : Forall (fun l => 1 <= l <= duration k)%nat (result_latencies k) }.

Record ports_ok (k : Contract) (ps : ports) : Prop := {
  ports_inside : Forall (fun p => p < length ps)%nat (inputPorts (binding_of k) ++ outputPorts (binding_of k));
  ports_widths : Forall width_ok ps }.

(** ** The interface *)

Class DelayLine (E : Type) `{OperationExecutor C E} := {
  contract : E -> Contract;
  represents : E -> list (option (list SimValue)) -> current -> Prop;
  line_ok e past now : represents e past now -> contract_ok (contract e);
  start_law e past ps c : represents e past Nothing -> ports_ok (contract e) ps ->
    exists storage, related (fun '(e', ps', c') '(now, ps'', c'') =>
        ps' = ps'' /\ c' = c'' /\ contract e' = contract e /\ represents e' past now)
      (startOperation e ps c) (start_contract (contract e) storage ps c);
  advance_law e past now ps c : represents e past now ->
    related (fun '(e', ps', c') '(outs, c'') =>
        ps' = set_ports (deliveries (contract e) (outs :: past)) ps /\ c' = c'' /\ contract e' = contract e /\
        represents e' (outs :: past) Nothing)
      (advanceClock e ps c) (run_waiting (contract e) now c);
  quiet_law e past : represents e past Nothing -> quiet (contract e) past -> represents e (None :: past) Nothing;
  pending_law e past now : represents e past now -> hasPendingOperations e = false -> now = Nothing /\ quiet (contract e) past;
}.

(** ** Contracts *)

Lemma trigger_length b io c io' c' : binding_ok b -> simulateTrigger (operation b) io c = Done (io', c') ->
  length io' = length io.
Proof. intros Hb E. symmetry. eapply Forall2_length, trigger_values; eassumption. Qed.

Lemma quiet_later k past : quiet k past -> quiet k (None :: past).
Proof. intros H [|d] Hd; [reflexivity|]. cbn. apply H. lia. Qed.

Lemma in_deliveries k past p v : In (p, v) (deliveries k past) <->
  exists i l outs, nth_error (outputPorts (binding_of k)) i = Some p /\ nth_error (result_latencies k) i = Some l /\
    nth (l - 1) past None = Some outs /\ v = nth i outs null_value.
Proof.
  unfold deliveries. rewrite in_concat.
  split.
  - intros (l & Hl & Hin). apply in_map_iff in Hl as ([i [q m]] & <- & Hi). apply in_enumerate, nth_error_combine in Hi as [E1 E2].
    unfold deliver_result in Hin. destruct (nth (m - 1) past None) as [outs|] eqn:En; [|contradiction].
    destruct Hin as [[= <- <-]|[]]. now exists i, m, outs.
  - intros (i & m & outs & E1 & E2 & En & ->). exists (deliver_result past (i, (p, m))). split.
    + apply in_map, in_enumerate, nth_error_combine. now split.
    + unfold deliver_result. rewrite En. now left.
Qed.

Lemma deliveries_distinct k past : NoDup (outputPorts (binding_of k)) -> NoDup (map fst (deliveries k past)).
Proof.
  unfold deliveries. generalize (result_latencies k). generalize 0%nat.
  induction (outputPorts (binding_of k)) as [|p l IH]; intros s [|m ls] N; cbn; try constructor.
  inversion N as [|? ? Hp N']; subst. specialize (IH (S s) ls N'). cbn in IH.
  destruct (nth (m - 1) past None); cbn; [|exact IH]. constructor; [|exact IH].
  intros Hin. apply Hp. clear -Hin. apply in_map_iff in Hin as ([q v] & <- & Hin). apply in_concat in Hin as (w & Hw & Hv).
  apply in_map_iff in Hw as ([i [q' m']] & <- & Hw). apply in_combine_r in Hw. apply in_combine_l in Hw.
  unfold deliver_result in Hv. destruct (nth (m' - 1) past None); [|contradiction]. destruct Hv as [[= <- _]|[]]. exact Hw.
Qed.

Lemma deliveries_quiet k past : contract_ok k -> quiet k past -> deliveries k (None :: past) = [].
Proof.
  intros Hk Hq. destruct (deliveries k (None :: past)) as [|[p v] l] eqn:E; [reflexivity|].
  assert (Hin : In (p, v) (deliveries k (None :: past))) by (rewrite E; now left).
  apply in_deliveries in Hin as (i & m & outs & _ & Hm & Hn & _).
  apply nth_error_In in Hm. pose proof (latencies_range _ Hk) as R. rewrite Forall_forall in R. specialize (R _ Hm).
  destruct (m - 1)%nat as [|d] eqn:Ed; [discriminate|]. cbn in Hn. rewrite Hq in Hn by lia. discriminate.
Qed.

(** ** The ports stay as wide and as many *)

Lemma assign_width s v : bitWidth_ (assign_SimValue s v) = bitWidth_ v.
Proof. unfold assign_SimValue. now destruct (Nat.ltb _ _), (truthy (Z.rem (bitWidth_ v) 8)). Qed.

Lemma port_width ps p : Forall width_ok ps -> (p < length ps)%nat -> width_ok (port ps p).
Proof. intros H Hp. rewrite Forall_forall in H. apply H. now apply nth_In. Qed.

Lemma setValue_widths ps w : Forall width_ok ps -> Forall width_ok (setValue ps w).
Proof.
  intros Hw. unfold setValue. destruct (Nat.lt_ge_cases (fst w) (length ps)) as [Hp|Hp].
  - apply Forall_replace; [assumption|]. unfold width_ok. rewrite assign_width. now apply port_width.
  - enough (G : forall (p : nat) v (l : ports), (length l <= p)%nat -> replace_nth p v l = l) by now rewrite G.
    intros p v l. revert p. induction l as [|x l IH]; intros [|p] Hl; cbn in *; try lia; [reflexivity..|]. f_equal. apply IH. lia.
Qed.

Lemma set_ports_ok writes ps : Forall width_ok ps ->
  length (set_ports writes ps) = length ps /\ Forall width_ok (set_ports writes ps).
Proof.
  revert ps. induction writes as [|w writes IH]; intros ps Hw; [now split|]. cbn [set_ports fold_left].
  destruct (IH (setValue ps w) (setValue_widths ps w Hw)) as [A B]. split; [|exact B].
  unfold set_ports in A. rewrite A. apply setValue_length.
Qed.

Lemma ports_ok_keep k ps ps' : length ps' = length ps -> Forall width_ok ps' -> ports_ok k ps -> ports_ok k ps'.
Proof. intros Hl Hw [Hi _]. split; [now rewrite Hl | exact Hw]. Qed.

Lemma store_ports_ok writes ps : Forall width_ok ps -> Forall (fun w => width_ok (snd w)) writes ->
  length (store_ports writes ps) = length ps /\ Forall width_ok (store_ports writes ps).
Proof.
  intros Hp Hw. revert ps Hp. induction Hw as [|[p v] writes Hv _ IH]; intros ps Hp; [now split|]. cbn [store_ports fold_left fst snd].
  destruct (IH (replace_nth p v ps)) as [A B]; [now apply Forall_replace|]. split; [|exact B].
  unfold store_ports in A. rewrite A. apply replace_nth_length.
Qed.

Lemma Forall_firstn {A} (P : A -> Prop) n l : Forall P l -> Forall P (firstn n l).
Proof. revert n. induction l; intros [|n] Hl; cbn; try constructor; inversion Hl; subst; auto. Qed.

Lemma Forall_combine_snd {A B} (P : B -> Prop) (l : list A) m : Forall P m -> Forall (fun w => P (snd w)) (combine l m).
Proof. revert l. induction m; intros [|x l] Hm; cbn; try constructor; inversion Hm; subst; auto. Qed.

Lemma start_contract_ports k storage ps c now ps' c' : contract_ok k -> ports_ok k ps ->
  start_contract k storage ps c = Done (now, ps', c') -> length ps' = length ps /\ Forall width_ok ps'.
Proof.
  intros Hk [Hi Hw] E. pose proof (trigger_values _ (contract_binding _ Hk)) as T. unfold start_contract in E.
  assert (Hin : forall l, incl l (inputPorts (binding_of k) ++ outputPorts (binding_of k)) -> Forall width_ok (map (port ps) l)).
  { intros l Hl. apply Forall_map, Forall_forall. intros p Hp. apply port_width; [assumption|].
    rewrite Forall_forall in Hi. auto. }
  destruct (when k).
  - destruct (simulateTrigger _ _ _) as [[io c1]| |] eqn:ET; [|discriminate..]. injection E as <- <- <-. apply T in ET.
    apply store_ports_ok, Forall_combine_snd; [assumption|]. specialize (Hin _ (incl_refl _)).
    clear -ET Hin. induction ET; inversion Hin; subst; constructor; auto.
  - destruct (simulateTrigger _ _ _) as [[io c1]| |] eqn:ET; [|discriminate..]. injection E as <- <- <-. apply T in ET.
    apply store_ports_ok, Forall_combine_snd; [assumption|]. specialize (Hin _ (incl_appl _ (incl_refl (inputPorts (binding_of k))))).
    apply Forall2_app_inv_l in ET as (i1 & i2 & E1 & _ & ->).
    unfold numberOfInputs. rewrite <- (length_map (port ps)), (Forall2_length E1), firstn_app, Nat.sub_diag, firstn_all, app_nil_r.
    clear -E1 Hin. induction E1; inversion Hin; subst; constructor; auto.
  - injection E as <- <- <-. now split.
Qed.
End Contracts.
Arguments Contract : clear implicits.
