(* ===== verification/DelayLines.v ===== *)
(** * The ring buffer and the one-cycle executor are delay lines *)

From S2P Require Import Prelude.
From S2P Require Import CInt.
From S2P Require Import Cpp.
From S2P Require Import SimValue.
From S2P Require Import SimValueLaws.
From S2P Require Import OSAL.
From S2P Require Import Executors.
From S2P Require Import ExecutorLaws.
#[local] Open Scope cpp_scope.

(** ** Counting *)

Definition count {A : Type} (f : A -> bool) (l : list A) : Z := Z.of_nat (length (filter f l)).

Lemma count_range {A} (f : A -> bool) l : 0 <= count f l <= Z.of_nat (length l).
Proof. unfold count. induction l as [|x l IH]; cbn [filter length]; [lia|]. destruct (f x); cbn [length]; lia. Qed.

Lemma count_replace {A} (f : A -> bool) k x y l : nth_error l k = Some y ->
  count f (replace_nth k x l) = count f l - b2z (f y) + b2z (f x).
Proof.
  revert k. induction l as [|z l IH]; intros [|k]; cbn [nth_error replace_nth]; try discriminate.
  - intros [= ->]. unfold count. cbn [filter]. destruct (f x), (f y); cbn [length b2z]; lia.
  - intros E. specialize (IH k E). unfold count in *. cbn [filter]. destruct (f z); cbn [length]; lia.
Qed.

Lemma count_zero {A} (f : A -> bool) l : count f l = 0 -> Forall (fun x => f x = false) l.
Proof.
  unfold count. induction l as [|x l IH]; cbn [filter]; [constructor|].
  destruct (f x) eqn:E; cbn [length]; [lia|]. intros H. constructor; auto.
Qed.

(** ** Positions in the ring: the cell of an operation started [d] cycles ago *)

Definition slot (L n d : nat) : nat := if (d <=? n)%nat then (n - d)%nat else (n + L - d)%nat.

Lemma slot_lt L n d : (n < L)%nat -> (d < L)%nat -> (slot L n d < L)%nat.
Proof. unfold slot. destruct (Nat.leb_spec d n); lia. Qed.

Lemma slot_inj L n d d' : (n < L)%nat -> (d < L)%nat -> (d' < L)%nat -> slot L n d = slot L n d' -> d = d'.
Proof. unfold slot. destruct (Nat.leb_spec d n), (Nat.leb_spec d' n); lia. Qed.

Lemma slot_onto L n i : (n < L)%nat -> (i < L)%nat -> exists d, (d < L)%nat /\ slot L n d = i.
Proof.
  intros Hn Hi. unfold slot. exists (if (i <=? n)%nat then n - i else n + L - i)%nat.
  destruct (Nat.leb_spec i n); split; try lia; [destruct (Nat.leb_spec (n - i) n) | destruct (Nat.leb_spec (n + L - i) n)]; lia.
Qed.

Lemma next_slot L n : (n < L)%nat -> ((n + 1) mod L = if S n =? L then 0 else S n)%nat.
Proof.
  intros Hn. destruct (Nat.eqb_spec (S n) L) as [<-|].
  - rewrite Nat.add_1_r. apply Nat.Div0.mod_same.
  - rewrite Nat.mod_small; lia.
Qed.

Lemma slot_next L n d : (n < L)%nat -> (S d < L)%nat -> slot L ((n + 1) mod L) (S d) = slot L n d.
Proof.
  intros Hn Hd. rewrite next_slot by assumption. unfold slot.
  destruct (Nat.eqb_spec (S n) L), (Nat.leb_spec d n); cbn [Nat.leb];
    try (destruct (Nat.leb_spec d n)); try (destruct (Nat.leb_spec (S d) (S n))); try lia.
  all: destruct (Nat.leb_spec (S d) 0); lia.
Qed.

Lemma slot_oldest L n : (n < L)%nat -> slot L n (L - 1) = ((n + 1) mod L)%nat.
Proof.
  intros Hn. rewrite next_slot by assumption. unfold slot. destruct (Nat.eqb_spec (S n) L), (Nat.leb_spec (L - 1) n); lia.
Qed.

Section DelayLines.
Context {C : Type}.

(** ** SimpleOperationExecutor *)

(** What there is of the current cycle, for the delivery. *)
Definition entry (now : current) : option (list SimValue) :=
  match now with Results outs => Some outs | _ => None end.

Definition simple_contract (e : SimpleOperationExecutor C) : Contract C :=
  let b := simple_binding e in
  mk_contract b Early (repeat (length (buffer_ e)) (numberOfOutputs b)) (length (buffer_ e)).

Definition cell_represents (n : nat) (x : BufferCell) (outs : option (list SimValue)) : Prop :=
  match outs with
  | Some outs => operation_ x = true /\ ioOrig_ x = outs
  | None => operation_ x = false
  end.

Definition cell_ok (n : nat) (x : BufferCell) : Prop :=
  length (ioOrig_ x) = n /\
  (boundOperation_ x = false -> Forall (fun v => length (rawData_ v) = 512%nat) (ioOrig_ x)).

Record simple_represents (e : SimpleOperationExecutor C) (past : list (option (list SimValue))) (now : current) : Prop := {
  simple_ok : contract_ok (simple_contract e);
  simple_length : 0 < Z.of_nat (length (buffer_ e)) < 2 ^ 31;
  simple_slot : (nextSlot_ e < length (buffer_ e))%nat;
  simple_now : forall io, now <> Waiting io;
  simple_cells : forall d, (d < length (buffer_ e))%nat ->
    cell_represents (numberOfOutputs (simple_binding e)) (nth (slot (length (buffer_ e)) (nextSlot_ e) d) (buffer_ e) null_cell)
      (nth d (entry now :: past) None);
  simple_cells_ok : Forall (cell_ok (numberOfOutputs (simple_binding e))) (buffer_ e);
  simple_count : pendingOperations_ e = count operation_ (buffer_ e);
  simple_idle : simple_pending e = false -> Forall (fun x => operation_ x = false) (buffer_ e) }.

Lemma set_widths_done ws vs : length ws = length vs -> Forall (fun w => 0 <= w <= SIMD_WORD_WIDTH) ws ->
  Forall (fun v => length (rawData_ v) = 512%nat) vs -> exists vs', set_widths ws vs = Done vs' /\ length vs' = length vs.
Proof.
  intros Hl Hw Hv. destruct (traverse_done (fun '(w, v) => setBitWidth w v) (fun _ _ => True) (combine ws vs)) as (vs' & E & F).
  - apply Forall_forall. intros [w v] Hin. rewrite Forall_forall in Hw, Hv.
    destruct (setBitWidth_eq v w) as (n & _ & _ & E); [eapply Hv, in_combine_r, Hin | eapply Hw, in_combine_l, Hin|].
    eauto.
  - exists vs'. split; [exact E|]. apply Forall2_length in F. rewrite <- F, length_combine. lia.
Qed.

Lemma simple_start e past ps c : simple_represents e past Nothing ->
  exists storage, related (fun '(e', ps', c') '(now, ps'', c'') =>
      ps' = ps'' /\ c' = c'' /\ simple_contract e' = simple_contract e /\ simple_represents e' past now)
    (startOperation e ps c) (start_contract (simple_contract e) storage ps c).
Proof.
  intros [Ok HL Hn _ Hc Hco Hp Hi]. set (x := nth (nextSlot_ e) (buffer_ e) null_cell).
  assert (Ex : nth_error (buffer_ e) (nextSlot_ e) = Some x) by now apply nth_error_nth'.
  assert (Hx : cell_ok (numberOfOutputs (simple_binding e)) x) by (rewrite Forall_forall in Hco; eapply Hco, nth_error_In, Ex).
  destruct Ok as [HB Ll Lr]. pose proof (widths_length _ HB) as Wl. pose proof (widths_range _ HB) as Wr. cbn [simple_contract binding_of] in *.
  assert (S : exists outputs, (if boundOperation_ x then Done (ioOrig_ x)
      else set_widths (outputWidths (operation (simple_binding e))) (ioOrig_ x)) = Done outputs
      /\ length outputs = numberOfOutputs (simple_binding e)).
  { destruct Hx as [Hl Hb]. destruct (boundOperation_ x); [now exists (ioOrig_ x)|].
    destruct (set_widths_done (outputWidths (operation (simple_binding e))) (ioOrig_ x)) as (vs & -> & E);
      [congruence | assumption | now apply Hb | exists vs; split; congruence]. }
  destruct S as (outputs & ES & Eo). exists outputs. cbn [startOperation simple_executor]. unfold start_simple. fold x.
  rewrite ES. cbn [obind start_contract simple_contract when binding_of].
  destruct (simulateTrigger _ _ c) as [[io c']| |] eqn:ET; cbn [obind related]; auto.
  split; [reflexivity|]. split; [reflexivity|]. unfold simple_contract. cbn [simple_binding buffer_]. rewrite replace_nth_length.
  split; [reflexivity|]. apply (trigger_length _ _ _ _ _ HB) in ET. rewrite length_app, length_map in ET.
  assert (Lo : length (skipn (numberOfInputs (simple_binding e)) io) = numberOfOutputs (simple_binding e)).
  { rewrite length_skipn, ET, Eo. unfold numberOfInputs. lia. }
  specialize (Hc 0%nat ltac:(lia)) as Hc0. cbn [entry nth cell_represents] in Hc0.
  replace (slot (length (buffer_ e)) (nextSlot_ e) 0) with (nextSlot_ e) in Hc0 by (unfold slot; cbn; lia). fold x in Hc0.
  assert (F : forall d, (d < length (buffer_ e))%nat -> d <> 0%nat -> slot (length (buffer_ e)) (nextSlot_ e) d <> nextSlot_ e).
  { intros d Hd Hd0. unfold slot. destruct (Nat.leb_spec d (nextSlot_ e)); lia. }
  split; cbn [simple_binding nextSlot_ buffer_ pendingOperations_ simple_pending]; rewrite ?replace_nth_length;
    try assumption; try discriminate.
  - unfold simple_contract. cbn [simple_binding buffer_]. rewrite replace_nth_length. now split.
  - intros [|d] Hd; rewrite nth_replace by assumption.
    + replace (slot (length (buffer_ e)) (nextSlot_ e) 0) with (nextSlot_ e) by (unfold slot; cbn; lia).
      rewrite Nat.eqb_refl. split; reflexivity.
    + rewrite (proj2 (Nat.eqb_neq _ _)) by (apply F; lia). exact (Hc (S d) Hd).
  - apply Forall_replace; [assumption|]. split; [exact Lo | discriminate].
  - rewrite (count_replace _ _ _ x) by assumption. cbn [operation_ b2z]. rewrite Hc0, Hp. cbn [b2z].
    pose proof (count_range operation_ (buffer_ e)). rewrite (uw_small 64) by (unfold is_u; cbn in *; lia). lia.
Qed.

Lemma simple_deliveries e h outs : contract_ok (simple_contract e) -> (0 < length (buffer_ e))%nat ->
  nth (length (buffer_ e) - 1) h None = outs ->
  deliveries (simple_contract e) h = match outs with Some outs =>
    map (fun '(i, p) => (p, nth i outs null_value)) (combine (seq 0 (numberOfOutputs (simple_binding e))) (outputPorts (simple_binding e)))
  | None => [] end.
Proof.
  intros _ HL E. unfold deliveries. cbn [simple_contract binding_of result_latencies]. unfold numberOfOutputs.
  rewrite length_combine, repeat_length, Nat.min_id.
  generalize 0%nat. induction (outputPorts (simple_binding e)) as [|p l IH]; intros s; [now destruct outs|].
  cbn [length seq repeat combine map concat]. rewrite IH. unfold deliver_result at 1. rewrite E. now destruct outs.
Qed.

Lemma combine_nth_map (l : list nat) (outs : list SimValue) : length outs = length l ->
  map (fun '(i, p) => (p, nth i outs null_value)) (combine (seq 0 (length l)) l) = combine l outs.
Proof.
  enough (G : forall outs pre, length outs = length l ->
    map (fun '(i, p) => (p, nth i (pre ++ outs) null_value)) (combine (seq (length pre) (length l)) l) = combine l outs)
    by exact (G outs []).
  induction l as [|p l IH]; intros [|v vs] pre Hl; try discriminate; [reflexivity|]. cbn [length seq combine map].
  rewrite nth_middle. f_equal. specialize (IH vs (pre ++ [v]) ltac:(cbn in Hl; lia)).
  rewrite length_app, Nat.add_1_r, <- app_assoc in IH. exact IH.
Qed.

Lemma simple_advance e past now ps c : simple_represents e past now ->
  related (fun '(e', ps', c') '(outs, c'') =>
      ps' = set_ports (deliveries (simple_contract e) (outs :: past)) ps /\ c' = c'' /\
      simple_contract e' = simple_contract e /\ simple_represents e' (outs :: past) Nothing)
    (advanceClock e ps c) (run_waiting (simple_contract e) now c).
Proof.
  intros [Ok HL Hn Hw Hc Hco Hp Hi]. assert (R : run_waiting (simple_contract e) now c = Done (entry now, c)).
  { destruct now; try reflexivity. now destruct (Hw io). }
  rewrite R. cbn [advanceClock simple_executor]. unfold advance_simple.
  destruct (Nat.eqb_spec (length (buffer_ e)) 0); [lia|]. cbn [negb].
  set (L := length (buffer_ e)) in *. set (index := ((nextSlot_ e + 1) mod L)%nat). set (x := nth index (buffer_ e) null_cell).
  assert (Hix : (index < L)%nat) by (apply Nat.mod_upper_bound; lia).
  assert (Ex : nth_error (buffer_ e) index = Some x) by now apply nth_error_nth'.
  assert (Hx : cell_ok (numberOfOutputs (simple_binding e)) x) by (rewrite Forall_forall in Hco; eapply Hco, nth_error_In, Ex).
  pose proof (Hc (L - 1)%nat ltac:(lia)) as Ho. rewrite slot_oldest in Ho by assumption. fold index x in Ho.
  assert (Hd : deliveries (simple_contract e) (entry now :: past)
    = if operation_ x then combine (outputPorts (simple_binding e)) (ioOrig_ x) else []).
  { rewrite (simple_deliveries e _ _ Ok ltac:(unfold L in *; lia) eq_refl). fold L.
    destruct (nth (L - 1) _ None) as [outs|]; cbn [cell_represents] in Ho.
    - destruct Ho as [-> <-]. apply combine_nth_map, Hx.
    - now rewrite Ho. }
  assert (Hshift : forall l, (forall d, (S d < L)%nat -> nth (slot L (nextSlot_ e) d) l null_cell
        = nth (slot L (nextSlot_ e) d) (buffer_ e) null_cell) -> operation_ (nth index l null_cell) = false ->
      forall d, (d < L)%nat -> cell_represents (numberOfOutputs (simple_binding e)) (nth (slot L index d) l null_cell)
        (nth d (entry Nothing :: entry now :: past) None)).
  { intros l Hl Hnew [|d] Hd'.
    - replace (slot L index 0) with index by (unfold slot; cbn; lia). exact Hnew.
    - unfold index. rewrite slot_next, Hl by lia. exact (Hc d ltac:(lia)). }
  destruct (operation_ x) eqn:Eo; cbn [related]; rewrite Hd.
  - split; [reflexivity|]. split; [reflexivity|]. unfold simple_contract. cbn [simple_binding buffer_]. rewrite replace_nth_length. fold L.
    split; [reflexivity|].
    pose proof (count_range operation_ (buffer_ e)) as Rc.
    assert (Cx : count operation_ (replace_nth index (mk_cell (ioOrig_ x) false (boundOperation_ x)) (buffer_ e))
      = count operation_ (buffer_ e) - 1) by (rewrite (count_replace _ _ _ x) by assumption; rewrite Eo; cbn [operation_ b2z]; lia).
    pose proof (count_range operation_ (replace_nth index (mk_cell (ioOrig_ x) false (boundOperation_ x)) (buffer_ e))) as Rc'.
    assert (U : u64 (pendingOperations_ e - 1) = pendingOperations_ e - 1)
      by (rewrite Hp in *; apply (uw_small 64); unfold is_u; cbn in *; lia).
    split; cbn [simple_binding nextSlot_ buffer_ pendingOperations_ simple_pending]; rewrite ?replace_nth_length; fold L;
      try assumption; try discriminate.
    + unfold simple_contract. cbn [simple_binding buffer_]. rewrite replace_nth_length. exact Ok.
    + apply Hshift.
      * intros d Hd'. rewrite nth_replace by (unfold L in *; lia). rewrite (proj2 (Nat.eqb_neq _ _)); [reflexivity|].
        unfold index. rewrite <- slot_oldest by assumption. intros Hs. apply slot_inj in Hs; lia.
      * rewrite nth_replace, Nat.eqb_refl by (unfold L in *; lia). reflexivity.
    + apply Forall_replace; [assumption|]. exact Hx.
    + rewrite U, Hp. lia.
    + rewrite U. intros Hz. apply Z.ltb_ge in Hz. apply count_zero. lia.
  - split; [reflexivity|]. split; [reflexivity|]. split; [reflexivity|].
    split; cbn [simple_binding nextSlot_ buffer_ pendingOperations_ simple_pending]; try assumption; try discriminate.
    apply Hshift; [reflexivity | exact Eo].
Qed.

Lemma simple_quiet e past : simple_represents e past Nothing -> quiet (simple_contract e) past ->
  simple_represents e (None :: past) Nothing.
Proof.
  intros [Ok HL Hn Hw Hc Hco Hp Hi] Hq. split; try assumption. intros d Hd. specialize (Hc d Hd).
  cbn [quiet simple_contract duration] in Hq. unfold quiet in Hq. cbn [simple_contract duration] in Hq.
  assert (E : nth d (entry Nothing :: past) None = None) by (destruct d; [reflexivity | apply Hq; lia]).
  assert (E' : nth d (entry Nothing :: None :: past) None = None) by (destruct d as [|[|d]]; try reflexivity; apply Hq; lia).
  now rewrite E in Hc; rewrite E'.
Qed.

Lemma simple_pending_quiet e past now : simple_represents e past now -> simple_pending e = false ->
  now = Nothing /\ quiet (simple_contract e) past.
Proof.
  intros [Ok HL Hn Hw Hc Hco Hp Hi] E. specialize (Hi E). rewrite Forall_forall in Hi.
  assert (A : forall d, (d < length (buffer_ e))%nat -> nth d (entry now :: past) None = None).
  { intros d Hd. specialize (Hc d Hd). destruct (nth d (entry now :: past) None); [|reflexivity].
    destruct Hc as [Hc _]. rewrite Hi in Hc; [discriminate|]. apply nth_In, slot_lt; assumption. }
  split.
  - specialize (A 0%nat ltac:(lia)). destruct now; [reflexivity | discriminate | now destruct (Hw io)].
  - intros d Hd. exact (A (S d) Hd).
Qed.

#[export] Instance simple_line : DelayLine (SimpleOperationExecutor C) := {|
  contract := simple_contract; represents := simple_represents;
  line_ok := simple_ok; start_law := fun e past ps c H _ => simple_start e past ps c H; advance_law := simple_advance;
  quiet_law := simple_quiet; pending_law := simple_pending_quiet |}.

(** A new value, and a new executor of either kind. *)
Lemma default_value memory : length memory = 512%nat ->
  exists v, SimValue_default memory = Done v /\ length (rawData_ v) = 512%nat.
Proof.
  intros Hm. destruct (setBitWidth_eq (uninitialised memory) 64 Hm ltac:(unfold SIMD_WORD_WIDTH; lia)) as (n & Hn & _ & E).
  unfold SimValue_default. rewrite E. eexists. split; [reflexivity|]. cbn [rawData_ uninitialised].
  unfold memset. rewrite memcpy_length; [exact Hm|]. rewrite repeat_length. lia.
Qed.

Lemma simple_new memory L b : length memory = 512%nat -> 0 < Z.of_nat L < 2 ^ 31 -> binding_ok b ->
  exists e, SimpleOperationExecutor_new memory L b = Done e /\ represents e [] Nothing /\
    contract e = mk_contract b Early (repeat L (numberOfOutputs b)) L.
Proof.
  intros Hm HL Hb. destruct (default_value memory Hm) as (v & E & Hv). unfold SimpleOperationExecutor_new. rewrite E. cbn [obind].
  eexists. split; [reflexivity|]. cbn [contract simple_line]. unfold simple_contract. cbn [simple_binding buffer_].
  rewrite repeat_length. split; [|reflexivity].
  assert (N : forall k, nth k (repeat (mk_cell (repeat v (numberOfOutputs b)) false false) L) null_cell
      = mk_cell (repeat v (numberOfOutputs b)) false false \/ nth k (repeat (mk_cell (repeat v (numberOfOutputs b)) false false) L) null_cell = null_cell).
  { intros k. destruct (nth_in_or_default k (repeat (mk_cell (repeat v (numberOfOutputs b)) false false) L) null_cell) as [Hin|D];
      [left; eapply repeat_spec, Hin | now right]. }
  split; unfold simple_contract; cbn [simple_binding nextSlot_ buffer_ pendingOperations_ simple_pending]; rewrite ?repeat_length;
    try lia; try discriminate.
  - split; [exact Hb | apply repeat_length|]. cbn. apply Forall_forall. intros l Hl. apply repeat_spec in Hl. lia.
  - intros d Hd. replace (nth d (entry Nothing :: []) None) with (@None (list SimValue)) by now destruct d as [|[|d]].
    cbn [cell_represents]. now destruct (N (slot L 0 d)) as [H | H]; rewrite H.
  - apply Forall_forall. intros x Hx. apply repeat_spec in Hx as ->. split; [apply repeat_length|]. intros _.
    apply Forall_forall. intros y Hy. now apply repeat_spec in Hy as ->.
  - unfold count. clear. induction L as [|L IH]; [reflexivity | exact IH].
Qed.

(** ** OneCycleOperationExecutor *)

Definition one_contract (e : OneCycleOperationExecutor C) : Contract C :=
  mk_contract (one_binding e) Immediate (repeat 1%nat (numberOfOutputs (one_binding e))) 1.

Definition one_represents (e : OneCycleOperationExecutor C) (past : list (option (list SimValue))) (now : current) : Prop :=
  contract_ok (one_contract e) /\ now = Nothing.

Lemma one_quiet e past : quiet (one_contract e) past.
Proof. intros d Hd. cbn in Hd. lia. Qed.

#[export] Instance one_line : DelayLine (OneCycleOperationExecutor C).
Proof.
  refine {| contract := one_contract; represents := one_represents |}.
  - now intros e past now [].
  - intros e past ps c [Ok _] _. exists []. cbn [startOperation one_executor]. unfold start_one.
    cbn [start_contract one_contract when binding_of].
    destruct (simulateTrigger _ _ c) as [[io c']| |]; cbn; auto. repeat split; apply Ok.
  - intros e past now ps c [Ok ->]. cbn [advanceClock one_executor run_waiting]. cbn [advance_one related].
    rewrite deliveries_quiet by (exact Ok || apply one_quiet). repeat split; apply Ok.
  - now intros e past [] _.
  - intros e past now [_ ->] _. split; [reflexivity | apply one_quiet].
Defined.

Lemma one_new b : binding_ok b -> represents (OneCycleOperationExecutor_new b) [] Nothing /\
  contract (OneCycleOperationExecutor_new b) = mk_contract b Immediate (repeat 1%nat (numberOfOutputs b)) 1.
Proof.
  intros Hb. split; [|reflexivity]. split; [|reflexivity]. split; [exact Hb | apply repeat_length|].
  cbn. apply Forall_forall. intros l Hl. apply repeat_spec in Hl. lia.
Qed.

(** ** Executors of several classes *)

#[export] Instance either_line (E F : Type) `{DelayLine C E} `{DelayLine C F} : DelayLine (E + F).
Proof.
  refine {| contract := fun e => match e with inl e => contract e | inr e => contract e end;
    represents := fun e past now => match e with inl e => represents e past now | inr e => represents e past now end |}.
  - intros [e|e] past now Hr; exact (line_ok e past now Hr).
  - intros [e|e] past ps c Hr Hp; destruct (start_law e past ps c Hr Hp) as (storage & R); exists storage;
      cbn [startOperation either_executor]; destruct (startOperation e ps c) as [[[e' ps'] c']| |], (start_contract _ _ _ _); exact R.
  - intros [e|e] past now ps c Hr; pose proof (advance_law e past now ps c Hr) as R;
      cbn [advanceClock either_executor]; destruct (advanceClock e ps c) as [[[e' ps'] c']| |], (run_waiting _ _ _); exact R.
  - intros [e|e] past Hr Hq; exact (quiet_law e past Hr Hq).
  - intros [e|e] past now Hr Hp; exact (pending_law e past now Hr Hp).
Defined.
End DelayLines.
