(* ===== verification/OperationPool.v ===== *)
(** * The pool of operations in flight is a delay line (MultiLatencyOperationExecutor) *)

From Stdlib Require Import Permutation.
From S2P Require Import Prelude.
From S2P Require Import CInt.
From S2P Require Import Cpp.
From S2P Require Import SimValue.
From S2P Require Import SimValueLaws.
From S2P Require Import OSAL.
From S2P Require Import Executors.
From S2P Require Import ExecutorLaws.
From S2P Require Import DelayLines.
#[local] Open Scope cpp_scope.

Section OperationPool.
Context {C : Type}.
Implicit Types (x : ExecutingOperation) (e : MultiLatencyOperationExecutor C) (b : Binding C).

Definition multi_contract e : Contract C :=
  mk_contract (multi_binding e) Late (map Z.to_nat (latencies e)) (Z.to_nat (latency e)).

(** ** What the pool holds *)

Definition outputs_of b (io : list SimValue) : list SimValue := skipn (numberOfInputs b) io.

(** The countdown of a result with latency [l] in stage [s]. *)
Definition cycles (l s : Z) : Z := if s <? l then l - s else INT_MAX - (s - l).
Definition results_at (ls : list Z) (s : Z) : list PendingResult := map (fun l => mk_result (cycles l s) l) ls.

Definition busy x : bool := negb (free_ x).

(** The operations in flight are those of the last starts, [h] with the one of this cycle first. *)
Record flight b (ls : list Z) (L : Z) (pool : list ExecutingOperation) (h : list (option (list SimValue))) : Prop := {
  flight_stage : forall x, In x pool -> busy x = true -> 0 <= stage_ x < L /\ pendingResults_ x = results_at ls (stage_ x) /\
    nth (Z.to_nat (stage_ x)) h None = Some (outputs_of b (iostorage_ x));
  flight_distinct : forall j k x y, nth_error pool j = Some x -> nth_error pool k = Some y -> busy x = true -> busy y = true ->
    stage_ x = stage_ y -> j = k;
  flight_complete : forall d outs, (d < Z.to_nat L)%nat -> nth d h None = Some outs ->
    exists x, In x pool /\ busy x = true /\ stage_ x = Z.of_nat d }.

Definition pool_op_ok e x : Prop :=
  length (iostorage_ x) = (numberOfInputs (multi_binding e) + numberOfOutputs (multi_binding e))%nat /\
  if execOperationsInitialized_ e then map resultLatency_ (pendingResults_ x) = latencies e
  else pendingResults_ x = [] /\ busy x = false /\ Forall (fun v => length (rawData_ v) = 512%nat) (iostorage_ x).

Definition waiting_matches e (past : list (option (list SimValue))) (now : current) : Prop :=
  match now with
  | Nothing => flight (multi_binding e) (latencies e) (latency e) (executingOps_ e) (None :: past)
  | Results _ => False
  | Waiting io =>
    length io = (numberOfInputs (multi_binding e) + numberOfOutputs (multi_binding e))%nat /\
    flight (multi_binding e) (latencies e) (latency e) (executingOps_ e) (Some (outputs_of (multi_binding e) io) :: past) /\
    forall x, In x (executingOps_ e) -> busy x = true -> stage_ x = 0 -> iostorage_ x = io
  end.

Record multi_represents e (past : list (option (list SimValue))) (now : current) : Prop := {
  multi_ok : contract_ok (multi_contract e);
  multi_latency : 0 < latency e < 2 ^ 30;
  multi_pool : length (executingOps_ e) = Z.to_nat (latency e);
  multi_latencies : Forall (fun l => 1 <= l <= latency e) (latencies e);
  multi_free : forall k, freeExecOp_ e = Some k -> exists x, nth_error (executingOps_ e) k = Some x /\ busy x = false;
  multi_ops : Forall (pool_op_ok e) (executingOps_ e);
  multi_now : waiting_matches e past now;
  multi_idle : multi_pending e = false -> Forall (fun x => busy x = false) (executingOps_ e) }.

(** ** Starting an operation *)

Lemma find_free_spec pool : Exists (fun x => busy x = false) pool ->
  exists x, nth_error pool (find_free pool) = Some x /\ busy x = false.
Proof.
  induction pool as [|x pool IH]; intros Hx; [inversion Hx|]. destruct pool as [|y pool].
  - exists x. split; [reflexivity|]. inversion Hx as [? ? H|? ? H]; subst; [exact H | inversion H].
  - cbn [find_free]. destruct (free_ x) eqn:Ex; [exists x; split; [reflexivity | unfold busy; now rewrite Ex]|].
    apply IH. inversion Hx as [? ? H|? ? H]; subst; [unfold busy in H; now rewrite Ex in H | exact H].
Qed.

(** At most [L - 1] operations were in flight, so that one of [L] is free. *)
Lemma some_free b ls L pool past : 0 < L -> length pool = Z.to_nat L -> flight b ls L pool (None :: past) ->
  Exists (fun x => busy x = false) pool.
Proof.
  intros HL Hp [Hs Hd _].
  destruct (Exists_dec (fun x => busy x = false) pool (fun x => bool_dec (busy x) false)) as [|N]; [assumption|]. exfalso.
  assert (B : forall x, In x pool -> busy x = true).
  { intros x Hx. destruct (busy x) eqn:E; [reflexivity|]. exfalso. apply N, Exists_exists. eauto. }
  assert (ND : NoDup (map (fun x => Z.to_nat (stage_ x)) pool)).
  { apply NoDup_nth_error. intros i j Hi E. rewrite length_map in Hi. rewrite !nth_error_map in E.
    destruct (nth_error pool i) as [x|] eqn:Ei; [|apply nth_error_Some in Hi; congruence].
    destruct (nth_error pool j) as [y|] eqn:Ej; [|discriminate]. injection E as E.
    pose proof (nth_error_In _ _ Ei) as Ix. pose proof (nth_error_In _ _ Ej) as Iy.
    apply (Hd i j x y Ei Ej (B x Ix) (B y Iy)). pose proof (Hs x Ix (B x Ix)). pose proof (Hs y Iy (B y Iy)). lia. }
  assert (I : incl (map (fun x => Z.to_nat (stage_ x)) pool) (seq 1 (Z.to_nat L - 1))).
  { intros n Hn. apply in_map_iff in Hn as (x & <- & Hx). destruct (Hs x Hx (B x Hx)) as (R & _ & Hn).
    apply in_seq. destruct (Z.to_nat (stage_ x)) eqn:E; [discriminate | lia]. }
  pose proof (NoDup_incl_length ND I) as Len. rewrite length_map, length_seq in Len. lia.
Qed.

Lemma initialize_pool e past ps : multi_represents e past Nothing -> ports_ok (multi_contract e) ps ->
  exists pool, (if execOperationsInitialized_ e then Done (executingOps_ e) else traverse (initialize e ps) (executingOps_ e))
    = Done pool /\
  multi_represents (mk_multi (multi_binding e) (latency e) (latencies e) pool (freeExecOp_ e) true (multi_pending e)) past Nothing /\
  forall k x, nth_error (executingOps_ e) k = Some x -> busy x = false ->
    exists y, nth_error pool k = Some y /\ busy y = false.
Proof.
  intros R Hps. destruct (execOperationsInitialized_ e) eqn:Ei.
  { exists (executingOps_ e). split; [reflexivity|]. split; [rewrite <- Ei; now destruct e | eauto]. }
  destruct R as [Ok HL Hp Hls Hf Ho [Fs Fd Fc] Hi].
  pose (Q := fun x y => length (iostorage_ y) = length (iostorage_ x) /\
    pendingResults_ y = map (fun l => mk_result l l) (latencies e) /\ free_ y = free_ x).
  destruct (traverse_done (initialize e ps) Q (executingOps_ e)) as (pool & E & HQ).
  { apply Forall_forall. intros x Hx. rewrite Forall_forall in Ho. destruct (Ho x Hx) as [Hlen Hin]. rewrite Ei in Hin.
    destruct Hin as (Hpr & _ & Hraw). unfold initialize.
    destruct (set_widths_done (map (fun p => width (port ps p)) (inputPorts (multi_binding e) ++ outputPorts (multi_binding e)))
      (iostorage_ x)) as (vs & -> & El).
    - rewrite length_map, length_app, Hlen. reflexivity.
    - apply Forall_forall. intros w Hw. apply in_map_iff in Hw as (p & <- & Hin). destruct Hps as [Pi Pw].
      rewrite Forall_forall in Pi, Pw. apply Pw. unfold port. apply nth_In, Pi, Hin.
    - exact Hraw.
    - cbn [obind]. eexists. split; [reflexivity|]. split; [exact El|]. cbn [pendingResults_ free_]. now rewrite Hpr. }
  exists pool. split; [exact E|].
  assert (Hl : length pool = length (executingOps_ e)) by (symmetry; eapply Forall2_length, HQ).
  assert (G : forall k y, nth_error pool k = Some y -> exists x, nth_error (executingOps_ e) k = Some x /\ Q x y).
  { clear -HQ. induction HQ as [|x y l l' H _ IH]; intros [|k] z; cbn; try discriminate; [intros [= <-]; eauto | apply IH]. }
  assert (NB : forall y, In y pool -> busy y = false).
  { intros y Hy. apply In_nth_error in Hy as (k & Hk). destruct (G k y Hk) as (x & Hx & _ & _ & Ef).
    rewrite Forall_forall in Ho. apply nth_error_In, Ho in Hx as [_ Hx]. rewrite Ei in Hx. unfold busy in *. rewrite Ef. apply Hx. }
  assert (SF : forall k x, nth_error (executingOps_ e) k = Some x -> busy x = false ->
    exists y, nth_error pool k = Some y /\ busy y = false).
  { intros k x Hx _. destruct (nth_error pool k) as [y|] eqn:Ey.
    - exists y. split; [reflexivity|]. eapply NB, nth_error_In, Ey.
    - apply nth_error_None in Ey. assert (k < length (executingOps_ e))%nat by (apply nth_error_Some; congruence). lia. }
  split; [|exact SF].
  split; cbn [multi_binding latency latencies executingOps_ freeExecOp_ execOperationsInitialized_ multi_pending]; try assumption.
  - congruence.
  - intros k Hk. destruct (Hf k Hk) as (x & Hx & Bx). eauto.
  - apply Forall_forall. intros y Hy. apply In_nth_error in Hy as (k & Hk). destruct (G k y Hk) as (x & Hx & El & Er & _).
    rewrite Forall_forall in Ho. apply nth_error_In, Ho in Hx as [Hx _]. split; [cbn; congruence|]. cbn. rewrite Er, map_map.
    apply map_id.
  - split.
    + intros y Hy B. rewrite NB in B; [discriminate | exact Hy].
    + intros j k x y Hj _ B. rewrite NB in B; [discriminate | eapply nth_error_In, Hj].
    + intros d outs Hd E'. destruct (Fc d outs Hd E') as (x & Hx & Bx & _). rewrite Forall_forall in Ho.
      apply Ho in Hx as [_ Hx]. rewrite Ei in Hx. destruct Hx as (_ & Hx & _). congruence.
  - intros _. apply Forall_forall. exact NB.
Qed.

(** A free operation becomes the one of this cycle. *)
Lemma start_flight b ls L pool past k x io : Forall (fun l => 1 <= l) ls -> 0 < L ->
  flight b ls L pool (None :: past) -> nth_error pool k = Some x -> busy x = false ->
  map resultLatency_ (pendingResults_ x) = ls ->
  flight b ls L (replace_nth k (start (mk_executing io (pendingResults_ x) (stage_ x) (free_ x))) pool)
    (Some (outputs_of b io) :: past) /\
  forall y, In y (replace_nth k (start (mk_executing io (pendingResults_ x) (stage_ x) (free_ x))) pool) ->
    busy y = true -> stage_ y = 0 -> iostorage_ y = io.
Proof.
  intros Hls HL [Fs Fd Fc] Hk Bx Hr. set (x' := start _).
  assert (S1 : forall y, In y pool -> busy y = true -> 0 < stage_ y).
  { intros y Hy By. destruct (Fs y Hy By) as (R & _ & E). destruct (Z.to_nat (stage_ y)) eqn:En; [discriminate | lia]. }
  split; [split|].
  - intros y Hy By. apply in_replace in Hy as [->|Hy].
    + split; [cbn; lia|]. split; [|reflexivity]. cbn. unfold results_at. rewrite <- Hr, map_map. apply map_ext_in.
      intros r Hin. unfold PendingResult_reset, cycles. rewrite <- Hr in Hls.
      rewrite Forall_forall in Hls. specialize (Hls _ (in_map resultLatency_ _ _ Hin)).
      destruct (Z.ltb_spec 0 (resultLatency_ r)); [now rewrite Z.sub_0_r | lia].
    + destruct (Fs y Hy By) as (R & Er & E). split; [exact R|]. split; [exact Er|].
      destruct (Z.to_nat (stage_ y)) eqn:En; [discriminate | exact E].
  - intros i j y z Hi Hj By Bz E. rewrite nth_error_replace in Hi, Hj. rewrite Hk in Hi, Hj. cbn [option_map] in Hi, Hj.
    destruct (Nat.eqb_spec i k), (Nat.eqb_spec j k); subst; try reflexivity.
    + injection Hi as <-. pose proof (S1 z (nth_error_In _ _ Hj) Bz). cbn in E. lia.
    + injection Hj as <-. pose proof (S1 y (nth_error_In _ _ Hi) By). cbn in E. lia.
    + exact (Fd i j y z Hi Hj By Bz E).
  - intros [|d] outs Hd E.
    + exists x'. split; [|split; reflexivity]. apply (nth_error_In _ k). rewrite nth_error_replace, Nat.eqb_refl, Hk. reflexivity.
    + destruct (Fc (S d) outs Hd E) as (y & Hy & By & Ey). exists y. split; [|now split].
      apply In_nth_error in Hy as (j & Hj). apply (nth_error_In _ j). rewrite nth_error_replace.
      destruct (Nat.eqb_spec j k) as [->|]; [congruence | exact Hj].
  - intros y Hy By E. apply in_replace in Hy as [->|Hy]; [reflexivity|]. pose proof (S1 y Hy By). lia.
Qed.

Lemma copy_inputs_length b ps io : (numberOfInputs b <= length io)%nat -> length (copy_inputs b ps io) = length io.
Proof.
  intros H. unfold copy_inputs. rewrite length_app, length_map, length_combine, length_skipn. unfold numberOfInputs in *. lia.
Qed.

Lemma multi_start e past ps c : multi_represents e past Nothing -> ports_ok (multi_contract e) ps ->
  exists storage, related (fun '(e', ps', c') '(now, ps'', c'') =>
      ps' = ps'' /\ c' = c'' /\ multi_contract e' = multi_contract e /\ multi_represents e' past now)
    (startOperation e ps c) (start_contract (multi_contract e) storage ps c).
Proof.
  intros R Hps. destruct (initialize_pool e past ps R Hps) as (pool & Ep & R1 & SF).
  assert (K : exists k y, findFreeExecutingOperation e = Done k /\ nth_error pool k = Some y /\ busy y = false).
  { destruct R as [_ HL Hp _ Hf _ Hn _]. unfold findFreeExecutingOperation. destruct (freeExecOp_ e) as [k|] eqn:Ek.
    - destruct (Hf k eq_refl) as (x & Hx & Bx). destruct (SF k x Hx Bx) as (y & Hy & By). eauto.
    - destruct (Nat.eqb_spec (length (executingOps_ e)) 0); [lia|].
      destruct (find_free_spec (executingOps_ e)) as (x & Hx & Bx).
      + eapply some_free; [apply HL | exact Hp | exact Hn].
      + destruct (SF _ x Hx Bx) as (y & Hy & By). eauto. }
  destruct K as (k & y & Ek & Hk & By). destruct R1 as [Ok HL Hp Hls _ Ho Hn _].
  cbn [multi_binding latency latencies executingOps_ freeExecOp_ execOperationsInitialized_ multi_pending waiting_matches] in *.
  exists (iostorage_ y). cbn [startOperation multi_executor]. unfold start_multi. rewrite Ek. cbn [obind]. rewrite Ep. cbn [obind]. rewrite Hk. cbn [obind].
  cbn [start_contract multi_contract when binding_of related]. split; [reflexivity|]. split; [reflexivity|]. split; [reflexivity|].
  assert (Hy : pool_op_ok (mk_multi (multi_binding e) (latency e) (latencies e) pool (freeExecOp_ e) true (multi_pending e)) y)
    by (rewrite Forall_forall in Ho; eapply Ho, nth_error_In, Hk).
  destruct Hy as [Hy1 Hy2]. cbn in Hy1, Hy2.
  assert (Lc : length (copy_inputs (multi_binding e) ps (iostorage_ y))
    = (numberOfInputs (multi_binding e) + numberOfOutputs (multi_binding e))%nat) by (rewrite copy_inputs_length; lia).
  split; cbn [multi_binding latency latencies executingOps_ freeExecOp_ execOperationsInitialized_ multi_pending waiting_matches];
    try assumption; try discriminate.
  - now rewrite replace_nth_length.
  - apply Forall_replace; [exact Ho|]. split; cbn [iostorage_ start]; [exact Lc|]. cbn. rewrite map_map. exact Hy2.
  - split; [exact Lc|]. apply start_flight; try assumption; [|lia].
    eapply Forall_impl; [|exact Hls]. cbn. lia.
Qed.

(** ** Advancing the clock *)

Definition due (ls : list Z) (s : Z) (targets : list (nat * SimValue)) : list (nat * SimValue) :=
  concat (map (fun '(l, w) => if l =? s then [w] else []) (combine ls targets)).

(** An operation at the end of a cycle, and the results it delivers there. *)
Definition step (L : Z) (ls : list Z) x : ExecutingOperation :=
  if free_ x then x
  else mk_executing (iostorage_ x) (results_at ls (stage_ x + 1)) (stage_ x + 1) (stage_ x + 1 =? L).
Definition writes b (ls : list Z) x : list (nat * SimValue) :=
  if free_ x then [] else due ls (stage_ x + 1) (combine (outputPorts b) (outputs_of b (iostorage_ x))).

Lemma small_latency z : - 2 ^ 31 <= z < 2 ^ 31 -> s32 z = z.
Proof. intros H. apply (sw_small 32); [lia | unfold is_s; cbn in *; lia]. Qed.

Lemma advance_results_at ls s targets ps : 0 <= s < 2 ^ 30 -> Forall (fun l => 1 <= l < 2 ^ 30) ls ->
  length targets = length ls ->
  advance_results (results_at ls s) targets ps = (results_at ls (s + 1), set_ports (due ls (s + 1) targets) ps).
Proof.
  intros Hs Hls. revert targets ps. induction Hls as [|l ls Hl _ IH]; intros [|w targets] ps Hlen; try discriminate; [reflexivity|].
  cbn [results_at map advance_results cyclesToGo_ resultLatency_]. unfold cycles, INT_MAX in *.
  unfold due. cbn [combine map concat]. rewrite set_ports_app. fold (due ls (s + 1) targets). fold (results_at ls s).
  injection Hlen as Hlen. rewrite small_latency by (destruct (Z.ltb_spec s l); lia).
  destruct (Z.ltb_spec s l), (Z.ltb_spec (s + 1) l), (Z.eqb_spec l (s + 1)); try lia.
  - rewrite (proj2 (Z.eqb_neq _ 0)) by lia. rewrite IH by assumption. cbn [set_ports fold_left]. do 2 f_equal. f_equal. lia.
  - rewrite (proj2 (Z.eqb_eq _ 0)) by lia. rewrite IH by assumption. cbn [set_ports fold_left]. do 2 f_equal. f_equal. lia.
  - rewrite (proj2 (Z.eqb_neq _ 0)) by lia. rewrite IH by assumption. cbn [set_ports fold_left]. do 2 f_equal. f_equal. lia.
Qed.

(** The behaviours of the operations that start. *)
Fixpoint trigger_pool b (pool : list ExecutingOperation) (c : C) : outcome (list ExecutingOperation * C) :=
  match pool with
  | [] => Done ([], c)
  | x :: pool =>
    ' (x, c) <~ (if busy x && (stage_ x =? 0) then
        ' (io, c) <~ simulateTrigger (operation b) (iostorage_ x) c ;
        Done (mk_executing io (pendingResults_ x) (stage_ x) (free_ x), c)
      else Done (x, c)) ;
    ' (pool, c) <~ trigger_pool b pool c ;
    Done (x :: pool, c)
  end.

Definition in_cycle b (ls : list Z) (L : Z) x : Prop := busy x = true ->
  0 <= stage_ x < L /\ pendingResults_ x = results_at ls (stage_ x) /\
  length (iostorage_ x) = (numberOfInputs b + numberOfOutputs b)%nat.

Lemma advance_cycle_step b ls L x ps : Forall (fun l => 1 <= l < 2 ^ 30) ls -> L < 2 ^ 30 -> length ls = numberOfOutputs b ->
  in_cycle b ls L x -> busy x = true ->
  let '(y, ps') := advanceCycle b x ps in
  (if stage_ y =? L then stop y else y) = step L ls x /\ ps' = set_ports (writes b ls x) ps.
Proof.
  intros Hls HL Hlen Hx Bx. destruct (Hx Bx) as (Hs & Hr & Hl). unfold busy in Bx. apply negb_true_iff in Bx.
  unfold advanceCycle. rewrite Hr, advance_results_at; try assumption; [|lia|].
  - rewrite small_latency by lia. cbn [stage_]. unfold step, writes. rewrite Bx. unfold outputs_of.
    destruct (Z.eqb_spec (stage_ x + 1) L); split; reflexivity.
  - rewrite length_combine, length_skipn. unfold numberOfInputs, numberOfOutputs in *. lia.
Qed.

Lemma advance_pool_eq b ls L pool : binding_ok b -> Forall (fun l => 1 <= l < 2 ^ 30) ls -> L < 2 ^ 30 ->
  length ls = numberOfOutputs b -> Forall (in_cycle b ls L) pool -> forall i free found ps c,
  related (fun '(pool', free', found', ps', c') '(pool1, c1) =>
      pool' = map (step L ls) pool1 /\ ps' = set_ports (concat (map (writes b ls) pool1)) ps /\ c' = c1 /\
      found' = found || existsb busy pool /\
      forall k, free' = Some k -> free = Some k \/ exists x, (i <= k)%nat /\ nth_error pool (k - i) = Some x /\ busy x = false)
    (advance_pool b L i pool free found ps c) (trigger_pool b pool c).
Proof.
  intros Hb Hls HL Hlen Hp. induction Hp as [|x pool Hx _ IH]; intros i free found ps c.
  { cbn. rewrite orb_false_r. auto 10. }
  cbn [advance_pool trigger_pool existsb]. destruct (free_ x) eqn:Fx.
  - assert (Bx : busy x = false) by (unfold busy; now rewrite Fx). rewrite Bx. cbn [andb orb obind].
    specialize (IH (S i) (Some i) found ps c).
    destruct (advance_pool _ _ _ _ _ _ _ _) as [[[[[pool' free'] found'] ps'] c']| |], (trigger_pool _ _ _) as [[pool1 c1]| |];
      cbn [related obind] in *; try contradiction; auto.
    destruct IH as (-> & -> & -> & Ef & Hk). cbn [map concat]. unfold step at 2, writes at 2. rewrite Fx. cbn [app].
    repeat split; try assumption. intros k E. right.
    destruct (Hk k E) as [[= <-]|(y & Hle & Hy & By)].
    + exists x. rewrite Nat.sub_diag. auto.
    + exists y. split; [lia|]. replace (k - i)%nat with (S (k - S i)) by lia. auto.
  - assert (Bx : busy x = true) by (unfold busy; now rewrite Fx). rewrite Bx. cbn [andb orb].
    assert (T : forall y c, in_cycle b ls L y -> free_ y = false -> related (fun '(pool', free', found', ps', c') '(pool1, c1) =>
      pool' = map (step L ls) pool1 /\ ps' = set_ports (concat (map (writes b ls) pool1)) ps /\ c' = c1 /\
      found' = found || true /\
      forall k, free' = Some k -> free = Some k \/ exists z, (i <= k)%nat /\ nth_error (x :: pool) (k - i) = Some z /\ busy z = false)
      (let '(execOp, ps) := advanceCycle b y ps in
       let execOp := if stage_ execOp =? L then stop execOp else execOp in
       ' (pool, free, found, ps, c) <~ advance_pool b L (S i) pool free true ps c ;
       Done (execOp :: pool, free, found, ps, c))
      (' (pool, c) <~ trigger_pool b pool c ; Done (y :: pool, c))).
    { intros y c' Hy Fy. pose proof (advance_cycle_step b ls L y ps Hls HL Hlen Hy ltac:(unfold busy; now rewrite Fy)) as A.
      destruct (advanceCycle b y ps) as [z ps1]. destruct A as [-> ->].
      specialize (IH (S i) free true (set_ports (writes b ls y) ps) c').
      destruct (advance_pool _ _ _ _ _ _ _ _) as [[[[[pool' free'] found'] ps'] c2]| |], (trigger_pool _ _ _) as [[pool1 c1]| |];
        cbn [related obind] in *; try contradiction; auto.
      destruct IH as (-> & -> & -> & Ef & Hk). cbn [map concat]. rewrite set_ports_app, orb_true_r.
      repeat split; try assumption. intros k E. destruct (Hk k E) as [|(z' & Hle & Hz & Bz)]; [now left|]. right.
      exists z'. split; [lia|]. replace (k - i)%nat with (S (k - S i)) by lia. auto. }
    destruct (stage_ x =? 0) eqn:Es; [|now apply T].
    destruct (simulateTrigger _ _ c) as [[io c']| |] eqn:ET; [cbn [obind] | reflexivity | exact I]. apply T; [|reflexivity].
    intros _. destruct (Hx Bx) as (H1 & H2 & H3). repeat split; try apply H1; try assumption. cbn [iostorage_].
    rewrite <- H3. eapply trigger_length; eassumption.
Qed.

Lemma trigger_pool_none b pool c : (forall x, In x pool -> busy x = true -> stage_ x <> 0) ->
  trigger_pool b pool c = Done (pool, c).
Proof.
  induction pool as [|x pool IH]; intros H; [reflexivity|]. cbn [trigger_pool].
  assert (E : busy x && (stage_ x =? 0) = false).
  { destruct (busy x) eqn:B; [|reflexivity]. apply Z.eqb_neq, H; [now left | exact B]. }
  rewrite E. cbn [obind]. rewrite IH; [reflexivity|]. intros y Hy. apply H. now right.
Qed.

Lemma trigger_pool_one b pool k x c : nth_error pool k = Some x -> busy x = true -> stage_ x = 0 ->
  (forall j y, nth_error pool j = Some y -> busy y = true -> stage_ y = 0 -> j = k) ->
  trigger_pool b pool c = (' (io, c) <~ simulateTrigger (operation b) (iostorage_ x) c ;
    Done (replace_nth k (mk_executing io (pendingResults_ x) (stage_ x) (free_ x)) pool, c)).
Proof.
  revert k. induction pool as [|y pool IH]; intros [|k] Hk Bx Sx U; try discriminate; cbn [trigger_pool].
  - injection Hk as ->. rewrite Bx, Sx. cbn [andb Z.eqb].
    destruct (simulateTrigger _ _ _) as [[io c']| |]; cbn [obind]; [|reflexivity..].
    rewrite trigger_pool_none; [reflexivity|]. intros y Hy By Sy. apply In_nth_error in Hy as (j & Hj).
    discriminate (U (S j) y Hj By Sy).
  - assert (E : busy y && (stage_ y =? 0) = false).
    { destruct (busy y) eqn:B; [|reflexivity]. apply Z.eqb_neq. intros Sy. discriminate (U 0%nat y eq_refl B Sy). }
    rewrite E. cbn [obind]. rewrite (IH k Hk Bx Sx) by (intros j z Hj Bz Sz; injection (U (S j) z Hj Bz Sz); auto).
    destruct (simulateTrigger _ _ _) as [[io c']| |]; reflexivity.
Qed.

(** ** The end of the cycle *)

Lemma busy_step L ls x : busy (step L ls x) = busy x && negb (stage_ x + 1 =? L).
Proof. unfold step, busy. destruct (free_ x) eqn:E; cbn [free_ negb andb]; [now rewrite E | reflexivity]. Qed.

Lemma stage_step L ls x : busy x = true -> stage_ (step L ls x) = stage_ x + 1 /\
  pendingResults_ (step L ls x) = results_at ls (stage_ x + 1) /\ iostorage_ (step L ls x) = iostorage_ x.
Proof. unfold step, busy. now destruct (free_ x). Qed.

Lemma step_flight b ls L pool h : flight b ls L pool h -> flight b ls L (map (step L ls) pool) (None :: h).
Proof.
  intros [Fs Fd Fc]. split.
  - intros y Hy By. apply in_map_iff in Hy as (x & <- & Hx). rewrite busy_step in By. apply andb_true_iff in By as [Bx Nx].
    apply negb_true_iff, Z.eqb_neq in Nx. destruct (stage_step L ls x Bx) as (-> & -> & ->).
    destruct (Fs x Hx Bx) as (R & _ & E). split; [lia|]. split; [reflexivity|].
    replace (Z.to_nat (stage_ x + 1)) with (S (Z.to_nat (stage_ x))) by lia. exact E.
  - intros i j x y Hi Hj Bx By E. rewrite nth_error_map in Hi, Hj.
    destruct (nth_error pool i) as [x0|] eqn:Ei; [|discriminate]. destruct (nth_error pool j) as [y0|] eqn:Ej; [|discriminate].
    injection Hi as <-. injection Hj as <-. rewrite busy_step in Bx, By. apply andb_true_iff in Bx as [Bx _], By as [By _].
    destruct (stage_step L ls x0 Bx) as (Ex & _), (stage_step L ls y0 By) as (Ey & _).
    apply (Fd i j x0 y0); try assumption. lia.
  - intros [|d] outs Hd E; [discriminate|]. destruct (Fc d outs ltac:(lia) E) as (x & Hx & Bx & Sx).
    exists (step L ls x). split; [now apply in_map|]. rewrite busy_step, Bx, Sx.
    destruct (stage_step L ls x Bx) as (-> & _). rewrite (proj2 (Z.eqb_neq _ _)) by lia. split; [reflexivity | lia].
Qed.

Lemma in_due ls s targets w : In w (due ls s targets) <->
  exists i, nth_error ls i = Some s /\ nth_error targets i = Some w.
Proof.
  unfold due. rewrite in_concat. split.
  - intros (ws & Hws & Hin). apply in_map_iff in Hws as ([l u] & <- & Hlu). apply In_nth_error in Hlu as (i & Hi).
    apply nth_error_combine in Hi as [Hl Hu]. destruct (Z.eqb_spec l s) as [->|]; [|contradiction].
    destruct Hin as [->|[]]. eauto.
  - intros (i & Hl & Hw). exists [w]. split; [|now left]. apply in_map_iff. exists (s, w). rewrite Z.eqb_refl.
    split; [reflexivity|]. apply (nth_error_In _ i). now apply nth_error_combine.
Qed.

Lemma NoDup_due ls s targets : NoDup (map fst targets) -> NoDup (due ls s targets).
Proof.
  revert targets. induction ls as [|l ls IH]; intros [|w targets] N; try constructor. inversion N as [|? ? Hw N']; subst.
  specialize (IH targets N'). unfold due in *. cbn [combine map concat]. destruct (l =? s); [|exact IH]. constructor; [|exact IH].
  intros Hin. apply Hw, in_map. fold (due ls s targets) in Hin. apply in_due in Hin as (i & _ & Hi). eapply nth_error_In, Hi.
Qed.

(** What the pool writes at the end of a cycle is what is due. *)
Lemma pool_deliveries b ls L pool h ps : flight b ls L pool h -> NoDup (outputPorts b) -> length ls = numberOfOutputs b ->
  Forall (fun l => 1 <= l <= L) ls ->
  (forall x, In x pool -> length (iostorage_ x) = (numberOfInputs b + numberOfOutputs b)%nat) ->
  set_ports (concat (map (writes b ls) pool)) ps
  = set_ports (deliveries (mk_contract b Late (map Z.to_nat ls) (Z.to_nat L)) h) ps.
Proof.
  intros [Fs Fd Fc] ND Hlen Hls Hio. symmetry. apply set_ports_permutation; [|now apply deliveries_distinct].
  assert (Lo : forall x, In x pool -> length (outputPorts b) = length (outputs_of b (iostorage_ x))).
  { intros x Hx. unfold outputs_of. rewrite length_skipn, Hio by assumption. unfold numberOfOutputs. lia. }
  apply NoDup_Permutation.
  - eapply NoDup_map_inv, deliveries_distinct. exact ND.
  - apply NoDup_concat_map.
    + intros x Hx. unfold writes. destruct (free_ x); [constructor|]. apply NoDup_due. rewrite map_fst_combine by now apply Lo. exact ND.
    + intros i j x y [p v] Hi Hj Hx Hy. unfold writes in Hx, Hy.
      destruct (free_ x) eqn:Bx; [contradiction|]. destruct (free_ y) eqn:By; [contradiction|].
      apply in_due in Hx as (m & Hm & Ex), Hy as (n & Hn & Ey). apply nth_error_combine in Ex as [Ex _], Ey as [Ey _].
      assert (m = n) as <-.
      { rewrite NoDup_nth_error in ND. apply ND; [apply nth_error_Some; congruence | congruence]. }
      apply (Fd i j x y Hi Hj); [unfold busy; now rewrite Bx | unfold busy; now rewrite By|].
      rewrite Hm in Hn. injection Hn as Hn. lia.
  - intros [p v]. rewrite in_deliveries, in_concat. cbn [binding_of result_latencies]. split.
    + intros (i & l & outs & Hp & Hl & Hh & ->). rewrite nth_error_map in Hl.
      destruct (nth_error ls i) as [l'|] eqn:El; [|discriminate]. injection Hl as <-.
      rewrite Forall_forall in Hls. pose proof (Hls _ (nth_error_In _ _ El)) as Rl.
      destruct (Fc (Z.to_nat l' - 1)%nat outs ltac:(lia) Hh) as (x & Hx & Bx & Sx).
      destruct (Fs x Hx Bx) as (_ & _ & Eh). replace (Z.to_nat (stage_ x)) with (Z.to_nat l' - 1)%nat in Eh by lia.
      rewrite Hh in Eh. injection Eh as ->. exists (writes b ls x). split; [now apply in_map|].
      unfold writes. unfold busy in Bx. apply negb_true_iff in Bx. rewrite Bx. apply in_due. exists i. split; [rewrite El; f_equal; lia|].
      apply nth_error_combine. split; [exact Hp|]. apply nth_error_nth'. rewrite <- Lo by assumption. apply nth_error_Some. congruence.
    + intros (ws & Hws & Hin). apply in_map_iff in Hws as (x & <- & Hx). unfold writes in Hin.
      destruct (free_ x) eqn:Bx; [contradiction|]. apply in_due in Hin as (i & Hl & Hw). apply nth_error_combine in Hw as [Hp Hv].
      destruct (Fs x Hx ltac:(unfold busy; now rewrite Bx)) as (R & _ & E).
      exists i, (Z.to_nat (stage_ x + 1)), (outputs_of b (iostorage_ x)). split; [exact Hp|]. rewrite nth_error_map, Hl.
      split; [reflexivity|]. split; [|now rewrite (nth_error_nth _ _ _ Hv)].
      now replace (Z.to_nat (stage_ x + 1) - 1)%nat with (Z.to_nat (stage_ x)) by lia.
Qed.

Lemma step_ok e x : pool_op_ok e x -> pool_op_ok e (step (latency e) (latencies e) x).
Proof.
  intros [Hl Hi]. unfold step. destruct (free_ x) eqn:Fx; [now split|]. split; [exact Hl|].
  destruct (execOperationsInitialized_ e); cbn [pendingResults_].
  - unfold results_at. rewrite map_map. apply map_id.
  - destruct Hi as (_ & Bx & _). unfold busy in Bx. now rewrite Fx in Bx.
Qed.

(** The executor at the end of a cycle whose behaviours have run. *)
Lemma finish_cycle e past now outs pool free found ps : multi_represents e past now ->
  flight (multi_binding e) (latencies e) (latency e) pool (outs :: past) -> Forall (pool_op_ok e) pool ->
  (forall k x, nth_error (executingOps_ e) k = Some x -> exists y, nth_error pool k = Some y /\ busy y = busy x) ->
  length pool = length (executingOps_ e) -> found = existsb busy (executingOps_ e) ->
  (forall k, free = Some k -> freeExecOp_ e = Some k \/ exists x, nth_error (executingOps_ e) k = Some x /\ busy x = false) ->
  set_ports (concat (map (writes (multi_binding e) (latencies e)) pool)) ps
  = set_ports (deliveries (multi_contract e) (outs :: past)) ps /\
  multi_represents (mk_multi (multi_binding e) (latency e) (latencies e) (map (step (latency e) (latencies e)) pool) free
    (execOperationsInitialized_ e) found) (outs :: past) Nothing.
Proof.
  intros [Ok HL Hp Hls Hf Ho _ _] F Hok Hsame Hlen -> Hfree. pose proof (contract_binding _ Ok) as Hb. cbn in Hb. split.
  - apply pool_deliveries; try assumption.
    + apply Hb.
    + pose proof (latencies_length _ Ok) as E. cbn in E. now rewrite length_map in E.
    + intros x Hx. rewrite Forall_forall in Hok. now apply Hok.
  - split; cbn [multi_binding latency latencies executingOps_ freeExecOp_ execOperationsInitialized_ multi_pending waiting_matches];
      try assumption.
    + rewrite length_map. congruence.
    + intros k Hk. assert (exists x, nth_error (executingOps_ e) k = Some x /\ busy x = false) as (x & Hx & Bx)
        by (destruct (Hfree k Hk); auto).
      destruct (Hsame k x Hx) as (y & Hy & By). exists (step (latency e) (latencies e) y). rewrite nth_error_map, Hy.
      split; [reflexivity|]. now rewrite busy_step, By, Bx.
    + apply Forall_map. eapply Forall_impl; [|exact Hok]. intros x. apply step_ok.
    + now apply step_flight.
    + intros E. apply Forall_forall. intros y Hy. apply in_map_iff in Hy as (x & <- & Hx). rewrite busy_step.
      apply In_nth_error in Hx as (k & Hk). destruct (nth_error (executingOps_ e) k) as [z|] eqn:Ez.
      * destruct (Hsame k z Ez) as (x' & Hx' & Bx'). rewrite Hk in Hx'. injection Hx' as <-. rewrite Bx'.
        apply nth_error_In in Ez. destruct (busy z) eqn:Bz; [|reflexivity].
        assert (existsb busy (executingOps_ e) = true) by (apply existsb_exists; eauto). congruence.
      * apply nth_error_None in Ez. assert (k < length pool)%nat by (apply nth_error_Some; congruence). lia.
Qed.

Lemma started_flight b ls L pool past k x io io' : flight b ls L pool (Some (outputs_of b io) :: past) ->
  nth_error pool k = Some x -> busy x = true -> stage_ x = 0 ->
  flight b ls L (replace_nth k (mk_executing io' (pendingResults_ x) (stage_ x) (free_ x)) pool)
    (Some (outputs_of b io') :: past).
Proof.
  intros [Fs Fd Fc] Hk Bx Sx. set (x' := mk_executing _ _ _ _). split.
  - intros y Hy By. apply In_nth_error in Hy as (j & Hj). rewrite nth_error_replace, Hk in Hj. cbn [option_map] in Hj.
    destruct (Nat.eqb_spec j k) as [_|N].
    + injection Hj as <-. destruct (Fs x (nth_error_In _ _ Hk) Bx) as (R & Er & _). cbn [stage_ pendingResults_ x'].
      rewrite Sx in *. now repeat split.
    + destruct (Fs y (nth_error_In _ _ Hj) By) as (R & Er & E). split; [exact R|]. split; [exact Er|].
      destruct (Z.to_nat (stage_ y)) eqn:En; [|exact E]. exfalso. apply N.
      apply (Fd j k y x Hj Hk By Bx). lia.
  - intros i j y z Hi Hj By Bz E. rewrite nth_error_replace, Hk in Hi, Hj. cbn [option_map] in Hi, Hj.
    destruct (Nat.eqb_spec i k) as [Ei|], (Nat.eqb_spec j k) as [Ej|]; [congruence| | |exact (Fd i j y z Hi Hj By Bz E)].
    + injection Hi as <-. rewrite Ei. symmetry. exact (Fd j k z x Hj Hk Bz Bx (eq_sym E)).
    + injection Hj as <-. rewrite Ej. exact (Fd i k y x Hi Hk By Bx E).
  - intros [|d] outs Hd E.
    + exists x'. split; [|split; [exact Bx | exact Sx]]. apply (nth_error_In _ k). now rewrite nth_error_replace, Nat.eqb_refl, Hk.
    + destruct (Fc (S d) outs Hd E) as (y & Hy & By & Sy). exists y. split; [|now split].
      apply In_nth_error in Hy as (j & Hj). apply (nth_error_In _ j). rewrite nth_error_replace.
      destruct (Nat.eqb_spec j k) as [->|]; [|exact Hj]. rewrite Hk in Hj. injection Hj as ->. lia.
Qed.

Lemma run_pool e past now c : multi_represents e past now ->
  related (fun '(pool1, c1) '(outs, c2) => c1 = c2 /\ length pool1 = length (executingOps_ e) /\
      flight (multi_binding e) (latencies e) (latency e) pool1 (outs :: past) /\ Forall (pool_op_ok e) pool1 /\
      forall k x, nth_error (executingOps_ e) k = Some x -> exists y, nth_error pool1 k = Some y /\ busy y = busy x)
    (trigger_pool (multi_binding e) (executingOps_ e) c) (run_waiting (multi_contract e) now c).
Proof.
  intros [Ok HL Hp Hls Hf Ho Hn Hi]. pose proof (contract_binding _ Ok) as Hb. cbn in Hb.
  destruct now as [|outs|io]; [|contradiction|].
  - rewrite trigger_pool_none.
    + cbn. eauto 10.
    + intros x Hx Bx Sx. destruct (flight_stage _ _ _ _ _ Hn x Hx Bx) as (_ & _ & E). now rewrite Sx in E.
  - destruct Hn as (Lio & Hn & Hs). destruct (flight_complete _ _ _ _ _ Hn 0%nat _ ltac:(lia) eq_refl) as (x & Hx & Bx & Sx).
    change (Z.of_nat 0) with 0 in Sx. pose proof (Hs x Hx Bx Sx) as Eio. pose proof Hx as Hok. rewrite Forall_forall in Ho. apply Ho in Hok. rewrite <- Forall_forall in Ho.
    apply In_nth_error in Hx as (k & Hk).
    rewrite (trigger_pool_one _ _ k x) by (try assumption; intros j y Hj By Sy; apply (flight_distinct _ _ _ _ _ Hn j k y x); congruence).
    cbn [run_waiting multi_contract binding_of]. rewrite Eio.
    destruct (simulateTrigger _ io c) as [[io' c']| |] eqn:ET; cbn [obind related]; auto.
    split; [reflexivity|]. split; [apply replace_nth_length|]. split; [eapply started_flight; eassumption|]. split.
    + apply Forall_replace; [exact Ho|]. destruct Hok as [_ Hok]. split; cbn [iostorage_ pendingResults_].
      * apply (trigger_length _ _ _ _ _ Hb) in ET. congruence.
      * destruct (execOperationsInitialized_ e); [exact Hok|]. destruct Hok as (_ & B & _). congruence.
    + intros j y Hj. rewrite nth_error_replace. destruct (Nat.eqb_spec j k) as [->|]; [|eauto].
      rewrite Hk in *. injection Hj as <-. cbn. eexists. split; reflexivity.
Qed.

Lemma multi_advance e past now ps c : multi_represents e past now ->
  related (fun '(e', ps', c') '(outs, c'') =>
      ps' = set_ports (deliveries (multi_contract e) (outs :: past)) ps /\ c' = c'' /\
      multi_contract e' = multi_contract e /\ multi_represents e' (outs :: past) Nothing)
    (advanceClock e ps c) (run_waiting (multi_contract e) now c).
Proof.
  intros R. pose proof R as [Ok HL Hp Hls Hf Ho Hn Hi]. pose proof (contract_binding _ Ok) as Hb. cbn in Hb.
  assert (Hc : Forall (in_cycle (multi_binding e) (latencies e) (latency e)) (executingOps_ e)).
  { apply Forall_forall. intros x Hx Bx. rewrite Forall_forall in Ho. destruct (Ho x Hx) as [Hl _].
    destruct now; [| contradiction | destruct Hn as (_ & Hn & _)]; destruct (flight_stage _ _ _ _ _ Hn x Hx Bx) as (A & B & _); auto. }
  assert (Ls : Forall (fun l => 1 <= l < 2 ^ 30) (latencies e)) by (eapply Forall_impl; [|exact Hls]; cbn; lia).
  assert (Hlen : length (latencies e) = numberOfOutputs (multi_binding e)).
  { pose proof (latencies_length _ Ok) as E. cbn in E. now rewrite length_map in E. }
  pose proof (advance_pool_eq (multi_binding e) (latencies e) (latency e) (executingOps_ e) Hb Ls ltac:(lia) Hlen Hc
    0 (freeExecOp_ e) false ps c) as A.
  cbn [advanceClock multi_executor]. unfold advance_multi.
  assert (T : related (fun '(pool1, c1) '(outs, c2) => c1 = c2 /\ length pool1 = length (executingOps_ e) /\
      flight (multi_binding e) (latencies e) (latency e) pool1 (outs :: past) /\ Forall (pool_op_ok e) pool1 /\
      forall k x, nth_error (executingOps_ e) k = Some x -> exists y, nth_error pool1 k = Some y /\ busy y = busy x)
    (trigger_pool (multi_binding e) (executingOps_ e) c) (run_waiting (multi_contract e) now c))
    by now apply run_pool.
  destruct (advance_pool _ _ _ _ _ _ _ _) as [[[[[pool' free'] found'] ps'] c']| |],
    (trigger_pool _ _ _) as [[pool1 c1]| |], (run_waiting _ _ _) as [[outs c2]| |];
    cbn [related obind] in *; try contradiction; try congruence; try exact I.
  destruct A as (-> & -> & -> & Ef & Hk), T as (<- & Hl & HF & Hok & Hsame).
  assert (Hfree : forall k, free' = Some k ->
    freeExecOp_ e = Some k \/ exists x, nth_error (executingOps_ e) k = Some x /\ busy x = false).
  { intros k Hk'. destruct (Hk k Hk') as [|(x & _ & Hx & Bx)]; [now left|]. right. exists x. now rewrite Nat.sub_0_r in Hx. }
  destruct (finish_cycle e past now outs pool1 free' found' ps R HF Hok Hsame Hl Ef Hfree) as [E1 E2]. auto.
Qed.

Lemma multi_quiet e past : multi_represents e past Nothing -> quiet (multi_contract e) past ->
  multi_represents e (None :: past) Nothing.
Proof.
  intros [Ok HL Hp Hls Hf Ho Hn Hi] Hq. split; try assumption. unfold quiet in Hq. cbn [multi_contract duration] in Hq.
  destruct Hn as [Fs Fd Fc]. split; [|exact Fd|].
  - intros x Hx Bx. destruct (Fs x Hx Bx) as (R & _ & E). destruct (Z.to_nat (stage_ x)) as [|d] eqn:Ed; [discriminate|].
    cbn in E. rewrite Hq in E by lia. discriminate.
  - intros [|[|d]] outs Hd E; [discriminate..|]. cbn in E. rewrite Hq in E by lia. discriminate.
Qed.

Lemma multi_pending_quiet e past now : multi_represents e past now -> multi_pending e = false ->
  now = Nothing /\ quiet (multi_contract e) past.
Proof.
  intros [Ok HL Hp Hls Hf Ho Hn Hi] E. specialize (Hi E). rewrite Forall_forall in Hi.
  assert (N : forall h d, (d < Z.to_nat (latency e))%nat ->
    flight (multi_binding e) (latencies e) (latency e) (executingOps_ e) h -> nth d h None = None).
  { intros h d Hd F. destruct (nth d h None) as [outs|] eqn:En; [|reflexivity].
    destruct (flight_complete _ _ _ _ _ F d outs Hd En) as (x & Hx & Bx & _). rewrite Hi in Bx by assumption. discriminate. }
  destruct now as [|outs|io]; [|contradiction|].
  - split; [reflexivity|]. intros d Hd. exact (N _ (S d) Hd Hn).
  - destruct Hn as (_ & Hn & _). discriminate (N _ 0%nat ltac:(lia) Hn).
Qed.

#[export] Instance multi_line : DelayLine (MultiLatencyOperationExecutor C) := {|
  contract := multi_contract; represents := multi_represents;
  line_ok := multi_ok; start_law := multi_start; advance_law := multi_advance;
  quiet_law := multi_quiet; pending_law := multi_pending_quiet |}.

Lemma multi_new memory L ls b : length memory = 512%nat -> 0 < L < 2 ^ 30 -> Forall (fun l => 1 <= l <= L) ls ->
  length ls = numberOfOutputs b -> binding_ok b ->
  exists e, MultiLatencyOperationExecutor_new memory L ls b = Done e /\ represents e [] Nothing /\
    contract e = mk_contract b Late (map Z.to_nat ls) (Z.to_nat L).
Proof.
  intros Hm HL Hls Hlen Hb. destruct (default_value memory Hm) as (v & E & Hv). unfold MultiLatencyOperationExecutor_new.
  rewrite E. cbn [obind]. eexists. split; [reflexivity|]. split; [|reflexivity].
  set (eop := mk_executing _ _ _ _).
  assert (F : forall x, In x (repeat eop (Z.to_nat L)) -> x = eop) by (intros x; apply repeat_spec).
  split; unfold multi_contract;
    cbn [multi_binding latency latencies executingOps_ freeExecOp_ execOperationsInitialized_ multi_pending waiting_matches];
    try assumption; try discriminate.
  - split; [exact Hb | cbn; now rewrite length_map|]. cbn. apply Forall_map. eapply Forall_impl; [|exact Hls]. cbn. lia.
  - apply repeat_length.
  - apply Forall_forall. intros x Hx. apply F in Hx as ->. split; [apply repeat_length|]. split; [reflexivity|]. split; [reflexivity|].
    apply Forall_forall. intros y Hy. now apply repeat_spec in Hy as ->.
  - split.
    + intros x Hx Bx. apply F in Hx as ->. discriminate.
    + intros j k x y Hj _ Bx. apply nth_error_In, F in Hj as ->. discriminate.
    + intros [|[|d]]; discriminate.
Qed.
End OperationPool.
