(* ===== verification/FunctionUnit.v ===== *)
(** * Function units of the simulator (FUState)

    A unit has ports, an executor for each of its operations, and a context; it triggers at most one
    operation in a cycle.  Its clock is skipped while it is idle, and only the executor triggered last
    is advanced when no other has operations in flight.  [operations] of the unit are numbered by
    their executors.  The clock of the memories and of the operation states are functions on the
    context; [stateful] says that an operation of the unit has a state. *)

From Stdlib Require String.
From S2P Require Import Prelude.
From S2P Require Import CInt.
From S2P Require Import Cpp.
From S2P Require Import SimValue.
From S2P Require Import OSAL.
From S2P Require Import Executors.
Import String.StringSyntax.
#[local] Open Scope cpp_scope.
#[local] Open Scope string_scope.
#[local] Open Scope Z_scope.
#[local] Open Scope list_scope.

Definition no_operation_code : exception := SimulatorException "Tried to trigger FU without operation code.".

Section FunctionUnit.
Context {C E : Type} `{OperationExecutor C E}.
Context (stateful : bool) (advance_states memory_clock : C -> outcome C).

Record FUState := mk_fu {
  trigger_ : bool; nextOperation_ : option nat; nextExecutor_ : option nat; execList_ : list E;
  activeExecutors_ : Z; idle_ : bool; unit_ports : ports; unit_context : C }.

Definition FUState_new (ps : ports) (c : C) : FUState := mk_fu false None None [] 0 false ps c.

Definition addOperationExecutor (e : E) (fu : FUState) : FUState :=
  mk_fu (trigger_ fu) (nextOperation_ fu) (nextExecutor_ fu) (execList_ fu ++ [e]) (activeExecutors_ fu) (idle_ fu)
    (unit_ports fu) (unit_context fu).

Definition setTriggered (fu : FUState) : FUState :=
  mk_fu true (nextOperation_ fu) (nextExecutor_ fu) (execList_ fu) (activeExecutors_ fu) false
    (unit_ports fu) (unit_context fu).
Definition setOperation (operation executor : nat) (fu : FUState) : FUState :=
  mk_fu (trigger_ fu) (Some operation) (Some executor) (execList_ fu) (activeExecutors_ fu) (idle_ fu)
    (unit_ports fu) (unit_context fu).
Definition set_port (p : nat) (v : SimValue) (fu : FUState) : FUState :=
  mk_fu (trigger_ fu) (nextOperation_ fu) (nextExecutor_ fu) (execList_ fu) (activeExecutors_ fu) (idle_ fu)
    (setValue (unit_ports fu) (p, v)) (unit_context fu).

Definition isIdle (fu : FUState) : bool := idle_ fu && negb stateful.

(** ** Moves to the ports *)

(** A move to an operand port, to the triggering port, or to the virtual port of the triggering port
    that selects an operation. *)
Inductive Move := Operand (p : nat) (v : SimValue) | Triggering (p : nat) (v : SimValue) | Opcode (operation p : nat) (v : SimValue).

Definition InputPort_setValue (move : Move) (fu : FUState) : FUState :=
  match move with
  | Operand p v => set_port p v fu
  | Triggering p v => set_port p v (setTriggered fu)
  | Opcode j p v => set_port p v (setTriggered (setTriggered (setOperation j j fu)))
  end.

(** ** The clock *)

Definition endClock (fu : FUState) : outcome FUState :=
  if trigger_ fu then
    match nextOperation_ fu with
    | None => Throws no_operation_code
    | Some operation =>
      let next := match nextExecutor_ fu with Some executor => executor | None => operation end in
      match nth_error (execList_ fu) next with
      | None => Throws AssertionFailed
      | Some e =>
        ' (e, ps, c) <~ startOperation e (unit_ports fu) (unit_context fu) ;
        let pending := hasPendingOperations e in
        Done (mk_fu false (nextOperation_ fu) (Some next) (replace_nth next e (execList_ fu))
                (if pending then u64 (activeExecutors_ fu + 1) else activeExecutors_ fu)
                (if pending then false else idle_ fu) ps c)
      end
    end
  else Done fu.

(** The loop over the executors that have pending operations; it counts those that still have. *)
Fixpoint advance_all (es : list E) (active : Z) (ps : ports) (c : C) : outcome (list E * Z * ports * C) :=
  match es with
  | [] => Done ([], active, ps, c)
  | e :: es =>
    if hasPendingOperations e then
      ' (e, ps, c) <~ advanceClock e ps c ;
      ' (es, active, ps, c) <~ advance_all es (if hasPendingOperations e then u64 (active + 1) else active) ps c ;
      Done (e :: es, active, ps, c)
    else
      ' (es, active, ps, c) <~ advance_all es active ps c ;
      Done (e :: es, active, ps, c)
  end.

Definition advance_context (c : C) : outcome C := if stateful then advance_states c else Done c.

(** The executor of the operation triggered last, if it has pending operations. *)
Definition next_pending (fu : FUState) : option (nat * E) :=
  match nextExecutor_ fu with
  | None => None
  | Some j => match nth_error (execList_ fu) j with
              | Some e => if hasPendingOperations e then Some (j, e) else None
              | None => None
              end
  end.

Definition advance_unit (fu : FUState) : outcome FUState :=
  if (activeExecutors_ fu =? 0) && negb stateful then
    Done (mk_fu (trigger_ fu) (nextOperation_ fu) (nextExecutor_ fu) (execList_ fu) (activeExecutors_ fu) true
            (unit_ports fu) (unit_context fu))
  else
    match (if activeExecutors_ fu =? 1 then next_pending fu else None) with
    | Some (j, e) =>
      ' (e, ps, c) <~ advanceClock e (unit_ports fu) (unit_context fu) ;
      let pending := hasPendingOperations e in
      c <~ advance_context c ;
      Done (mk_fu (trigger_ fu) (nextOperation_ fu) (nextExecutor_ fu) (replace_nth j e (execList_ fu))
              (b2z pending) (negb pending) ps c)
    | None =>
      ' (es, active, ps, c) <~ advance_all (execList_ fu) 0 (unit_ports fu) (unit_context fu) ;
      c <~ advance_context c ;
      Done (mk_fu (trigger_ fu) (nextOperation_ fu) (nextExecutor_ fu) es active ((active =? 0) && negb stateful) ps c)
    end.

(** The unit's part of [SimulationController::simulateCycle]: the moves of the instruction, the end
    of the clock cycle of every unit, the clocks of the memories, the clocks of the units. *)
Definition unit_cycle (moves : list Move) (fu : FUState) : outcome FUState :=
  let fu := fold_left (fun fu move => InputPort_setValue move fu) moves fu in
  fu <~ (if isIdle fu then Done fu else endClock fu) ;
  c <~ memory_clock (unit_context fu) ;
  let fu := mk_fu (trigger_ fu) (nextOperation_ fu) (nextExecutor_ fu) (execList_ fu) (activeExecutors_ fu) (idle_ fu)
              (unit_ports fu) c in
  if isIdle fu then Done fu else advance_unit fu.

(** The ports at the start of each cycle of a program. *)
Fixpoint run_unit (program : list (list Move)) (fu : FUState) : outcome (list ports * FUState) :=
  match program with
  | [] => Done ([], fu)
  | moves :: program =>
    let before := unit_ports fu in
    fu <~ unit_cycle moves fu ;
    ' (trace, fu) <~ run_unit program fu ;
    Done (before :: trace, fu)
  end.
End FunctionUnit.
Arguments FUState : clear implicits.
