(* ===== verification/FunctionUnitLaws.v ===== *)
(** * Function units deliver results on time

    The specification of a unit remembers the operations it started, most recent first; a result is
    written to its port at the end of the cycle in which its latency is over.  The unit of the
    simulator, which skips idle cycles and executors, refines it, for any executors that are delay
    lines. *)

From S2P Require Import Prelude.
From S2P Require Import CInt.
From S2P Require Import Cpp.
From S2P Require Import SimValue.
From S2P Require Import SimValueLaws.
From S2P Require Import OSAL.
From S2P Require Import BaseInt.
From S2P Require Import Executors.
From S2P Require Import ExecutorLaws.
From S2P Require Import DelayLines.
From S2P Require Import OperationPool.
From S2P Require Import FunctionUnit.
#[local] Open Scope cpp_scope.

(** ** The specification *)

Section Specification.
Context {C : Type}.
Context (stateful : bool) (advance_states memory_clock : C -> outcome C).

(** An operation that was started, with its results. *)
Definition Start : Type := nat * list SimValue.

Record Unit := mk_unit { ports_of : ports; context_of : C; selected : option nat; starts : list (option Start) }.

(** The starts of one operation. *)
Definition started_by (j : nat) (s : option Start) : option (list SimValue) :=
  match s with Some (i, outs) => if (i =? j)%nat then Some outs else None | None => None end.
Definition past_of (j : nat) (ss : list (option Start)) : list (option (list SimValue)) := map (started_by j) ss.

Definition move_to (u : ports * option nat * bool) (move : Move) : ports * option nat * bool :=
  let '(ps, selected, triggered) := u in
  match move with
  | Operand p v => (setValue ps (p, v), selected, triggered)
  | Triggering p v => (setValue ps (p, v), selected, true)
  | Opcode j p v => (setValue ps (p, v), Some j, true)
  end.

Definition results_due (ks : list (Contract C)) (ss : list (option Start)) : list (nat * SimValue) :=
  concat (map (fun '(j, k) => deliveries k (past_of j ss)) (combine (seq 0 (length ks)) ks)).

(** One operation starts, the memories and its behaviour run, and what is due is written. *)
Definition spec_start (ks : list (Contract C)) (storage : list SimValue) (triggered : bool) (selected : option nat)
  (ps : ports) (c : C) : outcome (option (nat * Contract C * current) * ports * C) :=
  if triggered then
    match selected with
    | None => Throws no_operation_code
    | Some j =>
      match nth_error ks j with
      | None => Throws AssertionFailed
      | Some k => ' (now, ps, c) <~ start_contract k storage ps c ; Done (Some (j, k, now), ps, c)
      end
    end
  else Done (None, ps, c).

Definition spec_run (now : option (nat * Contract C * current)) (c : C) : outcome (option Start * C) :=
  match now with
  | None => Done (None, c)
  | Some (j, k, now) => ' (outs, c) <~ run_waiting k now c ; Done (option_map (pair j) outs, c)
  end.

Definition spec_cycle (ks : list (Contract C)) (storage : list SimValue) (moves : list Move) (u : Unit) : outcome Unit :=
  let '(ps, selected, triggered) := fold_left move_to moves (ports_of u, selected u, false) in
  ' (now, ps, c) <~ spec_start ks storage triggered selected ps (context_of u) ;
  c <~ memory_clock c ;
  ' (started, c) <~ spec_run now c ;
  c <~ (if stateful then advance_states c else Done c) ;
  Done (mk_unit (set_ports (results_due ks (started :: starts u)) ps) c selected (started :: starts u)).

(** [storage] of each cycle: what the buffer of an operation held before it ran. *)
Fixpoint spec_program (ks : list (Contract C)) (program : list (list Move * list SimValue)) (u : Unit)
  : outcome (list ports * Unit) :=
  match program with
  | [] => Done ([], u)
  | (moves, storage) :: program =>
    let before := ports_of u in
    u <~ spec_cycle ks storage moves u ;
    ' (trace, u) <~ spec_program ks program u ;
    Done (before :: trace, u)
  end.
End Specification.
Arguments Unit : clear implicits.

Section Refinement.
Context {C X : Type} `{DelayLine C X}.
Context (stateful : bool) (advance_states memory_clock : C -> outcome C).
Implicit Types (fu : FUState C X) (u : Unit C) (es : list X) (ss : list (option Start)).

(** What operation [j] has of the current cycle. *)
Definition now_of (now : option (nat * current)) (j : nat) : current :=
  match now with Some (i, now) => if (i =? j)%nat then now else Nothing | None => Nothing end.

Definition executors_represent es ss (now : option (nat * current)) : Prop :=
  forall j e, nth_error es j = Some e -> represents e (past_of j ss) (now_of now j).

(** The executors that are counted as active: all others have nothing in flight. *)
Definition counted es (next : option nat) (active : Z) ss (now : option (nat * current)) : Prop :=
  exists l, NoDup l /\ Z.of_nat (length l) <= active /\
  forall j e, nth_error es j = Some e -> In j l \/
    (now_of now j = Nothing /\ quiet (contract e) (past_of j ss) /\ (next = Some j -> hasPendingOperations e = false)).

Record mid_represents fu ss (now : option (nat * current)) : Prop := {
  mid_trigger : trigger_ fu = false;
  mid_next : nextExecutor_ fu = nextOperation_ fu;
  mid_executors : executors_represent (execList_ fu) ss now;
  mid_counted : counted (execList_ fu) (nextExecutor_ fu) (activeExecutors_ fu) ss now;
  mid_active : 0 <= activeExecutors_ fu <= Z.of_nat (length (execList_ fu)) + 1;
  mid_size : Z.of_nat (length (execList_ fu)) < 2 ^ 32;
  mid_ports : Forall (fun e => ports_ok (contract e) (unit_ports fu)) (execList_ fu) }.

(** ** Advancing some of the executors *)

Fixpoint advance_some (some : nat -> X -> bool) (j : nat) es (ps : ports) (c : C) : outcome (list X * ports * C) :=
  match es with
  | [] => Done ([], ps, c)
  | e :: es =>
    ' (e, ps, c) <~ (if some j e then advanceClock e ps c else Done (e, ps, c)) ;
    ' (es, ps, c) <~ advance_some some (S j) es ps c ;
    Done (e :: es, ps, c)
  end.

(** The current entry of the history, once the behaviours have run. *)
Fixpoint run_currents (now : option (nat * current)) (j : nat) es (c : C) : outcome (list (option (list SimValue)) * C) :=
  match es with
  | [] => Done ([], c)
  | e :: es =>
    ' (outs, c) <~ run_waiting (contract e) (now_of now j) c ;
    ' (rest, c) <~ run_currents now (S j) es c ;
    Done (outs :: rest, c)
  end.

Definition due_now (ss : list (option Start)) (j : nat) (es : list X) (outs : list (option (list SimValue))) :=
  concat (map (fun '(i, (e, o)) => deliveries (contract e) (o :: past_of i ss))
    (combine (seq j (length es)) (combine es outs))).

Lemma advance_some_related some es j ss now ps c :
  (forall i e, nth_error es i = Some e -> represents e (past_of (j + i) ss) (now_of now (j + i))) ->
  (forall i e, nth_error es i = Some e -> some (j + i)%nat e = false ->
     now_of now (j + i) = Nothing /\ quiet (contract e) (past_of (j + i) ss)) ->
  related (fun '(es', ps', c') '(outs, c'') => c' = c'' /\ length outs = length es /\ map contract es' = map contract es /\
      ps' = set_ports (due_now ss j es outs) ps /\
      (forall i e' o, nth_error es' i = Some e' -> nth_error outs i = Some o ->
         represents e' (o :: past_of (j + i) ss) Nothing) /\
      forall i e e', nth_error es i = Some e -> nth_error es' i = Some e' -> some (j + i)%nat e = false -> e' = e)
    (advance_some some j es ps c) (run_currents now j es c).
Proof.
  revert j ps c. induction es as [|e es IH]; intros j ps c Hr Hq.
  { cbn. repeat split; intros [|i]; discriminate. }
  cbn [advance_some run_currents].
  pose proof (Hr 0%nat e eq_refl) as R0. rewrite Nat.add_0_r in R0.
  assert (A : related (fun '(e', ps', c') '(o, c'') => ps' = set_ports (deliveries (contract e) (o :: past_of j ss)) ps /\
      c' = c'' /\ contract e' = contract e /\ represents e' (o :: past_of j ss) Nothing /\ (some j e = false -> e' = e))
    (if some j e then advanceClock e ps c else Done (e, ps, c)) (run_waiting (contract e) (now_of now j) c)).
  { destruct (some j e) eqn:Es.
    - eapply related_impl; [|apply advance_law, R0]. intros [[e' ps'] c'] [o c'']. intuition discriminate.
    - destruct (Hq 0%nat e eq_refl ltac:(now rewrite Nat.add_0_r)) as [N Q]. rewrite Nat.add_0_r in N, Q. rewrite N in *.
      cbn [run_waiting related]. rewrite deliveries_quiet by (assumption || eapply line_ok, R0).
      repeat split. apply quiet_law; assumption. }
  eapply related_bind; [exact A|]. clear A. intros [[e' ps'] c'] [o c''] (-> & <- & Ec & Re & Ese).
  eapply related_bind; [apply (IH (S j) _ c')|].
  - intros i x Hi. replace (S j + i)%nat with (j + S i)%nat by lia. now apply Hr.
  - intros i x Hi. replace (S j + i)%nat with (j + S i)%nat by lia. now apply Hq.
  - intros [[es' ps2] c2] [outs c3] (-> & Hl & Hm & -> & Hr' & Hs). cbn [related length map].
    split; [reflexivity|]. split; [now rewrite Hl|]. split; [now rewrite Ec, Hm|]. split; [|split].
    + unfold due_now. cbn [length seq combine map concat]. now rewrite set_ports_app.
    + intros [|i] x y Hx Hy; [injection Hx as <-; injection Hy as <-; now rewrite Nat.add_0_r|].
      replace (j + S i)%nat with (S j + i)%nat by lia. now apply Hr'.
    + intros [|i] x y Hx Hy Es; [injection Hx as <-; injection Hy as <-; rewrite Nat.add_0_r in Es; auto|].
      replace (j + S i)%nat with (S j + i)%nat in Es by lia. now apply (Hs i).
Qed.

(** ** One behaviour runs in a cycle *)

Definition with_contract es (now : option (nat * current)) : option (nat * Contract C * current) :=
  match now with
  | Some (j, now) => match nth_error es j with Some e => Some (j, contract e, now) | None => None end
  | None => None
  end.

Lemma run_currents_others now s es j c : (forall i, (i < length es)%nat -> now_of now (j + i) = Nothing /\ started_by (j + i) s = None) ->
  run_currents now j es c = Done (map (fun i => started_by i s) (seq j (length es)), c).
Proof.
  revert j. induction es as [|e es IH]; intros j H1; [reflexivity|]. cbn [run_currents length seq map].
  destruct (H1 0%nat ltac:(cbn; lia)) as [N Es]. rewrite Nat.add_0_r in N, Es. rewrite N, Es. cbn [run_waiting obind]. rewrite IH; [reflexivity|].
  intros i Hi. replace (S j + i)%nat with (j + S i)%nat by lia. apply H1. cbn. lia.
Qed.

Lemma run_currents_one i cur es j e c : nth_error es i = Some e ->
  run_currents (Some ((j + i)%nat, cur)) j es c = (' (o, c) <~ run_waiting (contract e) cur c ;
    Done (map (fun n => started_by n (option_map (pair (j + i)%nat) o)) (seq j (length es)), c)).
Proof.
  revert j i. induction es as [|x es IH]; intros j [|i] E; try discriminate; cbn [run_currents length seq map now_of].
  - injection E as ->. rewrite Nat.add_0_r, Nat.eqb_refl. destruct (run_waiting _ _ _) as [[o c']| |]; cbn [obind]; [|reflexivity..].
    rewrite (run_currents_others _ (option_map (pair j) o)).
    + cbn [obind]. do 3 f_equal. destruct o; cbn [option_map started_by]; [now rewrite Nat.eqb_refl | reflexivity].
    + intros n Hn. cbn [now_of]. rewrite (proj2 (Nat.eqb_neq _ _)) by lia. split; [reflexivity|].
      destruct o; cbn [option_map started_by]; [|reflexivity]. now rewrite (proj2 (Nat.eqb_neq _ _)) by lia.
  - rewrite (proj2 (Nat.eqb_neq _ _)) by lia. cbn [run_waiting obind].
    replace (j + S i)%nat with (S j + i)%nat by lia. rewrite (IH (S j) i E).
    destruct (run_waiting _ _ _) as [[o c']| |]; cbn [obind]; [|reflexivity..]. do 3 f_equal.
    destruct o; cbn [option_map started_by]; [|reflexivity]. now rewrite (proj2 (Nat.eqb_neq _ _)) by lia.
Qed.

Lemma run_currents_spec now es c : run_currents now 0 es c = (' (s, c) <~ spec_run (with_contract es now) c ;
  Done (map (fun n => started_by n s) (seq 0 (length es)), c)).
Proof.
  destruct now as [[j cur]|]; cbn [with_contract].
  - destruct (nth_error es j) as [e|] eqn:E; cbn [spec_run obind].
    + pose proof (run_currents_one j cur es 0 e c E) as R. cbn [Nat.add] in R. rewrite R.
      now destruct (run_waiting _ _ _) as [[o c']| |].
    + apply run_currents_others. intros i Hi. cbn. apply nth_error_None in E. now rewrite (proj2 (Nat.eqb_neq _ _)) by lia.
  - cbn [spec_run obind]. now apply run_currents_others.
Qed.

Lemma due_now_spec ss s es j : due_now ss j es (map (fun n => started_by n s) (seq j (length es)))
  = concat (map (fun '(i, k) => deliveries k (past_of i (s :: ss))) (combine (seq j (length es)) (map contract es))).
Proof.
  revert j. induction es as [|e es IH]; intros j; [reflexivity|]. unfold due_now in *.
  cbn [length seq map combine concat]. rewrite IH. reflexivity.
Qed.

(** ** The end of the cycle *)

(** The executors that need not be advanced have nothing in flight. *)
Lemma advance_executors some fu ss now :
  executors_represent (execList_ fu) ss now ->
  (forall i e, nth_error (execList_ fu) i = Some e -> some i e = false ->
     now_of now i = Nothing /\ quiet (contract e) (past_of i ss)) ->
  related (fun '(es', ps', c') '(s, c'') => c' = c'' /\ map contract es' = map contract (execList_ fu) /\
      ps' = set_ports (results_due (map contract (execList_ fu)) (s :: ss)) (unit_ports fu) /\
      executors_represent es' (s :: ss) None /\
      forall i e e', nth_error (execList_ fu) i = Some e -> nth_error es' i = Some e' -> some i e = false -> e' = e)
    (advance_some some 0 (execList_ fu) (unit_ports fu) (unit_context fu))
    (spec_run (with_contract (execList_ fu) now) (unit_context fu)).
Proof.
  intros Hr Hq. pose proof (advance_some_related some (execList_ fu) 0 ss now (unit_ports fu) (unit_context fu) Hr Hq) as A.
  rewrite run_currents_spec in A.
  destruct (advance_some _ _ _ _ _) as [[[es' ps'] c']| |], (spec_run _ _) as [[s c'']| |]; cbn [obind related] in *;
    try contradiction; try assumption.
  destruct A as (-> & Hl & Hm & -> & Hr' & Hs). split; [reflexivity|]. split; [exact Hm|].
  split; [|split; [|exact Hs]].
  - unfold results_due. now rewrite due_now_spec, length_map.
  - intros j e' He'. apply (Hr' j e'); [exact He'|]. assert (Hj : (j < length (execList_ fu))%nat).
    { rewrite <- (length_map contract), <- Hm, length_map. apply nth_error_Some. congruence. }
    rewrite nth_error_map, nth_error_seq. apply Nat.ltb_lt in Hj. now rewrite Hj.
Qed.

(** The representation at the start of a cycle. *)
Definition starts_represent fu ss : Prop := mid_represents fu ss None /\
  activeExecutors_ fu <= Z.of_nat (length (execList_ fu)) /\ (idle_ fu = true -> activeExecutors_ fu = 0).

Lemma next_cycle fu ss s now es next active idle ps c :
  mid_represents fu ss now -> executors_represent es (s :: ss) None -> map contract es = map contract (execList_ fu) ->
  counted es (nextExecutor_ fu) active (s :: ss) None -> 0 <= active <= Z.of_nat (length es) ->
  (idle = true -> active = 0) -> ps = set_ports next (unit_ports fu) ->
  starts_represent (mk_fu (trigger_ fu) (nextOperation_ fu) (nextExecutor_ fu) es active idle ps c) (s :: ss).
Proof.
  intros [Ht Hn Hr Hc Ha Hz Hp] Hr' Hm Hc' Ha' Hi ->.
  assert (Hl : length es = length (execList_ fu)) by now rewrite <- (length_map contract), Hm, length_map.
  split; [|split; [cbn; lia | exact Hi]]. split; cbn [trigger_ nextOperation_ nextExecutor_ execList_ activeExecutors_ unit_ports unit_context];
    try assumption; try lia.
  assert (G : Forall (fun k => ports_ok k (set_ports next (unit_ports fu))) (map contract es)).
  { rewrite Hm. apply Forall_map. eapply Forall_impl; [|exact Hp]. intros e He.
    destruct (set_ports_ok next (unit_ports fu)) as [L W]; [apply He|]. now apply (ports_ok_keep _ (unit_ports fu)). }
  now apply Forall_map in G.
Qed.

(** With nothing counted as active, nothing is in flight. *)
Lemma counted_none es next ss now : counted es next 0 ss now -> forall j e, nth_error es j = Some e ->
  now_of now j = Nothing /\ quiet (contract e) (past_of j ss) /\ (next = Some j -> hasPendingOperations e = false).
Proof. intros (l & _ & Hl & Hc) j e He. destruct l; [|cbn in Hl; lia]. destruct (Hc j e He); [contradiction | assumption]. Qed.

Lemma counted_later es next active ss s : executors_represent es (s :: ss) None ->
  (forall j e, nth_error es j = Some e -> quiet (contract e) (past_of j (s :: ss)) /\
     (next = Some j -> hasPendingOperations e = false)) -> 0 <= active -> counted es next active (s :: ss) None.
Proof.
  intros _ Hq Ha. exists []. split; [constructor|]. split; [exact Ha|]. intros j e He. right. split; [reflexivity|]. now apply Hq.
Qed.

(** A run over an executor that was skipped leaves its history quiet. *)
Lemma nothing_started es now c s c' j : spec_run (with_contract es now) c = Done (s, c') ->
  now_of now j = Nothing -> started_by j s = None.
Proof.
  intros E Hn. destruct now as [[i cur]|]; cbn [with_contract] in E; [|injection E as <- _; reflexivity].
  destruct (nth_error es i) as [e|]; [|injection E as <- _; reflexivity]. cbn [spec_run now_of] in *.
  destruct (Nat.eqb_spec i j) as [->|Hij].
  - rewrite Hn in E. cbn in E. injection E as <- _. reflexivity.
  - destruct (run_waiting _ _ _) as [[o c1]| |]; [|discriminate..]. injection E as <- _. destruct o; [|reflexivity].
    cbn. now rewrite (proj2 (Nat.eqb_neq i j)).
Qed.

Lemma advance_none j es ps c : advance_some (fun _ _ => false) j es ps c = Done (es, ps, c).
Proof. revert j. induction es as [|e es IH]; intros j; [reflexivity|]. cbn. now rewrite IH. Qed.

Lemma advance_passed j k es ps c : (k < j)%nat -> advance_some (fun n _ => (n =? k)%nat) j es ps c = Done (es, ps, c).
Proof.
  revert j. induction es as [|e es IH]; intros j Hk; [reflexivity|]. cbn [advance_some].
  rewrite (proj2 (Nat.eqb_neq _ _)) by lia. cbn [obind]. now rewrite IH by lia.
Qed.

Lemma advance_next i j es e ps c : nth_error es i = Some e ->
  advance_some (fun n _ => (n =? j + i)%nat) j es ps c
  = (' (e, ps, c) <~ advanceClock e ps c ; Done (replace_nth i e es, ps, c)).
Proof.
  revert i j. induction es as [|x es IH]; intros [|i] j E; try discriminate; cbn [advance_some replace_nth].
  - injection E as ->. rewrite Nat.add_0_r, Nat.eqb_refl.
    destruct (advanceClock e ps c) as [[[e' ps'] c']| |]; cbn [obind]; [|reflexivity..]. now rewrite advance_passed by lia.
  - rewrite (proj2 (Nat.eqb_neq _ _)) by lia. cbn [obind]. replace (j + S i)%nat with (S j + i)%nat by lia. rewrite (IH i (S j) E).
    now destruct (advanceClock e ps c) as [[[e' ps'] c']| |].
Qed.

(** The executors that are still pending after the loop. *)
Fixpoint still_pending (j : nat) es (es' : list X) : list nat :=
  match es, es' with
  | e :: es, e' :: es' =>
    if hasPendingOperations e && hasPendingOperations e' then j :: still_pending (S j) es es' else still_pending (S j) es es'
  | _, _ => []
  end.

Lemma still_pending_length j es es' : (length (still_pending j es es') <= length es)%nat.
Proof.
  revert j es'. induction es as [|e es IH]; intros j [|e' es']; cbn; try lia. specialize (IH (S j) es').
  destruct (_ && _); cbn; lia.
Qed.

Lemma still_pending_spec j es es' i e e' : nth_error es i = Some e -> nth_error es' i = Some e' ->
  hasPendingOperations e = true -> hasPendingOperations e' = true -> In (j + i)%nat (still_pending j es es').
Proof.
  revert j i es'. induction es as [|x es IH]; intros j [|i] [|x' es'] E E' P P'; try discriminate; cbn [still_pending].
  - injection E as ->. injection E' as ->. rewrite P, P', Nat.add_0_r. now left.
  - replace (j + S i)%nat with (S j + i)%nat by lia. destruct (_ && _); [right|]; now apply IH.
Qed.

Lemma still_pending_distinct j es es' : NoDup (still_pending j es es').
Proof.
  assert (L : forall es es' j k, In k (still_pending j es es') -> (j <= k)%nat).
  { clear. induction es as [|e es IH]; intros [|e' es'] j k Hk; try contradiction. cbn in Hk.
    destruct (_ && _); [destruct Hk as [->|Hk]; [lia|]|]; apply IH in Hk; lia. }
  revert j es'. induction es as [|e es IH]; intros j [|e' es']; try constructor. cbn [still_pending].
  destruct (_ && _); [constructor|]; auto. intros Hin. apply L in Hin. lia.
Qed.

Lemma advance_all_some j es active ps c : 0 <= active -> active + Z.of_nat (length es) < 2 ^ 64 ->
  advance_all es active ps c
  = (' (es', ps, c) <~ advance_some (fun _ e => hasPendingOperations e) j es ps c ;
     Done (es', active + Z.of_nat (length (still_pending j es es')), ps, c)).
Proof.
  revert j active ps c. induction es as [|e es IH]; intros j active ps c Ha Hl.
  { cbn. now rewrite Z.add_0_r. }
  cbn [advance_all advance_some length] in *. destruct (hasPendingOperations e) eqn:P.
  - destruct (advanceClock e ps c) as [[[e' ps'] c']| |]; cbn [obind]; [|reflexivity..].
    assert (U : u64 (active + 1) = active + 1) by (apply (uw_small 64); unfold is_u; cbn in *; lia).
    rewrite (IH (S j)) by (destruct (hasPendingOperations e'); lia).
    destruct (advance_some _ _ _ _ _) as [[[es' ps2] c2]| |]; cbn [obind]; [|reflexivity..]. cbn [still_pending]. rewrite P.
    destruct (hasPendingOperations e'); cbn [andb length]; [|reflexivity]. rewrite U. do 4 f_equal. lia.
  - cbn [obind]. rewrite (IH (S j)) by lia.
    destruct (advance_some _ _ _ _ _) as [[[es' ps2] c2]| |]; cbn [obind]; [|reflexivity..]. cbn [still_pending]. now rewrite P.
Qed.

(** What the end of a cycle establishes. *)
Definition cycle_ended fu ss fu' (end_ : option Start * C) : Prop :=
  starts_represent fu' (fst end_ :: ss) /\ unit_context fu' = snd end_ /\
  unit_ports fu' = set_ports (results_due (map contract (execList_ fu)) (fst end_ :: ss)) (unit_ports fu) /\
  map contract (execList_ fu') = map contract (execList_ fu) /\ nextOperation_ fu' = nextOperation_ fu.

Definition spec_end (now : option (nat * Contract C * current)) (c : C) : outcome (option Start * C) :=
  ' (s, c) <~ spec_run now c ; c <~ advance_context stateful advance_states c ; Done (s, c).

(** Nothing to advance. *)
Lemma unit_at_rest fu ss now idle : mid_represents fu ss now -> activeExecutors_ fu = 0 -> stateful = false ->
  related (cycle_ended fu ss)
    (Done (mk_fu (trigger_ fu) (nextOperation_ fu) (nextExecutor_ fu) (execList_ fu) (activeExecutors_ fu) idle
             (unit_ports fu) (unit_context fu)))
    (spec_end (with_contract (execList_ fu) now) (unit_context fu)).
Proof.
  intros Hm Ha Hs. pose proof (mid_counted _ _ _ Hm) as Hc. rewrite Ha in Hc. pose proof (counted_none _ _ _ _ Hc) as Q.
  assert (Q' : forall i e, nth_error (execList_ fu) i = Some e -> false = false ->
    now_of now i = Nothing /\ quiet (contract e) (past_of i ss)).
  { intros i e He _. destruct (Q i e He) as (? & ? & _). now split. }
  pose proof (advance_executors (fun _ _ => false) fu ss now (mid_executors _ _ _ Hm) Q') as A.
  rewrite advance_none in A. unfold spec_end, advance_context. rewrite Hs.
  destruct (spec_run _ _) as [[s c]| |] eqn:Er; cbn [obind related] in *; try contradiction.
  destruct A as (<- & _ & Eps & Hr & _).
  unfold cycle_ended. cbn [fst snd unit_context unit_ports execList_ nextOperation_].
  split; [|auto]. eapply next_cycle; try eassumption; try reflexivity; [| |auto].
  - apply counted_later; [exact Hr| |lia]. intros j e He. destruct (Q j e He) as (N & Hq & P). split; [|exact P].
    cbn [past_of map]. rewrite (nothing_started _ _ _ _ _ _ Er N). now apply quiet_later.
  - rewrite Ha. lia.
Qed.

(** The executors in flight, after those that were skipped and those that were advanced. *)
Lemma counted_after es ss now s c c' es' next l active : spec_run (with_contract es now) c = Done (s, c') ->
  executors_represent es' (s :: ss) None -> map contract es' = map contract es -> NoDup l -> Z.of_nat (length l) <= active ->
  (forall j e e', nth_error es j = Some e -> nth_error es' j = Some e' -> ~ In j l ->
     hasPendingOperations e' = false \/
     (now_of now j = Nothing /\ quiet (contract e) (past_of j ss) /\ next <> Some j)) ->
  counted es' next active (s :: ss) None.
Proof.
  intros Er Hr Hm Hd Hl Hc. exists l. split; [exact Hd|]. split; [exact Hl|]. intros j e' He'.
  destruct (in_dec Nat.eq_dec j l) as [|Hn]; [now left|]. right.
  assert (Hk : nth_error (map contract es) j = Some (contract e')) by (rewrite <- Hm, nth_error_map, He'; reflexivity).
  rewrite nth_error_map in Hk. destruct (nth_error es j) as [e|] eqn:He; [|discriminate]. injection Hk as Hk.
  split; [reflexivity|]. destruct (Hc j e e' He He' Hn) as [P|(N & Q & P)].
  - split; [|auto]. apply (pending_law e' _ Nothing); [exact (Hr j e' He') | exact P].
  - split; [|congruence]. rewrite <- Hk. cbn [past_of map]. rewrite (nothing_started _ _ _ _ _ _ Er N). now apply quiet_later.
Qed.

Lemma next_pending_spec fu j e : next_pending fu = Some (j, e) ->
  nextExecutor_ fu = Some j /\ nth_error (execList_ fu) j = Some e /\ hasPendingOperations e = true.
Proof.
  unfold next_pending. destruct (nextExecutor_ fu) as [i|]; [|discriminate].
  destruct (nth_error (execList_ fu) i) as [x|] eqn:Ex; [|discriminate]. destruct (hasPendingOperations x) eqn:P; [|discriminate].
  now intros [= <- <-].
Qed.

(** Only the executor of the last operation has anything in flight. *)
Lemma unit_next fu ss now j e : mid_represents fu ss now -> activeExecutors_ fu = 1 -> next_pending fu = Some (j, e) ->
  related (cycle_ended fu ss)
    (' (e, ps, c) <~ advanceClock e (unit_ports fu) (unit_context fu) ;
     c <~ advance_context stateful advance_states c ;
     Done (mk_fu (trigger_ fu) (nextOperation_ fu) (nextExecutor_ fu) (replace_nth j e (execList_ fu))
             (b2z (hasPendingOperations e)) (negb (hasPendingOperations e)) ps c))
    (spec_end (with_contract (execList_ fu) now) (unit_context fu)).
Proof.
  intros Hm Ha Hn. apply next_pending_spec in Hn as (Hnext & He & Hp).
  destruct (mid_counted _ _ _ Hm) as (l & Hd & Hl & Hc). rewrite Ha in Hl.
  assert (Hj : l = [j]).
  { destruct (Hc j e He) as [Hin|(_ & _ & P)]; [|rewrite P in Hp by assumption; discriminate].
    destruct l as [|i [|k l]]; [contradiction | destruct Hin as [->|[]]; reflexivity | cbn in Hl; lia]. }
  subst l.
  assert (Q : forall i x, nth_error (execList_ fu) i = Some x -> (i =? j)%nat = false ->
    now_of now i = Nothing /\ quiet (contract x) (past_of i ss)).
  { intros i x Hx Hij. apply Nat.eqb_neq in Hij. destruct (Hc i x Hx) as [[->|[]]|(N & Hq & _)]; [congruence | now split]. }
  pose proof (advance_executors (fun n _ => (n =? j)%nat) fu ss now (mid_executors _ _ _ Hm) Q) as A.
  pose proof (advance_next j 0 (execList_ fu) e (unit_ports fu) (unit_context fu) He) as En. cbn [Nat.add] in En. rewrite En in A.
  unfold spec_end. destruct (advanceClock e _ _) as [[[e' ps'] c']| |], (spec_run _ _) as [[s c]| |] eqn:Er;
    cbn [obind related] in *; try contradiction; try assumption.
  destruct A as (<- & Em & Eps & Hr & _). destruct (advance_context _ _ c') as [c| |]; cbn [obind related]; auto.
  unfold cycle_ended. cbn [fst snd unit_context unit_ports execList_ nextOperation_]. split; [|auto].
  assert (Hlt : (j < length (execList_ fu))%nat) by (apply nth_error_Some; congruence).
  eapply next_cycle; try eassumption.
  - eapply (counted_after _ _ _ _ _ _ _ _ (if hasPendingOperations e' then [j] else [])); try eassumption.
    + destruct (hasPendingOperations e'); repeat constructor. easy.
    + destruct (hasPendingOperations e'); cbn; lia.
    + intros i x x' Hx Hx' Hi. rewrite nth_error_replace, He in Hx'. destruct (Nat.eqb_spec i j) as [->|Hij].
      * left. injection Hx' as <-. destruct (hasPendingOperations e'); [|reflexivity]. destruct Hi. now left.
      * right. destruct (Q i x Hx) as [N Hq]; [now apply Nat.eqb_neq|]. split; [exact N|]. split; [exact Hq|]. congruence.
  - rewrite replace_nth_length. destruct (hasPendingOperations e'); cbn [b2z]; lia.
  - destruct (hasPendingOperations e'); cbn; [discriminate | reflexivity].
Qed.

(** All executors that have pending operations are advanced. *)
Lemma unit_all fu ss now : mid_represents fu ss now ->
  related (cycle_ended fu ss)
    (' (es, active, ps, c) <~ advance_all (execList_ fu) 0 (unit_ports fu) (unit_context fu) ;
     c <~ advance_context stateful advance_states c ;
     Done (mk_fu (trigger_ fu) (nextOperation_ fu) (nextExecutor_ fu) es active ((active =? 0) && negb stateful) ps c))
    (spec_end (with_contract (execList_ fu) now) (unit_context fu)).
Proof.
  intros Hm. pose proof (mid_size _ _ _ Hm) as Hz.
  rewrite (advance_all_some 0) by lia. unfold spec_end.
  assert (Q : forall i x, nth_error (execList_ fu) i = Some x -> hasPendingOperations x = false ->
    now_of now i = Nothing /\ quiet (contract x) (past_of i ss)).
  { intros i x Hx Hp. exact (pending_law x _ _ (mid_executors _ _ _ Hm i x Hx) Hp). }
  pose proof (advance_executors (fun _ e => hasPendingOperations e) fu ss now (mid_executors _ _ _ Hm) Q) as A.
  destruct (advance_some _ _ _ _ _) as [[[es' ps'] c']| |], (spec_run _ _) as [[s c]| |] eqn:Er;
    cbn [obind related] in *; try contradiction; try assumption.
  destruct A as (<- & Em & Eps & Hr & Hs). destruct (advance_context _ _ c') as [c| |]; cbn [obind related]; auto.
  unfold cycle_ended. cbn [fst snd unit_context unit_ports execList_ nextOperation_]. split; [|auto].
  assert (Hlen : length es' = length (execList_ fu)) by now rewrite <- (length_map contract), Em, length_map.
  pose proof (still_pending_length 0 (execList_ fu) es') as Hl.
  eapply next_cycle; try eassumption.
  - eapply (counted_after _ _ _ _ _ _ _ _ (still_pending 0 (execList_ fu) es')); try eassumption.
    + apply still_pending_distinct.
    + lia.
    + intros i x x' Hx Hx' Hi. left. destruct (hasPendingOperations x') eqn:P'; [|reflexivity]. exfalso. apply Hi.
      destruct (hasPendingOperations x) eqn:P; [exact (still_pending_spec 0 _ _ i x x' Hx Hx' P P')|].
      rewrite (Hs i x x' Hx Hx' P) in P'. congruence.
  - lia.
  - intros Hi. apply andb_true_iff in Hi as [Hi _]. now apply Z.eqb_eq.
Qed.

Lemma unit_advance fu ss now : mid_represents fu ss now -> (idle_ fu = true -> activeExecutors_ fu = 0) ->
  related (cycle_ended fu ss) (if isIdle stateful fu then Done fu else advance_unit stateful advance_states fu)
    (spec_end (with_contract (execList_ fu) now) (unit_context fu)).
Proof.
  intros Hm Hi. unfold isIdle, advance_unit. destruct (idle_ fu && negb stateful) eqn:E.
  - apply andb_true_iff in E as [Ei Es]. apply negb_true_iff in Es.
    pose proof (unit_at_rest fu ss now (idle_ fu) Hm (Hi Ei) Es) as R. now destruct fu.
  - destruct ((activeExecutors_ fu =? 0) && negb stateful) eqn:Ea.
    + apply andb_true_iff in Ea as [Ea Es]. apply negb_true_iff in Es. apply Z.eqb_eq in Ea. now apply unit_at_rest.
    + destruct (Z.eqb_spec (activeExecutors_ fu) 1); [|now apply unit_all].
      destruct (next_pending fu) as [[j x]|] eqn:En; [now apply unit_next | now apply unit_all].
Qed.

(** ** The start of the cycle *)

Lemma moves_spec moves fu : (trigger_ fu = true -> idle_ fu = false) -> nextExecutor_ fu = nextOperation_ fu ->
  let fu' := fold_left (fun fu move => InputPort_setValue move fu) moves fu in
  fold_left move_to moves (unit_ports fu, nextOperation_ fu, trigger_ fu)
  = (unit_ports fu', nextOperation_ fu', trigger_ fu') /\
  nextExecutor_ fu' = nextOperation_ fu' /\ execList_ fu' = execList_ fu /\ activeExecutors_ fu' = activeExecutors_ fu /\
  unit_context fu' = unit_context fu /\ (trigger_ fu' = true -> idle_ fu' = false) /\ (idle_ fu' = true -> idle_ fu = true) /\
  (trigger_ fu' = false -> trigger_ fu = false /\ nextOperation_ fu' = nextOperation_ fu) /\
  (Forall width_ok (unit_ports fu) -> length (unit_ports fu') = length (unit_ports fu) /\ Forall width_ok (unit_ports fu')).
Proof.
  revert fu. induction moves as [|move moves IH]; intros fu Ht Hn; [cbn; auto 10|]. cbn [fold_left].
  set (fu1 := InputPort_setValue move fu).
  assert (S : move_to (unit_ports fu, nextOperation_ fu, trigger_ fu) move = (unit_ports fu1, nextOperation_ fu1, trigger_ fu1))
    by now destruct move.
  assert (V : exists w, unit_ports fu1 = setValue (unit_ports fu) w) by (destruct move; eexists; reflexivity).
  destruct V as [w V]. rewrite S. destruct (IH fu1) as (E1 & E2 & E3 & E4 & E5 & E6 & E7 & E8 & E9).
  { destruct move; cbn; auto. }
  { destruct move; cbn; auto. }
  cbn zeta in *. split; [exact E1|]. split; [exact E2|]. split; [rewrite E3; now destruct move|].
  split; [rewrite E4; now destruct move|]. split; [rewrite E5; now destruct move|]. split; [exact E6|].
  split; [intros Hi; apply E7 in Hi; destruct move; cbn in Hi; congruence|]. split.
  - intros Hf. destruct (E8 Hf) as [F1 F2]. destruct move; cbn in F1; [|discriminate..]. split; [exact F1 | exact F2].
  - intros Hw. rewrite V in E9. destruct (E9 (setValue_widths _ w Hw)) as [A B]. split; [|exact B].
    now rewrite A, setValue_length.
Qed.

Definition cycle_started ss (ks : list (Contract C)) (sel : option nat) fu
  (start : option (nat * Contract C * current) * ports * C) : Prop :=
  let '(now, ps, c) := start in
  exists now', mid_represents fu ss now' /\ with_contract (execList_ fu) now' = now /\
    (idle_ fu = true -> activeExecutors_ fu = 0) /\ unit_ports fu = ps /\ unit_context fu = c /\
    map contract (execList_ fu) = ks /\ nextOperation_ fu = sel.

Lemma ports_ok_all es ps ps' : length ps' = length ps -> Forall width_ok ps' ->
  Forall (fun e => ports_ok (contract e) ps) es -> Forall (fun e => ports_ok (contract e) ps') es.
Proof. intros Hl Hw. apply Forall_impl. intros e. now apply ports_ok_keep. Qed.

(** The operation that is triggered takes its place among the executors. *)
Lemma started_counted es next active ss j e cur : counted es next active ss None ->
  nth_error es j = Some e -> forall e', represents e' (past_of j ss) cur ->
  counted (replace_nth j e' es) (Some j) (if hasPendingOperations e' then active + 1 else active) ss (Some (j, cur)).
Proof.
  intros (l & Hd & Hl & Hc) He e' Hr'.
  assert (Old : forall i x, i <> j -> nth_error es i = Some x -> ~ In i l ->
    now_of (Some (j, cur)) i = Nothing /\ quiet (contract x) (past_of i ss) /\ (Some j = Some i -> hasPendingOperations x = false)).
  { intros i x Hij Hx Hi. destruct (Hc i x Hx) as [|(_ & Hq & _)]; [contradiction|]. cbn [now_of].
    rewrite (proj2 (Nat.eqb_neq j i)) by congruence. split; [reflexivity|]. split; [exact Hq | congruence]. }
  exists (if hasPendingOperations e' then if in_dec Nat.eq_dec j l then l else j :: l else l).
  split; [destruct (hasPendingOperations e'), (in_dec Nat.eq_dec j l); try constructor; assumption|].
  split; [destruct (hasPendingOperations e'), (in_dec Nat.eq_dec j l); cbn [length]; lia|].
  intros i x Hx. rewrite nth_error_replace, He in Hx. cbn [option_map] in Hx. destruct (Nat.eqb_spec i j) as [Eij|Hij].
  - injection Hx as <-. rewrite Eij. destruct (hasPendingOperations e') eqn:P.
    + left. destruct (in_dec Nat.eq_dec j l); [assumption | now left].
    + destruct (pending_law e' _ _ Hr' P) as [-> Hq]. right. cbn [now_of]. rewrite Nat.eqb_refl. auto.
  - destruct (in_dec Nat.eq_dec i l) as [Hin|Hn]; [|right; now apply Old].
    left. destruct (hasPendingOperations e'), (in_dec Nat.eq_dec j l); try assumption. now right.
Qed.

Lemma unit_start fu fu1 ss triggered ps sel c : starts_represent fu ss ->
  nextExecutor_ fu1 = nextOperation_ fu1 -> execList_ fu1 = execList_ fu -> activeExecutors_ fu1 = activeExecutors_ fu ->
  unit_context fu1 = c -> unit_ports fu1 = ps -> nextOperation_ fu1 = sel -> trigger_ fu1 = triggered ->
  (triggered = true -> idle_ fu1 = false) -> (idle_ fu1 = true -> idle_ fu = true) ->
  (triggered = false -> nextOperation_ fu1 = nextOperation_ fu) ->
  length ps = length (unit_ports fu) -> Forall width_ok ps ->
  exists storage, related (cycle_started ss (map contract (execList_ fu)) sel)
    (if isIdle stateful fu1 then Done fu1 else endClock fu1)
    (spec_start (map contract (execList_ fu)) storage triggered sel ps c).
Proof.
  intros [Hm [Hal Hia]] Hne Hes Hac <- <- <- Ht Hti Hii Hno Hl Hw. destruct Hm as [_ Hn Hr Hc Ha Hz Hp].
  assert (Hp1 : Forall (fun e => ports_ok (contract e) (unit_ports fu1)) (execList_ fu)) by (eapply ports_ok_all; eassumption).
  destruct triggered; cbn [spec_start].
  2: { exists []. assert (E : (if isIdle stateful fu1 then Done fu1 else endClock fu1) = Done fu1).
       { unfold endClock. rewrite Ht. now destruct (isIdle stateful fu1). }
       rewrite E. exists None. cbn [with_contract]. rewrite Hes, Hac.
       split; [|repeat split; auto]. split; rewrite ?Hes, ?Hac; try assumption.
       rewrite Hne, Hno, <- Hn by reflexivity. exact Hc. }
  unfold isIdle. rewrite (Hti eq_refl). cbn [andb]. unfold endClock. rewrite Ht, Hne.
  destruct (nextOperation_ fu1) as [j|] eqn:Ej; [|now exists []]. rewrite Hes, nth_error_map.
  destruct (nth_error (execList_ fu) j) as [e|] eqn:He; cbn [option_map]; [|now exists []].
  pose proof (Hr j e He) as Re. cbn [now_of] in Re. rewrite Forall_forall in Hp1. pose proof (Hp1 e (nth_error_In _ _ He)) as Pe.
  rewrite <- Forall_forall in Hp1.
  destruct (start_law e (past_of j ss) (unit_ports fu1) (unit_context fu1) Re Pe) as (storage & R). exists storage.
  destruct (startOperation e _ _) as [[[e' ps'] c']| |], (start_contract _ _ _ _) as [[[cur ps''] c'']| |] eqn:Es;
    cbn [related obind] in *; try contradiction; try assumption. destruct R as (-> & -> & Ek & Re').
  apply start_contract_ports in Es as [Hl' Hw']; [|eapply line_ok, Re | exact Pe].
  assert (Hlt : (j < length (execList_ fu))%nat) by (apply nth_error_Some; congruence).
  assert (Ew : map contract (replace_nth j e' (execList_ fu)) = map contract (execList_ fu)).
  { rewrite map_replace, Ek. apply replace_nth_id. now rewrite nth_error_map, He. }
  exists (Some (j, cur)). cbn [with_contract trigger_ nextOperation_ nextExecutor_ execList_ activeExecutors_ idle_ unit_ports unit_context].
  rewrite nth_error_replace, Nat.eqb_refl, He. cbn [option_map]. rewrite Ek, Ew, Hac, (Hti eq_refl).
  assert (Ua : (if hasPendingOperations e' then u64 (activeExecutors_ fu + 1) else activeExecutors_ fu)
    = if hasPendingOperations e' then activeExecutors_ fu + 1 else activeExecutors_ fu).
  { destruct (hasPendingOperations e'); [|reflexivity]. apply (uw_small 64). unfold is_u. cbn in *. lia. }
  rewrite Ua. split; [|repeat split; destruct (hasPendingOperations e'); discriminate].
  split; cbn [trigger_ nextOperation_ nextExecutor_ execList_ activeExecutors_ idle_ unit_ports unit_context];
    rewrite ?replace_nth_length; try reflexivity; try assumption.
  - intros i x Hx. rewrite nth_error_replace, He in Hx. cbn [option_map now_of] in *. destruct (Nat.eqb_spec i j) as [Eij|Hij].
    + injection Hx as <-. rewrite Eij, Nat.eqb_refl. exact Re'.
    + rewrite (proj2 (Nat.eqb_neq j i)) by congruence. exact (Hr i x Hx).
  - eapply started_counted; eassumption.
  - destruct (hasPendingOperations e'); lia.
  - assert (G : Forall (fun k => ports_ok k ps'') (map contract (replace_nth j e' (execList_ fu)))).
    { rewrite Ew. apply Forall_map. eapply ports_ok_all; eassumption. }
    now apply Forall_map in G.
Qed.

(** ** Cycles and programs *)

Definition unit_represents fu u : Prop := starts_represent fu (starts u) /\
  unit_ports fu = ports_of u /\ unit_context fu = context_of u /\ nextOperation_ fu = selected u.

Definition same_unit_as fu fu' u' : Prop := unit_represents fu' u' /\ map contract (execList_ fu') = map contract (execList_ fu).

Lemma unit_cycle_refines moves fu u : unit_represents fu u -> Forall width_ok (unit_ports fu) ->
  exists storage, related (same_unit_as fu) (unit_cycle stateful advance_states memory_clock moves fu)
    (spec_cycle stateful advance_states memory_clock (map contract (execList_ fu)) storage moves u).
Proof.
  intros (Hs & Ep & Ec & En) Hw. pose proof Hs as [Hm [_ Hi]].
  destruct (moves_spec moves fu) as (M & M1 & M2 & M3 & M4 & M5 & M6 & M7 & M8).
  { rewrite (mid_trigger _ _ _ Hm). discriminate. }
  { apply Hm. }
  unfold unit_cycle, spec_cycle. set (fu1 := fold_left (fun fu move => InputPort_setValue move fu) moves fu) in *.
  rewrite <- Ep, <- Ec, <- En. rewrite (mid_trigger _ _ _ Hm) in M. rewrite M.
  destruct (M8 Hw) as [L1 W1].
  destruct (unit_start fu fu1 (starts u) (trigger_ fu1) (unit_ports fu1) (nextOperation_ fu1) (unit_context fu) Hs
    M1 M2 M3 M4 eq_refl eq_refl eq_refl M5 M6 (fun Hf => proj2 (M7 Hf)) L1 W1) as (storage & R).
  exists storage. eapply related_bind; [exact R|]. clear R.
  intros fu2 [[now ps] c] (now' & Hm2 & <- & Hi2 & <- & <- & Ek & Eo).
  eapply related_bind; [apply related_refl with (R := eq); reflexivity|]. intros c ? <-.
  set (fu3 := mk_fu (trigger_ fu2) (nextOperation_ fu2) (nextExecutor_ fu2) (execList_ fu2) (activeExecutors_ fu2) (idle_ fu2)
    (unit_ports fu2) c).
  assert (Hm3 : mid_represents fu3 (starts u) now') by (destruct Hm2; now split).
  pose proof (unit_advance fu3 (starts u) now' Hm3 Hi2) as A. unfold spec_end in A. cbn [execList_ fu3 unit_context] in A.
  destruct (spec_run (with_contract (execList_ fu2) now') c) as [[s c1]| |]; cbn [obind] in A |- *;
    [|destruct (if isIdle stateful fu3 then _ else _); exact A..].
  unfold advance_context in A. destruct (if stateful then advance_states c1 else Done c1) as [c2| |]; cbn [obind] in A |- *;
    [|destruct (if isIdle stateful fu3 then _ else _); exact A..].
  destruct (if isIdle stateful fu3 then _ else _) as [fu4| |]; cbn [related] in A |- *; try contradiction.
  destruct A as (A1 & A2 & A3 & A4 & A5). cbn [fst snd fu3 unit_ports execList_ nextOperation_] in *.
  split; [|congruence]. split; [exact A1|]. cbn [ports_of context_of selected]. rewrite <- Ek. split; [exact A3|]. split; [exact A2 | congruence].
Qed.

Definition same_trace fu '((trace, fu') : list ports * FUState C X) '((trace', u') : list ports * Unit C) : Prop :=
  trace = trace' /\ same_unit_as fu fu' u'.

Lemma represents_widths fu ss : starts_represent fu ss -> execList_ fu <> [] -> Forall width_ok (unit_ports fu).
Proof.
  intros [Hm _] Hne. pose proof (mid_ports _ _ _ Hm) as Hp. destruct (execList_ fu) as [|e es]; [congruence|].
  inversion Hp as [|? ? Pe _]; subst. apply Pe.
Qed.

Lemma spec_steps : forall program fu u, unit_represents fu u -> execList_ fu <> [] ->
  exists storages, length storages = length program /\
  related (same_trace fu) (run_unit stateful advance_states memory_clock program fu)
    (spec_program stateful advance_states memory_clock (map contract (execList_ fu)) (combine program storages) u).
Proof.
  induction program as [|moves program IH]; intros fu u Hu Hne.
  { exists []. split; [reflexivity|]. repeat split; apply Hu. }
  destruct (unit_cycle_refines moves fu u Hu (represents_widths fu _ (proj1 Hu) Hne)) as (storage & R).
  cbn [run_unit]. destruct (unit_cycle _ _ _ moves fu) as [fu1|e|] eqn:E1.
  - destruct (spec_cycle _ _ _ _ storage moves u) as [u1| |] eqn:E2; try contradiction. destruct R as [Hu1 Ek].
    assert (Hne1 : execList_ fu1 <> []).
    { intros Z. rewrite Z in Ek. cbn in Ek. destruct (execList_ fu); [congruence | discriminate]. }
    destruct (IH fu1 u1 Hu1 Hne1) as (storages & Hl & R1). rewrite Ek in R1. exists (storage :: storages). split; [cbn; congruence|].
    cbn [combine spec_program obind]. rewrite E2. cbn [obind]. destruct Hu as (_ & -> & _).
    eapply related_bind; [exact R1|]. intros [tr fu'] [tr' u'] (-> & Hu' & Ek'). repeat split; try apply Hu'. congruence.
  - exists (storage :: map (fun _ => []) program). split; [cbn; now rewrite length_map|]. cbn [combine spec_program obind].
    destruct (spec_cycle _ _ _ _ storage moves u); try contradiction. exact R.
  - exists (storage :: map (fun _ => []) program). split; [cbn; now rewrite length_map|]. cbn [combine spec_program obind].
    destruct (spec_cycle _ _ _ _ storage moves u); try contradiction. exact I.
Qed.

(** A unit as the machine state builder makes it. *)
Definition unit_of es ps (c : C) : FUState C X := fold_left (fun fu e => addOperationExecutor e fu) es (FUState_new ps c).

Lemma unit_of_fields es ps c : unit_of es ps c = mk_fu false None None es 0 false ps c.
Proof.
  unfold unit_of, FUState_new. change es with ([] ++ es) at 2. generalize (@nil X).
  induction es as [|e es IH]; intros l; [now rewrite app_nil_r|]. cbn [fold_left]. unfold addOperationExecutor at 2.
  cbn [trigger_ nextOperation_ nextExecutor_ execList_ activeExecutors_ idle_ unit_ports unit_context].
  rewrite IH, <- app_assoc. reflexivity.
Qed.

Lemma new_unit es ps c : Z.of_nat (length es) < 2 ^ 32 ->
  Forall (fun e => represents e [] Nothing /\ ports_ok (contract e) ps) es ->
  unit_represents (unit_of es ps c) (mk_unit ps c None []).
Proof.
  intros Hl He. rewrite unit_of_fields. rewrite Forall_forall in He. split; [|now split].
  split; [|split; cbn; [lia | reflexivity]].
  split; cbn [trigger_ nextOperation_ nextExecutor_ execList_ activeExecutors_ unit_ports starts]; try reflexivity; try lia.
  - intros j e Hj. apply He. eapply nth_error_In, Hj.
  - exists []. split; [constructor|]. split; [cbn; lia|]. intros j e Hj. right. split; [reflexivity|].
    split; [|discriminate]. intros d _. cbn. now destruct d.
  - apply Forall_forall. intros e Hin. now apply He.
Qed.

(** C19: Function units deliver results on time.  A unit built from executors of any of the three
    kinds behaves, for every program of moves, like the specification that only remembers which
    operations were started: the result of an operation is written to its port exactly at the end of
    the cycle in which its latency is over, results of several operations in flight in order of the
    executors, and no port changes otherwise; the skipping of idle cycles and executors is not
    visible.  The ports at the start of every cycle, the context and the outcome are the same: a
    trigger without an operation, and whatever a behaviour throws, ends both. *)
Theorem unit_delivers_on_time es ps c program : es <> [] -> Z.of_nat (length es) < 2 ^ 32 ->
  Forall (fun e => represents e [] Nothing /\ ports_ok (contract e) ps) es ->
  exists storages, length storages = length program /\
  related (fun '(trace, fu) '(trace', u) =>
      trace = trace' /\ unit_ports fu = ports_of u /\ unit_context fu = context_of u /\ nextOperation_ fu = selected u)
    (run_unit stateful advance_states memory_clock program (unit_of es ps c))
    (spec_program stateful advance_states memory_clock (map contract es) (combine program storages) (mk_unit ps c None [])).
Proof.
  intros Hne Hl He. pose proof (new_unit es ps c Hl He) as Hu. rewrite unit_of_fields in *.
  destruct (spec_steps program _ _ Hu Hne) as (storages & Hs & R). exists storages. split; [exact Hs|].
  eapply related_impl; [|exact R]. intros [trace fu] [trace' u] (-> & Hu' & _). split; [reflexivity|]. apply Hu'.
Qed.
End Refinement.

(** ** A unit of the base library *)

Definition with_unit (t : trigger) (io : operands) (c : unit) : outcome (operands * unit) := io <~ t io ; Done (io, c).

Lemma IO_widths n assign io io' : (forall v v', assign v = Done v' -> bitWidth_ v' = bitWidth_ v) ->
  IO n assign io = Done io' -> Forall2 (fun v v' => width_ok v -> width_ok v') io io'.
Proof.
  intros Ha. unfold IO, operand. destruct (nth_error io (n - 1)) as [v|] eqn:En; cbn [obind]; [|discriminate].
  destruct (assign v) as [v'| |] eqn:Ev; cbn [obind]; [|discriminate..]. intros [= <-]. apply Ha in Ev.
  revert En. generalize (n - 1)%nat as k. induction io as [|x io IH]; intros [|k]; cbn [nth_error replace_nth]; try discriminate.
  - intros [= ->]. constructor; [unfold width_ok; now rewrite Ev|]. clear. induction io; constructor; auto.
  - intros En. constructor; auto.
Qed.

Lemma with_unit_binding t ws ins outs : length ws = length outs -> Forall (fun w => 0 <= w <= SIMD_WORD_WIDTH) ws -> NoDup outs ->
  (forall io io', t io = Done io' -> Forall2 (fun v v' => width_ok v -> width_ok v') io io') ->
  binding_ok (mk_binding (mk_operation ws (with_unit t)) ins outs).
Proof.
  intros Hl Hw Hn Ht. split; [|exact Hl | exact Hw | exact Hn]. intros io c io' c'. cbn. unfold with_unit.
  destruct (t io) as [io1| |] eqn:E; cbn [obind]; [|discriminate..]. intros [= <- _]. now apply Ht.
Qed.

(** The last thing most behaviours do is to write an output. *)
Ltac behaviour_widths := repeat (match goal with |- obind ?x _ = Done _ -> _ => destruct x; cbn [obind]; [|discriminate..] end);
  apply IO_widths; intros ? ? [= <-]; first [reflexivity | apply assign_width].

Definition word_ports : ports := repeat (mk_value (bytes_of 512 0) 32 (2 ^ 32 - 1)) 6.
Definition adder : Binding unit := mk_binding (mk_operation [32] (with_unit ADD)) [0%nat; 1%nat] [2%nat].
Definition subtracter : Binding unit := mk_binding (mk_operation [32] (with_unit SUB)) [0%nat; 1%nat] [3%nat].
Definition copier : Binding unit := mk_binding (mk_operation [32; 32] (with_unit BCAST2)) [1%nat] [4%nat; 5%nat].

Ltac base_binding := apply with_unit_binding;
  [ reflexivity
  | apply Forall_forall; unfold SIMD_WORD_WIDTH; cbn; intuition lia
  | repeat constructor; cbn; intuition discriminate | ].

Lemma adder_ok : binding_ok adder.
Proof.
  base_binding.
  intros io io'. unfold ADD. behaviour_widths.
Qed.

Lemma subtracter_ok : binding_ok subtracter.
Proof.
  base_binding.
  intros io io'. unfold SUB. behaviour_widths.
Qed.

Lemma Forall2_trans {A} (P Q R : A -> A -> Prop) l m n : (forall x y z, P x y -> Q y z -> R x z) ->
  Forall2 P l m -> Forall2 Q m n -> Forall2 R l n.
Proof. intros H HP. revert n. induction HP; intros n HQ; inversion HQ; subst; constructor; eauto. Qed.

Lemma copier_ok : binding_ok copier.
Proof.
  base_binding.
  intros io io'. unfold BCAST2. cbn [broadcast].
  destruct (operand 1 io) as [a| |]; cbn [obind]; [|discriminate..].
  destruct (IO 2 (as_value a) io) as [io1| |] eqn:E1; cbn [obind]; [|discriminate..].
  destruct (operand 1 io1) as [a1| |]; cbn [obind]; [|discriminate..].
  destruct (IO 3 (as_value a1) io1) as [io2| |] eqn:E2; cbn [obind]; [|discriminate..]. intros [= <-].
  apply IO_widths in E1; [|intros ? ? [= <-]; apply assign_width]. apply IO_widths in E2; [|intros ? ? [= <-]; apply assign_width].
  eapply Forall2_trans; [|exact E1 | exact E2]. cbn. auto.
Qed.

Lemma word_ports_ok (b : Binding unit) L ls w : Forall (fun p => p < 6)%nat (inputPorts b ++ outputPorts b) ->
  ports_ok (mk_contract b w ls L) word_ports.
Proof.
  intros H. split; [exact H|]. apply Forall_forall. intros v Hv. apply repeat_spec in Hv as ->.
  unfold width_ok, SIMD_WORD_WIDTH. cbn. lia.
Qed.

Definition UnitExecutor : Type :=
  SimpleOperationExecutor unit + (OneCycleOperationExecutor unit + MultiLatencyOperationExecutor unit).

(** ADD with a latency of 3, SUB on the ports, and BCAST2 with results after 1 and 2 cycles. *)
Definition small_unit : outcome (list UnitExecutor) :=
  add <~ SimpleOperationExecutor_new memory0 3 adder ;
  copy <~ MultiLatencyOperationExecutor_new memory0 2 [1; 2] copier ;
  Done [inl add; inr (inl (OneCycleOperationExecutor_new subtracter)); inr (inr copy)].

Definition word (x : Z) : SimValue := mk_value (bytes_of 512 x) 32 (2 ^ 32 - 1).

(** Three operations in flight at once. *)
Definition overlapping : list (list Move) :=
  [[Operand 0 (word 40); Opcode 0 1 (word 2)]; [Triggering 1 (word 3)]; [Opcode 2 1 (word 7)]; [Opcode 1 1 (word 30)]; []; []].

Definition seen (r : outcome (list ports * FUState unit UnitExecutor)) : outcome (list (list Z)) :=
  outcome_map (fun '(trace, _) => map (map uLongWordValue) trace) r.
Definition overlapped : list (list Z) :=
  [[ 0;  0;  0;  0; 0; 0];
   [40;  2;  0;  0; 0; 0];
   [40;  3;  0;  0; 0; 0];
   [40;  7; 42;  0; 7; 0];
   [40; 30; 43; 10; 7; 7];
   [40; 30; 43; 10; 7; 7]].
Example overlap : (es <~ small_unit ; seen (run_unit false Done Done overlapping (unit_of es word_ports tt))) = Done overlapped.
Proof. vm_compute. reflexivity. Qed.

Lemma small_unit_new : exists es, small_unit = Done es /\ length es = 3%nat /\
  Forall (fun e => represents e [] Nothing /\ ports_ok (contract e) word_ports) es.
Proof.
  destruct (simple_new memory0 3 adder eq_refl ltac:(lia) adder_ok) as (add & E1 & R1 & K1).
  destruct (multi_new memory0 2 [1; 2] copier eq_refl ltac:(lia) ltac:(repeat constructor; lia) eq_refl copier_ok)
    as (copy & E2 & R2 & K2).
  destruct (one_new subtracter subtracter_ok) as [R3 K3].
  unfold small_unit. rewrite E1, E2. cbn [obind]. eexists. split; [reflexivity|]. split; [reflexivity|].
  apply Forall_forall. intros e [<-|[<-|[<-|[]]]]; cbn [contract represents either_line]; split; try assumption;
    rewrite ?K1, ?K2, ?K3; apply word_ports_ok; repeat constructor; cbn; lia.
Qed.

Lemma unit_delivers_on_time_witness : exists es trace fu storages u, small_unit = Done es /\
  run_unit false Done Done overlapping (unit_of es word_ports tt) = Done (trace, fu) /\
  map (map uLongWordValue) trace = overlapped /\
  spec_program false Done Done (map contract es) (combine overlapping storages) (mk_unit word_ports tt None []) = Done (trace, u) /\
  unit_ports fu = ports_of u.
Proof.
  destruct small_unit_new as (es & E & Hl & He). pose proof overlap as O. rewrite E in O. cbn [obind] in O.
  destruct (unit_delivers_on_time false Done Done es word_ports tt overlapping) as (storages & _ & R);
    [destruct es; discriminate | rewrite Hl; lia | exact He|].
  destruct (run_unit _ _ _ _ _) as [[trace fu]| |] eqn:ER; try discriminate O. injection O as O.
  destruct (spec_program _ _ _ _ _ _) as [[trace' u]| |] eqn:ES; try contradiction. destruct R as (<- & Hp & _).
  now exists es, trace, fu, storages, u.
Defined.
