(* ===== verification/IntEmulation.v ===== *)
(** * Integer operations emulated in software

    Models newlib/libc/sys/tce/standard_emulation.c: the division, remainder, multiplication
    and shift routines LLVM calls when the target processor has no such function unit.
    The 32-bit routines and their __TCE64__ copies have the same text at two widths, so each
    is written once over the width [w] and instantiated; loops carry explicit fuel. *)

From S2P Require Import Prelude.
From S2P Require Import CInt.

Section Width.
Variable w : Z.

(** [while (den < num && bit && !(den & (1L << (w-1)))) { den <<= 1; bit <<= 1; }];
    [den] is unsigned, [bit] signed. *)
Definition norm_cond (num : Z) (s : Z * Z) : bool :=
  let '(den, bit) := s in
  (den <? num) && truthy bit && negb (truthy (den &&& 2 ^ (w - 1))).

Definition norm_body (s : Z * Z) : Z * Z :=
  let '(den, bit) := s in (uw w (den << 1), sw w (bit << 1)).

(** [while (bit) { if (num >= den) { num -= den; res |= bit; } bit >>= 1; den >>= 1; }] *)
Definition div_cond (s : Z * Z * Z * Z) : bool :=
  let '(num, res, bit, den) := s in truthy bit.

Definition div_body (s : Z * Z * Z * Z) : Z * Z * Z * Z :=
  let '(num, res, bit, den) := s in
  let '(num, res) :=
  if den <=? num then (uw w (num - den), sw w (res ||| bit)) else (num, res) in
  (num, res, bit >> 1, den >> 1).

Definition divmod (fuel : nat) (modwanted num den : Z) : option Z :=
  match while fuel (norm_cond num) norm_body (den, 1) with
  | None => None
  | Some (den, bit) =>
    match while fuel div_cond div_body (num, 0, bit, den) with
    | None => None
    | Some (num, res, _, _) => Some (if truthy modwanted then num else uw w res)
    end
  end.

(** The signed entry points: the operands' magnitudes go to [divmod] as unsigned words. *)
Definition mod_signed (fuel : nat) (numerator denominator : Z) : option Z :=
  let '(sign, numerator) :=
  if numerator <? 0 then (1, sw w (- numerator)) else (0, numerator) in
  let denominator := if denominator <? 0 then sw w (- denominator) else denominator in
  match divmod fuel 1 (uw w numerator) (uw w denominator) with
  | None => None
  | Some m => let modul := sw w m in
    Some (if truthy sign then sw w (- modul) else modul)
  end.

(** The [divnorm] macro. *)
Definition divnorm (num den : Z) : Z * Z * Z :=
  let '(num, sign) := if num <? 0 then (sw w (- num), 1) else (num, 0) in
  let '(den, sign) := if den <? 0 then (sw w (- den), 1 - sign) else (den, sign) in
  (num, den, sign).

(** The [exitdiv] macro. *)
Definition exitdiv (sign res : Z) : Z := if truthy sign then sw w (- res) else res.

Definition div_signed (fuel : nat) (numerator denominator : Z) : option Z :=
  let '(numerator, denominator, sign) := divnorm numerator denominator in
  match divmod fuel 0 (uw w numerator) (uw w denominator) with
  | None => None
  | Some d => Some (exitdiv sign (sw w d))
  end.

Definition umod (fuel : nat) (numerator denominator : Z) : option Z :=
  option_map (sw w) (divmod fuel 1 numerator denominator).

Definition udiv (fuel : nat) (numerator denominator : Z) : option Z :=
  option_map (sw w) (divmod fuel 0 numerator denominator).

(** [while (a) { if (a & 1) res += b; b <<= 1; a >>= 1; }] *)
Definition mul_cond (s : Z * Z * Z) : bool := let '(a, b, res) := s in truthy a.

Definition mul_body (s : Z * Z * Z) : Z * Z * Z :=
  let '(a, b, res) := s in
  let res := if truthy (a &&& 1) then sw w (uw w res + b) else res in
  (a >> 1, uw w (b << 1), res).

Definition mul (fuel : nat) (a b : Z) : option Z :=
  option_map (fun s => let '(_, _, res) := s in res) (while fuel mul_cond mul_body (a, b, 0)).

(** The shift routines: [while (shifter) { val OP= 1; shifter--; }]. *)
Definition shift_loop (fuel : nat) (op : Z -> Z) (val shifter : Z) : option Z :=
  option_map fst
  (while fuel (fun s => truthy (snd s)) (fun s => (op (fst s), uw w (snd s - 1))) (val, shifter)).

Definition ashr (fuel : nat) (val shifter : Z) : option Z :=
  if w - 1 <? shifter then Some (if val <? 0 then -1 else 0)
  else shift_loop fuel (fun v => v >> 1) val shifter.

Definition lshr (fuel : nat) (val shifter : Z) : option Z :=
  if w - 1 <? shifter then Some 0 else shift_loop fuel (fun v => v >> 1) val shifter.

Definition ashl (fuel : nat) (val shifter : Z) : option Z :=
  if w - 1 <? shifter then Some 0 else shift_loop fuel (fun v => sw w (v << 1)) val shifter.
End Width.

(** ** The entry points *)

Definition divmodsi4 := divmod 32.
Definition __modsi3 := mod_signed 32.
Definition __divsi3 := div_signed 32.
Definition __umodsi3 := umod 32.
Definition __udivsi3 := udiv 32.
Definition __mulsi3 := mul 32.
Definition __ashrsi3 := ashr 32.
Definition __lshrsi3 := lshr 32.
Definition __ashlsi3 := ashl 32.

Definition divmoddi4 := divmod 64.
Definition __moddi3 := mod_signed 64.
Definition __divdi3 := div_signed 64.
Definition __umoddi3 := umod 64.
Definition __muldi3 := mul 64.
Definition __ashrdi3 := ashr 64.
Definition __lshrdi3 := lshr 64.
Definition __ashldi3 := ashl 64.

(** [__udivdi3] has its own copy of the loops instead of calling [divmoddi4]. *)
Definition __udivdi3 (fuel : nat) (num den : Z) : option Z :=
  match while fuel (norm_cond 64 num) (norm_body 64) (den, 1) with
  | None => None
  | Some (den, bit) =>
    match while fuel div_cond (div_body 64) (num, 0, bit, den) with
    | None => None
    | Some (_, res, _, _) => Some res
    end
  end.

(** The only operands on which the division loops do not return: a divisor of one and a
    dividend above a quarter of the unsigned range, where [bit] reaches the sign bit and
    [bit >>= 1] then never clears it. *)
Definition div_stuck (w num den : Z) : Prop := den = 1 /\ 2 ^ (w - 2) < num.

Section Theory.
Variable w : Z.
Hypothesis Hw : 2 <= w.

Lemma half_width : 2 ^ w = 2 * 2 ^ (w - 1) /\ 2 ^ (w - 1) = 2 * 2 ^ (w - 2) /\ 0 < 2 ^ (w - 2).
Proof.
  pose proof (pow2_succ (w - 1) ltac:(lia)) as H1. pose proof (pow2_succ (w - 2) ltac:(lia)) as H2.
  replace (w - 1 + 1) with w in H1 by lia. replace (w - 2 + 1) with (w - 1) in H2 by lia.
  pose proof (pow2_pos (w - 2)). lia.
Qed.

(** The normalisation loop scales divisor and [bit] by the same power of two, stops with the
    divisor at least the dividend (or its top bit set), and keeps [bit] positive. *)
Lemma norm_loop num den fuel :
  is_u w num -> 0 < den < 2 ^ w -> ~ div_stuck w num den -> (Z.to_nat w < fuel)%nat ->
  exists j, 0 <= j <= w - 2 /\
  while fuel (norm_cond w num) (norm_body w) (den, 1) = Some (den * 2 ^ j, 2 ^ j) /\
  den * 2 ^ j < 2 ^ w /\ (num <= den * 2 ^ j \/ 2 ^ (w - 1) <= den * 2 ^ j).
Proof.
  intros Hnum Hden Hst Hf. destruct half_width as (E1 & E2 & P).
  pose (I := fun (n : nat) (s : Z * Z) => exists j, 0 <= j <= w - 2 /\ Z.of_nat n = w - j /\
    s = (den * 2 ^ j, 2 ^ j) /\ den * 2 ^ j < 2 ^ w).
  destruct (while_rule (norm_cond w num) (norm_body w) I) with (n := Z.to_nat w)
    (s := (den, 1)) (fuel := fuel) as (s' & n' & Hr & Hc & (j & Hj & _ & -> & Hlt));
    [| |exact Hf|].
  - intros n s (j & Hj & Hn & -> & Hlt) Hc. unfold norm_cond in Hc. zbool.
    pose proof (pow2_pos j ltac:(lia)).
    rewrite truthy_top_bit in * by (unfold is_u; nia). zbool.
    exists (Z.to_nat (w - (j + 1))). split; [lia|]. exists (j + 1).
    assert (j <> w - 2).
    { intros ->. assert (den < 2) by (apply (Z.mul_lt_mono_pos_r (2 ^ (w - 2))); lia).
      apply Hst. unfold div_stuck. replace den with 1 in * by lia. lia. }
    assert (2 * 2 ^ j <= 2 ^ (w - 2)) by (rewrite <- pow2_succ by lia; apply pow2_le; lia).
    rewrite pow2_succ by lia.
    repeat split; [lia | lia | lia | | nia].
    unfold norm_body. autorewrite with cintrw.
    rewrite uw_small, sw_small; unfold is_u, is_s; [f_equal; lia | lia | nia | nia].
  - exists 0. repeat split; [lia | lia | lia | | lia]. f_equal; lia.
  - exists j. repeat split; [lia | lia | exact Hr | exact Hlt |].
    unfold norm_cond in Hc. pose proof (pow2_pos j ltac:(lia)).
    rewrite truthy_top_bit, truthy_pow2, andb_true_r in Hc by (unfold is_u; nia).
    destruct (Z.ltb_spec (den * 2 ^ j) num); [right | left; lia].
    cbn [andb] in Hc. zbool. lia.
Qed.

(** State of the subtraction loop with [n] quotient bits still to produce. *)
Definition div_inv (num0 den0 : Z) (n : nat) (s : Z * Z * Z * Z) : Prop :=
  let N := 2 ^ Z.of_nat n in
  exists num res, s = (num, res, N / 2, den0 * N / 2) /\ num0 = den0 * res + num /\
  0 <= num < den0 * N /\ 0 <= res /\ res mod N = 0 /\ res + N <= 2 ^ (w - 1).

Lemma div_inv_step num0 den0 n s :
  is_u w num0 -> 0 < den0 -> div_inv num0 den0 (S n) s -> div_inv num0 den0 n (div_body w s).
Proof.
  intros Hnum Hden (num & res & -> & E & Hb & Hr & Hm & Hs).
  destruct half_width as (E1 & _ & _).
  rewrite Nat2Z.inj_succ, <- Z.add_1_r, pow2_succ in * by lia.
  pose proof (pow2_pos (Z.of_nat n) ltac:(lia)) as HN. set (N := 2 ^ Z.of_nat n) in *.
  assert (HD : den0 * (2 * N) / 2 = den0 * N) by (apply div_eq; lia).
  assert (HB : 2 * N / 2 = N) by (apply div_eq; lia).
  assert (Hres : res mod N = 0).
  { rewrite (Z.div_mod res (2 * N)) by lia. rewrite Hm, Z.add_0_r.
    replace (2 * N * (res / (2 * N))) with (2 * (res / (2 * N)) * N) by lia.
    apply Z.mod_mul. lia. }
  unfold div_body. rewrite HD, HB. autorewrite with cintrw.
  destruct (Z.leb_spec (den0 * N) num).
  - assert (Hor : res ||| N = res + N).
    { apply (lor_add _ _ (Z.of_nat n + 1)); [lia | rewrite pow2_succ by lia; fold N; lia |].
      now rewrite pow2_succ by lia. }
    exists (num - den0 * N), (res + N). rewrite Hor.
    rewrite uw_small by (unfold is_u in *; nia). rewrite sw_small by (unfold is_s; lia).
    repeat split; [nia | nia | nia | lia | | lia].
    fold N. rewrite Z.add_mod, Hres, Z.mod_same by lia. reflexivity.
  - exists num, res. repeat split; [lia | lia | lia | lia | exact Hres | lia].
Qed.

Lemma div_loop num den j fuel :
  is_u w num -> 0 < den -> 0 <= j <= w - 2 -> num < 2 * (den * 2 ^ j) ->
  (Z.to_nat w < fuel)%nat ->
  exists bit' den', while fuel div_cond (div_body w) (num, 0, 2 ^ j, den * 2 ^ j) =
  Some (num mod den, num / den, bit', den') /\ num / den < 2 ^ (w - 1).
Proof.
  intros Hnum Hden Hj Hlt Hf.
  destruct (while_rule div_cond (div_body w) (div_inv num den)) with (n := Z.to_nat (j + 1))
    (s := (num, 0, 2 ^ j, den * 2 ^ j)) (fuel := fuel)
    as (s' & n' & Hr & Hc & (num' & res & -> & E & Hb & Hres & Hm & Hs)).
  - intros [|n] s HI Hc.
    + destruct HI as (num' & res & -> & _). discriminate Hc.
    + exists n. split; [lia | now apply div_inv_step].
  - exists num, 0. rewrite Z2Nat.id, pow2_succ by lia. pose proof (pow2_pos j ltac:(lia)).
    replace (2 * 2 ^ j / 2) with (2 ^ j) by (symmetry; apply div_eq; lia).
    replace (den * (2 * 2 ^ j) / 2) with (den * 2 ^ j) by (symmetry; apply div_eq; lia).
    unfold is_u in Hnum. rewrite <- pow2_succ by lia.
    pose proof (pow2_le (j + 1) (w - 1) ltac:(lia) ltac:(lia)).
    rewrite pow2_succ in * by lia.
    repeat split; lia.
  - lia.
  - assert (n' = 0%nat) as ->.
    { destruct n' as [|n']; [reflexivity|]. exfalso. unfold div_cond in Hc.
      rewrite Nat2Z.inj_succ, <- Z.add_1_r, pow2_succ in Hc by lia.
      replace (2 * 2 ^ Z.of_nat n' / 2) with (2 ^ Z.of_nat n') in Hc
        by (symmetry; apply div_eq; lia).
      rewrite truthy_pow2 in Hc by lia. discriminate. }
    cbn [Z.of_nat] in *. change (2 ^ 0) with 1 in *.
    exists (1 / 2), (den * 1 / 2).
    assert (num / den = res) as -> by (apply div_eq; nia).
    assert (num mod den = num') as -> by (symmetry; apply (Z.mod_unique num den res); lia).
    split; [exact Hr | lia].
Qed.

Lemma divmod_run num den fuel :
  is_u w num -> 0 < den < 2 ^ w -> ~ div_stuck w num den -> (Z.to_nat w < fuel)%nat ->
  exists j bit' den', while fuel (norm_cond w num) (norm_body w) (den, 1) =
  Some (den * 2 ^ j, 2 ^ j) /\
  while fuel div_cond (div_body w) (num, 0, 2 ^ j, den * 2 ^ j) =
  Some (num mod den, num / den, bit', den') /\
  is_u w (num / den) /\ num / den < 2 ^ (w - 1).
Proof.
  intros Hnum Hden Hst Hf. destruct half_width as (E1 & _ & P).
  destruct (norm_loop num den fuel Hnum Hden Hst Hf) as (j & Hj & Hr & Hlt & Hge).
  unfold is_u in Hnum. pose proof (pow2_pos j ltac:(lia)).
  destruct (div_loop num den j fuel) as (b & d & Hr2 & Hq); [easy|lia|easy| |easy|].
  - destruct Hge; [nia | lia].
  - exists j, b, d. pose proof (Z.div_pos num den). unfold is_u.
    repeat split; [exact Hr | exact Hr2 | lia | lia | lia].
Qed.

Lemma divmod_ok modwanted num den fuel :
  is_u w num -> 0 < den < 2 ^ w -> ~ div_stuck w num den -> (Z.to_nat w < fuel)%nat ->
  divmod w fuel modwanted num den = Some (if truthy modwanted then num mod den else num / den).
Proof.
  intros Hnum Hden Hst Hf. unfold divmod.
  destruct (divmod_run num den fuel Hnum Hden Hst Hf) as (j & b & d & -> & -> & Hq & _).
  now rewrite (uw_small w (num / den)) by exact Hq.
Qed.

Lemma divmod_stuck_none modwanted num den fuel :
  is_u w num -> div_stuck w num den -> divmod w fuel modwanted num den = None.
Proof.
  intros Hnum [-> Hbig]. destruct half_width as (E1 & E2 & P). unfold divmod.
  destruct (while fuel (norm_cond w num) (norm_body w) (1, 1)) as [[den bit]|] eqn:Hn;
    [|reflexivity].
  pose (I := fun s : Z * Z => exists j, 0 <= j <= w - 1 /\ s = (2 ^ j, sw w (2 ^ j))).
  destruct (while_inv (norm_cond w num) (norm_body w) I) with (fuel := fuel) (s := (1, 1))
    (s' := (den, bit)) as [(j & Hj & [= -> ->]) Hc]; [| |exact Hn|].
  - intros s (j & Hj & ->) Hc. unfold norm_cond in Hc. zbool.
    pose proof (pow2_pos j ltac:(lia)). pose proof (pow2_le j (w - 1) ltac:(lia) ltac:(lia)).
    rewrite truthy_top_bit in * by (unfold is_u; lia). zbool.
    assert (j < w - 1) by (apply (Z.pow_lt_mono_r_iff 2); lia).
    exists (j + 1). split; [lia|]. unfold norm_body. autorewrite with cintrw.
    rewrite pow2_succ by lia. rewrite uw_small by (unfold is_u; lia). f_equal.
    rewrite (sw_small w (2 ^ j)) by (unfold is_s; lia). reflexivity.
  - exists 0. split; [lia|]. change (2 ^ 0) with 1. rewrite sw_small by (unfold is_s; lia).
    reflexivity.
  - assert (j = w - 1) as ->.
    { destruct (Z.eq_dec j (w - 1)) as [|Hne]; [assumption|exfalso].
      pose proof (pow2_pos j ltac:(lia)). pose proof (pow2_le j (w - 2) ltac:(lia) ltac:(lia)).
      unfold norm_cond in Hc.
      rewrite truthy_top_bit, sw_small, truthy_pow2 in Hc by (unfold is_u, is_s; lia).
      destruct (Z.ltb_spec (2 ^ j) num), (Z.leb_spec (2 ^ (w - 1)) (2 ^ j));
        cbn in Hc; discriminate || lia. }
    rewrite (while_diverges div_cond (div_body w)
      (fun s => let '(_, _, bit, _) := s in bit < 0)); [reflexivity | |].
    + intros [[[n r] b] d] Hb. split; [unfold div_cond, truthy; zdec; lia|].
      unfold div_body. rewrite !shiftr_1.
      assert (b / 2 < 0) by (apply Z.div_lt_upper_bound; lia).
      now destruct (d <=? n).
    + unfold sw. rewrite E1, <- Z.add_diag, Z.mod_same by lia. lia.
Qed.

(** Division by zero: the normalisation loop shifts [bit] out unless the dividend is zero. *)
Lemma zero_run num fuel : is_u w num -> (Z.to_nat w + 1 < fuel)%nat ->
  exists bit bit', while fuel (norm_cond w num) (norm_body w) (0, 1) = Some (0, bit) /\
    while fuel div_cond (div_body w) (num, 0, bit, 0) = Some (num, if num =? 0 then 1 else 0, bit', 0).
Proof.
  intros Hnum Hf. destruct half_width as (E1 & E2 & P). unfold is_u in *.
  destruct fuel as [|[|fuel]]; [lia | lia |].
  destruct (Z.eqb_spec num 0) as [->|Hne].
  - exists 1, 0. cbn. rewrite sw_small by (unfold is_s; lia). split; reflexivity.
  - pose (I := fun (n : nat) (s : Z * Z) =>
      exists j, 0 <= j <= w /\ Z.of_nat n = w - j /\ s = (0, sw w (2 ^ j))).
    destruct (while_rule (norm_cond w num) (norm_body w) I) with (n := Z.to_nat w)
      (s := (0, 1)) (fuel := S (S fuel)) as (s' & n' & -> & Hc & (j & Hj & Hn & ->)).
    + intros n s (j & Hj & Hn & ->) Hc. unfold norm_cond in Hc. zbool.
      assert (j <> w).
      { intros ->. rewrite <- sw_uw in * by lia. unfold uw in *. rewrite Z.mod_same in * by lia.
        rewrite sw_small in * by (unfold is_s; lia). discriminate. }
      exists (Z.to_nat (w - (j + 1))). split; [lia|]. exists (j + 1).
      repeat split; [lia | lia | lia |]. unfold norm_body. autorewrite with cintrw. f_equal.
      rewrite pow2_succ by lia. apply sw_cong; [lia|].
      rewrite <- Zmult_mod_idemp_r. fold (uw w (sw w (2 ^ j))). rewrite uw_sw by lia.
      unfold uw. now rewrite Zmult_mod_idemp_r.
    + exists 0. change (2 ^ 0) with 1. rewrite sw_small by (unfold is_s; lia).
      repeat split; lia.
    + lia.
    + assert (sw w (2 ^ j) = 0) as ->.
      { unfold norm_cond in Hc. rewrite Z.land_0_l in Hc.
        destruct (Z.ltb_spec 0 num); [|lia]. destruct (truthy (sw w (2 ^ j))) eqn:Ht; [discriminate|].
        unfold truthy in Ht. zbool. assumption. }
      exists 0, 0. split; reflexivity.
Qed.

Lemma divmod_zero modwanted num fuel : is_u w num -> (Z.to_nat w + 1 < fuel)%nat ->
  divmod w fuel modwanted num 0 = Some (if truthy modwanted then num else if num =? 0 then 1 else 0).
Proof.
  intros Hnum Hf. destruct half_width as (E1 & E2 & P). unfold divmod.
  destruct (zero_run num fuel Hnum Hf) as (b & b' & -> & ->). destruct (truthy modwanted); [reflexivity|].
  rewrite uw_small by (destruct (num =? 0); unfold is_u; lia). reflexivity.
Qed.

(** The unsigned entry points that call [divmod]. *)
Lemma unsigned_zero num fuel : is_u w num -> (Z.to_nat w + 1 < fuel)%nat ->
  udiv w fuel num 0 = Some (if num =? 0 then 1 else 0) /\ umod w fuel num 0 = Some (sw w num).
Proof.
  intros Hnum Hf. destruct half_width as (E1 & E2 & P). unfold udiv, umod.
  rewrite !divmod_zero by assumption. cbn [option_map truthy Z.eqb negb]. split; [|reflexivity].
  rewrite sw_small by (destruct (num =? 0); unfold is_s; lia). reflexivity.
Qed.

Lemma unsigned_stuck num den fuel : is_u w num -> div_stuck w num den ->
  udiv w fuel num den = None /\ umod w fuel num den = None.
Proof. intros Hn Hd. unfold udiv, umod. now rewrite !divmod_stuck_none. Qed.

(** ** Signed division and remainder *)

(** The magnitude of a signed word, passed as an unsigned one. *)
Lemma abs_arg x : is_s w x -> uw w (if x <? 0 then sw w (- x) else x) = Z.abs x.
Proof.
  intros Hx. destruct half_width as (E1 & _ & _). unfold is_s in Hx.
  destruct (Z.ltb_spec x 0); [rewrite uw_sw by lia|]; rewrite uw_small; unfold is_u; lia.
Qed.

Lemma quot_abs n d : d <> 0 ->
  Z.quot n d = if xorb (n <? 0) (d <? 0) then - (Z.abs n / Z.abs d) else Z.abs n / Z.abs d.
Proof.
  intros Hd. rewrite <- Z.quot_div_nonneg by lia.
  destruct (Z.ltb_spec n 0), (Z.ltb_spec d 0); cbn [xorb].
  all: rewrite ?(Z.abs_neq n), ?(Z.abs_neq d), ?(Z.abs_eq n), ?(Z.abs_eq d) by lia.
  all: rewrite ?Z.quot_opp_l, ?Z.quot_opp_r, ?Z.opp_involutive by lia; reflexivity.
Qed.

Lemma rem_abs n d : d <> 0 ->
  Z.rem n d = if n <? 0 then - (Z.abs n mod Z.abs d) else Z.abs n mod Z.abs d.
Proof.
  intros Hd. rewrite <- Z.rem_mod_nonneg by lia. rewrite Z.rem_abs_r by lia.
  destruct (Z.ltb_spec n 0).
  - rewrite Z.abs_neq, Z.rem_opp_l by lia. lia.
  - now rewrite Z.abs_eq by lia.
Qed.

Definition div_stuck_signed (n d : Z) : Prop := Z.abs d = 1 /\ 2 ^ (w - 2) < Z.abs n.

Lemma div_signed_ok n d fuel :
  is_s w n -> is_s w d -> d <> 0 -> ~ div_stuck_signed n d -> (Z.to_nat w < fuel)%nat ->
  div_signed w fuel n d = Some (Z.quot n d).
Proof.
  intros Hn Hd Hd0 Hst Hf. destruct half_width as (E1 & _ & _).
  assert (Hq : divmod w fuel 0 (Z.abs n) (Z.abs d) = Some (Z.abs n / Z.abs d)
    /\ 0 <= Z.abs n / Z.abs d < 2 ^ (w - 1)).
  { unfold is_s in *. split.
    - rewrite divmod_ok; [reflexivity | unfold is_u; lia | lia | exact Hst | exact Hf].
    - destruct (divmod_run (Z.abs n) (Z.abs d) fuel) as (j & b & e & _ & _ & Hu & Hlt);
        [unfold is_u; lia | lia | exact Hst | exact Hf |]. unfold is_u in Hu. lia. }
  destruct Hq as [Hq Hb]. unfold div_signed, divnorm. rewrite quot_abs by assumption.
  pose proof (abs_arg n Hn) as Ha. pose proof (abs_arg d Hd) as Hb'.
  destruct (n <? 0), (d <? 0); cbn [xorb]; rewrite Ha, Hb', Hq; cbn [exitdiv truthy Z.eqb negb];
    unfold exitdiv; cbn; rewrite ?(sw_small w (Z.abs n / Z.abs d)) by (unfold is_s; lia);
    rewrite ?sw_small by (unfold is_s; lia); reflexivity.
Qed.

Lemma mod_signed_ok n d fuel :
  is_s w n -> is_s w d -> d <> 0 -> ~ div_stuck_signed n d -> (Z.to_nat w < fuel)%nat ->
  mod_signed w fuel n d = Some (Z.rem n d).
Proof.
  intros Hn Hd Hd0 Hst Hf. destruct half_width as (E1 & _ & _).
  assert (Hq : divmod w fuel 1 (Z.abs n) (Z.abs d) = Some (Z.abs n mod Z.abs d)).
  { unfold is_s in *.
    rewrite divmod_ok; [reflexivity | unfold is_u; lia | lia | exact Hst | exact Hf]. }
  pose proof (Z.mod_pos_bound (Z.abs n) (Z.abs d) ltac:(lia)) as Hm. unfold mod_signed.
  rewrite rem_abs by assumption. pose proof (abs_arg n Hn) as Ha. pose proof (abs_arg d Hd) as Hb'.
  unfold is_s in *.
  destruct (n <? 0); rewrite Ha, Hb', Hq; cbn;
    rewrite ?(sw_small w (Z.abs n mod Z.abs d)) by (unfold is_s; lia);
    rewrite ?sw_small by (unfold is_s; lia); reflexivity.
Qed.

Lemma signed_stuck n d fuel : is_s w n -> is_s w d -> div_stuck_signed n d ->
  div_signed w fuel n d = None /\ mod_signed w fuel n d = None.
Proof.
  intros Hn Hd Hst. destruct half_width as (E1 & _ & _).
  assert (Hu : is_u w (Z.abs n)) by (unfold is_s, is_u in *; lia).
  pose proof (abs_arg n Hn) as Ha. pose proof (abs_arg d Hd) as Hb. split.
  - unfold div_signed, divnorm.
    destruct (n <? 0), (d <? 0); rewrite Ha, Hb, (divmod_stuck_none _ _ _ _ Hu Hst); reflexivity.
  - unfold mod_signed. destruct (n <? 0); rewrite Ha, Hb, (divmod_stuck_none _ _ _ _ Hu Hst); reflexivity.
Qed.

Lemma signed_zero n fuel : is_s w n -> (Z.to_nat w + 1 < fuel)%nat ->
  div_signed w fuel n 0 = Some (if n =? 0 then 1 else 0) /\ mod_signed w fuel n 0 = Some n.
Proof.
  intros Hn Hf. destruct half_width as (E1 & E2 & P).
  assert (Hu : is_u w (Z.abs n)) by (unfold is_s, is_u in *; lia).
  pose proof (abs_arg n Hn) as Ha. unfold is_s in Hn.
  assert (Z0 : uw w 0 = 0) by (apply uw_small; unfold is_u; lia). split.
  - unfold div_signed, divnorm. cbn [Z.ltb Z.compare].
    destruct (Z.ltb_spec n 0); rewrite Ha, Z0, divmod_zero by assumption; cbn [truthy Z.eqb negb];
      destruct (Z.eqb_spec (Z.abs n) 0), (Z.eqb_spec n 0); try lia; unfold exitdiv; cbn;
      rewrite ?sw_small by (unfold is_s; rewrite ?sw_small by (unfold is_s; lia); lia); reflexivity.
  - unfold mod_signed. cbn [Z.ltb Z.compare].
    destruct (Z.ltb_spec n 0); rewrite Ha, Z0, divmod_zero by assumption; cbn [truthy Z.eqb negb]; f_equal.
    + rewrite Z.abs_neq by lia. destruct (Z.eq_dec n (- 2 ^ (w - 1))) as [->|].
      * rewrite Z.opp_involutive.
        assert (T : sw w (2 ^ (w - 1)) = - 2 ^ (w - 1)).
        { unfold sw. rewrite E1, <- Z.add_diag, Z.mod_same by lia. lia. }
        now rewrite T, Z.opp_involutive.
      * rewrite (sw_small w (- n)) by (unfold is_s; lia). rewrite sw_small by (unfold is_s; lia). lia.
    + rewrite Z.abs_eq by lia. apply sw_small; [lia | unfold is_s; lia].
Qed.

(** ** Multiplication *)

Lemma mul_ok a b fuel :
  is_u w a -> (Z.to_nat w < fuel)%nat -> mul w fuel a b = Some (sw w (a * b)).
Proof.
  intros Ha Hf. unfold mul.
  pose (I := fun (n : nat) (s : Z * Z * Z) => exists a' b' r,
    s = (a', b', sw w r) /\ 0 <= a' < 2 ^ Z.of_nat n /\ (r + a' * b') mod 2 ^ w = (a * b) mod 2 ^ w).
  destruct (while_rule mul_cond (mul_body w) I) with (n := Z.to_nat w) (s := (a, b, 0))
    (fuel := fuel) as (s' & n' & -> & Hc & (a' & b' & r & -> & Hr & He)).
  - intros [|n] s (a' & b' & r & -> & Hr & He) Hc.
    { change (2 ^ Z.of_nat 0) with 1 in Hr. replace a' with 0 in Hc by lia. discriminate. }
    exists n. split; [lia|].
    rewrite Nat2Z.inj_succ, <- Z.add_1_r, pow2_succ in Hr by lia.
    unfold mul_body. autorewrite with cintrw. rewrite land_1_odd.
    pose proof (Z.div_mod a' 2 ltac:(lia)) as Hdm.
    exists (a' / 2), (uw w (2 * b')), (r + a' mod 2 * b').
    pose proof (Z.mod_pos_bound a' 2 ltac:(lia)). split; [|split; [lia|]].
    + f_equal. destruct (Z.eq_dec (a' mod 2) 0) as [E|E].
      * rewrite E. cbn. f_equal. lia.
      * replace (a' mod 2) with 1 by lia. change (truthy 1) with true.
        rewrite Z.mul_1_l. apply sw_cong; [lia|]. apply Zplus_mod_idemp_l.
    + rewrite <- He. unfold uw.
      rewrite <- Zplus_mod_idemp_r, Zmult_mod_idemp_r, Zplus_mod_idemp_r. f_equal. nia.
  - exists a, b, 0. rewrite Z2Nat.id by lia. repeat split; [|apply Ha|apply Ha].
    f_equal. symmetry. apply sw_small; [lia|]. unfold is_s. pose proof (pow2_pos (w - 1)). lia.
  - exact Hf.
  - unfold mul_cond, truthy in Hc. zbool. subst a'. cbn [option_map]. f_equal.
    apply sw_cong; [lia|]. rewrite <- He. f_equal. lia.
Qed.

(** ** Shifts *)

Lemma shift_loop_ok (op : Z -> Z) (r : Z -> Z) (P : Z -> Prop) val shifter fuel :
  (forall k, 0 <= k -> P (r k) -> op (r k) = r (k + 1) /\ P (r (k + 1))) -> P (r 0) -> val = r 0 ->
  0 <= shifter < w -> (Z.to_nat w < fuel)%nat ->
  shift_loop w fuel op val shifter = Some (r shifter).
Proof.
  intros Hop HP -> Hs Hf. unfold shift_loop.
  assert (w < 2 ^ w) by (apply Z.pow_gt_lin_r; lia).
  pose (I := fun (n : nat) (s : Z * Z) => exists k, 0 <= k <= shifter /\
    Z.of_nat n = shifter - k /\ s = (r k, shifter - k) /\ P (r k)).
  edestruct (while_rule (fun s => truthy (snd s))
    (fun s => (op (fst s), uw w (snd s - 1))) I) with (n := Z.to_nat shifter)
    (s := (r 0, shifter)) (fuel := fuel) as (s' & n' & -> & Hc & (k & Hk & Hn & -> & Hp)).
  - intros n s (k & Hk & Hn & -> & Hp) Hc. cbn [fst snd] in *. unfold truthy in Hc. zbool.
    exists (Z.to_nat (shifter - (k + 1))). split; [lia|]. exists (k + 1).
    destruct (Hop k ltac:(lia) Hp) as [-> Hp'].
    rewrite uw_small by (unfold is_u; lia). repeat split; try lia; [f_equal; lia | exact Hp'].
  - exists 0. repeat split; try lia; [f_equal; lia | exact HP].
  - lia.
  - cbn [fst snd] in *. unfold truthy in Hc. zbool. replace k with shifter by lia. reflexivity.
Qed.

Lemma ashr_ok val shifter fuel :
  is_s w val -> is_u w shifter -> (Z.to_nat w < fuel)%nat ->
  ashr w fuel val shifter = Some (val / 2 ^ shifter).
Proof.
  intros Hv Hs Hf. unfold ashr, is_s, is_u in *. destruct (Z.ltb_spec (w - 1) shifter).
  - pose proof (pow2_le (w - 1) shifter ltac:(lia) ltac:(lia)). f_equal. symmetry.
    destruct (Z.ltb_spec val 0); [apply div_eq; lia | apply Z.div_small; lia].
  - apply (shift_loop_ok _ (fun k => val / 2 ^ k) (fun _ => True)); try easy; try lia.
    + intros k Hk _. split; [|easy]. rewrite shiftr_1.
      rewrite Z.div_div by (pose proof (pow2_pos k); lia). f_equal. rewrite pow2_succ; lia.
    + now rewrite Z.div_1_r.
Qed.

Lemma lshr_ok val shifter fuel :
  is_u w val -> is_u w shifter -> (Z.to_nat w < fuel)%nat ->
  lshr w fuel val shifter = Some (val / 2 ^ shifter).
Proof.
  intros Hv Hs Hf. unfold lshr, is_u in *. destruct (Z.ltb_spec (w - 1) shifter).
  - pose proof (pow2_le w shifter ltac:(lia) ltac:(lia)). f_equal. symmetry.
    apply Z.div_small; lia.
  - apply (shift_loop_ok _ (fun k => val / 2 ^ k) (fun _ => True)); try easy; try lia.
    + intros k Hk _. split; [|easy]. rewrite shiftr_1.
      rewrite Z.div_div by (pose proof (pow2_pos k); lia). f_equal. rewrite pow2_succ; lia.
    + now rewrite Z.div_1_r.
Qed.

Lemma ashl_ok val shifter fuel :
  is_s w val -> is_u w shifter -> (Z.to_nat w < fuel)%nat ->
  ashl w fuel val shifter = Some (sw w (val * 2 ^ shifter)).
Proof.
  intros Hv Hs Hf. unfold ashl, is_u in *. destruct (Z.ltb_spec (w - 1) shifter).
  - replace shifter with (shifter - w + w) by lia. rewrite Z.pow_add_r, Z.mul_assoc by lia.
    rewrite <- sw_uw by lia. unfold uw. rewrite Z.mod_mul by (pose proof (pow2_pos w); lia).
    rewrite sw_small; [reflexivity | lia | unfold is_s; pose proof (pow2_pos (w - 1)); lia].
  - apply (shift_loop_ok _ (fun k => sw w (val * 2 ^ k)) (fun _ => True)); try easy; try lia.
    + intros k Hk _. split; [|easy]. rewrite shiftl_1. apply sw_cong; [lia|].
      rewrite <- Zmult_mod_idemp_r. fold (uw w (sw w (val * 2 ^ k))). rewrite uw_sw by lia.
      unfold uw. rewrite Zmult_mod_idemp_r, pow2_succ by lia. f_equal. lia.
    + rewrite Z.mul_1_r. symmetry. now apply sw_small; [lia|].
Qed.
End Theory.

(** ** Properties of the entry points *)

Lemma udivdi3_divmod fuel num den :
  __udivdi3 fuel num den =
    match while fuel (norm_cond 64 num) (norm_body 64) (den, 1) with
    | None => None
    | Some (d, b) => option_map (fun s => snd (fst (fst s)))
                       (while fuel div_cond (div_body 64) (num, 0, b, d))
    end.
Proof.
  unfold __udivdi3. destruct (while fuel _ _ (den, 1)) as [[d b]|]; [|reflexivity].
  now destruct (while fuel _ _ (num, 0, b, d)) as [[[[? ?] ?] ?]|].
Qed.

(** The unsigned division routines return quotient and remainder. For a nonzero divisor,
    outside the operands [div_stuck] describes, [__udivsi3]/[__umodsi3] and their 64-bit
    counterparts return the exact quotient and remainder (as the signed value of the word, which
    is their declared result type), with a number of loop iterations bounded by the width. *)
Lemma unsigned_division_correct fuel num den num' den' :
  (64 < fuel)%nat ->
  is_u 32 num -> 0 < den < 2 ^ 32 -> ~ div_stuck 32 num den ->
  is_u 64 num' -> 0 < den' < 2 ^ 64 -> ~ div_stuck 64 num' den' ->
  divmodsi4 fuel 0 num den = Some (num / den) /\
  divmodsi4 fuel 1 num den = Some (num mod den) /\
  __udivsi3 fuel num den = Some (num / den) /\
  __umodsi3 fuel num den = Some (s32 (num mod den)) /\
  __udivdi3 fuel num' den' = Some (num' / den') /\
  __umoddi3 fuel num' den' = Some (s64 (num' mod den')).
Proof.
  intros Hf Hn Hd Hs Hn' Hd' Hs'.
  destruct (divmod_run 32 ltac:(lia) num den fuel) as (j & b & e & _ & _ & Hu & Hlt);
    [easy | easy | easy | lia |].
  destruct (divmod_run 64 ltac:(lia) num' den' fuel) as (j' & b' & e' & R1 & R2 & Hu' & Hlt');
    [easy | easy | easy | lia |].
  unfold divmodsi4, __udivsi3, __umodsi3, __umoddi3, udiv, umod.
  rewrite !(divmod_ok 32) by (lia || assumption). rewrite (divmod_ok 64) by (lia || assumption).
  rewrite udivdi3_divmod, R1, R2. cbn [option_map fst snd]. change (truthy 0) with false.
  change (truthy 1) with true. cbv iota.
  rewrite (sw_small 32 (num / den)) by (unfold is_s, is_u in *; lia). repeat split; reflexivity.
Qed.

(** Signed division and remainder are C's. For operands in range, a nonzero divisor, and no
    [div_stuck_signed] pair, [__divsi3]/[__divdi3] return the quotient truncated toward zero and
    [__modsi3]/[__moddi3] the remainder with the dividend's sign. *)
Lemma signed_division_correct fuel n d n' d' :
  (64 < fuel)%nat ->
  is_s 32 n -> is_s 32 d -> d <> 0 -> ~ div_stuck_signed 32 n d ->
  is_s 64 n' -> is_s 64 d' -> d' <> 0 -> ~ div_stuck_signed 64 n' d' ->
  __divsi3 fuel n d = Some (Z.quot n d) /\ __modsi3 fuel n d = Some (Z.rem n d) /\
  __divdi3 fuel n' d' = Some (Z.quot n' d') /\ __moddi3 fuel n' d' = Some (Z.rem n' d').
Proof.
  intros. unfold __divsi3, __modsi3, __divdi3, __moddi3.
  repeat split; (apply div_signed_ok || apply mod_signed_ok); (assumption || lia).
Qed.


(** [__udivdi3] does not return where [divmoddi4] does not, and divides by zero as the others do. *)
Lemma udivdi3_stuck fuel n d : is_u 64 n -> div_stuck 64 n d -> __udivdi3 fuel n d = None.
Proof.
  intros Hn Hd. pose proof (divmod_stuck_none 64 ltac:(lia) 0 n d fuel Hn Hd) as E. unfold divmod in E.
  rewrite udivdi3_divmod. destruct (while fuel _ _ (d, 1)) as [[d' b]|]; [|reflexivity].
  destruct (while fuel _ _ (n, 0, b, d')) as [[[[? ?] ?] ?]|]; [discriminate | reflexivity].
Qed.

Lemma udivdi3_zero fuel n : is_u 64 n -> (65 < fuel)%nat ->
  __udivdi3 fuel n 0 = Some (if n =? 0 then 1 else 0).
Proof.
  intros Hn Hf. rewrite udivdi3_divmod. destruct (zero_run 64 ltac:(lia) n fuel Hn ltac:(lia)) as (b & b' & -> & ->).
  reflexivity.
Qed.

(** C26: Integer division is C's at both widths.  Outside the operands where a loop provably does
    not end ([div_stuck], [div_stuck_signed]), and for a nonzero divisor, the unsigned routines
    return quotient and remainder (as the value of their declared, signed result type), the signed
    ones the quotient truncated toward zero and the remainder with the dividend's sign, in a number
    of iterations bounded by the width.  Division by zero returns rather than traps, in all
    routines: a nonzero dividend gives quotient 0 and itself as remainder, and 0/0 gives 1 with
    remainder 0.  On the operands excepted, no routine returns, however long it runs, at either
    width: an unsigned one when the divisor is one and the dividend is above a quarter of the
    unsigned range, a signed one when the divisor is one or minus one and the magnitude of the
    dividend, of either sign, is above that quarter. *)
Theorem division_correct fuel : (65 < fuel)%nat ->
  (forall n d, is_u 32 n -> 0 < d < 2 ^ 32 -> ~ div_stuck 32 n d ->
     divmodsi4 fuel 0 n d = Some (n / d) /\ divmodsi4 fuel 1 n d = Some (n mod d) /\
     __udivsi3 fuel n d = Some (n / d) /\ __umodsi3 fuel n d = Some (s32 (n mod d))) /\
  (forall n d, is_u 64 n -> 0 < d < 2 ^ 64 -> ~ div_stuck 64 n d ->
     divmoddi4 fuel 0 n d = Some (n / d) /\ divmoddi4 fuel 1 n d = Some (n mod d) /\
     __udivdi3 fuel n d = Some (n / d) /\ __umoddi3 fuel n d = Some (s64 (n mod d))) /\
  (forall n d, is_s 32 n -> is_s 32 d -> d <> 0 -> ~ div_stuck_signed 32 n d ->
     __divsi3 fuel n d = Some (Z.quot n d) /\ __modsi3 fuel n d = Some (Z.rem n d)) /\
  (forall n d, is_s 64 n -> is_s 64 d -> d <> 0 -> ~ div_stuck_signed 64 n d ->
     __divdi3 fuel n d = Some (Z.quot n d) /\ __moddi3 fuel n d = Some (Z.rem n d)) /\
  (forall n m, is_u 32 n -> is_u 64 m ->
     let q32 := Some (if n =? 0 then 1 else 0) in let q64 := Some (if m =? 0 then 1 else 0) in
     divmodsi4 fuel 0 n 0 = q32 /\ divmodsi4 fuel 1 n 0 = Some n /\
     __udivsi3 fuel n 0 = q32 /\ __umodsi3 fuel n 0 = Some (s32 n) /\
     divmoddi4 fuel 0 m 0 = q64 /\ divmoddi4 fuel 1 m 0 = Some m /\
     __udivdi3 fuel m 0 = q64 /\ __umoddi3 fuel m 0 = Some (s64 m)) /\
  (forall n m, is_s 32 n -> is_s 64 m ->
     __divsi3 fuel n 0 = Some (if n =? 0 then 1 else 0) /\ __modsi3 fuel n 0 = Some n /\
     __divdi3 fuel m 0 = Some (if m =? 0 then 1 else 0) /\ __moddi3 fuel m 0 = Some m) /\
  (forall any n d, is_u 32 n -> div_stuck 32 n d ->
     (forall modwanted, divmodsi4 any modwanted n d = None) /\
     __udivsi3 any n d = None /\ __umodsi3 any n d = None) /\
  (forall any n d, is_u 64 n -> div_stuck 64 n d ->
     (forall modwanted, divmoddi4 any modwanted n d = None) /\
     __udivdi3 any n d = None /\ __umoddi3 any n d = None) /\
  (forall any n d, is_s 32 n -> is_s 32 d -> div_stuck_signed 32 n d ->
     __divsi3 any n d = None /\ __modsi3 any n d = None) /\
  (forall any n d, is_s 64 n -> is_s 64 d -> div_stuck_signed 64 n d ->
     __divdi3 any n d = None /\ __moddi3 any n d = None).
Proof.
  intros Hf.
  assert (U : is_u 64 0 /\ ~ div_stuck 64 0 2) by (cbv; intuition (lia || discriminate)).
  assert (V : is_u 32 0 /\ ~ div_stuck 32 0 2) by (cbv; intuition (lia || discriminate)).
  assert (S : is_s 64 0 /\ is_s 64 2 /\ ~ div_stuck_signed 64 0 2)
    by (cbv; intuition (lia || discriminate)).
  assert (R : is_s 32 0 /\ is_s 32 2 /\ ~ div_stuck_signed 32 0 2)
    by (cbv; intuition (lia || discriminate)).
  repeat match goal with |- (forall _, _) /\ _ => split end; intros n d; intros.
  - destruct (unsigned_division_correct fuel n d 0 2); easy || lia.
  - destruct (unsigned_division_correct fuel 0 2 n d) as (_ & _ & _ & _ & R64); try easy; [lia|].
    unfold divmoddi4. rewrite !(divmod_ok 64) by (lia || assumption). easy.
  - destruct (signed_division_correct fuel n d 0 2); easy || lia.
  - destruct (signed_division_correct fuel 0 2 n d); easy || lia.
  - unfold divmodsi4, divmoddi4. rewrite !(divmod_zero 32), !(divmod_zero 64), udivdi3_zero by (lia || assumption).
    destruct (unsigned_zero 32 ltac:(lia) n fuel) as [Q32 R32]; [assumption | lia |].
    destruct (unsigned_zero 64 ltac:(lia) d fuel) as [Q64 R64]; [assumption | lia |].
    repeat split; assumption.
  - destruct (signed_zero 32 ltac:(lia) n fuel) as [Q32 R32]; [assumption | lia |].
    destruct (signed_zero 64 ltac:(lia) d fuel) as [Q64 R64]; [assumption | lia |].
    repeat split; assumption.
  - split; [intros; now apply divmod_stuck_none | now apply unsigned_stuck].
  - split; [intros; now apply divmod_stuck_none|]. split; [now apply udivdi3_stuck | now apply unsigned_stuck].
  - now apply signed_stuck.
  - now apply signed_stuck.
Qed.

Lemma division_correct_witness :
  divmodsi4 100 0 1000003 17 = Some (1000003 / 17) /\ __umodsi3 100 1000003 17 = Some 12 /\
  __divsi3 100 (-7) 2 = Some (-3) /\ __modsi3 100 (-7) 2 = Some (-1) /\
  __divdi3 100 (-7) 0 = Some 0 /\ __moddi3 100 (-7) 0 = Some (-7) /\
  __udivsi3 1000 4000000000 1 = None /\ __modsi3 1000 (-2000000000) (-1) = None /\
  __udivdi3 1000 10000000000000000000 1 = None.
Proof.
  pose proof (division_correct 100 ltac:(lia)) as (U & _ & D & _ & _ & Zr & I & J & K & _).
  split; [|split; [|split; [|split; [|split; [|split; [|split; [|split]]]]]]].
  - apply (U 1000003 17); cbv; intuition (lia || discriminate).
  - apply (U 1000003 17); cbv; intuition (lia || discriminate).
  - apply (D (-7) 2); cbv; intuition (lia || discriminate).
  - apply (D (-7) 2); cbv; intuition (lia || discriminate).
  - apply (Zr 0 (-7)); cbv; intuition discriminate.
  - apply (Zr 0 (-7)); cbv; intuition discriminate.
  - apply (I 1000%nat 4000000000 1); cbv; intuition discriminate.
  - apply (K 1000%nat (-2000000000) (-1)); cbv; intuition discriminate.
  - apply (J 1000%nat 10000000000000000000 1); cbv; intuition discriminate.
Defined.

(** C27: The emulated multiplications and shifts.  The shift-and-add multiplications return the
    product modulo the word size, as the signed value of the word, for every pair of operands; the
    shifts agree with division and multiplication by powers of two for every shift count, including
    counts at or above the width, where the arithmetic right shift yields the sign and the others
    zero. *)
Theorem products_and_shifts_correct fuel : (64 < fuel)%nat ->
  (forall a b, is_u 32 a -> __mulsi3 fuel a b = Some (s32 (a * b))) /\
  (forall a b, is_u 64 a -> __muldi3 fuel a b = Some (s64 (a * b))) /\
  (forall v u c, is_s 32 v -> is_u 32 u -> is_u 32 c ->
     __ashrsi3 fuel v c = Some (v / 2 ^ c) /\ __lshrsi3 fuel u c = Some (u / 2 ^ c) /\
     __ashlsi3 fuel v c = Some (s32 (v * 2 ^ c))) /\
  (forall v u c, is_s 64 v -> is_u 64 u -> is_u 64 c ->
     __ashrdi3 fuel v c = Some (v / 2 ^ c) /\ __lshrdi3 fuel u c = Some (u / 2 ^ c) /\
     __ashldi3 fuel v c = Some (s64 (v * 2 ^ c))).
Proof.
  intros. repeat split; intros; (apply mul_ok || apply ashr_ok || apply lshr_ok || apply ashl_ok); (assumption || lia).
Qed.

Lemma products_and_shifts_witness :
  __mulsi3 65 4294967295 7 = Some (-7) /\ __ashrsi3 65 (-5) 1 = Some (-3) /\ __lshrsi3 65 5 40 = Some 0.
Proof.
  destruct (products_and_shifts_correct 65 ltac:(lia)) as (P & _ & S & _). split; [|split].
  - apply (P 4294967295 7). cbv; intuition discriminate.
  - apply (S (-5) 5 1); cbv; intuition discriminate.
  - apply (S (-5) 5 40); cbv; intuition discriminate.
Defined.
