(* ===== verification/EmulationAgrees.v ===== *)
(** * The emulation library against the operations it stands for

    A processor without an operation of the base library gets it from standard_emulation.c; a
    program must compute the same with either. *)

From S2P Require Import Prelude.
From S2P Require Import CInt.
From S2P Require Import Cpp.
From S2P Require Import SimValue.
From S2P Require Import SimValueLaws.
From S2P Require Import OSAL.
From S2P Require Import BaseInt.
From S2P Require Import BaseIntSpec.
From S2P Require Import IntEmulation.
#[local] Open Scope Z_scope.

(** The routine returns a number, and the operation writes the same to its result of [n] bytes. *)
Definition agrees (n : nat) (emulated : option Z) (op : Binary) (v1 v2 out : SimValue) : Prop :=
  exists x, emulated = Some x /\ binary_trigger op [v1; v2; out] = Done [v1; v2; assign_bytes n x out].

Section Agreement.
Context (fuel : nat) (v1 v2 out : SimValue) (a b : Z).
Context (Hf : (64 < fuel)%nat).

Lemma agrees_value n op x y : binary_trigger op [v1; v2; out] = deliver (Value n y) 3 [v1; v2; out] out ->
  x mod 2 ^ (8 * Z.of_nat n) = y mod 2 ^ (8 * Z.of_nat n) -> agrees n (Some x) op v1 v2 out.
Proof. intros H E. exists x. split; [reflexivity|]. rewrite H. cbn. now rewrite (assign_bytes_cong n x y). Qed.

Lemma spec_at w op : binary_bits op = w -> holds w v1 a -> holds w v2 b ->
  binary_trigger op [v1; v2; out] = deliver (binary_spec op (bitWidth_ v1) a b) 3 [v1; v2; out] out.
Proof. intros E H1 H2. apply binary_correct; now rewrite E. Qed.

(** A quotient whose division the routines finish fits its type. *)
Lemma quotient_fits w k x y : 2 <= w -> is_s w x -> is_s w y -> y <> 0 -> ~ div_stuck_signed w x y ->
  fits w k (x ÷ y) = Value k (x ÷ y).
Proof.
  intros Hw [X0 X1] [Y0 Y1] Hy Hs. unfold div_stuck_signed in Hs. unfold fits.
  pose proof (pow2_succ (w - 2) ltac:(lia)) as P. replace (w - 2 + 1) with (w - 1) in P by lia.
  pose proof (pow2_pos (w - 2) ltac:(lia)) as P0.
  assert (B : Z.abs (x ÷ y) <= 2 ^ (w - 2)); [|zdec; lia].
  rewrite <- Z.quot_abs by assumption. destruct (Z.eq_dec (Z.abs y) 1) as [E|E].
  - rewrite E, Z.quot_1_r. lia.
  - apply Z.quot_le_upper_bound; nia.
Qed.

Section Words.
Context (H1 : holds 32 v1 a) (H2 : holds 32 v2 b).
Let word op E := spec_at 32 op E H1 H2.
Ltac by_table := match goal with |- binary_trigger ?op _ = _ => rewrite (word op eq_refl) end; cbn [binary_spec].

Lemma word_quotients : s32 b <> 0 -> ~ div_stuck_signed 32 (s32 a) (s32 b) ->
  agrees 4 (__divsi3 fuel (s32 a) (s32 b)) DIV_ v1 v2 out /\ agrees 4 (__modsi3 fuel (s32 a) (s32 b)) MOD_ v1 v2 out.
Proof.
  intros Hb Hs. pose proof (sw_range 32 a ltac:(lia)) as Ra. pose proof (sw_range 32 b ltac:(lia)) as Rb.
  fold (s32 a) in Ra. fold (s32 b) in Rb.
  unfold __divsi3, __modsi3. rewrite div_signed_ok, mod_signed_ok by (assumption || lia).
  split; (eapply agrees_value; [by_table; unfold quotient, remainder | reflexivity]);
    rewrite quotient_fits by (assumption || lia); now rewrite (proj2 (Z.eqb_neq _ _) Hb).
Qed.

Lemma word_unsigned_quotients : u32 b <> 0 -> ~ div_stuck 32 (u32 a) (u32 b) ->
  agrees 4 (__udivsi3 fuel (u32 a) (u32 b)) DIVU_ v1 v2 out /\ agrees 4 (__umodsi3 fuel (u32 a) (u32 b)) MODU_ v1 v2 out.
Proof.
  intros Hb Hs. pose proof (u32_word a) as Ra. pose proof (u32_word b) as Rb. unfold is_u in Rb.
  destruct (unsigned_division_correct fuel (u32 a) (u32 b) 0 2) as (_ & _ & D & M & _);
    [lia | assumption | lia | assumption | unfold is_u; lia | lia | intros [[=] _] |].
  rewrite D, M. split; eapply agrees_value; try (by_table;
    rewrite (proj2 (Z.eqb_neq _ _) Hb); reflexivity); [reflexivity|]. apply (uw_sw 32). lia.
Qed.

Lemma word_products : agrees 4 (__mulsi3 fuel (u32 a) (u32 b)) MUL_ v1 v2 out.
Proof.
  unfold __mulsi3. rewrite mul_ok by (apply u32_word || lia).
  eapply agrees_value; [by_table; reflexivity|].
  change (uw 32 (sw 32 (u32 a * u32 b)) = uw 32 (a * b)). rewrite uw_sw by lia. apply uw_ring. lia.
Qed.

Lemma word_shifts : u32 b < 32 ->
  agrees 4 (__ashlsi3 fuel (s32 a) (u32 b)) SHL_ v1 v2 out /\
  agrees 4 (__ashrsi3 fuel (s32 a) (u32 b)) SHR_ v1 v2 out /\
  agrees 4 (__lshrsi3 fuel (u32 a) (u32 b)) SHRU_ v1 v2 out.
Proof.
  intros Hb. pose proof (u32_word b) as Rb. pose proof (sw_range 32 a ltac:(lia)) as Sa. fold (s32 a) in Sa.
  assert (Wd : 32 <= bitWidth_ v1) by apply H1. unfold is_u in Rb.
  assert (Sb : s32 b = u32 b) by (rewrite <- s32_u32; apply sw_small; [lia | unfold is_s; cbn; lia]).
  unfold __ashlsi3, __ashrsi3, __lshrsi3. rewrite ashl_ok, ashr_ok, lshr_ok by (assumption || apply u32_word || lia).
  split; [|split]; eapply agrees_value.
  - by_table. now rewrite (proj2 (Z.ltb_lt _ _) Hb).
  - change (uw 32 (sw 32 (s32 a * 2 ^ u32 b)) = uw 32 (a * 2 ^ u32 b)). rewrite uw_sw by lia.
    rewrite <- (uw_mul_l 32 (s32 a)) by lia. unfold s32. rewrite uw_sw by lia. apply uw_mul_l. lia.
  - by_table. unfold right_shift. rewrite Sb.
    rewrite (proj2 (Z.ltb_ge (Z.min _ _) _)), (proj2 (Z.leb_le 0 _)), (proj2 (Z.ltb_lt _ 32)) by lia. reflexivity.
  - reflexivity.
  - by_table. unfold right_shift.
    rewrite (proj2 (Z.ltb_ge (Z.min _ _) _)), (proj2 (Z.leb_le 0 _)), (proj2 (Z.ltb_lt _ 32)) by lia. reflexivity.
  - reflexivity.
Qed.

(** Beyond the width of the port the operation forgets the sign. *)
Lemma word_shift_beyond : Z.min (bitWidth_ v1) 64 < u32 b < 2 ^ 31 -> s32 a < 0 ->
  __ashrsi3 fuel (s32 a) (u32 b) = Some (-1) /\
  binary_trigger SHR_ [v1; v2; out] = Done [v1; v2; assign_bytes 4 0 out].
Proof.
  intros Hb Ha. pose proof (u32_word b) as Rb. pose proof (sw_range 32 a ltac:(lia)) as Sa. fold (s32 a) in Sa.
  assert (Wd : 32 <= bitWidth_ v1) by apply H1.
  assert (Sb : s32 b = u32 b) by (rewrite <- s32_u32; apply sw_small; [lia | unfold is_s; cbn; lia]).
  unfold __ashrsi3. rewrite ashr_ok by (assumption || lia). split.
  - f_equal. pose proof (pow2_le 32 (u32 b) ltac:(lia) ltac:(lia)). unfold is_s in Sa. cbn in Sa. apply div_eq; lia.
  - by_table. unfold right_shift. rewrite Sb.
    now rewrite (proj2 (Z.ltb_lt (Z.min _ _) _)) by lia.
Qed.
End Words.

Section LongWords.
Context (H1 : holds 64 v1 a) (H2 : holds 64 v2 b).
Let long op E := spec_at 64 op E H1 H2.
Ltac by_table := match goal with |- binary_trigger ?op _ = _ => rewrite (long op eq_refl) end; cbn [binary_spec].

Lemma long_quotients : s64 b <> 0 -> ~ div_stuck_signed 64 (s64 a) (s64 b) ->
  agrees 8 (__divdi3 fuel (s64 a) (s64 b)) DIV64_ v1 v2 out /\ agrees 8 (__moddi3 fuel (s64 a) (s64 b)) MOD64_ v1 v2 out.
Proof.
  intros Hb Hs. pose proof (sw_range 64 a ltac:(lia)) as Ra. pose proof (sw_range 64 b ltac:(lia)) as Rb.
  fold (s64 a) in Ra. fold (s64 b) in Rb.
  unfold __divdi3, __moddi3. rewrite div_signed_ok, mod_signed_ok by (assumption || lia).
  split; (eapply agrees_value; [by_table; unfold quotient, remainder | reflexivity]);
    rewrite quotient_fits by (assumption || lia); now rewrite (proj2 (Z.eqb_neq _ _) Hb).
Qed.

Lemma long_unsigned_quotients : u64 b <> 0 -> ~ div_stuck 64 (u64 a) (u64 b) ->
  agrees 8 (__udivdi3 fuel (u64 a) (u64 b)) DIVU64_ v1 v2 out /\ agrees 8 (__umoddi3 fuel (u64 a) (u64 b)) MODU64_ v1 v2 out.
Proof.
  intros Hb Hs. pose proof (uw_range 64 a ltac:(lia)) as Ra. pose proof (uw_range 64 b ltac:(lia)) as Rb.
  fold (u64 a) in Ra. fold (u64 b) in Rb. unfold is_u in Rb.
  destruct (unsigned_division_correct fuel 0 2 (u64 a) (u64 b)) as (_ & _ & _ & _ & D & M);
    [lia | unfold is_u; lia | lia | intros [[=] _] | assumption | lia | assumption |].
  rewrite D, M. split; eapply agrees_value; try (by_table;
    rewrite (proj2 (Z.eqb_neq _ _) Hb); reflexivity); [reflexivity|]. apply (uw_sw 64). lia.
Qed.

Lemma long_products : agrees 8 (__muldi3 fuel (u64 a) (u64 b)) MUL64_ v1 v2 out.
Proof.
  unfold __muldi3. rewrite mul_ok by (lia || (apply uw_range; lia)).
  eapply agrees_value; [by_table; reflexivity|].
  change (uw 64 (sw 64 (u64 a * u64 b)) = uw 64 (a * b)). rewrite uw_sw by lia. apply uw_ring. lia.
Qed.

Lemma long_shifts : u64 b < 64 ->
  agrees 8 (__ashldi3 fuel (s64 a) (u64 b)) SHL64_ v1 v2 out /\
  agrees 8 (__ashrdi3 fuel (s64 a) (u64 b)) SHR64_ v1 v2 out /\
  agrees 8 (__lshrdi3 fuel (u64 a) (u64 b)) SHRU64_ v1 v2 out.
Proof.
  intros Hb. pose proof (uw_range 64 b ltac:(lia)) as Rb. fold (u64 b) in Rb.
  pose proof (uw_range 64 a ltac:(lia)) as Ra. fold (u64 a) in Ra.
  pose proof (sw_range 64 a ltac:(lia)) as Sa. fold (s64 a) in Sa.
  assert (Wd : 64 <= bitWidth_ v1) by apply H1. pose proof Rb as Rb'. unfold is_u in Rb'.
  assert (Sb : s64 b = u64 b) by (rewrite <- s64_u64; apply sw_small; [lia | unfold is_s; cbn; lia]).
  unfold __ashldi3, __ashrdi3, __lshrdi3. rewrite ashl_ok, ashr_ok, lshr_ok by (assumption || lia).
  split; [|split]; eapply agrees_value.
  - by_table. now rewrite (proj2 (Z.ltb_lt _ _) Hb).
  - change (uw 64 (sw 64 (s64 a * 2 ^ u64 b)) = uw 64 (a * 2 ^ u64 b)). rewrite uw_sw by lia.
    rewrite <- (uw_mul_l 64 (s64 a)) by lia. unfold s64. rewrite uw_sw by lia. apply uw_mul_l. lia.
  - by_table. unfold right_shift. rewrite Sb.
    rewrite (proj2 (Z.ltb_ge (Z.min _ _) _)), (proj2 (Z.leb_le 0 _)), (proj2 (Z.ltb_lt _ 64)) by lia. reflexivity.
  - reflexivity.
  - by_table. unfold right_shift.
    rewrite (proj2 (Z.ltb_ge 64 _)), (proj2 (Z.leb_le 0 _)), (proj2 (Z.ltb_lt _ 64)) by lia. reflexivity.
  - reflexivity.
Qed.
End LongWords.
End Agreement.

(** C25: The routines of the emulation library compute what the operations they replace compute in the
    simulator.  With operands in ports of the word's width or more, each division, remainder,
    multiplication and shift routine returns a number, and the operation writes the same number, for
    32-bit and for 64-bit words: for every product, for every quotient whose divisor is not zero and
    whose routine terminates, and for every shift by less than the word.  Beyond the width of the
    port, where the arithmetic right shift routine gives the sign, the operation gives zero. *)
Theorem emulation_agrees fuel v1 v2 out a b : (64 < fuel)%nat ->
  (holds 32 v1 a -> holds 32 v2 b ->
   agrees 4 (__mulsi3 fuel (u32 a) (u32 b)) MUL_ v1 v2 out /\
   (s32 b <> 0 -> ~ div_stuck_signed 32 (s32 a) (s32 b) ->
    agrees 4 (__divsi3 fuel (s32 a) (s32 b)) DIV_ v1 v2 out /\ agrees 4 (__modsi3 fuel (s32 a) (s32 b)) MOD_ v1 v2 out) /\
   (u32 b <> 0 -> ~ div_stuck 32 (u32 a) (u32 b) ->
    agrees 4 (__udivsi3 fuel (u32 a) (u32 b)) DIVU_ v1 v2 out /\ agrees 4 (__umodsi3 fuel (u32 a) (u32 b)) MODU_ v1 v2 out) /\
   (u32 b < 32 ->
    agrees 4 (__ashlsi3 fuel (s32 a) (u32 b)) SHL_ v1 v2 out /\
    agrees 4 (__ashrsi3 fuel (s32 a) (u32 b)) SHR_ v1 v2 out /\
    agrees 4 (__lshrsi3 fuel (u32 a) (u32 b)) SHRU_ v1 v2 out) /\
   (Z.min (bitWidth_ v1) 64 < u32 b < 2 ^ 31 -> s32 a < 0 ->
    __ashrsi3 fuel (s32 a) (u32 b) = Some (-1) /\
    binary_trigger SHR_ [v1; v2; out] = Done [v1; v2; assign_bytes 4 0 out])) /\
  (holds 64 v1 a -> holds 64 v2 b ->
   agrees 8 (__muldi3 fuel (u64 a) (u64 b)) MUL64_ v1 v2 out /\
   (s64 b <> 0 -> ~ div_stuck_signed 64 (s64 a) (s64 b) ->
    agrees 8 (__divdi3 fuel (s64 a) (s64 b)) DIV64_ v1 v2 out /\ agrees 8 (__moddi3 fuel (s64 a) (s64 b)) MOD64_ v1 v2 out) /\
   (u64 b <> 0 -> ~ div_stuck 64 (u64 a) (u64 b) ->
    agrees 8 (__udivdi3 fuel (u64 a) (u64 b)) DIVU64_ v1 v2 out /\ agrees 8 (__umoddi3 fuel (u64 a) (u64 b)) MODU64_ v1 v2 out) /\
   (u64 b < 64 ->
    agrees 8 (__ashldi3 fuel (s64 a) (u64 b)) SHL64_ v1 v2 out /\
    agrees 8 (__ashrdi3 fuel (s64 a) (u64 b)) SHR64_ v1 v2 out /\
    agrees 8 (__lshrdi3 fuel (u64 a) (u64 b)) SHRU64_ v1 v2 out)).
Proof.
  intros Hf. split; intros H1 H2.
  - split; [now apply word_products|]. split; [now apply word_quotients|].
    split; [now apply word_unsigned_quotients|]. split; [now apply word_shifts | now apply word_shift_beyond].
  - split; [now apply long_products|]. split; [now apply long_quotients|].
    split; [now apply long_unsigned_quotients | now apply long_shifts].
Qed.

Lemma emulation_agrees_witness :
  agrees 4 (__modsi3 100 (-7) 2) MOD_ (port 32 (-7)) (port 32 2) (port 32 0) /\
  __ashrsi3 100 (-7) 40 = Some (-1) /\
  binary_trigger SHR_ [port 32 (-7); port 32 40; port 32 0] = Done [port 32 (-7); port 32 40; assign_bytes 4 0 (port 32 0)].
Proof.
  split.
  - apply (emulation_agrees 100 (port 32 (-7)) (port 32 2) (port 32 0) (-7) 2);
      [lia | apply port_holds_32; unfold SIMD_WORD_WIDTH; lia.. | discriminate | intros [[=] _]].
  - apply (emulation_agrees 100 (port 32 (-7)) (port 32 40) (port 32 0) (-7) 40);
      [lia | apply port_holds_32; unfold SIMD_WORD_WIDTH; lia.. | split; reflexivity | reflexivity].
Defined.
