(* ===== verification/FPState.v ===== *)
(** * State of the floating-point environment

    The file-scope variables of newlib/libc/sys/tce/float_emulation.c and the enumerations of
    softfloat.h.  A routine that reads or writes them is a function of type [FP A]: it takes the
    state and returns a value with the new state, or [None] when a loop ran out of fuel. *)

From S2P Require Import Prelude.
From S2P Require Import CInt.

(** ** softfloat.h *)

Definition float_tininess_after_rounding : Z := 0.
Definition float_tininess_before_rounding : Z := 1.

Definition float_round_nearest_even : Z := 0.
Definition float_round_down : Z := 1.
Definition float_round_up : Z := 2.
Definition float_round_to_zero : Z := 3.

Definition float_flag_invalid : Z := 1.
Definition float_flag_divbyzero : Z := 4.
Definition float_flag_overflow : Z := 8.
Definition float_flag_underflow : Z := 16.
Definition float_flag_inexact : Z := 32.

(** ** The variables *)

Record fpstate : Type := mk_fpstate {
  float_rounding_mode : Z;
  float_detect_tininess : Z;
  float_exception_flags : Z
}.

(** Their initial values. *)
Definition fp_init : fpstate :=
  mk_fpstate float_round_nearest_even float_tininess_after_rounding 0.

(** ** Sequencing *)

Definition FP (A : Type) : Type := fpstate -> option (A * fpstate).

Definition ret {A} (x : A) : FP A := fun st => Some (x, st).

Definition bind {A B} (m : FP A) (k : A -> FP B) : FP B :=
  fun st => match m st with None => None | Some (x, st') => k x st' end.

(** A computation that does not touch the state. *)
Definition lift {A} (o : option A) : FP A :=
  fun st => match o with None => None | Some x => Some (x, st) end.

Notation "'let*' x := m 'in' k" := (bind m (fun x => k))
  (at level 10, x pattern, m at level 200, k at level 200) : c_scope.
Notation "m ;; k" := (bind m (fun _ => k)) (at level 199, right associativity) : c_scope.

Definition get_mode : FP Z := fun st => Some (float_rounding_mode st, st).
Definition get_tininess : FP Z := fun st => Some (float_detect_tininess st, st).

(** [float_exception_flags |= flags] *)
Definition float_raise (flags : Z) : FP unit := fun st =>
  Some (tt, mk_fpstate (float_rounding_mode st) (float_detect_tininess st)
              (s8 (float_exception_flags st ||| flags))).

Definition when_ (b : bool) (m : FP unit) : FP unit := if b then m else ret tt.

(** ** Well-formed states *)

Record fp_ok (st : fpstate) : Prop := mk_fp_ok {
  mode_ok : 0 <= float_rounding_mode st <= 3;
  tininess_ok : 0 <= float_detect_tininess st <= 1;
  flags_ok : 0 <= float_exception_flags st < 2 ^ 7
}.

(** The state after raising flags. *)
Definition raised (st : fpstate) (flags : Z) : fpstate :=
  mk_fpstate (float_rounding_mode st) (float_detect_tininess st)
    (float_exception_flags st ||| flags).

(** A constant flag set is in range. *)
Ltac flag_range := vm_compute; split; [discriminate | reflexivity].

Lemma float_raise_eq st flags : fp_ok st -> 0 <= flags < 2 ^ 7 ->
  float_raise flags st = Some (tt, raised st flags).
Proof.
  intros [_ _ H] Hf. unfold float_raise, raised, s8. rewrite sw_small; [reflexivity|lia|].
  pose proof (lor_bound _ _ 7 ltac:(lia) H Hf). unfold is_s. lia.
Qed.

Lemma raised_ok st flags : fp_ok st -> 0 <= flags < 2 ^ 7 -> fp_ok (raised st flags).
Proof. intros [Hm Ht Hf] H. split; [exact Hm | exact Ht |]. now apply (lor_bound _ _ 7). Qed.

Lemma raised_raised st a b : raised (raised st a) b = raised st (a ||| b).
Proof. unfold raised. cbn. now rewrite Z.lor_assoc. Qed.

Lemma raised_0 st : raised st 0 = st.
Proof. destruct st. unfold raised. cbn. now rewrite Z.lor_0_r. Qed.

Lemma fp_init_ok : fp_ok fp_init.
Proof. split; cbv; intuition discriminate. Qed.

#[export] Hint Resolve raised_ok fp_init_ok : cint.
