(* ===== verification/Rounding.v ===== *)
(** * Reference semantics of rounding

    An exact nonnegative result is a rational [N / D], measured in units of the format's least
    positive number.  [ref_bits] is its rounding to [p] bits of precision with the exponent
    range of the format, as the bit pattern without the sign; [ref_flags] are the IEEE
    exceptions of that rounding.  Nothing here follows the code: the theorems about the C
    routines relate them to these definitions, and [ref_mag_nearest] shows that the reference
    itself returns a closest representable value, ties to even. *)

From S2P Require Import Prelude.
From S2P Require Import CInt.
From S2P Require Import FPState.

(** Whether the integer part [q] of [N / D], with remainder [r], is rounded away from zero. *)
Definition rounds_away (mode : Z) (s : bool) (q r D : Z) : bool :=
  if mode =? float_round_nearest_even then
    match 2 * r ?= D with Lt => false | Eq => Z.odd q | Gt => true end
  else if mode =? float_round_to_zero then false
  else negb (r =? 0) && (if s then mode =? float_round_down else mode =? float_round_up).

(** [N / D] rounded to an integer. *)
Definition round_q (mode : Z) (s : bool) (N D : Z) : Z :=
  N / D + b2z (rounds_away mode s (N / D) (N mod D) D).

(** The modes in which an overflowing magnitude saturates instead of becoming infinite. *)
Definition saturates (mode : Z) (s : bool) : bool :=
  (mode =? float_round_to_zero) ||
  (if s then mode =? float_round_up else mode =? float_round_down).

Section Format.
(** Precision in bits, and the all-ones exponent field. *)
Variables p E : Z.

(** Magnitude of a finite bit pattern (sign removed), in least-positive units. *)
Definition mag_val (b : Z) : Z :=
  let e := b / 2 ^ (p - 1) in
  let f := b mod 2 ^ (p - 1) in
  if e =? 0 then f else (f + 2 ^ (p - 1)) * 2 ^ (e - 1).

Definition inf_bits : Z := E * 2 ^ (p - 1).

(** Exponent of the unit in the last place of the rounded result. *)
Definition ref_k (N D : Z) : Z := Z.max 0 (Z.log2 (N / D) - (p - 1)).

(** The rounded magnitude with an unbounded exponent range above. *)
Definition ref_mag (mode : Z) (s : bool) (N D : Z) : Z :=
  let k := ref_k N D in k * 2 ^ (p - 1) + round_q mode s N (D * 2 ^ k).

Definition ref_overflow (mode : Z) (s : bool) (N D : Z) : bool :=
  inf_bits <=? ref_mag mode s N D.

Definition ref_bits (mode : Z) (s : bool) (N D : Z) : Z :=
  if ref_overflow mode s N D then inf_bits - b2z (saturates mode s) else ref_mag mode s N D.

Definition ref_inexact (N D : Z) : bool := negb (N mod (D * 2 ^ ref_k N D) =? 0).

(** Below the normal range, before rounding or after rounding to [p] bits. *)
Definition ref_tiny (tininess mode : Z) (s : bool) (N D : Z) : bool :=
  (N <? 2 ^ (p - 1) * D) &&
  ((tininess =? float_tininess_before_rounding) || (round_q mode s (2 * N) D <? 2 ^ p)).

Definition ref_flags (tininess mode : Z) (s : bool) (N D : Z) : Z :=
  if ref_overflow mode s N D then float_flag_overflow ||| float_flag_inexact
  else (if ref_tiny tininess mode s N D && ref_inexact N D then float_flag_underflow else 0)
  ||| (if ref_inexact N D then float_flag_inexact else 0).
End Format.

(** ** Sticky approximations

    [sticky G Z N D]: the integer [Z] stands in the same order relation as [N / D] to every
    multiple of [G].  This is what a right shift with jamming preserves, and it is all a
    rounding that drops at least one bit more than [G] depends on. *)
Definition sticky (G Z N D : Z) : Prop := forall j, (Z ?= G * j) = (N ?= G * j * D).

Lemma sticky_refl G Z : sticky G Z Z 1.
Proof. intros j. now rewrite Z.mul_1_r. Qed.

Lemma sticky_exact G Z N D : 0 < D -> N = Z * D -> sticky G Z N D.
Proof. intros HD -> j. apply Zmult_compare_compat_r. lia. Qed.

Lemma sticky_weaken G c Z N D : sticky G Z N D -> sticky (G * c) Z N D.
Proof. intros H j. rewrite <- Z.mul_assoc. apply H. Qed.

Lemma compare_scale c a b : 0 < c -> (c * a ?= c * b) = (a ?= b).
Proof. intros. symmetry. apply Zmult_compare_compat_l. lia. Qed.

Lemma sticky_scale c G Z N D : 0 < c -> sticky G Z N D -> sticky (c * G) (c * Z) (c * N) D.
Proof.
  intros Hc H j. replace (c * G * j * D) with (c * (G * j * D)) by lia.
  rewrite <- Z.mul_assoc, !compare_scale by lia. apply H.
Qed.

(** Multiplying numerator and denominator. *)
Lemma sticky_frac c G Z N D : 0 < c -> sticky G Z N D -> sticky G Z (c * N) (c * D).
Proof.
  intros Hc H j. replace (G * j * (c * D)) with (c * (G * j * D)) by lia.
  rewrite compare_scale by lia. apply H.
Qed.

Lemma sticky_frac_inv c G Z N D : 0 < c -> sticky G Z (c * N) (c * D) -> sticky G Z N D.
Proof.
  intros Hc H j. rewrite H. replace (G * j * (c * D)) with (c * (G * j * D)) by lia.
  now rewrite compare_scale by lia.
Qed.

Lemma sticky_equiv G Z N D N' D' :
  0 < D -> 0 < D' -> N * D' = N' * D -> sticky G Z N D -> sticky G Z N' D'.
Proof.
  intros HD HD' E H. apply (sticky_frac_inv D); [lia|].
  replace (D * N') with (D' * N) by lia. rewrite (Z.mul_comm D). now apply sticky_frac.
Qed.

Lemma compare_shift a b c : (a + c ?= b + c) = (a ?= b).
Proof. rewrite !(Z.add_comm _ c). apply Zcompare_plus_compat. Qed.

Lemma sticky_add G Z N D b : sticky G Z N D -> sticky G (Z + G * b) (N + G * b * D) D.
Proof.
  intros H j. specialize (H (j - b)).
  replace (G * j) with (G * (j - b) + G * b) by lia.
  rewrite Z.mul_add_distr_r, !compare_shift. exact H.
Qed.

Lemma compare_opp_sub a b c : (c - a ?= b) = CompOpp (a ?= c - b).
Proof.
  rewrite <- Z.compare_antisym, (Z.compare_sub (c - a)), (Z.compare_sub (c - b)). f_equal. lia.
Qed.

Lemma sticky_rsub G Z N D b : sticky G Z N D -> sticky G (G * b - Z) (G * b * D - N) D.
Proof.
  intros H j. rewrite !compare_opp_sub. f_equal.
  replace (G * b - G * j) with (G * (b - j)) by lia.
  replace (G * b * D - G * j * D) with (G * (b - j) * D) by lia. apply H.
Qed.

(** Approximating an approximation. *)
Lemma sticky_trans G G' c W Z C N D :
  0 < D -> G' * C = G * c -> sticky G Z N D -> sticky G' W Z C -> sticky G' W N (D * C).
Proof.
  intros HD E H H' j. rewrite H'.
  replace (G' * j * C) with (G' * C * j) by lia.
  replace (G' * j * (D * C)) with (G' * C * j * D) by lia. rewrite E, <- Z.mul_assoc. apply H.
Qed.

(** The integer part with the discarded part jammed into the lowest bit. *)
Definition jam (N D : Z) : Z := N / D ||| b2z (negb (N mod D =? 0)).

Lemma lor_1 a : a ||| 1 = 2 * (a / 2) + 1.
Proof.
  rewrite <- (lor_add (2 * (a / 2)) 1 1); [|lia|change (2 ^ 1) with 2; lia|].
  - apply Z.bits_inj'. intros i Hi. rewrite !Z.lor_spec. change 1 with (2 ^ 0).
    rewrite Z.pow2_bits_eqb by lia. destruct (Z.eqb_spec 0 i) as [<-|Hne].
    + now rewrite !orb_true_r.
    + rewrite !orb_false_r. change (2 ^ 0) with 1. rewrite <- shiftl_1, <- shiftr_1.
      rewrite Z.shiftl_spec, Z.shiftr_spec by lia. f_equal. lia.
  - change (2 ^ 1) with 2. now rewrite Z.mul_comm, Z.mod_mul.
Qed.

Lemma jam_nonneg N D : 0 <= N -> 0 < D -> 0 <= jam N D.
Proof.
  intros. unfold jam. apply Z.lor_nonneg. split; [apply Z.div_pos; lia|].
  now destruct (N mod D =? 0).
Qed.

Lemma jam_cases N D : 0 < D ->
  (N = jam N D * D) \/
  (exists h, jam N D = 2 * h + 1 /\ 2 * h * D < N < (2 * h + 2) * D).
Proof.
  intros HD. unfold jam. pose proof (Z.div_mod N D ltac:(lia)). pose proof (Z.mod_pos_bound N D HD).
  destruct (Z.eqb_spec (N mod D) 0); cbn [negb b2z].
  - left. rewrite Z.lor_0_r. lia.
  - right. exists (N / D / 2). rewrite lor_1. split; [reflexivity|].
    pose proof (Z.div_mod (N / D) 2 ltac:(lia)). pose proof (Z.mod_pos_bound (N / D) 2 ltac:(lia)).
    set (h := N / D / 2) in *. set (q := N / D) in *. nia.
Qed.

Lemma sticky_jam N D : 0 < D -> sticky 2 (jam N D) N D.
Proof.
  intros HD j. destruct (jam_cases N D HD) as [E|(h & -> & Hl & Hh)].
  - rewrite E at 2. apply Zmult_compare_compat_r. lia.
  - destruct (Z.compare_spec (2 * h + 1) (2 * j)), (Z.compare_spec N (2 * j * D)); try reflexivity;
      nia.
Qed.

(** ** What rounding depends on *)

Lemma sticky_compare G Z N D j : sticky G Z N D -> (Z < G * j <-> N < G * j * D).
Proof. intros H. specialize (H j). unfold Z.lt. now rewrite H. Qed.

Lemma sticky_compare_eq G Z N D j : sticky G Z N D -> (Z = G * j <-> N = G * j * D).
Proof. intros H. specialize (H j). rewrite <- !Z.compare_eq_iff. now rewrite H. Qed.

(** Rounding [Z / M] and [N / (D M)] to an integer gives the same result when [M] has a factor
    [2 G]. *)
Lemma sticky_div G Z N D c :
  0 < D -> 0 < G -> 0 < c -> sticky G Z N D ->
  let M := 2 * G * c in
  Z / M = N / (D * M) /\
  (2 * (Z mod M) ?= M) = (2 * (N mod (D * M)) ?= D * M) /\
  (Z mod M =? 0) = (N mod (D * M) =? 0).
Proof.
  intros HD HG Hc H M. assert (HM : 0 < M) by (unfold M; nia).
  assert (Eq : Z / M = N / (D * M)).
  { symmetry. pose proof (div_bounds Z M HM) as [Hl Hh]. apply div_eq; [nia|].
    pose proof (sticky_compare _ _ _ _ (2 * c * (Z / M)) H).
    pose proof (sticky_compare _ _ _ _ (2 * c * (Z / M + 1)) H). unfold M in *. nia. }
  split; [exact Eq|]. pose proof (Z.div_mod Z M ltac:(lia)) as E1.
  pose proof (Z.div_mod N (D * M) ltac:(nia)) as E2. rewrite <- Eq in E2.
  set (q := Z / M) in *. set (r := Z mod M) in *. set (r' := N mod (D * M)) in *. split.
  - specialize (H (c * (2 * q + 1))).
    rewrite (Z.compare_sub (2 * r)), (Z.compare_sub (2 * r')).
    rewrite (Z.compare_sub Z), (Z.compare_sub N) in H.
    replace (2 * r - M) with (2 * (Z - G * (c * (2 * q + 1)))) by (unfold M in *; nia).
    replace (2 * r' - D * M) with (2 * (N - G * (c * (2 * q + 1)) * D)) by (unfold M in *; nia).
    change 0 with (2 * 0). rewrite !compare_scale by lia. exact H.
  - pose proof (sticky_compare_eq _ _ _ _ (2 * c * q) H) as He.
    destruct (Z.eqb_spec r 0), (Z.eqb_spec r' 0); try reflexivity; exfalso; unfold M in *; nia.
Qed.

Lemma round_q_ext mode s N D N' D' :
  N / D = N' / D' -> (2 * (N mod D) ?= D) = (2 * (N' mod D') ?= D') ->
  (N mod D =? 0) = (N' mod D' =? 0) -> round_q mode s N D = round_q mode s N' D'.
Proof.
  intros E1 E2 E3. unfold round_q, rounds_away. now rewrite E1, E2, E3.
Qed.

Lemma sticky_round mode s G Z N D c :
  0 < D -> 0 < G -> 0 < c -> sticky G Z N D ->
  round_q mode s Z (2 * G * c) = round_q mode s N (D * (2 * G * c)).
Proof.
  intros HD HG Hc H. destruct (sticky_div G Z N D c HD HG Hc H) as (E1 & E2 & E3).
  now apply round_q_ext.
Qed.

Lemma frac_ext N D N' D' c :
  0 < D -> 0 < D' -> 0 < c -> N * D' = N' * D ->
  N / (D * c) = N' / (D' * c) /\
  (2 * (N mod (D * c)) ?= D * c) = (2 * (N' mod (D' * c)) ?= D' * c) /\
  (N mod (D * c) =? 0) = (N' mod (D' * c) =? 0).
Proof.
  intros HD HD' Hc E.
  assert (Eq : N / (D * c) = N' / (D' * c)).
  { rewrite <- (Z.div_mul_cancel_l N (D * c) D') by nia.
    rewrite <- (Z.div_mul_cancel_l N' (D' * c) D) by nia. f_equal; nia. }
  split; [exact Eq|]. rewrite !Z.mod_eq by nia. rewrite <- Eq. set (q := N / (D * c)). split.
  - rewrite <- (compare_scale D' (2 * _)), <- (compare_scale D (2 * (N' - _))) by lia.
    rewrite (Z.compare_sub (D' * _)), (Z.compare_sub (D * (2 * (N' - _)))). f_equal. nia.
  - destruct (Z.eqb_spec (N - D * c * q) 0), (Z.eqb_spec (N' - D' * c * q) 0); try reflexivity;
      exfalso; nia.
Qed.

Lemma round_q_frac mode s N D N' D' c :
  0 < D -> 0 < D' -> 0 < c -> N * D' = N' * D ->
  round_q mode s N (D * c) = round_q mode s N' (D' * c).
Proof.
  intros HD HD' Hc E. destruct (frac_ext N D N' D' c HD HD' Hc E) as (E1 & E2 & E3).
  now apply round_q_ext.
Qed.

Lemma round_q_bounds mode s N D : N / D <= round_q mode s N D <= N / D + 1.
Proof. unfold round_q. destruct (rounds_away _ _ _ _ _); cbn [b2z]; lia. Qed.

(** Exact quotients are not rounded. *)
Lemma round_q_exact mode s N D : 0 < D -> N mod D = 0 -> round_q mode s N D = N / D.
Proof.
  intros HD H. unfold round_q, rounds_away. rewrite H.
  destruct (mode =? _); [|destruct (mode =? _)]; cbn [Z.mul Z.eqb negb andb b2z]; try lia.
  rewrite (proj2 (Z.compare_lt_iff 0 D)) by lia. cbn [b2z]. lia.
Qed.

(** An integer bound on the quotient bounds the rounded quotient. *)
Lemma round_q_le mode s N D X : 0 < D -> N <= X * D -> round_q mode s N D <= X.
Proof.
  intros HD H. pose proof (round_q_bounds mode s N D) as Hb.
  pose proof (Z.div_mod N D ltac:(lia)). pose proof (Z.mod_pos_bound N D HD).
  destruct (Z.lt_ge_cases (N / D) X) as [|Hge]; [lia|].
  rewrite round_q_exact by nia. nia.
Qed.

Lemma round_q_ge mode s N D X : 0 < D -> X * D <= N -> X <= round_q mode s N D.
Proof.
  intros HD H. pose proof (round_q_bounds mode s N D). pose proof (div_bounds N D HD). nia.
Qed.

Section RefTheory.
Variables p E : Z.
Hypothesis Hp : 0 < p.

Lemma ref_k_spec N D : 0 <= N -> 0 < D ->
  let k := ref_k p N D in
  0 <= k /\ N < 2 ^ p * (D * 2 ^ k) /\ (k = 0 \/ 2 ^ (p - 1) * (D * 2 ^ k) <= N).
Proof.
  intros HN HD k. assert (Hk : 0 <= k) by (unfold k, ref_k; lia). split; [exact Hk|].
  pose proof (div_bounds N D HD) as [Hl Hh]. pose proof (Z.div_pos N D HN HD) as Hq.
  pose proof (pow2_pos k Hk). split.
  - assert (N / D < 2 ^ (p + k)).
    { destruct (Z.eq_dec (N / D) 0) as [->|]; [apply pow2_pos; lia|].
      apply Z.log2_lt_pow2; [lia|]. unfold k, ref_k. lia. }
    rewrite Z.pow_add_r in * by lia. nia.
  - destruct (Z.eq_dec k 0) as [|Hne]; [now left | right].
    assert (Hlog : Z.log2 (N / D) = p - 1 + k) by (unfold k, ref_k in *; lia).
    assert (2 ^ (p - 1 + k) <= N / D).
    { apply Z.log2_le_pow2; [|lia]. destruct (Z.eq_dec (N / D) 0) as [E0|]; [|lia].
      rewrite E0 in Hlog. cbn in Hlog. lia. }
    rewrite Z.pow_add_r in * by lia. nia.
Qed.

Lemma ref_k_unique N D k : 0 <= N -> 0 < D -> 0 <= k ->
  N < 2 ^ p * (D * 2 ^ k) -> (k = 0 \/ 2 ^ (p - 1) * (D * 2 ^ k) <= N) -> ref_k p N D = k.
Proof.
  intros HN HD Hk Hh Hl. destruct (ref_k_spec N D HN HD) as (Hk' & Hh' & Hl').
  set (k' := ref_k p N D) in *.
  pose proof (pow2_succ (p - 1) ltac:(lia)) as Ep. replace (p - 1 + 1) with p in Ep by lia.
  pose proof (pow2_pos (p - 1)). rewrite Ep in *.
  destruct (Z.lt_trichotomy k' k) as [Hlt|[|Hlt]]; [exfalso | assumption | exfalso].
  - pose proof (pow2_le (k' + 1) k ltac:(lia) ltac:(lia)). rewrite pow2_succ in * by lia.
    pose proof (pow2_pos k'). destruct Hl; [lia | nia].
  - pose proof (pow2_le (k + 1) k' ltac:(lia) ltac:(lia)). rewrite pow2_succ in * by lia.
    pose proof (pow2_pos k). destruct Hl'; [lia | nia].
Qed.

(** The reference depends on the rational only. *)
Lemma ref_k_frac N D N' D' : 0 < D -> 0 < D' -> N * D' = N' * D -> ref_k p N D = ref_k p N' D'.
Proof.
  intros HD HD' Eq. destruct (frac_ext N D N' D' 1 HD HD' ltac:(lia) Eq) as (E1 & _).
  rewrite !Z.mul_1_r in E1. unfold ref_k. now rewrite E1.
Qed.

Lemma ref_mag_frac mode s N D N' D' : 0 < D -> 0 < D' -> N * D' = N' * D ->
  ref_mag p mode s N D = ref_mag p mode s N' D'.
Proof.
  intros HD HD' Eq. unfold ref_mag. rewrite (ref_k_frac N D N' D') by assumption.
  f_equal. apply round_q_frac; try assumption. apply pow2_pos. unfold ref_k. lia.
Qed.

Lemma ref_bits_frac mode s N D N' D' : 0 < D -> 0 < D' -> N * D' = N' * D ->
  ref_bits p E mode s N D = ref_bits p E mode s N' D'.
Proof.
  intros. unfold ref_bits, ref_overflow. now rewrite (ref_mag_frac mode s N D N' D').
Qed.

Lemma ref_inexact_frac N D N' D' : 0 < D -> 0 < D' -> N * D' = N' * D ->
  ref_inexact p N D = ref_inexact p N' D'.
Proof.
  intros HD HD' Eq. unfold ref_inexact. rewrite (ref_k_frac N D N' D') by assumption.
  f_equal. apply (frac_ext N D N' D'); try assumption. apply pow2_pos. unfold ref_k. lia.
Qed.

Lemma ref_tiny_frac t mode s N D N' D' : 0 < D -> 0 < D' -> N * D' = N' * D ->
  ref_tiny p t mode s N D = ref_tiny p t mode s N' D'.
Proof.
  intros HD HD' Eq. unfold ref_tiny.
  rewrite <- (Z.mul_1_r D) at 2. rewrite <- (Z.mul_1_r D') at 2.
  rewrite (round_q_frac mode s (2 * N) D (2 * N') D' 1) by nia.
  f_equal. destruct (Z.ltb_spec N (2 ^ (p - 1) * D)), (Z.ltb_spec N' (2 ^ (p - 1) * D'));
    try reflexivity; exfalso; nia.
Qed.

Lemma ref_flags_frac t mode s N D N' D' : 0 < D -> 0 < D' -> N * D' = N' * D ->
  ref_flags p E t mode s N D = ref_flags p E t mode s N' D'.
Proof.
  intros. unfold ref_flags, ref_overflow.
  now rewrite (ref_mag_frac mode s N D N' D'), (ref_inexact_frac N D N' D'),
    (ref_tiny_frac t mode s N D N' D').
Qed.

(** Rounding through a sticky approximation [Z] of [N / D]: the exact value is
    [A / B = 2^k N / (D M)] with [M] the weight of the discarded bits. *)
Lemma ref_sticky mode s G Z N D c k A B :
  0 < D -> 0 < B -> 0 <= A -> 0 < G -> 0 < c -> 0 <= k ->
  sticky G Z N D -> let M := 2 * G * c in
  N * (B * 2 ^ k) = A * (D * M) -> Z < 2 ^ p * M -> (k = 0 \/ 2 ^ (p - 1) * M <= Z) ->
  ref_k p A B = k /\ ref_mag p mode s A B = k * 2 ^ (p - 1) + round_q mode s Z M /\
  ref_inexact p A B = negb (Z mod M =? 0).
Proof.
  intros HD HB HA HG Hc Hk H M Eq Hh Hl. pose proof (pow2_pos k Hk) as Pk.
  assert (HM : 0 < M) by (unfold M; nia).
  assert (Ek : ref_k p A B = k).
  { pose proof (sticky_compare _ _ _ _ (2 * c * 2 ^ p) H) as C1.
    pose proof (sticky_compare _ _ _ _ (2 * c * 2 ^ (p - 1)) H) as C2.
    replace (G * (2 * c * 2 ^ p)) with (2 ^ p * M) in C1 by (unfold M; lia).
    replace (G * (2 * c * 2 ^ (p - 1))) with (2 ^ (p - 1) * M) in C2 by (unfold M; lia).
    apply ref_k_unique; try assumption.
    - apply C1 in Hh. apply (Z.mul_lt_mono_pos_r (D * M)); [nia|]. rewrite <- Eq.
      replace (2 ^ p * (B * 2 ^ k) * (D * M)) with (2 ^ p * M * D * (B * 2 ^ k)) by ring.
      apply Z.mul_lt_mono_pos_r; [nia | exact Hh].
    - destruct Hl as [->|Hl]; [now left | right].
      assert (2 ^ (p - 1) * M * D <= N) by (apply Z.nlt_ge; rewrite <- C2; lia).
      apply (Z.mul_le_mono_pos_r _ _ (D * M)); [nia|]. rewrite <- Eq.
      replace (2 ^ (p - 1) * (B * 2 ^ k) * (D * M)) with (2 ^ (p - 1) * M * D * (B * 2 ^ k)) by ring.
      apply Z.mul_le_mono_pos_r; [nia | assumption]. }
  destruct (sticky_div G Z N D c HD HG Hc H) as (_ & _ & S3). fold M in S3.
  destruct (frac_ext A (B * 2 ^ k) N (D * M) 1 ltac:(nia) ltac:(nia) ltac:(lia) ltac:(lia))
    as (F1 & F2 & F3). rewrite !Z.mul_1_r in *.
  split; [exact Ek|]. unfold ref_mag, ref_inexact. rewrite Ek. split.
  - f_equal. rewrite (round_q_ext mode s _ _ _ _ F1 F2 F3). symmetry.
    now apply (sticky_round mode s G Z N D c).
  - now rewrite F3, <- S3.
Qed.

(** ** The reference returns a nearest value *)

Lemma mag_val_enc k r : 0 <= k -> 0 <= r <= 2 ^ p -> (k = 0 \/ 2 ^ (p - 1) <= r) ->
  mag_val p (k * 2 ^ (p - 1) + r) = r * 2 ^ k.
Proof.
  intros Hk Hr Hn. unfold mag_val.
  pose proof (pow2_succ (p - 1) ltac:(lia)) as Ep. replace (p - 1 + 1) with p in Ep by lia.
  pose proof (pow2_pos (p - 1) ltac:(lia)) as HH. set (H := 2 ^ (p - 1)) in *.
  assert (C : r < H /\ k = 0 \/ H <= r < 2 * H \/ r = 2 * H) by lia.
  destruct C as [[C ->] | [C | ->]].
  - rewrite Z.mul_0_l, Z.add_0_l, Z.div_small, Z.mod_small by lia. cbn. lia.
  - rewrite (div_eq _ H (k + 1)) by lia.
    rewrite <- (Z.mod_unique (k * H + r) H (k + 1) (r - H)) by lia.
    destruct (Z.eqb_spec (k + 1) 0); [lia|]. replace (k + 1 - 1) with k by lia. lia.
  - rewrite (div_eq _ H (k + 2)) by lia.
    rewrite <- (Z.mod_unique (k * H + 2 * H) H (k + 2) 0) by lia.
    destruct (Z.eqb_spec (k + 2) 0); [lia|]. replace (k + 2 - 1) with (k + 1) by lia.
    rewrite pow2_succ by lia. lia.
Qed.

Lemma ref_mag_val mode s N D : 0 <= N -> 0 < D ->
  mag_val p (ref_mag p mode s N D) = round_q mode s N (D * 2 ^ ref_k p N D) * 2 ^ ref_k p N D.
Proof.
  intros HN HD. destruct (ref_k_spec N D HN HD) as (Hk & Hh & Hl).
  pose proof (pow2_pos _ Hk). unfold ref_mag. apply mag_val_enc; [exact Hk | |].
  - split; [|apply round_q_le; nia].
    pose proof (round_q_bounds mode s N (D * 2 ^ ref_k p N D)).
    pose proof (Z.div_pos N (D * 2 ^ ref_k p N D)). nia.
  - destruct Hl as [|Hl]; [now left | right]. apply round_q_ge; nia.
Qed.

(** A magnitude of at most [p] significant bits is represented exactly. *)
Lemma ref_representable mode s r j : 0 <= r < 2 ^ p -> 0 <= j ->
  mag_val p (ref_mag p mode s (r * 2 ^ j) 1) = r * 2 ^ j.
Proof.
  intros Hr Hj. pose proof (pow2_pos j Hj) as Pj. rewrite ref_mag_val by nia. set (k := ref_k p (r * 2 ^ j) 1).
  assert (Hk : 0 <= k <= j).
  { unfold k, ref_k. rewrite Z.div_1_r. split; [lia|]. apply Z.max_lub; [lia|].
    destruct (Z.eq_dec r 0) as [->|Hr0]; [rewrite Z.mul_0_l; change (Z.log2 0) with 0; lia|].
    assert (Z.log2 (r * 2 ^ j) < p + j); [|lia]. apply Z.log2_lt_pow2; [nia|].
    rewrite Z.pow_add_r by lia. nia. }
  rewrite Z.mul_1_l. assert (EN : r * 2 ^ j = r * 2 ^ (j - k) * 2 ^ k).
  { rewrite <- Z.mul_assoc, <- Z.pow_add_r by lia. do 2 f_equal. lia. }
  pose proof (pow2_pos k ltac:(lia)). rewrite round_q_exact, EN, Z.div_mul by (lia || (rewrite EN; apply Z.mod_mul; lia)).
  reflexivity.
Qed.

(** Every representable magnitude is a multiple of [2^k], or below [2^(p-1+k)]. *)
Lemma mag_val_form b k : 0 <= b -> 0 <= k ->
  (exists j, 0 <= j /\ mag_val p b = j * 2 ^ k) \/ mag_val p b < 2 ^ (p - 1) * 2 ^ k.
Proof.
  intros Hb Hk. unfold mag_val. pose proof (pow2_pos (p - 1) ltac:(lia)) as HH.
  set (H := 2 ^ (p - 1)) in *. pose proof (Z.mod_pos_bound b H HH).
  pose proof (Z.div_pos b H Hb HH). pose proof (pow2_pos k Hk).
  destruct (Z.eqb_spec (b / H) 0).
  - right. nia.
  - destruct (Z.le_gt_cases k (b / H - 1)) as [Hle|Hgt].
    + left. exists ((b mod H + H) * 2 ^ (b / H - 1 - k)).
      pose proof (pow2_pos (b / H - 1 - k) ltac:(lia)). split; [nia|].
      rewrite <- Z.mul_assoc, <- Z.pow_add_r by lia. do 2 f_equal. lia.
    + right. pose proof (pow2_le (b / H - 1 + 1) k ltac:(lia) ltac:(lia)).
      rewrite pow2_succ in * by lia. pose proof (pow2_pos (b / H - 1) ltac:(lia)). nia.
Qed.

Lemma round_q_nearest s N D j : 0 < D ->
  Z.abs (round_q float_round_nearest_even s N D * D - N) <= Z.abs (j * D - N).
Proof.
  intros HD. unfold round_q, rounds_away. cbn [Z.eqb float_round_nearest_even].
  pose proof (Z.div_mod N D ltac:(lia)) as E0. pose proof (Z.mod_pos_bound N D HD) as Hr.
  set (q := N / D) in *. set (r := N mod D) in *.
  assert (Hj : Z.abs (j * D - N) >= r \/ Z.abs (j * D - N) >= D - r).
  { destruct (Z.le_gt_cases j q); [left | right]; nia. }
  assert (Hj' : Z.abs (j * D - N) >= r /\ j <= q \/ Z.abs (j * D - N) >= D - r /\ j >= q + 1)
    by (destruct (Z.le_gt_cases j q); [left | right]; nia).
  destruct (Z.compare_spec (2 * r) D); try destruct (Z.odd q); cbn [b2z]; nia.
Qed.

Lemma ref_mag_nearest s N D b : 0 <= N -> 0 < D -> 0 <= b ->
  Z.abs (mag_val p (ref_mag p float_round_nearest_even s N D) * D - N)
  <= Z.abs (mag_val p b * D - N).
Proof.
  intros HN HD Hb. rewrite ref_mag_val by assumption.
  destruct (ref_k_spec N D HN HD) as (Hk & Hh & Hl). set (k := ref_k p N D) in *.
  pose proof (pow2_pos k Hk). pose proof (pow2_pos (p - 1) ltac:(lia)).
  set (r := round_q _ _ _ _).
  assert (Near : forall j, Z.abs (r * 2 ^ k * D - N) <= Z.abs (j * 2 ^ k * D - N)).
  { intros j. pose proof (round_q_nearest s N (D * 2 ^ k) j ltac:(nia)) as Hn. fold r in Hn.
    replace (r * 2 ^ k * D) with (r * (D * 2 ^ k)) by lia.
    replace (j * 2 ^ k * D) with (j * (D * 2 ^ k)) by lia. exact Hn. }
  destruct (mag_val_form b k Hb Hk) as [(j & _ & ->) | Hlow]; [apply Near|].
  destruct Hl as [Hk0 | Hl].
  - rewrite Hk0 in *. specialize (Near (mag_val p b)). change (2 ^ 0) with 1 in *.
    rewrite (Z.mul_1_r (mag_val p b)) in Near. exact Near.
  - specialize (Near (2 ^ (p - 1))). nia.
Qed.
(** Patterns are ordered as their magnitudes. *)
Lemma mag_val_range b : 0 <= b -> 2 ^ (p - 1) <= b ->
  2 ^ (p - 1) * 2 ^ (b / 2 ^ (p - 1) - 1) <= mag_val p b < 2 ^ (p - 1) * 2 ^ (b / 2 ^ (p - 1)).
Proof.
  intros Hb Hn. unfold mag_val. pose proof (pow2_pos (p - 1) ltac:(lia)) as HH.
  set (H := 2 ^ (p - 1)) in *. pose proof (Z.mod_pos_bound b H HH).
  assert (He : 1 <= b / H) by (apply Z.div_le_lower_bound; lia).
  destruct (Z.eqb_spec (b / H) 0); [lia|]. pose proof (pow2_pos (b / H - 1) ltac:(lia)).
  replace (b / H) with (b / H - 1 + 1) at 4 by lia. rewrite pow2_succ by lia. nia.
Qed.

Lemma mag_val_lt b c : 0 <= b < c -> mag_val p b < mag_val p c.
Proof.
  intros Hbc. pose proof (pow2_pos (p - 1) ltac:(lia)) as HH.
  assert (Hd : b / 2 ^ (p - 1) <= c / 2 ^ (p - 1)) by (apply Z.div_le_mono; lia).
  destruct (Z.eq_dec (b / 2 ^ (p - 1)) (c / 2 ^ (p - 1))) as [E0|E0].
  - pose proof (Z.div_mod b (2 ^ (p - 1)) ltac:(lia)) as Eb.
    pose proof (Z.div_mod c (2 ^ (p - 1)) ltac:(lia)) as Ec. rewrite <- E0 in Ec.
    unfold mag_val. rewrite <- E0. destruct (Z.eqb_spec (b / 2 ^ (p - 1)) 0); [lia|].
    assert (0 <= b / 2 ^ (p - 1)) by (apply Z.div_pos; lia).
    pose proof (pow2_pos (b / 2 ^ (p - 1) - 1) ltac:(lia)). apply Z.mul_lt_mono_pos_r; lia.
  - assert (Hc : 2 ^ (p - 1) <= c).
    { pose proof (Z.div_pos b (2 ^ (p - 1)) ltac:(lia) HH). pose proof (div_bounds c (2 ^ (p - 1)) HH). nia. }
    pose proof (mag_val_range c ltac:(lia) Hc) as [Lc _].
    eapply Z.lt_le_trans; [|exact Lc]. destruct (Z.lt_ge_cases b (2 ^ (p - 1))) as [Hs|Hs].
    + unfold mag_val. rewrite (Z.div_small b), Z.mod_small by lia. cbn [Z.eqb].
      assert (1 <= c / 2 ^ (p - 1)) by (apply Z.div_le_lower_bound; lia).
      pose proof (pow2_pos (c / 2 ^ (p - 1) - 1) ltac:(lia)). nia.
    + pose proof (mag_val_range b ltac:(lia) Hs) as [_ Ub].
      assert (0 <= b / 2 ^ (p - 1)) by (apply Z.div_pos; lia).
      pose proof (pow2_le (b / 2 ^ (p - 1)) (c / 2 ^ (p - 1) - 1) ltac:(lia) ltac:(lia)). nia.
Qed.

(** Comparing the signed values of sign-magnitude patterns. *)
Lemma mag_val_compare b c : 0 <= b -> 0 <= c -> (mag_val p b ?= mag_val p c) = (b ?= c).
Proof.
  intros Hb Hc. destruct (Z.compare_spec b c) as [->|H|H].
  - apply Z.compare_refl.
  - apply Z.compare_lt_iff, mag_val_lt. lia.
  - apply Z.compare_gt_iff, mag_val_lt. lia.
Qed.

Lemma mag_val_0 : mag_val p 0 = 0.
Proof. unfold mag_val. now rewrite Zdiv_0_l, Zmod_0_l. Qed.
(** A representable magnitude is not rounded. *)
Lemma ref_exact mode s b : 0 <= b ->
  ref_mag p mode s (mag_val p b) 1 = b /\ ref_inexact p (mag_val p b) 1 = false.
Proof.
  intros Hb. pose proof (pow2_pos (p - 1) ltac:(lia)) as HH.
  pose proof (pow2_succ (p - 1) ltac:(lia)) as Ep. replace (p - 1 + 1) with p in Ep by lia.
  pose proof (Z.div_mod b (2 ^ (p - 1)) ltac:(lia)) as Eb.
  pose proof (Z.mod_pos_bound b (2 ^ (p - 1)) HH) as Hf. pose proof (Z.div_pos b _ Hb HH) as He.
  unfold ref_mag, ref_inexact, mag_val.
  set (H := 2 ^ (p - 1)) in *. set (e := b / H) in *. set (f := b mod H) in *.
  destruct (Z.eqb_spec e 0) as [E0|E0].
  - rewrite (ref_k_unique f 1 0) by (change (2 ^ 0) with 1; lia). change (1 * 2 ^ 0) with 1.
    rewrite round_q_exact, Z.div_1_r, Z.mod_1_r by (lia || apply Z.mod_1_r). split; [lia | reflexivity].
  - pose proof (pow2_pos (e - 1) ltac:(lia)) as HP.
    rewrite (ref_k_unique ((f + H) * 2 ^ (e - 1)) 1 (e - 1)) by (fold H; nia).
    rewrite !Z.mul_1_l, round_q_exact, Z.div_mul, Z.mod_mul by (lia || apply Z.mod_mul; lia).
    split; [lia | reflexivity].
Qed.
End RefTheory.

(** ** Criteria for sticky approximations *)

Lemma sticky_intro G Z N D h : 0 < D ->
  G * h <= Z < G * (h + 1) -> G * h * D <= N < G * (h + 1) * D ->
  (Z = G * h <-> N = G * h * D) -> sticky G Z N D.
Proof.
  intros HD HZ HN He j. assert (HG : 0 < G) by nia.
  destruct (Z.lt_trichotomy j h) as [Hlt|[->|Hgt]].
  - rewrite (proj2 (Z.compare_gt_iff _ _)) by nia. symmetry. apply Z.compare_gt_iff. nia.
  - destruct (Z.compare_spec Z (G * h)), (Z.compare_spec N (G * h * D)); try reflexivity; lia.
  - rewrite (proj2 (Z.compare_lt_iff _ _)) by nia. symmetry. apply Z.compare_lt_iff. nia.
Qed.

(** A multiple [V] of an even [g], with a discarded tail [t] jammed into bit 0. *)
Lemma sticky_low g V N D t b : 0 < D -> 2 <= g -> g mod 2 = 0 -> V mod g = 0 ->
  N = V * D + t -> 0 <= t < g * D -> b = negb (t =? 0) -> sticky g (V ||| b2z b) N D.
Proof.
  intros HD Hg He HV -> Ht ->. pose proof (Z.div_mod V g ltac:(lia)) as EV.
  rewrite HV in EV. set (v := V / g) in *.
  assert (EZ : V ||| b2z (negb (t =? 0)) = V + b2z (negb (t =? 0))).
  { apply (lor_add _ _ 1); [lia | change (2 ^ 1) with 2; destruct (t =? 0); cbn; lia |].
    change (2 ^ 1) with 2. rewrite EV, Z.add_0_r.
    rewrite Zmult_mod, He. reflexivity. }
  rewrite EZ. apply (sticky_intro _ _ _ _ v); [lia | | |];
    destruct (Z.eqb_spec t 0); cbn [negb b2z]; nia.
Qed.

(** ** Values scaled by a power of two

    [scaled N D e A B]: the rational [A / B] is [N / D] times [2^e]. *)
Definition scaled (N D e A B : Z) : Prop :=
  exists t, 0 <= t /\ 0 <= e + t /\ N * 2 ^ (e + t) * B = A * (D * 2 ^ t).

Lemma scaled_at N D e A B t : scaled N D e A B -> 0 <= t -> 0 <= e + t ->
  N * 2 ^ (e + t) * B = A * (D * 2 ^ t).
Proof.
  intros (u & Hu & Heu & E) Ht Het.
  apply (Z.mul_reg_r _ _ (2 ^ u)); [pose proof (pow2_pos u); lia|].
  assert (P : 2 ^ (e + t) * 2 ^ u = 2 ^ (e + u) * 2 ^ t)
    by (rewrite <- !Z.pow_add_r by lia; f_equal; lia).
  replace (N * 2 ^ (e + t) * B * 2 ^ u) with (N * (2 ^ (e + t) * 2 ^ u) * B) by ring.
  rewrite P. replace (N * (2 ^ (e + u) * 2 ^ t) * B) with (N * 2 ^ (e + u) * B * 2 ^ t) by ring.
  rewrite E. ring.
Qed.

Lemma scaled_intro N D e A B t : 0 <= t -> 0 <= e + t ->
  N * 2 ^ (e + t) * B = A * (D * 2 ^ t) -> scaled N D e A B.
Proof. intros. now exists t. Qed.

(** Moving a power of two between numerator and exponent. *)
Lemma scaled_shift N D e A B k : 0 <= k -> scaled (N * 2 ^ k) D e A B -> scaled N D (e + k) A B.
Proof.
  intros Hk H. pose proof (scaled_at _ _ _ _ _ (Z.abs e) H ltac:(lia) ltac:(lia)) as E.
  apply (scaled_intro _ _ _ _ _ (Z.abs e)); [lia | lia |]. rewrite <- E.
  replace (e + k + Z.abs e) with (k + (e + Z.abs e)) by lia. rewrite (Z.pow_add_r 2 k) by lia. ring.
Qed.

Lemma scaled_unshift N D e A B k : 0 <= k -> scaled N D (e + k) A B -> scaled (N * 2 ^ k) D e A B.
Proof.
  intros Hk H. pose proof (scaled_at _ _ _ _ _ (Z.abs e) H ltac:(lia) ltac:(lia)) as E.
  apply (scaled_intro _ _ _ _ _ (Z.abs e)); [lia | lia |]. rewrite <- E.
  replace (e + k + Z.abs e) with (k + (e + Z.abs e)) by lia. rewrite (Z.pow_add_r 2 k) by lia. ring.
Qed.

Lemma scaled_den N D e A B k : 0 <= k -> 0 < D -> scaled N D e A B -> scaled N (D * 2 ^ k) (e + k) A B.
Proof.
  intros Hk HD H. pose proof (scaled_at _ _ _ _ _ (Z.abs e) H ltac:(lia) ltac:(lia)) as E.
  apply (scaled_intro _ _ _ _ _ (Z.abs e)); [lia | lia |].
  replace (e + k + Z.abs e) with (k + (e + Z.abs e)) by lia. rewrite (Z.pow_add_r 2 k) by lia.
  replace (N * (2 ^ k * 2 ^ (e + Z.abs e)) * B) with (N * 2 ^ (e + Z.abs e) * B * 2 ^ k) by ring.
  rewrite E. ring.
Qed.

(** ** Rounding a normalised significand

    A significand [zSig] of [p + w] bits whose unit weighs [2^(zExp - w)] and which represents
    [A / B] up to sticky bits: the shape of the arguments of both roundAndPack routines. *)
Section SigRound.
Variables (p w : Z) (mode : Z) (s : bool) (zExp zSig N D A B : Z).
Hypothesis (Hp : 0 < p) (Hw : 0 < w)
  (Hz : 2 ^ (p - 1) * 2 ^ w <= zSig < 2 ^ p * 2 ^ w)
  (HD : 0 < D) (HB : 0 < B) (HA : 0 <= A)
  (Hsticky : sticky (2 ^ (w - 1)) zSig N D) (Hscaled : scaled N D (zExp - w) A B).

Lemma sig_powers : 2 ^ w = 2 * 2 ^ (w - 1) * 1 /\ 2 ^ p = 2 * 2 ^ (p - 1) /\
  0 < 2 ^ (w - 1) /\ 0 < 2 ^ (p - 1).
Proof.
  pose proof (pow2_pos (w - 1) ltac:(lia)). pose proof (pow2_pos (p - 1) ltac:(lia)).
  pose proof (pow2_succ (w - 1) ltac:(lia)) as E1. replace (w - 1 + 1) with w in E1 by lia.
  pose proof (pow2_succ (p - 1) ltac:(lia)) as E2. replace (p - 1 + 1) with p in E2 by lia. lia.
Qed.

(** Comparing the exact value with a multiple of the significand's rounding unit. *)
Lemma sig_compare Z j : sticky (2 ^ (w - 1)) Z N D -> (Z < j * 2 ^ w <-> N < j * 2 ^ w * D).
Proof.
  intros H. destruct sig_powers as (E & _ & _ & _).
  pose proof (sticky_compare _ _ _ _ (2 * j) H) as C. rewrite E.
  replace (j * (2 * 2 ^ (w - 1) * 1)) with (2 ^ (w - 1) * (2 * j)) by ring. exact C.
Qed.

(** In the normal range the discarded bits are the low [w]. *)
Lemma normal_ref : 0 <= zExp ->
  ref_mag p mode s A B = zExp * 2 ^ (p - 1) + round_q mode s zSig (2 ^ w) /\
  ref_inexact p A B = negb (zSig mod 2 ^ w =? 0) /\ 2 ^ (p - 1) * B <= A.
Proof.
  intros He. destruct sig_powers as (Ew & Ep & PW & PP).
  pose proof (scaled_at _ _ _ _ _ w Hscaled ltac:(lia) ltac:(lia)) as E.
  replace (zExp - w + w) with zExp in E by lia.
  pose proof (sig_compare zSig (2 ^ (p - 1)) Hsticky) as C.
  assert (HN : 2 ^ (p - 1) * 2 ^ w * D <= N) by lia.
  destruct (ref_sticky p Hp mode s (2 ^ (w - 1)) zSig N D 1 zExp A B) as (_ & E2 & E3);
    try assumption; try lia.
  rewrite <- Ew in E2, E3. repeat split; try assumption.
  pose proof (pow2_le 0 zExp ltac:(lia) ltac:(lia)) as P0. change (2 ^ 0) with 1 in P0.
  pose proof (pow2_pos w ltac:(lia)).
  apply (Z.mul_le_mono_pos_r _ _ (D * 2 ^ w)); [nia|]. rewrite <- E.
  assert (HNn : 0 <= N) by nia. assert (N <= N * 2 ^ zExp) by nia. nia.
Qed.

(** Below it they are the low [w] of the denormalised significand. *)
Lemma subnormal_ref Z' : zExp < 0 -> sticky (2 ^ (w - 1)) Z' zSig (2 ^ (- zExp)) ->
  Z' < 2 ^ (p - 1) * 2 ^ w /\ A < 2 ^ (p - 1) * B /\
  ref_mag p mode s A B = round_q mode s Z' (2 ^ w) /\
  ref_inexact p A B = negb (Z' mod 2 ^ w =? 0).
Proof.
  intros He H'. destruct sig_powers as (Ew & Ep & PW & PP).
  pose proof (pow2_pos (- zExp) ltac:(lia)) as HC.
  assert (St : sticky (2 ^ (w - 1)) Z' N (D * 2 ^ (- zExp))).
  { apply (sticky_trans (2 ^ (w - 1)) (2 ^ (w - 1)) (2 ^ (- zExp)) Z' zSig); try assumption; lia. }
  assert (Sc : scaled N (D * 2 ^ (- zExp)) (zExp - w + - zExp) A B)
    by (apply scaled_den; lia || assumption).
  replace (zExp - w + - zExp) with (- w) in Sc by lia.
  pose proof (scaled_at _ _ _ _ _ w Sc ltac:(lia) ltac:(lia)) as E.
  replace (- w + w) with 0 in E by lia. change (2 ^ 0) with 1 in E.
  assert (Hlt : Z' < 2 ^ (p - 1) * 2 ^ w).
  { pose proof (sticky_compare _ _ _ _ (2 * 2 ^ (p - 1)) H') as C.
    rewrite Ew. replace (2 ^ (p - 1) * (2 * 2 ^ (w - 1) * 1)) with (2 ^ (w - 1) * (2 * 2 ^ (p - 1))) by ring.
    apply C. pose proof (pow2_le 1 (- zExp) ltac:(lia) ltac:(lia)) as P1. change (2 ^ 1) with 2 in P1. nia. }
  assert (HN : N < 2 ^ (p - 1) * 2 ^ w * (D * 2 ^ (- zExp))).
  { pose proof (sticky_compare _ _ _ _ (2 * 2 ^ (p - 1)) St) as C. nia. }
  assert (HA23 : A < 2 ^ (p - 1) * B).
  { apply (Z.mul_lt_mono_pos_r (D * 2 ^ (- zExp) * 2 ^ w)); [nia|]. nia. }
  destruct (ref_sticky p Hp mode s (2 ^ (w - 1)) Z' N (D * 2 ^ (- zExp)) 1 0 A B)
    as (_ & E2 & E3); try assumption; try lia; try nia.
  rewrite <- Ew in E2, E3. repeat split; assumption.
Qed.

(** Tininess, before rounding or after rounding to [p] bits. *)
Lemma tiny_ref tininess : zExp < 0 -> A < 2 ^ (p - 1) * B ->
  ref_tiny p tininess mode s A B
  = (tininess =? float_tininess_before_rounding) || (zExp <? -1)
  || (round_q mode s zSig (2 ^ w) <? 2 ^ p).
Proof.
  intros He HA23. destruct sig_powers as (Ew & Ep & PW & PP). unfold ref_tiny.
  rewrite (proj2 (Z.ltb_lt _ _) HA23). cbn [andb]. rewrite <- orb_assoc. f_equal.
  destruct (Z.ltb_spec zExp (-1)) as [Hlt|Hge]; cbn [orb].
  - apply Z.ltb_lt. pose proof (scaled_at _ _ _ _ _ (w - zExp) Hscaled ltac:(lia) ltac:(lia)) as E.
    replace (zExp - w + (w - zExp)) with 0 in E by lia. change (2 ^ 0) with 1 in E.
    pose proof (sig_compare zSig (2 ^ p) Hsticky) as C. assert (HN : N < 2 ^ p * 2 ^ w * D) by lia.
    replace (w - zExp) with (w + 2 + (- zExp - 2)) in E by lia.
    rewrite !Z.pow_add_r in E by lia. change (2 ^ 2) with 4 in E.
    pose proof (pow2_pos (- zExp - 2) ltac:(lia)). pose proof (pow2_pos w ltac:(lia)).
    enough (round_q mode s (2 * A) B <= 2 ^ (p - 1)) by lia. apply round_q_le; [lia|].
    apply (Z.mul_le_mono_pos_r _ _ (D * (2 ^ w * 4))); [nia|].
    assert (A * (D * (2 ^ w * 4)) <= N * B).
    { replace (N * B) with (A * (D * (2 ^ w * 4)) * 2 ^ (- zExp - 2)) by lia.
      assert (0 <= A * (D * (2 ^ w * 4))) by nonneg. nia. }
    rewrite Ep in HN. nia.
  - assert (zExp = -1) as Ez by lia. f_equal.
    pose proof (scaled_at _ _ _ _ _ (w + 1) Hscaled ltac:(lia) ltac:(lia)) as E. rewrite Ez in E.
    replace (-1 - w + (w + 1)) with 0 in E by lia. change (2 ^ 0) with 1 in E.
    rewrite pow2_succ in E by lia. pose proof (pow2_pos w ltac:(lia)).
    rewrite <- (Z.mul_1_r B). rewrite (round_q_frac mode s (2 * A) B N (D * 2 ^ w) 1) by nia.
    rewrite Z.mul_1_r, Ew. symmetry. now apply sticky_round.
Qed.
End SigRound.
