(* ===== verification/SoftFloatPrim.v ===== *)
(** * Multi-word integer primitives of the soft-float library

    The first part of newlib/libc/sys/tce/float_emulation.c: shifts with and without jamming,
    64- and 96-bit addition and subtraction, 32x32, 64x32 and 64x64 multiplication, the
    approximations of quotient and square root, and leading-zero counts, all on 32-bit words.
    Results stored through pointers are returned as tuples, most significant word first. *)

From S2P Require Import Prelude.
From S2P Require Import CInt.
From S2P Require Import FPState.
From S2P Require Import Rounding.

(** ** Shifts *)

Definition shift32RightJamming (a count : Z) : Z :=
  if count =? 0 then a
  else if count <? 32 then (a >> count) ||| b2z (truthy (u32 (a << ((- count) &&& 31))))
  else b2z (truthy a).

Definition shift64Right (a0 a1 count : Z) : Z * Z :=
  let negCount := s8 ((- count) &&& 31) in
  if count =? 0 then (a0, a1)
  else if count <? 32 then (a0 >> count, u32 (a0 << negCount) ||| (a1 >> count))
  else (0, if count <? 64 then a0 >> (count &&& 31) else 0).

Definition shift64RightJamming (a0 a1 count : Z) : Z * Z :=
  let negCount := s8 ((- count) &&& 31) in
  if count =? 0 then (a0, a1)
  else if count <? 32 then
    (a0 >> count, u32 (a0 << negCount) ||| (a1 >> count) ||| b2z (truthy (u32 (a1 << negCount))))
  else
    (0, if count =? 32 then a0 ||| b2z (truthy a1)
        else if count <? 64 then
          (a0 >> (count &&& 31)) ||| b2z (truthy (u32 (a0 << negCount) ||| a1))
        else b2z (truthy (a0 ||| a1))).

Definition shift64ExtraRightJamming (a0 a1 a2 count : Z) : Z * Z * Z :=
  let negCount := s8 ((- count) &&& 31) in
  if count =? 0 then (a0, a1, a2)
  else
    let '(z0, z1, z2, a2) :=
      if count <? 32 then
        (a0 >> count, u32 (a0 << negCount) ||| (a1 >> count), u32 (a1 << negCount), a2)
      else
        let '(z1, z2, a2) :=
          if count =? 32 then (a0, a1, a2)
          else
            let a2 := a2 ||| a1 in
            if count <? 64 then (a0 >> (count &&& 31), u32 (a0 << negCount), a2)
            else (0, if count =? 64 then a0 else b2z (truthy a0), a2) in
        (0, z1, z2, a2) in
    (z0, z1, z2 ||| b2z (truthy a2)).

Definition shortShift64Left (a0 a1 count : Z) : Z * Z :=
  (if count =? 0 then a0 else u32 (a0 << count) ||| (a1 >> ((- count) &&& 31)),
   u32 (a1 << count)).

Definition shortShift96Left (a0 a1 a2 count : Z) : Z * Z * Z :=
  let z2 := u32 (a2 << count) in
  let z1 := u32 (a1 << count) in
  let z0 := u32 (a0 << count) in
  if 0 <? count then
    let negCount := s8 ((- count) &&& 31) in
    (z0 ||| (a1 >> negCount), z1 ||| (a2 >> negCount), z2)
  else (z0, z1, z2).

(** ** Addition and subtraction *)

Definition add64 (a0 a1 b0 b1 : Z) : Z * Z :=
  let z1 := u32 (a1 + b1) in
  (u32 (a0 + b0 + b2z (z1 <? a1)), z1).

Definition add96 (a0 a1 a2 b0 b1 b2 : Z) : Z * Z * Z :=
  let z2 := u32 (a2 + b2) in
  let carry1 := b2z (z2 <? a2) in
  let z1 := u32 (a1 + b1) in
  let carry0 := b2z (z1 <? a1) in
  let z0 := u32 (a0 + b0) in
  let z1 := u32 (z1 + carry1) in
  let z0 := u32 (z0 + b2z (z1 <? carry1)) in
  let z0 := u32 (z0 + carry0) in
  (z0, z1, z2).

Definition sub64 (a0 a1 b0 b1 : Z) : Z * Z :=
  (u32 (a0 - b0 - b2z (a1 <? b1)), u32 (a1 - b1)).

Definition sub96 (a0 a1 a2 b0 b1 b2 : Z) : Z * Z * Z :=
  let z2 := u32 (a2 - b2) in
  let borrow1 := b2z (a2 <? b2) in
  let z1 := u32 (a1 - b1) in
  let borrow0 := b2z (a1 <? b1) in
  let z0 := u32 (a0 - b0) in
  let z0 := u32 (z0 - b2z (z1 <? borrow1)) in
  let z1 := u32 (z1 - borrow1) in
  let z0 := u32 (z0 - borrow0) in
  (z0, z1, z2).

(** ** Multiplication *)

Definition mul32To64 (a b : Z) : Z * Z :=
  let aLow := u16 a in
  let aHigh := u16 (a >> 16) in
  let bLow := u16 b in
  let bHigh := u16 (b >> 16) in
  let z1 := u32 (aLow * bLow) in
  let zMiddleA := u32 (aLow * bHigh) in
  let zMiddleB := u32 (aHigh * bLow) in
  let z0 := u32 (aHigh * bHigh) in
  let zMiddleA := u32 (zMiddleA + zMiddleB) in
  let z0 := u32 (z0 + (u32 (b2z (zMiddleA <? zMiddleB) << 16) + (zMiddleA >> 16))) in
  let zMiddleA := u32 (zMiddleA << 16) in
  let z1 := u32 (z1 + zMiddleA) in
  let z0 := u32 (z0 + b2z (z1 <? zMiddleA)) in
  (z0, z1).

Definition mul64By32To96 (a0 a1 b : Z) : Z * Z * Z :=
  let '(z1, z2) := mul32To64 a1 b in
  let '(z0, more1) := mul32To64 a0 b in
  let '(z0, z1) := add64 z0 more1 0 z1 in
  (z0, z1, z2).

Definition mul64To128 (a0 a1 b0 b1 : Z) : Z * Z * Z * Z :=
  let '(z2, z3) := mul32To64 a1 b1 in
  let '(z1, more2) := mul32To64 a1 b0 in
  let '(z1, z2) := add64 z1 more2 0 z2 in
  let '(z0, more1) := mul32To64 a0 b0 in
  let '(z0, z1) := add64 z0 more1 0 z1 in
  let '(more1, more2) := mul32To64 a0 b1 in
  let '(more1, z2) := add64 more1 more2 0 z2 in
  let '(z0, z1) := add64 z0 z1 0 more1 in
  (z0, z1, z2, z3).

(** ** Approximations *)

(** The correction loop: [while ((sbits32) rem0 < 0) { z -= 0x10000; add64(rem0, rem1, b0, b<<16) }]. *)
Definition estimateDiv_cond (s : Z * Z * Z) : bool :=
  let '(z, rem0, rem1) := s in s32 rem0 <? 0.

Definition estimateDiv_body (b0 b : Z) (s : Z * Z * Z) : Z * Z * Z :=
  let '(z, rem0, rem1) := s in
  let z := u32 (z - 0x10000) in
  let b1 := u32 (b << 16) in
  let '(rem0, rem1) := add64 rem0 rem1 b0 b1 in
  (z, rem0, rem1).

Definition estimateDiv64To32 (fuel : nat) (a0 a1 b : Z) : option Z :=
  if b <=? a0 then Some 0xFFFFFFFF
  else
    let b0 := b >> 16 in
    let z := if u32 (b0 << 16) <=? a0 then 0xFFFF0000 else u32 ((a0 / b0) << 16) in
    let '(term0, term1) := mul32To64 b z in
    let '(rem0, rem1) := sub64 a0 a1 term0 term1 in
    match while fuel estimateDiv_cond (estimateDiv_body b0 b) (z, rem0, rem1) with
    | None => None
    | Some (z, rem0, rem1) =>
      let rem0 := u32 (rem0 << 16) ||| (rem1 >> 16) in
      Some (z ||| (if u32 (b0 << 16) <=? rem0 then 0xFFFF else rem0 / b0))
    end.

Definition sqrtOddAdjustments : list Z :=
  [0x0004; 0x0022; 0x005D; 0x00B1; 0x011D; 0x019F; 0x0236; 0x02E0;
   0x039C; 0x0468; 0x0545; 0x0631; 0x072B; 0x0832; 0x0946; 0x0A67].

Definition sqrtEvenAdjustments : list Z :=
  [0x0A2D; 0x08AF; 0x075A; 0x0629; 0x051A; 0x0429; 0x0356; 0x029E;
   0x0200; 0x0179; 0x0109; 0x00AF; 0x0068; 0x0034; 0x0012; 0x0002].

Definition estimateSqrt32 (fuel : nat) (aExp a : Z) : option Z :=
  let index := s8 ((a >> 27) &&& 15) in
  let finish (a z : Z) : option Z :=
    match estimateDiv64To32 fuel a 0 z with
    | None => None
    | Some d => Some (u32 ((d >> 1) + (z >> 1)))
    end in
  if truthy (aExp &&& 1) then
    let z := u32 (0x4000 + (a >> 17) - nth (Z.to_nat index) sqrtOddAdjustments 0) in
    let z := u32 (u32 ((a / z) << 14) + u32 (z << 15)) in
    finish (a >> 1) z
  else
    let z := u32 (0x8000 + (a >> 17) - nth (Z.to_nat index) sqrtEvenAdjustments 0) in
    let z := u32 (a / z + z) in
    let z := if 0x20000 <=? z then 0xFFFF8000 else u32 (z << 15) in
    if z <=? a then Some (u32 (s32 a >> 1)) else finish a z.

(** ** Leading zeros and comparisons *)

Definition countLeadingZerosHigh : list Z :=
  [8; 7; 6; 6; 5; 5; 5; 5; 4; 4; 4; 4; 4; 4; 4; 4] ++
  repeat 3 16 ++ repeat 2 32 ++ repeat 1 64 ++ repeat 0 128.

Definition countLeadingZeros32 (a : Z) : Z :=
  let shiftCount := 0 in
  let '(shiftCount, a) :=
    if a <? 0x10000 then (s8 (shiftCount + 16), u32 (a << 16)) else (shiftCount, a) in
  let '(shiftCount, a) :=
    if a <? 0x1000000 then (s8 (shiftCount + 8), u32 (a << 8)) else (shiftCount, a) in
  s8 (shiftCount + nth (Z.to_nat (a >> 24)) countLeadingZerosHigh 0).

Definition eq64 (a0 a1 b0 b1 : Z) : bool := (a0 =? b0) && (a1 =? b1).
Definition le64 (a0 a1 b0 b1 : Z) : bool := (a0 <? b0) || ((a0 =? b0) && (a1 <=? b1)).
Definition lt64 (a0 a1 b0 b1 : Z) : bool := (a0 <? b0) || ((a0 =? b0) && (a1 <? b1)).
Definition ne64 (a0 a1 b0 b1 : Z) : bool := negb (a0 =? b0) || negb (a1 =? b1).

(** ** Word-level lemmas *)

(** The value of a multi-word number. *)
Definition val64 (z : Z * Z) : Z := fst z * 2 ^ 32 + snd z.
Definition val96 (z : Z * Z * Z) : Z := let '(z0, z1, z2) := z in z0 * 2 ^ 64 + z1 * 2 ^ 32 + z2.
Definition val128 (z : Z * Z * Z * Z) : Z :=
  let '(z0, z1, z2, z3) := z in z0 * 2 ^ 96 + z1 * 2 ^ 64 + z2 * 2 ^ 32 + z3.

Definition words64 (z : Z * Z) : Prop := is_u 32 (fst z) /\ is_u 32 (snd z).
Definition words96 (z : Z * Z * Z) : Prop :=
  let '(z0, z1, z2) := z in is_u 32 z0 /\ is_u 32 z1 /\ is_u 32 z2.

Lemma u32_mod x : u32 x = x mod 2 ^ 32.
Proof. reflexivity. Qed.

Lemma neg_count c : (- c) &&& 31 = (- c) mod 32.
Proof. exact (Z.land_ones (- c) 5 ltac:(lia)). Qed.

Lemma count_and c : c &&& 31 = c mod 32.
Proof. exact (Z.land_ones c 5 ltac:(lia)). Qed.

Lemma neg_count_lo c : 0 < c < 32 -> (- c) &&& 31 = 32 - c.
Proof. intros. rewrite neg_count. symmetry. apply (Z.mod_unique _ _ (-1)); lia. Qed.

Lemma neg_count_hi c : 32 < c < 64 -> (- c) &&& 31 = 64 - c.
Proof. intros. rewrite neg_count. symmetry. apply (Z.mod_unique _ _ (-2)); lia. Qed.

Lemma count_and_hi c : 32 <= c < 64 -> c &&& 31 = c - 32.
Proof. intros. rewrite count_and. symmetry. apply (Z.mod_unique _ _ 1); lia. Qed.

Lemma s8_small x : -128 <= x < 128 -> s8 x = x.
Proof. intros. apply sw_small; [lia | unfold is_s; lia]. Qed.

Lemma u32_shl a n : 0 <= n <= 32 -> u32 (a << n) = a mod 2 ^ (32 - n) * 2 ^ n.
Proof.
  intros Hn. rewrite u32_mod, Z.shiftl_mul_pow2 by lia.
  replace 32 with (32 - n + n) at 1 by lia. rewrite Z.pow_add_r by lia.
  apply Z.mul_mod_distr_r; pose proof (pow2_pos n); pose proof (pow2_pos (32 - n)); lia.
Qed.

Lemma shr_div a n : 0 <= n -> a >> n = a / 2 ^ n.
Proof. intros. now apply Z.shiftr_div_pow2. Qed.

Lemma truthy_shl a n : 0 <= n <= 32 -> truthy (u32 (a << n)) = negb (a mod 2 ^ (32 - n) =? 0).
Proof.
  intros Hn. rewrite u32_shl by lia. unfold truthy. f_equal.
  pose proof (pow2_pos n). destruct (Z.eqb_spec (a mod 2 ^ (32 - n)) 0) as [->|]; [reflexivity|].
  apply Z.eqb_neq. nia.
Qed.

Lemma truthy_lor a b : truthy (a ||| b) = truthy a || truthy b.
Proof.
  unfold truthy. destruct (Z.eqb_spec a 0), (Z.eqb_spec b 0), (Z.eqb_spec (a ||| b) 0) as [E|E];
    try reflexivity; exfalso.
  - apply E. subst. reflexivity.
  - apply Z.lor_eq_0_iff in E. lia.
  - apply Z.lor_eq_0_iff in E. lia.
  - apply Z.lor_eq_0_iff in E. lia.
Qed.

(** Or-ing a flag into the low word of a number. *)
Lemma lor_low h x b : h * 2 ^ 32 + (x ||| b2z b) = (h * 2 ^ 32 + x) ||| b2z b.
Proof.
  destruct b; cbn [b2z]; [|now rewrite !Z.lor_0_r].
  rewrite !lor_1. replace (h * 2 ^ 32) with (h * 2 ^ 31 * 2) by lia.
  rewrite Z.div_add_l by lia. lia.
Qed.

Lemma lor_b2z_range x b n : 0 < n -> 0 <= x < 2 ^ n -> 0 <= x ||| b2z b < 2 ^ n.
Proof.
  intros Hn Hx. apply lor_bound; [lia | lia |]. pose proof (pow2_le 1 n ltac:(lia) ltac:(lia)).
  destruct b; cbn [b2z]; lia.
Qed.

(** The low part of a word moved up, joined with the high part of the next one. *)
Lemma join_words a b c : 0 <= c <= 32 -> is_u 32 b ->
  (a mod 2 ^ c * 2 ^ (32 - c)) ||| (b / 2 ^ c) = a mod 2 ^ c * 2 ^ (32 - c) + b / 2 ^ c.
Proof.
  intros Hc Hb. pose proof (pow2_pos c). pose proof (pow2_pos (32 - c)). unfold is_u in Hb.
  apply (lor_add _ _ (32 - c)); [lia | | apply Z.mod_mul; lia].
  split; [apply Z.div_pos; lia|]. apply Z.div_lt_upper_bound; [lia|].
  rewrite <- Z.pow_add_r by lia. replace (c + (32 - c)) with 32 by lia. lia.
Qed.

Lemma div_pow2_range x c n : 0 <= c <= n -> 0 <= x < 2 ^ n -> 0 <= x / 2 ^ c < 2 ^ (n - c).
Proof.
  intros Hc Hx. pose proof (pow2_pos c). split; [apply Z.div_pos; lia|].
  apply Z.div_lt_upper_bound; [lia|]. rewrite <- Z.pow_add_r by lia.
  replace (c + (n - c)) with n by lia. lia.
Qed.

Lemma div_two_words a0 a1 c : 0 <= c <= 32 ->
  (a0 * 2 ^ 32 + a1) / 2 ^ c = a0 / 2 ^ c * 2 ^ 32 + (a0 mod 2 ^ c * 2 ^ (32 - c) + a1 / 2 ^ c).
Proof.
  intros Hc. pose proof (pow2_pos c ltac:(lia)) as Pc.
  assert (E : 2 ^ 32 = 2 ^ c * 2 ^ (32 - c)) by (rewrite <- Z.pow_add_r by lia; f_equal; lia).
  pose proof (Z.div_mod a0 (2 ^ c) ltac:(lia)) as E0.
  replace (a0 * 2 ^ 32 + a1) with ((a0 * 2 ^ (32 - c)) * 2 ^ c + a1) by (rewrite E; ring).
  rewrite Z.div_add_l, E by lia. rewrite E0 at 1. ring.
Qed.

Lemma mod_two_words_lo a0 a1 c : 0 <= c <= 32 -> (a0 * 2 ^ 32 + a1) mod 2 ^ c = a1 mod 2 ^ c.
Proof.
  intros Hc. replace 32 with (32 - c + c) by lia. rewrite Z.pow_add_r, Z.mul_assoc by lia.
  rewrite Z.add_comm. apply Z.mod_add. pose proof (pow2_pos c); lia.
Qed.

Lemma mod_two_words_hi a0 a1 c : 0 <= c -> is_u 32 a1 ->
  (a0 * 2 ^ 32 + a1) mod 2 ^ (32 + c) = a0 mod 2 ^ c * 2 ^ 32 + a1.
Proof.
  intros Hc Ha. unfold is_u in Ha. pose proof (pow2_pos c Hc) as Pc. symmetry.
  rewrite Z.pow_add_r by lia. pose proof (Z.mod_pos_bound a0 _ Pc).
  pose proof (Z.div_mod a0 (2 ^ c) ltac:(lia)).
  apply (Z.mod_unique _ _ (a0 / 2 ^ c)); [left; nia | nia].
Qed.

Lemma div_two_words_hi a0 a1 c : 0 <= c -> is_u 32 a1 ->
  (a0 * 2 ^ 32 + a1) / 2 ^ (32 + c) = a0 / 2 ^ c.
Proof.
  intros Hc Ha. unfold is_u in Ha. pose proof (pow2_pos c Hc).
  rewrite Z.pow_add_r, <- Z.div_div by lia. rewrite Z.div_add_l by lia.
  rewrite (Z.div_small a1) by lia. now rewrite Z.add_0_r.
Qed.

(** ** Shifts with jamming compute [jam] *)

Lemma jam_1 a : jam a (2 ^ 0) = a.
Proof. unfold jam. change (2 ^ 0) with 1. rewrite Z.div_1_r, Z.mod_1_r. apply Z.lor_0_r. Qed.

Lemma jam_large a n c : 0 <= n <= c -> 0 <= a < 2 ^ n -> jam a (2 ^ c) = b2z (truthy a).
Proof.
  intros Hc Ha. pose proof (pow2_le n c ltac:(lia) ltac:(lia)). unfold jam, truthy.
  rewrite Z.div_small, Z.mod_small by lia. apply Z.lor_0_l.
Qed.

Lemma shift32RightJamming_jam a c : is_u 32 a -> 0 <= c -> shift32RightJamming a c = jam a (2 ^ c).
Proof.
  intros Ha Hc. unfold shift32RightJamming. destruct (Z.eqb_spec c 0) as [->|Hc0].
  { now rewrite jam_1. }
  destruct (Z.ltb_spec c 32).
  - rewrite neg_count_lo, truthy_shl, shr_div by lia. replace (32 - (32 - c)) with c by lia.
    reflexivity.
  - symmetry. apply (jam_large a 32); [lia | exact Ha].
Qed.

Lemma shift64Right_div a0 a1 c : is_u 32 a0 -> is_u 32 a1 -> 0 <= c ->
  val64 (shift64Right a0 a1 c) = (a0 * 2 ^ 32 + a1) / 2 ^ c.
Proof.
  intros H0 H1 Hc. unfold shift64Right, val64. destruct (Z.eqb_spec c 0) as [->|Hc0].
  { cbn [fst snd]. change (2 ^ 0) with 1. now rewrite Z.div_1_r. }
  destruct (Z.ltb_spec c 32); cbn [fst snd].
  - rewrite neg_count_lo, s8_small, u32_shl, !shr_div by lia. replace (32 - (32 - c)) with c by lia.
    rewrite join_words, div_two_words by (lia || assumption). reflexivity.
  - replace c with (32 + (c - 32)) at 3 by lia. rewrite div_two_words_hi by (lia || assumption).
    destruct (Z.ltb_spec c 64); [rewrite count_and_hi, shr_div by lia; lia|].
    unfold is_u in H0. pose proof (pow2_le 32 (c - 32) ltac:(lia) ltac:(lia)).
    rewrite Z.div_small by lia. lia.
Qed.

Lemma shift64RightJamming_jam a0 a1 c : is_u 32 a0 -> is_u 32 a1 -> 0 <= c ->
  val64 (shift64RightJamming a0 a1 c) = jam (a0 * 2 ^ 32 + a1) (2 ^ c).
Proof.
  intros H0 H1 Hc. unfold shift64RightJamming, val64. destruct (Z.eqb_spec c 0) as [->|Hc0].
  { cbn [fst snd]. now rewrite jam_1. }
  destruct (Z.ltb_spec c 32); cbn [fst snd].
  - rewrite neg_count_lo, s8_small, truthy_shl, u32_shl, !shr_div by lia.
    replace (32 - (32 - c)) with c by lia.
    rewrite lor_low, join_words by (lia || assumption). unfold jam.
    rewrite div_two_words, mod_two_words_lo by lia. reflexivity.
  - rewrite Z.mul_0_l, Z.add_0_l. destruct (Z.eqb_spec c 32) as [->|].
    + pose proof (div_two_words_hi a0 a1 0 ltac:(lia) H1) as Ed.
      change (32 + 0) with 32 in Ed. change (2 ^ 0) with 1 in Ed. rewrite Z.div_1_r in Ed.
      unfold jam. rewrite Ed, (mod_two_words_lo a0 a1 32) by lia.
      rewrite Z.mod_small by apply H1. reflexivity.
    + destruct (Z.ltb_spec c 64).
      * rewrite count_and_hi, neg_count_hi, s8_small, shr_div, truthy_lor, truthy_shl by lia.
        unfold jam. replace (32 - (64 - c)) with (c - 32) by lia.
        replace (2 ^ c) with (2 ^ (32 + (c - 32))) by (f_equal; lia).
        rewrite mod_two_words_hi, div_two_words_hi by (lia || assumption).
        do 2 f_equal. unfold truthy, is_u in *. pose proof (pow2_pos (c - 32)).
        pose proof (Z.mod_pos_bound a0 (2 ^ (c - 32)) ltac:(lia)).
        destruct (Z.eqb_spec (a0 mod 2 ^ (c - 32)) 0), (Z.eqb_spec a1 0),
          (Z.eqb_spec (a0 mod 2 ^ (c - 32) * 2 ^ 32 + a1) 0); try reflexivity; exfalso; lia.
      * rewrite (jam_large _ 64) by (unfold is_u in *; lia). f_equal. rewrite truthy_lor.
        unfold truthy, is_u in *.
        destruct (Z.eqb_spec a0 0), (Z.eqb_spec a1 0), (Z.eqb_spec (a0 * 2 ^ 32 + a1) 0);
          try reflexivity; exfalso; lia.
Qed.

Lemma shift64Extra_words a0 a1 a2 c : words96 (a0, a1, a2) -> 0 <= c ->
  words96 (shift64ExtraRightJamming a0 a1 a2 c).
Proof.
  intros (H0 & H1 & H2) Hc. unfold shift64ExtraRightJamming.
  destruct (Z.eqb_spec c 0) as [|Hc0]; [easy|].
  destruct (Z.ltb_spec c 32); [|destruct (Z.eqb_spec c 32); [|destruct (Z.ltb_spec c 64)]].
  4: destruct (Z.eqb_spec c 64).
  all: try rewrite count_and_hi by lia; split; [|split]; auto 6 with cint.
Qed.

(** The 96-bit shift keeps the order of its operand relative to the multiples of 2^31, the
    weight of the bit below the rounding point. *)
Lemma shift64Extra_sticky a0 a1 a2 c : words96 (a0, a1, a2) -> 0 <= c ->
  sticky (2 ^ 31) (val96 (shift64ExtraRightJamming a0 a1 a2 c))
    (a0 * 2 ^ 64 + a1 * 2 ^ 32 + a2) (2 ^ c).
Proof.
  intros (H0 & H1 & H2) Hc. unfold shift64ExtraRightJamming.
  assert (Hlow : forall z0 z1 z2 b,
    val96 (z0, z1, z2 ||| b2z b) = (z0 * 2 ^ 64 + z1 * 2 ^ 32 + z2) ||| b2z b).
  { intros. unfold val96. replace (z0 * 2 ^ 64 + z1 * 2 ^ 32) with ((z0 * 2 ^ 32 + z1) * 2 ^ 32) by lia.
    apply lor_low. }
  destruct (Z.eqb_spec c 0) as [->|Hc0].
  { apply sticky_exact; [lia|]. unfold val96. lia. }
  pose proof (pow2_pos c Hc) as Pc. unfold is_u in *.
  destruct (Z.ltb_spec c 32) as [Hlt|Hge]; [|destruct (Z.eqb_spec c 32) as [->|]].
  - (* 0 < c < 32 *)
    rewrite neg_count_lo, s8_small, !u32_shl, !shr_div by lia.
    replace (32 - (32 - c)) with c by lia. rewrite join_words by (unfold is_u; lia).
    rewrite Hlow. replace (2 ^ 31) with (2 ^ (32 - c) * 2 ^ (c - 1))
      by (rewrite <- Z.pow_add_r by lia; f_equal; lia).
    apply sticky_weaken. pose proof (pow2_succ (31 - c) ltac:(lia)) as E1.
    replace (31 - c + 1) with (32 - c) in E1 by lia. pose proof (pow2_pos (31 - c) ltac:(lia)).
    assert (E : 2 ^ 32 = 2 ^ c * 2 ^ (32 - c)) by (rewrite <- Z.pow_add_r by lia; f_equal; lia).
    apply (sticky_low _ _ _ _ a2); try reflexivity; try lia.
    + rewrite E1. rewrite Z.mul_comm. apply Z.mod_mul. lia.
    + replace (2 ^ 64) with (2 ^ c * 2 ^ (32 - c) * 2 ^ 32) by (rewrite <- E; reflexivity).
      match goal with |- ?x mod _ = 0 => replace x with
        ((a0 / 2 ^ c * 2 ^ c * 2 ^ 32 + a0 mod 2 ^ c * 2 ^ 32 + a1 / 2 ^ c * 2 ^ c + a1 mod 2 ^ c)
         * 2 ^ (32 - c)) by (rewrite E; ring) end.
      apply Z.mod_mul. lia.
    + pose proof (Z.div_mod a0 (2 ^ c) ltac:(lia)) as D0.
      pose proof (Z.div_mod a1 (2 ^ c) ltac:(lia)) as D1.
      rewrite D0 at 1. rewrite D1 at 1. replace (2 ^ 64) with (2 ^ 32 * 2 ^ 32) by reflexivity.
      rewrite E. ring.
  - (* c = 32 *)
    rewrite Hlow. replace (2 ^ 31) with (2 * 2 ^ 30) by reflexivity. apply sticky_weaken.
    replace (_ ||| _) with (jam (a0 * 2 ^ 64 + a1 * 2 ^ 32 + a2) (2 ^ 32)); [apply sticky_jam; lia|].
    unfold jam, truthy.
    replace (a0 * 2 ^ 64 + a1 * 2 ^ 32 + a2) with ((a0 * 2 ^ 32 + a1) * 2 ^ 32 + a2) by lia.
    rewrite Z.div_add_l, (Z.div_small a2) by lia.
    rewrite (Z.add_comm _ a2), Z.mod_add, Z.mod_small by lia. f_equal. lia.
  - destruct (Z.ltb_spec c 64) as [Hlt|Hge'].
    + (* 32 < c < 64 *)
      rewrite count_and_hi, neg_count_hi, s8_small, u32_shl, shr_div by lia.
      replace (32 - (64 - c)) with (c - 32) by lia. rewrite Hlow.
      replace (2 ^ 31) with (2 ^ (64 - c) * 2 ^ (c - 33))
        by (rewrite <- Z.pow_add_r by lia; f_equal; lia).
      apply sticky_weaken. pose proof (pow2_succ (63 - c) ltac:(lia)) as E1.
      replace (63 - c + 1) with (64 - c) in E1 by lia. pose proof (pow2_pos (63 - c) ltac:(lia)).
      assert (E : 2 ^ 32 = 2 ^ (c - 32) * 2 ^ (64 - c))
        by (rewrite <- Z.pow_add_r by lia; f_equal; lia).
      assert (E' : 2 ^ c = 2 ^ 32 * 2 ^ (c - 32)) by (rewrite <- Z.pow_add_r by lia; f_equal; lia).
      pose proof (pow2_pos (c - 32) ltac:(lia)).
      apply (sticky_low _ _ _ _ (a1 * 2 ^ 32 + a2)); try lia.
      * rewrite E1. rewrite Z.mul_comm. apply Z.mod_mul. lia.
      * match goal with |- ?x mod _ = 0 => replace x with
          ((a0 / 2 ^ (c - 32) * 2 ^ (c - 32) + a0 mod 2 ^ (c - 32)) * 2 ^ (64 - c))
          by (rewrite E; ring) end. apply Z.mod_mul. lia.
      * pose proof (Z.div_mod a0 (2 ^ (c - 32)) ltac:(lia)) as D0. rewrite D0 at 1.
        replace (2 ^ 64) with (2 ^ 32 * 2 ^ 32) by reflexivity. rewrite E', E. ring.
      * rewrite truthy_lor. unfold truthy.
        destruct (Z.eqb_spec a1 0), (Z.eqb_spec a2 0), (Z.eqb_spec (a1 * 2 ^ 32 + a2) 0);
          try reflexivity; exfalso; lia.
    + destruct (Z.eqb_spec c 64) as [->|].
      * rewrite Hlow. replace (2 ^ 31) with (2 * 2 ^ 30) by reflexivity. apply sticky_weaken.
        replace (_ ||| _) with (jam (a0 * 2 ^ 64 + a1 * 2 ^ 32 + a2) (2 ^ 64));
          [apply sticky_jam; lia|].
        unfold jam. rewrite <- Z.add_assoc, Z.div_add_l, (Z.div_small (a1 * 2 ^ 32 + a2)) by lia.
        rewrite (Z.add_comm (a0 * _)), Z.mod_add, Z.mod_small by lia. f_equal; [lia|].
        rewrite truthy_lor. unfold truthy.
        destruct (Z.eqb_spec a1 0), (Z.eqb_spec a2 0), (Z.eqb_spec (a1 * 2 ^ 32 + a2) 0);
          try reflexivity; exfalso; lia.
      * rewrite Hlow. pose proof (pow2_le 65 c ltac:(lia) ltac:(lia)).
        replace (_ ||| _) with (0 ||| b2z (negb (a0 * 2 ^ 64 + a1 * 2 ^ 32 + a2 =? 0))).
        { apply (sticky_low _ _ _ _ (a0 * 2 ^ 64 + a1 * 2 ^ 32 + a2)); try reflexivity; lia. }
        rewrite truthy_lor. unfold truthy.
        destruct (Z.eqb_spec a0 0), (Z.eqb_spec a1 0), (Z.eqb_spec a2 0),
          (Z.eqb_spec (a0 * 2 ^ 64 + a1 * 2 ^ 32 + a2) 0); try reflexivity; exfalso; lia.
Qed.

(** ** Exactness of addition, subtraction and multiplication *)

(** Reduction modulo 2^64 and 2^96, word by word. *)
Lemma mod64_words h l : is_u 32 l -> (h * 2 ^ 32 + l) mod 2 ^ 64 = u32 h * 2 ^ 32 + l.
Proof. intros. exact (mod_two_words_hi h l 32 ltac:(lia) H). Qed.

Lemma mod96_words h m l : is_u 32 m -> is_u 32 l ->
  (h * 2 ^ 64 + m * 2 ^ 32 + l) mod 2 ^ 96 = u32 h * 2 ^ 64 + m * 2 ^ 32 + l.
Proof.
  intros Hm Hl. replace (h * 2 ^ 64 + m * 2 ^ 32 + l) with ((h * 2 ^ 32 + m) * 2 ^ 32 + l) by lia.
  pose proof (mod_two_words_hi (h * 2 ^ 32 + m) l 64 ltac:(lia) Hl) as E.
  change (32 + 64) with 96 in E. rewrite E, mod64_words by assumption. lia.
Qed.

(** A word sum or difference with the carry the code computes by comparison. *)
Lemma carry_word a b : is_u 32 a -> is_u 32 b ->
  a + b = b2z (u32 (a + b) <? a) * 2 ^ 32 + u32 (a + b).
Proof.
  unfold is_u. intros Ha Hb. rewrite u32_mod.
  destruct (Z.ltb_spec ((a + b) mod 2 ^ 32) a); cbn [b2z]; dlia.
Qed.

Lemma borrow_word a b : is_u 32 a -> is_u 32 b ->
  a - b = - b2z (a <? b) * 2 ^ 32 + u32 (a - b).
Proof.
  unfold is_u. intros Ha Hb. rewrite u32_mod. destruct (Z.ltb_spec a b); cbn [b2z]; dlia.
Qed.

Lemma add64_val a0 a1 b0 b1 : words64 (a0, a1) -> words64 (b0, b1) ->
  words64 (add64 a0 a1 b0 b1) /\
  val64 (add64 a0 a1 b0 b1) = (val64 (a0, a1) + val64 (b0, b1)) mod 2 ^ 64.
Proof.
  intros [H0 H1] [H2 H3]. unfold add64, val64, words64. cbn [fst snd] in *.
  split; [split; apply u32_word|]. pose proof (carry_word a1 b1 H1 H3).
  rewrite <- mod64_words by apply u32_word. f_equal. lia.
Qed.

Lemma sub64_val a0 a1 b0 b1 : words64 (a0, a1) -> words64 (b0, b1) ->
  words64 (sub64 a0 a1 b0 b1) /\
  val64 (sub64 a0 a1 b0 b1) = (val64 (a0, a1) - val64 (b0, b1)) mod 2 ^ 64.
Proof.
  intros [H0 H1] [H2 H3]. unfold sub64, val64, words64. cbn [fst snd] in *.
  split; [split; apply u32_word|]. pose proof (borrow_word a1 b1 H1 H3).
  rewrite <- mod64_words by apply u32_word. f_equal. lia.
Qed.

Lemma u32_sub_l x y : u32 (u32 x - y) = u32 (x - y).
Proof. apply Zminus_mod_idemp_l. Qed.

Lemma u32_add_l2 x y z : u32 (u32 x + y + z) = u32 (x + y + z).
Proof. rewrite <- !Z.add_assoc. apply u32_add_l. Qed.

Lemma u32_sub_l2 x y z : u32 (u32 x - y - z) = u32 (x - y - z).
Proof. rewrite <- !Z.sub_add_distr. apply u32_sub_l. Qed.

Lemma add96_val a0 a1 a2 b0 b1 b2 : words96 (a0, a1, a2) -> words96 (b0, b1, b2) ->
  words96 (add96 a0 a1 a2 b0 b1 b2) /\
  val96 (add96 a0 a1 a2 b0 b1 b2) = (val96 (a0, a1, a2) + val96 (b0, b1, b2)) mod 2 ^ 96.
Proof.
  intros (H0 & H1 & H2) (H3 & H4 & H5). unfold add96, val96, words96.
  set (c1 := b2z (u32 (a2 + b2) <? a2)). set (c0 := b2z (u32 (a1 + b1) <? a1)).
  split; [repeat split; apply u32_word|]. rewrite !u32_add_l, u32_add_l2.
  pose proof (carry_word a2 b2 H2 H5) as E2. fold c1 in E2.
  pose proof (carry_word a1 b1 H1 H4) as E1. fold c0 in E1.
  assert (Hc1 : 0 <= c1 <= 1) by (unfold c1; destruct (_ <? _); cbn; lia).
  set (z1 := u32 (a1 + b1)) in *. pose proof (u32_word (a1 + b1)) as W. fold z1 in W.
  assert (E3 : z1 + c1 = b2z (u32 (z1 + c1) <? c1) * 2 ^ 32 + u32 (z1 + c1)).
  { unfold is_u in W. rewrite u32_mod. destruct (Z.ltb_spec ((z1 + c1) mod 2 ^ 32) c1); cbn [b2z]; dlia. }
  replace (u32 (a1 + b1 + c1)) with (u32 (z1 + c1)) by apply u32_add_l.
  rewrite <- mod96_words by apply u32_word. f_equal. lia.
Qed.

Lemma sub96_val a0 a1 a2 b0 b1 b2 : words96 (a0, a1, a2) -> words96 (b0, b1, b2) ->
  words96 (sub96 a0 a1 a2 b0 b1 b2) /\
  val96 (sub96 a0 a1 a2 b0 b1 b2) = (val96 (a0, a1, a2) - val96 (b0, b1, b2)) mod 2 ^ 96.
Proof.
  intros (H0 & H1 & H2) (H3 & H4 & H5). unfold sub96, val96, words96.
  set (c1 := b2z (a2 <? b2)). set (c0 := b2z (a1 <? b1)).
  split; [repeat split; apply u32_word|]. rewrite !u32_sub_l, u32_sub_l2.
  pose proof (borrow_word a2 b2 H2 H5) as E2. fold c1 in E2.
  pose proof (borrow_word a1 b1 H1 H4) as E1. fold c0 in E1.
  assert (Hc1 : is_u 32 c1) by (apply b2z_word; lia).
  set (z1 := u32 (a1 - b1)) in *. pose proof (u32_word (a1 - b1)) as W. fold z1 in W.
  pose proof (borrow_word z1 c1 W Hc1) as E3.
  replace (u32 (a1 - b1 - c1)) with (u32 (z1 - c1)) by apply u32_sub_l.
  rewrite <- mod96_words by apply u32_word. f_equal. lia.
Qed.

(** The partial products of two words split in halves, summed with the code's carries. *)
Lemma mul_halves p00 p01 p10 p11 :
  let B := (2 ^ 16 - 1) * (2 ^ 16 - 1) in
  0 <= p00 <= B -> 0 <= p01 <= B -> 0 <= p10 <= B -> 0 <= p11 <= B ->
  p11 * 2 ^ 32 + (p01 + p10) * 2 ^ 16 + p00 < 2 ^ 64 ->
  let A := u32 (p01 + p10) in
  let L := u32 (A << 16) in
  let z1 := u32 (p00 + L) in
  u32 (u32 (p11 + (u32 (b2z (A <? p10) << 16) + (A >> 16))) + b2z (z1 <? L)) * 2 ^ 32 + z1
    = p11 * 2 ^ 32 + (p01 + p10) * 2 ^ 16 + p00.
Proof.
  intros B H0 H1 H2 H3 Ht A L z1. unfold B in *.
  pose proof (carry_word p10 p01 ltac:(unfold is_u; lia) ltac:(unfold is_u; lia)) as C1.
  rewrite (Z.add_comm p10 p01) in C1. fold A in C1.
  pose proof (u32_word (p01 + p10)) as WA. fold A in WA.
  assert (EL : L = A mod 2 ^ 16 * 2 ^ 16) by (unfold L; apply (u32_shl A 16); lia).
  pose proof (u32_word (A << 16)) as WL. fold L in WL.
  pose proof (carry_word L p00 WL ltac:(unfold is_u; lia)) as C2.
  rewrite (Z.add_comm L p00) in C2. fold z1 in C2.
  rewrite u32_add_l, <- mod64_words by apply u32_word. rewrite shr_div by lia.
  replace (u32 (b2z (A <? p10) << 16)) with (b2z (A <? p10) * 2 ^ 16)
    by (destruct (A <? p10); reflexivity).
  pose proof (Z.div_mod A (2 ^ 16) ltac:(lia)) as EA.
  match goal with |- ?x mod _ = _ => replace x with (p11 * 2 ^ 32 + (p01 + p10) * 2 ^ 16 + p00) end.
  - apply Z.mod_small. lia.
  - clear Ht WA WL. lia.
Qed.

Lemma mul32To64_val a b : is_u 32 a -> is_u 32 b ->
  words64 (mul32To64 a b) /\ val64 (mul32To64 a b) = a * b.
Proof.
  intros Ha Hb. split; [split; apply u32_word|].
  unfold mul32To64, val64. cbn [fst snd]. unfold is_u in *.
  assert (S : forall x, 0 <= x < 2 ^ 16 -> u16 x = x) by (intros; now apply uw_small).
  rewrite !shr_div by lia. rewrite (S (a / 2 ^ 16)), (S (b / 2 ^ 16)) by dlia.
  change (u16 a) with (a mod 2 ^ 16). change (u16 b) with (b mod 2 ^ 16).
  pose proof (Z.div_mod a (2 ^ 16) ltac:(lia)) as Ea. pose proof (Z.div_mod b (2 ^ 16) ltac:(lia)) as Eb.
  assert (Hah : 0 <= a / 2 ^ 16 < 2 ^ 16) by dlia. assert (Hal : 0 <= a mod 2 ^ 16 < 2 ^ 16) by dlia.
  assert (Hbh : 0 <= b / 2 ^ 16 < 2 ^ 16) by dlia. assert (Hbl : 0 <= b mod 2 ^ 16 < 2 ^ 16) by dlia.
  set (ah := a / 2 ^ 16) in *. set (al := a mod 2 ^ 16) in *.
  set (bh := b / 2 ^ 16) in *. set (bl := b mod 2 ^ 16) in *. clearbody ah al bh bl.
  assert (P : forall x y, 0 <= x < 2 ^ 16 -> 0 <= y < 2 ^ 16 ->
    0 <= x * y <= (2 ^ 16 - 1) * (2 ^ 16 - 1)) by nia.
  pose proof (P al bl Hal Hbl). pose proof (P al bh Hal Hbh).
  pose proof (P ah bl Hah Hbl). pose proof (P ah bh Hah Hbh).
  assert (M : forall x, 0 <= x <= (2 ^ 16 - 1) * (2 ^ 16 - 1) -> u32 x = x)
    by (intros; apply uw_small; unfold is_u; lia).
  rewrite (M (al * bl)), (M (al * bh)), (M (ah * bl)), (M (ah * bh)) by assumption.
  replace (a * b) with (ah * bh * 2 ^ 32 + (al * bh + ah * bl) * 2 ^ 16 + al * bl) by (subst; ring).
  rewrite <- (shr_div _ 16) by lia. apply mul_halves; try assumption.
  replace (_ + _ + _) with (a * b) by (subst; ring). nia.
Qed.

Lemma mul64By32To96_val a0 a1 b : words64 (a0, a1) -> is_u 32 b ->
  words96 (mul64By32To96 a0 a1 b) /\ val96 (mul64By32To96 a0 a1 b) = val64 (a0, a1) * b.
Proof.
  intros [H0 H1] Hb. cbn [fst snd] in *. unfold mul64By32To96.
  destruct (mul32To64_val a1 b H1 Hb) as [W1 E1]. destruct (mul32To64 a1 b) as [z1 z2].
  destruct (mul32To64_val a0 b H0 Hb) as [W0 E0]. destruct (mul32To64 a0 b) as [z0 m1].
  destruct W0 as [W00 W01], W1 as [W10 W11]. cbn [fst snd] in *.
  destruct (add64_val z0 m1 0 z1) as [Wa Ea]; [easy | split; cbn; auto with cint|].
  destruct (add64 z0 m1 0 z1) as [y0 y1]. destruct Wa as [Wy0 Wy1]. cbn [fst snd] in *.
  split; [easy|]. unfold val64, val96, is_u in *. cbn [fst snd] in *.
  rewrite Z.mod_small in Ea by nia. nia.
Qed.

Lemma mul64To128_val a0 a1 b0 b1 : words64 (a0, a1) -> words64 (b0, b1) ->
  val128 (mul64To128 a0 a1 b0 b1) = val64 (a0, a1) * val64 (b0, b1) /\
  (let '(z0, z1, z2, z3) := mul64To128 a0 a1 b0 b1 in
   words96 (z0, z1, z2) /\ is_u 32 z3).
Proof.
  intros [H0 H1] [K0 K1]. cbn [fst snd] in *. unfold mul64To128.
  destruct (mul32To64_val a1 b1 H1 K1) as [[W2 W3] E1]. destruct (mul32To64 a1 b1) as [z2 z3].
  destruct (mul32To64_val a1 b0 H1 K0) as [[W4 W5] E2]. destruct (mul32To64 a1 b0) as [z1 m2].
  cbn [fst snd] in *.
  destruct (add64_val z1 m2 0 z2) as [[Y1 Y2] Ea]; [easy | split; cbn; auto with cint|].
  destruct (add64 z1 m2 0 z2) as [y1 y2]. cbn [fst snd] in *.
  destruct (mul32To64_val a0 b0 H0 K0) as [[W0 W1] E3]. destruct (mul32To64 a0 b0) as [z0 m1].
  cbn [fst snd] in *.
  destruct (add64_val z0 m1 0 y1) as [[X0 X1] Eb]; [easy | split; cbn; auto with cint|].
  destruct (add64 z0 m1 0 y1) as [x0 x1]. cbn [fst snd] in *.
  destruct (mul32To64_val a0 b1 H0 K1) as [[V1 V2] E4]. destruct (mul32To64 a0 b1) as [n1 n2].
  cbn [fst snd] in *.
  destruct (add64_val n1 n2 0 y2) as [[U1 U2] Ec]; [easy | split; cbn; auto with cint|].
  destruct (add64 n1 n2 0 y2) as [u1 u2]. cbn [fst snd] in *.
  destruct (add64_val x0 x1 0 u1) as [[T0 T1] Ed]; [easy | split; cbn; auto with cint|].
  destruct (add64 x0 x1 0 u1) as [t0 t1]. cbn [fst snd] in *.
  split; [|easy]. unfold val64, val128, is_u in *. cbn [fst snd] in *.
  assert (Pb : forall x y, 0 <= x < 2 ^ 32 -> 0 <= y < 2 ^ 32 -> 0 <= x * y <= (2 ^ 32 - 1) * (2 ^ 32 - 1))
    by nia.
  pose proof (Pb a1 b1 H1 K1). pose proof (Pb a1 b0 H1 K0).
  pose proof (Pb a0 b0 H0 K0). pose proof (Pb a0 b1 H0 K1). clear Pb.
  replace ((a0 * 2 ^ 32 + a1) * (b0 * 2 ^ 32 + b1)) with
    (a0 * b0 * 2 ^ 64 + (a0 * b1 + a1 * b0) * 2 ^ 32 + a1 * b1) by ring.
  set (q11 := a1 * b1) in *. set (q10 := a1 * b0) in *.
  set (q00 := a0 * b0) in *. set (q01 := a0 * b1) in *. clearbody q11 q10 q00 q01.
  rewrite Z.mod_small in Ea by lia. rewrite Z.mod_small in Eb by lia.
  rewrite Z.mod_small in Ec by lia. rewrite Z.mod_small in Ed by lia. lia.
Qed.

(** ** The quotient estimate *)

Lemma s32_neg x : is_u 32 x -> (s32 x <? 0) = (2 ^ 31 <=? x).
Proof.
  unfold is_u. intros Hx. unfold s32, sw. change (2 ^ (32 - 1)) with (2 ^ 31).
  destruct (Z.ltb_spec ((x + 2 ^ 31) mod 2 ^ 32 - 2 ^ 31) 0), (Z.leb_spec (2 ^ 31) x);
    try reflexivity; exfalso; dlia.
Qed.

(** One digit of the division: dividing the leading part by the leading half of the divisor
    overestimates the digit by at most two. *)
Lemma digit_estimate b0 b1 R :
  2 ^ 15 <= b0 < 2 ^ 16 -> 0 <= b1 < 2 ^ 16 ->
  let b := b0 * 2 ^ 16 + b1 in 0 <= R < b * 2 ^ 16 ->
  let r := R / 2 ^ 16 in
  let z := if b0 * 2 ^ 16 <=? r then 2 ^ 16 - 1 else r / b0 in
  R / b <= z <= R / b + 2 /\ z < 2 ^ 16.
Proof.
  intros H0 H1 b HR r z. assert (Hb : 0 < b) by (unfold b; lia).
  pose proof (div_bounds R b Hb) as Hq. pose proof (div_bounds R (2 ^ 16) ltac:(lia)) as Hr. fold r in Hr.
  set (q := R / b) in *. unfold z. destruct (Z.leb_spec (b0 * 2 ^ 16) r).
  - unfold b in *. nia.
  - pose proof (div_bounds r b0 ltac:(lia)) as Hz. set (y := r / b0) in *.
    assert (y < 2 ^ 16) by nia. split; [|assumption]. split.
    + apply Z.lt_succ_r. apply (Z.mul_lt_mono_pos_r b0); [lia|]. unfold b in *. nia.
    + apply Z.lt_succ_r. apply Z.nle_gt. intros Hge. unfold b in *.
      assert ((q + 3) * b0 * 2 ^ 16 <= R) by nia.
      assert (2 * b0 * 2 ^ 16 < (q + 1) * b1) by nia. nia.
Qed.

(** The correction loop subtracts the excess of the first digit. *)
Lemma estimateDiv_loop fuel A b b0 qh n r0 r1 :
  2 ^ 31 <= b < 2 ^ 32 -> b0 = b / 2 ^ 16 -> (n <= 2)%nat -> (2 < fuel)%nat ->
  0 <= qh -> qh + Z.of_nat n < 2 ^ 16 -> 0 <= A - b * (qh * 2 ^ 16) < b * 2 ^ 16 ->
  words64 (r0, r1) -> val64 (r0, r1) = (A - b * ((qh + Z.of_nat n) * 2 ^ 16)) mod 2 ^ 64 ->
  exists r0' r1', while fuel estimateDiv_cond (estimateDiv_body b0 b)
      ((qh + Z.of_nat n) * 2 ^ 16, r0, r1) = Some (qh * 2 ^ 16, r0', r1') /\
    words64 (r0', r1') /\ val64 (r0', r1') = A - b * (qh * 2 ^ 16).
Proof.
  intros Hb Eb0 Hn Hf Hq Hqn HR Hw Hv.
  pose (I := fun (n : nat) (s : Z * Z * Z) => exists r0 r1,
    s = ((qh + Z.of_nat n) * 2 ^ 16, r0, r1) /\ (n <= 2)%nat /\ qh + Z.of_nat n < 2 ^ 16 /\
    words64 (r0, r1) /\ val64 (r0, r1) = (A - b * ((qh + Z.of_nat n) * 2 ^ 16)) mod 2 ^ 64).
  assert (Sign : forall n r0 r1, (n <= 2)%nat -> words64 (r0, r1) ->
    val64 (r0, r1) = (A - b * ((qh + Z.of_nat n) * 2 ^ 16)) mod 2 ^ 64 ->
    (s32 r0 <? 0) = negb (n =? 0)%nat).
  { clear - HR Hb. intros n r0 r1 Hn [W0 W1] Hv. cbn [fst snd] in *. rewrite s32_neg by assumption.
    unfold val64, is_u in *. cbn [fst snd] in *. set (R := A - b * (qh * 2 ^ 16)) in *.
    replace (A - b * ((qh + Z.of_nat n) * 2 ^ 16)) with (R - b * Z.of_nat n * 2 ^ 16) in Hv
      by (unfold R; ring).
    destruct n as [|[|[|n]]]; [| | |lia]; cbn [Z.of_nat Nat.eqb negb] in *.
    - rewrite Z.mod_small in Hv by lia. apply Z.leb_gt. lia.
    - rewrite <- (Z.mod_add _ 1) in Hv by lia. rewrite Z.mod_small in Hv by lia. apply Z.leb_le. lia.
    - rewrite <- (Z.mod_add _ 1) in Hv by lia.
      rewrite Z.mod_small in Hv by (change (Z.pos (Pos.of_succ_nat 1)) with 2; lia).
      change (Z.pos (Pos.of_succ_nat 1)) with 2 in *. apply Z.leb_le. lia. }
  destruct (while_rule estimateDiv_cond (estimateDiv_body b0 b) I) with (n := n) (fuel := fuel)
    (s := ((qh + Z.of_nat n) * 2 ^ 16, r0, r1))
    as (s' & n' & -> & Hc & (y0 & y1 & -> & Hn' & _ & Hw' & Hv')).
  - intros m s (x0 & x1 & -> & Hm & Hqm & Hx & Hvx) Hc. unfold estimateDiv_cond in Hc.
    rewrite (Sign m x0 x1) in Hc by assumption. destruct m as [|m]; [discriminate|].
    exists m. split; [lia|]. unfold estimateDiv_body.
    assert (Wb : words64 (b0, u32 (b << 16))).
    { split; cbn [fst snd]; [unfold is_u; dlia | apply u32_word]. }
    assert (Vb : val64 (b0, u32 (b << 16)) = b * 2 ^ 16).
    { unfold val64. cbn [fst snd]. rewrite u32_shl by lia. change (32 - 16) with 16.
      pose proof (Z.div_mod b (2 ^ 16)). lia. }
    destruct (add64_val x0 x1 b0 (u32 (b << 16)) Hx Wb) as [Wa Va].
    destruct (add64 x0 x1 b0 (u32 (b << 16))) as [y0 y1]. exists y0, y1.
    repeat split; [| lia | lia | apply Wa | apply Wa | apply Wa | apply Wa | ].
    + do 2 f_equal. rewrite u32_mod, Z.mod_small by lia. lia.
    + rewrite Va, Vb, Hvx, Zplus_mod_idemp_l. f_equal. lia.
  - exists r0, r1. repeat split; try assumption; apply Hw.
  - lia.
  - unfold estimateDiv_cond in Hc. rewrite (Sign n' y0 y1) in Hc by assumption.
    destruct n' as [|n']; [|discriminate]. exists y0, y1. cbn [Z.of_nat] in *.
    rewrite Z.add_0_r in *. split; [reflexivity|]. split; [assumption|].
    rewrite Hv'. apply Z.mod_small. lia.
Qed.

Lemma estimateDiv64To32_bounds fuel a0 a1 b :
  (2 < fuel)%nat -> 2 ^ 31 <= b < 2 ^ 32 -> 0 <= a0 < b -> is_u 32 a1 ->
  exists z, estimateDiv64To32 fuel a0 a1 b = Some z /\
    let q := (a0 * 2 ^ 32 + a1) / b in q <= z <= q + 2 /\ z < 2 ^ 32.
Proof.
  intros Hf Hb Ha0 Ha1. unfold is_u in Ha1. unfold estimateDiv64To32.
  destruct (Z.leb_spec b a0); [lia|]. rewrite shr_div by lia.
  set (A := a0 * 2 ^ 32 + a1) in *. set (b0 := b / 2 ^ 16) in *. set (b1 := b mod 2 ^ 16).
  assert (Eb : b = b0 * 2 ^ 16 + b1) by (unfold b0, b1; pose proof (Z.div_mod b (2 ^ 16)); lia).
  assert (Hb0 : 2 ^ 15 <= b0 < 2 ^ 16) by (unfold b0; dlia).
  assert (Hb1 : 0 <= b1 < 2 ^ 16) by (unfold b1; dlia).
  assert (Sh : u32 (b0 << 16) = b0 * 2 ^ 16) by (rewrite u32_shl by lia; rewrite Z.mod_small; lia).
  rewrite Sh.
  (* first digit *)
  assert (E16 : A / 2 ^ 16 / b = A / (b * 2 ^ 16)) by (rewrite Z.div_div by lia; f_equal; lia).
  assert (Ea0 : A / 2 ^ 16 / 2 ^ 16 = a0) by (unfold A; dlia).
  destruct (digit_estimate b0 b1 (A / 2 ^ 16) Hb0 Hb1) as [Hz Hz'];
    [rewrite <- Eb; split; [apply Z.div_pos; lia | apply Z.div_lt_upper_bound; lia]|].
  rewrite Ea0, <- Eb, E16 in *.
  set (zh := if b0 * 2 ^ 16 <=? a0 then 2 ^ 16 - 1 else a0 / b0) in *.
  replace (if b0 * 2 ^ 16 <=? a0 then 4294901760 else u32 ((a0 / b0) << 16)) with (zh * 2 ^ 16).
  2: { unfold zh in *. destruct (Z.leb_spec (b0 * 2 ^ 16) a0); [reflexivity|].
       rewrite u32_shl by lia. rewrite Z.mod_small; [reflexivity|].
       change (32 - 16) with 16. split; [apply Z.div_pos; lia | lia]. }
  pose proof (div_bounds A (b * 2 ^ 16) ltac:(lia)) as HqA.
  set (qh := A / (b * 2 ^ 16)) in *.
  assert (Hqh : 0 <= qh) by (apply Z.div_pos; lia).
  assert (Wz : is_u 32 (zh * 2 ^ 16)) by (unfold is_u; lia).
  destruct (mul32To64_val b (zh * 2 ^ 16) ltac:(unfold is_u; lia) Wz) as [Wm Em].
  destruct (mul32To64 b (zh * 2 ^ 16)) as [t0 t1].
  destruct (sub64_val a0 a1 t0 t1 ltac:(split; cbn; unfold is_u; lia) Wm) as [Ws Es].
  destruct (sub64 a0 a1 t0 t1) as [r0 r1]. rewrite Em in Es.
  destruct (estimateDiv_loop fuel A b b0 qh (Z.to_nat (zh - qh)) r0 r1)
    as (r0' & r1' & Hloop & Wr & Er); try assumption; try lia.
  { rewrite Z2Nat.id by lia. replace (qh + (zh - qh)) with zh by lia. exact Es. }
  rewrite Z2Nat.id in Hloop by lia. replace (qh + (zh - qh)) with zh in Hloop by lia.
  rewrite Hloop. eexists. split; [reflexivity|].
  (* second digit *)
  destruct Wr as [Wr0 Wr1]. unfold val64, is_u in *. cbn [fst snd] in *.
  set (R := A - b * (qh * 2 ^ 16)) in *.
  assert (Er' : u32 (r0' << 16) ||| (r1' >> 16) = R / 2 ^ 16).
  { rewrite u32_shl, shr_div by lia. change (32 - 16) with 16.
    pose proof (join_words r0' r1' 16 ltac:(lia) ltac:(unfold is_u; lia)) as J.
    change (32 - 16) with 16 in J. rewrite J.
    rewrite <- Er, div_two_words by lia. change (32 - 16) with 16.
    rewrite (Z.div_small r0' (2 ^ 16)) by lia. lia. }
  rewrite Er'. destruct (digit_estimate b0 b1 R Hb0 Hb1) as [Hy Hy']; [rewrite <- Eb; lia|].
  rewrite <- Eb in *. change 65535 with (2 ^ 16 - 1).
  set (y := if b0 * 2 ^ 16 <=? R / 2 ^ 16 then 2 ^ 16 - 1 else R / 2 ^ 16 / b0) in *.
  assert (0 <= R / b) by (apply Z.div_pos; lia).
  rewrite (lor_add _ y 16) by (lia || apply Z.mod_mul; lia).
  assert (EA : A / b = qh * 2 ^ 16 + R / b).
  { replace A with (qh * 2 ^ 16 * b + R) by (unfold R; lia). apply Z.div_add_l. lia. }
  rewrite EA. lia.
Qed.

(** ** Leading zeros *)

Lemma clz_table : forallb (fun i => (i <=? 0) ||
    (nth (Z.to_nat i) countLeadingZerosHigh 0 =? 7 - Z.log2 i)) (map Z.of_nat (seq 0 256)) = true.
Proof. vm_compute. reflexivity. Qed.

Lemma clz_table_eq i : 0 < i < 256 -> nth (Z.to_nat i) countLeadingZerosHigh 0 = 7 - Z.log2 i.
Proof.
  intros Hi. pose proof clz_table as H. rewrite forallb_forall in H.
  specialize (H i). apply Z.eqb_eq. rewrite <- H.
  - destruct (Z.leb_spec i 0); [lia | reflexivity].
  - rewrite <- (Z2Nat.id i) by lia. apply in_map, in_seq. lia.
Qed.

Lemma log2_div_pow2 a n : 0 <= n -> 2 ^ n <= a -> Z.log2 (a / 2 ^ n) = Z.log2 a - n.
Proof.
  intros Hn Ha. rewrite <- Z.shiftr_div_pow2, Z.log2_shiftr by (pose proof (pow2_pos n); lia).
  assert (n <= Z.log2 a) by (apply Z.log2_le_pow2; pose proof (pow2_pos n); lia). lia.
Qed.

Lemma countLeadingZeros32_log2 a : 0 < a < 2 ^ 32 -> countLeadingZeros32 a = 31 - Z.log2 a.
Proof.
  intros Ha. unfold countLeadingZeros32.
  change (s8 (0 + 16)) with 16. change (s8 (0 + 8)) with 8.
  assert (Fin : forall s x, 0 <= s <= 24 -> 2 ^ 24 <= x < 2 ^ 32 ->
    s8 (s + nth (Z.to_nat (x >> 24)) countLeadingZerosHigh 0) = s + (31 - Z.log2 x)).
  { intros s x Hs Hx. rewrite shr_div, clz_table_eq by (lia || dlia).
    rewrite log2_div_pow2 by lia.
    assert (24 <= Z.log2 x < 32) by (split; [apply Z.log2_le_pow2 | apply Z.log2_lt_pow2]; lia).
    rewrite s8_small by lia. lia. }
  assert (Sh : forall x n, 0 <= n -> 0 < x -> x * 2 ^ n < 2 ^ 32 ->
    u32 (x << n) = x * 2 ^ n /\ Z.log2 (x * 2 ^ n) = Z.log2 x + n).
  { intros x n Hn Hx Hlt. rewrite u32_mod, Z.shiftl_mul_pow2, Z.log2_mul_pow2 by lia.
    pose proof (pow2_pos n Hn). rewrite Z.mod_small by nia. lia. }
  destruct (Z.ltb_spec a 65536).
  - destruct (Sh a 16) as [-> L1]; try lia.
    destruct (Z.ltb_spec (a * 2 ^ 16) 16777216).
    + destruct (Sh (a * 2 ^ 16) 8) as [-> L2]; try lia. change (s8 (16 + 8)) with 24.
      rewrite Fin by lia. lia.
    + rewrite Fin by lia. lia.
  - destruct (Z.ltb_spec a 16777216).
    + destruct (Sh a 8) as [-> L2]; try lia. change (s8 (0 + 8)) with 8. rewrite Fin by lia. lia.
    + rewrite Fin by lia. lia.
Qed.

Lemma countLeadingZeros32_0 : countLeadingZeros32 0 = 32.
Proof. reflexivity. Qed.

(** Shifts that lose nothing. *)
Lemma u32_shl_small x k : 0 <= k -> 0 <= x -> x * 2 ^ k < 2 ^ 32 -> u32 (x << k) = x * 2 ^ k.
Proof. intros. rewrite u32_mod, Z.shiftl_mul_pow2 by lia. pose proof (pow2_pos k). apply Z.mod_small. nia. Qed.

Lemma shortShift64Left_val a0 a1 c : words64 (a0, a1) -> 0 <= c < 32 ->
  val64 (a0, a1) * 2 ^ c < 2 ^ 64 ->
  words64 (shortShift64Left a0 a1 c) /\
  val64 (shortShift64Left a0 a1 c) = val64 (a0, a1) * 2 ^ c.
Proof.
  intros [H0 H1] Hc Hb. cbn [fst snd] in *. unfold shortShift64Left, val64, words64 in *. cbn [fst snd] in *.
  pose proof (pow2_pos c ltac:(lia)). unfold is_u in H0, H1.
  destruct (Z.eqb_spec c 0) as [->|Hc0].
  { rewrite u32_shl by lia. change (32 - 0) with 32. rewrite Z.mod_small by lia.
    split; [split; [unfold is_u; lia | unfold is_u; lia] | lia]. }
  rewrite neg_count_lo by lia.
  assert (E32 : 2 ^ 32 = 2 ^ (32 - c) * 2 ^ c) by (rewrite <- Z.pow_add_r by lia; f_equal; lia).
  pose proof (pow2_pos (32 - c) ltac:(lia)).
  assert (Ha0 : a0 * 2 ^ c < 2 ^ 32) by nia.
  rewrite (u32_shl_small a0), (shr_div a1), u32_shl by lia.
  assert (Hd : 0 <= a1 / 2 ^ (32 - c) < 2 ^ c).
  { split; [apply Z.div_pos; lia | apply Z.div_lt_upper_bound; lia]. }
  rewrite (lor_add _ _ c) by (lia || (apply Z.mod_mul; lia)).
  pose proof (Z.div_mod a1 (2 ^ (32 - c)) ltac:(lia)) as D1.
  pose proof (Z.mod_pos_bound a1 (2 ^ (32 - c)) ltac:(lia)).
  set (q := a1 / 2 ^ (32 - c)) in *. set (r := a1 mod 2 ^ (32 - c)) in *.
  assert (Hs : a0 * 2 ^ c + q < 2 ^ 32) by nia.
  split; [split; unfold is_u; nia | nia].
Qed.
