(* ===== verification/Float32.v ===== *)
(** * Single-precision soft-float routines

    The [float32] part of newlib/libc/sys/tce/float_emulation.c.  A [float32] is its bit
    pattern, an unsigned 32-bit word.  A [flag] result is a [bool]; a [flag] argument such as a
    sign is 0 or 1.  Forward [goto]s to a shared tail are calls of a local function. *)

From S2P Require Import Prelude.
From S2P Require Import CInt.
From S2P Require Import FPState.
From S2P Require Import SoftFloatPrim.

Definition float32_default_nan : Z := 0xFFC00000.

(** Canonical NaN, [commonNaNT]. *)
Record commonNaNT : Type := mk_commonNaN { nan_sign : Z; nan_high : Z; nan_low : Z }.

(** ** NaNs *)

Definition float32_is_nan (a : Z) : bool := 0xFF000000 <? u32 (a << 1).

Definition float32_is_signaling_nan (a : Z) : bool :=
  (((a >> 22) &&& 0x1FF) =? 0x1FE) && truthy (a &&& 0x003FFFFF).

Definition float32ToCommonNaN (a : Z) : FP commonNaNT :=
  when_ (float32_is_signaling_nan a) (float_raise float_flag_invalid) ;;
  ret (mk_commonNaN (a >> 31) (u32 (a << 9)) 0).

Definition commonNaNToFloat32 (a : commonNaNT) : Z :=
  u32 (nan_sign a << 31) ||| 0x7FC00000 ||| (nan_high a >> 9).

Definition propagateFloat32NaN (a b : Z) : FP Z :=
  let aIsNaN := float32_is_nan a in
  let aIsSignalingNaN := float32_is_signaling_nan a in
  let bIsNaN := float32_is_nan b in
  let bIsSignalingNaN := float32_is_signaling_nan b in
  let a := a ||| 0x00400000 in
  let b := b ||| 0x00400000 in
  let returnLargerSignificand :=
    if u32 (a << 1) <? u32 (b << 1) then b
    else if u32 (b << 1) <? u32 (a << 1) then a
    else if a <? b then a else b in
  when_ (aIsSignalingNaN || bIsSignalingNaN) (float_raise float_flag_invalid) ;;
  ret (if aIsSignalingNaN then
         if bIsSignalingNaN then returnLargerSignificand
         else if bIsNaN then b else a
       else if aIsNaN then
         if bIsSignalingNaN || negb bIsNaN then a else returnLargerSignificand
       else b).

(** ** Fields *)

Definition extractFloat32Frac (a : Z) : Z := a &&& 0x007FFFFF.
Definition extractFloat32Exp (a : Z) : Z := (a >> 23) &&& 0xFF.
Definition extractFloat32Sign (a : Z) : Z := a >> 31.

(** Exponent and significand of a subnormal's significand, normalised. *)
Definition normalizeFloat32Subnormal (aSig : Z) : Z * Z :=
  let shiftCount := s8 (countLeadingZeros32 aSig - 8) in
  (s16 (1 - shiftCount), u32 (aSig << shiftCount)).

Definition packFloat32 (zSign zExp zSig : Z) : Z :=
  u32 (u32 (zSign << 31) + u32 (u32 zExp << 23) + zSig).

(** ** Rounding and packing *)

Definition roundIncrement32 (roundingMode zSign : Z) : Z :=
  if negb (roundingMode =? float_round_nearest_even) then
    if roundingMode =? float_round_to_zero then 0
    else if truthy zSign then (if roundingMode =? float_round_up then 0 else 0x7F)
    else (if roundingMode =? float_round_down then 0 else 0x7F)
  else 0x40.

(** The statements after the overflow and underflow tests. *)
Definition roundAndPackFloat32_tail (roundNearestEven : bool) (roundIncrement zSign zExp zSig : Z)
    (roundBits : Z) : FP Z :=
  when_ (truthy roundBits) (float_raise float_flag_inexact) ;;
  let zSig := u32 (zSig + roundIncrement) >> 7 in
  let zSig := zSig &&& u32 (Z.lnot (b2z (((roundBits ^^^ 0x40) =? 0) && roundNearestEven))) in
  let zExp := if zSig =? 0 then 0 else zExp in
  ret (packFloat32 zSign zExp zSig).

Definition roundAndPackFloat32 (zSign zExp zSig : Z) : FP Z :=
  let* roundingMode := get_mode in
  let roundNearestEven := roundingMode =? float_round_nearest_even in
  let roundIncrement := roundIncrement32 roundingMode zSign in
  let roundBits := zSig &&& 0x7F in
  let tail := roundAndPackFloat32_tail roundNearestEven roundIncrement zSign in
  if 0xFD <=? u16 zExp then
    if (0xFD <? zExp) || ((zExp =? 0xFD) && (s32 (u32 (zSig + roundIncrement)) <? 0)) then
      float_raise (float_flag_overflow ||| float_flag_inexact) ;;
      ret (u32 (packFloat32 zSign 0xFF 0 - b2z (roundIncrement =? 0)))
    else if zExp <? 0 then
      let* float_detect_tininess := get_tininess in
      let isTiny := (float_detect_tininess =? float_tininess_before_rounding)
                    || (zExp <? -1) || (u32 (zSig + roundIncrement) <? 0x80000000) in
      let zSig := shift32RightJamming zSig (s16 (- zExp)) in
      let roundBits := zSig &&& 0x7F in
      when_ (isTiny && truthy roundBits) (float_raise float_flag_underflow) ;;
      tail 0 zSig roundBits
    else tail zExp zSig roundBits
  else tail zExp zSig roundBits.

Definition normalizeRoundAndPackFloat32 (zSign zExp zSig : Z) : FP Z :=
  let shiftCount := s8 (countLeadingZeros32 zSig - 1) in
  roundAndPackFloat32 zSign (s16 (zExp - shiftCount)) (u32 (zSig << shiftCount)).

(** ** Conversions with integers *)

Definition int32_to_float32 (a : Z) : FP Z :=
  if a =? 0 then ret 0
  else if a =? s32 0x80000000 then ret (packFloat32 1 0x9E 0)
  else
    let zSign := b2z (a <? 0) in
    normalizeRoundAndPackFloat32 zSign 0x9C (u32 (if truthy zSign then s32 (- a) else a)).

Definition uint32_to_float32 (a : Z) : FP Z :=
  if a =? 0 then ret 0
  else
    let zSign := 0 in
    let zExp := 0x9C in
    let zSig := a >> 1 in
    let shiftCount := s8 (countLeadingZeros32 zSig - 2) in
    if 0 <=? shiftCount then
      roundAndPackFloat32 zSign (s16 (zExp - shiftCount)) (u32 (a << shiftCount))
    else roundAndPackFloat32 zSign (s16 (zExp - shiftCount)) (a >> (- shiftCount)).

Definition float32_to_int32 (a : Z) : FP Z :=
  let aSig := extractFloat32Frac a in
  let aExp := extractFloat32Exp a in
  let aSign := extractFloat32Sign a in
  let shiftCount := s16 (aExp - 0x96) in
  if 0 <=? shiftCount then
    if 0x9E <=? aExp then
      if negb (a =? 0xCF000000) then
        float_raise float_flag_invalid ;;
        if negb (truthy aSign) || ((aExp =? 0xFF) && truthy aSig) then ret 0x7FFFFFFF
        else ret (s32 0x80000000)
      else ret (s32 0x80000000)
    else
      let z := s32 (u32 ((aSig ||| 0x00800000) << shiftCount)) in
      ret (if truthy aSign then s32 (- z) else z)
  else
    let '(aSigExtra, z) :=
      if aExp <? 0x7E then (aExp ||| aSig, 0)
      else
        let aSig := aSig ||| 0x00800000 in
        (u32 (aSig << (shiftCount &&& 31)), s32 (aSig >> (- shiftCount))) in
    when_ (truthy aSigExtra) (float_raise float_flag_inexact) ;;
    let* roundingMode := get_mode in
    if roundingMode =? float_round_nearest_even then
      let z :=
        if s32 aSigExtra <? 0 then
          let z := s32 (z + 1) in
          if u32 (aSigExtra << 1) =? 0 then z &&& Z.lnot 1 else z
        else z in
      ret (if truthy aSign then s32 (- z) else z)
    else
      let aSigExtra := b2z (truthy aSigExtra) in
      if truthy aSign then
        let z := s32 (z + (b2z (roundingMode =? float_round_down) &&& aSigExtra)) in
        ret (s32 (- z))
      else ret (s32 (z + (b2z (roundingMode =? float_round_up) &&& aSigExtra))).

Definition float32_to_int32_round_to_zero (a : Z) : FP Z :=
  let aSig := extractFloat32Frac a in
  let aExp := extractFloat32Exp a in
  let aSign := extractFloat32Sign a in
  let shiftCount := s16 (aExp - 0x9E) in
  if 0 <=? shiftCount then
    if negb (a =? 0xCF000000) then
      float_raise float_flag_invalid ;;
      if negb (truthy aSign) || ((aExp =? 0xFF) && truthy aSig) then ret (s32 0x80000000)
      else ret (s32 0x80000000)
    else ret (s32 0x80000000)
  else if aExp <=? 0x7E then
    when_ (truthy (aExp ||| aSig)) (float_raise float_flag_inexact) ;;
    ret 0
  else
    let aSig := u32 ((aSig ||| 0x00800000) << 8) in
    let z := s32 (aSig >> (- shiftCount)) in
    when_ (truthy (u32 (aSig << (shiftCount &&& 31)))) (float_raise float_flag_inexact) ;;
    ret (if truthy aSign then s32 (- z) else z).

Definition float32_to_uint32 (a : Z) : FP Z :=
  let aSig := extractFloat32Frac a in
  let aExp := extractFloat32Exp a in
  let aSign := extractFloat32Sign a in
  let shiftCount := s16 (aExp - 0x9E) in
  if 0 <? shiftCount then ret 0
  else if aExp <=? 0x7E then
    when_ (truthy (aExp ||| aSig)) (float_raise float_flag_inexact) ;;
    ret 0
  else
    let aSig := u32 ((aSig ||| 0x00800000) << 8) in
    let z := s32 (aSig >> (- shiftCount)) in
    when_ (truthy (u32 (aSig << (shiftCount &&& 31)))) (float_raise float_flag_inexact) ;;
    ret (if truthy aSign then s32 (- z) else z).

Definition float32_round_to_int (a : Z) : FP Z :=
  let aExp := extractFloat32Exp a in
  if 0x96 <=? aExp then
    if (aExp =? 0xFF) && truthy (extractFloat32Frac a) then propagateFloat32NaN a a
    else ret a
  else if aExp <=? 0x7E then
    if u32 (a << 1) =? 0 then ret a
    else
      float_raise float_flag_inexact ;;
      let aSign := extractFloat32Sign a in
      let* mode := get_mode in
      ret (if mode =? float_round_nearest_even then
             if (aExp =? 0x7E) && truthy (extractFloat32Frac a) then packFloat32 aSign 0x7F 0
             else packFloat32 aSign 0 0
           else if mode =? float_round_down then (if truthy aSign then 0xBF800000 else 0)
           else if mode =? float_round_up then (if truthy aSign then 0x80000000 else 0x3F800000)
           else packFloat32 aSign 0 0)
  else
    let lastBitMask := u32 (1 << (0x96 - aExp)) in
    let roundBitsMask := u32 (lastBitMask - 1) in
    let* roundingMode := get_mode in
    let z :=
      if roundingMode =? float_round_nearest_even then
        let z := u32 (a + (lastBitMask >> 1)) in
        if (z &&& roundBitsMask) =? 0 then z &&& u32 (Z.lnot lastBitMask) else z
      else if negb (roundingMode =? float_round_to_zero) then
        if xorb (truthy (extractFloat32Sign a)) (roundingMode =? float_round_up)
        then u32 (a + roundBitsMask) else a
      else a in
    let z := z &&& u32 (Z.lnot roundBitsMask) in
    when_ (negb (z =? a)) (float_raise float_flag_inexact) ;;
    ret z.

(** ** Addition and subtraction *)

(** The statements of [addFloat32Sigs] from [aSig |= 0x20000000] on. *)
Definition addFloat32Sigs_tail (aSig bSig zExp zSign : Z) : FP Z :=
  let aSig := aSig ||| 0x20000000 in
  let zSig := u32 (u32 (aSig + bSig) << 1) in
  let zExp := s16 (zExp - 1) in
  let '(zSig, zExp) :=
    if s32 zSig <? 0 then (u32 (aSig + bSig), s16 (zExp + 1)) else (zSig, zExp) in
  roundAndPackFloat32 zSign zExp zSig.

Definition addFloat32Sigs (a b zSign : Z) : FP Z :=
  let aSig := extractFloat32Frac a in
  let aExp := extractFloat32Exp a in
  let bSig := extractFloat32Frac b in
  let bExp := extractFloat32Exp b in
  let expDiff := s16 (aExp - bExp) in
  let aSig := u32 (aSig << 6) in
  let bSig := u32 (bSig << 6) in
  if 0 <? expDiff then
    if aExp =? 0xFF then (if truthy aSig then propagateFloat32NaN a b else ret a)
    else
      let '(expDiff, bSig) :=
        if bExp =? 0 then (s16 (expDiff - 1), bSig) else (expDiff, bSig ||| 0x20000000) in
      let bSig := shift32RightJamming bSig expDiff in
      addFloat32Sigs_tail aSig bSig aExp zSign
  else if expDiff <? 0 then
    if bExp =? 0xFF then
      (if truthy bSig then propagateFloat32NaN a b else ret (packFloat32 zSign 0xFF 0))
    else
      let '(expDiff, aSig) :=
        if aExp =? 0 then (s16 (expDiff + 1), aSig) else (expDiff, aSig ||| 0x20000000) in
      let aSig := shift32RightJamming aSig (s16 (- expDiff)) in
      addFloat32Sigs_tail aSig bSig bExp zSign
  else
    if aExp =? 0xFF then
      (if truthy (aSig ||| bSig) then propagateFloat32NaN a b else ret a)
    else if aExp =? 0 then ret (packFloat32 zSign 0 (u32 (aSig + bSig) >> 6))
    else roundAndPackFloat32 zSign aExp (u32 (0x40000000 + aSig + bSig)).

Definition subFloat32Sigs (a b zSign : Z) : FP Z :=
  let aSig := extractFloat32Frac a in
  let aExp := extractFloat32Exp a in
  let bSig := extractFloat32Frac b in
  let bExp := extractFloat32Exp b in
  let expDiff := s16 (aExp - bExp) in
  let aSig := u32 (aSig << 7) in
  let bSig := u32 (bSig << 7) in
  let normalizeRoundAndPack (zSign zExp zSig : Z) :=
    normalizeRoundAndPackFloat32 zSign (s16 (zExp - 1)) zSig in
  let bBigger (aSig bSig bExp : Z) :=
    normalizeRoundAndPack (zSign ^^^ 1) bExp (u32 (bSig - aSig)) in
  let aBigger (aSig bSig aExp : Z) :=
    normalizeRoundAndPack zSign aExp (u32 (aSig - bSig)) in
  if 0 <? expDiff then
    (* aExpBigger *)
    if aExp =? 0xFF then (if truthy aSig then propagateFloat32NaN a b else ret a)
    else
      let '(expDiff, bSig) :=
        if bExp =? 0 then (s16 (expDiff - 1), bSig) else (expDiff, bSig ||| 0x40000000) in
      let bSig := shift32RightJamming bSig expDiff in
      let aSig := aSig ||| 0x40000000 in
      aBigger aSig bSig aExp
  else if expDiff <? 0 then
    (* bExpBigger *)
    if bExp =? 0xFF then
      (if truthy bSig then propagateFloat32NaN a b else ret (packFloat32 (zSign ^^^ 1) 0xFF 0))
    else
      let '(expDiff, aSig) :=
        if aExp =? 0 then (s16 (expDiff + 1), aSig) else (expDiff, aSig ||| 0x40000000) in
      let aSig := shift32RightJamming aSig (s16 (- expDiff)) in
      let bSig := bSig ||| 0x40000000 in
      bBigger aSig bSig bExp
  else
    if aExp =? 0xFF then
      if truthy (aSig ||| bSig) then propagateFloat32NaN a b
      else float_raise float_flag_invalid ;; ret float32_default_nan
    else
      let '(aExp, bExp) := if aExp =? 0 then (1, 1) else (aExp, bExp) in
      if bSig <? aSig then aBigger aSig bSig aExp
      else if aSig <? bSig then bBigger aSig bSig bExp
      else let* mode := get_mode in
           ret (packFloat32 (b2z (mode =? float_round_down)) 0 0).

Definition float32_add (a b : Z) : FP Z :=
  let aSign := extractFloat32Sign a in
  let bSign := extractFloat32Sign b in
  if aSign =? bSign then addFloat32Sigs a b aSign else subFloat32Sigs a b aSign.

Definition float32_sub (a b : Z) : FP Z :=
  let aSign := extractFloat32Sign a in
  let bSign := extractFloat32Sign b in
  if aSign =? bSign then subFloat32Sigs a b aSign else addFloat32Sigs a b aSign.

(** ** Multiplication *)

(** The statements of [float32_mul] on two normalised finite operands. *)
Definition float32_mul_tail (zSign aExp aSig bExp bSig : Z) : FP Z :=
  let zExp := s16 (aExp + bExp - 0x7F) in
  let aSig := u32 ((aSig ||| 0x00800000) << 7) in
  let bSig := u32 ((bSig ||| 0x00800000) << 8) in
  let '(zSig0, zSig1) := mul32To64 aSig bSig in
  let zSig0 := zSig0 ||| b2z (truthy zSig1) in
  let '(zSig0, zExp) :=
    if 0 <=? s32 (u32 (zSig0 << 1)) then (u32 (zSig0 << 1), s16 (zExp - 1)) else (zSig0, zExp) in
  roundAndPackFloat32 zSign zExp zSig0.

Definition float32_mul (a b : Z) : FP Z :=
  let aSig := extractFloat32Frac a in
  let aExp := extractFloat32Exp a in
  let aSign := extractFloat32Sign a in
  let bSig := extractFloat32Frac b in
  let bExp := extractFloat32Exp b in
  let bSign := extractFloat32Sign b in
  let zSign := aSign ^^^ bSign in
  if aExp =? 0xFF then
    if truthy aSig || ((bExp =? 0xFF) && truthy bSig) then propagateFloat32NaN a b
    else if (bExp ||| bSig) =? 0 then
      float_raise float_flag_invalid ;; ret float32_default_nan
    else ret (packFloat32 zSign 0xFF 0)
  else if bExp =? 0xFF then
    if truthy bSig then propagateFloat32NaN a b
    else if (aExp ||| aSig) =? 0 then
      float_raise float_flag_invalid ;; ret float32_default_nan
    else ret (packFloat32 zSign 0xFF 0)
  else if (aExp =? 0) && (aSig =? 0) then ret (packFloat32 zSign 0 0)
  else
    let '(aExp, aSig) := if aExp =? 0 then normalizeFloat32Subnormal aSig else (aExp, aSig) in
    if (bExp =? 0) && (bSig =? 0) then ret (packFloat32 zSign 0 0)
    else
      let '(bExp, bSig) := if bExp =? 0 then normalizeFloat32Subnormal bSig else (bExp, bSig) in
      float32_mul_tail zSign aExp aSig bExp bSig.

(** ** Division *)

(** [while ((sbits32) rem0 < 0) { --zSig; add64(rem0, rem1, 0, bSig); }] *)
Definition float32_div_body (bSig : Z) (s : Z * Z * Z) : Z * Z * Z :=
  let '(zSig, rem0, rem1) := s in
  let zSig := u32 (zSig - 1) in
  let '(rem0, rem1) := add64 rem0 rem1 0 bSig in
  (zSig, rem0, rem1).

(** The quotient significand of two normalised significands. *)
Definition float32_div_sig (fuel : nat) (aSig bSig : Z) : option Z :=
  match estimateDiv64To32 fuel aSig 0 bSig with
  | None => None
  | Some zSig =>
    if (zSig &&& 0x3F) <=? 2 then
      let '(term0, term1) := mul32To64 bSig zSig in
      let '(rem0, rem1) := sub64 aSig 0 term0 term1 in
      match while fuel (fun s => s32 (snd (fst s)) <? 0) (float32_div_body bSig)
              (zSig, rem0, rem1) with
      | None => None
      | Some (zSig, rem0, rem1) => Some (zSig ||| b2z (truthy rem1))
      end
    else Some zSig
  end.

Definition float32_div_tail (fuel : nat) (zSign aExp aSig bExp bSig : Z) : FP Z :=
  let zExp := s16 (aExp - bExp + 0x7D) in
  let aSig := u32 ((aSig ||| 0x00800000) << 7) in
  let bSig := u32 ((bSig ||| 0x00800000) << 8) in
  let '(aSig, zExp) :=
    if bSig <=? u32 (aSig + aSig) then (aSig >> 1, s16 (zExp + 1)) else (aSig, zExp) in
  let* zSig := lift (float32_div_sig fuel aSig bSig) in
  roundAndPackFloat32 zSign zExp zSig.

Definition float32_div (fuel : nat) (a b : Z) : FP Z :=
  let aSig := extractFloat32Frac a in
  let aExp := extractFloat32Exp a in
  let aSign := extractFloat32Sign a in
  let bSig := extractFloat32Frac b in
  let bExp := extractFloat32Exp b in
  let bSign := extractFloat32Sign b in
  let zSign := aSign ^^^ bSign in
  if aExp =? 0xFF then
    if truthy aSig then propagateFloat32NaN a b
    else if bExp =? 0xFF then
      if truthy bSig then propagateFloat32NaN a b
      else float_raise float_flag_invalid ;; ret float32_default_nan
    else ret (packFloat32 zSign 0xFF 0)
  else if bExp =? 0xFF then
    if truthy bSig then propagateFloat32NaN a b else ret (packFloat32 zSign 0 0)
  else if (bExp =? 0) && (bSig =? 0) then
    if (aExp ||| aSig) =? 0 then
      float_raise float_flag_invalid ;; ret float32_default_nan
    else float_raise float_flag_divbyzero ;; ret (packFloat32 zSign 0xFF 0)
  else
    let '(bExp, bSig) := if bExp =? 0 then normalizeFloat32Subnormal bSig else (bExp, bSig) in
    if (aExp =? 0) && (aSig =? 0) then ret (packFloat32 zSign 0 0)
    else
      let '(aExp, aSig) := if aExp =? 0 then normalizeFloat32Subnormal aSig else (aExp, aSig) in
      float32_div_tail fuel zSign aExp aSig bExp bSig.

(** ** Remainder *)

(** [while (0 < expDiff)]: thirty quotient bits per round. *)
Definition float32_rem_body (fuel : nat) (bSig : Z) (s : Z * Z * Z) : option (Z * Z * Z) :=
  let '(q, aSig, expDiff) := s in
  match estimateDiv64To32 fuel aSig 0 bSig with
  | None => None
  | Some q =>
    let q := if 2 <? q then u32 (q - 2) else 0 in
    Some (q, u32 (- u32 ((bSig >> 2) * q)), s16 (expDiff - 30))
  end.

(** [do { alternateASig = aSig; ++q; aSig -= bSig; } while (0 <= (sbits32) aSig)] *)
Definition float32_rem_sub (bSig : Z) (s : Z * Z * Z) : Z * Z * Z :=
  let '(q, aSig, alternateASig) := s in (u32 (q + 1), u32 (aSig - bSig), aSig).

Definition float32_rem_tail (fuel : nat) (aSign aExp aSig bExp bSig expDiff : Z) : FP Z :=
  let q := b2z (bSig <=? aSig) in
  let aSig := if truthy q then u32 (aSig - bSig) else aSig in
  let expDiff := s16 (expDiff - 32) in
  let* (q, aSig, expDiff) :=
    lift (while_opt fuel (fun s => 0 <? snd s) (float32_rem_body fuel bSig) (q, aSig, expDiff)) in
  let expDiff := s16 (expDiff + 32) in
  let* (q, aSig, bSig) :=
    lift (if 0 <? expDiff then
            match estimateDiv64To32 fuel aSig 0 bSig with
            | None => None
            | Some q =>
              let q := if 2 <? q then u32 (q - 2) else 0 in
              let q := q >> (32 - expDiff) in
              let bSig := bSig >> 2 in
              Some (q, u32 (u32 ((aSig >> 1) << (expDiff - 1)) - u32 (bSig * q)), bSig)
            end
          else Some (q, aSig >> 2, bSig >> 2)) in
  let* (q, aSig, alternateASig) :=
    lift (do_while fuel (float32_rem_sub bSig) (fun s => 0 <=? s32 (snd (fst s))) (q, aSig, 0)) in
  let sigMean := s32 (u32 (aSig + alternateASig)) in
  let aSig :=
    if (sigMean <? 0) || ((sigMean =? 0) && truthy (q &&& 1)) then alternateASig else aSig in
  let zSign := b2z (s32 aSig <? 0) in
  let aSig := if truthy zSign then u32 (- aSig) else aSig in
  normalizeRoundAndPackFloat32 (aSign ^^^ zSign) bExp aSig.

Definition float32_rem (fuel : nat) (a b : Z) : FP Z :=
  let aSig := extractFloat32Frac a in
  let aExp := extractFloat32Exp a in
  let aSign := extractFloat32Sign a in
  let bSig := extractFloat32Frac b in
  let bExp := extractFloat32Exp b in
  if aExp =? 0xFF then
    if truthy aSig || ((bExp =? 0xFF) && truthy bSig) then propagateFloat32NaN a b
    else float_raise float_flag_invalid ;; ret float32_default_nan
  else if bExp =? 0xFF then
    if truthy bSig then propagateFloat32NaN a b else ret a
  else if (bExp =? 0) && (bSig =? 0) then
    float_raise float_flag_invalid ;; ret float32_default_nan
  else
    let '(bExp, bSig) := if bExp =? 0 then normalizeFloat32Subnormal bSig else (bExp, bSig) in
    if (aExp =? 0) && (aSig =? 0) then ret a
    else
      let '(aExp, aSig) := if aExp =? 0 then normalizeFloat32Subnormal aSig else (aExp, aSig) in
      let expDiff := s16 (aExp - bExp) in
      let aSig := u32 ((aSig ||| 0x00800000) << 8) in
      let bSig := u32 ((bSig ||| 0x00800000) << 8) in
      if expDiff <? 0 then
        if expDiff <? -1 then ret a
        else float32_rem_tail fuel aSign aExp (aSig >> 1) bExp bSig expDiff
      else float32_rem_tail fuel aSign aExp aSig bExp bSig expDiff.

(** ** Square root *)

(** [while ((sbits32) rem0 < 0) { --zSig; rem += 2 * zSig + 1; }] *)
Definition float32_sqrt_body (s : Z * Z * Z) : Z * Z * Z :=
  let '(zSig, rem0, rem1) := s in
  let zSig := u32 (zSig - 1) in
  let '(term0, term1) := shortShift64Left 0 zSig 1 in
  let term1 := term1 ||| 1 in
  let '(rem0, rem1) := add64 rem0 rem1 term0 term1 in
  (zSig, rem0, rem1).

(** The root's significand, before rounding. *)
Definition float32_sqrt_sig (fuel : nat) (aExp aSig : Z) : option Z :=
  match estimateSqrt32 fuel aExp aSig with
  | None => None
  | Some e =>
    let zSig := u32 (e + 2) in
    if (zSig &&& 0x7F) <=? 5 then
      if zSig <? 2 then Some 0x7FFFFFFF
      else
        let aSig := aSig >> (aExp &&& 1) in
        let '(term0, term1) := mul32To64 zSig zSig in
        let '(rem0, rem1) := sub64 aSig 0 term0 term1 in
        match while fuel (fun s => s32 (snd (fst s)) <? 0) float32_sqrt_body (zSig, rem0, rem1) with
        | None => None
        | Some (zSig, rem0, rem1) =>
          Some (shift32RightJamming (zSig ||| b2z (truthy (rem0 ||| rem1))) 1)
        end
    else Some (shift32RightJamming zSig 1)
  end.

Definition float32_sqrt (fuel : nat) (a : Z) : FP Z :=
  let aSig := extractFloat32Frac a in
  let aExp := extractFloat32Exp a in
  let aSign := extractFloat32Sign a in
  if aExp =? 0xFF then
    if truthy aSig then propagateFloat32NaN a 0
    else if negb (truthy aSign) then ret a
    else float_raise float_flag_invalid ;; ret float32_default_nan
  else if truthy aSign then
    if (aExp ||| aSig) =? 0 then ret a
    else float_raise float_flag_invalid ;; ret float32_default_nan
  else if (aExp =? 0) && (aSig =? 0) then ret 0
  else
    let '(aExp, aSig) := if aExp =? 0 then normalizeFloat32Subnormal aSig else (aExp, aSig) in
    let zExp := s16 (((aExp - 0x7F) >> 1) + 0x7E) in
    let aSig := u32 ((aSig ||| 0x00800000) << 8) in
    let* zSig := lift (float32_sqrt_sig fuel aExp aSig) in
    roundAndPackFloat32 0 zExp zSig.

(** ** Comparisons *)

(** [((extractFloat32Exp(a) == 0xFF) && extractFloat32Frac(a))], for either operand. *)
Definition float32_unordered (a b : Z) : bool :=
  ((extractFloat32Exp a =? 0xFF) && truthy (extractFloat32Frac a))
  || ((extractFloat32Exp b =? 0xFF) && truthy (extractFloat32Frac b)).

Definition float32_eq_result (a b : Z) : bool := (a =? b) || (u32 ((a ||| b) << 1) =? 0).

Definition float32_le_result (a b : Z) : bool :=
  let aSign := extractFloat32Sign a in
  let bSign := extractFloat32Sign b in
  if negb (aSign =? bSign) then truthy aSign || (u32 ((a ||| b) << 1) =? 0)
  else (a =? b) || xorb (truthy aSign) (a <? b).

Definition float32_lt_result (a b : Z) : bool :=
  let aSign := extractFloat32Sign a in
  let bSign := extractFloat32Sign b in
  if negb (aSign =? bSign) then truthy aSign && negb (u32 ((a ||| b) << 1) =? 0)
  else negb (a =? b) && xorb (truthy aSign) (a <? b).

(** The two treatments of NaN operands. *)
Definition float32_compare_signaling (r : Z -> Z -> bool) (a b : Z) : FP bool :=
  if float32_unordered a b then float_raise float_flag_invalid ;; ret false else ret (r a b).

Definition float32_compare_quiet (r : Z -> Z -> bool) (a b : Z) : FP bool :=
  if float32_unordered a b then
    when_ (float32_is_signaling_nan a || float32_is_signaling_nan b)
      (float_raise float_flag_invalid) ;;
    ret false
  else ret (r a b).

Definition float32_eq : Z -> Z -> FP bool := float32_compare_quiet float32_eq_result.
Definition float32_le : Z -> Z -> FP bool := float32_compare_signaling float32_le_result.
Definition float32_lt : Z -> Z -> FP bool := float32_compare_signaling float32_lt_result.
Definition float32_eq_signaling : Z -> Z -> FP bool := float32_compare_signaling float32_eq_result.
Definition float32_le_quiet : Z -> Z -> FP bool := float32_compare_quiet float32_le_result.
Definition float32_lt_quiet : Z -> Z -> FP bool := float32_compare_quiet float32_lt_result.
