(* ===== verification/Float64.v ===== *)
(** * Double-precision soft-float routines

    The [float64] part of newlib/libc/sys/tce/float_emulation.c.  A [float64] is the C structure
    of two 32-bit words.  Extended significands are two or three words, most significant first. *)

From S2P Require Import Prelude.
From S2P Require Import CInt.
From S2P Require Import FPState.
From S2P Require Import SoftFloatPrim.
From S2P Require Import Float32.

(** The structure of softfloat.h. *)
Record float64 : Type := mk_float64 { high : Z; low : Z }.

Definition float64_default_nan_high : Z := 0xFFF80000.
Definition float64_default_nan_low : Z := 0x00000000.
Definition float64_default_nan : float64 := mk_float64 float64_default_nan_high float64_default_nan_low.

(** ** NaNs *)

Definition float64_is_nan (a : float64) : bool :=
  (0xFFE00000 <=? u32 (high a << 1)) && (truthy (low a) || truthy (high a &&& 0x000FFFFF)).

Definition float64_is_signaling_nan (a : float64) : bool :=
  (((high a >> 19) &&& 0xFFF) =? 0xFFE) && (truthy (low a) || truthy (high a &&& 0x0007FFFF)).

Definition float64ToCommonNaN (a : float64) : FP commonNaNT :=
  when_ (float64_is_signaling_nan a) (float_raise float_flag_invalid) ;;
  let '(zhigh, zlow) := shortShift64Left (high a) (low a) 12 in
  ret (mk_commonNaN (high a >> 31) zhigh zlow).

Definition commonNaNToFloat64 (a : commonNaNT) : float64 :=
  let '(zhigh, zlow) := shift64Right (nan_high a) (nan_low a) 12 in
  mk_float64 (zhigh ||| (u32 (nan_sign a << 31) ||| 0x7FF80000)) zlow.

Definition propagateFloat64NaN (a b : float64) : FP float64 :=
  let aIsNaN := float64_is_nan a in
  let aIsSignalingNaN := float64_is_signaling_nan a in
  let bIsNaN := float64_is_nan b in
  let bIsSignalingNaN := float64_is_signaling_nan b in
  let a := mk_float64 (high a ||| 0x00080000) (low a) in
  let b := mk_float64 (high b ||| 0x00080000) (low b) in
  let returnLargerSignificand :=
    if lt64 (u32 (high a << 1)) (low a) (u32 (high b << 1)) (low b) then b
    else if lt64 (u32 (high b << 1)) (low b) (u32 (high a << 1)) (low a) then a
    else if high a <? high b then a else b in
  when_ (aIsSignalingNaN || bIsSignalingNaN) (float_raise float_flag_invalid) ;;
  ret (if aIsSignalingNaN then
         if bIsSignalingNaN then returnLargerSignificand
         else if bIsNaN then b else a
       else if aIsNaN then
         if bIsSignalingNaN || negb bIsNaN then a else returnLargerSignificand
       else b).

(** ** Fields *)

Definition extractFloat64Frac1 (a : float64) : Z := low a.
Definition extractFloat64Frac0 (a : float64) : Z := high a &&& 0x000FFFFF.
Definition extractFloat64Exp (a : float64) : Z := (high a >> 20) &&& 0x7FF.
Definition extractFloat64Sign (a : float64) : Z := high a >> 31.

Definition normalizeFloat64Subnormal (aSig0 aSig1 : Z) : Z * Z * Z :=
  if aSig0 =? 0 then
    let shiftCount := s8 (countLeadingZeros32 aSig1 - 11) in
    let '(zSig0, zSig1) :=
      if shiftCount <? 0 then (aSig1 >> (- shiftCount), u32 (aSig1 << (shiftCount &&& 31)))
      else (u32 (aSig1 << shiftCount), 0) in
    (s16 (- shiftCount - 31), zSig0, zSig1)
  else
    let shiftCount := s8 (countLeadingZeros32 aSig0 - 11) in
    let '(zSig0, zSig1) := shortShift64Left aSig0 aSig1 shiftCount in
    (s16 (1 - shiftCount), zSig0, zSig1).

Definition packFloat64 (zSign zExp zSig0 zSig1 : Z) : float64 :=
  mk_float64 (u32 (u32 (zSign << 31) + u32 (u32 zExp << 20) + zSig0)) zSig1.

(** ** Rounding and packing *)

(** The increment decision, made before and again after denormalising. *)
Definition roundIncrement64 (roundingMode zSign zSig2 : Z) : bool :=
  if negb (roundingMode =? float_round_nearest_even) then
    if roundingMode =? float_round_to_zero then false
    else if truthy zSign then (roundingMode =? float_round_down) && truthy zSig2
    else (roundingMode =? float_round_up) && truthy zSig2
  else s32 zSig2 <? 0.

(** The statements after the overflow and underflow tests. *)
Definition roundAndPackFloat64_tail (roundNearestEven increment : bool)
    (zSign zExp zSig0 zSig1 zSig2 : Z) : FP float64 :=
  when_ (truthy zSig2) (float_raise float_flag_inexact) ;;
  let '(zSig0, zSig1, zExp) :=
    if increment then
      let '(zSig0, zSig1) := add64 zSig0 zSig1 0 1 in
      (zSig0, zSig1 &&& u32 (Z.lnot (b2z ((u32 (zSig2 + zSig2) =? 0) && roundNearestEven))), zExp)
    else (zSig0, zSig1, if (zSig0 ||| zSig1) =? 0 then 0 else zExp) in
  ret (packFloat64 zSign zExp zSig0 zSig1).

Definition roundAndPackFloat64 (zSign zExp zSig0 zSig1 zSig2 : Z) : FP float64 :=
  let* roundingMode := get_mode in
  let roundNearestEven := roundingMode =? float_round_nearest_even in
  let increment := roundIncrement64 roundingMode zSign zSig2 in
  if 0x7FD <=? u16 zExp then
    if (0x7FD <? zExp)
       || ((zExp =? 0x7FD) && eq64 0x001FFFFF 0xFFFFFFFF zSig0 zSig1 && increment) then
      float_raise (float_flag_overflow ||| float_flag_inexact) ;;
      if (roundingMode =? float_round_to_zero)
         || (truthy zSign && (roundingMode =? float_round_up))
         || (negb (truthy zSign) && (roundingMode =? float_round_down))
      then ret (packFloat64 zSign 0x7FE 0x000FFFFF 0xFFFFFFFF)
      else ret (packFloat64 zSign 0x7FF 0 0)
    else if zExp <? 0 then
      let* float_detect_tininess := get_tininess in
      let isTiny := (float_detect_tininess =? float_tininess_before_rounding)
                    || (zExp <? -1) || negb increment
                    || lt64 zSig0 zSig1 0x001FFFFF 0xFFFFFFFF in
      let '(zSig0, zSig1, zSig2) := shift64ExtraRightJamming zSig0 zSig1 zSig2 (s16 (- zExp)) in
      when_ (isTiny && truthy zSig2) (float_raise float_flag_underflow) ;;
      let increment :=
        if roundNearestEven then s32 zSig2 <? 0
        else if truthy zSign then (roundingMode =? float_round_down) && truthy zSig2
        else (roundingMode =? float_round_up) && truthy zSig2 in
      roundAndPackFloat64_tail roundNearestEven increment zSign 0 zSig0 zSig1 zSig2
    else roundAndPackFloat64_tail roundNearestEven increment zSign zExp zSig0 zSig1 zSig2
  else roundAndPackFloat64_tail roundNearestEven increment zSign zExp zSig0 zSig1 zSig2.

Definition normalizeRoundAndPackFloat64 (zSign zExp zSig0 zSig1 : Z) : FP float64 :=
  let '(zSig0, zSig1, zExp) :=
    if zSig0 =? 0 then (zSig1, 0, s16 (zExp - 32)) else (zSig0, zSig1, zExp) in
  let shiftCount := s8 (countLeadingZeros32 zSig0 - 11) in
  let '(zSig0, zSig1, zSig2) :=
    if 0 <=? shiftCount then
      let '(zSig0, zSig1) := shortShift64Left zSig0 zSig1 shiftCount in (zSig0, zSig1, 0)
    else shift64ExtraRightJamming zSig0 zSig1 0 (- shiftCount) in
  roundAndPackFloat64 zSign (s16 (zExp - shiftCount)) zSig0 zSig1 zSig2.

(** ** Conversions *)

Definition int32_to_float64 (a : Z) : float64 :=
  if a =? 0 then packFloat64 0 0 0 0
  else
    let zSign := b2z (a <? 0) in
    let absA := u32 (if truthy zSign then s32 (- a) else a) in
    let shiftCount := s8 (countLeadingZeros32 absA - 11) in
    let '(zSig0, zSig1) :=
      if 0 <=? shiftCount then (u32 (absA << shiftCount), 0)
      else shift64Right absA 0 (- shiftCount) in
    packFloat64 zSign (s16 (0x412 - shiftCount)) zSig0 zSig1.

Definition float32_to_float64 (a : Z) : FP float64 :=
  let aSig := extractFloat32Frac a in
  let aExp := extractFloat32Exp a in
  let aSign := extractFloat32Sign a in
  if aExp =? 0xFF then
    if truthy aSig then let* n := float32ToCommonNaN a in ret (commonNaNToFloat64 n)
    else ret (packFloat64 aSign 0x7FF 0 0)
  else if (aExp =? 0) && (aSig =? 0) then ret (packFloat64 aSign 0 0 0)
  else
    let '(aExp, aSig) :=
      if aExp =? 0 then
        let '(aExp, aSig) := normalizeFloat32Subnormal aSig in (s16 (aExp - 1), aSig)
      else (aExp, aSig) in
    let '(zSig0, zSig1) := shift64Right aSig 0 3 in
    ret (packFloat64 aSign (s16 (aExp + 0x380)) zSig0 zSig1).

Definition float64_to_float32 (a : float64) : FP Z :=
  let aSig1 := extractFloat64Frac1 a in
  let aSig0 := extractFloat64Frac0 a in
  let aExp := extractFloat64Exp a in
  let aSign := extractFloat64Sign a in
  if aExp =? 0x7FF then
    if truthy (aSig0 ||| aSig1) then
      let* n := float64ToCommonNaN a in ret (commonNaNToFloat32 n)
    else ret (packFloat32 aSign 0xFF 0)
  else
    let '(allZero, zSig) := shift64RightJamming aSig0 aSig1 22 in
    let zSig := if truthy aExp then zSig ||| 0x40000000 else zSig in
    roundAndPackFloat32 aSign (s16 (aExp - 0x381)) zSig.

(** The label [invalid] of the conversions to integers. *)
Definition float64_to_int32_invalid (aSign : Z) : FP Z :=
  float_raise float_flag_invalid ;;
  ret (if truthy aSign then s32 0x80000000 else 0x7FFFFFFF).

(** The statements of [float64_to_int32] from the reading of the rounding mode on. *)
Definition float64_to_int32_tail (aSign absZ aSigExtra : Z) : FP Z :=
  let* roundingMode := get_mode in
  let '(z, aSigExtra) :=
    if roundingMode =? float_round_nearest_even then
      let absZ :=
        if s32 aSigExtra <? 0 then
          let absZ := u32 (absZ + 1) in
          if u32 (aSigExtra << 1) =? 0 then absZ &&& u32 (Z.lnot 1) else absZ
        else absZ in
      (s32 (if truthy aSign then u32 (- absZ) else absZ), aSigExtra)
    else
      let aSigExtra := b2z (truthy aSigExtra) in
      if truthy aSign then
        (s32 (u32 (- u32 (absZ + (b2z (roundingMode =? float_round_down) &&& aSigExtra)))), aSigExtra)
      else (s32 (u32 (absZ + (b2z (roundingMode =? float_round_up) &&& aSigExtra))), aSigExtra) in
  if truthy (aSign ^^^ b2z (z <? 0)) && truthy z then float64_to_int32_invalid aSign
  else
    when_ (truthy aSigExtra) (float_raise float_flag_inexact) ;;
    ret z.

Definition float64_to_int32 (a : float64) : FP Z :=
  let aSig1 := extractFloat64Frac1 a in
  let aSig0 := extractFloat64Frac0 a in
  let aExp := extractFloat64Exp a in
  let aSign := extractFloat64Sign a in
  let shiftCount := s16 (aExp - 0x413) in
  if 0 <=? shiftCount then
    if 0x41E <? aExp then
      float64_to_int32_invalid
        (if (aExp =? 0x7FF) && truthy (aSig0 ||| aSig1) then 0 else aSign)
    else
      let '(absZ, aSigExtra) := shortShift64Left (aSig0 ||| 0x00100000) aSig1 shiftCount in
      if 0x80000000 <? absZ then float64_to_int32_invalid aSign
      else float64_to_int32_tail aSign absZ aSigExtra
  else
    let aSig1 := b2z (truthy aSig1) in
    if aExp <? 0x3FE then float64_to_int32_tail aSign 0 (aExp ||| aSig0 ||| aSig1)
    else
      let aSig0 := aSig0 ||| 0x00100000 in
      float64_to_int32_tail aSign (aSig0 >> (- shiftCount))
        (u32 (aSig0 << (shiftCount &&& 31)) ||| aSig1).

(** The statements of [float64_to_int32_round_to_zero] from [z = ...] on. *)
Definition float64_to_int32_round_to_zero_tail (aSign absZ aSigExtra : Z) : FP Z :=
  let z := s32 (if truthy aSign then u32 (- absZ) else absZ) in
  if truthy (aSign ^^^ b2z (z <? 0)) && truthy z then float64_to_int32_invalid aSign
  else
    when_ (truthy aSigExtra) (float_raise float_flag_inexact) ;;
    ret z.

Definition float64_to_int32_round_to_zero (a : float64) : FP Z :=
  let aSig1 := extractFloat64Frac1 a in
  let aSig0 := extractFloat64Frac0 a in
  let aExp := extractFloat64Exp a in
  let aSign := extractFloat64Sign a in
  let shiftCount := s16 (aExp - 0x413) in
  if 0 <=? shiftCount then
    if 0x41E <? aExp then
      float64_to_int32_invalid
        (if (aExp =? 0x7FF) && truthy (aSig0 ||| aSig1) then 0 else aSign)
    else
      let '(absZ, aSigExtra) := shortShift64Left (aSig0 ||| 0x00100000) aSig1 shiftCount in
      float64_to_int32_round_to_zero_tail aSign absZ aSigExtra
  else if aExp <? 0x3FF then
    when_ (truthy (aExp ||| aSig0 ||| aSig1)) (float_raise float_flag_inexact) ;;
    ret 0
  else
    let aSig0 := aSig0 ||| 0x00100000 in
    float64_to_int32_round_to_zero_tail aSign (aSig0 >> (- shiftCount))
      (u32 (aSig0 << (shiftCount &&& 31)) ||| aSig1).

(** ** Rounding to an integer *)

(** The final test of [float64_round_to_int]. *)
Definition float64_round_to_int_finish (a z : float64) : FP float64 :=
  when_ (negb (low z =? low a) || negb (high z =? high a)) (float_raise float_flag_inexact) ;;
  ret z.

(** Integer part wider than the high word: the rounding position is in the low word. *)
Definition float64_round_to_int_large (roundingMode aExp : Z) (a : float64) : float64 :=
  let lastBitMask := u32 (u32 (1 << (0x432 - aExp)) << 1) in
  let roundBitsMask := u32 (lastBitMask - 1) in
  let z :=
    if roundingMode =? float_round_nearest_even then
      if truthy lastBitMask then
        let '(zhigh, zlow) := add64 (high a) (low a) 0 (lastBitMask >> 1) in
        mk_float64 zhigh
          (if (zlow &&& roundBitsMask) =? 0 then zlow &&& u32 (Z.lnot lastBitMask) else zlow)
      else if s32 (low a) <? 0 then
        let zhigh := u32 (high a + 1) in
        mk_float64 (if u32 (low a << 1) =? 0 then zhigh &&& u32 (Z.lnot 1) else zhigh) (low a)
      else a
    else if negb (roundingMode =? float_round_to_zero) then
      if xorb (truthy (extractFloat64Sign a)) (roundingMode =? float_round_up) then
        let '(zhigh, zlow) := add64 (high a) (low a) 0 roundBitsMask in mk_float64 zhigh zlow
      else a
    else a in
  mk_float64 (high z) (low z &&& u32 (Z.lnot roundBitsMask)).

(** The rounding position is in the high word. *)
Definition float64_round_to_int_small (roundingMode aExp : Z) (a : float64) : float64 :=
  let lastBitMask := u32 (1 << (0x413 - aExp)) in
  let roundBitsMask := u32 (lastBitMask - 1) in
  let zhigh :=
    if roundingMode =? float_round_nearest_even then
      let zhigh := u32 (high a + (lastBitMask >> 1)) in
      if ((zhigh &&& roundBitsMask) ||| low a) =? 0 then zhigh &&& u32 (Z.lnot lastBitMask) else zhigh
    else if negb (roundingMode =? float_round_to_zero) then
      if xorb (truthy (extractFloat64Sign a)) (roundingMode =? float_round_up) then
        u32 ((high a ||| b2z (truthy (low a))) + roundBitsMask)
      else high a
    else high a in
  mk_float64 (zhigh &&& u32 (Z.lnot roundBitsMask)) 0.

Definition float64_round_to_int (a : float64) : FP float64 :=
  let aExp := extractFloat64Exp a in
  if 0x413 <=? aExp then
    if 0x433 <=? aExp then
      if (aExp =? 0x7FF) && truthy (extractFloat64Frac0 a ||| extractFloat64Frac1 a)
      then propagateFloat64NaN a a else ret a
    else
      let* roundingMode := get_mode in
      float64_round_to_int_finish a (float64_round_to_int_large roundingMode aExp a)
  else if aExp <=? 0x3FE then
    if (u32 (high a << 1) ||| low a) =? 0 then ret a
    else
      float_raise float_flag_inexact ;;
      let aSign := extractFloat64Sign a in
      let* mode := get_mode in
      ret (if mode =? float_round_nearest_even then
             if (aExp =? 0x3FE) && truthy (extractFloat64Frac0 a ||| extractFloat64Frac1 a)
             then packFloat64 aSign 0x3FF 0 0 else packFloat64 aSign 0 0 0
           else if mode =? float_round_down then
             (if truthy aSign then packFloat64 1 0x3FF 0 0 else packFloat64 0 0 0 0)
           else if mode =? float_round_up then
             (if truthy aSign then packFloat64 1 0 0 0 else packFloat64 0 0x3FF 0 0)
           else packFloat64 aSign 0 0 0)
  else
    let* roundingMode := get_mode in
    float64_round_to_int_finish a (float64_round_to_int_small roundingMode aExp a).

(** ** Addition and subtraction *)

(** The label [shiftRight1]. *)
Definition addFloat64Sigs_shiftRight1 (zSign zExp zSig0 zSig1 zSig2 : Z) : FP float64 :=
  let '(zSig0, zSig1, zSig2) := shift64ExtraRightJamming zSig0 zSig1 zSig2 1 in
  roundAndPackFloat64 zSign zExp zSig0 zSig1 zSig2.

(** The statements from [aSig0 |= 0x00100000] on. *)
Definition addFloat64Sigs_tail (aSig0 aSig1 bSig0 bSig1 zSig2 zExp zSign : Z) : FP float64 :=
  let aSig0 := aSig0 ||| 0x00100000 in
  let '(zSig0, zSig1) := add64 aSig0 aSig1 bSig0 bSig1 in
  let zExp := s16 (zExp - 1) in
  if zSig0 <? 0x00200000 then roundAndPackFloat64 zSign zExp zSig0 zSig1 zSig2
  else addFloat64Sigs_shiftRight1 zSign (s16 (zExp + 1)) zSig0 zSig1 zSig2.

Definition addFloat64Sigs (a b : float64) (zSign : Z) : FP float64 :=
  let aSig1 := extractFloat64Frac1 a in
  let aSig0 := extractFloat64Frac0 a in
  let aExp := extractFloat64Exp a in
  let bSig1 := extractFloat64Frac1 b in
  let bSig0 := extractFloat64Frac0 b in
  let bExp := extractFloat64Exp b in
  let expDiff := s16 (aExp - bExp) in
  if 0 <? expDiff then
    if aExp =? 0x7FF then
      (if truthy (aSig0 ||| aSig1) then propagateFloat64NaN a b else ret a)
    else
      let '(expDiff, bSig0) :=
        if bExp =? 0 then (s16 (expDiff - 1), bSig0) else (expDiff, bSig0 ||| 0x00100000) in
      let '(bSig0, bSig1, zSig2) := shift64ExtraRightJamming bSig0 bSig1 0 expDiff in
      addFloat64Sigs_tail aSig0 aSig1 bSig0 bSig1 zSig2 aExp zSign
  else if expDiff <? 0 then
    if bExp =? 0x7FF then
      (if truthy (bSig0 ||| bSig1) then propagateFloat64NaN a b
       else ret (packFloat64 zSign 0x7FF 0 0))
    else
      let '(expDiff, aSig0) :=
        if aExp =? 0 then (s16 (expDiff + 1), aSig0) else (expDiff, aSig0 ||| 0x00100000) in
      let '(aSig0, aSig1, zSig2) := shift64ExtraRightJamming aSig0 aSig1 0 (s16 (- expDiff)) in
      addFloat64Sigs_tail aSig0 aSig1 bSig0 bSig1 zSig2 bExp zSign
  else
    if aExp =? 0x7FF then
      (if truthy (aSig0 ||| aSig1 ||| bSig0 ||| bSig1) then propagateFloat64NaN a b else ret a)
    else
      let '(zSig0, zSig1) := add64 aSig0 aSig1 bSig0 bSig1 in
      if aExp =? 0 then ret (packFloat64 zSign 0 zSig0 zSig1)
      else addFloat64Sigs_shiftRight1 zSign aExp (zSig0 ||| 0x00200000) zSig1 0.

Definition subFloat64Sigs (a b : float64) (zSign : Z) : FP float64 :=
  let aSig1 := extractFloat64Frac1 a in
  let aSig0 := extractFloat64Frac0 a in
  let aExp := extractFloat64Exp a in
  let bSig1 := extractFloat64Frac1 b in
  let bSig0 := extractFloat64Frac0 b in
  let bExp := extractFloat64Exp b in
  let expDiff := s16 (aExp - bExp) in
  let '(aSig0, aSig1) := shortShift64Left aSig0 aSig1 10 in
  let '(bSig0, bSig1) := shortShift64Left bSig0 bSig1 10 in
  let normalizeRoundAndPack (zSign zExp zSig0 zSig1 : Z) :=
    normalizeRoundAndPackFloat64 zSign (s16 (s16 (zExp - 1) - 10)) zSig0 zSig1 in
  let bBigger (aSig0 aSig1 bSig0 bSig1 bExp : Z) :=
    let '(zSig0, zSig1) := sub64 bSig0 bSig1 aSig0 aSig1 in
    normalizeRoundAndPack (zSign ^^^ 1) bExp zSig0 zSig1 in
  let aBigger (aSig0 aSig1 bSig0 bSig1 aExp : Z) :=
    let '(zSig0, zSig1) := sub64 aSig0 aSig1 bSig0 bSig1 in
    normalizeRoundAndPack zSign aExp zSig0 zSig1 in
  if 0 <? expDiff then
    (* aExpBigger *)
    if aExp =? 0x7FF then (if truthy (aSig0 ||| aSig1) then propagateFloat64NaN a b else ret a)
    else
      let '(expDiff, bSig0) :=
        if bExp =? 0 then (s16 (expDiff - 1), bSig0) else (expDiff, bSig0 ||| 0x40000000) in
      let '(bSig0, bSig1) := shift64RightJamming bSig0 bSig1 expDiff in
      let aSig0 := aSig0 ||| 0x40000000 in
      aBigger aSig0 aSig1 bSig0 bSig1 aExp
  else if expDiff <? 0 then
    (* bExpBigger *)
    if bExp =? 0x7FF then
      (if truthy (bSig0 ||| bSig1) then propagateFloat64NaN a b
       else ret (packFloat64 (zSign ^^^ 1) 0x7FF 0 0))
    else
      let '(expDiff, aSig0) :=
        if aExp =? 0 then (s16 (expDiff + 1), aSig0) else (expDiff, aSig0 ||| 0x40000000) in
      let '(aSig0, aSig1) := shift64RightJamming aSig0 aSig1 (s16 (- expDiff)) in
      let bSig0 := bSig0 ||| 0x40000000 in
      bBigger aSig0 aSig1 bSig0 bSig1 bExp
  else
    if aExp =? 0x7FF then
      if truthy (aSig0 ||| aSig1 ||| bSig0 ||| bSig1) then propagateFloat64NaN a b
      else float_raise float_flag_invalid ;; ret float64_default_nan
    else
      let '(aExp, bExp) := if aExp =? 0 then (1, 1) else (aExp, bExp) in
      if bSig0 <? aSig0 then aBigger aSig0 aSig1 bSig0 bSig1 aExp
      else if aSig0 <? bSig0 then bBigger aSig0 aSig1 bSig0 bSig1 bExp
      else if bSig1 <? aSig1 then aBigger aSig0 aSig1 bSig0 bSig1 aExp
      else if aSig1 <? bSig1 then bBigger aSig0 aSig1 bSig0 bSig1 bExp
      else let* mode := get_mode in
           ret (packFloat64 (b2z (mode =? float_round_down)) 0 0 0).

Definition float64_add (a b : float64) : FP float64 :=
  let aSign := extractFloat64Sign a in
  let bSign := extractFloat64Sign b in
  if aSign =? bSign then addFloat64Sigs a b aSign else subFloat64Sigs a b aSign.

Definition float64_sub (a b : float64) : FP float64 :=
  let aSign := extractFloat64Sign a in
  let bSign := extractFloat64Sign b in
  if aSign =? bSign then subFloat64Sigs a b aSign else addFloat64Sigs a b aSign.

(** ** Multiplication *)

(** The statements of [float64_mul] on two normalised finite operands. *)
Definition float64_mul_tail (zSign aExp aSig0 aSig1 bExp bSig0 bSig1 : Z) : FP float64 :=
  let zExp := s16 (aExp + bExp - 0x400) in
  let aSig0 := aSig0 ||| 0x00100000 in
  let '(bSig0, bSig1) := shortShift64Left bSig0 bSig1 12 in
  let '(zSig0, zSig1, zSig2, zSig3) := mul64To128 aSig0 aSig1 bSig0 bSig1 in
  let '(zSig0, zSig1) := add64 zSig0 zSig1 aSig0 aSig1 in
  let zSig2 := zSig2 ||| b2z (truthy zSig3) in
  if 0x00200000 <=? zSig0 then
    let '(zSig0, zSig1, zSig2) := shift64ExtraRightJamming zSig0 zSig1 zSig2 1 in
    roundAndPackFloat64 zSign (s16 (zExp + 1)) zSig0 zSig1 zSig2
  else roundAndPackFloat64 zSign zExp zSig0 zSig1 zSig2.

Definition float64_mul (a b : float64) : FP float64 :=
  let aSig1 := extractFloat64Frac1 a in
  let aSig0 := extractFloat64Frac0 a in
  let aExp := extractFloat64Exp a in
  let aSign := extractFloat64Sign a in
  let bSig1 := extractFloat64Frac1 b in
  let bSig0 := extractFloat64Frac0 b in
  let bExp := extractFloat64Exp b in
  let bSign := extractFloat64Sign b in
  let zSign := aSign ^^^ bSign in
  let invalid := float_raise float_flag_invalid ;; ret float64_default_nan in
  if aExp =? 0x7FF then
    if truthy (aSig0 ||| aSig1) || ((bExp =? 0x7FF) && truthy (bSig0 ||| bSig1))
    then propagateFloat64NaN a b
    else if (bExp ||| bSig0 ||| bSig1) =? 0 then invalid
    else ret (packFloat64 zSign 0x7FF 0 0)
  else if bExp =? 0x7FF then
    if truthy (bSig0 ||| bSig1) then propagateFloat64NaN a b
    else if (aExp ||| aSig0 ||| aSig1) =? 0 then invalid
    else ret (packFloat64 zSign 0x7FF 0 0)
  else if (aExp =? 0) && ((aSig0 ||| aSig1) =? 0) then ret (packFloat64 zSign 0 0 0)
  else
    let '(aExp, aSig0, aSig1) :=
      if aExp =? 0 then normalizeFloat64Subnormal aSig0 aSig1 else (aExp, aSig0, aSig1) in
    if (bExp =? 0) && ((bSig0 ||| bSig1) =? 0) then ret (packFloat64 zSign 0 0 0)
    else
      let '(bExp, bSig0, bSig1) :=
        if bExp =? 0 then normalizeFloat64Subnormal bSig0 bSig1 else (bExp, bSig0, bSig1) in
      float64_mul_tail zSign aExp aSig0 aSig1 bExp bSig0 bSig1.

(** ** Division *)

(** [while ((sbits32) rem0 < 0) { --zSig; add96(rem0, rem1, rem2, 0, bSig0, bSig1); }], the loop
    of both quotient words. *)
Definition float64_div_cond (s : Z * (Z * Z * Z)) : bool :=
  let '(zSig, (rem0, rem1, rem2)) := s in s32 rem0 <? 0.

Definition float64_div_body (bSig0 bSig1 : Z) (s : Z * (Z * Z * Z)) : Z * (Z * Z * Z) :=
  let '(zSig, (rem0, rem1, rem2)) := s in
  (u32 (zSig - 1), add96 rem0 rem1 rem2 0 bSig0 bSig1).

(** The two quotient words of normalised significands. *)
Definition float64_div_sig (fuel : nat) (aSig0 aSig1 bSig0 bSig1 : Z) : option (Z * Z) :=
  match estimateDiv64To32 fuel aSig0 aSig1 bSig0 with
  | None => None
  | Some zSig0 =>
    let '(term0, term1, term2) := mul64By32To96 bSig0 bSig1 zSig0 in
    match while fuel float64_div_cond (float64_div_body bSig0 bSig1)
            (zSig0, sub96 aSig0 aSig1 0 term0 term1 term2) with
    | None => None
    | Some (zSig0, (rem0, rem1, rem2)) =>
      match estimateDiv64To32 fuel rem1 rem2 bSig0 with
      | None => None
      | Some zSig1 =>
        if (zSig1 &&& 0x3FF) <=? 4 then
          let '(term1, term2, term3) := mul64By32To96 bSig0 bSig1 zSig1 in
          match while fuel float64_div_cond (float64_div_body bSig0 bSig1)
                  (zSig1, sub96 rem1 rem2 0 term1 term2 term3) with
          | None => None
          | Some (zSig1, (rem1, rem2, rem3)) =>
            Some (zSig0, zSig1 ||| b2z (truthy (rem1 ||| rem2 ||| rem3)))
          end
        else Some (zSig0, zSig1)
      end
    end
  end.

Definition float64_div_tail (fuel : nat) (zSign aExp aSig0 aSig1 bExp bSig0 bSig1 : Z)
  : FP float64 :=
  let zExp := s16 (aExp - bExp + 0x3FD) in
  let '(aSig0, aSig1) := shortShift64Left (aSig0 ||| 0x00100000) aSig1 11 in
  let '(bSig0, bSig1) := shortShift64Left (bSig0 ||| 0x00100000) bSig1 11 in
  let '(aSig0, aSig1, zExp) :=
    if le64 bSig0 bSig1 aSig0 aSig1 then
      let '(aSig0, aSig1) := shift64Right aSig0 aSig1 1 in (aSig0, aSig1, s16 (zExp + 1))
    else (aSig0, aSig1, zExp) in
  let* (zSig0, zSig1) := lift (float64_div_sig fuel aSig0 aSig1 bSig0 bSig1) in
  let '(zSig0, zSig1, zSig2) := shift64ExtraRightJamming zSig0 zSig1 0 11 in
  roundAndPackFloat64 zSign zExp zSig0 zSig1 zSig2.

Definition float64_div (fuel : nat) (a b : float64) : FP float64 :=
  let aSig1 := extractFloat64Frac1 a in
  let aSig0 := extractFloat64Frac0 a in
  let aExp := extractFloat64Exp a in
  let aSign := extractFloat64Sign a in
  let bSig1 := extractFloat64Frac1 b in
  let bSig0 := extractFloat64Frac0 b in
  let bExp := extractFloat64Exp b in
  let bSign := extractFloat64Sign b in
  let zSign := aSign ^^^ bSign in
  let invalid := float_raise float_flag_invalid ;; ret float64_default_nan in
  if aExp =? 0x7FF then
    if truthy (aSig0 ||| aSig1) then propagateFloat64NaN a b
    else if bExp =? 0x7FF then
      if truthy (bSig0 ||| bSig1) then propagateFloat64NaN a b else invalid
    else ret (packFloat64 zSign 0x7FF 0 0)
  else if bExp =? 0x7FF then
    if truthy (bSig0 ||| bSig1) then propagateFloat64NaN a b
    else ret (packFloat64 zSign 0 0 0)
  else if (bExp =? 0) && ((bSig0 ||| bSig1) =? 0) then
    if (aExp ||| aSig0 ||| aSig1) =? 0 then invalid
    else float_raise float_flag_divbyzero ;; ret (packFloat64 zSign 0x7FF 0 0)
  else
    let '(bExp, bSig0, bSig1) :=
      if bExp =? 0 then normalizeFloat64Subnormal bSig0 bSig1 else (bExp, bSig0, bSig1) in
    if (aExp =? 0) && ((aSig0 ||| aSig1) =? 0) then ret (packFloat64 zSign 0 0 0)
    else
      let '(aExp, aSig0, aSig1) :=
        if aExp =? 0 then normalizeFloat64Subnormal aSig0 aSig1 else (aExp, aSig0, aSig1) in
      float64_div_tail fuel zSign aExp aSig0 aSig1 bExp bSig0 bSig1.

(** ** Remainder *)

(** [while (0 < expDiff)]: twenty-nine quotient bits per round; the state is
    [(q, aSig0, aSig1, expDiff)]. *)
Definition float64_rem_body (fuel : nat) (bSig0 bSig1 : Z) (s : Z * Z * Z * Z)
  : option (Z * Z * Z * Z) :=
  let '(q, aSig0, aSig1, expDiff) := s in
  match estimateDiv64To32 fuel aSig0 aSig1 bSig0 with
  | None => None
  | Some q =>
    let q := if 4 <? q then u32 (q - 4) else 0 in
    let '(term0, term1, term2) := mul64By32To96 bSig0 bSig1 q in
    let '(term1, term2, _) := shortShift96Left term0 term1 term2 29 in
    let '(aSig0, _) := shortShift64Left aSig0 aSig1 29 in
    let '(aSig0, aSig1) := sub64 aSig0 0 term1 term2 in
    Some (q, aSig0, aSig1, s16 (expDiff - 29))
  end.

(** The last partial quotient: [(q, aSig0, aSig1, bSig0, bSig1)]. *)
Definition float64_rem_last (fuel : nat) (q aSig0 aSig1 bSig0 bSig1 expDiff : Z)
  : option (Z * Z * Z * Z * Z) :=
  if -32 <? expDiff then
    match estimateDiv64To32 fuel aSig0 aSig1 bSig0 with
    | None => None
    | Some q =>
      let q := if 4 <? q then u32 (q - 4) else 0 in
      let q := q >> (- expDiff) in
      let '(bSig0, bSig1) := shift64Right bSig0 bSig1 8 in
      let expDiff := s16 (expDiff + 24) in
      let '(aSig0, aSig1) :=
        if expDiff <? 0 then shift64Right aSig0 aSig1 (s16 (- expDiff))
        else shortShift64Left aSig0 aSig1 expDiff in
      let '(term0, term1, term2) := mul64By32To96 bSig0 bSig1 q in
      let '(aSig0, aSig1) := sub64 aSig0 aSig1 term1 term2 in
      Some (q, aSig0, aSig1, bSig0, bSig1)
    end
  else
    let '(aSig0, aSig1) := shift64Right aSig0 aSig1 8 in
    let '(bSig0, bSig1) := shift64Right bSig0 bSig1 8 in
    Some (q, aSig0, aSig1, bSig0, bSig1).

(** [do { alternateASig = aSig; ++q; aSig -= bSig; } while (0 <= (sbits32) aSig0)]; the state is
    [(q, (aSig0, aSig1), (alternateASig0, alternateASig1))]. *)
Definition float64_rem_sub (bSig0 bSig1 : Z) (s : Z * (Z * Z) * (Z * Z)) : Z * (Z * Z) * (Z * Z) :=
  let '(q, (aSig0, aSig1), _) := s in
  (u32 (q + 1), sub64 aSig0 aSig1 bSig0 bSig1, (aSig0, aSig1)).

Definition float64_rem_tail (fuel : nat) (aSign aSig0 aSig1 bExp bSig0 bSig1 expDiff : Z)
  : FP float64 :=
  let '(aSig0, aSig1) := shortShift64Left (aSig0 ||| 0x00100000) aSig1 (11 - b2z (expDiff <? 0)) in
  let '(bSig0, bSig1) := shortShift64Left (bSig0 ||| 0x00100000) bSig1 11 in
  let q := b2z (le64 bSig0 bSig1 aSig0 aSig1) in
  let '(aSig0, aSig1) := if truthy q then sub64 aSig0 aSig1 bSig0 bSig1 else (aSig0, aSig1) in
  let expDiff := s16 (expDiff - 32) in
  let* (q, aSig0, aSig1, expDiff) :=
    lift (while_opt fuel (fun s => 0 <? snd s) (float64_rem_body fuel bSig0 bSig1)
            (q, aSig0, aSig1, expDiff)) in
  let* (q, aSig0, aSig1, bSig0, bSig1) :=
    lift (float64_rem_last fuel q aSig0 aSig1 bSig0 bSig1 expDiff) in
  let* (q, (aSig0, aSig1), (alternateASig0, alternateASig1)) :=
    lift (do_while fuel (float64_rem_sub bSig0 bSig1)
            (fun s => 0 <=? s32 (fst (snd (fst s)))) (q, (aSig0, aSig1), (0, 0))) in
  let '(sigMean0, sigMean1) := add64 aSig0 aSig1 alternateASig0 alternateASig1 in
  let '(aSig0, aSig1) :=
    if (s32 sigMean0 <? 0) || (((sigMean0 ||| sigMean1) =? 0) && truthy (q &&& 1))
    then (alternateASig0, alternateASig1) else (aSig0, aSig1) in
  let zSign := b2z (s32 aSig0 <? 0) in
  let '(aSig0, aSig1) := if truthy zSign then sub64 0 0 aSig0 aSig1 else (aSig0, aSig1) in
  normalizeRoundAndPackFloat64 (aSign ^^^ zSign) (s16 (bExp - 4)) aSig0 aSig1.

Definition float64_rem (fuel : nat) (a b : float64) : FP float64 :=
  let aSig1 := extractFloat64Frac1 a in
  let aSig0 := extractFloat64Frac0 a in
  let aExp := extractFloat64Exp a in
  let aSign := extractFloat64Sign a in
  let bSig1 := extractFloat64Frac1 b in
  let bSig0 := extractFloat64Frac0 b in
  let bExp := extractFloat64Exp b in
  let invalid := float_raise float_flag_invalid ;; ret float64_default_nan in
  if aExp =? 0x7FF then
    if truthy (aSig0 ||| aSig1) || ((bExp =? 0x7FF) && truthy (bSig0 ||| bSig1))
    then propagateFloat64NaN a b else invalid
  else if bExp =? 0x7FF then
    if truthy (bSig0 ||| bSig1) then propagateFloat64NaN a b else ret a
  else if (bExp =? 0) && ((bSig0 ||| bSig1) =? 0) then invalid
  else
    let '(bExp, bSig0, bSig1) :=
      if bExp =? 0 then normalizeFloat64Subnormal bSig0 bSig1 else (bExp, bSig0, bSig1) in
    if (aExp =? 0) && ((aSig0 ||| aSig1) =? 0) then ret a
    else
      let '(aExp, aSig0, aSig1) :=
        if aExp =? 0 then normalizeFloat64Subnormal aSig0 aSig1 else (aExp, aSig0, aSig1) in
      let expDiff := s16 (aExp - bExp) in
      if expDiff <? -1 then ret a
      else float64_rem_tail fuel aSign aSig0 aSig1 bExp bSig0 bSig1 expDiff.

(** ** Square root *)

(** [while ((sbits32) rem0 < 0) { --zSig0; doubleZSig0 -= 2; add64(rem, doubleZSig0 | 1); }] *)
Definition float64_sqrt_body0 (s : Z * Z * (Z * Z)) : Z * Z * (Z * Z) :=
  let '(zSig0, doubleZSig0, (rem0, rem1)) := s in
  let zSig0 := u32 (zSig0 - 1) in
  let doubleZSig0 := u32 (doubleZSig0 - 2) in
  (zSig0, doubleZSig0, add64 rem0 rem1 0 (doubleZSig0 ||| 1)).

(** The loop that corrects the low word of the root. *)
Definition float64_sqrt_body1 (doubleZSig0 : Z) (s : Z * (Z * Z * Z)) : Z * (Z * Z * Z) :=
  let '(zSig1, (rem1, rem2, rem3)) := s in
  let zSig1 := u32 (zSig1 - 1) in
  let '(term2, term3) := shortShift64Left 0 zSig1 1 in
  let term3 := term3 ||| 1 in
  let term2 := term2 ||| doubleZSig0 in
  (zSig1, add96 rem1 rem2 rem3 0 term2 term3).

(** The two words of the root's significand. *)
Definition float64_sqrt_sig (fuel : nat) (aExp aSig0 aSig1 : Z) : option (Z * Z) :=
  let '(term0, term1) := shortShift64Left aSig0 aSig1 11 in
  match estimateSqrt32 fuel aExp term0 with
  | None => None
  | Some e =>
    let zSig0 := u32 ((e >> 1) + 1) in
    let zSig0 := if zSig0 =? 0 then 0x7FFFFFFF else zSig0 in
    let doubleZSig0 := u32 (zSig0 + zSig0) in
    let '(aSig0, aSig1) := shortShift64Left aSig0 aSig1 (9 - (aExp &&& 1)) in
    let '(term0, term1) := mul32To64 zSig0 zSig0 in
    match while fuel (fun s => s32 (fst (snd s)) <? 0) float64_sqrt_body0
            (zSig0, doubleZSig0, sub64 aSig0 aSig1 term0 term1) with
    | None => None
    | Some (zSig0, doubleZSig0, (rem0, rem1)) =>
      match estimateDiv64To32 fuel rem1 0 doubleZSig0 with
      | None => None
      | Some zSig1 =>
        if (zSig1 &&& 0x1FF) <=? 5 then
          let zSig1 := if zSig1 =? 0 then 1 else zSig1 in
          let '(term1, term2) := mul32To64 doubleZSig0 zSig1 in
          let '(rem1, rem2) := sub64 rem1 0 term1 term2 in
          let '(term2, term3) := mul32To64 zSig1 zSig1 in
          match while fuel float64_div_cond (float64_sqrt_body1 doubleZSig0)
                  (zSig1, sub96 rem1 rem2 0 0 term2 term3) with
          | None => None
          | Some (zSig1, (rem1, rem2, rem3)) =>
            Some (zSig0, zSig1 ||| b2z (truthy (rem1 ||| rem2 ||| rem3)))
          end
        else Some (zSig0, zSig1)
      end
    end
  end.

Definition float64_sqrt (fuel : nat) (a : float64) : FP float64 :=
  let aSig1 := extractFloat64Frac1 a in
  let aSig0 := extractFloat64Frac0 a in
  let aExp := extractFloat64Exp a in
  let aSign := extractFloat64Sign a in
  let invalid := float_raise float_flag_invalid ;; ret float64_default_nan in
  if aExp =? 0x7FF then
    if truthy (aSig0 ||| aSig1) then propagateFloat64NaN a a
    else if negb (truthy aSign) then ret a
    else invalid
  else if truthy aSign then
    if (aExp ||| aSig0 ||| aSig1) =? 0 then ret a else invalid
  else if (aExp =? 0) && ((aSig0 ||| aSig1) =? 0) then ret (packFloat64 0 0 0 0)
  else
    let '(aExp, aSig0, aSig1) :=
      if aExp =? 0 then normalizeFloat64Subnormal aSig0 aSig1 else (aExp, aSig0, aSig1) in
    let zExp := s16 (((aExp - 0x3FF) >> 1) + 0x3FE) in
    let aSig0 := aSig0 ||| 0x00100000 in
    let* (zSig0, zSig1) := lift (float64_sqrt_sig fuel aExp aSig0 aSig1) in
    let '(zSig0, zSig1, zSig2) := shift64ExtraRightJamming zSig0 zSig1 0 10 in
    roundAndPackFloat64 0 zExp zSig0 zSig1 zSig2.

(** ** Comparisons *)

Definition float64_unordered (a b : float64) : bool :=
  ((extractFloat64Exp a =? 0x7FF) && truthy (extractFloat64Frac0 a ||| extractFloat64Frac1 a))
  || ((extractFloat64Exp b =? 0x7FF) && truthy (extractFloat64Frac0 b ||| extractFloat64Frac1 b)).

Definition float64_eq_result (a b : float64) : bool :=
  (low a =? low b)
  && ((high a =? high b) || ((low a =? 0) && (u32 ((high a ||| high b) << 1) =? 0))).

Definition float64_le_result (a b : float64) : bool :=
  let aSign := extractFloat64Sign a in
  let bSign := extractFloat64Sign b in
  if negb (aSign =? bSign) then
    truthy aSign || ((u32 ((high a ||| high b) << 1) ||| low a ||| low b) =? 0)
  else if truthy aSign then le64 (high b) (low b) (high a) (low a)
  else le64 (high a) (low a) (high b) (low b).

Definition float64_lt_result (a b : float64) : bool :=
  let aSign := extractFloat64Sign a in
  let bSign := extractFloat64Sign b in
  if negb (aSign =? bSign) then
    truthy aSign && negb ((u32 ((high a ||| high b) << 1) ||| low a ||| low b) =? 0)
  else if truthy aSign then lt64 (high b) (low b) (high a) (low a)
  else lt64 (high a) (low a) (high b) (low b).

Definition float64_compare_signaling (r : float64 -> float64 -> bool) (a b : float64) : FP bool :=
  if float64_unordered a b then float_raise float_flag_invalid ;; ret false else ret (r a b).

Definition float64_compare_quiet (r : float64 -> float64 -> bool) (a b : float64) : FP bool :=
  if float64_unordered a b then
    when_ (float64_is_signaling_nan a || float64_is_signaling_nan b)
      (float_raise float_flag_invalid) ;;
    ret false
  else ret (r a b).

Definition float64_eq : float64 -> float64 -> FP bool := float64_compare_quiet float64_eq_result.
Definition float64_le : float64 -> float64 -> FP bool := float64_compare_signaling float64_le_result.
Definition float64_lt : float64 -> float64 -> FP bool := float64_compare_signaling float64_lt_result.
Definition float64_eq_signaling : float64 -> float64 -> FP bool :=
  float64_compare_signaling float64_eq_result.
Definition float64_le_quiet : float64 -> float64 -> FP bool :=
  float64_compare_quiet float64_le_result.
Definition float64_lt_quiet : float64 -> float64 -> FP bool :=
  float64_compare_quiet float64_lt_result.

(** ** Conversions with 64-bit integers (compiled under [__TCE64__])

    A shift of a 64-bit value by 64 or more is undefined in C: no result. *)

Definition shl_u64 (a n : Z) : option Z := if n <? 64 then Some (u64 (a << n)) else None.

Definition extractFloat64Frac (a : float64) : Z := low a ||| u64 ((high a &&& 0x000FFFFF) << 32).

(** The label [invalid]. *)
Definition float64_to_int64_invalid (aSign : Z) : FP Z :=
  float_raise float_flag_invalid ;;
  ret (if truthy aSign then 0x8000000000000000 else 0x7FFFFFFFFFFFFFFF).

(** The statements from [z = ...] on; the result is the 64-bit pattern. *)
Definition float64_to_int64_tail (aSign absZ : Z) : FP Z :=
  let z := s64 (if truthy aSign then u64 (- absZ) else absZ) in
  if truthy (aSign ^^^ b2z (z <? 0)) && truthy z then float64_to_int64_invalid aSign
  else ret (u64 z).

(** Both 64-bit conversions, which differ in the exponent bound and the early return. *)
Definition float64_to_int64_pattern (bound : Z) (a : float64) : FP Z :=
  let aSig := extractFloat64Frac a in
  let aExp := extractFloat64Exp a in
  let aSign := extractFloat64Sign a in
  let shiftCount := s16 (aExp - 0x433) in
  if 0 <=? shiftCount then
    if bound <? aExp then
      float64_to_int64_invalid (if (aExp =? 0x7FF) && truthy aSig then 0 else aSign)
    else
      let* absZ := lift (shl_u64 (aSig ||| 0x0010000000000000) shiftCount) in
      float64_to_int64_tail aSign absZ
  else if aExp <? 0x3FF then
    when_ (truthy (aExp ||| aSig)) (float_raise float_flag_inexact) ;;
    ret 0
  else float64_to_int64_tail aSign ((aSig ||| 0x0010000000000000) >> (- shiftCount)).

Definition float64_to_int64_round_to_zero (a : float64) : FP Z :=
  let* z := float64_to_int64_pattern 0x61E a in ret (s64 z).

Definition float64_to_uint64 (a : float64) : FP Z :=
  if truthy (extractFloat64Frac a) then ret 0 else float64_to_int64_pattern 0x61F a.

Definition countLeadingZeros64 (a : Z) : Z :=
  let shiftCount := 0 in
  let '(shiftCount, a) :=
    if a <? 0x100000000 then (s8 (shiftCount + 32), u64 (a << 32)) else (shiftCount, a) in
  let '(shiftCount, a) :=
    if a <? 0x1000000000000 then (s8 (shiftCount + 16), u64 (a << 16)) else (shiftCount, a) in
  let '(shiftCount, a) :=
    if a <? 0x100000000000000 then (s8 (shiftCount + 8), u64 (a << 8)) else (shiftCount, a) in
  s8 (shiftCount + nth (Z.to_nat (a >> 56)) countLeadingZerosHigh 0).

(** The common part of the conversions from 64-bit integers. *)
Definition abs64_to_float64 (zSign absA : Z) : float64 :=
  let shiftCount := s8 (countLeadingZeros64 absA - 11) in
  let zSig := if 0 <=? shiftCount then u64 (absA << shiftCount) else absA >> (- shiftCount) in
  packFloat64 zSign (s16 (0x432 - shiftCount)) (u32 (zSig >> 32)) (zSig &&& 0xFFFFFFFF).

Definition int64_to_float64 (a : Z) : float64 :=
  if a =? 0 then packFloat64 0 0 0 0
  else
    let zSign := b2z (a <? 0) in
    abs64_to_float64 zSign (u64 (if truthy zSign then s64 (- a) else a)).

Definition uint64_to_float64 (absA : Z) : float64 :=
  if absA =? 0 then packFloat64 0 0 0 0 else abs64_to_float64 0 absA.
