(* ===== verification/SqrtEstimate.v ===== *)
(** * The square-root estimate

    [estimateSqrt32] starts from a table of linear approximations, refines it by one Newton step in
    16-bit precision and by a second one with a long division.  The error of each of the 32 lines is
    bounded at the ends of its segment; the bounds of the two steps follow from
    (z + x/z)^2 - 4x = (z - x/z)^2. *)

From S2P Require Import Prelude.
From S2P Require Import CInt.
From S2P Require Import FPState.
From S2P Require Import Rounding.
From S2P Require Import SoftFloatPrim.

(** [r] differs from the square root of [X] by less than two. *)
Definition near_root (r X : Z) : Prop := 2 <= r /\ (r - 2) * (r - 2) < X < (r + 2) * (r + 2).

(** ** The last step *)

Lemma newton_finish fuel a z : (2 < fuel)%nat -> 2 ^ 31 <= z < 2 ^ 32 -> 0 <= a < z ->
  let q := a * 2 ^ 32 / z in (q - z) * (q - z) + 4 < 4 * (q + z) ->
  exists d, estimateDiv64To32 fuel a 0 z = Some d /\
    u32 ((d >> 1) + (z >> 1)) < 2 ^ 32 /\ near_root (u32 ((d >> 1) + (z >> 1))) (a * 2 ^ 32).
Proof.
  intros Hf Hz Ha q Hq.
  destruct (estimateDiv64To32_bounds fuel a 0 z Hf Hz Ha ltac:(apply zero_word; lia)) as (d & -> & Hd & Hd32).
  rewrite Z.add_0_r in Hd. fold q in Hd. exists d. split; [reflexivity|].
  pose proof (div_bounds (a * 2 ^ 32) z ltac:(lia)) as Hb. fold q in Hb.
  assert (Hq0 : 0 <= q) by (apply Z.div_pos; lia). rewrite !shiftr_1.
  assert (Hr : exists r, u32 (d / 2 + z / 2) = r /\ 0 <= r < 2 ^ 32 /\ d + z - 2 <= 2 * r <= d + z).
  { eexists. split; [reflexivity|]. rewrite u32_mod, Z.mod_small by dlia. split; dlia. }
  destruct Hr as (r & -> & Hr & Hdz). split; [lia|]. unfold near_root.
  set (X := a * 2 ^ 32) in *. clearbody X. split; [lia|].
  assert (E1 : (q + z - 2) * (q + z - 2) = (q - z) * (q - z) + 4 * (q * z) - 4 * (q + z) + 4) by ring.
  assert (E2 : (q + z + 2) * (q + z + 2)
    = (q + 1 - z) * (q + 1 - z) + 4 * ((q + 1) * z) + 2 * (q + 1 + z) + 1) by ring.
  pose proof (Z.square_nonneg (q + 1 - z)). split.
  - enough ((2 * r - 4) * (2 * r - 4) < 4 * X) by lia.
    apply (Z.le_lt_trans _ ((q + z - 2) * (q + z - 2))); [|lia].
    apply Z.square_le_mono_nonneg; lia.
  - enough (4 * X < (2 * r + 4) * (2 * r + 4)) by lia.
    apply (Z.lt_le_trans _ ((q + z + 2) * (q + z + 2))); [lia|].
    apply Z.square_le_mono_nonneg; lia.
Qed.

(** The condition of the last step from the error [E] of a first approximation [z = m u] of the
    root of [X]. *)
Lemma newton_error X z m u E : 0 < m <= 2 ^ 15 -> 2 ^ 16 <= u -> z = m * u -> 2 ^ 31 <= z ->
  (4 * m + 5) * (4 * m + 5) + 4 < 4 * (2 * z - 4 * m - 5) ->
  X = z * z + m * m * E -> - 4 * u - 8 <= E <= 3 * u ->
  (X / z - z) * (X / z - z) + 4 < 4 * (X / z + z).
Proof.
  intros Hm Hu Ez Hz Hmz EX HE.
  assert (Eq : X / z = z + m * E / u).
  { rewrite EX, Z.div_add_l by lia. f_equal. rewrite Ez, <- Z.mul_assoc. apply Z.div_mul_cancel_l; lia. }
  rewrite Eq. replace (z + m * E / u - z) with (m * E / u) by lia.
  assert (m * E / u <= 3 * m) by (apply Z.div_le_upper_bound; nia).
  assert (- 4 * m - 5 <= m * E / u) by (apply Z.div_le_lower_bound; nia).
  set (d := m * E / u) in *. clearbody d.
  assert (d * d <= (4 * m + 5) * (4 * m + 5)) by (destruct (Z.le_ge_cases 0 d); nia). lia.
Qed.

(** ** The first step *)

(** The line of segment [i] is [z = t + c] for [t0 <= t < t0 + 2^10], where [t] is the leading
    bits of [a].  [k = 2] for odd and [k = 1] for even exponents: [k z^2] approximates [a] within
    [B z]. *)
Definition segment_ok (k B c t0 : Z) : bool :=
  let t1 := t0 + 1023 in
  let over t := 2 ^ 17 * t - k * ((t + c) * (t + c)) + B * (t + c) in
  let under t := k * ((t + c) * (t + c)) + B * (t + c) - 2 ^ 17 * t - (2 ^ 17 - 1) in
  let slope t := 2 * k * (t + c) + B - 2 ^ 17 in
  (0 <=? over t0) && (0 <=? over t1) &&
  (((0 <=? under t0) && (0 <=? slope t0)) || (0 <=? under t1 - 1023 * Z.max 0 (slope t1))).

Lemma segment_ok_spec k B c t0 t a : 0 <= k -> segment_ok k B c t0 = true ->
  t0 <= t <= t0 + 1023 -> t * 2 ^ 17 <= a < (t + 1) * 2 ^ 17 ->
  let z := t + c in - (B * z) <= a - k * (z * z) <= B * z.
Proof.
  intros Hk H Ht Ha z. unfold segment_ok in H. rewrite !andb_true_iff, orb_true_iff, andb_true_iff in H.
  destruct H as [[H1 H2] H3]. rewrite !Z.leb_le in *. split.
  - assert (H0 : 0 <= 2 ^ 17 * t - k * ((t + c) * (t + c)) + B * (t + c)); [|unfold z; lia].
    match type of H1 with 0 <= ?x => set (F0 := x) in * end.
    match type of H2 with 0 <= ?x => set (F1 := x) in * end.
    apply (Z.mul_nonneg_cancel_l 1023); [lia|].
    replace (1023 * (2 ^ 17 * t - k * ((t + c) * (t + c)) + B * (t + c)))
      with ((t0 + 1023 - t) * F0 + (t - t0) * F1 + k * 1023 * ((t - t0) * (t0 + 1023 - t)))
      by (unfold F0, F1; ring).
    clearbody F0 F1. nonneg.
  - assert (H0 : 0 <= k * ((t + c) * (t + c)) + B * (t + c) - 2 ^ 17 * t - (2 ^ 17 - 1)); [|unfold z; lia].
    destruct H3 as [[H3 H4]|H3].
    + match type of H3 with 0 <= ?x => set (F0 := x) in * end.
      match type of H4 with 0 <= ?x => set (D0 := x) in * end.
      replace (k * ((t + c) * (t + c)) + B * (t + c) - 2 ^ 17 * t - (2 ^ 17 - 1))
        with (F0 + (t - t0) * D0 + k * ((t - t0) * (t - t0))) by (unfold F0, D0; ring).
      clearbody F0 D0. nonneg.
    + match type of H3 with 0 <= ?x - 1023 * Z.max 0 ?d => set (F1 := x) in *; set (D1 := d) in * end.
      replace (k * ((t + c) * (t + c)) + B * (t + c) - 2 ^ 17 * t - (2 ^ 17 - 1))
        with (F1 - (t0 + 1023 - t) * D1 + k * ((t0 + 1023 - t) * (t0 + 1023 - t)))
        by (unfold F1, D1; ring).
      clearbody F1 D1. apply Z.add_nonneg_nonneg; [|apply Z.mul_nonneg_nonneg; [lia|apply Z.mul_nonneg_nonneg; lia]].
      assert ((t0 + 1023 - t) * D1 <= 1023 * Z.max 0 D1); [|lia].
      transitivity ((t0 + 1023 - t) * Z.max 0 D1); [apply Z.mul_le_mono_nonneg_l|apply Z.mul_le_mono_nonneg_r]; lia.
Qed.

(** The table lookups of [estimateSqrt32]. *)
Definition intercept (k i : Z) : Z :=
  if k =? 2 then 0x4000 - nth (Z.to_nat i) sqrtOddAdjustments 0
  else 0x8000 - nth (Z.to_nat i) sqrtEvenAdjustments 0.

Lemma table_checked :
  forallb (fun i => segment_ok 2 724 (intercept 2 i) (2 ^ 14 + 2 ^ 10 * i) &&
                    segment_ok 1 608 (intercept 1 i) (2 ^ 14 + 2 ^ 10 * i) &&
                    (2 ^ 14 <=? intercept 1 i + 2 ^ 10 * i) && (intercept 1 i + 2 ^ 10 * i + 1023 <? 2 ^ 16) &&
                    (32764 <=? 2 ^ 14 + intercept 2 i + 2 ^ 10 * i) && (intercept 2 i + 2 ^ 10 * i <? 2 ^ 15))
    (map Z.of_nat (seq 0 16)) = true.
Proof. reflexivity. Qed.

(** What the check says of the operand [a] with leading bits [t]. *)
Lemma table_spec a : 2 ^ 31 <= a < 2 ^ 32 ->
  let t := a / 2 ^ 17 in
  let i := t / 2 ^ 10 mod 16 in
  (let z := t + intercept 2 i in 32764 <= z < 2 ^ 16 /\ - (724 * z) <= a - 2 * (z * z) <= 724 * z) /\
  (let z := t + intercept 1 i in 2 ^ 15 <= z < 2 ^ 17 /\ - (608 * z) <= a - 1 * (z * z) <= 608 * z).
Proof.
  intros Ha t i. assert (Ht : 2 ^ 14 <= t < 2 ^ 15) by (unfold t; dlia).
  assert (Hi : 2 ^ 14 + 2 ^ 10 * i <= t <= 2 ^ 14 + 2 ^ 10 * i + 1023 /\ 0 <= i < 16) by (unfold i; dlia).
  assert (Hat : t * 2 ^ 17 <= a < (t + 1) * 2 ^ 17) by (apply div_bounds; lia).
  pose proof table_checked as C. rewrite forallb_forall in C. specialize (C i).
  rewrite !andb_true_iff in C. destruct C as (((((C1 & C2) & C3) & C4) & C5) & C6).
  { apply in_map_iff. exists (Z.to_nat i). split; [lia|]. apply in_seq. lia. }
  apply Z.leb_le in C3, C5. apply Z.ltb_lt in C4, C6.
  split; (split; [lia|]); eapply segment_ok_spec; try eassumption; lia.
Qed.

(** One Newton step from [z]. *)
Lemma first_step k B z a : 1 <= k <= 2 -> 0 < z -> 0 <= B -> 3 * B <= 2 * k * z ->
  - (B * z) <= a - k * (z * z) <= B * z ->
  let u := a / z + k * z in B * B <= 4 * u ->
  0 <= a / z /\ 4 * k * a < (u + 1) * (u + 1) /\ - 4 * u <= 4 * k * a - u * u <= 3 * u.
Proof.
  intros Hk Hz HB HBz Hd u Hu. pose proof (div_bounds a z Hz) as Hq. unfold u in *. clear u.
  set (q := a / z) in *. clearbody q.
  assert (Hlo : - B <= q - k * z) by nia. assert (Hhi : q - k * z <= B) by nia.
  assert (E1 : (q + k * z) * (q + k * z) = (q - k * z) * (q - k * z) + 4 * k * (q * z)) by ring.
  assert (E2 : (q + k * z + 1) * (q + k * z + 1) = (q + 1 - k * z) * (q + 1 - k * z) + 4 * k * ((q + 1) * z)) by ring.
  pose proof (Z.square_nonneg (q - k * z)). pose proof (Z.square_nonneg (q + 1 - k * z)).
  assert ((q - k * z) * (q - k * z) <= B * B) by (destruct (Z.le_ge_cases 0 (q - k * z)); nia).
  split; [nia|]. rewrite E1, E2. split; [nia|]. split; nia.
Qed.

Lemma table_index a : 2 ^ 31 <= a < 2 ^ 32 -> s8 ((a >> 27) &&& 15) = a / 2 ^ 17 / 2 ^ 10 mod 16.
Proof.
  intros Ha. change 15 with (2 ^ 4 - 1). rewrite land_ones_mod, Z.shiftr_div_pow2, Z.div_div by lia.
  change (2 ^ 17 * 2 ^ 10) with (2 ^ 27). pose proof (Z.mod_pos_bound (a / 2 ^ 27) (2 ^ 4) ltac:(lia)).
  unfold s8. now rewrite sw_small by (unfold is_s; lia).
Qed.

Lemma estimateSqrt32_odd fuel aExp a : (2 < fuel)%nat -> 2 ^ 31 <= a < 2 ^ 32 -> aExp mod 2 = 1 ->
  exists e, estimateSqrt32 fuel aExp a = Some e /\ e < 2 ^ 32 /\ near_root e (a / 2 * 2 ^ 32).
Proof.
  intros Hf Ha Ho. destruct (table_spec a Ha) as [[Hz Hd] _]. unfold estimateSqrt32.
  rewrite land_1_odd, Ho, table_index by assumption. change (truthy 1) with true. cbv iota.
  rewrite (shiftr_1 a), (Z.shiftr_div_pow2 a) by lia.
  set (z := a / 2 ^ 17 + intercept 2 (a / 2 ^ 17 / 2 ^ 10 mod 16)) in *.
  assert (Ez : u32 (0x4000 + a / 2 ^ 17 - nth (Z.to_nat (a / 2 ^ 17 / 2 ^ 10 mod 16)) sqrtOddAdjustments 0) = z).
  { rewrite u32_small; unfold z, intercept in *; cbn [Z.eqb Pos.eqb] in *; lia. }
  rewrite Ez. clearbody z. clear Ez.
  assert (Hu0 : 524176 <= 4 * (a / z + 2 * z)).
  { pose proof (div_bounds a z ltac:(lia)). nia. }
  destruct (first_step 2 724 z a ltac:(lia) ltac:(lia) ltac:(lia) ltac:(lia) Hd Hu0) as (Hq & Hlo & HE).
  set (u := a / z + 2 * z) in *.
  assert (Hu : 2 ^ 17 <= u < 2 ^ 18) by (clearbody u; nia).
  assert (Ez2 : u32 (u32 ((a / z) << 14) + u32 (z << 15)) = 2 ^ 14 * u).
  { rewrite !Z.shiftl_mul_pow2 by lia. rewrite (u32_small (a / z * 2 ^ 14)), (u32_small (z * 2 ^ 15)), u32_small;
      unfold u in *; lia. }
  rewrite Ez2.
  assert (Hnewton : let X := a / 2 * 2 ^ 32 in
    (X / (2 ^ 14 * u) - 2 ^ 14 * u) * (X / (2 ^ 14 * u) - 2 ^ 14 * u) + 4 < 4 * (X / (2 ^ 14 * u) + 2 ^ 14 * u)).
  { apply (newton_error _ _ (2 ^ 14) u (4 * 2 * a - u * u - 8 * (a mod 2))); try lia; [|dlia].
    pose proof (Z.div_mod a 2 ltac:(lia)). lia. }
  destruct (newton_finish fuel (a / 2) (2 ^ 14 * u) Hf ltac:(lia) ltac:(dlia) Hnewton) as (d & -> & Hr).
  eexists. split; [reflexivity|]. exact Hr.
Qed.

(** The clipped approximation of an even exponent, [m = 2^15]. *)
Lemma even_error a u : 2 ^ 31 <= a < 2 ^ 32 -> 0 <= u -> 4 * a < (u + 1) * (u + 1) ->
  - 4 * u <= 4 * a - u * u <= 3 * u ->
  let v := if 0x20000 <=? u then 0x1FFFF else u in
  92681 <= v <= 0x1FFFF /\ - 4 * v - 8 <= 4 * a - v * v <= 3 * v.
Proof.
  intros Ha Hu Hlo HE v. unfold v. destruct (Z.leb_spec 0x20000 u); [|split; [nia|lia]].
  split; [lia|]. assert (u < 0x20000 + 5) by nia. nia.
Qed.

(** When the first approximation is not above the operand, the root is close to one in the
    fixed-point format and its tangent is used. *)
Lemma even_tangent a v : 2 ^ 31 <= a < 2 ^ 32 -> 0 <= v -> 4 * a - v * v <= 3 * v -> 2 ^ 15 * v <= a ->
  near_root (2 ^ 31 + a / 2) (a * 2 ^ 32).
Proof.
  intros Ha Hv HE Hva. assert (Hb : 2 ^ 32 - 2 ^ 17 <= a) by nia.
  assert (exists b, a = 2 ^ 32 - b /\ 0 <= b <= 2 ^ 17) as (b & -> & Hb') by (exists (2 ^ 32 - a); lia).
  clear Hva HE Hv v. assert (Hh : 2 ^ 32 - b - 1 <= 2 * ((2 ^ 32 - b) / 2) <= 2 ^ 32 - b) by dlia.
  unfold near_root. set (h := (2 ^ 32 - b) / 2) in *. clearbody h. split; [lia|].
  assert (exists g, h = 2 ^ 31 - g /\ b <= 2 * g <= b + 1) as (g & -> & Hg) by (exists (2 ^ 31 - h); lia).
  split; nia.
Qed.

Lemma estimateSqrt32_even fuel aExp a : (2 < fuel)%nat -> 2 ^ 31 <= a < 2 ^ 32 -> aExp mod 2 = 0 ->
  exists e, estimateSqrt32 fuel aExp a = Some e /\ e < 2 ^ 32 /\ near_root e (a * 2 ^ 32).
Proof.
  intros Hf Ha Ho. destruct (table_spec a Ha) as [_ [Hz Hd]]. unfold estimateSqrt32.
  rewrite land_1_odd, Ho, table_index by assumption. change (truthy 0) with false. cbv iota.
  rewrite (Z.shiftr_div_pow2 a) by lia.
  set (z := a / 2 ^ 17 + intercept 1 (a / 2 ^ 17 / 2 ^ 10 mod 16)) in *.
  assert (Ez : u32 (0x8000 + a / 2 ^ 17 - nth (Z.to_nat (a / 2 ^ 17 / 2 ^ 10 mod 16)) sqrtEvenAdjustments 0) = z).
  { rewrite u32_small; unfold z, intercept in *; cbn [Z.eqb Pos.eqb] in *; lia. }
  rewrite Ez. clearbody z. clear Ez.
  assert (Hu0 : 369664 <= 4 * (a / z + 1 * z)).
  { pose proof (div_bounds a z ltac:(lia)). nia. }
  destruct (first_step 1 608 z a ltac:(lia) ltac:(lia) ltac:(lia) ltac:(lia) Hd Hu0) as (Hq & Hlo & HE).
  set (u := a / z + 1 * z) in *.
  destruct (even_error a u Ha ltac:(lia) Hlo HE) as [Hv HEv].
  set (v := if 0x20000 <=? u then 0x1FFFF else u) in *.
  assert (Hu : u < 2 ^ 18) by (clearbody u; nia).
  replace (u32 (a / z + z)) with u by (rewrite u32_small; unfold u in *; lia).
  assert (Ez2 : (if 0x20000 <=? u then 0xFFFF8000 else u32 (u << 15)) = 2 ^ 15 * v).
  { unfold v in *. destruct (0x20000 <=? u); [reflexivity|]. rewrite Z.shiftl_mul_pow2, u32_small by lia. lia. }
  rewrite Ez2. clearbody v u.
  destruct (Z.leb_spec (2 ^ 15 * v) a) as [Hva|Hva].
  - exists (2 ^ 31 + a / 2). split.
    + f_equal. rewrite shiftr_1, u32_mod. unfold s32. rewrite (sw_wrap 32 a (-1)) by (unfold is_s; lia).
      symmetry. apply (Z.mod_unique _ _ (-1)); dlia.
    + split; [dlia|]. apply (even_tangent a v); lia.
  - assert (Hnewton : let X := a * 2 ^ 32 in
      (X / (2 ^ 15 * v) - 2 ^ 15 * v) * (X / (2 ^ 15 * v) - 2 ^ 15 * v) + 4 < 4 * (X / (2 ^ 15 * v) + 2 ^ 15 * v)).
    { apply (newton_error _ _ (2 ^ 15) v (4 * a - v * v)); lia. }
    destruct (newton_finish fuel a (2 ^ 15 * v) Hf ltac:(lia) ltac:(lia) Hnewton) as (d & -> & Hr).
    eexists. split; [reflexivity|]. exact Hr.
Qed.

Lemma estimateSqrt32_near fuel aExp a : (2 < fuel)%nat -> 2 ^ 31 <= a < 2 ^ 32 ->
  exists e, estimateSqrt32 fuel aExp a = Some e /\ e < 2 ^ 32 /\
    near_root e ((a >> (aExp &&& 1)) * 2 ^ 32).
Proof.
  intros Hf Ha. rewrite land_1_odd. pose proof (Z.mod_pos_bound aExp 2 ltac:(lia)).
  assert (C : aExp mod 2 = 0 \/ aExp mod 2 = 1) by lia. destruct C as [C|C]; rewrite C.
  - now apply estimateSqrt32_even.
  - rewrite shiftr_1. now apply estimateSqrt32_odd.
Qed.

(** ** Roots as rationals

    [root_num W / 2] lies in the same place as the square root of [W] relative to every integer. *)
Definition root_num (W : Z) : Z := 2 * Z.sqrt W + b2z (negb (Z.sqrt W * Z.sqrt W =? W)).

Lemma root_num_nonneg W : 0 <= root_num W.
Proof. unfold root_num. pose proof (Z.sqrt_nonneg W). destruct (negb _); cbn [b2z]; lia. Qed.

Lemma root_compare W t : 0 <= W -> 0 <= t -> (root_num W ?= 2 * t) = (W ?= t * t).
Proof.
  intros HW Ht. unfold root_num. destruct (Z.sqrt_spec W HW) as [Hl Hh].
  pose proof (Z.sqrt_nonneg W). set (r := Z.sqrt W) in *. clearbody r. unfold Z.succ in Hh.
  destruct (Z.eqb_spec (r * r) W) as [E|E]; cbn [negb b2z];
    destruct (Z.compare_spec W (t * t)) as [C|C|C];
    first [apply Z.compare_eq_iff | apply Z.compare_lt_iff | apply Z.compare_gt_iff]; nia.
Qed.

(** [z] stands to every nonnegative multiple of [G] as the square root of [X] does. *)
Definition root_sticky (G z X : Z) : Prop := forall j, 0 <= j -> (z ?= G * j) = (X ?= G * j * (G * j)).

Lemma root_jam X : 0 <= X -> root_sticky 2 (Z.sqrt X ||| b2z (negb (Z.sqrt X * Z.sqrt X =? X))) X.
Proof.
  intros HX j Hj. destruct (Z.sqrt_spec X HX) as [Hl Hh]. pose proof (Z.sqrt_nonneg X).
  set (r := Z.sqrt X) in *. clearbody r. unfold Z.succ in Hh.
  destruct (Z.eqb_spec (r * r) X) as [E|E]; cbn [negb b2z].
  - rewrite Z.lor_0_r. destruct (Z.compare_spec X (2 * j * (2 * j)));
      first [apply Z.compare_eq_iff | apply Z.compare_lt_iff | apply Z.compare_gt_iff]; nia.
  - rewrite lor_1. pose proof (Z.div_mod r 2 ltac:(lia)). pose proof (Z.mod_pos_bound r 2 ltac:(lia)).
    destruct (Z.compare_spec X (2 * j * (2 * j)));
      first [apply Z.compare_eq_iff | apply Z.compare_lt_iff | apply Z.compare_gt_iff]; nia.
Qed.

(** A significand that is sticky for a root approximates it as a rational in the sense of
    [sticky]; [P] is the power of two between the two. *)
Lemma root_sticky_rational G z X P : 0 <= z -> 0 <= X -> 0 < G -> 0 < P -> root_sticky G z X ->
  sticky G z (root_num (X * (P * P))) (2 * P).
Proof.
  intros Hz HX HG HP H j. destruct (Z.lt_ge_cases j 0).
  { transitivity Gt; [|symmetry]; apply Z.compare_gt_iff; [nia|].
    pose proof (root_num_nonneg (X * (P * P))). nia. }
  rewrite H by lia. replace (G * j * (2 * P)) with (2 * (G * j * P)) by ring.
  rewrite root_compare by nia. replace (G * j * P * (G * j * P)) with (P * P * (G * j * (G * j))) by ring.
  rewrite (Z.mul_comm X), compare_scale by nia. reflexivity.
Qed.

Lemma root_sticky_weaken G c z X : 0 <= c -> root_sticky G z X -> root_sticky (G * c) z X.
Proof. intros Hc H j Hj. rewrite <- Z.mul_assoc. apply H. nia. Qed.

(** An approximation from above by at most four that is not just above a multiple of [G]. *)
Lemma root_near G y X : 0 < G -> 0 <= X -> Z.sqrt X <= y <= Z.sqrt X + 4 -> 4 < y mod G ->
  root_sticky G y X.
Proof.
  intros HG HX Hy Hm j Hj. destruct (Z.sqrt_spec X HX) as [Hl Hh]. pose proof (Z.sqrt_nonneg X).
  set (s := Z.sqrt X) in *. clearbody s. unfold Z.succ in Hh.
  pose proof (Z.div_mod y G ltac:(lia)) as E. pose proof (Z.mod_pos_bound y G HG).
  set (h := y / G) in *. set (m := y mod G) in *.
  destruct (Z.compare_spec y (G * j)) as [C|C|C]; symmetry.
  - exfalso. assert (j = h \/ j < h \/ h < j) as [|[|]] by lia; nia.
  - apply Z.compare_lt_iff. nia.
  - apply Z.compare_gt_iff. assert (j <= h) by nia. assert (G * j < s) by nia. nia.
Qed.
