(* ===== verification/Float32Round.v ===== *)
(** * Rounding and packing of single precision implements the reference

    [roundAndPackFloat32] on a significand that approximates the exact value up to sticky bits
    returns [ref_bits] and raises [ref_flags], in every rounding mode. *)

From S2P Require Import Prelude.
From S2P Require Import CInt.
From S2P Require Import FPState.
From S2P Require Import Rounding.
From S2P Require Import SoftFloatPrim.
From S2P Require Import Float32.

(** Single precision: 24 bits, all-ones exponent 255. *)
Abbreviation ref_bits32 := (ref_bits 24 255).
Abbreviation ref_flags32 := (ref_flags 24 255).
Abbreviation mag_val32 := (mag_val 24).

Definition is_flag (s : Z) : Prop := s = 0 \/ s = 1.

(** What the reference makes of the exact value [A / B] with sign [zSign] in state [st]. *)
Definition rounded32 (st : fpstate) (zSign A B : Z) : option (Z * fpstate) :=
  let mode := float_rounding_mode st in
  Some (zSign * 2 ^ 31 + ref_bits32 mode (truthy zSign) A B,
        raised st (ref_flags32 (float_detect_tininess st) mode (truthy zSign) A B)).

(** ** Packing *)

Lemma packFloat32_eq zSign zExp zSig : is_flag zSign -> 0 <= zExp < 256 ->
  0 <= zSig -> zExp * 2 ^ 23 + zSig < 2 ^ 31 ->
  packFloat32 zSign zExp zSig = zSign * 2 ^ 31 + (zExp * 2 ^ 23 + zSig).
Proof.
  intros Hs He Hz Hb. unfold packFloat32.
  assert (E1 : u32 (zSign << 31) = zSign * 2 ^ 31) by (destruct Hs as [-> | ->]; reflexivity).
  assert (E2 : u32 zExp = zExp) by (apply uw_small; unfold is_u; lia).
  rewrite E1, E2, u32_shl by lia. change (32 - 23) with 9. rewrite (Z.mod_small zExp) by lia.
  rewrite (uw_small 32); [lia|]. unfold is_u. destruct Hs as [-> | ->]; lia.
Qed.

(** ** The rounding increment *)

Lemma roundIncrement32_range mode s :
  roundIncrement32 mode s = 0 \/ roundIncrement32 mode s = 64 \/ roundIncrement32 mode s = 127.
Proof.
  unfold roundIncrement32.
  repeat match goal with |- context [if ?b then _ else _] => destruct b end; auto.
Qed.

(** The mask [~ b] that clears the tie bit. *)
Lemma mask_keep y : 0 <= y < 2 ^ 32 -> y &&& u32 (Z.lnot 0) = y.
Proof.
  intros Hy. change (u32 (Z.lnot 0)) with (2 ^ 32 - 1). rewrite land_ones_mod by lia.
  now rewrite Z.mod_small.
Qed.

Lemma mask_clear y : 0 <= y < 2 ^ 32 -> y &&& u32 (Z.lnot 1) = 2 * (y / 2).
Proof.
  intros Hy. apply Z.bits_inj'. intros i Hi. rewrite Z.land_spec.
  change (u32 (Z.lnot 1)) with (2 * (2 ^ 31 - 1)).
  destruct (Z.eq_dec i 0) as [->|Hi0].
  - rewrite !Z.bit0_odd, !Z.odd_mul. now rewrite andb_false_r.
  - replace i with (Z.succ (i - 1)) by lia. rewrite !Z.testbit_even_succ by lia.
    rewrite <- (shiftr_1 y), Z.shiftr_spec by lia. replace (i - 1 + 1) with (Z.succ (i - 1)) by lia.
    change (2 ^ 31 - 1) with (Z.ones 31). destruct (Z.lt_ge_cases (i - 1) 31).
    + rewrite Z.ones_spec_low by lia. apply andb_true_r.
    + rewrite Z.ones_spec_high, andb_false_r by lia. symmetry.
      rewrite <- (Z.mod_small y (2 ^ 32)) by lia. apply Z.mod_pow2_bits_high. lia.
Qed.

(** The test [(roundBits ^ 0x40) == 0]. *)
Lemma lxor_eqb x y : ((x ^^^ y) =? 0) = (x =? y).
Proof.
  destruct (Z.eqb_spec x y) as [->|Hne]; [now rewrite Z.lxor_nilpotent|].
  apply Z.eqb_neq. intros E. now apply Z.lxor_eq in E.
Qed.

(** The significand after adding the increment, shifting and clearing the tie bit. *)
Lemma round_step32 mode zSign zSig :
  0 <= mode <= 3 -> 0 <= zSig < 2 ^ 31 ->
  (u32 (zSig + roundIncrement32 mode zSign) >> 7)
    &&& u32 (Z.lnot (b2z ((((zSig &&& 0x7F) ^^^ 0x40) =? 0) && (mode =? float_round_nearest_even))))
  = round_q mode (truthy zSign) zSig (2 ^ 7).
Proof.
  intros Hm Hz. change 0x7F with (2 ^ 7 - 1). rewrite land_ones_mod by lia.
  change 0x40 with 64. rewrite lxor_eqb, u32_mod, Z.mod_small
    by (destruct (roundIncrement32_range mode zSign) as [-> | [-> | ->]]; lia).
  rewrite shr_div by lia.
  pose proof (Z.div_mod zSig (2 ^ 7) ltac:(lia)) as E.
  pose proof (Z.mod_pos_bound zSig (2 ^ 7) ltac:(lia)) as Hr.
  set (q := zSig / 2 ^ 7) in *. set (r := zSig mod 2 ^ 7) in *.
  assert (Hq : 0 <= q < 2 ^ 24) by lia.
  unfold round_q, rounds_away, roundIncrement32. fold q r.
  assert (Sum : forall c, 0 <= c -> (zSig + c) / 2 ^ 7 = q + (r + c) / 2 ^ 7).
  { intros c Hc. rewrite E at 1. replace (2 ^ 7 * q + r + c) with (q * 2 ^ 7 + (r + c)) by lia.
    rewrite Z.div_add_l by lia. reflexivity. }
  destruct (Z.eqb_spec mode float_round_nearest_even) as [->|Hm0]; cbn [negb].
  - rewrite Sum by lia. destruct (Z.compare_spec (2 * r) (2 ^ 7)) as [Hc|Hc|Hc].
    + assert (r = 64) by lia. replace (r =? 64) with true by (symmetry; apply Z.eqb_eq; lia).
      cbn [andb b2z]. rewrite (div_eq (r + 64) (2 ^ 7) 1), mask_clear by lia.
      destruct (Z.odd q) eqn:Ho; cbn [b2z]; rewrite Zodd_mod in Ho || idtac.
      * apply Z.eqb_eq in Ho. dlia.
      * assert (Z.even q = true) by (rewrite <- Z.negb_odd; now rewrite Zodd_mod, Ho).
        rewrite Zeven_mod in H0. apply Z.eqb_eq in H0. dlia.
    + replace (r =? 64) with false by (symmetry; apply Z.eqb_neq; lia).
      cbn [andb b2z]. rewrite (div_eq (r + 64) (2 ^ 7) 0), mask_keep by lia. lia.
    + replace (r =? 64) with false by (symmetry; apply Z.eqb_neq; lia).
      cbn [andb b2z]. rewrite (div_eq (r + 64) (2 ^ 7) 1), mask_keep by lia. lia.
  - rewrite andb_false_r. cbn [b2z].
    destruct (Z.eqb_spec mode float_round_to_zero).
    + rewrite Sum, Z.add_0_r, (Z.div_small r), mask_keep by lia. cbn [b2z]. lia.
    + assert (Hud : (mode =? float_round_down) = negb (mode =? float_round_up)).
      { unfold float_round_down, float_round_up, float_round_nearest_even, float_round_to_zero in *.
        destruct (Z.eqb_spec mode 1), (Z.eqb_spec mode 2); try reflexivity; lia. }
      rewrite Hud. destruct (truthy zSign), (mode =? float_round_up); cbn [negb andb b2z].
      all: rewrite ?andb_true_r, ?andb_false_r, Sum by lia.
      all: rewrite ?Z.add_0_r, ?(Z.div_small r), ?mask_keep by lia; cbn [b2z]; try lia.
      all: destruct (Z.eqb_spec r 0); cbn [negb b2z].
      all: rewrite ?(div_eq (r + 127) (2 ^ 7) 0), ?(div_eq (r + 127) (2 ^ 7) 1) by lia.
      all: rewrite mask_keep by lia; lia.
Qed.

(** The carry out of the significand. *)
Lemma round_carry32 mode zSign zSig :
  0 <= mode <= 3 -> 0 <= zSig < 2 ^ 31 ->
  (2 ^ 31 <=? zSig + roundIncrement32 mode zSign)
  = (2 ^ 24 <=? round_q mode (truthy zSign) zSig (2 ^ 7)).
Proof.
  intros Hm Hz. rewrite <- round_step32 by assumption.
  assert (R : 0 <= zSig + roundIncrement32 mode zSign < 2 ^ 32)
    by (destruct (roundIncrement32_range mode zSign) as [-> | [-> | ->]]; lia).
  rewrite u32_mod, Z.mod_small, shr_div by lia.
  set (y := zSig + roundIncrement32 mode zSign) in *. clearbody y.
  destruct (_ && _); cbn [b2z]; [rewrite mask_clear by dlia | rewrite mask_keep by dlia].
  - destruct (Z.leb_spec (2 ^ 31) y), (Z.leb_spec (2 ^ 24) (2 * (y / 2 ^ 7 / 2))); try reflexivity;
      exfalso; dlia.
  - destruct (Z.leb_spec (2 ^ 31) y), (Z.leb_spec (2 ^ 24) (y / 2 ^ 7)); try reflexivity;
      exfalso; dlia.
Qed.

Lemma roundIncrement32_saturates mode zSign : 0 <= mode <= 3 ->
  (roundIncrement32 mode zSign =? 0) = saturates mode (truthy zSign).
Proof.
  intros Hm. unfold roundIncrement32, saturates, float_round_nearest_even, float_round_down,
    float_round_up, float_round_to_zero.
  assert (C : mode = 0 \/ mode = 1 \/ mode = 2 \/ mode = 3) by lia.
  destruct C as [-> | [-> | [-> | ->]]]; destruct (truthy zSign); reflexivity.
Qed.

(** ** The tail: increment, shift, clear the tie bit, pack *)

Lemma roundAndPackFloat32_tail_eq st zSign zExp zSig :
  fp_ok st -> is_flag zSign -> 0 <= zSig < 2 ^ 31 -> 0 <= zExp <= 0xFD ->
  zExp = 0 \/ 2 ^ 30 <= zSig ->
  let mode := float_rounding_mode st in
  let r := round_q mode (truthy zSign) zSig (2 ^ 7) in
  roundAndPackFloat32_tail (mode =? float_round_nearest_even) (roundIncrement32 mode zSign)
    zSign zExp zSig (zSig &&& 0x7F) st
  = Some (zSign * 2 ^ 31 + (zExp * 2 ^ 23 + r),
          raised st (if zSig mod 2 ^ 7 =? 0 then 0 else float_flag_inexact)).
Proof.
  intros Hst Hs Hz He Hn mode r. pose proof (mode_ok st Hst) as Hm. fold mode in Hm.
  assert (Hr : 0 <= r <= 2 ^ 24).
  { split; [|apply round_q_le; lia]. pose proof (round_q_bounds mode (truthy zSign) zSig (2 ^ 7)).
    assert (0 <= zSig / 2 ^ 7) by (apply Z.div_pos; lia). unfold r. lia. }
  assert (Hrn : zExp = 0 \/ 2 ^ 23 <= r).
  { destruct Hn; [now left | right]. apply round_q_ge; lia. }
  unfold roundAndPackFloat32_tail, truthy at 1. rewrite round_step32 by assumption. fold r.
  replace (if r =? 0 then 0 else zExp) with zExp by (destruct (Z.eqb_spec r 0); lia).
  change 0x7F with (2 ^ 7 - 1). rewrite land_ones_mod by lia. unfold bind, ret.
  rewrite packFloat32_eq by (assumption || lia).
  destruct (Z.eqb_spec (zSig mod 2 ^ 7) 0); cbn [negb when_].
  - now rewrite raised_0.
  - unfold when_. rewrite float_raise_eq by (assumption || flag_range).
    reflexivity.
Qed.

(** ** The whole routine *)

Lemma u16_big zExp : - 2 ^ 15 < zExp < 2 ^ 15 ->
  (0xFD <=? u16 zExp) = (0xFD <=? zExp) || (zExp <? 0).
Proof.
  intros H. unfold u16, uw.
  destruct (Z.leb_spec 0xFD zExp), (Z.ltb_spec zExp 0), (Z.leb_spec 0xFD (zExp mod 2 ^ 16));
    try reflexivity; exfalso; dlia.
Qed.

Lemma s32_carry mode zSign zSig : 0 <= zSig < 2 ^ 31 ->
  (s32 (u32 (zSig + roundIncrement32 mode zSign)) <? 0)
    = (2 ^ 31 <=? zSig + roundIncrement32 mode zSign) /\
  (u32 (zSig + roundIncrement32 mode zSign) <? 0x80000000)
    = negb (2 ^ 31 <=? zSig + roundIncrement32 mode zSign).
Proof.
  intros Hz. rewrite s32_neg by apply u32_word. rewrite u32_mod, Z.mod_small
    by (destruct (roundIncrement32_range mode zSign) as [-> | [-> | ->]]; lia).
  split; [reflexivity | apply Z.ltb_antisym].
Qed.


Lemma s16_small x : - 2 ^ 15 <= x < 2 ^ 15 -> s16 x = x.
Proof. intros. apply sw_small; [lia | unfold is_s; lia]. Qed.

Lemma rounded32_overflow st zSign A B :
  255 * 2 ^ 23 <= ref_mag 24 (float_rounding_mode st) (truthy zSign) A B ->
  rounded32 st zSign A B =
  Some (zSign * 2 ^ 31 + (255 * 2 ^ 23 - b2z (saturates (float_rounding_mode st) (truthy zSign))),
        raised st (float_flag_overflow ||| float_flag_inexact)).
Proof.
  intros H. unfold rounded32, ref_bits, ref_flags, ref_overflow, inf_bits.
  change (24 - 1) with 23. now rewrite (proj2 (Z.leb_le _ _) H).
Qed.

Lemma rounded32_finite st zSign A B :
  ref_mag 24 (float_rounding_mode st) (truthy zSign) A B < 255 * 2 ^ 23 ->
  rounded32 st zSign A B =
  Some (zSign * 2 ^ 31 + ref_mag 24 (float_rounding_mode st) (truthy zSign) A B,
        raised st
          ((if ref_tiny 24 (float_detect_tininess st) (float_rounding_mode st) (truthy zSign) A B
               && ref_inexact 24 A B then float_flag_underflow else 0)
           ||| (if ref_inexact 24 A B then float_flag_inexact else 0))).
Proof.
  intros H. unfold rounded32, ref_bits, ref_flags, ref_overflow, inf_bits.
  change (24 - 1) with 23. now rewrite (proj2 (Z.leb_gt _ _) H).
Qed.

(** The overflow exit. *)
Lemma overflow_exit32 st zSign : fp_ok st -> is_flag zSign ->
  (float_raise (float_flag_overflow ||| float_flag_inexact) ;;
   ret (u32 (packFloat32 zSign 0xFF 0
             - b2z (roundIncrement32 (float_rounding_mode st) zSign =? 0)))) st
  = Some (zSign * 2 ^ 31 + (255 * 2 ^ 23 - b2z (saturates (float_rounding_mode st) (truthy zSign))),
          raised st (float_flag_overflow ||| float_flag_inexact)).
Proof.
  intros Hst Hs. unfold bind. rewrite float_raise_eq by (assumption || flag_range).
  unfold ret. do 2 f_equal. rewrite packFloat32_eq by (assumption || lia).
  rewrite roundIncrement32_saturates by apply mode_ok, Hst. rewrite u32_mod, Z.mod_small; [lia|].
  destruct Hs as [-> | ->], (saturates _ _); cbn [b2z]; lia.
Qed.

(** A normalised significand, exact up to sticky bits below bit 6, is rounded and packed as the
    reference rounds the exact value. *)
Section RoundAndPack32.
Variables (st : fpstate) (zSign zExp zSig N D A B : Z).
Hypothesis (Hst : fp_ok st) (Hs : is_flag zSign) (Hz : 2 ^ 30 <= zSig < 2 ^ 31)
  (He : - 2 ^ 15 < zExp < 2 ^ 15) (HD : 0 < D) (HB : 0 < B) (HA : 0 <= A)
  (Hstk : sticky (2 ^ 6) zSig N D) (Hsc : scaled N D (zExp - 7) A B).

Abbreviation mode := (float_rounding_mode st).
Abbreviation s := (truthy zSign).
Abbreviation r := (round_q (float_rounding_mode st) (truthy zSign) zSig (2 ^ 7)).

Lemma round_range32 : 2 ^ 23 <= r <= 2 ^ 24.
Proof. split; [apply round_q_ge | apply round_q_le]; lia. Qed.

Lemma normal_case32 : 0 <= zExp <= 0xFD -> ~ (zExp = 0xFD /\ 2 ^ 24 <= r) ->
  roundAndPackFloat32_tail (mode =? float_round_nearest_even) (roundIncrement32 mode zSign)
  zSign zExp zSig (zSig &&& 0x7F) st = rounded32 st zSign A B.
Proof.
  intros He' Hno. pose proof round_range32.
  destruct (normal_ref 24 7 mode s zExp zSig N D A B) as (E2 & E3 & E4); try assumption; try lia.
  change (24 - 1) with 23 in *. rewrite rounded32_finite by lia. rewrite E2, E3.
  unfold ref_tiny. change (24 - 1) with 23. rewrite (proj2 (Z.ltb_ge _ _) E4). cbn [andb].
  rewrite Z.lor_0_l, roundAndPackFloat32_tail_eq by (assumption || lia).
  now destruct (zSig mod 2 ^ 7 =? 0).
Qed.

Lemma overflow_case32 : 0xFD <= zExp -> (zExp = 0xFD -> 2 ^ 24 <= r) ->
  255 * 2 ^ 23 <= ref_mag 24 mode s A B.
Proof.
  intros He' Hov. pose proof round_range32.
  destruct (normal_ref 24 7 mode s zExp zSig N D A B) as (E2 & _); try assumption; try lia.
Qed.

Lemma subnormal_case32 : zExp < 0 ->
  (let isTiny := (float_detect_tininess st =? float_tininess_before_rounding)
  || (zExp <? -1) || negb (2 ^ 24 <=? r) in
  let zSig := shift32RightJamming zSig (s16 (- zExp)) in
  let roundBits := zSig &&& 0x7F in
  when_ (isTiny && truthy roundBits) (float_raise float_flag_underflow) ;;
  roundAndPackFloat32_tail (mode =? float_round_nearest_even) (roundIncrement32 mode zSign)
  zSign 0 zSig roundBits) st = rounded32 st zSign A B.
Proof.
  intros Hneg. cbv zeta. unfold s16.
  rewrite sw_small, shift32RightJamming_jam by (lia || (unfold is_u, is_s; change (16 - 1) with 15; lia)).
  pose proof (pow2_pos (- zExp) ltac:(lia)) as HC.
  assert (HJ : sticky (2 ^ 6) (jam zSig (2 ^ (- zExp))) zSig (2 ^ (- zExp)))
    by (apply (sticky_weaken 2 32); now apply sticky_jam).
  set (Z' := jam zSig (2 ^ (- zExp))) in *.
  destruct (subnormal_ref 24 7 mode s zExp zSig N D A B ltac:(lia) ltac:(lia) ltac:(lia) HD HB HA
    Hstk Hsc Z' Hneg HJ) as (R1 & R2 & R4 & R5).
  pose proof (tiny_ref 24 7 mode s zExp zSig N D A B ltac:(lia) ltac:(lia) ltac:(lia) HD HB HA
    Hstk Hsc (float_detect_tininess st) Hneg R2) as T.
  rewrite (Z.ltb_antisym (2 ^ 24)) in T. rewrite <- T.
  pose proof (jam_nonneg zSig (2 ^ (- zExp)) ltac:(lia) HC) as H0. fold Z' in H0.
  assert (round_q mode s Z' (2 ^ 7) <= 2 ^ 23) by (apply round_q_le; lia).
  rewrite rounded32_finite by lia. rewrite R4, R5.
  assert (Et : truthy (Z' &&& 0x7F) = negb (Z' mod 2 ^ 7 =? 0))
    by (change 0x7F with (2 ^ 7 - 1); now rewrite land_ones_mod).
  rewrite Et. unfold bind at 1, when_ at 1. destruct (_ && _) eqn:Eu.
  - rewrite float_raise_eq by (assumption || flag_range).
    change mode with (float_rounding_mode (raised st float_flag_underflow)).
    rewrite roundAndPackFloat32_tail_eq
      by (lia || (apply raised_ok; [assumption | flag_range]) || assumption).
    rewrite raised_raised. cbn [raised float_rounding_mode].
    apply andb_true_iff in Eu as [_ Eu]. apply negb_true_iff in Eu. now rewrite Eu.
  - unfold ret at 1. rewrite roundAndPackFloat32_tail_eq by (lia || assumption).
    now destruct (Z' mod 2 ^ 7 =? 0).
Qed.

Lemma roundAndPackFloat32_ref : roundAndPackFloat32 zSign zExp zSig st = rounded32 st zSign A B.
Proof.
  pose proof (mode_ok st Hst) as Hm. destruct (s32_carry mode zSign zSig ltac:(lia)) as [Ec Et].
  pose proof (round_carry32 mode zSign zSig Hm ltac:(lia)) as Hc.
  unfold roundAndPackFloat32, bind at 1, get_mode. rewrite u16_big, Ec, Et, Hc by lia.
  destruct (Z.leb_spec 0xFD zExp), (Z.ltb_spec zExp 0); try lia; cbn [orb].
  - destruct (Z.ltb_spec 0xFD zExp); cbn [orb].
    + rewrite overflow_exit32, rounded32_overflow by (assumption || apply overflow_case32; lia).
      reflexivity.
    + rewrite (proj2 (Z.eqb_eq zExp 0xFD)) by lia. cbn [andb].
      destruct (Z.leb_spec (2 ^ 24) r).
      * rewrite overflow_exit32, rounded32_overflow by (assumption || apply overflow_case32; lia).
        reflexivity.
      * apply normal_case32; lia.
  - rewrite (proj2 (Z.ltb_ge 0xFD zExp)), (proj2 (Z.eqb_neq zExp 0xFD)) by lia. cbn [orb andb].
    now apply subnormal_case32.
  - apply normal_case32; lia.
Qed.
End RoundAndPack32.
