(* ===== verification/Float32MulDiv.v ===== *)
(** * Single-precision multiplication and division round correctly *)

From S2P Require Import Prelude.
From S2P Require Import CInt.
From S2P Require Import FPState.
From S2P Require Import Rounding.
From S2P Require Import SoftFloatPrim.
From S2P Require Import Float32.
From S2P Require Import Float32Round.
From S2P Require Import Float32Arith.

(** ** Normalised operands *)

(** Exponent and fraction after the subnormal case has been normalised. *)
Definition norm32 (a : Z) : Z * Z :=
  if extractFloat32Exp a =? 0 then normalizeFloat32Subnormal (extractFloat32Frac a)
  else (extractFloat32Exp a, extractFloat32Frac a).

(** The significand with its implicit bit. *)
Definition norm_sig32 (a : Z) : Z := snd (norm32 a) ||| 0x00800000.

Lemma normalizeFloat32Subnormal_eq x : 0 < x < 2 ^ 23 ->
  let '(e, y) := normalizeFloat32Subnormal x in
  -22 <= e <= 0 /\ 2 ^ 23 <= y < 2 ^ 24 /\ y = x * 2 ^ (1 - e).
Proof.
  intros Hx. unfold normalizeFloat32Subnormal. rewrite countLeadingZeros32_log2 by lia.
  pose proof (Z.log2_spec x ltac:(lia)) as [Hl Hh]. pose proof (Z.log2_nonneg x) as Hl0.
  assert (Hl23 : Z.log2 x < 23) by (apply Z.log2_lt_pow2; lia).
  set (l := Z.log2 x) in *. rewrite s8_small, s16_small by lia.
  replace (31 - l - 8) with (23 - l) by lia.
  assert (Hy : 2 ^ 23 <= x * 2 ^ (23 - l) < 2 ^ 24).
  { pose proof (pow2_pos (23 - l) ltac:(lia)). replace (Z.succ l) with (l + 1) in Hh by lia.
    replace (2 ^ 24) with (2 ^ (l + 1) * 2 ^ (23 - l)) by (rewrite <- Z.pow_add_r by lia; f_equal; lia).
    replace (2 ^ 23) with (2 ^ l * 2 ^ (23 - l)) by (rewrite <- Z.pow_add_r by lia; f_equal; lia). nia. }
  rewrite u32_shl_small by lia. repeat split; try lia. f_equal. f_equal. lia.
Qed.

Lemma norm32_spec a : f32_finite a -> 0 < f32_mag a ->
  -22 <= fst (norm32 a) <= 0xFE /\ 0 <= snd (norm32 a) < 2 ^ 24 /\
  2 ^ 23 <= norm_sig32 a < 2 ^ 24 /\
  norm_sig32 a * 2 ^ (fst (norm32 a) + 22) = f32_mag a * 2 ^ 23.
Proof.
  intros [Ha Ea] Hm. destruct (fields32 a Ha) as (_ & _ & He & Hf).
  rewrite f32_mag_fields in Hm |- * by assumption. unfold norm_sig32, norm32.
  change 0x00800000 with (2 ^ 23).
  destruct (Z.eqb_spec (extractFloat32Exp a) 0) as [E0|E0].
  - pose proof (normalizeFloat32Subnormal_eq (extractFloat32Frac a) ltac:(lia)) as H.
    destruct (normalizeFloat32Subnormal _) as [e y]. destruct H as (H1 & H2 & H3). cbn [fst snd].
    assert (E : y ||| 2 ^ 23 = y).
    { replace y with (2 ^ 23 + (y - 2 ^ 23)) by lia.
      rewrite <- (lor_add (2 ^ 23) (y - 2 ^ 23) 23) by (lia || reflexivity).
      rewrite (Z.lor_comm (2 ^ 23)), <- Z.lor_assoc, Z.lor_diag. reflexivity. }
    rewrite E. repeat split; try lia. rewrite H3, <- Z.mul_assoc, <- Z.pow_add_r by lia.
    do 2 f_equal. lia.
  - cbn [fst snd]. rewrite lor_bit by lia. repeat split; try lia.
    rewrite <- Z.mul_assoc, <- Z.pow_add_r by lia. do 2 f_equal. lia.
Qed.

Lemma f32_mag_zero a : is_u 32 a ->
  (f32_mag a =? 0) = (extractFloat32Exp a =? 0) && (extractFloat32Frac a =? 0).
Proof.
  intros Ha. destruct (fields32 a Ha) as (_ & _ & He & Hf). rewrite f32_mag_fields by assumption.
  destruct (Z.eqb_spec (extractFloat32Exp a) 0); cbn [andb]; [reflexivity|].
  apply Z.eqb_neq. pose proof (pow2_pos (extractFloat32Exp a - 1) ltac:(lia)). nia.
Qed.

Lemma lor_eq0 x y : ((x ||| y) =? 0) = (x =? 0) && (y =? 0).
Proof.
  pose proof (truthy_lor x y) as H. unfold truthy in H.
  destruct ((x ||| y) =? 0), (x =? 0), (y =? 0); cbn in *; congruence.
Qed.

Lemma xor_flag x y : is_flag x -> is_flag y -> is_flag (x ^^^ y).
Proof. intros [-> | ->] [-> | ->]; cbv; auto. Qed.

(** ** Multiplication *)

Definition ref_mul32 (st : fpstate) (a b : Z) : option (Z * fpstate) :=
  let s := f32_sign a ^^^ f32_sign b in
  if f32_is_nan a || f32_is_nan b then propagateFloat32NaN a b st
  else if f32_is_inf a then
    (if negb (f32_is_inf b) && (f32_mag b =? 0) then invalid32 st else Some (f32_inf s, st))
  else if f32_is_inf b then
    (if f32_mag a =? 0 then invalid32 st else Some (f32_inf s, st))
  else rounded32 st s (f32_mag a * f32_mag b) (2 ^ 149).

(** The high word of a product with the low word jammed. *)
Lemma jam_words z0 z1 : is_u 32 z1 -> z0 ||| b2z (truthy z1) = jam (z0 * 2 ^ 32 + z1) (2 ^ 32).
Proof.
  unfold is_u. intros H1. unfold jam, truthy.
  rewrite Z.div_add_l, Z.div_small, Z.add_0_r by lia.
  rewrite Z.add_comm, Z.mod_add, Z.mod_small by lia. reflexivity.
Qed.

(** A significand one bit short of normalised is shifted left. *)
Lemma shift_norm32 st zSign zExp zSig N D A B :
  fp_ok st -> is_flag zSign -> 2 ^ 29 <= zSig < 2 ^ 31 -> - 2 ^ 14 < zExp < 2 ^ 14 ->
  0 < D -> 0 < B -> 0 <= A -> sticky 2 zSig N D -> scaled N D (zExp - 7) A B ->
  (let '(zSig, zExp) :=
     if 0 <=? s32 (u32 (zSig << 1)) then (u32 (zSig << 1), s16 (zExp - 1)) else (zSig, zExp) in
   roundAndPackFloat32 zSign zExp zSig) st = rounded32 st zSign A B.
Proof.
  intros Hst Hs Hz He HD HB HA Hstk Hsc. rewrite u32_shl_small by lia. change (2 ^ 1) with 2.
  rewrite Z.leb_antisym, s32_neg, <- Z.ltb_antisym by (unfold is_u; lia).
  destruct (Z.ltb_spec (zSig * 2) (2 ^ 31)).
  - rewrite s16_small by lia.
    apply (roundAndPackFloat32_ref _ _ _ _ (2 * N) D); try assumption; try lia.
    + rewrite Z.mul_comm. apply (sticky_weaken (2 * 2) 16). now apply sticky_scale.
    + rewrite Z.mul_comm. apply (scaled_unshift _ _ _ _ _ 1); [lia|].
      now replace (zExp - 1 - 7 + 1) with (zExp - 7) by lia.
  - apply (roundAndPackFloat32_ref _ _ _ _ N D); try assumption; try lia.
    now apply (sticky_weaken 2 32).
Qed.

Lemma float32_mul_tail_ref st zSign a b : fp_ok st -> is_flag zSign ->
  f32_finite a -> f32_finite b -> 0 < f32_mag a -> 0 < f32_mag b ->
  float32_mul_tail zSign (fst (norm32 a)) (snd (norm32 a)) (fst (norm32 b)) (snd (norm32 b)) st
  = rounded32 st zSign (f32_mag a * f32_mag b) (2 ^ 149).
Proof.
  intros Hst Hs Ha Hb Ma Mb.
  destruct (norm32_spec a Ha Ma) as (Ra & _ & Sa & Va). destruct (norm32_spec b Hb Mb) as (Rb & _ & Sb & Vb).
  unfold float32_mul_tail. fold (norm_sig32 a) (norm_sig32 b).
  set (m := norm_sig32 a) in *. set (n := norm_sig32 b) in *.
  set (ea := fst (norm32 a)) in *. set (eb := fst (norm32 b)) in *.
  rewrite (u32_shl_small m), (u32_shl_small n), (s16_small (ea + eb - 127)) by lia.
  destruct (mul32To64_val (m * 2 ^ 7) (n * 2 ^ 8)) as [[W0 W1] V]; [unfold is_u; lia | unfold is_u; lia|].
  destruct (mul32To64 _ _) as [z0 z1]. unfold val64 in V. cbn [fst snd] in *.
  rewrite jam_words, V by assumption.
  assert (HP : 2 ^ 61 <= m * 2 ^ 7 * (n * 2 ^ 8) < 2 ^ 63) by nia.
  pose proof (div_pow2_range (m * 2 ^ 7 * (n * 2 ^ 8)) 32 63 ltac:(lia) ltac:(lia)) as HQ.
  assert (HJ : 2 ^ 29 <= jam (m * 2 ^ 7 * (n * 2 ^ 8)) (2 ^ 32) < 2 ^ 31).
  { split.
    - assert (2 ^ 29 <= m * 2 ^ 7 * (n * 2 ^ 8) / 2 ^ 32) by (apply Z.div_le_lower_bound; lia).
      unfold jam. destruct (_ =? 0); cbn [negb b2z]; [rewrite Z.lor_0_r; lia|].
      rewrite lor_1. dlia.
    - unfold jam. apply lor_b2z_range; lia. }
  apply shift_norm32 with (N := m * 2 ^ 7 * (n * 2 ^ 8)) (D := 2 ^ 32); try assumption; try lia.
  - apply sticky_jam. lia.
  - apply (scaled_intro _ _ _ _ _ 178); [lia | lia |].
    replace (ea + eb - 127 - 7 + 178) with (ea + 22 + (eb + 22)) by lia. rewrite Z.pow_add_r by lia.
    replace (m * 2 ^ 7 * (n * 2 ^ 8) * (2 ^ (ea + 22) * 2 ^ (eb + 22)) * 2 ^ 149)
      with (m * 2 ^ (ea + 22) * (n * 2 ^ (eb + 22)) * 2 ^ 164) by ring.
    rewrite Va, Vb. ring.
Qed.

(** The rounding depends on the rational only. *)
Lemma rounded32_frac st s N D N' D' : 0 < D -> 0 < D' -> N * D' = N' * D ->
  rounded32 st s N D = rounded32 st s N' D'.
Proof.
  intros HD HD' E. unfold rounded32.
  rewrite (ref_bits_frac 24 255 _ _ N D N' D'), (ref_flags_frac 24 255 ltac:(lia) _ _ _ N D N' D')
    by assumption. reflexivity.
Qed.

(** Zero results. *)
Lemma pack_zero32 st s D : is_flag s -> 0 < D ->
  ret (packFloat32 s 0 0) st = rounded32 st s 0 D.
Proof.
  intros Hs HD. unfold ret. rewrite packFloat32_eq by (assumption || lia).
  rewrite (rounded32_frac st s 0 D 0 1) by lia. symmetry. apply (rounded32_small st s 0). lia.
Qed.

Lemma nonspecial32 a : extractFloat32Exp a <> 0xFF ->
  f32_is_nan a = false /\ f32_is_inf a = false.
Proof. intros H. unfold f32_is_nan, f32_is_inf. now rewrite (proj2 (Z.eqb_neq _ _) H). Qed.

Lemma float32_mul_finite st a b : fp_ok st -> f32_finite a -> f32_finite b ->
  float32_mul a b st
  = rounded32 st (f32_sign a ^^^ f32_sign b) (f32_mag a * f32_mag b) (2 ^ 149).
Proof.
  intros Hst [Ha Ea] [Hb Eb].
  pose proof (f32_mag_nonneg a Ha). pose proof (f32_mag_nonneg b Hb).
  assert (Hs : is_flag (f32_sign a ^^^ f32_sign b)) by (apply xor_flag; now apply f32_sign_flag).
  unfold float32_mul. rewrite !sign32_div. change (a / 2 ^ 31) with (f32_sign a).
  change (b / 2 ^ 31) with (f32_sign b). set (s := f32_sign a ^^^ f32_sign b) in *.
  rewrite (proj2 (Z.eqb_neq (extractFloat32Exp a) 0xFF)), (proj2 (Z.eqb_neq (extractFloat32Exp b) 0xFF)) by lia.
  rewrite <- !f32_mag_zero by assumption.
  destruct (Z.eqb_spec (f32_mag a) 0) as [Za|Za]; [rewrite Za; now apply pack_zero32|].
  fold (norm32 a) (norm32 b). rewrite (surjective_pairing (norm32 a)), (surjective_pairing (norm32 b)).
  destruct (Z.eqb_spec (f32_mag b) 0) as [Zb|Zb]; [rewrite Zb, Z.mul_0_r; now apply pack_zero32|].
  apply float32_mul_tail_ref; first [assumption | split; assumption | lia].
Qed.

(** Single-precision multiplication returns the exact product rounded in the current mode, with
    exactly the exceptions of that rounding, for all finite operands including subnormals;
    zero times infinity is invalid, and NaN operands propagate. *)
Lemma float32_mul_correct st a b : fp_ok st -> is_u 32 a -> is_u 32 b ->
  float32_mul a b st = ref_mul32 st a b.
Proof.
  intros Hst Ha Hb. unfold ref_mul32.
  destruct (Z.eq_dec (extractFloat32Exp a) 0xFF) as [Ea|Ea];
    [|destruct (Z.eq_dec (extractFloat32Exp b) 0xFF) as [Eb|Eb]].
  3: { destruct (nonspecial32 a Ea) as [-> ->], (nonspecial32 b Eb) as [-> ->]. cbn [orb].
       destruct (fields32 a Ha) as (_ & _ & ? & _), (fields32 b Hb) as (_ & _ & ? & _).
       apply float32_mul_finite; [assumption | split; [assumption | lia] | split; [assumption | lia]]. }
  all: assert (Hs : is_flag (f32_sign a ^^^ f32_sign b)) by (apply xor_flag; now apply f32_sign_flag).
  all: unfold float32_mul; rewrite !sign32_div; change (a / 2 ^ 31) with (f32_sign a);
    change (b / 2 ^ 31) with (f32_sign b); set (s := f32_sign a ^^^ f32_sign b) in *.
  all: rewrite !lor_eq0, <- !f32_mag_zero by assumption.
  all: unfold f32_is_nan, f32_is_inf, truthy; rewrite Ea || rewrite Eb; rewrite Z.eqb_refl; cbn [andb orb].
  - destruct (extractFloat32Frac a =? 0); cbn [negb orb]; [|reflexivity].
    destruct ((extractFloat32Exp b =? 255) && negb (extractFloat32Frac b =? 0)) eqn:Nb; [reflexivity|].
    destruct (Z.eqb_spec (f32_mag b) 0) as [Zb|]; [|rewrite andb_false_r; now apply pack_inf32].
    pose proof (f32_mag_zero b Hb) as Mb. rewrite Zb in Mb. symmetry in Mb.
    apply andb_true_iff in Mb as [Mb1 Mb2]. apply Z.eqb_eq in Mb1. rewrite Mb1. now apply invalid32_eq.
  - rewrite (proj2 (Z.eqb_neq _ _) Ea). cbn [andb orb].
    destruct (extractFloat32Frac b =? 0); cbn [negb]; [|reflexivity].
    destruct (f32_mag a =? 0); [now apply invalid32_eq | now apply pack_inf32].
Qed.

(** ** Division *)

Definition ref_div32 (st : fpstate) (a b : Z) : option (Z * fpstate) :=
  let s := f32_sign a ^^^ f32_sign b in
  if f32_is_nan a || f32_is_nan b then propagateFloat32NaN a b st
  else if f32_is_inf a then
    (if f32_is_inf b then invalid32 st else Some (f32_inf s, st))
  else if f32_is_inf b then Some (s * 2 ^ 31, st)
  else if f32_mag b =? 0 then
    (if f32_mag a =? 0 then invalid32 st else Some (f32_inf s, raised st float_flag_divbyzero))
  else rounded32 st s (f32_mag a * 2 ^ 149) (f32_mag b).

(** The sign of a 64-bit remainder that is a few divisors below zero. *)
Lemma rem_sign b R n r0 r1 : 0 < b < 2 ^ 32 -> 0 <= R < b -> 0 <= n <= 2 ->
  words64 (r0, r1) -> val64 (r0, r1) = (R - b * n) mod 2 ^ 64 -> (s32 r0 <? 0) = (0 <? n).
Proof.
  intros Hb HR Hn [W0 W1] Hv. cbn [fst snd] in *. rewrite s32_neg by assumption.
  unfold val64, is_u in *. cbn [fst snd] in *.
  assert (C : n = 0 \/ n = 1 \/ n = 2) by lia. destruct C as [-> | [-> | ->]]; cbn [Z.ltb Z.compare].
  - rewrite Z.mod_small in Hv by lia. apply Z.leb_gt. lia.
  - rewrite <- (Z.mod_add _ 1) in Hv by lia. rewrite Z.mod_small in Hv by lia. apply Z.leb_le. lia.
  - rewrite <- (Z.mod_add _ 1) in Hv by lia. rewrite Z.mod_small in Hv by lia. apply Z.leb_le. lia.
Qed.

(** The remainder loop brings an overestimate by at most two down to the quotient. *)
Lemma float32_div_loop fuel A b q n r0 r1 : (2 < fuel)%nat ->
  0 < b < 2 ^ 32 -> 0 <= q -> q + 2 < 2 ^ 32 -> 0 <= n <= 2 -> 0 <= A - b * q < b ->
  words64 (r0, r1) -> val64 (r0, r1) = (A - b * (q + n)) mod 2 ^ 64 ->
  exists r0' r1',
    while fuel (fun s => s32 (snd (fst s)) <? 0) (float32_div_body b) (q + n, r0, r1)
      = Some (q, r0', r1') /\ words64 (r0', r1') /\ val64 (r0', r1') = A - b * q.
Proof.
  intros Hf Hb Hq Hq2 Hn HR Hw Hv.
  pose (I := fun (k : nat) (s : Z * Z * Z) => exists r0 r1,
    s = (q + Z.of_nat k, r0, r1) /\ (k <= 2)%nat /\ words64 (r0, r1) /\
    val64 (r0, r1) = (A - b * q - b * Z.of_nat k) mod 2 ^ 64).
  destruct (while_rule (fun s => s32 (snd (fst s)) <? 0) (float32_div_body b) I)
    with (n := Z.to_nat n) (fuel := fuel) (s := (q + n, r0, r1))
    as (s' & k' & -> & Hc & (y0 & y1 & -> & Hk' & Hw' & Hv')).
  - intros k s (x0 & x1 & -> & Hk & Hx & Hvx) Hc. cbn [fst snd] in Hc.
    rewrite (rem_sign b (A - b * q) (Z.of_nat k) x0 x1) in Hc by (assumption || lia).
    apply Z.ltb_lt in Hc. exists (k - 1)%nat. split; [lia|]. unfold float32_div_body.
    assert (Wb : words64 (0, b)) by (split; cbn; unfold is_u; lia).
    destruct (add64_val x0 x1 0 b Hx Wb) as [Wa Va]. destruct (add64 x0 x1 0 b) as [z0 z1].
    exists z0, z1. split; [|split; [lia | split; [exact Wa|]]].
    + do 2 f_equal. rewrite u32_small by lia. lia.
    + rewrite Va, Hvx, Zplus_mod_idemp_l. unfold val64. cbn [fst snd]. 
      replace (Z.of_nat (k - 1)) with (Z.of_nat k - 1) by lia. f_equal. ring.
  - exists r0, r1. rewrite Z2Nat.id by lia. repeat split; try lia; try apply Hw.
    rewrite Hv. f_equal. lia.
  - lia.
  - cbn [fst snd] in Hc. rewrite (rem_sign b (A - b * q) (Z.of_nat k') y0 y1) in Hc by (assumption || lia).
    apply Z.ltb_ge in Hc. assert (Z.of_nat k' = 0) as E by lia. rewrite E in *.
    rewrite Z.add_0_r. exists y0, y1. split; [reflexivity|]. split; [assumption|].
    rewrite Hv'. rewrite Z.mul_0_r, Z.sub_0_r. apply Z.mod_small. lia.
Qed.

(** The quotient significand stands for the exact quotient up to bits below bit 6. *)
Lemma float32_div_sig_sticky fuel a b : (2 < fuel)%nat ->
  2 ^ 29 <= a < 2 ^ 31 -> 2 ^ 31 <= b < 2 ^ 32 -> b <= 4 * a -> 2 * a < b ->
  exists z, float32_div_sig fuel a b = Some z /\ 2 ^ 30 <= z < 2 ^ 31 /\ sticky (2 ^ 6) z (a * 2 ^ 32) b.
Proof.
  intros Hf Ha Hb Hlo Hhi. unfold float32_div_sig.
  destruct (estimateDiv64To32_bounds fuel a 0 b Hf Hb ltac:(lia) ltac:(apply zero_word; lia))
    as (z & -> & Hz & Hz32).
  rewrite Z.add_0_r in Hz. pose proof (div_bounds (a * 2 ^ 32) b ltac:(lia)) as Hq.
  set (q := a * 2 ^ 32 / b) in *.
  assert (Hq30 : 2 ^ 30 <= q) by (apply Z.div_le_lower_bound; lia).
  assert (Hq31 : q < 2 ^ 31) by (apply Z.div_lt_upper_bound; lia).
  change 0x3F with (2 ^ 6 - 1). rewrite land_ones_mod by lia.
  destruct (Z.leb_spec (z mod 2 ^ 6) 2) as [Hm|Hm].
  - assert (Wz : is_u 32 z) by (unfold is_u; lia).
    destruct (mul32To64_val b z ltac:(unfold is_u; lia) Wz) as [Wm Vm].
    destruct (mul32To64 b z) as [t0 t1].
    destruct (sub64_val a 0 t0 t1 ltac:(split; cbn; unfold is_u; lia) Wm) as [Ws Vs].
    destruct (sub64 a 0 t0 t1) as [r0 r1]. rewrite Vm in Vs.
    destruct (float32_div_loop fuel (a * 2 ^ 32) b q (z - q) r0 r1) as (r0' & r1' & Hl & [Wr0 Wr1] & Vr);
      try assumption; try lia.
    { rewrite Vs. unfold val64. cbn [fst snd]. f_equal. lia. }
    replace (q + (z - q)) with z in Hl by lia. rewrite Hl. eexists. split; [reflexivity|].
    unfold val64 in Vr. cbn [fst snd] in *. unfold is_u in *.
    assert (r0' = 0) by lia. assert (Er : r1' = (a * 2 ^ 32) mod b) by (rewrite Z.mod_eq; fold q; lia).
    assert (EJ : q ||| b2z (truthy r1') = jam (a * 2 ^ 32) b) by (rewrite Er; reflexivity).
    rewrite EJ. split; [|apply (sticky_weaken 2 32), sticky_jam; lia].
    rewrite <- EJ. split; [|apply lor_b2z_range; lia].
    destruct (truthy r1'); cbn [b2z]; [rewrite lor_1; dlia | rewrite Z.lor_0_r; lia].
  - pose proof (Z.div_mod z (2 ^ 6) ltac:(lia)) as Ez. pose proof (Z.mod_pos_bound z (2 ^ 6) ltac:(lia)).
    eexists. split; [reflexivity|]. split; [split; [lia|]|].
    + destruct (Z.lt_ge_cases z (2 ^ 31)); [assumption|]. assert (C : z = 2 ^ 31 \/ z = 2 ^ 31 + 1) by lia.
      exfalso. destruct C as [C | C]; rewrite C in Hm; cbv in Hm; discriminate.
    + apply (sticky_intro _ _ _ _ (z / 2 ^ 6)); [lia | lia | |].
      * set (h := z / 2 ^ 6) in *. assert (2 ^ 6 * h + 1 <= q < 2 ^ 6 * (h + 1)) by lia. nia.
      * set (h := z / 2 ^ 6) in *. assert (2 ^ 6 * h + 1 <= q) by lia. split; intros; exfalso; nia.
Qed.

(** The exponent of the quotient. *)
Lemma div_scaled32 m n ea eb ma mb : -22 <= ea <= 0xFE -> -22 <= eb <= 0xFE ->
  m * 2 ^ (ea + 22) = ma * 2 ^ 23 -> n * 2 ^ (eb + 22) = mb * 2 ^ 23 ->
  scaled (m * 2 ^ 7 * 2 ^ 32) (n * 2 ^ 8) (ea - eb + 125 - 7) (ma * 2 ^ 149) mb.
Proof.
  intros Ha Hb Va Vb. apply (scaled_intro _ _ _ _ _ 200); [lia | lia |].
  apply (Z.mul_reg_r _ _ (2 ^ 23)); [lia|].
  replace (m * 2 ^ 7 * 2 ^ 32 * 2 ^ (ea - eb + 125 - 7 + 200) * mb * 2 ^ 23)
    with (m * 2 ^ 7 * 2 ^ 32 * 2 ^ (ea - eb + 125 - 7 + 200) * (mb * 2 ^ 23)) by ring.
  replace (ma * 2 ^ 149 * (n * 2 ^ 8 * 2 ^ 200) * 2 ^ 23)
    with (ma * 2 ^ 23 * (2 ^ 149 * (n * 2 ^ 8 * 2 ^ 200))) by ring.
  rewrite <- Va, <- Vb.
  replace (m * 2 ^ 7 * 2 ^ 32 * 2 ^ (ea - eb + 125 - 7 + 200) * (n * 2 ^ (eb + 22)))
    with (m * n * 2 ^ 39 * (2 ^ (ea - eb + 125 - 7 + 200) * 2 ^ (eb + 22))) by ring.
  rewrite <- Z.pow_add_r by lia.
  replace (ea - eb + 125 - 7 + 200 + (eb + 22)) with (ea + 22 + 318) by lia.
  rewrite Z.pow_add_r by lia. ring.
Qed.

Lemma float32_div_tail_ref st fuel zSign a b : (2 < fuel)%nat -> fp_ok st -> is_flag zSign ->
  f32_finite a -> f32_finite b -> 0 < f32_mag a -> 0 < f32_mag b ->
  float32_div_tail fuel zSign (fst (norm32 a)) (snd (norm32 a)) (fst (norm32 b)) (snd (norm32 b)) st
  = rounded32 st zSign (f32_mag a * 2 ^ 149) (f32_mag b).
Proof.
  intros Hf Hst Hs Ha Hb Ma Mb.
  destruct (norm32_spec a Ha Ma) as (Ra & _ & Sa & Va). destruct (norm32_spec b Hb Mb) as (Rb & _ & Sb & Vb).
  unfold float32_div_tail. fold (norm_sig32 a) (norm_sig32 b).
  set (m := norm_sig32 a) in *. set (n := norm_sig32 b) in *.
  set (ea := fst (norm32 a)) in *. set (eb := fst (norm32 b)) in *.
  pose proof (div_scaled32 m n ea eb _ _ Ra Rb Va Vb) as Hsc.
  rewrite (u32_shl_small m), (u32_shl_small n), (s16_small (ea - eb + 125)), u32_small by lia.
  destruct (Z.leb_spec (n * 2 ^ 8) (m * 2 ^ 7 + m * 2 ^ 7)).
  - rewrite s16_small, shr_div by lia. replace (m * 2 ^ 7 / 2 ^ 1) with (m * 2 ^ 6) by dlia.
    destruct (float32_div_sig_sticky fuel (m * 2 ^ 6) (n * 2 ^ 8)) as (z & Ez & Hz & Hstk); try lia.
    unfold bind, lift. rewrite Ez.
    apply (roundAndPackFloat32_ref _ _ _ _ (m * 2 ^ 6 * 2 ^ 32) (n * 2 ^ 8)); try assumption; try lia.
    replace (ea - eb + 125 + 1 - 7) with (ea - eb + 125 - 7 + 1) by lia.
    apply scaled_shift; [lia|]. now replace (m * 2 ^ 6 * 2 ^ 32 * 2 ^ 1) with (m * 2 ^ 7 * 2 ^ 32) by lia.
  - destruct (float32_div_sig_sticky fuel (m * 2 ^ 7) (n * 2 ^ 8)) as (z & Ez & Hz & Hstk); try lia.
    unfold bind, lift. rewrite Ez.
    apply (roundAndPackFloat32_ref _ _ _ _ (m * 2 ^ 7 * 2 ^ 32) (n * 2 ^ 8)); try assumption; try lia.
Qed.

Lemma float32_div_finite st fuel a b : (2 < fuel)%nat -> fp_ok st -> f32_finite a -> f32_finite b ->
  0 < f32_mag b ->
  float32_div fuel a b st
  = rounded32 st (f32_sign a ^^^ f32_sign b) (f32_mag a * 2 ^ 149) (f32_mag b).
Proof.
  intros Hf Hst [Ha Ea] [Hb Eb] Mb. pose proof (f32_mag_nonneg a Ha).
  assert (Hs : is_flag (f32_sign a ^^^ f32_sign b)) by (apply xor_flag; now apply f32_sign_flag).
  unfold float32_div. rewrite !sign32_div. change (a / 2 ^ 31) with (f32_sign a).
  change (b / 2 ^ 31) with (f32_sign b). set (s := f32_sign a ^^^ f32_sign b) in *.
  rewrite (proj2 (Z.eqb_neq (extractFloat32Exp a) 0xFF)), (proj2 (Z.eqb_neq (extractFloat32Exp b) 0xFF)) by lia.
  rewrite <- !f32_mag_zero by assumption. rewrite (proj2 (Z.eqb_neq (f32_mag b) 0)) by lia.
  fold (norm32 a) (norm32 b). rewrite (surjective_pairing (norm32 a)), (surjective_pairing (norm32 b)).
  destruct (Z.eqb_spec (f32_mag a) 0) as [Za|Za]; [rewrite Za; now apply pack_zero32|].
  apply float32_div_tail_ref; first [assumption | split; assumption | lia].
Qed.

(** Single-precision division terminates (its estimates need at most two corrections each) and
    returns the exact quotient rounded in the current mode, with exactly the exceptions of that
    rounding; a finite nonzero operand over zero raises divide-by-zero and gives infinity, 0/0
    and inf/inf are invalid. *)
Lemma float32_div_correct st fuel a b : (2 < fuel)%nat -> fp_ok st -> is_u 32 a -> is_u 32 b ->
  float32_div fuel a b st = ref_div32 st a b.
Proof.
  intros Hf Hst Ha Hb. unfold ref_div32.
  assert (Hs : is_flag (f32_sign a ^^^ f32_sign b)) by (apply xor_flag; now apply f32_sign_flag).
  destruct (fields32 a Ha) as (_ & _ & Ra & _), (fields32 b Hb) as (_ & _ & Rb & _).
  pose proof (f32_mag_nonneg b Hb).
  destruct (Z.eq_dec (extractFloat32Exp a) 0xFF) as [Ea|Ea];
    [|destruct (Z.eq_dec (extractFloat32Exp b) 0xFF) as [Eb|Eb];
      [|destruct (Z.eq_dec (f32_mag b) 0) as [Mb|Mb]]].
  4: { destruct (nonspecial32 a Ea) as [-> ->], (nonspecial32 b Eb) as [-> ->]. cbn [orb].
       rewrite (proj2 (Z.eqb_neq _ _) Mb).
       apply float32_div_finite; first [assumption | lia | split; [assumption | lia]]. }
  all: unfold float32_div; rewrite !sign32_div; change (a / 2 ^ 31) with (f32_sign a);
    change (b / 2 ^ 31) with (f32_sign b); set (s := f32_sign a ^^^ f32_sign b) in *.
  all: rewrite !lor_eq0, <- !f32_mag_zero by assumption.
  all: unfold f32_is_nan, f32_is_inf, truthy.
  - rewrite Ea, Z.eqb_refl. cbn [andb]. destruct (extractFloat32Frac a =? 0); cbn [negb orb]; [|reflexivity].
    destruct (extractFloat32Exp b =? 255); cbn [andb]; [|now apply pack_inf32].
    destruct (extractFloat32Frac b =? 0); cbn [negb]; [now apply invalid32_eq | reflexivity].
  - rewrite (proj2 (Z.eqb_neq _ _) Ea), Eb, Z.eqb_refl. cbn [andb orb].
    destruct (extractFloat32Frac b =? 0); cbn [negb]; [|reflexivity].
    unfold ret. rewrite packFloat32_eq by (assumption || lia).
    change (0 * 2 ^ 23 + 0) with 0. now rewrite Z.add_0_r.
  - rewrite (proj2 (Z.eqb_neq _ _) Ea), (proj2 (Z.eqb_neq _ _) Eb), Mb. cbn [andb orb Z.eqb].
    destruct (f32_mag a =? 0); [now apply invalid32_eq|]. unfold bind.
    rewrite float_raise_eq by (assumption || flag_range). now apply pack_inf32.
Qed.

(** C4: Single-precision multiplication and division return the exact product or quotient rounded in
    the current mode, with exactly the exceptions of that rounding, for all finite operands
    including subnormals; the division terminates (its estimates need at most two corrections
    each).  Zero times infinity, 0/0 and inf/inf are invalid, a finite nonzero operand over zero
    raises divide-by-zero and gives infinity, and NaN operands propagate. *)
Theorem float32_products_correct st fuel a b : (2 < fuel)%nat -> fp_ok st -> is_u 32 a -> is_u 32 b ->
  float32_mul a b st = ref_mul32 st a b /\ float32_div fuel a b st = ref_div32 st a b.
Proof. intros. split; [now apply float32_mul_correct | now apply float32_div_correct]. Qed.

(** The square of the least subnormal underflows; 1/3 is inexact. *)
Lemma float32_products_witness :
  float32_mul 0x00000001 0x00000001 fp_init
    = Some (0, raised fp_init (float_flag_underflow ||| float_flag_inexact)) /\
  float32_div 3 0x3F800000 0x40400000 fp_init = Some (0x3EAAAAAB, raised fp_init float_flag_inexact).
Proof.
  split.
  - rewrite (proj1 (float32_products_correct fp_init 3 0x00000001 0x00000001 ltac:(lia) fp_init_ok
      ltac:(unfold is_u; lia) ltac:(unfold is_u; lia))). vm_compute. reflexivity.
  - rewrite (proj2 (float32_products_correct fp_init 3 0x3F800000 0x40400000 ltac:(lia) fp_init_ok
      ltac:(unfold is_u; lia) ltac:(unfold is_u; lia))). vm_compute. reflexivity.
Defined.
