(* ===== verification/Float32Sqrt.v ===== *)
(** * Single-precision square root rounds correctly *)

From S2P Require Import Prelude.
From S2P Require Import CInt.
From S2P Require Import FPState.
From S2P Require Import Rounding.
From S2P Require Import SoftFloatPrim.
From S2P Require Import SqrtEstimate.
From S2P Require Import Float32.
From S2P Require Import Float32Round.
From S2P Require Import Float32Arith.
From S2P Require Import Float32MulDiv.

(** ** Specification *)

(** The root of [f32_mag a * 2^-149], in units of 2^-149, is the root of [f32_mag a * 2^149]. *)
Definition ref_sqrt32 (st : fpstate) (a : Z) : option (Z * fpstate) :=
  if f32_is_nan a then propagateFloat32NaN a 0 st
  else if f32_mag a =? 0 then Some (a, st)
  else if f32_sign a =? 1 then invalid32 st
  else if f32_is_inf a then Some (a, st)
  else rounded32 st 0 (root_num (f32_mag a * 2 ^ 149)) 2.

(** ** The correction loop *)

(** The remainder of a root that is up to [k] too large. *)
Lemma root_rem_sign X s k r0 r1 : s * s <= X < (s + 1) * (s + 1) -> 0 <= s < 2 ^ 32 -> 0 <= k <= 4 ->
  words64 (r0, r1) -> val64 (r0, r1) = (X - (s + k) * (s + k)) mod 2 ^ 64 -> (s32 r0 <? 0) = (0 <? k).
Proof.
  intros HX Hs Hk [W0 W1] Hv. cbn [fst snd] in *. rewrite s32_neg by assumption.
  unfold val64, is_u in *. cbn [fst snd] in *. destruct (Z.ltb_spec 0 k).
  - rewrite <- (Z.mod_add _ 1), Z.mod_small in Hv by nia. apply Z.leb_le. nia.
  - replace k with 0 in Hv by lia. rewrite Z.mod_small in Hv by nia. apply Z.leb_gt. nia.
Qed.

(** One turn of the loop adds [2 z + 1] to the remainder. *)
Lemma root_step X z r0 r1 : 0 <= z < 2 ^ 32 -> words64 (r0, r1) ->
  val64 (r0, r1) = (X - (z + 1) * (z + 1)) mod 2 ^ 64 ->
  let '(t0, t1) := shortShift64Left 0 z 1 in
  words64 (add64 r0 r1 t0 (t1 ||| 1)) /\ val64 (add64 r0 r1 t0 (t1 ||| 1)) = (X - z * z) mod 2 ^ 64.
Proof.
  intros Hz Hw Hv. destruct (shortShift64Left_val 0 z 1) as [Wt Vt];
    [split; cbn; unfold is_u; lia|lia|unfold val64; cbn; lia|].
  destruct (shortShift64Left 0 z 1) as [t0 t1]. destruct Wt as [W0 W1].
  unfold val64 in Vt. cbn [fst snd] in *. unfold is_u in *.
  assert (Et : t1 ||| 1 = t1 + 1) by (rewrite lor_1; dlia).
  assert (H1 : t1 + 1 < 2 ^ 32) by lia.
  rewrite Et. destruct (add64_val r0 r1 t0 (t1 + 1) Hw) as [Wa Va]; [split; cbn; unfold is_u; lia|].
  split; [exact Wa|]. rewrite Va, Hv. unfold val64. cbn [fst snd].
  rewrite Zplus_mod_idemp_l. f_equal. lia.
Qed.

Lemma float32_sqrt_loop fuel X s k r0 r1 : (4 < fuel)%nat ->
  s * s <= X < (s + 1) * (s + 1) -> 0 <= s -> s + k < 2 ^ 32 -> 0 <= k <= 4 ->
  words64 (r0, r1) -> val64 (r0, r1) = (X - (s + k) * (s + k)) mod 2 ^ 64 ->
  exists r0' r1', while fuel (fun s => s32 (snd (fst s)) <? 0) float32_sqrt_body (s + k, r0, r1)
    = Some (s, r0', r1') /\ words64 (r0', r1') /\ val64 (r0', r1') = X - s * s.
Proof.
  intros Hf HX Hs Hsk Hk Hw Hv.
  pose (I := fun (n : nat) (y : Z * Z * Z) => exists x0 x1, y = (s + Z.of_nat n, x0, x1) /\
    Z.of_nat n <= k /\ words64 (x0, x1) /\
    val64 (x0, x1) = (X - (s + Z.of_nat n) * (s + Z.of_nat n)) mod 2 ^ 64).
  destruct (while_rule (fun s => s32 (snd (fst s)) <? 0) float32_sqrt_body I)
    with (n := Z.to_nat k) (fuel := fuel) (s := (s + k, r0, r1))
    as (y & n & Hr & Hc & (x0 & x1 & -> & Hn & Hx & Hvx)).
  - intros n y (x0 & x1 & -> & Hn & Hx & Hvx) Hc. cbn [fst snd] in Hc.
    rewrite (root_rem_sign X s (Z.of_nat n) x0 x1) in Hc by (assumption || lia). apply Z.ltb_lt in Hc.
    exists (n - 1)%nat. split; [lia|]. cbn [float32_sqrt_body]. rewrite u32_small by lia.
    set (z := s + Z.of_nat n - 1). assert (Hz : s + Z.of_nat (n - 1) = z) by (unfold z; lia).
    replace (s + Z.of_nat n) with (z + 1) in Hvx by (unfold z; lia).
    pose proof (root_step X z x0 x1 ltac:(unfold z; lia) Hx Hvx) as Hstep.
    destruct (shortShift64Left 0 z 1) as [t0 t1], Hstep as [Ha Va].
    destruct (add64 x0 x1 t0 (t1 ||| 1)) as [y0 y1]. exists y0, y1.
    rewrite Hz. repeat split; try assumption; try lia; apply Ha.
  - exists r0, r1. rewrite Z2Nat.id by lia. repeat split; try assumption; try lia; apply Hw.
  - lia.
  - cbn [fst snd] in Hc. rewrite (root_rem_sign X s (Z.of_nat n) x0 x1) in Hc by (assumption || lia).
    apply Z.ltb_ge in Hc. replace n with 0%nat in * by lia. cbn [Z.of_nat] in *. rewrite Z.add_0_r in *.
    exists x0, x1. split; [exact Hr|]. split; [exact Hx|]. rewrite Hvx. apply Z.mod_small. nia.
Qed.

(** ** The significand of the root *)

(** Halving with a sticky bit. *)
Lemma root_halve z X : is_u 32 z -> root_sticky 128 z X ->
  forall j, 0 <= j -> (shift32RightJamming z 1 ?= 64 * j) = (X ?= 128 * j * (128 * j)).
Proof.
  intros Hz H j Hj. rewrite shift32RightJamming_jam by (assumption || lia).
  pose proof (sticky_weaken 2 32 _ _ _ (sticky_jam z (2 ^ 1) ltac:(lia)) j) as E.
  change (2 * 32) with 64 in E. rewrite E, <- (H j Hj). f_equal. lia.
Qed.

(** The exact path: the remainder decides the sticky bit. *)
Lemma float32_sqrt_exact fuel a z : (4 < fuel)%nat -> is_u 32 a -> is_u 32 z ->
  let X := a * 2 ^ 32 in 4 <= z -> (z - 4) * (z - 4) < X < z * z ->
  exists r0 r1, (let '(t0, t1) := mul32To64 z z in let '(r0, r1) := sub64 a 0 t0 t1 in
     while fuel (fun s => s32 (snd (fst s)) <? 0) float32_sqrt_body (z, r0, r1))
  = Some (Z.sqrt X, r0, r1) /\ truthy (r0 ||| r1) = negb (Z.sqrt X * Z.sqrt X =? X).
Proof.
  intros Hf Ha Hz X Hz4 HX. unfold is_u in Ha, Hz.
  assert (HX0 : 0 <= X) by (unfold X; lia). destruct (Z.sqrt_spec X HX0) as [Hl Hh].
  pose proof (Z.sqrt_nonneg X) as Hs. set (s := Z.sqrt X) in *. clearbody s. unfold Z.succ in Hh.
  assert (Hk : 1 <= z - s <= 4) by nia.
  destruct (mul32To64_val z z ltac:(unfold is_u; lia) ltac:(unfold is_u; lia)) as [Wt Vt].
  destruct (mul32To64 z z) as [t0 t1].
  destruct (sub64_val a 0 t0 t1 ltac:(split; cbn; unfold is_u; lia) Wt) as [Wr Vr].
  destruct (sub64 a 0 t0 t1) as [r0 r1].
  assert (Vr' : val64 (r0, r1) = (X - (s + (z - s)) * (s + (z - s))) mod 2 ^ 64).
  { rewrite Vr, Vt. unfold val64, X. cbn [fst snd]. f_equal. ring. }
  destruct (float32_sqrt_loop fuel X s (z - s) r0 r1 Hf (conj Hl Hh) Hs ltac:(lia) ltac:(lia) Wr Vr')
    as (x0 & x1 & Hr & Wx & Vx). replace (s + (z - s)) with z in Hr by lia.
  exists x0, x1. split; [exact Hr|]. destruct Wx as [W0 W1]. unfold val64, is_u in *. cbn [fst snd] in *.
  unfold truthy. rewrite lor_eq0. f_equal.
  destruct (Z.eqb_spec x0 0), (Z.eqb_spec x1 0), (Z.eqb_spec (s * s) X); try reflexivity; cbn; lia.
Qed.

Lemma float32_sqrt_sig_sticky fuel aExp a : (4 < fuel)%nat -> 2 ^ 31 <= a < 2 ^ 32 -> a mod 2 = 0 ->
  let X := (a >> (aExp &&& 1)) * 2 ^ 32 in
  exists Z, float32_sqrt_sig fuel aExp a = Some Z /\ 2 ^ 30 <= Z < 2 ^ 31 /\
    forall j, 0 <= j -> (Z ?= 64 * j) = (X ?= 128 * j * (128 * j)).
Proof.
  intros Hf Ha Hev X.
  assert (HX : 2 ^ 30 <= a >> (aExp &&& 1) <= a /\ 2 ^ 62 <= X < 2 ^ 64).
  { unfold X. rewrite land_1_odd. pose proof (Z.mod_pos_bound aExp 2 ltac:(lia)).
    assert (C : aExp mod 2 = 0 \/ aExp mod 2 = 1) by lia.
    destruct C as [-> | ->]; [rewrite Z.shiftr_0_r; lia | rewrite shiftr_1; dlia]. }
  destruct (estimateSqrt32_near fuel aExp a ltac:(lia) Ha) as (e & Ee & He & He2 & Hlo & Hhi).
  unfold float32_sqrt_sig. rewrite Ee. fold X in Hlo, Hhi.
  assert (Hz4 : 4 <= e + 2) by lia. assert (Hle : 2 ^ 31 - 2 < e) by nia.
  destruct (Z.ltb_spec (e + 2) (2 ^ 32)) as [Hw|Hw].
  2: { assert (Ez : u32 (e + 2) = e + 2 - 2 ^ 32) by (rewrite u32_mod; symmetry; apply (Z.mod_unique _ _ 1); lia).
       assert (C : e + 2 - 2 ^ 32 = 0 \/ e + 2 - 2 ^ 32 = 1) by lia. rewrite Ez.
       replace (((e + 2 - 2 ^ 32) &&& 127) <=? 5) with true by (destruct C as [-> | ->]; reflexivity).
       rewrite (proj2 (Z.ltb_lt _ _)) by lia. exists 0x7FFFFFFF. repeat split; try lia.
       intros j Hj. assert (Cj : j < 2 ^ 25 \/ 2 ^ 25 <= j) by lia. destruct Cj.
       - transitivity Gt; [|symmetry]; apply Z.compare_gt_iff; nia.
       - transitivity Lt; [|symmetry]; apply Z.compare_lt_iff; nia. }
  rewrite u32_small by lia. rewrite (proj2 (Z.ltb_ge (e + 2) 2)) by lia.
  assert (HZ : forall z, is_u 32 z -> root_sticky 128 z X -> exists Z,
      Some (shift32RightJamming z 1) = Some Z /\ 2 ^ 30 <= Z < 2 ^ 31 /\
      forall j, 0 <= j -> (Z ?= 64 * j) = (X ?= 128 * j * (128 * j))).
  { intros z Hz Hst. pose proof (root_halve z X Hz Hst) as Hh. eexists. split; [reflexivity|].
    split; [|exact Hh]. pose proof (Hh (2 ^ 24) ltac:(lia)) as H1. pose proof (Hh (2 ^ 25) ltac:(lia)) as H2.
    split; [apply Z.compare_ge_iff | unfold Z.lt].
    - change (2 ^ 30) with (64 * 2 ^ 24). rewrite H1. apply Z.compare_ge_iff. lia.
    - change (2 ^ 31) with (64 * 2 ^ 25). rewrite H2. apply Z.compare_lt_iff. lia. }
  change 127 with (2 ^ 7 - 1). rewrite land_ones_mod by lia.
  destruct (Z.leb_spec ((e + 2) mod 2 ^ 7) 5) as [Hb|Hb].
  - destruct (float32_sqrt_exact fuel (a >> (aExp &&& 1)) (e + 2) Hf) as (r0 & r1 & Hr & Ht);
      [unfold is_u; lia | unfold is_u; lia | lia | fold X; split; [|lia] |].
    { replace (e + 2 - 4) with (e - 2) by lia. lia. }
    fold X in Hr, Ht. destruct (mul32To64 (e + 2) (e + 2)) as [t0 t1].
    destruct (sub64 (a >> (aExp &&& 1)) 0 t0 t1) as [y0 y1]. rewrite Hr, Ht.
    apply HZ; [|apply (root_sticky_weaken 2 64); [lia | apply root_jam; lia]].
    apply lor_b2z_range; [lia|]. split; [apply Z.sqrt_nonneg | apply Z.sqrt_lt_square; lia].
  - change (2 ^ 7) with 128 in Hb. apply HZ; [unfold is_u; lia|]. apply root_near; try lia.
    pose proof (proj1 (Z.sqrt_lt_square X (e + 2) ltac:(lia) ltac:(lia)) Hhi).
    pose proof (proj1 (Z.sqrt_le_square X (e - 2) ltac:(lia) ltac:(lia)) ltac:(lia)). lia.
Qed.

(** ** Rounding the root *)

Lemma float32_sqrt_finite st fuel a : (4 < fuel)%nat -> fp_ok st -> f32_finite a -> 0 < f32_mag a ->
  (let '(aExp, aSig) := norm32 a in
   let zExp := s16 (((aExp - 0x7F) >> 1) + 0x7E) in
   let aSig := u32 ((aSig ||| 0x00800000) << 8) in
   let* zSig := lift (float32_sqrt_sig fuel aExp aSig) in
   roundAndPackFloat32 0 zExp zSig) st
  = rounded32 st 0 (root_num (f32_mag a * 2 ^ 149)) 2.
Proof.
  intros Hf Hst Ha Hm. destruct (norm32_spec a Ha Hm) as (Re & _ & Rm & Vm).
  unfold norm_sig32 in Rm, Vm. destruct (norm32 a) as [e y]. cbn [fst snd] in *.
  set (m := y ||| 0x00800000) in *. clearbody m. rewrite u32_shl_small by lia.
  pose proof (Z.div_mod e 2 ltac:(lia)) as Ee. pose proof (Z.mod_pos_bound e 2 ltac:(lia)) as Ho.
  set (h := e / 2) in *. set (o := e mod 2) in *.
  assert (Ez : ((e - 127) >> 1) + 126 = h + o + 62) by (rewrite shiftr_1; dlia).
  rewrite Ez, s16_small by lia.
  destruct (float32_sqrt_sig_sticky fuel e (m * 2 ^ 8) Hf) as (zs & EZ & HZ & Hstk); [lia|dlia|].
  unfold bind, lift. rewrite EZ. rewrite land_1_odd in Hstk. fold o in Hstk.
  set (W := f32_mag a * 2 ^ 149).
  assert (HW0 : 0 <= W) by (unfold W; lia).
  set (k := h + o + 54). assert (Hk : 43 <= k) by (unfold k; lia).
  assert (EW : W = ((m * 2 ^ 8) >> o) * 2 ^ 32 * (2 ^ k * 2 ^ k)).
  { rewrite <- Z.pow_add_r by lia. unfold W. apply (Z.mul_reg_r _ _ (2 ^ 23)); [lia|].
    replace (f32_mag a * 2 ^ 149 * 2 ^ 23) with (f32_mag a * 2 ^ 23 * 2 ^ 149) by ring. rewrite <- Vm.
    assert (Eo : ((m * 2 ^ 8) >> o) * 2 ^ o = m * 2 ^ 8).
    { assert (C : o = 0 \/ o = 1) by lia. destruct C as [-> | ->]; [now rewrite Z.shiftr_0_r, Z.mul_1_r|].
      rewrite shiftr_1. replace (m * 2 ^ 8) with (m * 2 ^ 7 * 2) by lia. now rewrite Z.div_mul. }
    replace (k + k) with (o + (2 * h + o + 108)) by (unfold k; lia). rewrite (Z.pow_add_r 2 o) by lia.
    replace (((m * 2 ^ 8) >> o) * 2 ^ 32 * (2 ^ o * 2 ^ (2 * h + o + 108)) * 2 ^ 23)
      with (((m * 2 ^ 8) >> o) * 2 ^ o * (2 ^ 55 * 2 ^ (2 * h + o + 108))) by ring. rewrite Eo.
    rewrite <- Z.mul_assoc. rewrite <- Z.pow_add_r by lia. rewrite <- (Z.pow_add_r 2 55) by lia.
    rewrite <- Z.mul_assoc. rewrite <- Z.pow_add_r by lia. f_equal. f_equal. lia. }
  apply (roundAndPackFloat32_ref st 0 (h + o + 62) zs (root_num W) (2 ^ (k + 2)));
    try assumption; try lia; [now left | apply root_num_nonneg | |].
  - intros j. change (2 ^ 6) with 64. destruct (Z.lt_ge_cases j 0).
    { transitivity Gt; [|symmetry]; apply Z.compare_gt_iff; [lia|]. pose proof (root_num_nonneg W).
      pose proof (pow2_pos (k + 2) ltac:(lia)). nia. }
    rewrite Hstk by lia. pose proof (pow2_pos k ltac:(lia)).
    replace (64 * j * 2 ^ (k + 2)) with (2 * (128 * j * 2 ^ k)) by (rewrite Z.pow_add_r by lia; lia).
    rewrite root_compare, EW by nia.
    replace (128 * j * 2 ^ k * (128 * j * 2 ^ k)) with (2 ^ k * 2 ^ k * (128 * j * (128 * j))) by ring.
    rewrite (Z.mul_comm _ (2 ^ k * 2 ^ k)), compare_scale by nia. reflexivity.
  - apply (scaled_intro _ _ _ _ _ 0); [lia | lia |].
    replace (h + o + 62 - 7 + 0) with (k + 1) by (unfold k; lia).
    rewrite !Z.pow_add_r by lia. lia.
Qed.

(** The single-precision square root returns, for every positive operand including subnormals,
    the real root rounded in the current mode with exactly the exceptions of that rounding; the
    root of a zero is that zero, a negative operand is invalid, and NaN operands propagate. *)
Lemma float32_sqrt_correct st fuel a : (4 < fuel)%nat -> fp_ok st -> is_u 32 a ->
  float32_sqrt fuel a st = ref_sqrt32 st a.
Proof.
  intros Hf Hst Ha. unfold ref_sqrt32, float32_sqrt. pose proof (f32_mag_nonneg a Ha) as Hm.
  destruct (fields32 a Ha) as (_ & Hs & Re & _).
  assert (Es : truthy (extractFloat32Sign a) = (f32_sign a =? 1)).
  { rewrite sign32_div in *. unfold f32_sign. destruct Hs as [-> | ->]; reflexivity. }
  rewrite Es, lor_eq0, <- f32_mag_zero by assumption.
  destruct (Z.eqb_spec (extractFloat32Exp a) 0xFF) as [Ea|Ea].
  - assert (Nz : (f32_mag a =? 0) = false) by (rewrite f32_mag_zero, Ea by assumption; reflexivity).
    unfold f32_is_nan, f32_is_inf. rewrite Ea, Nz. change (255 =? 255) with true. cbn [andb].
    unfold truthy. destruct (extractFloat32Frac a =? 0); cbn [negb]; [|reflexivity].
    destruct (f32_sign a =? 1); cbn [negb]; [now apply invalid32_eq | reflexivity].
  - destruct (nonspecial32 a Ea) as [-> ->]. destruct (Z.eqb_spec (f32_mag a) 0) as [Mz|Mz].
    + destruct (Z.eqb_spec (f32_sign a) 1) as [S1|S1]; [reflexivity|].
      pose proof (f32_mag_zero a Ha) as Z0. rewrite Mz in Z0. symmetry in Z0.
      apply andb_true_iff in Z0 as [Z1 Z2]. rewrite frac32_mod in Z2. rewrite exp32_mod in Z1.
      apply Z.eqb_eq in Z1, Z2. unfold ret, f32_sign, is_u in *. do 2 f_equal.
      assert (0 <= a / 2 ^ 31 < 2) by (split; [apply Z.div_pos | apply Z.div_lt_upper_bound]; lia). dlia.
    + destruct (f32_sign a =? 1); [now apply invalid32_eq|]. 
      apply float32_sqrt_finite; try assumption; [split; [assumption|lia] | lia].
Qed.
