(* ===== verification/Emulate.v ===== *)
(** * Entry points called by the compiler

    The [__emulate_*] wrappers at the end of newlib/libc/sys/tce/float_emulation.c, which the
    TCE backend calls for floating-point operations the processor lacks, and the compiler-rt
    names of bclib/cpp/softfloat_wrappers.c.  A C [float] or [double] argument is its bit
    pattern: the wrappers only reinterpret storage.  A C truth value is 0 or 1. *)

From S2P Require Import Prelude.
From S2P Require Import CInt.
From S2P Require Import FPState.
From S2P Require Import SoftFloatPrim.
From S2P Require Import Float32.
From S2P Require Import Float64.

(** A predicate's result as a C integer. *)
Definition as_int (m : FP bool) : FP Z := let* r := m in ret (b2z r).
Definition as_not (m : FP bool) : FP Z := let* r := m in ret (b2z (negb r)).

(** [is_nan(a) || is_nan(b) || m]: the comparison is not evaluated on NaN operands. *)
Definition or_nan32 (a b : Z) (m : FP Z) : FP Z :=
  if float32_is_nan a || float32_is_nan b then ret 1 else m.
Definition or_nan64 (a b : float64) (m : FP Z) : FP Z :=
  if float64_is_nan a || float64_is_nan b then ret 1 else m.

(** ** Single precision *)

Definition __emulate_MULF_2_1_f32_f32_f32 (a b : Z) : FP Z := float32_mul a b.
Definition __emulate_ADDF_2_1_f32_f32_f32 (a b : Z) : FP Z := float32_add a b.
Definition __emulate_SUBF_2_1_f32_f32_f32 (a b : Z) : FP Z := float32_sub a b.
Definition __emulate_NEGF_1_1_f32_f32 (a : Z) : FP Z := float32_sub 0 a.
Definition __emulate_CFI_1_1_f32_i32 (a : Z) : FP Z := float32_to_int32_round_to_zero a.
Definition __emulate_SQRTF_1_1_f32_f32 (fuel : nat) (a : Z) : FP Z := float32_sqrt fuel a.
Definition __emulate_CFIU_1_1_f32_i32 (a : Z) : FP Z :=
  let* z := float32_to_uint32 a in ret (u32 z).
Definition __emulate_CIF_1_1_i32_f32 (a : Z) : FP Z := int32_to_float32 a.
Definition __emulate_CIFU_1_1_i32_f32 (a : Z) : FP Z := uint32_to_float32 a.
Definition __emulate_DIVF_2_1_f32_f32_f32 (fuel : nat) (a b : Z) : FP Z := float32_div fuel a b.

Definition __emulate_EQF_2_1_f32_f32_i32 (a b : Z) : FP Z := as_int (float32_eq a b).
Definition __emulate_EQUF_2_1_f32_f32_i32 (a b : Z) : FP Z :=
  or_nan32 a b (as_int (float32_eq a b)).
Definition __emulate_GEF_2_1_f32_f32_i32 (a b : Z) : FP Z := as_not (float32_lt a b).
Definition __emulate_GEUF_2_1_f32_f32_i32 (a b : Z) : FP Z :=
  or_nan32 a b (as_not (float32_lt a b)).
Definition __emulate_GTF_2_1_f32_f32_i32 (a b : Z) : FP Z := as_not (float32_le a b).
Definition __emulate_GTUF_2_1_f32_f32_i32 (a b : Z) : FP Z :=
  or_nan32 a b (as_not (float32_le a b)).
Definition __emulate_LEF_2_1_f32_f32_i32 (a b : Z) : FP Z := as_int (float32_le a b).
Definition __emulate_LEUF_2_1_f32_f32_i32 (a b : Z) : FP Z :=
  or_nan32 a b (as_int (float32_le a b)).
Definition __emulate_LTF_2_1_f32_f32_i32 (a b : Z) : FP Z := as_int (float32_lt a b).
Definition __emulate_LTUF_2_1_f32_f32_i32 (a b : Z) : FP Z :=
  or_nan32 a b (as_int (float32_lt a b)).
Definition __emulate_NEF_2_1_f32_f32_i32 (a b : Z) : FP Z := as_not (float32_eq a b).
Definition __emulate_NEUF_2_1_f32_f32_i32 (a b : Z) : FP Z :=
  or_nan32 a b (as_not (float32_eq a b)).
Definition __emulate_ORDF_2_1_f32_f32_i32 (a b : Z) : Z :=
  b2z (negb (float32_is_nan a) && negb (float32_is_nan b)).
Definition __emulate_UORDF_2_1_f32_f32_i32 (a b : Z) : Z :=
  b2z (float32_is_nan a || float32_is_nan b).

(** ** Double precision ([__TCE64__]) *)

Definition __emulate_CFD_1_1_f32_f64 (a : Z) : FP float64 := float32_to_float64 a.

Definition __emulate_EQD_2_1_f64_f64_i64 (a b : float64) : FP Z := as_int (float64_eq a b).
Definition __emulate_EQUD_2_1_f64_f64_i64 (a b : float64) : FP Z :=
  or_nan64 a b (as_int (float64_eq a b)).
Definition __emulate_GED_2_1_f64_f64_i64 (a b : float64) : FP Z := as_not (float64_lt a b).
Definition __emulate_GEUD_2_1_f64_f64_i64 (a b : float64) : FP Z :=
  or_nan64 a b (as_not (float64_lt a b)).
Definition __emulate_GTD_2_1_f64_f64_i64 (a b : float64) : FP Z := as_not (float64_le a b).
Definition __emulate_GTUD_2_1_f64_f64_i64 (a b : float64) : FP Z :=
  or_nan64 a b (as_not (float64_le a b)).
Definition __emulate_LED_2_1_f64_f64_i64 (a b : float64) : FP Z := as_int (float64_le a b).
Definition __emulate_LEUD_2_1_f64_f64_i64 (a b : float64) : FP Z :=
  or_nan64 a b (as_int (float64_le a b)).
Definition __emulate_LTD_2_1_f64_f64_i64 (a b : float64) : FP Z := as_int (float64_lt a b).
Definition __emulate_LTUD_2_1_f64_f64_i64 (a b : float64) : FP Z :=
  or_nan64 a b (as_int (float64_lt a b)).
Definition __emulate_NED_2_1_f64_f64_i64 (a b : float64) : FP Z := as_not (float64_eq a b).
Definition __emulate_NEUD_2_1_f64_f64_i64 (a b : float64) : FP Z :=
  or_nan64 a b (as_not (float64_eq a b)).
Definition __emulate_ORDD_2_1_f64_f64_i64 (a b : float64) : Z :=
  b2z (negb (float64_is_nan a) && negb (float64_is_nan b)).
Definition __emulate_UORDD_2_1_f64_f64_i64 (a b : float64) : Z :=
  b2z (float64_is_nan a || float64_is_nan b).

Definition __emulate_NEGD_1_1_f64_f64 (a : float64) : FP float64 := float64_sub (mk_float64 0 0) a.
Definition __emulate_ADDD_2_1_f64_f64_f64 (a b : float64) : FP float64 := float64_add a b.
Definition __emulate_SUBD_2_1_f64_f64_f64 (a b : float64) : FP float64 := float64_sub a b.
Definition __emulate_MULD_2_1_f64_f64_f64 (a b : float64) : FP float64 := float64_mul a b.
Definition __emulate_DIVD_2_1_f64_f64_f64 (fuel : nat) (a b : float64) : FP float64 :=
  float64_div fuel a b.
Definition __emulate_CDL_1_1_f64_i64 (a : float64) : FP Z := float64_to_int64_round_to_zero a.
Definition __emulate_CLD_1_1_i64_f64 (a : Z) : float64 := int64_to_float64 a.
Definition __emulate_CLDU_1_1_i64_f64 (a : Z) : float64 := uint64_to_float64 a.

(** ** compiler-rt names ([__TCE64__]) *)

Definition __truncdfsf2 (a : float64) : FP Z := float64_to_float32 a.
Definition __extendsfdf2 (a : Z) : FP float64 := float32_to_float64 a.
Definition __fixsfsi (a : Z) : FP Z := float32_to_int32_round_to_zero a.
Definition __fixdfsi (a : float64) : FP Z := float64_to_int32_round_to_zero a.
Definition __fixunssfsi (a : Z) : FP Z := let* z := float32_to_uint32 a in ret (u32 z).
Definition __fixunsdfsi (a : float64) : FP Z :=
  let* f32 := float64_to_float32 a in
  let* z := float32_to_uint32 f32 in
  ret (u32 z).
Definition __floatsisf (a : Z) : FP Z := int32_to_float32 a.
Definition __floatsidf (a : Z) : float64 := int32_to_float64 a.
Definition __floatunsisf (a : Z) : FP Z := uint32_to_float32 a.
Definition __floatunsidf (a : Z) : FP float64 :=
  let* tmp := uint32_to_float32 a in float32_to_float64 tmp.
