(* ===== verification/FpEnvironment.v ===== *)
(** * What every floating-point routine does to the environment

    The exception flags are sticky: whatever a routine computes, and whichever exceptions it raises
    on the way, it leaves the rounding mode and the tininess setting alone, clears no flag and sets no
    bit of the word that is not an exception.
    [KeepsEnv] is that promise of a computation; it is closed under the combinators of [FP], so an
    instance for each routine follows the structure of its definition. *)

From S2P Require Import Prelude.
From S2P Require Import CInt.
From S2P Require Import FPState.
From S2P Require Import Float32.
From S2P Require Import Float64.
From S2P Require Import Emulate.

(** The five exceptions; bits 1, 6 and up of the word are none. *)
Definition all_flags : Z :=
  float_flag_invalid ||| float_flag_divbyzero ||| float_flag_overflow ||| float_flag_underflow ||| float_flag_inexact.

(** [st'] has the settings of [st], at least its exceptions, and in the bits that are no exception
    what [st] has there. *)
Definition extends (st st' : fpstate) : Prop :=
  float_rounding_mode st' = float_rounding_mode st /\
  float_detect_tininess st' = float_detect_tininess st /\
  float_exception_flags st ||| float_exception_flags st' = float_exception_flags st' /\
  Z.ldiff (float_exception_flags st') all_flags = Z.ldiff (float_exception_flags st) all_flags /\ fp_ok st'.

Class KeepsEnv {A} (m : FP A) : Prop :=
  keeps_env : forall st r st', fp_ok st -> m st = Some (r, st') -> extends st st'.

Lemma extends_refl st : fp_ok st -> extends st st.
Proof. intros H. split; [reflexivity|]. split; [reflexivity|]. split; [apply Z.lor_diag | now split]. Qed.

Lemma extends_trans st1 st2 st3 : extends st1 st2 -> extends st2 st3 -> extends st1 st3.
Proof.
  intros (M1 & T1 & F1 & B1 & _) (M2 & T2 & F2 & B2 & O2). split; [congruence|]. split; [congruence|].
  split; [|split; [congruence | exact O2]].
  now rewrite <- F2, Z.lor_assoc, F1.
Qed.

(** ** The combinators *)

#[export] Instance ret_keeps {A} (x : A) : KeepsEnv (ret x).
Proof. intros st r st' Hst H. injection H as <- <-. now apply extends_refl. Qed.

#[export] Instance lift_keeps {A} (o : option A) : KeepsEnv (lift o).
Proof. intros st r st' Hst H. unfold lift in H. destruct o; [|discriminate]. injection H as <- <-. now apply extends_refl. Qed.

#[export] Instance get_mode_keeps : KeepsEnv get_mode.
Proof. intros st r st' Hst H. injection H as <- <-. now apply extends_refl. Qed.

#[export] Instance get_tininess_keeps : KeepsEnv get_tininess.
Proof. intros st r st' Hst H. injection H as <- <-. now apply extends_refl. Qed.

Lemma bind_keeps {A B} (m : FP A) (k : A -> FP B) :
  KeepsEnv m -> (forall x, KeepsEnv (k x)) -> KeepsEnv (bind m k).
Proof.
  intros Hm Hk st r st' Hst H. unfold bind in H. destruct (m st) as [[x st1]|] eqn:E; [|discriminate].
  specialize (Hm st x st1 Hst E). apply (extends_trans _ st1); [exact Hm|].
  eapply Hk; [apply Hm | exact H].
Qed.

(** A constant set of exceptions is raised. *)
Lemma float_raise_keeps flags : 0 <= flags < 2 ^ 7 -> Z.ldiff flags all_flags = 0 -> KeepsEnv (float_raise flags).
Proof.
  intros Hf Hb st r st' Hst H. rewrite float_raise_eq in H by assumption. injection H as <- <-.
  split; [reflexivity|]. split; [reflexivity|]. cbn [raised float_exception_flags].
  split; [now rewrite Z.lor_assoc, Z.lor_diag|]. split; [|now apply raised_ok].
  apply Z.bits_inj'. intros i Hi. pose proof (f_equal (fun x => Z.testbit x i) Hb) as Hbi. cbv beta in Hbi.
  rewrite Z.ldiff_spec, Z.bits_0 in Hbi by assumption.
  rewrite !Z.ldiff_spec, Z.lor_spec, andb_orb_distrib_l, Hbi by assumption. apply orb_false_r.
Qed.

#[export] Hint Extern 1 (KeepsEnv (float_raise _)) =>
  apply float_raise_keeps; [flag_range | vm_compute; reflexivity] : typeclass_instances.

#[export] Instance when_keeps b m : KeepsEnv m -> KeepsEnv (when_ b m).
Proof. intros H. destruct b; [exact H | apply ret_keeps]. Qed.

(** Instances are found by the head of the computation, without unfolding it. *)
#[local] Hint Constants Opaque : typeclass_instances.

(** Follow the structure of a routine; what a local variable holds does not matter, what a local
    function does may. *)
Ltac keeps :=
  lazymatch goal with
  | |- KeepsEnv (bind _ _) => apply bind_keeps; [keeps | intro; cbv beta; keeps]
  | |- KeepsEnv (match ?x with _ => _ end) => case x; intros; cbv beta iota; keeps
  | |- KeepsEnv (let x := ?v in @?k x) =>
    lazymatch type of v with
    | _ -> _ => cbv beta zeta
    | FP _ => cbv beta zeta
    | _ => change (KeepsEnv (k v)); generalize v; intro; cbv beta
    end; keeps
  | |- _ => typeclasses eauto
  end.

(** ** Single precision *)

#[export] Instance float32ToCommonNaN_keeps a : KeepsEnv (float32ToCommonNaN a).
Proof. unfold float32ToCommonNaN. keeps. Qed.
#[export] Instance propagateFloat32NaN_keeps a b : KeepsEnv (propagateFloat32NaN a b).
Proof. unfold propagateFloat32NaN. keeps. Qed.
#[export] Instance roundAndPackFloat32_tail_keeps n i s e z b : KeepsEnv (roundAndPackFloat32_tail n i s e z b).
Proof. unfold roundAndPackFloat32_tail. keeps. Qed.
#[export] Instance roundAndPackFloat32_keeps s e z : KeepsEnv (roundAndPackFloat32 s e z).
Proof. unfold roundAndPackFloat32. keeps. Qed.
#[export] Instance normalizeRoundAndPackFloat32_keeps s e z : KeepsEnv (normalizeRoundAndPackFloat32 s e z).
Proof. unfold normalizeRoundAndPackFloat32. keeps. Qed.
#[export] Instance int32_to_float32_keeps a : KeepsEnv (int32_to_float32 a).
Proof. unfold int32_to_float32. keeps. Qed.
#[export] Instance uint32_to_float32_keeps a : KeepsEnv (uint32_to_float32 a).
Proof. unfold uint32_to_float32. keeps. Qed.
#[export] Instance float32_to_int32_keeps a : KeepsEnv (float32_to_int32 a).
Proof. unfold float32_to_int32. keeps. Qed.
#[export] Instance float32_to_int32_round_to_zero_keeps a : KeepsEnv (float32_to_int32_round_to_zero a).
Proof. unfold float32_to_int32_round_to_zero. keeps. Qed.
#[export] Instance float32_to_uint32_keeps a : KeepsEnv (float32_to_uint32 a).
Proof. unfold float32_to_uint32. keeps. Qed.
#[export] Instance float32_round_to_int_keeps a : KeepsEnv (float32_round_to_int a).
Proof. unfold float32_round_to_int. keeps. Qed.
#[export] Instance addFloat32Sigs_tail_keeps x y e s : KeepsEnv (addFloat32Sigs_tail x y e s).
Proof. unfold addFloat32Sigs_tail. keeps. Qed.
#[export] Instance addFloat32Sigs_keeps a b s : KeepsEnv (addFloat32Sigs a b s).
Proof. unfold addFloat32Sigs. keeps. Qed.
#[export] Instance subFloat32Sigs_keeps a b s : KeepsEnv (subFloat32Sigs a b s).
Proof. unfold subFloat32Sigs. keeps. Qed.
#[export] Instance float32_add_keeps a b : KeepsEnv (float32_add a b).
Proof. unfold float32_add. keeps. Qed.
#[export] Instance float32_sub_keeps a b : KeepsEnv (float32_sub a b).
Proof. unfold float32_sub. keeps. Qed.
#[export] Instance float32_mul_tail_keeps s ea x eb y : KeepsEnv (float32_mul_tail s ea x eb y).
Proof. unfold float32_mul_tail. keeps. Qed.
#[export] Instance float32_mul_keeps a b : KeepsEnv (float32_mul a b).
Proof. unfold float32_mul. keeps. Qed.
#[export] Instance float32_div_tail_keeps fuel s ea x eb y : KeepsEnv (float32_div_tail fuel s ea x eb y).
Proof. unfold float32_div_tail. keeps. Qed.
#[export] Instance float32_div_keeps fuel a b : KeepsEnv (float32_div fuel a b).
Proof. unfold float32_div. keeps. Qed.
#[export] Instance float32_rem_tail_keeps fuel s ea x eb y d : KeepsEnv (float32_rem_tail fuel s ea x eb y d).
Proof. unfold float32_rem_tail. keeps. Qed.
#[export] Instance float32_rem_keeps fuel a b : KeepsEnv (float32_rem fuel a b).
Proof. unfold float32_rem. keeps. Qed.
#[export] Instance float32_sqrt_keeps fuel a : KeepsEnv (float32_sqrt fuel a).
Proof. unfold float32_sqrt. keeps. Qed.
#[export] Instance float32_compare_signaling_keeps r a b : KeepsEnv (float32_compare_signaling r a b).
Proof. unfold float32_compare_signaling. keeps. Qed.
#[export] Instance float32_compare_quiet_keeps r a b : KeepsEnv (float32_compare_quiet r a b).
Proof. unfold float32_compare_quiet. keeps. Qed.

(** ** Double precision *)

#[export] Instance float64ToCommonNaN_keeps a : KeepsEnv (float64ToCommonNaN a).
Proof. unfold float64ToCommonNaN. keeps. Qed.
#[export] Instance propagateFloat64NaN_keeps a b : KeepsEnv (propagateFloat64NaN a b).
Proof. unfold propagateFloat64NaN. keeps. Qed.
#[export] Instance roundAndPackFloat64_tail_keeps n i s e z0 z1 z2 : KeepsEnv (roundAndPackFloat64_tail n i s e z0 z1 z2).
Proof. unfold roundAndPackFloat64_tail. keeps. Qed.
#[export] Instance roundAndPackFloat64_keeps s e z0 z1 z2 : KeepsEnv (roundAndPackFloat64 s e z0 z1 z2).
Proof. unfold roundAndPackFloat64. keeps. Qed.
#[export] Instance normalizeRoundAndPackFloat64_keeps s e z0 z1 : KeepsEnv (normalizeRoundAndPackFloat64 s e z0 z1).
Proof. unfold normalizeRoundAndPackFloat64. keeps. Qed.
#[export] Instance float32_to_float64_keeps a : KeepsEnv (float32_to_float64 a).
Proof. unfold float32_to_float64. keeps. Qed.
#[export] Instance float64_to_float32_keeps a : KeepsEnv (float64_to_float32 a).
Proof. unfold float64_to_float32. keeps. Qed.
#[export] Instance float64_to_int32_invalid_keeps s : KeepsEnv (float64_to_int32_invalid s).
Proof. unfold float64_to_int32_invalid. keeps. Qed.
#[export] Instance float64_to_int32_tail_keeps s z x : KeepsEnv (float64_to_int32_tail s z x).
Proof. unfold float64_to_int32_tail. keeps. Qed.
#[export] Instance float64_to_int32_keeps a : KeepsEnv (float64_to_int32 a).
Proof. unfold float64_to_int32. keeps. Qed.
#[export] Instance float64_to_int32_round_to_zero_tail_keeps s z x : KeepsEnv (float64_to_int32_round_to_zero_tail s z x).
Proof. unfold float64_to_int32_round_to_zero_tail. keeps. Qed.
#[export] Instance float64_to_int32_round_to_zero_keeps a : KeepsEnv (float64_to_int32_round_to_zero a).
Proof. unfold float64_to_int32_round_to_zero. keeps. Qed.
#[export] Instance float64_round_to_int_finish_keeps a z : KeepsEnv (float64_round_to_int_finish a z).
Proof. unfold float64_round_to_int_finish. keeps. Qed.
#[export] Instance float64_round_to_int_keeps a : KeepsEnv (float64_round_to_int a).
Proof. unfold float64_round_to_int. keeps. Qed.
#[export] Instance addFloat64Sigs_shiftRight1_keeps s e z0 z1 z2 : KeepsEnv (addFloat64Sigs_shiftRight1 s e z0 z1 z2).
Proof. unfold addFloat64Sigs_shiftRight1. keeps. Qed.
#[export] Instance addFloat64Sigs_tail_keeps x0 x1 y0 y1 z2 e s : KeepsEnv (addFloat64Sigs_tail x0 x1 y0 y1 z2 e s).
Proof. unfold addFloat64Sigs_tail. keeps. Qed.
#[export] Instance addFloat64Sigs_keeps a b s : KeepsEnv (addFloat64Sigs a b s).
Proof. unfold addFloat64Sigs. keeps. Qed.
#[export] Instance subFloat64Sigs_keeps a b s : KeepsEnv (subFloat64Sigs a b s).
Proof. unfold subFloat64Sigs. keeps. Qed.
#[export] Instance float64_add_keeps a b : KeepsEnv (float64_add a b).
Proof. unfold float64_add. keeps. Qed.
#[export] Instance float64_sub_keeps a b : KeepsEnv (float64_sub a b).
Proof. unfold float64_sub. keeps. Qed.
#[export] Instance float64_mul_tail_keeps s ea x0 x1 eb y0 y1 : KeepsEnv (float64_mul_tail s ea x0 x1 eb y0 y1).
Proof. unfold float64_mul_tail. keeps. Qed.
#[export] Instance float64_mul_keeps a b : KeepsEnv (float64_mul a b).
Proof. unfold float64_mul. keeps. Qed.
#[export] Instance float64_div_tail_keeps fuel s ea x0 x1 eb y0 y1 : KeepsEnv (float64_div_tail fuel s ea x0 x1 eb y0 y1).
Proof. unfold float64_div_tail. keeps. Qed.
#[export] Instance float64_div_keeps fuel a b : KeepsEnv (float64_div fuel a b).
Proof. unfold float64_div. keeps. Qed.
#[export] Instance float64_rem_tail_keeps fuel s x0 x1 eb y0 y1 d : KeepsEnv (float64_rem_tail fuel s x0 x1 eb y0 y1 d).
Proof. unfold float64_rem_tail. keeps. Qed.
#[export] Instance float64_rem_keeps fuel a b : KeepsEnv (float64_rem fuel a b).
Proof. unfold float64_rem. keeps. Qed.
#[export] Instance float64_sqrt_keeps fuel a : KeepsEnv (float64_sqrt fuel a).
Proof. unfold float64_sqrt. keeps. Qed.
#[export] Instance float64_compare_signaling_keeps r a b : KeepsEnv (float64_compare_signaling r a b).
Proof. unfold float64_compare_signaling. keeps. Qed.
#[export] Instance float64_compare_quiet_keeps r a b : KeepsEnv (float64_compare_quiet r a b).
Proof. unfold float64_compare_quiet. keeps. Qed.
#[export] Instance float64_to_int64_invalid_keeps s : KeepsEnv (float64_to_int64_invalid s).
Proof. unfold float64_to_int64_invalid. keeps. Qed.
#[export] Instance float64_to_int64_tail_keeps s z : KeepsEnv (float64_to_int64_tail s z).
Proof. unfold float64_to_int64_tail. keeps. Qed.
#[export] Instance float64_to_int64_pattern_keeps b a : KeepsEnv (float64_to_int64_pattern b a).
Proof. unfold float64_to_int64_pattern. keeps. Qed.
#[export] Instance float64_to_int64_round_to_zero_keeps a : KeepsEnv (float64_to_int64_round_to_zero a).
Proof. unfold float64_to_int64_round_to_zero. keeps. Qed.
#[export] Instance float64_to_uint64_keeps a : KeepsEnv (float64_to_uint64 a).
Proof. unfold float64_to_uint64. keeps. Qed.

(** ** Runs of a program *)

(** A call of a floating-point routine, on any operands, with its value left out. *)
Definition runs {A} (m : FP A) (st st' : fpstate) : Prop := exists r, m st = Some (r, st').

Inductive fp_call : fpstate -> fpstate -> Prop :=
| call_arith32 fuel a b st st' :
    (runs (float32_add a b) st st' \/ runs (float32_sub a b) st st' \/ runs (float32_mul a b) st st' \/
     runs (float32_div fuel a b) st st' \/ runs (float32_rem fuel a b) st st' \/
     runs (float32_sqrt fuel a) st st' \/ runs (float32_round_to_int a) st st') -> fp_call st st'
| call_arith64 fuel a b st st' :
    (runs (float64_add a b) st st' \/ runs (float64_sub a b) st st' \/ runs (float64_mul a b) st st' \/
     runs (float64_div fuel a b) st st' \/ runs (float64_rem fuel a b) st st' \/
     runs (float64_sqrt fuel a) st st' \/ runs (float64_round_to_int a) st st') -> fp_call st st'
| call_compare32 a b st st' :
    (runs (float32_eq a b) st st' \/ runs (float32_le a b) st st' \/ runs (float32_lt a b) st st' \/
     runs (float32_eq_signaling a b) st st' \/ runs (float32_le_quiet a b) st st' \/
     runs (float32_lt_quiet a b) st st') -> fp_call st st'
| call_compare64 a b st st' :
    (runs (float64_eq a b) st st' \/ runs (float64_le a b) st st' \/ runs (float64_lt a b) st st' \/
     runs (float64_eq_signaling a b) st st' \/ runs (float64_le_quiet a b) st st' \/
     runs (float64_lt_quiet a b) st st') -> fp_call st st'
| call_convert32 a st st' :
    (runs (int32_to_float32 a) st st' \/ runs (uint32_to_float32 a) st st' \/ runs (float32_to_int32 a) st st' \/
     runs (float32_to_int32_round_to_zero a) st st' \/ runs (float32_to_uint32 a) st st' \/
     runs (float32_to_float64 a) st st') -> fp_call st st'
| call_convert64 a st st' :
    (runs (float64_to_float32 a) st st' \/ runs (float64_to_int32 a) st st' \/
     runs (float64_to_int32_round_to_zero a) st st' \/ runs (float64_to_int64_round_to_zero a) st st' \/
     runs (float64_to_uint64 a) st st') -> fp_call st st'.

(** Any sequence of calls. *)
Inductive fp_calls : fpstate -> fpstate -> Prop :=
| calls_none st : fp_calls st st
| calls_more st st1 st2 : fp_call st st1 -> fp_calls st1 st2 -> fp_calls st st2.

Lemma runs_extends {A} (m : FP A) st st' : KeepsEnv m -> fp_ok st -> runs m st st' -> extends st st'.
Proof. intros H Hst [r E]. exact (H st r st' Hst E). Qed.

Lemma call_extends st st' : fp_ok st -> fp_call st st' -> extends st st'.
Proof.
  intros Hst H. destruct H as [? ? ? ? ? H|? ? ? ? ? H|? ? ? ? H|? ? ? ? H|? ? ? H|? ? ? H];
    unfold float32_eq, float32_le, float32_lt, float32_eq_signaling, float32_le_quiet, float32_lt_quiet,
      float64_eq, float64_le, float64_lt, float64_eq_signaling, float64_le_quiet, float64_lt_quiet in H;
    repeat destruct H as [H|H]; (refine (runs_extends _ _ _ _ Hst H); typeclasses eauto).
Qed.

(** C9: The floating-point environment is safe: no sequence of calls of the arithmetic, comparison
    and conversion routines, on any operands, changes the rounding mode or the tininess setting,
    clears an exception flag that was set, or sets a bit that is not a flag. *)
Theorem environment_kept st st' : fp_ok st -> fp_calls st st' -> extends st st'.
Proof.
  intros Hst H. induction H as [st|st st1 st2 C _ IH]; [now apply extends_refl|].
  pose proof (call_extends _ _ Hst C) as E. apply (extends_trans _ st1); [exact E | apply IH, E].
Qed.

(** Dividing by zero and adding exactly: the division's flag remains. *)
Lemma environment_kept_witness :
  let st := raised fp_init float_flag_divbyzero in
  fp_calls fp_init st /\ extends fp_init st.
Proof.
  cbv zeta.
  assert (R : fp_calls fp_init (raised fp_init float_flag_divbyzero)).
  { eapply calls_more.
    - apply (call_arith32 3 0x3F800000 0). right; right; right; left. exists 0x7F800000. vm_compute. reflexivity.
    - eapply calls_more; [|apply calls_none].
      apply (call_arith32 3 0x3F800000 0x3F800000). left. exists 0x40000000. vm_compute. reflexivity. }
  split; [exact R | exact (environment_kept fp_init _ fp_init_ok R)].
Defined.
