(* ===== verification/Float32Compare.v ===== *)
(** * Single-precision comparisons and their entry points *)

From S2P Require Import Prelude.
From S2P Require Import CInt.
From S2P Require Import FPState.
From S2P Require Import Rounding.
From S2P Require Import SoftFloatPrim.
From S2P Require Import Float32.
From S2P Require Import Float64.
From S2P Require Import Float32Round.
From S2P Require Import Float32Arith.
From S2P Require Import Float32MulDiv.
From S2P Require Import Emulate.

(** The comparison a routine makes: on the values, except with NaN operands, where it is false
    and raises the invalid exception for a signaling NaN or in the signaling variant. *)
Definition ref_compare32 (signals : bool) (r : Z -> Z -> bool) (a b : Z) (st : fpstate)
  : option (bool * fpstate) :=
  if f32_is_nan a || f32_is_nan b then
    Some (false, if signals || float32_is_signaling_nan a || float32_is_signaling_nan b
                 then raised st float_flag_invalid else st)
  else Some (r (f32_val a) (f32_val b), st).

Lemma unordered32 a b : float32_unordered a b = f32_is_nan a || f32_is_nan b.
Proof. reflexivity. Qed.

Lemma float32_is_nan_eq a : is_u 32 a -> float32_is_nan a = f32_is_nan a.
Proof.
  intros Ha. destruct (fields32 a Ha) as (Eq & _ & He & Hf). unfold float32_is_nan, f32_is_nan.
  rewrite u32_shl by lia. change (32 - 1) with 31.
  assert (Em : a mod 2 ^ 31 = extractFloat32Exp a * 2 ^ 23 + extractFloat32Frac a).
  { symmetry. apply (Z.mod_unique _ _ (extractFloat32Sign a)); [left; lia | lia]. }
  rewrite Em. destruct (Z.eqb_spec (extractFloat32Exp a) 255), (Z.eqb_spec (extractFloat32Frac a) 0);
    cbn [andb negb]; (apply Z.ltb_lt || apply Z.ltb_ge); lia.
Qed.

(** ** The results on ordered operands *)

Lemma sign_mag32 a : is_u 32 a -> a = f32_sign a * 2 ^ 31 + a mod 2 ^ 31 /\ is_flag (f32_sign a) /\
  f32_val a = (1 - 2 * f32_sign a) * mag_val32 (a mod 2 ^ 31) /\
  (mag_val32 (a mod 2 ^ 31) = 0 <-> a mod 2 ^ 31 = 0) /\ 0 <= mag_val32 (a mod 2 ^ 31).
Proof.
  intros Ha. pose proof (f32_sign_flag a Ha) as Hs. unfold f32_val, f32_mag, f32_sign in *.
  pose proof (Z.mod_pos_bound a (2 ^ 31) ltac:(lia)).
  pose proof (mag_val_compare 24 ltac:(lia) (a mod 2 ^ 31) 0 ltac:(lia) ltac:(lia)) as C.
  rewrite mag_val_0 in C. repeat split.
  - pose proof (Z.div_mod a (2 ^ 31)). lia.
  - exact Hs.
  - destruct Hs as [-> | ->]; reflexivity.
  - intros E. rewrite E in C. now apply Z.compare_eq.
  - intros E. rewrite E in C |- *. apply mag_val_0.
  - destruct (Z.compare_spec (a mod 2 ^ 31) 0); [|lia|].
    + apply Z.compare_eq in C. lia.
    + apply Z.compare_gt_iff in C. lia.
Qed.

(** The test for two zeros. *)
Lemma both_zero32 a b : (u32 ((a ||| b) << 1) =? 0) = (a mod 2 ^ 31 =? 0) && (b mod 2 ^ 31 =? 0).
Proof.
  rewrite u32_shl by lia. change (32 - 1) with 31. rewrite <- (Z.land_ones (a ||| b)) by lia.
  rewrite Z.land_lor_distr_l, !Z.land_ones, <- lor_eq0 by lia.
  destruct (Z.eqb_spec ((a mod 2 ^ 31) ||| (b mod 2 ^ 31)) 0) as [->|]; [reflexivity|].
  apply Z.eqb_neq. lia.
Qed.

Ltac compare32 a b Ha Hb :=
  destruct (sign_mag32 a Ha) as (Ea & Sa & Va & Za & Pa);
  destruct (sign_mag32 b Hb) as (Eb & Sb & Vb & Zb & Pb);
  rewrite ?sign32_div; change (a / 2 ^ 31) with (f32_sign a) in *;
  change (b / 2 ^ 31) with (f32_sign b) in *;
  rewrite ?both_zero32, ?Va, ?Vb;
  pose proof (mag_val_compare 24 ltac:(lia) (a mod 2 ^ 31) (b mod 2 ^ 31)
    ltac:(apply Z.mod_pos_bound; lia) ltac:(apply Z.mod_pos_bound; lia)) as C;
  pose proof (Z.mod_pos_bound a (2 ^ 31) ltac:(lia));
  pose proof (Z.mod_pos_bound b (2 ^ 31) ltac:(lia));
  set (ma := a mod 2 ^ 31) in *; set (mb := b mod 2 ^ 31) in *;
  set (va := mag_val32 ma) in *; set (vb := mag_val32 mb) in *; clearbody va vb ma mb;
  unfold is_flag, truthy in *;
  destruct (Z.compare_spec ma mb);
    [apply -> Z.compare_eq_iff in C | apply -> Z.compare_lt_iff in C | apply -> Z.compare_gt_iff in C];
  destruct Sa as [Sa | Sa], Sb as [Sb | Sb]; rewrite Sa, Sb in *;
  cbn [Z.eqb negb andb orb xorb];
  repeat ztest; cbn [negb andb orb xorb]; try reflexivity; try (exfalso; lia).

Lemma float32_eq_result_val a b : is_u 32 a -> is_u 32 b ->
  float32_eq_result a b = (f32_val a =? f32_val b).
Proof. intros Ha Hb. unfold float32_eq_result. compare32 a b Ha Hb. Qed.

Lemma float32_le_result_val a b : is_u 32 a -> is_u 32 b ->
  float32_le_result a b = (f32_val a <=? f32_val b).
Proof. intros Ha Hb. unfold float32_le_result. compare32 a b Ha Hb. Qed.

Lemma float32_lt_result_val a b : is_u 32 a -> is_u 32 b ->
  float32_lt_result a b = (f32_val a <? f32_val b).
Proof. intros Ha Hb. unfold float32_lt_result. compare32 a b Ha Hb. Qed.

Lemma compare_signaling_ref st r r' a b : fp_ok st -> r a b = r' (f32_val a) (f32_val b) ->
  float32_compare_signaling r a b st = ref_compare32 true r' a b st.
Proof.
  intros Hst E. unfold float32_compare_signaling, ref_compare32. rewrite unordered32, E.
  destruct (_ || _); [|reflexivity]. unfold bind. now rewrite float_raise_eq by (assumption || flag_range).
Qed.

Lemma compare_quiet_ref st r r' a b : fp_ok st -> r a b = r' (f32_val a) (f32_val b) ->
  float32_compare_quiet r a b st = ref_compare32 false r' a b st.
Proof.
  intros Hst E. unfold float32_compare_quiet, ref_compare32. rewrite unordered32, E.
  destruct (f32_is_nan a || f32_is_nan b); [|reflexivity]. cbn [orb]. unfold bind, when_.
  destruct (_ || _); [|reflexivity]. now rewrite float_raise_eq by (assumption || flag_range).
Qed.

(** The six single-precision comparisons decide the order of the represented values, zeros
    of either sign being equal and infinities outermost; a NaN operand makes them false, and
    raises the invalid exception in the signaling variants or when the NaN is signaling. *)
Theorem float32_comparisons_correct st a b : fp_ok st -> is_u 32 a -> is_u 32 b ->
  float32_eq a b st = ref_compare32 false Z.eqb a b st /\
  float32_le a b st = ref_compare32 true Z.leb a b st /\
  float32_lt a b st = ref_compare32 true Z.ltb a b st /\
  float32_eq_signaling a b st = ref_compare32 true Z.eqb a b st /\
  float32_le_quiet a b st = ref_compare32 false Z.leb a b st /\
  float32_lt_quiet a b st = ref_compare32 false Z.ltb a b st.
Proof.
  intros Hst Ha Hb.
  pose proof (float32_eq_result_val a b Ha Hb). pose proof (float32_le_result_val a b Ha Hb).
  pose proof (float32_lt_result_val a b Ha Hb).
  repeat split; (apply compare_signaling_ref || apply compare_quiet_ref); assumption.
Qed.

(** The smallest negative subnormal against zero, and a signaling NaN. *)
Lemma float32_comparisons_witness :
  float32_lt 0x80000001 0 fp_init = Some (true, fp_init) /\
  float32_eq 0x7F800001 0 fp_init = Some (false, raised fp_init float_flag_invalid).
Proof.
  split.
  - rewrite (proj1 (proj2 (proj2 (float32_comparisons_correct fp_init 0x80000001 0 fp_init_ok
      ltac:(unfold is_u; lia) ltac:(unfold is_u; lia))))). vm_compute. reflexivity.
  - rewrite (proj1 (float32_comparisons_correct fp_init 0x7F800001 0 fp_init_ok
      ltac:(unfold is_u; lia) ltac:(unfold is_u; lia))). vm_compute. reflexivity.
Defined.

(** ** The entry points *)

Lemma or_nan32_eq a b m st : is_u 32 a -> is_u 32 b ->
  or_nan32 a b m st = if f32_is_nan a || f32_is_nan b then Some (1, st) else m st.
Proof.
  intros Ha Hb. unfold or_nan32. rewrite !float32_is_nan_eq by assumption.
  now destruct (_ || _).
Qed.

Definition result {A} (o : option (A * fpstate)) : option A := option_map fst o.

Lemma ref_compare32_result signals r a b st :
  result (ref_compare32 signals r a b st)
  = Some (negb (f32_is_nan a || f32_is_nan b) && r (f32_val a) (f32_val b)).
Proof. unfold ref_compare32. now destruct (_ || _). Qed.

Lemma result_as_int m st : result (as_int m st) = option_map b2z (result (m st)).
Proof. unfold as_int, bind, result. now destruct (m st) as [[? ?]|]. Qed.

Lemma result_as_not m st : result (as_not m st) = option_map (fun r => b2z (negb r)) (result (m st)).
Proof. unfold as_not, bind, result. now destruct (m st) as [[? ?]|]. Qed.

(** What the comparison instructions' entry points return.  With a NaN operand EQF, LEF, LTF
    and ORDF give 0 and the "unordered or" variants give 1; GEF and GTF, written as negations of
    [float32_lt] and [float32_le], also give 1, the same as GEUF and GTUF. *)
Theorem emulated_comparisons_result st a b : fp_ok st -> is_u 32 a -> is_u 32 b ->
  let nan := f32_is_nan a || f32_is_nan b in
  let va := f32_val a in let vb := f32_val b in
  result (__emulate_EQF_2_1_f32_f32_i32 a b st) = Some (b2z (negb nan && (va =? vb))) /\
  result (__emulate_LEF_2_1_f32_f32_i32 a b st) = Some (b2z (negb nan && (va <=? vb))) /\
  result (__emulate_LTF_2_1_f32_f32_i32 a b st) = Some (b2z (negb nan && (va <? vb))) /\
  result (__emulate_NEF_2_1_f32_f32_i32 a b st) = Some (b2z (nan || negb (va =? vb))) /\
  result (__emulate_GEF_2_1_f32_f32_i32 a b st) = Some (b2z (nan || (vb <=? va))) /\
  result (__emulate_GTF_2_1_f32_f32_i32 a b st) = Some (b2z (nan || (vb <? va))) /\
  result (__emulate_EQUF_2_1_f32_f32_i32 a b st) = Some (b2z (nan || (va =? vb))) /\
  result (__emulate_LEUF_2_1_f32_f32_i32 a b st) = Some (b2z (nan || (va <=? vb))) /\
  result (__emulate_LTUF_2_1_f32_f32_i32 a b st) = Some (b2z (nan || (va <? vb))) /\
  result (__emulate_NEUF_2_1_f32_f32_i32 a b st) = Some (b2z (nan || negb (va =? vb))) /\
  result (__emulate_GEUF_2_1_f32_f32_i32 a b st) = Some (b2z (nan || (vb <=? va))) /\
  result (__emulate_GTUF_2_1_f32_f32_i32 a b st) = Some (b2z (nan || (vb <? va))) /\
  __emulate_ORDF_2_1_f32_f32_i32 a b = b2z (negb nan) /\
  __emulate_UORDF_2_1_f32_f32_i32 a b = b2z nan.
Proof.
  intros Hst Ha Hb nan va vb.
  assert (Q : float32_eq a b st = ref_compare32 false Z.eqb a b st)
    by (apply compare_quiet_ref; [assumption | now apply float32_eq_result_val]).
  assert (L : float32_le a b st = ref_compare32 true Z.leb a b st)
    by (apply compare_signaling_ref; [assumption | now apply float32_le_result_val]).
  assert (T : float32_lt a b st = ref_compare32 true Z.ltb a b st)
    by (apply compare_signaling_ref; [assumption | now apply float32_lt_result_val]).
  unfold __emulate_EQF_2_1_f32_f32_i32, __emulate_LEF_2_1_f32_f32_i32,
    __emulate_LTF_2_1_f32_f32_i32, __emulate_NEF_2_1_f32_f32_i32, __emulate_GEF_2_1_f32_f32_i32,
    __emulate_GTF_2_1_f32_f32_i32, __emulate_EQUF_2_1_f32_f32_i32, __emulate_LEUF_2_1_f32_f32_i32,
    __emulate_LTUF_2_1_f32_f32_i32, __emulate_NEUF_2_1_f32_f32_i32, __emulate_GEUF_2_1_f32_f32_i32,
    __emulate_GTUF_2_1_f32_f32_i32, __emulate_ORDF_2_1_f32_f32_i32, __emulate_UORDF_2_1_f32_f32_i32.
  rewrite !or_nan32_eq, !float32_is_nan_eq, (Z.leb_antisym va vb), (Z.ltb_antisym va vb) by assumption.
  fold nan. destruct nan eqn:N; repeat split;
    rewrite ?result_as_int, ?result_as_not, ?Q, ?L, ?T, ?ref_compare32_result; fold va vb;
    fold nan; rewrite ?N; cbn [negb andb orb option_map]; rewrite ?negb_involutive; try reflexivity.
  all: rewrite <- negb_orb; fold nan; now rewrite N.
Qed.

(** A quiet NaN is reported as greater than 1.0. *)
Lemma emulated_comparisons_witness :
  result (__emulate_GTF_2_1_f32_f32_i32 0x7FC00000 0x3F800000 fp_init) = Some 1.
Proof.
  rewrite (proj1 (proj2 (proj2 (proj2 (proj2 (proj2 (emulated_comparisons_result fp_init 0x7FC00000
    0x3F800000 fp_init_ok ltac:(unfold is_u; lia) ltac:(unfold is_u; lia)))))))).
  vm_compute. reflexivity.
Defined.
