(* ===== verification/Float32Conv.v ===== *)
(** * Conversions between single precision and 32-bit integers *)

From S2P Require Import Prelude.
From S2P Require Import CInt.
From S2P Require Import FPState.
From S2P Require Import Rounding.
From S2P Require Import SoftFloatPrim.
From S2P Require Import Float32.
From S2P Require Import Float64.
From S2P Require Import Float32Round.
From S2P Require Import Float32Arith.
From S2P Require Import Float32MulDiv.
From S2P Require Import Emulate.

(** Representable values convert to their own pattern, without exceptions. *)
Lemma rounded32_exact st zSign b : 0 <= b < 255 * 2 ^ 23 ->
  rounded32 st zSign (mag_val32 b) 1 = Some (zSign * 2 ^ 31 + b, st).
Proof.
  intros Hb. destruct (ref_exact 24 ltac:(lia) (float_rounding_mode st) (truthy zSign) b) as [E1 E2]; [lia|].
  rewrite rounded32_finite by (rewrite E1; lia). rewrite E1, E2, andb_false_r. cbn [Z.lor].
  now rewrite raised_0.
Qed.

(** ** From integers *)

(** The correctly rounded conversion of an integer. *)
Definition ref_from_int32 (st : fpstate) (a : Z) : option (Z * fpstate) :=
  rounded32 st (b2z (a <? 0)) (Z.abs a * 2 ^ 149) 1.

(** The conversion of a signed integer to single precision is the correctly rounded value in
    the current rounding mode, inexact exactly when it is not representable. *)
Theorem int32_to_float32_correct st a : fp_ok st -> is_s 32 a ->
  int32_to_float32 a st = ref_from_int32 st a.
Proof.
  intros Hst Ha. unfold ref_from_int32. unfold is_s in Ha. change (2 ^ (32 - 1)) with (2 ^ 31) in Ha. unfold int32_to_float32.
  destruct (Z.eqb_spec a 0) as [->|H0].
  { symmetry. apply (rounded32_small st 0 0). lia. }
  destruct (Z.eqb_spec a (s32 0x80000000)) as [->|Hm].
  { symmetry. exact (rounded32_exact st 1 (0x9E * 2 ^ 23) ltac:(lia)). }
  change (s32 0x80000000) with (- 2 ^ 31) in Hm.
  replace (u32 (if truthy (b2z (a <? 0)) then s32 (- a) else a)) with (Z.abs a).
  - apply normalizeRoundAndPackFloat32_ref with (N := Z.abs a) (D := 1); try assumption; try lia.
    + destruct (a <? 0); [now right | now left].
    + apply (scaled_intro _ _ _ _ _ 0); [lia | lia |]. change (156 - 7 + 0) with 149. lia.
  - destruct (Z.ltb_spec a 0); cbn [b2z]; [change (truthy 1) with true | change (truthy 0) with false].
    + unfold s32. rewrite sw_small, u32_small by (lia || (unfold is_s; lia)). lia.
    + rewrite u32_small by lia. lia.
Qed.

(** 2^24 + 1 rounds down to even. *)
Lemma int32_to_float32_witness :
  int32_to_float32 16777217 fp_init = Some (0x4B800000, raised fp_init float_flag_inexact).
Proof.
  rewrite (int32_to_float32_correct fp_init 16777217 fp_init_ok ltac:(unfold is_s; lia)).
  vm_compute. reflexivity.
Defined.

(** The conversion of an unsigned integer rounds correctly below 2^31; from 2^31 on its lowest
    bit is dropped before rounding, so that an odd argument is converted as its predecessor. *)
Theorem uint32_to_float32_value st a : fp_ok st -> is_u 32 a ->
  uint32_to_float32 a st = ref_from_int32 st (if 2 ^ 31 <=? a then a - a mod 2 else a).
Proof.
  intros Hst Ha. unfold is_u in Ha. unfold ref_from_int32.
  assert (H0 : 0 <= (if 2 ^ 31 <=? a then a - a mod 2 else a)) by (destruct (2 ^ 31 <=? a); dlia).
  rewrite (proj2 (Z.ltb_ge _ 0)), Z.abs_eq by exact H0. cbn [b2z]. clear H0. unfold uint32_to_float32.
  destruct (Z.eqb_spec a 0) as [->|H0].
  { symmetry. apply (rounded32_small st 0 0). lia. }
  assert (E : 0 <= s8 (countLeadingZeros32 (a >> 1) - 2) /\ a < 2 ^ 31 /\
      s8 (countLeadingZeros32 (a >> 1) - 2) = 30 - Z.log2 a \/
    s8 (countLeadingZeros32 (a >> 1) - 2) = -1 /\ 2 ^ 31 <= a).
  { rewrite shiftr_1. destruct (Z.eq_dec a 1) as [->|H1]; [left; vm_compute; intuition discriminate|].
    assert (Hl : Z.log2 (a / 2) = Z.log2 a - 1) by (apply (log2_div_pow2 a 1); lia).
    assert (1 <= Z.log2 a < 32) by (split; [apply Z.log2_le_pow2 | apply Z.log2_lt_pow2]; lia).
    rewrite countLeadingZeros32_log2, Hl, s8_small by dlia.
    destruct (Z.lt_ge_cases a (2 ^ 31)) as [Hlt|Hge].
    - assert (Z.log2 a < 31) by (apply Z.log2_lt_pow2; lia). left. lia.
    - assert (31 <= Z.log2 a) by (apply Z.log2_le_pow2; lia). right. lia. }
  destruct E as [(Hc & Hlt & ->) | [-> Hge]].
  - assert (Z.log2 a < 31) by (apply Z.log2_lt_pow2; lia).
    rewrite (proj2 (Z.leb_gt (2 ^ 31) a)), (proj2 (Z.leb_le 0 (30 - Z.log2 a))) by lia.
    pose proof (Z.log2_spec a ltac:(lia)) as [Hl Hh]. pose proof (Z.log2_nonneg a).
    set (l := Z.log2 a) in *. replace (Z.succ l) with (l + 1) in Hh by lia.
    assert (Hy : 2 ^ 30 <= a * 2 ^ (30 - l) < 2 ^ 31).
    { pose proof (pow2_pos (30 - l) ltac:(lia)).
      replace (2 ^ 31) with (2 ^ (l + 1) * 2 ^ (30 - l)) by (rewrite <- Z.pow_add_r by lia; f_equal; lia).
      replace (2 ^ 30) with (2 ^ l * 2 ^ (30 - l)) by (rewrite <- Z.pow_add_r by lia; f_equal; lia). nia. }
    rewrite u32_shl_small, s16_small by lia.
    apply (roundAndPackFloat32_ref _ _ _ _ (a * 2 ^ (30 - l)) 1); try assumption; try lia.
    + now left.
    + apply sticky_exact; lia.
    + apply scaled_unshift; [lia|]. apply (scaled_intro _ _ _ _ _ 0); [lia | lia |].
      replace (156 - (30 - l) - 7 + (30 - l) + 0) with 149 by lia. lia.
  - rewrite (proj2 (Z.leb_le (2 ^ 31) a)) by lia. change (0 <=? -1) with false.
    change (s16 (156 - -1)) with 157. change (- -1) with 1. rewrite shiftr_1.
    apply (roundAndPackFloat32_ref _ _ _ _ (a / 2) 1); try assumption; try dlia.
    + now left.
    + apply sticky_exact; lia.
    + apply (scaled_intro _ _ _ _ _ 0); [lia | lia |]. change (157 - 7 + 0) with 150.
      pose proof (Z.div_mod a 2 ltac:(lia)). rewrite Z.mul_1_r. change (2 ^ 150) with (2 * 2 ^ 149). lia.
Qed.

(** 2^31 + 129 lies just above the midpoint of two neighbours and is rounded down. *)
Lemma uint32_to_float32_witness :
  uint32_to_float32 0x80000081 fp_init <> ref_from_int32 fp_init 0x80000081.
Proof.
  rewrite (uint32_to_float32_value fp_init 0x80000081 fp_init_ok ltac:(unfold is_u; lia)).
  vm_compute. discriminate.
Defined.

(** C28: The conversions of integers to single precision.  A signed integer is rounded correctly in
    the current mode, inexact exactly when it is not representable.  An unsigned integer is rounded
    correctly below 2^31; from 2^31 on its lowest bit is dropped before rounding, so that an odd
    argument is converted as its predecessor. *)
Theorem integers_to_float32 st : fp_ok st ->
  (forall a, is_s 32 a -> int32_to_float32 a st = ref_from_int32 st a) /\
  (forall a, is_u 32 a ->
     uint32_to_float32 a st = ref_from_int32 st (if 2 ^ 31 <=? a then a - a mod 2 else a)).
Proof.
  intros Hst. split; intros a Ha; [now apply int32_to_float32_correct | now apply uint32_to_float32_value].
Qed.

(** 2^24 + 1 rounds down to even; 2^31 + 129 lies just above the midpoint of two neighbours and is
    rounded down. *)
Lemma integers_to_float32_witness :
  int32_to_float32 16777217 fp_init = Some (0x4B800000, raised fp_init float_flag_inexact) /\
  uint32_to_float32 0x80000081 fp_init <> ref_from_int32 fp_init 0x80000081.
Proof.
  split.
  - rewrite (proj1 (integers_to_float32 fp_init fp_init_ok) 16777217 ltac:(unfold is_s; lia)).
    vm_compute. reflexivity.
  - rewrite (proj2 (integers_to_float32 fp_init fp_init_ok) 0x80000081 ltac:(unfold is_u; lia)).
    vm_compute. discriminate.
Defined.

(** ** To integers *)

(** Integer and fractional part of a finite value, by exponent. *)
Lemma f32_mag_div a : is_u 32 a -> 0x7E <= extractFloat32Exp a <= 0x9E ->
  let d := 0x9E - extractFloat32Exp a in
  let y := u32 ((extractFloat32Frac a ||| 0x00800000) << 8) in
  y = sig32 a * 2 ^ 8 /\ 2 ^ 31 <= y < 2 ^ 32 /\
  f32_mag a / 2 ^ 149 = y / 2 ^ d /\ (f32_mag a mod 2 ^ 149 =? 0) = (y mod 2 ^ d =? 0).
Proof.
  intros Ha He d y. destruct (larger32 a ltac:(lia)) as [E1 S1].
  destruct (fields32 a Ha) as (_ & _ & _ & Hf).
  assert (Ey : y = sig32 a * 2 ^ 8).
  { unfold y. change 0x00800000 with (2 ^ 23). rewrite lor_bit, <- S1 by lia. apply u32_shl_small; lia. }
  rewrite f32_mag_sig, E1 by assumption.
  destruct (frac_ext (sig32 a * 2 ^ (extractFloat32Exp a - 1)) (2 ^ 149) y (2 ^ d) 1)
    as (F1 & _ & F3); try lia; try (apply pow2_pos; lia).
  - rewrite Ey, <- !Z.mul_assoc, <- !Z.pow_add_r by lia. do 2 f_equal. lia.
  - rewrite !Z.mul_1_r in F1, F3. repeat split; [exact Ey | lia | lia | exact F1 | exact F3].
Qed.

Lemma f32_mag_small a e : is_u 32 a -> extractFloat32Exp a <= e -> 1 <= e -> f32_mag a < 2 ^ (e + 23).
Proof.
  intros Ha He H1. rewrite f32_mag_sig by assumption. pose proof (sig32_range a Ha).
  destruct (fields32 a Ha) as (_ & _ & ? & _).
  pose proof (pow2_le (eexp32 a - 1) (e - 1) ltac:(unfold eexp32; lia) ltac:(unfold eexp32; lia)).
  pose proof (pow2_pos (eexp32 a - 1) ltac:(unfold eexp32; lia)).
  replace (e + 23) with (24 + (e - 1)) by lia. rewrite Z.pow_add_r by lia. nia.
Qed.

Lemma f32_mag_large a : is_u 32 a -> 0x9E <= extractFloat32Exp a ->
  2 ^ 31 * 2 ^ 149 <= f32_mag a /\
  (f32_mag a = 2 ^ 31 * 2 ^ 149 <-> a mod 2 ^ 31 = 0x9E * 2 ^ 23).
Proof.
  intros Ha He. destruct (fields32 a Ha) as (Eq & _ & _ & Hf).
  assert (Em : a mod 2 ^ 31 = extractFloat32Exp a * 2 ^ 23 + extractFloat32Frac a).
  { symmetry. destruct (fields32 a Ha) as (_ & _ & R & _).
    apply (Z.mod_unique _ _ (extractFloat32Sign a)); [left; lia | lia]. }
  change (2 ^ 31 * 2 ^ 149) with (mag_val32 (0x9E * 2 ^ 23)). unfold f32_mag.
  pose proof (mag_val_compare 24 ltac:(lia) (a mod 2 ^ 31) (0x9E * 2 ^ 23) ltac:(lia) ltac:(lia)) as C.
  split.
  - destruct (Z.compare_spec (a mod 2 ^ 31) (0x9E * 2 ^ 23)); [| lia |];
      [apply -> Z.compare_eq_iff in C | apply -> Z.compare_gt_iff in C]; lia.
  - split; intros E; [rewrite E, Z.compare_refl in C; symmetry in C; now apply Z.compare_eq
                     | now rewrite E].
Qed.

(** [float32_to_int32_round_to_zero] on every operand: truncation, or the most negative integer
    with the invalid exception. *)
Definition ref_trunc32 (st : fpstate) (a : Z) : option (Z * fpstate) :=
  let n := (1 - 2 * f32_sign a) * (f32_mag a / 2 ^ 149) in
  if (extractFloat32Exp a =? 0xFF) || negb ((- 2 ^ 31 <=? n) && (n <? 2 ^ 31)) then
    Some (- 2 ^ 31, raised st float_flag_invalid)
  else Some (n, if f32_mag a mod 2 ^ 149 =? 0 then st else raised st float_flag_inexact).

Lemma min32_word a : is_u 32 a -> (a = 0xCF000000 <-> f32_sign a = 1 /\ a mod 2 ^ 31 = 0x9E * 2 ^ 23).
Proof. unfold is_u, f32_sign. intros. split; intros; [subst; split; reflexivity | dlia]. Qed.

(** Operands of magnitude 2^31 or more: only -2^31 itself is in range. *)
Lemma ref_trunc32_large st a : is_u 32 a -> 0x9E <= extractFloat32Exp a ->
  ref_trunc32 st a = if negb (a =? 0xCF000000) then Some (- 2 ^ 31, raised st float_flag_invalid)
                     else Some (- 2 ^ 31, st).
Proof.
  intros Ha He. destruct (f32_mag_large a Ha He) as [Hl Heq]. pose proof (min32_word a Ha) as Hm.
  unfold ref_trunc32. destruct (f32_sign_flag a Ha) as [Hs|Hs].
  - rewrite (proj2 (Z.eqb_neq a _)) by (rewrite Hm; lia). cbn [negb]. rewrite Hs.
    assert (2 ^ 31 <= f32_mag a / 2 ^ 149) by (apply Z.div_le_lower_bound; lia).
    rewrite (proj2 (Z.ltb_ge _ (2 ^ 31))), andb_false_r by lia. cbn [negb]. now rewrite orb_true_r.
  - destruct (Z.eqb_spec a 0xCF000000) as [->|Hne]; [reflexivity|]. cbn [negb].
    destruct (Z.eqb_spec (extractFloat32Exp a) 0xFF) as [E|E]; [reflexivity|]. cbn [orb].
    assert (H31 : 2 ^ 31 < f32_mag a / 2 ^ 149).
    { destruct (fields32 a Ha) as (_ & _ & Hr & Hf). destruct (larger32 a ltac:(lia)) as [E1 S1].
      assert (2 ^ 31 * 2 ^ 149 <> f32_mag a) by (intros Hc; symmetry in Hc; apply Heq in Hc; tauto).
      assert (Em : f32_mag a = sig32 a * 2 ^ (extractFloat32Exp a - 0x96) * 2 ^ 149).
      { rewrite f32_mag_sig, E1, <- Z.mul_assoc, <- Z.pow_add_r by (assumption || lia).
        do 2 f_equal. lia. }
      rewrite Em, Z.div_mul by lia. rewrite Em in *. nia. }
    rewrite Hs, (proj2 (Z.leb_gt (- 2 ^ 31) _)) by lia. reflexivity.
Qed.

Lemma ref_trunc32_small st a : is_u 32 a -> extractFloat32Exp a < 0x9E ->
  ref_trunc32 st a = Some ((1 - 2 * f32_sign a) * (f32_mag a / 2 ^ 149),
    if f32_mag a mod 2 ^ 149 =? 0 then st else raised st float_flag_inexact) /\
  0 <= f32_mag a / 2 ^ 149 < 2 ^ 31.
Proof.
  intros Ha He. pose proof (f32_mag_nonneg a Ha).
  pose proof (f32_mag_small a 0x9D Ha ltac:(lia) ltac:(lia)) as Hs. change (157 + 23) with (31 + 149) in Hs.
  rewrite Z.pow_add_r in Hs by lia.
  assert (R : 0 <= f32_mag a / 2 ^ 149 < 2 ^ 31)
    by (split; [apply Z.div_pos; lia | apply Z.div_lt_upper_bound; lia]).
  split; [|assumption]. unfold ref_trunc32. rewrite (proj2 (Z.eqb_neq _ 0xFF)) by lia.
  destruct (f32_sign_flag a Ha) as [-> | ->];
    rewrite (proj2 (Z.leb_le _ _)), (proj2 (Z.ltb_lt _ _)) by lia; reflexivity.
Qed.

(** The flag update [if (extra) float_exception_flags |= float_flag_inexact; return z;]. *)
Lemma inexact_ret {A} st (b : bool) (z : A) : fp_ok st ->
  (when_ b (float_raise float_flag_inexact) ;; ret z) st
  = Some (z, if b then raised st float_flag_inexact else st).
Proof.
  intros Hst. unfold bind, when_. destruct b; [|reflexivity].
  now rewrite float_raise_eq by (assumption || flag_range).
Qed.

Lemma s32_small x : - 2 ^ 31 <= x < 2 ^ 31 -> s32 x = x.
Proof. intros. apply sw_small; [lia | unfold is_s; change (32 - 1) with 31; lia]. Qed.

Lemma flag_sign32 s z : is_flag s -> 0 <= z < 2 ^ 31 ->
  (if truthy s then s32 (- z) else z) = (1 - 2 * s) * z.
Proof.
  intros [-> | ->] Hz; [change (truthy 0) with false; lia | change (truthy 1) with true].
  rewrite s32_small by lia. lia.
Qed.

(** The truncating conversion to a signed integer (the CFI instruction) returns the value
    rounded toward zero, raising inexact exactly when a fraction is discarded; NaNs, infinities
    and values out of range give the most negative integer and the invalid exception. *)
Theorem float32_to_int32_round_to_zero_correct st a : fp_ok st -> is_u 32 a ->
  float32_to_int32_round_to_zero a st = ref_trunc32 st a.
Proof.
  intros Hst Ha. destruct (fields32 a Ha) as (_ & _ & He & Hf).
  unfold float32_to_int32_round_to_zero. rewrite s16_small by lia.
  destruct (Z.leb_spec 0 (extractFloat32Exp a - 0x9E)).
  - rewrite ref_trunc32_large by (assumption || lia). destruct (a =? 0xCF000000); cbn [negb]; [reflexivity|].
    unfold bind. rewrite float_raise_eq by (assumption || flag_range). now destruct (_ || _).
  - destruct (ref_trunc32_small st a Ha ltac:(lia)) as [-> R].
    pose proof (f32_mag_nonneg a Ha) as Hm0.
    destruct (Z.leb_spec (extractFloat32Exp a) 0x7E).
    + rewrite inexact_ret by assumption. unfold truthy. rewrite lor_eq0, <- f32_mag_zero by assumption.
      pose proof (f32_mag_small a 0x7E Ha ltac:(lia) ltac:(lia)) as Hs. change (126 + 23) with 149 in Hs.
      rewrite Z.div_small, Z.mod_small, Z.mul_0_r by lia. now destruct (f32_mag a =? 0).
    + destruct (f32_mag_div a Ha ltac:(lia)) as (Ey & Hy & Ed & Em). rewrite Ed, Em in *.
      set (y := u32 ((extractFloat32Frac a ||| 0x00800000) << 8)) in *.
      rewrite inexact_ret by assumption.
      replace (- (extractFloat32Exp a - 158)) with (158 - extractFloat32Exp a) by lia.
      rewrite shr_div, (s32_small (y / _)), flag_sign32 by (lia || (rewrite sign32_div; now apply f32_sign_flag)).
      rewrite sign32_div, count_and, truthy_shl by (pose proof (Z.mod_pos_bound (extractFloat32Exp a - 158) 32 ltac:(lia)); lia).
      replace ((extractFloat32Exp a - 158) mod 32) with (32 - (158 - extractFloat32Exp a))
        by (apply (Z.mod_unique _ _ (-1)); lia).
      replace (32 - (32 - (158 - extractFloat32Exp a))) with (158 - extractFloat32Exp a) by lia.
      change (a / 2 ^ 31) with (f32_sign a).
      now destruct (y mod 2 ^ (158 - extractFloat32Exp a) =? 0).
Qed.

(** -2.5 truncates to -2; a NaN gives the most negative integer. *)
Lemma float32_to_int32_round_to_zero_witness :
  float32_to_int32_round_to_zero 0xC0200000 fp_init = Some (-2, raised fp_init float_flag_inexact) /\
  float32_to_int32_round_to_zero 0x7FC00000 fp_init = Some (- 2 ^ 31, raised fp_init float_flag_invalid).
Proof.
  split; rewrite float32_to_int32_round_to_zero_correct
    by (exact fp_init_ok || (unfold is_u; lia)); vm_compute; reflexivity.
Defined.

(** What the unsigned conversion computes. *)
Definition cfiu_result (st : fpstate) (a : Z) : option (Z * fpstate) :=
  if 0x9E <? extractFloat32Exp a then Some (0, st)
  else Some (u32 ((1 - 2 * f32_sign a) * (f32_mag a / 2 ^ 149)),
             if (f32_mag a mod 2 ^ 149 =? 0) && negb (extractFloat32Exp a =? 0x9E) then st
             else raised st float_flag_inexact).

(** The unsigned conversion (CFIU) returns the value rounded toward zero, reduced modulo 2^32
    for negative operands, and zero without any exception for NaNs, infinities and magnitudes
    of 2^32 or more.  It raises inexact when a fraction is discarded, and also, without cause,
    for every magnitude from 2^31 on. *)
Lemma emulated_cfiu_value st a : fp_ok st -> is_u 32 a ->
  __emulate_CFIU_1_1_f32_i32 a st = cfiu_result st a.
Proof.
  intros Hst Ha. unfold cfiu_result. destruct (fields32 a Ha) as (_ & _ & He & Hf).
  pose proof (f32_mag_nonneg a Ha) as Hm0.
  unfold __emulate_CFIU_1_1_f32_i32, float32_to_uint32. unfold bind at 1. rewrite s16_small by lia.
  destruct (Z.ltb_spec 0 (extractFloat32Exp a - 0x9E)), (Z.ltb_spec 0x9E (extractFloat32Exp a)); try lia;
    [reflexivity|].
  destruct (Z.leb_spec (extractFloat32Exp a) 0x7E).
  - rewrite inexact_ret by assumption. unfold truthy, ret. rewrite lor_eq0, <- f32_mag_zero by assumption.
    pose proof (f32_mag_small a 0x7E Ha ltac:(lia) ltac:(lia)) as Hs. change (126 + 23) with 149 in Hs.
    rewrite Z.div_small, Z.mod_small, Z.mul_0_r, (proj2 (Z.eqb_neq _ 0x9E)), andb_true_r by lia.
    now destruct (f32_mag a =? 0).
  - destruct (f32_mag_div a Ha ltac:(lia)) as (Ey & Hy & Ed & Em). rewrite Ed, Em in *.
    set (y := u32 ((extractFloat32Frac a ||| 0x00800000) << 8)) in *.
    rewrite inexact_ret by assumption. unfold ret.
    replace (- (extractFloat32Exp a - 158)) with (158 - extractFloat32Exp a) by lia.
    rewrite shr_div, sign32_div, count_and by lia. change (a / 2 ^ 31) with (f32_sign a).
    set (z := y / 2 ^ (158 - extractFloat32Exp a)).
    assert (Ez : u32 (if truthy (f32_sign a) then s32 (- s32 z) else s32 z)
                 = u32 ((1 - 2 * f32_sign a) * z)).
    { destruct (f32_sign_flag a Ha) as [-> | ->];
        [change (truthy 0) with false | change (truthy 1) with true]; unfold u32, s32;
        rewrite uw_sw by lia; [f_equal; lia|].
      replace ((1 - 2 * 1) * z) with (- z) by lia. unfold uw, sw. dlia. }
    rewrite Ez. do 2 f_equal.
    destruct (Z.eq_dec (extractFloat32Exp a) 0x9E) as [E|E].
    + rewrite E. change ((158 - 158) mod 32) with 0. rewrite Z.eqb_refl, andb_false_r.
      rewrite truthy_shl, Z.mod_small by (change (32 - 0) with 32; lia).
      now rewrite (proj2 (Z.eqb_neq y 0)) by lia.
    + rewrite (proj2 (Z.eqb_neq _ _) E), andb_true_r.
      rewrite truthy_shl by (pose proof (Z.mod_pos_bound (extractFloat32Exp a - 158) 32 ltac:(lia)); lia).
      replace ((extractFloat32Exp a - 158) mod 32) with (32 - (158 - extractFloat32Exp a))
        by (apply (Z.mod_unique _ _ (-1)); lia).
      replace (32 - (32 - (158 - extractFloat32Exp a))) with (158 - extractFloat32Exp a) by lia.
      now destruct (y mod 2 ^ (158 - extractFloat32Exp a) =? 0).
Qed.

(** [float32_to_int32] on every operand: the value rounded in the current mode, or the integer
    of largest magnitude with the invalid exception, positive for a NaN. *)
Definition ref_int32 (st : fpstate) (a : Z) : option (Z * fpstate) :=
  let s := f32_sign a in
  let n := (1 - 2 * s) * round_q (float_rounding_mode st) (truthy s) (f32_mag a) (2 ^ 149) in
  if (extractFloat32Exp a =? 0xFF) || negb ((- 2 ^ 31 <=? n) && (n <? 2 ^ 31)) then
    Some (if f32_is_nan a || (s =? 0) then 0x7FFFFFFF else - 2 ^ 31, raised st float_flag_invalid)
  else Some (n, if f32_mag a mod 2 ^ 149 =? 0 then st else raised st float_flag_inexact).

(** The magnitude of an operand with exponent at least 0x96 is an integer. *)
Lemma f32_mag_integer a : is_u 32 a -> 0x96 <= extractFloat32Exp a ->
  f32_mag a = sig32 a * 2 ^ (extractFloat32Exp a - 0x96) * 2 ^ 149.
Proof.
  intros Ha He. destruct (larger32 a ltac:(lia)) as [E1 _].
  rewrite f32_mag_sig, E1, <- Z.mul_assoc, <- Z.pow_add_r by (assumption || lia). do 2 f_equal. lia.
Qed.

Lemma ref_int32_integer st a : is_u 32 a -> 0x96 <= extractFloat32Exp a ->
  let n := sig32 a * 2 ^ (extractFloat32Exp a - 0x96) in
  ref_int32 st a =
  if (extractFloat32Exp a =? 0xFF) || (2 ^ 31 <? n) || ((n =? 2 ^ 31) && (f32_sign a =? 0)) then
    Some (if f32_is_nan a || (f32_sign a =? 0) then 0x7FFFFFFF else - 2 ^ 31,
          raised st float_flag_invalid)
  else Some ((1 - 2 * f32_sign a) * n, st).
Proof.
  intros Ha He n. unfold ref_int32. rewrite (f32_mag_integer a Ha He). fold n.
  rewrite Z.mod_mul, round_q_exact, Z.div_mul by (lia || (apply Z.mod_mul; lia)).
  assert (Hn : 0 <= n) by (unfold n; pose proof (sig32_range a Ha); nonneg).
  destruct (extractFloat32Exp a =? 255); cbn [orb]; [reflexivity|].
  destruct (f32_sign_flag a Ha) as [-> | ->]; repeat ztest; cbn [andb orb negb]; try reflexivity; lia.
Qed.

(** The value and rounding information of an operand with a fraction: [z] and [aSigExtra]. *)
Lemma float32_to_int32_extra a : is_u 32 a -> extractFloat32Exp a < 0x96 ->
  let '(extra, z) :=
    if extractFloat32Exp a <? 0x7E then (extractFloat32Exp a ||| extractFloat32Frac a, 0)
    else
      let aSig := extractFloat32Frac a ||| 0x00800000 in
      (u32 (aSig << ((extractFloat32Exp a - 0x96) &&& 31)), s32 (aSig >> (- (extractFloat32Exp a - 0x96))))
  in is_u 32 extra /\ z = f32_mag a / 2 ^ 149 /\ 0 <= z < 2 ^ 24 /\
     (extra =? 0) = (f32_mag a mod 2 ^ 149 =? 0) /\
     (extra ?= 2 ^ 31) = (2 * (f32_mag a mod 2 ^ 149) ?= 2 ^ 149).
Proof.
  intros Ha He. destruct (fields32 a Ha) as (_ & _ & Hr & Hf). pose proof (f32_mag_nonneg a Ha) as Hm0.
  destruct (Z.ltb_spec (extractFloat32Exp a) 0x7E) as [Hs|Hs].
  - pose proof (f32_mag_small a 0x7D Ha ltac:(lia) ltac:(lia)) as Hb. change (125 + 23) with 148 in Hb.
    rewrite (Z.div_small (f32_mag a)), (Z.mod_small (f32_mag a)) by lia.
    assert (Hl : 0 <= extractFloat32Exp a ||| extractFloat32Frac a < 2 ^ 23) by (apply lor_bound; lia).
    split; [unfold is_u; lia|]. split; [reflexivity|]. split; [lia|]. split.
    + now rewrite lor_eq0, <- f32_mag_zero.
    + transitivity Lt; [apply Z.compare_lt_iff | symmetry; apply Z.compare_lt_iff]; lia.
  - destruct (larger32 a ltac:(lia)) as [E1 S1]. cbv zeta. change 0x00800000 with (2 ^ 23).
    rewrite lor_bit, <- S1 by lia. pose proof (sig32_range a Ha) as HS.
    set (d := 0x96 - extractFloat32Exp a). assert (Hd : 1 <= d <= 24) by lia.
    replace (- (extractFloat32Exp a - 150)) with d by lia. rewrite count_and.
    replace ((extractFloat32Exp a - 150) mod 32) with (32 - d) by (apply (Z.mod_unique _ _ (-1)); lia).
    rewrite u32_shl, shr_div by lia. replace (32 - (32 - d)) with d by lia.
    destruct (frac_ext (f32_mag a) (2 ^ 149) (sig32 a) (2 ^ d) 1) as (F1 & F2 & F3);
      try lia; try (apply pow2_pos; lia).
    { rewrite f32_mag_sig, E1, <- Z.mul_assoc, <- Z.pow_add_r by (assumption || lia). do 2 f_equal. lia. }
    rewrite !Z.mul_1_r in *. rewrite F1, F2, F3.
    pose proof (pow2_pos d ltac:(lia)) as Pd. pose proof (pow2_pos (31 - d) ltac:(lia)) as Pc.
    pose proof (Z.mod_pos_bound (sig32 a) (2 ^ d) Pd) as Hm.
    assert (E32 : 2 ^ 32 = 2 ^ d * (2 * 2 ^ (31 - d))).
    { replace (2 * 2 ^ (31 - d)) with (2 ^ (31 - d + 1)) by (rewrite pow2_succ by lia; lia).
      rewrite <- Z.pow_add_r by lia. f_equal. lia. }
    replace (2 ^ (32 - d)) with (2 * 2 ^ (31 - d))
      by (rewrite <- pow2_succ by lia; f_equal; lia).
    assert (Hz : 0 <= sig32 a / 2 ^ d < 2 ^ 24).
    { split; [apply Z.div_pos; lia | apply Z.div_lt_upper_bound; [lia|]]. nia. }
    rewrite s32_small by lia.
    split; [unfold is_u; rewrite E32; nia|]. split; [reflexivity|]. split; [exact Hz|]. split.
    + destruct (Z.eqb_spec (sig32 a mod 2 ^ d) 0) as [->|]; [reflexivity|]. apply Z.eqb_neq. nia.
    + replace (2 ^ 31) with (2 ^ (31 - d) * 2 ^ d) by (rewrite <- Z.pow_add_r by lia; f_equal; lia).
      replace (sig32 a mod 2 ^ d * (2 * 2 ^ (31 - d))) with (2 ^ (31 - d) * (2 * (sig32 a mod 2 ^ d))) by ring.
      now apply compare_scale.
Qed.

Lemma land_lnot_1 x : x &&& Z.lnot 1 = 2 * (x / 2).
Proof.
  rewrite <- Z.ldiff_land. change 1 with (Z.ones 1). rewrite Z.ldiff_ones_r, shiftl_1, shiftr_1 by lia.
  reflexivity.
Qed.

(** Rounding from the discarded part [extra], a fraction of 2^32. *)
Lemma nearest_extra z extra M : is_u 32 extra -> 0 <= z < 2 ^ 24 -> z = M / 2 ^ 149 ->
  (extra =? 0) = (M mod 2 ^ 149 =? 0) -> (extra ?= 2 ^ 31) = (2 * (M mod 2 ^ 149) ?= 2 ^ 149) ->
  forall s,
  (if s32 extra <? 0 then
     (if u32 (extra << 1) =? 0 then s32 (z + 1) &&& Z.lnot 1 else s32 (z + 1))
   else z) = round_q float_round_nearest_even s M (2 ^ 149).
Proof.
  intros He Hz Ez E0 Ec s. unfold round_q, rounds_away. cbn [Z.eqb float_round_nearest_even].
  rewrite <- Ez, <- Ec, s32_neg by assumption. unfold is_u in He.
  rewrite u32_shl by lia. change (32 - 1) with 31. rewrite land_lnot_1. rewrite (s32_small (z + 1)) by lia.
  destruct (Z.compare_spec extra (2 ^ 31)) as [->|Hlt|Hgt].
  - cbn [Z.leb Z.compare]. change (2 ^ 31 mod 2 ^ 31 * 2 ^ 1 =? 0) with true. cbn iota.
    rewrite (proj2 (Z.leb_le _ _)) by lia.
    rewrite <- (Z.negb_even z). destruct (Z.even z) eqn:Ev; cbn [negb b2z].
    + apply Z.even_spec in Ev as [k ->]. dlia.
    + assert (Ho : Z.odd z = true) by (rewrite <- Z.negb_even, Ev; reflexivity).
      apply Z.odd_spec in Ho as [k ->]. dlia.
  - rewrite (proj2 (Z.leb_gt _ _)) by lia. cbn [b2z]. lia.
  - rewrite (proj2 (Z.leb_le _ _)), (proj2 (Z.eqb_neq _ 0)) by dlia. reflexivity.
Qed.

Lemma directed_extra mode z M s : 0 <= mode <= 3 -> mode <> float_round_nearest_even ->
  0 <= z < 2 ^ 24 -> z = M / 2 ^ 149 -> is_flag s ->
  (z + (b2z (mode =? (if truthy s then float_round_down else float_round_up))
        &&& b2z (negb (M mod 2 ^ 149 =? 0)))) = round_q mode (truthy s) M (2 ^ 149).
Proof.
  intros Hm Hn Hz Ez Hs. unfold round_q, rounds_away, float_round_nearest_even in *.
  rewrite <- Ez. rewrite (proj2 (Z.eqb_neq mode 0)) by assumption.
  assert (C : mode = 1 \/ mode = 2 \/ mode = 3) by lia.
  destruct Hs as [-> | ->]; [change (truthy 0) with false | change (truthy 1) with true];
    destruct C as [-> | [-> | ->]]; destruct (M mod 2 ^ 149 =? 0); reflexivity.
Qed.

Lemma float32_to_int32_big st a : fp_ok st -> is_u 32 a -> 0x9E <= extractFloat32Exp a ->
  let n := sig32 a * 2 ^ (extractFloat32Exp a - 0x96) in
  (if negb (a =? 0xCF000000) then
     float_raise float_flag_invalid ;;
     if negb (truthy (f32_sign a)) || ((extractFloat32Exp a =? 0xFF) && truthy (extractFloat32Frac a))
     then ret 0x7FFFFFFF else ret (s32 0x80000000)
   else ret (s32 0x80000000)) st =
  if (extractFloat32Exp a =? 0xFF) || (2 ^ 31 <? n) || ((n =? 2 ^ 31) && (f32_sign a =? 0)) then
    Some (if f32_is_nan a || (f32_sign a =? 0) then 0x7FFFFFFF else - 2 ^ 31,
          raised st float_flag_invalid)
  else Some ((1 - 2 * f32_sign a) * n, st).
Proof.
  intros Hst Ha He n. destruct (Z.eqb_spec a 0xCF000000) as [->|Hne]; [reflexivity|]. cbn [negb].
  destruct (f32_mag_large a Ha He) as [Hl Heq]. rewrite f32_mag_integer in Hl, Heq by (assumption || lia).
  fold n in Hl, Heq. pose proof (min32_word a Ha) as Hm.
  replace ((extractFloat32Exp a =? 0xFF) || (2 ^ 31 <? n) || ((n =? 2 ^ 31) && (f32_sign a =? 0))) with true.
  - unfold bind. rewrite float_raise_eq by (assumption || flag_range). unfold f32_is_nan, truthy.
    rewrite (orb_comm _ (f32_sign a =? 0)), negb_involutive. now destruct (_ || _).
  - symmetry. destruct (extractFloat32Exp a =? 0xFF); cbn [orb]; [reflexivity|].
    destruct (Z.ltb_spec (2 ^ 31) n); cbn [orb]; [reflexivity|].
    assert (En : n = 2 ^ 31) by nia. rewrite En, Z.eqb_refl. cbn [andb].
    apply Z.eqb_eq. destruct (f32_sign_flag a Ha) as [|Hs1]; [assumption|]. exfalso.
    apply Hne, Hm. split; [assumption|]. apply Heq. lia.
Qed.

Lemma ref_int32_fraction st a : is_u 32 a -> extractFloat32Exp a < 0x96 ->
  ref_int32 st a =
  Some ((1 - 2 * f32_sign a) * round_q (float_rounding_mode st) (truthy (f32_sign a)) (f32_mag a) (2 ^ 149),
        if f32_mag a mod 2 ^ 149 =? 0 then st else raised st float_flag_inexact).
Proof.
  intros Ha He. unfold ref_int32. rewrite (proj2 (Z.eqb_neq _ 0xFF)) by lia. cbn [orb].
  pose proof (f32_mag_small a 0x95 Ha ltac:(lia) ltac:(lia)) as Hb. change (149 + 23) with (23 + 149) in Hb.
  rewrite Z.pow_add_r in Hb by lia. pose proof (f32_mag_nonneg a Ha).
  set (r := round_q _ _ _ _).
  assert (Hr : 0 <= r <= 2 ^ 23) by (split; [apply round_q_ge | apply round_q_le]; lia).
  destruct (f32_sign_flag a Ha) as [-> | ->];
    rewrite (proj2 (Z.leb_le _ _)), (proj2 (Z.ltb_lt _ _)) by lia; reflexivity.
Qed.

(** The result of the rounding tail. *)
Lemma float32_to_int32_tail st s z extra M : fp_ok st -> is_flag s -> is_u 32 extra ->
  0 <= z < 2 ^ 24 -> z = M / 2 ^ 149 -> (extra =? 0) = (M mod 2 ^ 149 =? 0) ->
  (extra ?= 2 ^ 31) = (2 * (M mod 2 ^ 149) ?= 2 ^ 149) ->
  (when_ (truthy extra) (float_raise float_flag_inexact) ;;
   let* roundingMode := get_mode in
   if roundingMode =? float_round_nearest_even then
     let z :=
       if s32 extra <? 0 then
         let z := s32 (z + 1) in
         if u32 (extra << 1) =? 0 then z &&& Z.lnot 1 else z
       else z in
     ret (if truthy s then s32 (- z) else z)
   else
     let aSigExtra := b2z (truthy extra) in
     if truthy s then
       let z := s32 (z + (b2z (roundingMode =? float_round_down) &&& aSigExtra)) in
       ret (s32 (- z))
     else ret (s32 (z + (b2z (roundingMode =? float_round_up) &&& aSigExtra)))) st
  = Some ((1 - 2 * s) * round_q (float_rounding_mode st) (truthy s) M (2 ^ 149),
          if M mod 2 ^ 149 =? 0 then st else raised st float_flag_inexact).
Proof.
  intros Hst Hs He Hz Ez E0 Ec. pose proof (mode_ok st Hst) as Hm.
  assert (Et : truthy extra = negb (M mod 2 ^ 149 =? 0)) by (unfold truthy; now rewrite E0).
  rewrite !Et. set (st' := if M mod 2 ^ 149 =? 0 then st else raised st float_flag_inexact).
  assert (Hst' : (when_ (negb (M mod 2 ^ 149 =? 0)) (float_raise float_flag_inexact)) st = Some (tt, st')).
  { unfold st', when_. destruct (M mod 2 ^ 149 =? 0); cbn [negb]; [reflexivity|].
    now rewrite float_raise_eq by (assumption || flag_range). }
  unfold bind at 1. rewrite Hst'. unfold bind, get_mode.
  replace (float_rounding_mode st') with (float_rounding_mode st) by (unfold st'; now destruct (M mod 2 ^ 149 =? 0)).
  set (mode := float_rounding_mode st) in *.
  assert (Hr : 0 <= round_q mode (truthy s) M (2 ^ 149) < 2 ^ 31).
  { pose proof (round_q_bounds mode (truthy s) M (2 ^ 149)). lia. }
  destruct (Z.eqb_spec mode float_round_nearest_even) as [Em|Hne].
  - cbv zeta. rewrite (nearest_extra z extra M He Hz Ez E0 Ec (truthy s)), <- Em.
    unfold ret. now rewrite flag_sign32 by assumption.
  - pose proof (directed_extra mode z M s Hm Hne Hz Ez Hs) as Hd. cbv zeta. unfold ret.
    rewrite <- Hd in *. destruct Hs as [-> | ->];
      [change (truthy 0) with false in * | change (truthy 1) with true in *]; cbn iota in *.
    + rewrite s32_small by lia. do 2 f_equal. lia.
    + rewrite (s32_small (z + _)), s32_small by lia. reflexivity.
Qed.

(** The conversion to a signed integer rounds in the current mode, raises inexact exactly when
    the value is not an integer, and delivers the largest integer of the operand's sign (the
    largest positive one for a NaN) with the invalid exception when the result is out of range. *)
Theorem float32_to_int32_correct st a : fp_ok st -> is_u 32 a -> float32_to_int32 a st = ref_int32 st a.
Proof.
  intros Hst Ha. destruct (fields32 a Ha) as (_ & _ & He & Hf).
  pose proof (f32_sign_flag a Ha) as Hs. pose proof (sig32_range a Ha) as HS.
  unfold float32_to_int32. rewrite s16_small, sign32_div by lia. change (a / 2 ^ 31) with (f32_sign a).
  destruct (Z.leb_spec 0 (extractFloat32Exp a - 0x96)).
  - rewrite ref_int32_integer by (assumption || lia). destruct (larger32 a ltac:(lia)) as [_ S1].
    change 0x00800000 with (2 ^ 23). rewrite lor_bit, <- S1 by lia.
    set (n := sig32 a * 2 ^ (extractFloat32Exp a - 150)).
    destruct (Z.leb_spec 0x9E (extractFloat32Exp a)) as [Hb|Hb].
    + apply float32_to_int32_big; assumption.
    + assert (Hn : 0 <= n < 2 ^ 31).
      { unfold n. pose proof (pow2_le (extractFloat32Exp a - 150) 7 ltac:(lia) ltac:(lia)).
        pose proof (pow2_pos (extractFloat32Exp a - 150) ltac:(lia)). nia. }
      rewrite (proj2 (Z.eqb_neq _ 0xFF)), (proj2 (Z.ltb_ge (2 ^ 31) n)), (proj2 (Z.eqb_neq n (2 ^ 31))) by lia.
      cbn [orb andb]. unfold ret. rewrite u32_shl_small by lia. fold n.
      rewrite (s32_small n), flag_sign32 by (assumption || lia). reflexivity.
  - rewrite ref_int32_fraction by (assumption || lia).
    pose proof (float32_to_int32_extra a Ha ltac:(lia)) as X.
    destruct (if extractFloat32Exp a <? 0x7E then _ else _) as [extra z].
    destruct X as (X1 & X2 & X3 & X4 & X5). now apply float32_to_int32_tail.
Qed.

(** 2.5 rounds to even, -2^31 is in range, 2^31 is not. *)
Lemma float32_to_int32_witness :
  float32_to_int32 0x40200000 fp_init = Some (2, raised fp_init float_flag_inexact) /\
  float32_to_int32 0xCF000000 fp_init = Some (- 2 ^ 31, fp_init) /\
  float32_to_int32 0x4F000000 fp_init = Some (0x7FFFFFFF, raised fp_init float_flag_invalid).
Proof.
  split; [|split]; rewrite float32_to_int32_correct by (exact fp_init_ok || (unfold is_u; lia));
    vm_compute; reflexivity.
Defined.

(** The conversions of single precision to signed integers.  The one for the current mode
    rounds in that mode and delivers the largest integer of the operand's sign (the largest
    positive one for a NaN) when the result is out of range; the truncating one (the CFI
    instruction) rounds toward zero and gives the most negative integer for NaNs, infinities and
    values out of range.  Both raise inexact exactly when the value in range is not an integer, and
    invalid exactly when the result is out of range. *)
Lemma float32_to_integers st a : fp_ok st -> is_u 32 a ->
  float32_to_int32 a st = ref_int32 st a /\ float32_to_int32_round_to_zero a st = ref_trunc32 st a.
Proof.
  intros Hst Ha. split; [now apply float32_to_int32_correct | now apply float32_to_int32_round_to_zero_correct].
Qed.

(** C29: The conversions of single precision to integers.  The one for the current mode rounds in that
    mode and delivers the largest integer of the operand's sign (the largest positive one for a
    NaN) when the result is out of range; the truncating one (the CFI instruction) rounds toward
    zero and gives the most negative integer for NaNs, infinities and values out of range.  Both
    raise inexact exactly when the value in range is not an integer, and invalid exactly when the
    result is out of range.  The unsigned one (CFIU) also truncates, but reduces negative values
    modulo 2^32, returns zero without any exception for NaNs, infinities and magnitudes of 2^32
    or more, and raises inexact without cause for every magnitude from 2^31 on. *)
Theorem float32_to_all_integers st a : fp_ok st -> is_u 32 a ->
  float32_to_int32 a st = ref_int32 st a /\ float32_to_int32_round_to_zero a st = ref_trunc32 st a /\
  __emulate_CFIU_1_1_f32_i32 a st = cfiu_result st a.
Proof.
  intros Hst Ha. destruct (float32_to_integers st a Hst Ha).
  split; [|split]; [assumption.. | now apply emulated_cfiu_value].
Qed.

(** 2.5 rounds to even; -2.5 truncates to -2; 2^31 is exact, yet the unsigned conversion raises
    inexact. *)
Lemma float32_to_all_integers_witness :
  float32_to_int32 0x40200000 fp_init = Some (2, raised fp_init float_flag_inexact) /\
  float32_to_int32_round_to_zero 0xC0200000 fp_init = Some (-2, raised fp_init float_flag_inexact) /\
  __emulate_CFIU_1_1_f32_i32 0x4F000000 fp_init = Some (2 ^ 31, raised fp_init float_flag_inexact).
Proof.
  destruct (float32_to_all_integers fp_init 0x40200000 fp_init_ok ltac:(unfold is_u; lia)) as [E _].
  destruct (float32_to_all_integers fp_init 0xC0200000 fp_init_ok ltac:(unfold is_u; lia)) as (_ & E2 & _).
  destruct (float32_to_all_integers fp_init 0x4F000000 fp_init_ok ltac:(unfold is_u; lia)) as (_ & _ & E3).
  rewrite E, E2, E3. split; [|split]; vm_compute; reflexivity.
Defined.
