(* ===== verification/HostFloat.v ===== *)
(** * Floating-point arithmetic of the host

    The C++ code computes with float and double of the host, which are binary32 and binary64 of
    IEEE 754 in the default environment: results are rounded to nearest, ties to even, and no traps
    are taken.  Values are bit patterns.  What IEEE 754 leaves open is the pattern of a NaN result:
    the host is a class whose operations agree with the standard up to the choice of NaN.  The
    reference semantics is that of Rounding.v. *)

From S2P Require Import Prelude.
From S2P Require Import CInt.
From S2P Require Import Cpp.
From S2P Require Import FPState.
From S2P Require Import Rounding.
From S2P Require Import SoftFloatPrim.
From S2P Require Import Float32.
From S2P Require Import Float32Round.
From S2P Require Import Float32Arith.
From S2P Require Import Float32MulDiv.
From S2P Require Import SqrtEstimate.
From S2P Require Import Float32Sqrt.
From S2P Require Import Float32Conv.

(** The value of a reference result, exceptions dropped. *)
Definition bits_of (r : option (Z * fpstate)) : Z := match r with Some (z, _) => z | None => 0 end.

Definition same_float (x y : Z) : Prop := x = y \/ (f32_is_nan x = true /\ f32_is_nan y = true).

(** The result [z] of an operation, [nan] when an operand is a NaN, with the reference [r]. *)
Definition float_result (nan : bool) (z : Z) (r : option (Z * fpstate)) : Prop :=
  is_u 32 z /\ if nan then f32_is_nan z = true else same_float z (bits_of r).

Definition either_nan (a b : Z) : bool := f32_is_nan a || f32_is_nan b.

Class HostFloat := {
  fadd : Z -> Z -> Z;
  fsub : Z -> Z -> Z;
  fmul : Z -> Z -> Z;
  fdiv : Z -> Z -> Z;
  sqrtf : Z -> Z;
  NAN : Z;
  fadd_law a b : is_u 32 a -> is_u 32 b -> float_result (either_nan a b) (fadd a b) (ref_sum32 fp_init a b (f32_sign b));
  fsub_law a b : is_u 32 a -> is_u 32 b -> float_result (either_nan a b) (fsub a b) (ref_sum32 fp_init a b (1 - f32_sign b));
  fmul_law a b : is_u 32 a -> is_u 32 b -> float_result (either_nan a b) (fmul a b) (ref_mul32 fp_init a b);
  fdiv_law a b : is_u 32 a -> is_u 32 b -> float_result (either_nan a b) (fdiv a b) (ref_div32 fp_init a b);
  sqrtf_law a : is_u 32 a -> float_result (f32_is_nan a) (sqrtf a) (ref_sqrt32 fp_init a);
  NAN_law : is_u 32 NAN /\ f32_is_nan NAN = true;
}.

(** [INFINITY], [static_cast<float>] of an int, and [exp2] of a small integer. *)
Definition INFINITY : Z := 0x7F800000.
Definition float_of_int (x : Z) : Z := bits_of (ref_from_int32 fp_init x).
Definition exp2 (n : Z) : Z := (n + 127) * 2 ^ 23.

(** ** Exact results *)

Definition finite32 (z : Z) : Prop := is_u 32 z /\ z mod 2 ^ 31 < inf_bits 24 255.

(** [z] is the number [m], in units of the least positive float, with the sign [s]. *)
Definition is_float (z s m : Z) : Prop := finite32 z /\ f32_sign z = s /\ f32_mag z = m.

Lemma finite_not_nan z : finite32 z -> f32_is_nan z = false /\ f32_is_inf z = false.
Proof.
  intros [Hz Hf]. change (inf_bits 24 255) with (255 * 2 ^ 23) in Hf. unfold f32_is_nan, f32_is_inf. rewrite exp32_mod.
  replace (z / 2 ^ 23 mod 2 ^ 8 =? 255) with false; [now split|]. symmetry. apply Z.eqb_neq. unfold is_u in Hz. dlia.
Qed.

Lemma is_float_unique z z' s m : is_float z s m -> is_float z' s m -> z = z'.
Proof.
  intros ((Hz & _) & Hs & Hm) ((Hz' & _) & Hs' & Hm'). unfold f32_sign, f32_mag in *.
  pose proof (mag_val_compare 24 ltac:(lia) (z mod 2 ^ 31) (z' mod 2 ^ 31) ltac:(dlia) ltac:(dlia)) as C.
  rewrite Hm, Hm', Z.compare_refl in C. symmetry in C. apply Z.compare_eq in C. unfold is_u in *. dlia.
Qed.

(** ** The range of reference results *)

Lemma ref_mag_nonneg p mode s N D : 0 < p -> 0 <= N -> 0 < D -> 0 <= ref_mag p mode s N D.
Proof.
  intros Hp HN HD. destruct (ref_k_spec p Hp N D HN HD) as (Hk & _). unfold ref_mag. pose proof (pow2_pos _ Hk).
  pose proof (round_q_ge mode s N (D * 2 ^ ref_k p N D) 0 ltac:(nia) ltac:(lia)). pose proof (pow2_pos (p - 1) ltac:(lia)). nia.
Qed.

Lemma ref_bits_in_range p E mode s N D : 0 < p -> 0 < E -> 0 <= N -> 0 < D -> 0 <= ref_bits p E mode s N D <= inf_bits p E.
Proof.
  intros Hp HE HN HD. pose proof (ref_mag_nonneg p mode s N D Hp HN HD). pose proof (pow2_pos (p - 1) ltac:(lia)).
  assert (0 < inf_bits p E) by (unfold inf_bits; nia). unfold ref_bits, ref_overflow.
  destruct (Z.leb_spec (inf_bits p E) (ref_mag p mode s N D)); [destruct (saturates mode s); cbn [b2z]|]; lia.
Qed.

Lemma rounded32_word st s A B : is_flag s -> 0 <= A -> 0 < B -> is_u 32 (bits_of (rounded32 st s A B)).
Proof.
  intros Hs HA HB. cbn [rounded32 bits_of]. pose proof (ref_bits_in_range 24 255 (float_rounding_mode st) (truthy s) A B) as R.
  change (inf_bits 24 255) with (255 * 2 ^ 23) in R. unfold is_u. destruct Hs; lia.
Qed.

(** Rounding a magnitude of at most 24 significant bits gives it back. *)
Lemma rounded_exact st s A B r j : is_flag s -> 0 < B -> 0 <= r < 2 ^ 24 -> 0 <= j <= 253 -> A = r * 2 ^ j * B ->
  is_float (bits_of (rounded32 st s A B)) s (r * 2 ^ j).
Proof.
  intros Hs HB Hr Hj ->. cbn [rounded32 bits_of]. set (mode := float_rounding_mode st). pose proof (pow2_pos j ltac:(lia)) as Pj.
  rewrite (ref_bits_frac 24 255 mode _ _ _ (r * 2 ^ j) 1) by (lia || ring).
  pose proof (ref_representable 24 ltac:(lia) mode (truthy s) r j Hr ltac:(lia)) as V.
  set (b := ref_mag 24 mode (truthy s) (r * 2 ^ j) 1) in *.
  assert (Hb : 0 <= b) by (apply ref_mag_nonneg; nia).
  assert (Hlt : b < inf_bits 24 255).
  { pose proof (mag_val_compare 24 ltac:(lia) b (inf_bits 24 255) Hb ltac:(vm_compute; discriminate)) as C.
    rewrite V in C. change ((b ?= inf_bits 24 255) = Lt). rewrite <- C. apply Z.compare_lt_iff.
    change (mag_val 24 (inf_bits 24 255)) with (2 ^ 24 * 2 ^ 253). pose proof (pow2_le j 253 ltac:(lia) ltac:(lia)). nia. }
  unfold ref_bits, ref_overflow. fold b. rewrite (proj2 (Z.leb_gt _ _) Hlt). change (inf_bits 24 255) with (255 * 2 ^ 23) in *.
  unfold is_float, finite32, is_u, f32_sign, f32_mag. change (inf_bits 24 255) with (255 * 2 ^ 23).
  assert (E : (s * 2 ^ 31 + b) mod 2 ^ 31 = b) by (destruct Hs; dlia).
  rewrite E. split; [split; [destruct Hs|]; lia|]. split; [destruct Hs; dlia | exact V].
Qed.

Section Host.
Context `{HostFloat}.

Lemma float_of_int_exact x : Z.abs x < 2 ^ 24 -> is_float (float_of_int x) (b2z (x <? 0)) (Z.abs x * 2 ^ 149).
Proof. intros Hx. apply rounded_exact; try lia. unfold is_flag. destruct (x <? 0); cbn; lia. Qed.

Lemma exp2_exact n : -126 <= n <= 127 -> is_float (exp2 n) 0 (2 ^ (n + 149)).
Proof.
  intros Hn. unfold is_float, finite32, is_u, exp2, f32_sign. change (inf_bits 24 255) with (255 * 2 ^ 23).
  split; [split; [lia | dlia]|]. split; [dlia|]. unfold f32_mag, mag_val. change (24 - 1) with 23.
  replace ((n + 127) * 2 ^ 23 mod 2 ^ 31 / 2 ^ 23) with (n + 127) by dlia.
  replace ((n + 127) * 2 ^ 23 mod 2 ^ 31 mod 2 ^ 23) with 0 by dlia.
  rewrite (proj2 (Z.eqb_neq _ 0)) by lia. cbn [Z.add]. rewrite <- Z.pow_add_r by lia. f_equal. lia.
Qed.

Lemma same_finite x z s m : same_float x z -> is_float z s m -> is_float x s m.
Proof. intros [->|[_ E]] Hz; [exact Hz|]. destruct (finite_not_nan z (proj1 Hz)). congruence. Qed.

Lemma fmul_exact a b s m s' m' r j : is_float a s m -> is_float b s' m' -> 0 <= r < 2 ^ 24 -> 0 <= j <= 253 ->
  is_flag s -> is_flag s' -> m * m' = r * 2 ^ j * 2 ^ 149 -> is_float (fmul a b) (s ^^^ s') (r * 2 ^ j).
Proof.
  intros Ha Hb Hr Hj Hs Hs' E. destruct (fmul_law a b (proj1 (proj1 Ha)) (proj1 (proj1 Hb))) as [_ S].
  unfold either_nan in S. destruct Ha as (Fa & Sa & Ma), Hb as (Fb & Sb & Mb).
  destruct (finite_not_nan a Fa) as [Na Ia], (finite_not_nan b Fb) as [Nb Ib].
  rewrite Na, Nb in S. eapply same_finite; [exact S|]. unfold ref_mul32. rewrite Na, Ia, Nb, Ib, Sa, Sb, Ma, Mb. cbn [orb]. apply rounded_exact; try lia.
  clear -Hs Hs'. destruct Hs as [-> | ->], Hs' as [-> | ->]; cbn; unfold is_flag; lia.
Qed.

Lemma fdiv_exact a b s m m' r j : is_float a s m -> is_float b 0 m' -> 0 < m' -> 0 <= r < 2 ^ 24 -> 0 <= j <= 253 ->
  is_flag s -> m * 2 ^ 149 = r * 2 ^ j * m' -> is_float (fdiv a b) s (r * 2 ^ j).
Proof.
  intros Ha Hb Hm Hr Hj Hs E. destruct (fdiv_law a b (proj1 (proj1 Ha)) (proj1 (proj1 Hb))) as [_ S].
  unfold either_nan in S. destruct Ha as (Fa & Sa & Ma), Hb as (Fb & Sb & Mb).
  destruct (finite_not_nan a Fa) as [Na Ia], (finite_not_nan b Fb) as [Nb Ib].
  rewrite Na, Nb in S. eapply same_finite; [exact S|]. unfold ref_div32. rewrite Na, Ia, Nb, Ib, Sa, Sb, Ma, Mb. cbn [orb]. rewrite (proj2 (Z.eqb_neq m' 0)) by lia.
  rewrite Z.lxor_0_r. now apply rounded_exact.
Qed.
End Host.

(** ** A host *)

(** A host with one NaN. *)
Definition one_nan (nan : bool) (r : option (Z * fpstate)) : Z := if nan then float32_default_nan else bits_of r.

Lemma one_nan_result (nan : bool) r : (nan = false -> is_u 32 (bits_of r)) -> float_result nan (one_nan nan r) r.
Proof.
  intros Hr. destruct nan; (split; [|first [reflexivity | now left]]); cbn [one_nan]; [unfold is_u, float32_default_nan; lia | auto].
Qed.

Lemma invalid32_word st : is_u 32 (bits_of (invalid32 st)).
Proof. cbn. unfold is_u, float32_default_nan. lia. Qed.

Lemma f32_inf_word s st : is_flag s -> is_u 32 (bits_of (Some (f32_inf s, st))).
Proof. intros Hs. cbn [bits_of]. unfold is_u, f32_inf. destruct Hs; lia. Qed.

Lemma zero_word32 s st : is_flag s -> is_u 32 (bits_of (Some (s * 2 ^ 31, st))).
Proof. intros Hs. cbn [bits_of]. unfold is_u. destruct Hs; lia. Qed.

Lemma flag_b2z b : is_flag (b2z b).
Proof. destruct b; cbn; unfold is_flag; lia. Qed.

Create HintDb host.
#[export] Hint Resolve invalid32_word f32_inf_word zero_word32 rounded32_word xor_flag flag_b2z f32_sign_flag f32_mag_nonneg : host.

Lemma ref_sum32_word st a b sb : is_u 32 a -> is_u 32 b -> is_flag sb -> either_nan a b = false -> is_u 32 (bits_of (ref_sum32 st a b sb)).
Proof.
  intros Ha Hb Hs Hn. unfold ref_sum32, either_nan in *. rewrite Hn. destruct (f32_is_inf a), (f32_is_inf b); cbn [andb];
    try destruct (negb _); auto with host. unfold sum32. destruct (_ =? 0).
  - destruct (f32_sign a =? sb); [|unfold down_sign]; auto with host.
  - apply rounded32_word; auto with host; lia.
Qed.

Lemma ref_mul32_word st a b : is_u 32 a -> is_u 32 b -> either_nan a b = false -> is_u 32 (bits_of (ref_mul32 st a b)).
Proof.
  intros Ha Hb Hn. unfold ref_mul32, either_nan in *. rewrite Hn.
  destruct (f32_is_inf a); [destruct (_ && _); auto with host|]. destruct (f32_is_inf b); [destruct (_ =? 0); auto with host|].
  apply rounded32_word; auto with host; try lia. apply Z.mul_nonneg_nonneg; auto with host.
Qed.

Lemma ref_div32_word st a b : is_u 32 a -> is_u 32 b -> either_nan a b = false -> is_u 32 (bits_of (ref_div32 st a b)).
Proof.
  intros Ha Hb Hn. unfold ref_div32, either_nan in *. rewrite Hn.
  destruct (f32_is_inf a); [destruct (f32_is_inf b); auto with host|]. destruct (f32_is_inf b); [auto with host|].
  pose proof (f32_mag_nonneg a Ha). pose proof (f32_mag_nonneg b Hb).
  destruct (Z.eqb_spec (f32_mag b) 0); [destruct (_ =? 0); auto with host|]. apply rounded32_word; auto with host; lia.
Qed.

Lemma ref_sqrt32_word st a : is_u 32 a -> f32_is_nan a = false -> is_u 32 (bits_of (ref_sqrt32 st a)).
Proof.
  intros Ha Hn. unfold ref_sqrt32. rewrite Hn. destruct (f32_mag a =? 0); [exact Ha|]. destruct (f32_sign a =? 1); [auto with host|].
  destruct (f32_is_inf a); [exact Ha|]. apply rounded32_word; [left; reflexivity | apply root_num_nonneg | lia].
Qed.

#[export] Instance reference_host : HostFloat.
Proof.
  refine {| fadd a b := one_nan (either_nan a b) (ref_sum32 fp_init a b (f32_sign b));
    fsub a b := one_nan (either_nan a b) (ref_sum32 fp_init a b (1 - f32_sign b));
    fmul a b := one_nan (either_nan a b) (ref_mul32 fp_init a b);
    fdiv a b := one_nan (either_nan a b) (ref_div32 fp_init a b);
    sqrtf a := one_nan (f32_is_nan a) (ref_sqrt32 fp_init a);
    NAN := float32_default_nan |}.
  - intros a b Ha Hb. apply one_nan_result. apply ref_sum32_word; auto with host.
  - intros a b Ha Hb. apply one_nan_result. apply ref_sum32_word; auto with host. destruct (f32_sign_flag b Hb) as [-> | ->]; unfold is_flag; lia.
  - intros a b Ha Hb. apply one_nan_result. now apply ref_mul32_word.
  - intros a b Ha Hb. apply one_nan_result. now apply ref_div32_word.
  - intros a Ha. apply one_nan_result. now apply ref_sqrt32_word.
  - split; [unfold is_u, float32_default_nan; lia | reflexivity].
Defined.
