(* ===== verification/HalfFloat.v ===== *)
(** * Half-precision numbers of the simulator (HalfFloatWord.cc)

    A half is the 16-bit pattern [binaryRep_].  Conversion from float rounds to nearest, flushes what
    is below the normal range to zero, and makes a NaN of an infinity; [operator float], which the
    operations use, computes the value in host arithmetic, [convertToFloat] by bits.  Values are
    measured in units of the least positive number of the format: [mag_val 11] of a half and
    [f32_mag] of a float, whose unit is 2^125 times smaller. *)

From S2P Require Import Prelude.
From S2P Require Import CInt.
From S2P Require Import Cpp.
From S2P Require Import FPState.
From S2P Require Import Rounding.
From S2P Require Import SoftFloatPrim.
From S2P Require Import Float32.
From S2P Require Import Float32Round.
From S2P Require Import Float32Arith.
From S2P Require Import HostFloat.

(** ** Conversions *)

(** [value] is the pattern of the float, which the code reads as the int [u.i]. *)
Definition convertFloatToHalfWordRep (value : Z) : Z :=
  let i := s32 value in
  let binary16 := (u32 i &&& 0x80000000) >> 16 in
  let expon := (i &&& 0x7f800000) >> 23 in
  if expon =? 255 then uw 16 (binary16 ||| 0x7e00)
  else
    let expon := expon + (15 - 127) in
    if expon <=? 0 then uw 16 binary16
    else if 31 <=? expon then uw 16 (binary16 ||| 0x7c00)
    else
      let binary16 := binary16 ||| (expon << 10) in
      let binary16 := binary16 ||| ((i &&& 0x007FFFFF) >> 13) in
      let l := (i >> 13) &&& 1 in
      let g := (i >> 12) &&& 1 in
      let r := (i >> 11) &&& 1 in
      let s := if truthy (i &&& ((1 << 11) - 1)) then 1 else 0 in
      uw 16 (if truthy g && (truthy l || (truthy r || truthy s)) then binary16 + 1 else binary16).

(** The loop that normalises a denormal half; ten steps are enough. *)
Definition normalize (exp mant : Z) : option (Z * Z) :=
  while 11 (fun '(_, mant) => negb (truthy (mant &&& 0x400)))
    (fun '(exp, mant) => (u32 (exp - 1), u32 (mant << 1))) (exp, mant).

Definition convertToFloat (value : Z) : option Z :=
  let sign := u32 ((value &&& 0x8000) << 16) in
  let exp := (value &&& 0x7C00) >> 10 in
  let mant := value &&& 0x03FF in
  if exp =? 0x1F then Some (sign ||| 0x7F800000 ||| u32 (mant << 13))
  else if (exp =? 0) && negb (mant =? 0) then
    match normalize 127 mant with
    | None => None
    | Some (exp, mant) =>
      let mant := mant &&& 0x400 in
      Some (sign ||| u32 (exp << 23) ||| u32 (mant << 13))
    end
  else Some (sign ||| u32 (u32 (exp - 15 + 127) << 23) ||| u32 (mant << 13)).

Section HalfFloat.
Context `{HostFloat}.

Definition operator_float (binaryRep : Z) : Z :=
  if binaryRep =? 0xFC00 then 0x80000000 ||| INFINITY
  else if binaryRep =? 0x7C00 then INFINITY
  else
    let sgn := truthy ((binaryRep &&& 0x8000) >> 15) in
    let exp := (binaryRep &&& 0x7C00) >> 10 in
    let mant := binaryRep &&& 0x03FF in
    if (exp =? 0x1F) && negb (mant =? 0) then NAN
    else
      let value := float_of_int (if exp =? 0 then mant else mant ||| 0x0400) in
      let value := fdiv value (float_of_int 0x400) in
      let mul := exp2 (exp - 15) in
      let value := fmul value mul in
      if sgn then fmul value (float_of_int (-1)) else value.

(** ** Arithmetic *)

Definition operator_plus (left right : Z) : Z := convertFloatToHalfWordRep (fadd (operator_float left) (operator_float right)).
Definition operator_minus (left right : Z) : Z := convertFloatToHalfWordRep (fsub (operator_float left) (operator_float right)).
Definition operator_times (left right : Z) : Z := convertFloatToHalfWordRep (fmul (operator_float left) (operator_float right)).
Definition operator_over (left right : Z) : Z := convertFloatToHalfWordRep (fdiv (operator_float left) (operator_float right)).
End HalfFloat.

(** ** Fields of a half *)

Lemma half_fields h : is_u 16 h ->
  (h &&& 0x8000) >> 15 = h / 2 ^ 15 /\ (h &&& 0x7C00) >> 10 = h / 2 ^ 10 mod 2 ^ 5 /\ h &&& 0x03FF = h mod 2 ^ 10.
Proof.
  intros Hh. unfold is_u in Hh.
  assert (L : forall a n k, 0 <= n -> 0 <= k -> (a &&& ((2 ^ n - 1) << k)) >> k = a / 2 ^ k mod 2 ^ n).
  { intros a n k Hn Hk. rewrite Z.shiftr_land, Z.shiftr_shiftl_l, Z.sub_diag, Z.shiftl_0_r, Z.shiftr_div_pow2 by lia.
    now apply land_ones_mod. }
  split; [|split].
  - rewrite <- (Z.mod_small (h / 2 ^ 15) (2 ^ 1)) by dlia. exact (L h 1 15 ltac:(lia) ltac:(lia)).
  - exact (L h 5 10 ltac:(lia) ltac:(lia)).
  - exact (land_ones_mod h 10 ltac:(lia)).
Qed.

(** ** From float: rounding to nearest *)

(** The conversion in terms of the fields of the float. *)
Definition half_of_fields (s e m : Z) : Z :=
  if e =? 255 then s * 2 ^ 15 + 0x7e00
  else if e <=? 112 then s * 2 ^ 15
  else if 143 <=? e then s * 2 ^ 15 + 31 * 2 ^ 10
  else s * 2 ^ 15 + ((e - 113) * 2 ^ 10 + round_q float_round_nearest_even (truthy s) (m + 2 ^ 23) (2 ^ 13)).

Lemma rounding_bits m (s : bool) : 0 <= m < 2 ^ 23 ->
  truthy ((m >> 12) &&& 1) && (truthy ((m >> 13) &&& 1) || (truthy ((m >> 11) &&& 1) || truthy (if truthy (m &&& (2 ^ 11 - 1)) then 1 else 0)))
  = rounds_away float_round_nearest_even s ((m + 2 ^ 23) / 2 ^ 13) ((m + 2 ^ 23) mod 2 ^ 13) (2 ^ 13).
Proof.
  intros Hm. unfold rounds_away. cbn [Z.eqb float_round_nearest_even]. rewrite land_ones_mod, !land_1_odd, !Z.shiftr_div_pow2 by lia.
  replace ((m + 2 ^ 23) / 2 ^ 13) with (m / 2 ^ 13 + 2 * 2 ^ 9) by dlia. rewrite Z.odd_add_mul_2.
  replace ((m + 2 ^ 23) mod 2 ^ 13) with (m mod 2 ^ 13) by dlia. rewrite (Zmod_odd (m / 2 ^ 13)).
  replace (m mod 2 ^ 13) with (m / 2 ^ 12 mod 2 * 2 ^ 12 + m / 2 ^ 11 mod 2 * 2 ^ 11 + m mod 2 ^ 11) by dlia.
  pose proof (Z.mod_pos_bound (m / 2 ^ 12) 2 ltac:(lia)). pose proof (Z.mod_pos_bound (m / 2 ^ 11) 2 ltac:(lia)).
  pose proof (Z.mod_pos_bound m (2 ^ 11) ltac:(lia)).
  generalize dependent (m / 2 ^ 12 mod 2). generalize dependent (m / 2 ^ 11 mod 2). generalize dependent (m mod 2 ^ 11).
  intros low Hl r Hr g Hg. assert (Cg : g = 0 \/ g = 1) by lia. assert (Cr : r = 0 \/ r = 1) by lia. clear Hm.
  unfold truthy. destruct (Z.compare_spec (2 * (g * 2 ^ 12 + r * 2 ^ 11 + low)) (2 ^ 13)), (Z.eqb_spec low 0),
    Cg as [-> | ->], Cr as [-> | ->], (Z.odd (m / 2 ^ 13)); try reflexivity; lia.
Qed.

Lemma s32_bit x n : 0 <= n < 32 -> Z.testbit (s32 x) n = Z.testbit x n.
Proof.
  intros Hn. rewrite <- (Z.mod_pow2_bits_low (s32 x) 32 n), <- (Z.mod_pow2_bits_low x 32 n) by lia. f_equal.
  exact (uw_sw 32 x ltac:(lia)).
Qed.

Lemma land_s32 x M : is_u 32 M -> s32 x &&& M = x &&& M.
Proof.
  intros HM. apply Z.bits_inj'. intros n Hn. rewrite !Z.land_spec. destruct (Z.lt_ge_cases n 32) as [Hlt|Hge].
  - rewrite s32_bit by lia. reflexivity.
  - replace (Z.testbit M n) with false; [now rewrite !andb_false_r|]. symmetry. unfold is_u in HM.
    destruct (Z.eq_dec M 0) as [->|]; [apply Z.bits_0|]. apply Z.bits_above_log2; [lia|].
    assert (Z.log2 M < 32) by (apply Z.log2_lt_pow2; lia). lia.
Qed.

Lemma half_bit_eq x n : 0 <= n -> (x >> n) &&& 1 = if Z.testbit x n then 1 else 0.
Proof. intros Hn. now rewrite land_1_odd, Zmod_odd, <- Z.bit0_odd, Z.shiftr_spec, Z.add_0_l by lia. Qed.

(** What the conversion reads from the int [u.i]. *)
Lemma float_fields f : is_u 32 f -> let e := extractFloat32Exp f in let m := extractFloat32Frac f in
  (u32 (s32 f) &&& 0x80000000) >> 16 = f32_sign f * 2 ^ 15 /\ (s32 f &&& 0x7f800000) >> 23 = e /\
  (s32 f &&& 0x007FFFFF) >> 13 = m / 2 ^ 13 /\ s32 f &&& ((1 << 11) - 1) = m &&& (2 ^ 11 - 1) /\
  forall n, 0 <= n < 23 -> (s32 f >> n) &&& 1 = (m >> n) &&& 1.
Proof.
  intros Hf e m. unfold e, m. rewrite frac32_mod, exp32_mod. unfold is_u in Hf.
  rewrite !land_s32 by (unfold is_u; cbn; lia). split; [|split; [|split; [|split]]].
  - assert (E : u32 (s32 f) = f) by (unfold u32, s32; rewrite uw_sw, uw_small by (unfold is_u; lia); reflexivity). rewrite E.
    change 0x80000000 with (2 ^ 31). rewrite land_pow2 by lia.
    unfold f32_sign. pose proof (Z.testbit_spec' f 31 ltac:(lia)) as T.
    rewrite Z.mod_small in T by dlia. rewrite <- T. destruct (Z.testbit f 31); reflexivity.
  - rewrite Z.shiftr_land, Z.shiftr_div_pow2 by lia. exact (land_ones_mod _ 8 ltac:(lia)).
  - change 0x007FFFFF with (2 ^ 23 - 1). now rewrite land_ones_mod, Z.shiftr_div_pow2 by lia.
  - change ((1 << 11) - 1) with (2 ^ 11 - 1). rewrite !land_ones_mod by lia. dlia.
  - intros n Hn. now rewrite !half_bit_eq, s32_bit, Z.mod_pow2_bits_low by lia.
Qed.

Lemma convert_fields f : is_u 32 f ->
  convertFloatToHalfWordRep f = half_of_fields (f32_sign f) (extractFloat32Exp f) (extractFloat32Frac f).
Proof.
  intros Hf. destruct (float_fields f Hf) as (Es & Ee & Em & El & Eb). destruct (fields32 f Hf) as (_ & Hs & He & Hm).
  rewrite sign32_div in Hs. fold (f32_sign f) in Hs. unfold convertFloatToHalfWordRep. rewrite Es, Ee, Em, El, !Eb by lia.
  set (s := f32_sign f) in *. set (e := extractFloat32Exp f) in *. set (m := extractFloat32Frac f) in *. unfold half_of_fields.
  destruct (Z.eqb_spec e 255); [destruct Hs as [-> | ->]; reflexivity|].
  destruct (Z.leb_spec (e + (15 - 127)) 0), (Z.leb_spec e 112); try lia; [destruct Hs as [-> | ->]; reflexivity|].
  destruct (Z.leb_spec 31 (e + (15 - 127))), (Z.leb_spec 143 e); try lia; [destruct Hs as [-> | ->]; reflexivity|].
  rewrite (rounding_bits m (truthy s) Hm). unfold round_q. rewrite Z.shiftl_mul_pow2 by lia.
  replace ((m + 2 ^ 23) / 2 ^ 13) with (m / 2 ^ 13 + 2 ^ 10) by dlia.
  rewrite (lor_add (s * 2 ^ 15) ((e + (15 - 127)) * 2 ^ 10) 15), lor_add with (n := 10) by dlia.
  replace (s * 2 ^ 15 + (e + (15 - 127)) * 2 ^ 10 + m / 2 ^ 13) with (s * 2 ^ 15 + ((e - 113) * 2 ^ 10 + (m / 2 ^ 13 + 2 ^ 10))) by lia.
  destruct (rounds_away _ _ _ _ _); unfold uw; cbn [b2z]; rewrite Z.mod_small; destruct Hs as [-> | ->]; try lia; dlia.
Qed.

(** The half nearest to [N / D]: below the normal range it is a zero. *)
Definition nearest_half (s N D : Z) : Z :=
  s * 2 ^ 15 + if N <? 2 ^ 10 * D then 0 else ref_bits 11 31 float_round_nearest_even (truthy s) N D.

Lemma nearest_half_frac s N D N' D' : 0 < D -> 0 < D' -> N * D' = N' * D -> nearest_half s N D = nearest_half s N' D'.
Proof.
  intros HD HD' E. unfold nearest_half. rewrite (ref_bits_frac 11 31 _ _ N D N' D') by assumption.
  replace (N <? 2 ^ 10 * D) with (N' <? 2 ^ 10 * D'); [reflexivity|].
  apply eq_true_iff_eq. rewrite !Z.ltb_lt. split; intros; nia.
Qed.

Lemma float_to_half f : is_u 32 f ->
  convertFloatToHalfWordRep f =
  if extractFloat32Exp f =? 255 then f32_sign f * 2 ^ 15 + 0x7e00 else nearest_half (f32_sign f) (f32_mag f) (2 ^ 125).
Proof.
  intros Hf. rewrite convert_fields by assumption. destruct (fields32 f Hf) as (_ & Hs & He & Hm).
  rewrite f32_mag_fields by assumption. rewrite sign32_div in Hs. fold (f32_sign f) in Hs.
  set (s := f32_sign f) in *. set (e := extractFloat32Exp f) in *. set (m := extractFloat32Frac f) in *.
  unfold half_of_fields, nearest_half. destruct (Z.eqb_spec e 255); [reflexivity|].
  set (A := if e =? 0 then m else (m + 2 ^ 23) * 2 ^ (e - 1)).
  destruct (Z.leb_spec e 112) as [Hle|Hgt].
  - rewrite (proj2 (Z.ltb_lt A _)); [lia|]. unfold A. destruct (Z.eqb_spec e 0); [lia|].
    pose proof (pow2_le (e - 1) 111 ltac:(lia) ltac:(lia)). pose proof (pow2_pos (e - 1) ltac:(lia)). nia.
  - assert (EA : A = (m + 2 ^ 23) * 2 ^ (e - 1)) by (unfold A; now rewrite (proj2 (Z.eqb_neq e 0)) by lia).
    pose proof (pow2_pos (e - 1) ltac:(lia)). pose proof (pow2_le 112 (e - 1) ltac:(lia) ltac:(lia)).
    rewrite (proj2 (Z.ltb_ge A _)) by nia.
    destruct (normal_ref 11 13 float_round_nearest_even (truthy s) (e - 113) (m + 2 ^ 23) (m + 2 ^ 23) 1 A (2 ^ 125))
      as (R & _ & _); try lia; [apply sticky_refl | | ].
    { apply (scaled_intro _ _ _ _ _ 200); try lia. rewrite EA. change (11 - 1) with 10.
      replace (e - 113 - 13 + 200) with (e - 1 + 75) by lia. rewrite Z.pow_add_r by lia. ring. }
    unfold ref_bits, ref_overflow. rewrite R. change (inf_bits 11 31) with (31 * 2 ^ 10). change (11 - 1) with 10.
    pose proof (round_q_bounds float_round_nearest_even (truthy s) (m + 2 ^ 23) (2 ^ 13)) as B.
    assert (2 ^ 10 <= (m + 2 ^ 23) / 2 ^ 13 <= 2 ^ 11 - 1) by dlia.
    replace (saturates float_round_nearest_even (truthy s)) with false by now destruct (truthy s).
    cbn [b2z].
    destruct (Z.leb_spec 143 e), (Z.leb_spec (31 * 2 ^ 10) ((e - 113) * 2 ^ 10 + round_q float_round_nearest_even (truthy s) (m + 2 ^ 23) (2 ^ 13)));
      lia.
Qed.

(** ** To float *)

Definition half_sign (h : Z) : Z := h / 2 ^ 15.
Definition half_exp (h : Z) : Z := h / 2 ^ 10 mod 2 ^ 5.
Definition half_mag (h : Z) : Z := mag_val 11 (h mod 2 ^ 15).

Lemma half_sign_flag h : is_u 16 h -> is_flag (half_sign h).
Proof. unfold is_u, is_flag, half_sign. intros Hh. dlia. Qed.

Lemma half_mag_fields h : is_u 16 h ->
  half_mag h = if half_exp h =? 0 then h mod 2 ^ 10 else (h mod 2 ^ 10 + 2 ^ 10) * 2 ^ (half_exp h - 1).
Proof.
  unfold is_u. intros Hh. unfold half_mag, mag_val, half_exp. change (11 - 1) with 10.
  replace (h mod 2 ^ 15 / 2 ^ 10) with (h / 2 ^ 10 mod 2 ^ 5) by dlia.
  replace (h mod 2 ^ 15 mod 2 ^ 10) with (h mod 2 ^ 10) by dlia. reflexivity.
Qed.

Section ToFloat.
Context `{HostFloat}.

(** [operator float] gives a finite half its value, except that a denormal gets half of it. *)
Lemma half_to_float h : is_u 16 h -> half_exp h <> 31 ->
  is_float (operator_float h) (half_sign h) (half_mag h * 2 ^ (if half_exp h =? 0 then 124 else 125)).
Proof.
  intros Hh He. destruct (half_fields h Hh) as (E1 & E2 & E3). unfold operator_float. rewrite E1, E2, E3.
  fold (half_sign h) (half_exp h). pose proof (half_sign_flag h Hh) as Hs.
  assert (Re : 0 <= half_exp h < 31) by (unfold half_exp in *; pose proof (Z.mod_pos_bound (h / 2 ^ 10) (2 ^ 5) ltac:(lia)); lia).
  rewrite half_mag_fields by assumption.
  destruct (Z.eqb_spec h 0xFC00) as [->|_]; [now elim He|]. destruct (Z.eqb_spec h 0x7C00) as [->|_]; [now elim He|].
  rewrite (proj2 (Z.eqb_neq (half_exp h) 0x1F)) by lia. cbn [andb].
  set (e := half_exp h) in *. set (m := h mod 2 ^ 10) in *. assert (Hm : 0 <= m < 2 ^ 10) by (unfold m; dlia).
  set (r := if e =? 0 then m else m ||| 0x0400).
  assert (Er : r = if e =? 0 then m else m + 2 ^ 10).
  { unfold r. destruct (e =? 0); [reflexivity|]. rewrite Z.lor_comm. change 0x400 with (2 ^ 10). rewrite (lor_add _ _ 10) by (lia || reflexivity). lia. }
  assert (Hr : 0 <= r < 2 ^ 11) by (rewrite Er; destruct (e =? 0); lia).
  pose proof (float_of_int_exact r ltac:(lia)) as F1. rewrite (proj2 (Z.ltb_ge r 0)), (Z.abs_eq r) in F1 by lia.
  pose proof (float_of_int_exact 0x400 ltac:(lia)) as F2. cbn [Z.ltb Z.compare b2z Z.abs] in F1, F2.
  pose proof (fdiv_exact _ _ 0 _ _ r 139 F1 F2 ltac:(lia) ltac:(lia) ltac:(lia) ltac:(left; reflexivity) ltac:(ring)) as F3.
  pose proof (fmul_exact _ _ 0 _ 0 _ r (e + 124) F3 (exp2_exact (e - 15) ltac:(lia)) ltac:(lia) ltac:(lia)
    ltac:(left; reflexivity) ltac:(left; reflexivity)) as F4.
  change (0 ^^^ 0) with 0 in F4.
  assert (P : r * 2 ^ (e + 124) = (if e =? 0 then m else (m + 2 ^ 10) * 2 ^ (e - 1)) * 2 ^ (if e =? 0 then 124 else 125)).
  { rewrite Er. destruct (Z.eqb_spec e 0) as [->|]; [reflexivity|]. replace (e + 124) with (e - 1 + 125) by lia.
    rewrite Z.pow_add_r by lia. ring. }
  rewrite <- P. assert (F5 : is_float (fmul (fdiv (float_of_int r) (float_of_int 0x400)) (exp2 (e - 15))) 0 (r * 2 ^ (e + 124))).
  { apply F4. replace (e - 15 + 149) with (e + 134) by lia. rewrite !Z.pow_add_r by lia. ring. }
  destruct Hs as [Es|Es]; rewrite Es; cbn [truthy negb Z.eqb]; [exact F5|].
  apply (fmul_exact _ _ 0 _ 1 (2 ^ 149) r (e + 124) F5 (float_of_int_exact (-1) ltac:(lia))); try lia; unfold is_flag; lia.
Qed.

Lemma half_specials h : is_u 16 h -> half_exp h = 31 ->
  operator_float h = if h mod 2 ^ 10 =? 0 then f32_inf (half_sign h) else NAN.
Proof.
  intros Hh He. destruct (half_fields h Hh) as (E1 & E2 & E3). unfold operator_float. rewrite E1, E2, E3.
  fold (half_sign h) (half_exp h). rewrite He. cbn [Z.eqb Pos.eqb andb]. unfold is_u, half_sign, half_exp in *.
  destruct (Z.eqb_spec h 0xFC00) as [->|N1]; [reflexivity|]. destruct (Z.eqb_spec h 0x7C00) as [->|N2]; [reflexivity|].
  destruct (Z.eqb_spec (h mod 2 ^ 10) 0); [exfalso; dlia | reflexivity].
Qed.

(** ** There and back *)

Lemma finite_exp f : finite32 f -> (extractFloat32Exp f =? 255) = false.
Proof.
  intros Hf. destruct (finite_not_nan f Hf) as [N I]. unfold f32_is_nan, f32_is_inf in *.
  destruct (extractFloat32Exp f =? 255), (extractFloat32Frac f =? 0); cbn in *; congruence.
Qed.

Lemma nan_exp f : f32_is_nan f = true -> (extractFloat32Exp f =? 255) = true.
Proof. unfold f32_is_nan. now destruct (extractFloat32Exp f =? 255). Qed.

Lemma convert_finite f s m : is_float f s m -> convertFloatToHalfWordRep f = nearest_half s m (2 ^ 125).
Proof. intros (Hf & Hs & Hm). rewrite float_to_half, finite_exp, Hs, Hm by apply Hf. reflexivity. Qed.

Lemma half_round_trip h : is_u 16 h ->
  convertFloatToHalfWordRep (operator_float h) =
  if half_exp h =? 31 then (if h mod 2 ^ 10 =? 0 then half_sign h else f32_sign NAN) * 2 ^ 15 + 0x7e00
  else if half_exp h =? 0 then half_sign h * 2 ^ 15 else h.
Proof.
  intros Hh. destruct (Z.eqb_spec (half_exp h) 31) as [E|E].
  { rewrite half_specials by assumption. destruct (half_sign_flag h Hh) as [Es|Es]; rewrite ?Es;
      (destruct (Z.eqb_spec (h mod 2 ^ 10) 0); [reflexivity|]); destruct NAN_law as [Hn Hi];
      now rewrite float_to_half, (nan_exp NAN Hi). }
  rewrite (convert_finite _ _ _ (half_to_float h Hh E)). rewrite half_mag_fields by assumption.
  destruct (Z.eqb_spec (half_exp h) 0) as [E0|E0]; unfold nearest_half.
  { rewrite (proj2 (Z.ltb_lt _ _)); [lia|]. unfold is_u in Hh. dlia. }
  assert (Eh : half_mag h = (h mod 2 ^ 10 + 2 ^ 10) * 2 ^ (half_exp h - 1)) by (rewrite half_mag_fields, (proj2 (Z.eqb_neq _ _) E0) by assumption; reflexivity).
  unfold is_u in Hh. assert (R : 0 < half_exp h < 31) by (unfold half_exp in *; dlia).
  pose proof (pow2_le 0 (half_exp h - 1) ltac:(lia) ltac:(lia)). rewrite (proj2 (Z.ltb_ge _ _)) by (assert (0 <= h mod 2 ^ 10) by dlia; nia).
  rewrite <- Eh. rewrite (ref_bits_frac 11 31 _ _ _ _ (half_mag h) 1) by lia. unfold ref_bits, ref_overflow, half_mag.
  rewrite (proj1 (ref_exact 11 ltac:(lia) _ _ (h mod 2 ^ 15) ltac:(dlia))). change (inf_bits 11 31) with (31 * 2 ^ 10).
  unfold half_exp in *. rewrite (proj2 (Z.leb_gt _ _)) by dlia. unfold half_sign. dlia.
Qed.

(** ** Multiplication *)

(** A half that is neither special nor denormal. *)
Definition plain_half (h : Z) : Prop := is_u 16 h /\ half_exp h <> 31 /\ (half_exp h = 0 -> h mod 2 ^ 10 = 0).

Lemma plain_to_float h : plain_half h -> exists r j, 0 <= r < 2 ^ 11 /\ 0 <= j <= 29 /\ half_mag h = r * 2 ^ j /\
  is_float (operator_float h) (half_sign h) (half_mag h * 2 ^ 125).
Proof.
  intros (Hh & He & H0). pose proof (half_to_float h Hh He) as F. pose proof (half_mag_fields h Hh) as Em. unfold is_u in Hh.
  destruct (Z.eqb_spec (half_exp h) 0) as [E|E].
  - rewrite H0 in Em by assumption. rewrite Em in *. exists 0, 0. repeat split; try lia; apply F.
  - exists (h mod 2 ^ 10 + 2 ^ 10), (half_exp h - 1). unfold half_exp in *. repeat split; try dlia; try assumption; apply F.
Qed.

(** The product of two halfs is exact in single precision, so that it is rounded once. *)
Lemma half_product a b : plain_half a -> plain_half b ->
  operator_times a b = nearest_half (half_sign a ^^^ half_sign b) (half_mag a * half_mag b) (2 ^ 24).
Proof.
  intros Ha Hb. destruct (plain_to_float a Ha) as (r & j & Hr & Hj & Ea & Fa), (plain_to_float b Hb) as (r' & j' & Hr' & Hj' & Eb & Fb).
  pose proof (half_sign_flag a (proj1 Ha)) as Sa. pose proof (half_sign_flag b (proj1 Hb)) as Sb. unfold operator_times.
  erewrite convert_finite.
  2: { apply (fmul_exact _ _ _ _ _ _ (r * r') (j + j' + 101) Fa Fb); try lia; try assumption; [nia|].
       rewrite Ea, Eb, !Z.pow_add_r by lia. ring. }
  apply nearest_half_frac; try lia. rewrite Ea, Eb, !Z.pow_add_r by lia. ring.
Qed.
End ToFloat.

(** ** convertToFloat *)

Lemma normalize_denormal m : 0 < m < 2 ^ 10 -> exists exp mant, normalize 127 m = Some (exp, mant) /\
  116 <= exp <= 126 /\ mant &&& 0x400 = 0x400.
Proof.
  intros Hm. assert (A : forallb (fun m => match normalize 127 (Z.of_nat m) with
      | Some (exp, mant) => (116 <=? exp) && (exp <=? 126) && (mant &&& 0x400 =? 0x400) | None => false end) (seq 1 1023) = true)
    by (vm_compute; reflexivity).
  rewrite forallb_forall in A. specialize (A (Z.to_nat m) ltac:(apply in_seq; lia)). rewrite Z2Nat.id in A by lia.
  destruct (normalize 127 m) as [[exp mant]|]; [|discriminate]. exists exp, mant. split; [reflexivity|].
  rewrite !andb_true_iff, !Z.leb_le, Z.eqb_eq in A. tauto.
Qed.

Lemma pack_half s e m : is_flag s -> 0 <= e < 2 ^ 8 -> 0 <= m < 2 ^ 10 ->
  u32 ((s * 2 ^ 15) << 16) ||| u32 (e << 23) ||| u32 (m << 13) = s * 2 ^ 31 + (e * 2 ^ 23 + m * 2 ^ 13).
Proof.
  intros Hs He Hm. rewrite !Z.shiftl_mul_pow2, !u32_small by (destruct Hs; lia).
  rewrite (lor_add (s * 2 ^ 15 * 2 ^ 16) (e * 2 ^ 23) 31), (lor_add _ (m * 2 ^ 13) 23) by (destruct Hs; dlia). lia.
Qed.

Lemma half_sign_bit h : is_u 16 h -> h &&& 0x8000 = half_sign h * 2 ^ 15.
Proof.
  intros Hh. unfold is_u in Hh. change 0x8000 with (2 ^ 15). rewrite land_pow2 by lia. unfold half_sign.
  pose proof (Z.testbit_spec' h 15 ltac:(lia)) as T. rewrite Z.mod_small in T by dlia. rewrite <- T. now destruct (Z.testbit h 15).
Qed.

Lemma convert_to_float h : is_u 16 h ->
  if half_exp h =? 31 then convertToFloat h = Some (half_sign h * 2 ^ 31 + (255 * 2 ^ 23 + h mod 2 ^ 10 * 2 ^ 13))
  else if half_exp h =? 0 then
    exists z m, convertToFloat h = Some z /\ is_float z (half_sign h) m /\
      if h mod 2 ^ 10 =? 0 then m = 2 ^ 134 else 2 ^ 139 <= m
  else exists z, convertToFloat h = Some z /\ is_float z (half_sign h) (half_mag h * 2 ^ 125).
Proof.
  intros Hh. destruct (half_fields h Hh) as (_ & E2 & E3). unfold convertToFloat. rewrite E2, E3, half_sign_bit by assumption.
  fold (half_exp h). pose proof (half_sign_flag h Hh) as Hs. pose proof (half_mag_fields h Hh) as Em.
  assert (Re : 0 <= half_exp h < 32) by (unfold half_exp; pose proof (Z.mod_pos_bound (h / 2 ^ 10) (2 ^ 5) ltac:(lia)); lia).
  set (s := half_sign h) in *. set (e := half_exp h) in *. set (m := h mod 2 ^ 10) in *.
  assert (Hm : 0 <= m < 2 ^ 10) by (unfold m; dlia).
  assert (F : forall x y, 0 < x < 255 -> 0 <= y < 2 ^ 10 ->
    is_float (s * 2 ^ 31 + (x * 2 ^ 23 + y * 2 ^ 13)) s ((y + 2 ^ 10) * 2 ^ 13 * 2 ^ (x - 1))).
  { intros x y Hx Hy. unfold is_float, finite32, is_u, f32_sign, f32_mag, mag_val. change (inf_bits 24 255) with (255 * 2 ^ 23). change (24 - 1) with 23.
    assert (B : (s * 2 ^ 31 + (x * 2 ^ 23 + y * 2 ^ 13)) mod 2 ^ 31 = x * 2 ^ 23 + y * 2 ^ 13) by (destruct Hs; dlia). rewrite B.
    replace ((x * 2 ^ 23 + y * 2 ^ 13) / 2 ^ 23) with x by dlia. replace ((x * 2 ^ 23 + y * 2 ^ 13) mod 2 ^ 23) with (y * 2 ^ 13) by dlia.
    rewrite (proj2 (Z.eqb_neq x 0)) by lia. destruct Hs; repeat split; try lia; dlia. }
  destruct (Z.eqb_spec e 31).
  { change 0x7F800000 with (u32 (255 << 23)). now rewrite pack_half by (assumption || lia). }
  destruct (Z.eqb_spec e 0) as [E0|E0]; cbn [andb]; [destruct (Z.eqb_spec m 0) as [M0|M0]; cbn [negb]|].
  - exists (s * 2 ^ 31 + (112 * 2 ^ 23 + 0 * 2 ^ 13)), (2 ^ 134). rewrite E0, M0. change (u32 (0 - 15 + 127)) with 112.
    rewrite pack_half by (assumption || lia). split; [reflexivity|]. split; [apply (F 112 0); lia | reflexivity].
  - destruct (normalize_denormal m ltac:(lia)) as (exp & mant & En & He & E4). rewrite En, E4.
    assert (E1 : exp ||| 1 = 2 * (exp / 2) + 1) by apply lor_1.
    exists (s * 2 ^ 31 + ((exp ||| 1) * 2 ^ 23 + 0 * 2 ^ 13)), (2 ^ 23 * 2 ^ ((exp ||| 1) - 1)).
    split; [|split; [apply (F (exp ||| 1) 0); dlia|]].
    + f_equal. rewrite <- pack_half by (assumption || lia || dlia). change (u32 (0 << 13)) with 0. rewrite Z.lor_0_r, <- Z.lor_assoc. f_equal.
      rewrite !u32_small by (rewrite Z.shiftl_mul_pow2 by lia; dlia). change (u32 (0x400 << 13)) with (1 << 23). now rewrite Z.shiftl_lor.
    + pose proof (pow2_le 116 ((exp ||| 1) - 1)). rewrite <- Z.pow_add_r by dlia. apply Z.pow_le_mono_r; dlia.
  - exists (s * 2 ^ 31 + ((e + 112) * 2 ^ 23 + m * 2 ^ 13)). rewrite (u32_small (e - 15 + 127)) by lia.
    replace (e - 15 + 127) with (e + 112) by lia. rewrite pack_half by (assumption || lia). split; [reflexivity|].
    rewrite Em. replace ((m + 2 ^ 10) * 2 ^ (e - 1) * 2 ^ 125) with ((m + 2 ^ 10) * 2 ^ 13 * 2 ^ (e + 112 - 1)); [apply F; lia|].
    replace (e + 112 - 1) with (e - 1 + 112) by lia. rewrite (Z.pow_add_r 2 (e - 1) 112) by lia. ring.
Qed.

(** ** The class as a whole *)

(** C20: Half-precision conversions.  A float becomes the half nearest to it, ties to even, with
    infinity beyond the range and a zero of the same sign below the normal range; NaNs and
    infinities both become a NaN.  A normal half, or a zero, has its value as a float again and comes
    back unchanged; a denormal is read as half its value and comes back as zero, an infinity comes
    back as a NaN.  convertToFloat ends after at most ten steps and agrees on normal halfs and
    infinities, but makes 2^-15 of zero and at least 2^-10 of every denormal, all of which are below
    2^-14. *)
Theorem half_conversions_correct `{HostFloat} :
  (forall f, is_u 32 f -> convertFloatToHalfWordRep f =
     if extractFloat32Exp f =? 255 then f32_sign f * 2 ^ 15 + 0x7e00 else nearest_half (f32_sign f) (f32_mag f) (2 ^ 125)) /\
  (forall h, is_u 16 h -> half_exp h <> 31 ->
     is_float (operator_float h) (half_sign h) (half_mag h * 2 ^ (if half_exp h =? 0 then 124 else 125))) /\
  (forall h, is_u 16 h -> half_exp h = 31 -> operator_float h = if h mod 2 ^ 10 =? 0 then f32_inf (half_sign h) else NAN) /\
  (forall h, is_u 16 h -> convertFloatToHalfWordRep (operator_float h) =
     if half_exp h =? 31 then (if h mod 2 ^ 10 =? 0 then half_sign h else f32_sign NAN) * 2 ^ 15 + 0x7e00
     else if half_exp h =? 0 then half_sign h * 2 ^ 15 else h) /\
  (forall h, is_u 16 h ->
     if half_exp h =? 31 then convertToFloat h = Some (half_sign h * 2 ^ 31 + (255 * 2 ^ 23 + h mod 2 ^ 10 * 2 ^ 13))
     else if half_exp h =? 0 then
       exists z m, convertToFloat h = Some z /\ is_float z (half_sign h) m /\
         if h mod 2 ^ 10 =? 0 then m = 2 ^ 134 else 2 ^ 139 <= m
     else exists z, convertToFloat h = Some z /\ is_float z (half_sign h) (half_mag h * 2 ^ 125)).
Proof.
  split; [exact float_to_half|]. split; [exact half_to_float|]. split; [exact half_specials|].
  split; [exact half_round_trip | exact convert_to_float].
Qed.

(** 1.0 + 2^-11 is a tie and rounds to even; the least denormal is read as 2^-25 and comes back as
    zero; zero becomes 2^-15 in convertToFloat. *)
Lemma half_conversions_witness :
  convertFloatToHalfWordRep 0x3F801000 = 0x3C00 /\
  @operator_float reference_host 1 = 0x33000000 /\ convertFloatToHalfWordRep (@operator_float reference_host 1) = 0 /\
  exists z, convertToFloat 0 = Some z /\ f32_mag z = 2 ^ 134.
Proof.
  destruct (@half_conversions_correct reference_host) as (C1 & C2 & _ & C4 & C5).
  split; [rewrite (C1 0x3F801000) by (unfold is_u; lia); vm_compute; reflexivity|]. split; [|split].
  - destruct (C2 1) as (F & S & M); [unfold is_u; lia | discriminate|].
    apply (is_float_unique _ 0x33000000 0 (2 ^ 124)); [split; [exact F | split; [exact S | exact M]]|].
    repeat split; try (unfold is_u; lia); reflexivity.
  - rewrite (C4 1) by (unfold is_u; lia). reflexivity.
  - specialize (C5 0 ltac:(unfold is_u; lia)). cbn in C5. destruct C5 as (z & m & E & (_ & _ & M) & ->). now exists z.
Defined.

(** C21: Half-precision products.  Multiplying two halfs, neither special nor denormal, through
    single precision gives the half nearest to the exact product: the product of the two
    significands fits in a float, so that rounding twice does no harm. *)
Theorem half_products_correct `{HostFloat} a b : plain_half a -> plain_half b ->
  operator_times a b = nearest_half (half_sign a ^^^ half_sign b) (half_mag a * half_mag b) (2 ^ 24).
Proof. exact (half_product a b). Qed.

(** 1.5 * 1.5 = 2.25; the product of the least normal numbers is flushed to zero. *)
Lemma half_products_witness :
  @operator_times reference_host 0x3E00 0x3E00 = 0x4080 /\ @operator_times reference_host 0x8400 0x0400 = 0x8000.
Proof.
  assert (P : forall h, 0x0400 <= h < 0x7C00 \/ 0x8400 <= h < 0xFC00 -> plain_half h).
  { intros h Hh. unfold plain_half, is_u, half_exp. repeat split; try lia; try dlia. }
  split; rewrite half_products_correct by (apply P; lia); vm_compute; reflexivity.
Defined.
