(* ===== verification/Float32Rem.v ===== *)
(** * The single-precision remainder is the IEEE remainder

    The quotient of the significands is developed thirty bits at a time; only the remainder and
    the parity of the quotient are kept. *)

From S2P Require Import Prelude.
From S2P Require Import CInt.
From S2P Require Import FPState.
From S2P Require Import Rounding.
From S2P Require Import SoftFloatPrim.
From S2P Require Import Float32.
From S2P Require Import Float32Round.
From S2P Require Import Float32Arith.
From S2P Require Import Float32MulDiv.
From S2P Require Import Float32Conv.

(** ** Specification *)

(** [a - b n] in units of the least positive number, [n] the integer nearest to [a / b], ties to
    even; the operands are taken without their signs. *)
Definition rem_mag (ma mb : Z) : Z := ma - mb * round_q float_round_nearest_even false ma mb.

(** The remainder is exact: it raises nothing and keeps the sign of [a] when it is zero. *)
Definition is_rem32 (a b z : Z) : Prop :=
  let r := rem_mag (f32_mag a) (f32_mag b) in
  is_u 32 z /\ f32_sign z = f32_sign a ^^^ b2z (r <? 0) /\ f32_mag z = Z.abs r.

(** ** Quotient digits *)

(** The estimate less two, and not below zero, is at most two too small. *)
Definition low_estimate (e : Z) : Z := if 2 <? e then u32 (e - 2) else 0.

Lemma low_estimate_spec fuel A B : (2 < fuel)%nat -> 2 ^ 31 <= B < 2 ^ 32 -> 0 <= A < B ->
  exists e, estimateDiv64To32 fuel A 0 B = Some e /\
    let q := low_estimate e in 0 <= q < 2 ^ 32 /\ q * B <= A * 2 ^ 32 < (q + 3) * B.
Proof.
  intros Hf HB HA. destruct (estimateDiv64To32_bounds fuel A 0 B Hf HB HA (zero_word 32 ltac:(lia)))
    as (e & -> & He & He32).
  rewrite Z.add_0_r in He. pose proof (div_bounds (A * 2 ^ 32) B ltac:(lia)) as Hq.
  assert (0 <= A * 2 ^ 32 / B) by (apply Z.div_pos; lia). set (Q := A * 2 ^ 32 / B) in *. clearbody Q.
  exists e. split; [reflexivity|]. unfold low_estimate.
  destruct (Z.ltb_spec 2 e); [rewrite u32_small by lia|]; cbv zeta; (split; [lia|]; nia).
Qed.

(** One round of the first loop: the remainder of thirty more quotient bits, an even number of
    which contribute to the quotient. *)
Lemma float32_rem_round fuel A B q E : (2 < fuel)%nat -> 2 ^ 31 <= B < 2 ^ 32 -> B mod 16 = 0 ->
  0 <= A < B -> A mod 4 = 0 -> 0 < E < 2 ^ 14 ->
  exists q' A' c, float32_rem_body fuel B (q, A, E) = Some (q', A', E - 30) /\
    0 <= A' < B /\ A' mod 4 = 0 /\ A * 2 ^ (E + 32) = A' * 2 ^ (E + 2) + 2 * (B * c).
Proof.
  intros Hf HB HB16 HA HA4 HE. destruct (low_estimate_spec fuel A B Hf HB HA) as (e & Ee & Hq & Hb).
  unfold float32_rem_body. rewrite Ee. fold (low_estimate e). set (n := low_estimate e) in *. clearbody n.
  rewrite s16_small by lia. exists n, (A * 2 ^ 30 - B / 4 * n), (n * 2 ^ (E - 1)).
  assert (EB : B = 4 * (B / 4)) by dlia. set (b := B / 4) in *. assert (Hb4 : b mod 4 = 0) by (unfold b; dlia).
  assert (HR : 0 <= A * 2 ^ 30 - b * n < B) by nia.
  split; [|split; [lia|split]].
  - do 3 f_equal. rewrite shr_div by lia. change (2 ^ 2) with 4. fold b.
    assert (EA : A * 2 ^ 30 = A / 4 * 2 ^ 32) by dlia.
    rewrite !u32_mod. symmetry. apply (Z.mod_unique _ _ (- (A / 4) + b * n / 2 ^ 32)); [lia|].
    rewrite Z.mod_eq by lia. lia.
  - replace (b * n) with (4 * (b / 4 * n)) by (pose proof (Z.div_mod b 4); lia).
    replace (A * 2 ^ 30 - 4 * (b / 4 * n)) with ((A * 2 ^ 28 - b / 4 * n) * 4) by lia. apply Z.mod_mul. lia.
  - replace (E + 32) with (E + 2 + 30) by lia. rewrite (Z.pow_add_r 2 (E + 2)) by lia.
    replace (E + 2) with (3 + (E - 1)) by lia. rewrite (Z.pow_add_r 2 3) by lia.
    replace B with (4 * b) at 1 by lia. ring.
Qed.

Lemma float32_rem_rounds fuel A B q E : (10 < fuel)%nat -> 2 ^ 31 <= B < 2 ^ 32 -> B mod 16 = 0 ->
  0 <= A < B -> A mod 4 = 0 -> -33 <= E <= 300 ->
  exists q' A' E', while_opt fuel (fun s => 0 <? snd s) (float32_rem_body fuel B) (q, A, E) = Some (q', A', E') /\
    -33 <= E' <= 0 /\ 0 <= A' < B /\ A' mod 4 = 0 /\
    (if 0 <? E then -32 < E' /\ exists c, A * 2 ^ (E + 32) = A' * 2 ^ (E' + 32) + 2 * (B * c)
     else (q', A', E') = (q, A, E)).
Proof.
  intros Hf HB HB16 HA HA4 HE. destruct (Z.ltb_spec 0 E) as [HE0|HE0].
  2: { exists q, A, E. destruct fuel as [|fuel]; [lia|]. cbn [while_opt snd].
       rewrite (proj2 (Z.ltb_ge 0 E)) by lia. repeat split; lia. }
  pose (I := fun (n : nat) (s : Z * Z * Z) => exists q' A' E' c, s = (q', A', E') /\
    -30 < E' /\ E' <= 30 * Z.of_nat n /\ E' <= E /\ 0 <= A' < B /\ A' mod 4 = 0 /\
    A * 2 ^ (E + 32) = A' * 2 ^ (E' + 32) + 2 * (B * c)).
  destruct (while_opt_rule (fun s => 0 <? snd s) (float32_rem_body fuel B) I)
    with (n := 10%nat) (fuel := fuel) (s := (q, A, E)) as (s & n & Hr & Hc & (q' & A' & E' & c & -> & H1 & H2 & H3 & H4 & H5 & H6)).
  - intros n s (q' & A' & E' & c & -> & H1 & H2 & H3 & H4 & H5 & H6) Hc. cbn [snd] in Hc. apply Z.ltb_lt in Hc.
    destruct (float32_rem_round fuel A' B q' E') as (q2 & A2 & c2 & Es & G1 & G2 & G3); try assumption; try lia.
    exists (q2, A2, E' - 30), (n - 1)%nat. split; [exact Es|]. split; [lia|].
    exists q2, A2, (E' - 30), (c + c2). repeat split; try assumption; try lia.
    rewrite H6, G3. replace (E' - 30 + 32) with (E' + 2) by lia. ring.
  - exists q, A, E, 0. repeat split; try assumption; lia.
  - lia.
  - cbn [snd] in Hc. apply Z.ltb_ge in Hc. exists q', A', E'. repeat split; try assumption; try lia. now exists c.
Qed.

(** The last bits of the quotient. *)
Lemma float32_rem_last fuel A B q D : (2 < fuel)%nat -> 2 ^ 31 <= B < 2 ^ 32 -> B mod 16 = 0 ->
  0 <= A < B -> A mod 4 = 0 -> -1 <= D <= 32 ->
  exists q' x,
    (if 0 <? D then
       match estimateDiv64To32 fuel A 0 B with
       | None => None
       | Some q =>
         let q := if 2 <? q then u32 (q - 2) else 0 in
         let q := q >> (32 - D) in
         let bSig := B >> 2 in
         Some (q, u32 (u32 ((A >> 1) << (D - 1)) - u32 (bSig * q)), bSig)
       end
     else Some (q, A >> 2, B >> 2)) = Some (q', x, B / 4) /\ 0 <= x < 3 * (B / 4) /\
    if 0 <? D then A * 2 ^ D = 4 * x + B * q' else q' = q /\ 4 * x = A.
Proof.
  intros Hf HB HB16 HA HA4 HD. rewrite !shr_div by lia. change (2 ^ 2) with 4. change (2 ^ 1) with 2.
  destruct (Z.ltb_spec 0 D) as [H0|H0].
  2: { exists q, (A / 4). split; [reflexivity|]. split; [dlia|]. split; [reflexivity|dlia]. }
  destruct (low_estimate_spec fuel A B Hf HB HA) as (e & -> & Hq & Hb). fold (low_estimate e).
  set (n := low_estimate e) in *. clearbody n. cbv zeta. rewrite (shr_div n) by lia.
  pose proof (pow2_pos (32 - D) ltac:(lia)) as Pc. pose proof (div_bounds n (2 ^ (32 - D)) Pc) as Hn.
  set (q' := n / 2 ^ (32 - D)) in *. assert (Hq' : 0 <= q') by (apply Z.div_pos; lia). clearbody q'.
  pose proof (pow2_pos D ltac:(lia)) as PD.
  assert (E32 : 2 ^ 32 = 2 ^ D * 2 ^ (32 - D)) by (rewrite <- Z.pow_add_r by lia; f_equal; lia).
  assert (Hr : 0 <= A * 2 ^ D - B * q' < 3 * B).
  { rewrite E32 in Hb. split.
    - assert (q' * 2 ^ (32 - D) * B <= A * (2 ^ D * 2 ^ (32 - D))) by nia. nia.
    - assert (A * (2 ^ D * 2 ^ (32 - D)) < (q' + 3) * 2 ^ (32 - D) * B) by nia. nia. }
  set (b := B / 4) in *. assert (EB : B = 4 * b) by (unfold b; dlia).
  assert (EA : A / 2 * 2 ^ (D - 1) = A / 4 * 2 ^ D).
  { replace (A / 2) with (2 * (A / 4)) by dlia. replace D with (1 + (D - 1)) at 2 by lia.
    rewrite Z.pow_add_r by lia. lia. }
  assert (EA4 : A * 2 ^ D = 4 * (A / 4 * 2 ^ D)) by (replace A with (4 * (A / 4)) at 1 by dlia; lia).
  exists q', (A / 4 * 2 ^ D - b * q'). split; [|split; lia]. do 3 f_equal.
  rewrite Z.shiftl_mul_pow2, EA, !u32_mod, <- Zminus_mod by lia. apply Z.mod_small. lia.
Qed.

(** ** The final subtractions *)

Lemma s32_of_u32 y : - 2 ^ 31 <= y < 2 ^ 31 -> s32 (u32 y) = y.
Proof. intros Hy. unfold s32, u32. rewrite sw_uw by lia. apply sw_small; [lia | unfold is_s; lia]. Qed.

(** At most three subtractions leave the remainder and the value below zero after it. *)
Lemma float32_rem_subs fuel b q x : (2 < fuel)%nat -> 2 ^ 29 <= b < 2 ^ 30 -> 0 <= x < 3 * b ->
  exists k r, 0 <= k /\ x = k * b + r /\ 0 <= r < b /\
    do_while fuel (float32_rem_sub b) (fun s => 0 <=? s32 (snd (fst s))) (q, x, 0)
    = Some (u32 (q + k + 1), u32 (r - b), r).
Proof.
  intros Hf Hb Hx. destruct fuel as [|[|[|fuel]]]; try lia. unfold do_while.
  assert (St : forall q y z, float32_rem_sub b (q, y, z) = (u32 (q + 1), u32 (y - b), y)) by reflexivity.
  rewrite St. cbn [while snd fst]. rewrite s32_of_u32 by lia.
  destruct (Z.leb_spec 0 (x - b)).
  2: { exists 0, x. repeat split; try lia. rewrite Z.add_0_r. reflexivity. }
  rewrite St. cbn [snd fst]. rewrite (u32_small (x - b)), s32_of_u32 by lia.
  destruct (Z.leb_spec 0 (x - b - b)).
  2: { exists 1, (x - b). repeat split; try lia. now rewrite u32_add_l. }
  rewrite St. cbn [snd fst]. rewrite (u32_small (x - b - b)), s32_of_u32 by lia.
  rewrite (proj2 (Z.leb_gt 0 (x - b - b - b))) by lia.
  exists 2, (x - b - b). repeat split; try lia. rewrite !u32_add_l, u32_add_l2. now replace (q + 1 + 1 + 1) with (q + 2 + 1) by lia.
Qed.

(** The remainder of the nearest quotient from that of the floor. *)
Definition nearest_rem (m r b : Z) : Z := if (2 * r <? b) || ((2 * r =? b) && Z.even m) then r else r - b.

Lemma nearest_rem_spec c m r b : 0 < c -> 0 <= r < b ->
  rem_mag (c * r + c * b * m) (c * b) = c * nearest_rem m r b /\ Z.abs (nearest_rem m r b) <= b / 2.
Proof.
  intros Hc Hr. unfold rem_mag, round_q, rounds_away. rewrite Z.eqb_refl.
  assert (Ed : (c * r + c * b * m) / (c * b) = m) by (apply div_eq; nia).
  rewrite Z.mod_eq, Ed by nia. replace (c * r + c * b * m - c * b * m) with (c * r) by lia.
  replace (2 * (c * r)) with (c * (2 * r)) by ring. rewrite compare_scale by lia.
  unfold nearest_rem. rewrite <- Z.negb_odd.
  destruct (Z.compare_spec (2 * r) b), (Z.ltb_spec (2 * r) b), (Z.eqb_spec (2 * r) b); try lia;
    cbn [orb andb b2z]; try (destruct (Z.odd m); cbn [negb b2z]); (split; [ring|dlia]).
Qed.

Lemma float32_rem_choice q k r b m : 2 ^ 29 <= b < 2 ^ 30 -> 0 <= r < b -> (q + k) mod 2 = m mod 2 ->
  let aSig := u32 (r - b) in
  let sigMean := s32 (u32 (aSig + r)) in
  s32 (if (sigMean <? 0) || ((sigMean =? 0) && truthy (u32 (q + k + 1) &&& 1)) then r else aSig)
  = nearest_rem m r b /\
  is_u 32 (if (sigMean <? 0) || ((sigMean =? 0) && truthy (u32 (q + k + 1) &&& 1)) then r else aSig).
Proof.
  intros Hb Hr Hp. cbv zeta. rewrite u32_add_l, s32_of_u32 by lia. rewrite land_1_odd.
  assert (Et : truthy (u32 (q + k + 1) mod 2) = Z.even m).
  { unfold truthy. rewrite Zeven_mod, <- Hp, u32_mod.
    destruct (Z.eqb_spec (((q + k + 1) mod 2 ^ 32) mod 2) 0), (Z.eqb_spec ((q + k) mod 2) 0); try reflexivity;
      exfalso; dlia. }
  rewrite Et. unfold nearest_rem.
  replace (r - b + r <? 0) with (2 * r <? b) by (repeat ztest; (reflexivity || lia)).
  replace (r - b + r =? 0) with (2 * r =? b) by (repeat ztest; (reflexivity || lia)).
  destruct (_ || _).
  - split; [unfold s32; apply sw_small; [lia | unfold is_s; lia] | unfold is_u; lia].
  - split; [apply s32_of_u32; lia | apply u32_word].
Qed.

(** ** The whole quotient *)

(** The statements of [float32_rem] from the first comparison to the final subtractions. *)
Definition rem_quotient (fuel : nat) (aSig bSig expDiff : Z) : option (Z * Z * Z) :=
  let q := b2z (bSig <=? aSig) in
  let aSig := if truthy q then u32 (aSig - bSig) else aSig in
  let expDiff := s16 (expDiff - 32) in
  match while_opt fuel (fun s => 0 <? snd s) (float32_rem_body fuel bSig) (q, aSig, expDiff) with
  | None => None
  | Some (q, aSig, expDiff) =>
    let expDiff := s16 (expDiff + 32) in
    if 0 <? expDiff then
      match estimateDiv64To32 fuel aSig 0 bSig with
      | None => None
      | Some q =>
        let q := if 2 <? q then u32 (q - 2) else 0 in
        let q := q >> (32 - expDiff) in
        let bSig := bSig >> 2 in
        Some (q, u32 (u32 ((aSig >> 1) << (expDiff - 1)) - u32 (bSig * q)), bSig)
      end
    else Some (q, aSig >> 2, bSig >> 2)
  end.

(** It reduces the dividend by a multiple of the divisor of known parity. *)
Lemma rem_quotient_spec fuel A B D : (10 < fuel)%nat -> 2 ^ 31 <= B < 2 ^ 32 -> B mod 16 = 0 ->
  0 <= A < 2 ^ 32 -> A mod 4 = 0 -> -1 <= D <= 300 ->
  exists q x m, rem_quotient fuel A B D = Some (q, x, B / 4) /\ 0 <= x < 3 * (B / 4) /\
    A * 2 ^ Z.max 0 D = 4 * x + B * m /\ q mod 2 = m mod 2.
Proof.
  intros Hf HB HB16 HA HA4 HD. unfold rem_quotient. rewrite s16_small by lia.
  assert (exists q0 A1, b2z (B <=? A) = q0 /\ (if truthy q0 then u32 (A - B) else A) = A1 /\
    A = A1 + q0 * B /\ 0 <= A1 < B /\ A1 mod 4 = 0) as (q0 & A1 & -> & -> & EA & HA1 & HA14).
  { destruct (Z.leb_spec B A).
    - exists 1, (A - B). change (truthy 1) with true. rewrite u32_small by lia. repeat split; dlia.
    - exists 0, A. change (truthy 0) with false. repeat split; lia. }
  destruct (float32_rem_rounds fuel A1 B q0 (D - 32)) as (q1 & A2 & E & -> & HE & HA2 & HA24 & Hrel); try assumption; try lia.
  rewrite s16_small by lia.
  assert (HE' : -1 <= E + 32 <= 32).
  { destruct (Z.ltb_spec 0 (D - 32)); [lia|]. injection Hrel as -> -> ->. lia. }
  pose proof (float32_rem_last fuel A2 B q1 (E + 32)) as L. cbv zeta in L.
  destruct L as (q2 & x & -> & Hx & Hl); try assumption; try lia.
  exists q2, x. replace (D - 32 + 32) with D in Hrel by lia.
  destruct (Z.ltb_spec 0 (D - 32)) as [HD32|HD32].
  - destruct Hrel as (HE2 & c & Hc). rewrite (proj2 (Z.ltb_lt 0 (E + 32))) in Hl by lia.
    exists (q2 + 2 * (c + q0 * 2 ^ (D - 1))). split; [reflexivity|]. split; [assumption|].
    rewrite Z.max_r by lia. split.
    + rewrite EA, Z.mul_add_distr_r, Hc, Hl. replace D with (1 + (D - 1)) at 1 by lia.
      rewrite Z.pow_add_r by lia. ring.
    + now rewrite (Z.mul_comm 2), Z.mod_add.
  - injection Hrel as -> -> ->. replace (D - 32 + 32) with D in * by lia.
    destruct (Z.ltb_spec 0 D) as [HD0|HD0].
    + exists (q2 + q0 * 2 ^ (D - 1) * 2). split; [reflexivity|]. split; [assumption|].
      rewrite Z.max_r by lia. split; [|now rewrite Z.mod_add].
      rewrite EA, Z.mul_add_distr_r, Hl. replace D with (1 + (D - 1)) at 1 by lia.
      rewrite Z.pow_add_r by lia. ring.
    + destruct Hl as [-> Hl]. exists q0. split; [reflexivity|]. split; [assumption|].
      rewrite Z.max_l by lia. change (2 ^ 0) with 1. split; [lia|reflexivity].
Qed.

Lemma float32_rem_tail_eq st fuel s ea A eb B D : (10 < fuel)%nat -> 2 ^ 31 <= B < 2 ^ 32 -> B mod 16 = 0 ->
  0 <= A < 2 ^ 32 -> A mod 4 = 0 -> -1 <= D <= 300 ->
  exists R, rem_mag (A * 2 ^ Z.max 0 D) B = 4 * R /\ Z.abs R <= B / 8 /\
    float32_rem_tail fuel s ea A eb B D st
    = normalizeRoundAndPackFloat32 (s ^^^ b2z (R <? 0)) eb (Z.abs R) st.
Proof.
  intros Hf HB HB16 HA HA4 HD.
  destruct (rem_quotient_spec fuel A B D Hf HB HB16 HA HA4 HD) as (q & x & m & Eq & Hx & Hm & Hp).
  set (b := B / 4) in *. assert (EB : B = 4 * b) by (unfold b; dlia).
  destruct (float32_rem_subs fuel b q x ltac:(lia) ltac:(lia) Hx) as (k & r & Hk & Ex & Hr & Es).
  destruct (nearest_rem_spec 4 (m + k) r b ltac:(lia) Hr) as [En Hn].
  exists (nearest_rem (m + k) r b). split; [|split].
  - rewrite Hm, EB, <- En, Ex. f_equal. ring.
  - replace (B / 8) with (b / 2) by (unfold b; rewrite Z.div_div by lia; reflexivity). exact Hn.
  - destruct (float32_rem_choice q k r b (m + k) ltac:(lia) Hr) as [Ec Wc].
    { rewrite Z.add_mod, Hp, <- Z.add_mod by lia. reflexivity. }
    unfold float32_rem_tail, bind, lift. unfold rem_quotient in Eq.
    destruct (while_opt _ _ _ _) as [[[q1 A1] E1]|]; [|discriminate]. rewrite Eq, Es.
    set (c := if _ || _ then r else _) in *. rewrite Ec.
    set (R := nearest_rem (m + k) r b) in *. clearbody R.
    assert (Hc : R = if c <? 2 ^ 31 then c else c - 2 ^ 32).
    { rewrite <- Ec. unfold s32. unfold is_u in Wc. destruct (Z.ltb_spec c (2 ^ 31)).
      - apply sw_small; [lia | unfold is_s; lia].
      - rewrite (sw_wrap 32 c (-1)) by (unfold is_s; lia). lia. }
    unfold is_u in Wc. destruct (Z.ltb_spec R 0); cbn [b2z].
    + change (truthy 1) with true. cbv iota. replace (u32 (- c)) with (Z.abs R); [reflexivity|].
      rewrite u32_mod, Z.abs_neq by lia.
      destruct (Z.ltb_spec c (2 ^ 31)); [lia|]. apply (Z.mod_unique _ _ (-1)); lia.
    + change (truthy 0) with false. cbv iota. replace (Z.abs R) with c; [reflexivity|].
      destruct (Z.ltb_spec c (2 ^ 31)); lia.
Qed.

(** ** Packing the exact remainder *)

Lemma rounded32_representable st s r j : 0 <= r < 2 ^ 24 -> 0 <= j <= 253 ->
  exists b, rounded32 st s (r * 2 ^ j) 1 = Some (s * 2 ^ 31 + b, st) /\ 0 <= b < 255 * 2 ^ 23 /\
    mag_val32 b = r * 2 ^ j.
Proof.
  intros Hr Hj. pose proof (ref_representable 24 ltac:(lia) float_round_to_zero false r j Hr ltac:(lia)) as E.
  set (b := ref_mag 24 float_round_to_zero false (r * 2 ^ j) 1) in *.
  pose proof (pow2_pos j ltac:(lia)). pose proof (pow2_le j 253 ltac:(lia) ltac:(lia)).
  assert (Hb0 : 0 <= b).
  { unfold b, ref_mag. pose proof (round_q_ge float_round_to_zero false (r * 2 ^ j) (1 * 2 ^ ref_k 24 (r * 2 ^ j) 1) 0).
    unfold ref_k in *. pose proof (pow2_pos (Z.max 0 (Z.log2 (r * 2 ^ j / 1) - (24 - 1))) ltac:(lia)). nia. }
  assert (Hb : b < 255 * 2 ^ 23).
  { pose proof (mag_val_compare 24 ltac:(lia) b (255 * 2 ^ 23) Hb0 ltac:(lia)) as C. rewrite E in C.
    change (mag_val32 (255 * 2 ^ 23)) with (2 ^ 23 * 2 ^ 254) in C. unfold Z.lt. rewrite <- C.
    apply Z.compare_lt_iff. nia. }
  exists b. split; [|split; [lia|exact E]]. rewrite <- E. now apply rounded32_exact.
Qed.

(** A zero remainder is packed as a zero. *)
Lemma normalizeRoundAndPackFloat32_zero st s e : fp_ok st -> is_flag s -> -22 <= e <= 0xFE ->
  normalizeRoundAndPackFloat32 s e 0 st = Some (s * 2 ^ 31, st).
Proof.
  intros Hst Hs He. unfold normalizeRoundAndPackFloat32. change (s8 (countLeadingZeros32 0 - 1)) with 31.
  change (u32 (0 << 31)) with 0. rewrite s16_small by lia. pose proof (mode_ok st Hst) as Hm.
  assert (T : forall x, roundAndPackFloat32_tail (float_rounding_mode st =? float_round_nearest_even)
    (roundIncrement32 (float_rounding_mode st) s) s x 0 (0 &&& 127) st = Some (s * 2 ^ 31, st)).
  { intros x. unfold roundAndPackFloat32_tail, truthy at 1. rewrite round_step32 by (assumption || lia).
    rewrite round_q_exact by (reflexivity || lia). change (0 / 2 ^ 7) with 0.
    cbn [Z.land Z.eqb negb when_]. unfold bind, ret, truthy, when_. cbn [Z.eqb negb].
    rewrite packFloat32_eq by (assumption || lia). do 2 f_equal. lia. }
  unfold roundAndPackFloat32, bind at 1, get_mode. rewrite u16_big by lia.
  rewrite (proj2 (Z.leb_gt 0xFD (e - 31))), (proj2 (Z.ltb_ge 0xFD (e - 31))), (proj2 (Z.eqb_neq (e - 31) 0xFD)) by lia.
  cbn [orb andb]. destruct (Z.ltb_spec (e - 31) 0); [|apply T].
  rewrite s16_small, shift32RightJamming_jam by (lia || (apply zero_word; lia)).
  assert (J : jam 0 (2 ^ (- (e - 31))) = 0).
  { unfold jam. rewrite Z.div_0_l, Z.mod_0_l by (pose proof (pow2_pos (- (e - 31)) ltac:(lia)); lia). reflexivity. }
  rewrite J. unfold bind at 1, get_tininess. rewrite andb_false_r. unfold bind at 1, when_, ret. apply T.
Qed.

(** The remainder is representable and packed without rounding. *)
Lemma float32_rem_pack st s e R : fp_ok st -> is_flag s -> -22 <= e <= 0xFE -> Z.abs R < 2 ^ 29 -> R mod 32 = 0 ->
  (e < 2 -> R mod 2 ^ (7 - e) = 0) ->
  exists b, normalizeRoundAndPackFloat32 s e (Z.abs R) st = Some (s * 2 ^ 31 + b, st) /\ 0 <= b < 255 * 2 ^ 23 /\
    mag_val32 b * 2 ^ 29 = Z.abs R * 2 ^ (e + 22).
Proof.
  intros Hst Hs He HR H32 Hsub. destruct (Z.eq_dec R 0) as [->|HR0].
  { exists 0. change (Z.abs 0) with 0. rewrite normalizeRoundAndPackFloat32_zero by assumption.
    repeat split; try lia. now rewrite Z.add_0_r. }
  set (j := Z.max 0 (e - 2)). set (w := 7 - e + j). assert (Hw : 5 <= w) by (unfold w, j; lia).
  pose proof (pow2_pos w ltac:(lia)) as Pw. pose proof (pow2_pos j ltac:(lia)) as Pj.
  assert (Hd : Z.abs R mod 2 ^ w = 0).
  { apply Z.mod_divide; [lia|]. apply Z.divide_abs_r, Z.mod_divide; [lia|]. unfold w, j.
    destruct (Z.lt_ge_cases e 2) as [Hl|Hl].
    - rewrite Z.max_l, Z.add_0_r by lia. now apply Hsub.
    - rewrite Z.max_r by lia. now replace (7 - e + (e - 2)) with 5 by lia. }
  pose proof (Z.div_mod (Z.abs R) (2 ^ w) ltac:(lia)) as Er. rewrite Hd, Z.add_0_r in Er.
  set (r := Z.abs R / 2 ^ w) in *. assert (Hr0 : 0 <= r) by (apply Z.div_pos; lia).
  pose proof (pow2_le 5 w ltac:(lia) ltac:(lia)).
  assert (Hr : 0 <= r < 2 ^ 24) by nia.
  destruct (rounded32_representable st s r j Hr ltac:(unfold j; lia)) as (b & Eb & Hb & Vb).
  exists b. split; [|split; [exact Hb|]].
  - rewrite <- Eb. apply (normalizeRoundAndPackFloat32_ref st s e (Z.abs R) (Z.abs R) 1); try assumption; try lia.
    apply (scaled_intro _ _ _ _ _ 29); [lia | lia |].
    rewrite Er, !Z.mul_1_r, !Z.mul_1_l. replace (e - 7 + 29) with (e + 22) by lia.
    replace (2 ^ w * r * 2 ^ (e + 22)) with (r * (2 ^ w * 2 ^ (e + 22))) by ring.
    rewrite <- Z.mul_assoc, <- !Z.pow_add_r by (lia || (unfold w, j; lia)). do 2 f_equal. unfold w. lia.
  - rewrite Vb, Er. replace (2 ^ w * r * 2 ^ (e + 22)) with (r * (2 ^ w * 2 ^ (e + 22))) by ring.
    rewrite <- Z.mul_assoc, <- !Z.pow_add_r by (lia || (unfold w, j; lia)). do 2 f_equal. unfold w. lia.
Qed.

(** ** The whole routine *)

(** The remainder of two fractions over the same denominator. *)
Lemma rem_mag_frac T B ma mb P Q : 0 < B -> 0 < mb -> 0 < P -> 0 < Q -> T * P = ma * Q -> B * P = mb * Q ->
  rem_mag T B * P = rem_mag ma mb * Q.
Proof.
  intros HB Hmb HP HQ VA VB. unfold rem_mag.
  pose proof (round_q_frac float_round_nearest_even false T B ma mb 1) as R. rewrite !Z.mul_1_r in R.
  rewrite R by (lia || (apply (Z.mul_reg_r _ _ (P * Q)); [nia|];
    replace (T * mb * (P * Q)) with (T * P * (mb * Q)) by ring; rewrite VA, <- VB; ring)).
  rewrite !Z.mul_sub_distr_r, VA. f_equal.
  replace (B * round_q float_round_nearest_even false ma mb * P)
    with (B * P * round_q float_round_nearest_even false ma mb) by ring.
  rewrite VB. ring.
Qed.

(** The significands' remainder is the operands', in units of [2^(eb-7)]. *)
Lemma rem_scaled m n ea eb ma mb : -22 <= ea -> -22 <= eb -> -1 <= ea - eb -> 0 < n -> 0 < mb ->
  m * 2 ^ (ea + 22) = ma * 2 ^ 23 -> n * 2 ^ (eb + 22) = mb * 2 ^ 23 ->
  let A := if ea - eb <? 0 then m * 2 ^ 7 else m * 2 ^ 8 in
  rem_mag (A * 2 ^ Z.max 0 (ea - eb)) (n * 2 ^ 8) * 2 ^ (eb + 22) = rem_mag ma mb * 2 ^ 31.
Proof.
  intros Ha Hb Hd Hn Hmb Va Vb A.
  assert (VA : A * 2 ^ Z.max 0 (ea - eb) * 2 ^ (eb + 22) = ma * 2 ^ 31).
  { apply (Z.mul_reg_r _ _ (2 ^ 23)); [lia|]. replace (ma * 2 ^ 31 * 2 ^ 23) with (ma * 2 ^ 23 * 2 ^ 31) by ring.
    rewrite <- Va. unfold A. destruct (Z.ltb_spec (ea - eb) 0).
    - rewrite Z.max_l by lia. replace (eb + 22) with (ea + 22 + 1) by lia. rewrite (Z.pow_add_r 2 (ea + 22)) by lia. ring.
    - rewrite Z.max_r by lia. replace (ea + 22) with (ea - eb + (eb + 22)) by lia.
      rewrite (Z.pow_add_r 2 (ea - eb)) by lia. ring. }
  apply rem_mag_frac; [lia | lia | apply pow2_pos; lia | lia | exact VA |].
  replace (mb * 2 ^ 31) with (mb * 2 ^ 23 * 2 ^ 8) by ring. rewrite <- Vb. ring.
Qed.

Lemma rem_mag_divide c ma mb : (c | ma) -> (c | mb) -> (c | rem_mag ma mb).
Proof. intros Ha Hb. unfold rem_mag. apply Z.divide_sub_r; [assumption|]. now apply Z.divide_mul_l. Qed.

(** A dividend below half the divisor is the remainder. *)
Lemma rem_mag_small ma mb : 0 <= ma -> 2 * ma < mb -> rem_mag ma mb = ma.
Proof.
  intros H0 H. unfold rem_mag, round_q, rounds_away. rewrite Z.div_small, Z.mod_small, Z.eqb_refl by lia.
  rewrite (proj2 (Z.compare_lt_iff _ _)) by lia. cbn [b2z]. lia.
Qed.

Lemma is_rem32_self a b : is_u 32 a -> 2 * f32_mag a < f32_mag b -> is_rem32 a b a.
Proof.
  intros Ha H. pose proof (f32_mag_nonneg a Ha). unfold is_rem32. rewrite rem_mag_small by lia.
  rewrite (proj2 (Z.ltb_ge _ 0)), Z.lxor_0_r, Z.abs_eq by lia. repeat split; assumption || apply Ha.
Qed.

Lemma float32_rem_nonzero st fuel a b : (10 < fuel)%nat -> fp_ok st -> f32_finite a -> f32_finite b ->
  0 < f32_mag a -> 0 < f32_mag b ->
  exists z, (let '(bExp, bSig) := norm32 b in let '(aExp, aSig) := norm32 a in
     let expDiff := s16 (aExp - bExp) in
     let aSig := u32 ((aSig ||| 0x00800000) << 8) in
     let bSig := u32 ((bSig ||| 0x00800000) << 8) in
     if expDiff <? 0 then
       if expDiff <? -1 then ret a
       else float32_rem_tail fuel (f32_sign a) aExp (aSig >> 1) bExp bSig expDiff
     else float32_rem_tail fuel (f32_sign a) aExp aSig bExp bSig expDiff) st = Some (z, st) /\
    is_rem32 a b z.
Proof.
  intros Hf Hst Fa Fb Ma Mb. pose proof Fa as [Ha _].
  destruct (norm32_spec a Fa Ma) as (Ra & _ & Sa & Va). destruct (norm32_spec b Fb Mb) as (Rb & _ & Sb & Vb).
  unfold norm_sig32 in *. destruct (norm32 a) as [ea x], (norm32 b) as [eb y]. cbn [fst snd] in *.
  set (m := x ||| 0x00800000) in *. set (n := y ||| 0x00800000) in *. clearbody m n.
  rewrite s16_small, !u32_shl_small by lia.
  destruct (Z.lt_ge_cases (ea - eb) (-1)) as [Hd|Hd].
  { rewrite (proj2 (Z.ltb_lt (ea - eb) 0)), (proj2 (Z.ltb_lt (ea - eb) (-1))) by lia. exists a. split; [reflexivity|]. apply is_rem32_self; [assumption|].
    pose proof (pow2_pos (ea + 22) ltac:(lia)).
    assert (E : 2 ^ (eb + 22) = 2 ^ (ea + 22) * (4 * 2 ^ (eb - ea - 2))).
    { change 4 with (2 ^ 2). rewrite <- !Z.pow_add_r by lia. f_equal. lia. }
    pose proof (pow2_pos (eb - ea - 2) ltac:(lia)). rewrite E in Vb. nia. }
  pose proof (rem_scaled m n ea eb _ _ ltac:(lia) ltac:(lia) Hd ltac:(lia) Mb Va Vb) as Hsc. cbv zeta in Hsc.
  set (A := if ea - eb <? 0 then m * 2 ^ 7 else m * 2 ^ 8) in *.
  assert (HA : 0 <= A < 2 ^ 32 /\ A mod 128 = 0).
  { unfold A. destruct (ea - eb <? 0); (split; [lia|]).
    - change (2 ^ 7) with 128. apply Z.mod_mul. lia.
    - replace (m * 2 ^ 8) with (m * 2 * 128) by lia. apply Z.mod_mul. lia. }
  destruct (float32_rem_tail_eq st fuel (f32_sign a) ea A eb (n * 2 ^ 8) (ea - eb) Hf) as (R & ER & HR & Et); try lia; [dlia|dlia|].
  assert (Eg : (if ea - eb <? 0 then
      if ea - eb <? -1 then ret a
      else float32_rem_tail fuel (f32_sign a) ea ((m * 2 ^ 8) >> 1) eb (n * 2 ^ 8) (ea - eb)
    else float32_rem_tail fuel (f32_sign a) ea (m * 2 ^ 8) eb (n * 2 ^ 8) (ea - eb))
    = float32_rem_tail fuel (f32_sign a) ea A eb (n * 2 ^ 8) (ea - eb)).
  { unfold A. destruct (Z.ltb_spec (ea - eb) 0); [|reflexivity]. rewrite (proj2 (Z.ltb_ge _ (-1))) by lia.
    rewrite shiftr_1. now replace (m * 2 ^ 8 / 2) with (m * 2 ^ 7) by dlia. }
  rewrite Eg, Et. clear Eg Et. rewrite ER in Hsc. set (F := rem_mag (f32_mag a) (f32_mag b)) in *.
  assert (EF : R * 2 ^ (eb + 22) = F * 2 ^ 29) by lia.
  pose proof (pow2_pos (eb + 22) ltac:(lia)) as Pe.
  assert (Hs : is_flag (f32_sign a ^^^ b2z (R <? 0))).
  { apply xor_flag; [now apply f32_sign_flag|]. unfold is_flag. destruct (R <? 0); cbn; auto. }
  destruct (float32_rem_pack st (f32_sign a ^^^ b2z (R <? 0)) eb R Hst Hs ltac:(lia)) as (p & Ep & Hp & Vp).
  - assert (n * 2 ^ 8 / 8 < 2 ^ 29) by (apply Z.div_lt_upper_bound; lia). lia.
  - assert (Hr : (128 | 4 * R)).
    { rewrite <- ER. apply rem_mag_divide; [apply Z.divide_mul_l, Z.mod_divide; [lia|apply HA]|].
      exists (n * 2). lia. }
    destruct Hr as [c Hr]. replace R with (c * 32) by lia. apply Z.mod_mul. lia.
  - intros He. replace R with (F * 2 ^ (7 - eb)); [apply Z.mod_mul; pose proof (pow2_pos (7 - eb)); lia|].
    apply (Z.mul_reg_r _ _ (2 ^ (eb + 22))); [lia|]. rewrite EF, <- Z.mul_assoc, <- Z.pow_add_r by lia.
    do 2 f_equal. lia.
  - exists (((f32_sign a) ^^^ b2z (R <? 0)) * 2 ^ 31 + p). split; [exact Ep|]. unfold is_rem32. fold F.
    assert (Ec : (F <? 0) = (R <? 0)) by (destruct (Z.ltb_spec F 0), (Z.ltb_spec R 0); try reflexivity; nia).
    rewrite Ec. set (s := f32_sign a ^^^ b2z (R <? 0)) in *. unfold f32_sign, f32_mag, is_u.
    split; [destruct Hs as [-> | ->]; lia|]. split; [rewrite Z.div_add_l, Z.div_small by lia; lia|].
    rewrite Z.add_comm, Z.mod_add, Z.mod_small by lia.
    apply (Z.mul_reg_r _ _ (2 ^ 29)); [lia|]. rewrite Vp. nia.
Qed.

(** The single-precision remainder terminates (at most ten rounds of thirty quotient bits) and is
    the IEEE remainder: for finite operands with a nonzero divisor it returns exactly
    [a - b n], where [n] is the integer nearest to [a / b], ties to even, without any exception, a
    zero result having the sign of [a]; an infinite dividend or a zero divisor is invalid, an
    infinite divisor leaves [a], and NaNs propagate. *)
Lemma float32_rem_correct st fuel a b : (10 < fuel)%nat -> fp_ok st -> is_u 32 a -> is_u 32 b ->
  if f32_is_nan a || f32_is_nan b then float32_rem fuel a b st = propagateFloat32NaN a b st
  else if f32_is_inf a || (f32_mag b =? 0) then float32_rem fuel a b st = invalid32 st
  else if f32_is_inf b then float32_rem fuel a b st = Some (a, st)
  else exists z, float32_rem fuel a b st = Some (z, st) /\ is_rem32 a b z.
Proof.
  intros Hf Hst Ha Hb. destruct (fields32 a Ha) as (_ & _ & Ra & _), (fields32 b Hb) as (_ & _ & Rb & _).
  pose proof (f32_mag_nonneg a Ha). pose proof (f32_mag_nonneg b Hb).
  pose proof (f32_mag_zero a Ha) as Za. pose proof (f32_mag_zero b Hb) as Zb.
  unfold float32_rem. rewrite !sign32_div. change (a / 2 ^ 31) with (f32_sign a).
  destruct (Z.eqb_spec (extractFloat32Exp a) 0xFF) as [Ea|Ea];
    [|destruct (Z.eqb_spec (extractFloat32Exp b) 0xFF) as [Eb|Eb]].
  - unfold f32_is_nan, f32_is_inf, truthy. rewrite Ea, Z.eqb_refl. cbn [andb].
    destruct (extractFloat32Frac a =? 0); cbn [negb orb]; [|reflexivity].
    destruct ((extractFloat32Exp b =? 255) && negb (extractFloat32Frac b =? 0)); [reflexivity | now apply invalid32_eq].
  - destruct (nonspecial32 a Ea) as [-> ->]. unfold f32_is_nan, f32_is_inf, truthy. rewrite Eb, Z.eqb_refl in *.
    rewrite Zb. cbn [andb orb Z.eqb]. destruct (extractFloat32Frac b =? 0); reflexivity.
  - destruct (nonspecial32 a Ea) as [-> ->], (nonspecial32 b Eb) as [-> ->]. cbn [orb].
    rewrite <- Za, <- Zb. fold (norm32 a) (norm32 b).
    destruct (Z.eqb_spec (f32_mag b) 0) as [Mb|Mb]; [now apply invalid32_eq|].
    destruct (Z.eqb_spec (f32_mag a) 0) as [Ma|Ma].
    + exists a. destruct (norm32 b). split; [reflexivity|]. apply is_rem32_self; [assumption | lia].
    + apply float32_rem_nonzero; try assumption; try lia; (split; [assumption | lia]).
Qed.
