(* ===== verification/Float64Round.v ===== *)
(** * Rounding and packing of double precision implements the reference

    [roundAndPackFloat64] on a three-word significand returns [ref_bits] and raises [ref_flags]
    in every rounding mode. *)

From S2P Require Import Prelude.
From S2P Require Import CInt.
From S2P Require Import FPState.
From S2P Require Import Rounding.
From S2P Require Import SoftFloatPrim.
From S2P Require Import Float32.
From S2P Require Import Float64.
From S2P Require Import Float32Round.
From S2P Require Import Float32Arith.

(** Double precision: 53 bits, all-ones exponent 2047. *)
Abbreviation ref_bits64 := (ref_bits 53 2047).
Abbreviation ref_flags64 := (ref_flags 53 2047).
Abbreviation mag_val64 := (mag_val 53).

(** The pattern as one number, and back. *)
Definition bits64 (a : float64) : Z := val64 (high a, low a).
Definition of_bits64 (b : Z) : float64 := mk_float64 (b / 2 ^ 32) (b mod 2 ^ 32).
Definition f64_word (a : float64) : Prop := words64 (high a, low a).

Lemma of_bits64_words h l : is_u 32 l -> of_bits64 (h * 2 ^ 32 + l) = mk_float64 h l.
Proof.
  unfold is_u. intros Hl. unfold of_bits64. rewrite Z.div_add_l, Z.div_small, Z.add_0_r by lia.
  rewrite Z.add_comm, Z.mod_add, Z.mod_small by lia. reflexivity.
Qed.

Lemma of_bits64_bits a : f64_word a -> of_bits64 (bits64 a) = a.
Proof. intros [_ H]. destruct a. now apply of_bits64_words. Qed.

(** What the reference makes of the exact value [A / B] with sign [zSign] in state [st]. *)
Definition rounded64 (st : fpstate) (zSign A B : Z) : option (float64 * fpstate) :=
  let mode := float_rounding_mode st in
  Some (of_bits64 (zSign * 2 ^ 63 + ref_bits64 mode (truthy zSign) A B),
        raised st (ref_flags64 (float_detect_tininess st) mode (truthy zSign) A B)).

(** ** Packing *)

Lemma packFloat64_eq zSign zExp zSig0 zSig1 : is_flag zSign -> 0 <= zExp < 2 ^ 11 ->
  0 <= zSig0 -> zExp * 2 ^ 20 + zSig0 < 2 ^ 31 -> is_u 32 zSig1 ->
  packFloat64 zSign zExp zSig0 zSig1
  = of_bits64 (zSign * 2 ^ 63 + (zExp * 2 ^ 52 + val64 (zSig0, zSig1))).
Proof.
  intros Hs He Hz Hb H1. unfold packFloat64, val64. cbn [fst snd].
  assert (E1 : u32 (zSign << 31) = zSign * 2 ^ 31) by (destruct Hs as [-> | ->]; reflexivity).
  assert (E2 : u32 zExp = zExp) by (apply u32_small; lia).
  rewrite E1, E2, u32_shl by lia. change (32 - 20) with 12. rewrite (Z.mod_small zExp) by lia.
  rewrite u32_small by (destruct Hs as [-> | ->]; lia).
  rewrite <- of_bits64_words by assumption. f_equal. lia.
Qed.

(** ** The increment *)

Lemma roundIncrement64_again mode zSign zSig2 :
  (if mode =? float_round_nearest_even then s32 zSig2 <? 0
   else if truthy zSign then (mode =? float_round_down) && truthy zSig2
   else (mode =? float_round_up) && truthy zSig2) = roundIncrement64 mode zSign zSig2.
Proof.
  unfold roundIncrement64. destruct (mode =? float_round_nearest_even); cbn [negb]; [reflexivity|].
  destruct (Z.eqb_spec mode float_round_to_zero) as [->|]; [|reflexivity].
  now destruct (truthy zSign).
Qed.

Lemma div_mod_low m z : is_u 32 z -> (m * 2 ^ 32 + z) / 2 ^ 32 = m /\ (m * 2 ^ 32 + z) mod 2 ^ 32 = z.
Proof.
  unfold is_u. intros Hz. split.
  - rewrite Z.div_add_l, Z.div_small by lia. lia.
  - rewrite Z.add_comm, Z.mod_add, Z.mod_small by lia. reflexivity.
Qed.

(** Rounding the words: the increment decision and its correction for ties. *)
Lemma round_increment64 mode zSign m z : 0 <= mode <= 3 -> is_u 32 z -> 0 <= m ->
  round_q mode (truthy zSign) (m * 2 ^ 32 + z) (2 ^ 32)
  = if roundIncrement64 mode zSign z then
      (if (u32 (z + z) =? 0) && (mode =? float_round_nearest_even) then 2 * ((m + 1) / 2) else m + 1)
    else m.
Proof.
  intros Hm Hz Hm0. destruct (div_mod_low m z Hz) as [Eq Er]. unfold round_q, rounds_away. rewrite Eq, Er.
  unfold roundIncrement64. pose proof Hz as Hz'. unfold is_u in Hz'.
  destruct (Z.eqb_spec mode float_round_nearest_even) as [->|Hne]; cbn [negb].
  - rewrite s32_neg, u32_mod, andb_true_r by assumption.
    destruct (Z.compare_spec (2 * z) (2 ^ 32)) as [Hc|Hc|Hc].
    + assert (z = 2 ^ 31) as -> by lia. change ((2 ^ 31 + 2 ^ 31) mod 2 ^ 32 =? 0) with true.
      change (2 ^ 31 <=? 2 ^ 31) with true. cbn iota.
      rewrite <- (Z.negb_even m). destruct (Z.even m) eqn:Ev; cbn [negb b2z].
      * apply Z.even_spec in Ev as [k ->]. dlia.
      * assert (Ho : Z.odd m = true) by (rewrite <- Z.negb_even, Ev; reflexivity).
        apply Z.odd_spec in Ho as [k ->]. dlia.
    + rewrite (proj2 (Z.leb_gt _ _)) by lia. cbn [b2z]. lia.
    + rewrite (proj2 (Z.leb_le _ _)), (proj2 (Z.eqb_neq _ 0)) by dlia. reflexivity.
  - rewrite andb_false_r. unfold float_round_nearest_even in Hne.
    assert (C : mode = 1 \/ mode = 2 \/ mode = 3) by lia.
    destruct (truthy zSign), C as [-> | [-> | ->]]; unfold truthy; destruct (z =? 0); cbn; lia.
Qed.

(** The carry out of the significand. *)
Lemma round_carry64 mode zSign z0 z1 z : 0 <= mode <= 3 -> is_u 32 z -> is_u 32 z1 ->
  0 <= z0 -> z0 * 2 ^ 32 + z1 < 2 ^ 53 ->
  eq64 0x001FFFFF 0xFFFFFFFF z0 z1 && roundIncrement64 mode zSign z
    = (2 ^ 53 <=? round_q mode (truthy zSign) ((z0 * 2 ^ 32 + z1) * 2 ^ 32 + z) (2 ^ 32)) /\
  negb (roundIncrement64 mode zSign z) || lt64 z0 z1 0x001FFFFF 0xFFFFFFFF
    = (round_q mode (truthy zSign) ((z0 * 2 ^ 32 + z1) * 2 ^ 32 + z) (2 ^ 32) <? 2 ^ 53).
Proof.
  intros Hm Hz H1 H0 Hb. pose proof H1 as H1'. unfold is_u in H1'.
  rewrite round_increment64 by (assumption || lia).
  assert (Eq : eq64 0x001FFFFF 0xFFFFFFFF z0 z1 = (z0 * 2 ^ 32 + z1 =? 2 ^ 53 - 1)).
  { unfold eq64. zdec; lia. }
  assert (El : lt64 z0 z1 0x001FFFFF 0xFFFFFFFF = negb (z0 * 2 ^ 32 + z1 =? 2 ^ 53 - 1)).
  { unfold lt64. zdec; lia. }
  rewrite Eq, El. set (m := z0 * 2 ^ 32 + z1) in *. assert (Hm0 : 0 <= m) by lia. clearbody m.
  destruct (roundIncrement64 mode zSign z); cbn [negb orb andb].
  - rewrite andb_true_r. destruct (Z.eqb_spec m (2 ^ 53 - 1)) as [->|]; cbn [negb].
    + now destruct (_ && _).
    + destruct (_ && _); split; symmetry; first [apply Z.leb_gt | apply Z.ltb_lt]; dlia.
  - rewrite andb_false_r. split; symmetry; first [apply Z.leb_gt | apply Z.ltb_lt]; lia.
Qed.

(** ** The tail: increment, clear the tie bit, pack *)

Lemma roundAndPackFloat64_tail_eq st zSign zExp z0 z1 z2 :
  fp_ok st -> is_flag zSign -> words96 (z0, z1, z2) -> z0 * 2 ^ 32 + z1 < 2 ^ 53 ->
  0 <= zExp <= 0x7FD -> zExp = 0 \/ 2 ^ 20 <= z0 ->
  let mode := float_rounding_mode st in
  let r := round_q mode (truthy zSign) (val96 (z0, z1, z2)) (2 ^ 32) in
  roundAndPackFloat64_tail (mode =? float_round_nearest_even) (roundIncrement64 mode zSign z2)
    zSign zExp z0 z1 z2 st
  = Some (of_bits64 (zSign * 2 ^ 63 + (zExp * 2 ^ 52 + r)),
          raised st (if z2 =? 0 then 0 else float_flag_inexact)).
Proof.
  intros Hst Hs (H0 & H1 & H2) Hb He Hn mode r. pose proof (mode_ok st Hst) as Hm. fold mode in Hm.
  assert (Er : r = round_q mode (truthy zSign) ((z0 * 2 ^ 32 + z1) * 2 ^ 32 + z2) (2 ^ 32))
    by (unfold r, val96; f_equal; lia).
  rewrite round_increment64 in Er by (assumption || (unfold is_u in *; lia)).
  set (inc := roundIncrement64 mode zSign z2) in *.
  set (tie := (u32 (z2 + z2) =? 0) && (mode =? float_round_nearest_even)) in *.
  assert (Fl : forall z, (when_ (truthy z2) (float_raise float_flag_inexact) ;; ret z) st
    = Some (z, raised st (if z2 =? 0 then 0 else float_flag_inexact)) :> option (float64 * fpstate)).
  { intros z. unfold bind, when_, truthy. destruct (z2 =? 0); cbn [negb]; [now rewrite raised_0|].
    now rewrite float_raise_eq by (assumption || flag_range). }
  unfold roundAndPackFloat64_tail. fold tie. unfold is_u in H0, H1.
  destruct inc.
  - destruct (add64_val z0 z1 0 1) as [[W0 W1] V]; [easy | split; cbn; apply b2z_word with (b := true) || apply zero_word; lia|].
    destruct (add64 z0 z1 0 1) as [y0 y1]. unfold val64 in V. cbn [fst snd] in *.
    rewrite Z.mod_small in V by lia. pose proof W1 as W1'. unfold is_u in W0, W1'.
    rewrite Fl, packFloat64_eq; try assumption; try lia.
    + unfold val64. cbn [fst snd]. do 3 f_equal. rewrite Er.
      destruct tie; cbn [b2z]; [rewrite mask_clear by lia; dlia | rewrite mask_keep by lia; lia].
    + destruct tie; cbn [b2z]; [rewrite mask_clear by lia | rewrite mask_keep by lia]; unfold is_u; dlia.
  - replace (if (z0 ||| z1) =? 0 then 0 else zExp) with zExp.
    + rewrite Fl, packFloat64_eq; try assumption; try lia.
      unfold val64. cbn [fst snd]. do 3 f_equal. lia.
    + destruct (Z.eqb_spec (z0 ||| z1) 0) as [E|]; [|reflexivity].
      apply Z.lor_eq_0_iff in E. lia.
Qed.

(** ** The whole routine *)

Lemma u16_big64 zExp : - 2 ^ 15 < zExp < 2 ^ 15 ->
  (0x7FD <=? u16 zExp) = (0x7FD <=? zExp) || (zExp <? 0).
Proof.
  intros H. unfold u16, uw.
  destruct (Z.leb_spec 0x7FD zExp), (Z.ltb_spec zExp 0), (Z.leb_spec 0x7FD (zExp mod 2 ^ 16));
    try reflexivity; exfalso; dlia.
Qed.

Lemma rounded64_overflow st zSign A B :
  2047 * 2 ^ 52 <= ref_mag 53 (float_rounding_mode st) (truthy zSign) A B ->
  rounded64 st zSign A B =
  Some (of_bits64 (zSign * 2 ^ 63
          + (2047 * 2 ^ 52 - b2z (saturates (float_rounding_mode st) (truthy zSign)))),
        raised st (float_flag_overflow ||| float_flag_inexact)).
Proof.
  intros H. unfold rounded64, ref_bits, ref_flags, ref_overflow, inf_bits.
  change (53 - 1) with 52. now rewrite (proj2 (Z.leb_le _ _) H).
Qed.

Lemma rounded64_finite st zSign A B :
  ref_mag 53 (float_rounding_mode st) (truthy zSign) A B < 2047 * 2 ^ 52 ->
  rounded64 st zSign A B =
  Some (of_bits64 (zSign * 2 ^ 63 + ref_mag 53 (float_rounding_mode st) (truthy zSign) A B),
        raised st
          ((if ref_tiny 53 (float_detect_tininess st) (float_rounding_mode st) (truthy zSign) A B
               && ref_inexact 53 A B then float_flag_underflow else 0)
           ||| (if ref_inexact 53 A B then float_flag_inexact else 0))).
Proof.
  intros H. unfold rounded64, ref_bits, ref_flags, ref_overflow, inf_bits.
  change (53 - 1) with 52. now rewrite (proj2 (Z.leb_gt _ _) H).
Qed.

(** The overflow exit. *)
Lemma overflow_exit64 st zSign : fp_ok st -> is_flag zSign ->
  (float_raise (float_flag_overflow ||| float_flag_inexact) ;;
   if (float_rounding_mode st =? float_round_to_zero)
      || (truthy zSign && (float_rounding_mode st =? float_round_up))
      || (negb (truthy zSign) && (float_rounding_mode st =? float_round_down))
   then ret (packFloat64 zSign 0x7FE 0x000FFFFF 0xFFFFFFFF)
   else ret (packFloat64 zSign 0x7FF 0 0)) st
  = Some (of_bits64 (zSign * 2 ^ 63
            + (2047 * 2 ^ 52 - b2z (saturates (float_rounding_mode st) (truthy zSign)))),
          raised st (float_flag_overflow ||| float_flag_inexact)).
Proof.
  intros Hst Hs. unfold bind. rewrite float_raise_eq by (assumption || flag_range).
  replace ((float_rounding_mode st =? float_round_to_zero) || _ || _)
    with (saturates (float_rounding_mode st) (truthy zSign)).
  - destruct (saturates _ _); unfold ret; rewrite packFloat64_eq by (assumption || lia || (unfold is_u; lia));
      reflexivity.
  - unfold saturates. destruct (truthy zSign); cbn [negb andb]; now rewrite ?orb_false_r.
Qed.

(** A normalised three-word significand, exact up to sticky bits of the last word, is rounded and
    packed as the reference rounds the exact value. *)
Section RoundAndPack64.
Variables (st : fpstate) (zSign zExp z0 z1 z2 N D A B : Z).
Abbreviation zSig := (val96 (z0, z1, z2)).
Hypothesis (Hst : fp_ok st) (Hs : is_flag zSign) (Hw : words96 (z0, z1, z2))
  (Hz : 2 ^ 20 <= z0 < 2 ^ 21)
  (He : - 2 ^ 15 < zExp < 2 ^ 15) (HD : 0 < D) (HB : 0 < B) (HA : 0 <= A)
  (Hstk : sticky (2 ^ 31) zSig N D) (Hsc : scaled N D (zExp - 32) A B).

Abbreviation mode := (float_rounding_mode st).
Abbreviation s := (truthy zSign).
Abbreviation r := (round_q (float_rounding_mode st) (truthy zSign) (val96 (z0, z1, z2)) (2 ^ 32)).

Lemma val96_split : zSig = (z0 * 2 ^ 32 + z1) * 2 ^ 32 + z2 /\ zSig mod 2 ^ 32 = z2.
Proof.
  destruct Hw as (_ & _ & H2). assert (E : zSig = (z0 * 2 ^ 32 + z1) * 2 ^ 32 + z2)
    by (unfold val96; lia). split; [exact E|]. rewrite E. now apply div_mod_low.
Qed.

Lemma sig_range64 : 2 ^ 52 * 2 ^ 32 <= zSig < 2 ^ 53 * 2 ^ 32 /\ z0 * 2 ^ 32 + z1 < 2 ^ 53.
Proof. destruct Hw as (H0 & H1 & H2). unfold is_u in *. unfold val96. lia. Qed.

Lemma round_range64 : 2 ^ 52 <= r <= 2 ^ 53.
Proof. pose proof sig_range64. split; [apply round_q_ge | apply round_q_le]; lia. Qed.

Lemma normal_case64 : 0 <= zExp <= 0x7FD -> ~ (zExp = 0x7FD /\ 2 ^ 53 <= r) ->
  roundAndPackFloat64_tail (mode =? float_round_nearest_even) (roundIncrement64 mode zSign z2)
  zSign zExp z0 z1 z2 st = rounded64 st zSign A B.
Proof.
  intros He' Hno. pose proof round_range64. destruct sig_range64 as [R1 R2].
  destruct (normal_ref 53 32 mode s zExp zSig N D A B) as (E2 & E3 & E4); try assumption; try lia.
  change (53 - 1) with 52 in *. rewrite rounded64_finite by lia. rewrite E2, E3.
  unfold ref_tiny. change (53 - 1) with 52. rewrite (proj2 (Z.ltb_ge _ _) E4). cbn [andb].
  rewrite Z.lor_0_l, roundAndPackFloat64_tail_eq by (assumption || lia).
  destruct val96_split as [_ ->]. now destruct (z2 =? 0).
Qed.

Lemma overflow_case64 : 0x7FD <= zExp -> (zExp = 0x7FD -> 2 ^ 53 <= r) ->
  2047 * 2 ^ 52 <= ref_mag 53 mode s A B.
Proof.
  intros He' Hov. pose proof round_range64. destruct sig_range64 as [R1 R2].
  destruct (normal_ref 53 32 mode s zExp zSig N D A B) as (E2 & _); try assumption; try lia.
Qed.

Lemma subnormal_case64 : zExp < 0 ->
  (let isTiny := (float_detect_tininess st =? float_tininess_before_rounding)
  || (zExp <? -1) || (r <? 2 ^ 53) in
  let '(zSig0, zSig1, zSig2) := shift64ExtraRightJamming z0 z1 z2 (s16 (- zExp)) in
  when_ (isTiny && truthy zSig2) (float_raise float_flag_underflow) ;;
  roundAndPackFloat64_tail (mode =? float_round_nearest_even)
  (if mode =? float_round_nearest_even then s32 zSig2 <? 0
  else if truthy zSign then (mode =? float_round_down) && truthy zSig2
  else (mode =? float_round_up) && truthy zSig2) zSign 0 zSig0 zSig1 zSig2) st
  = rounded64 st zSign A B.
Proof.
  intros Hneg. cbv zeta. rewrite s16_small by lia. destruct sig_range64 as [R1 R2].
  pose proof (shift64Extra_sticky z0 z1 z2 (- zExp) Hw ltac:(lia)) as HJ.
  pose proof (shift64Extra_words z0 z1 z2 (- zExp) Hw ltac:(lia)) as HW.
  replace (z0 * 2 ^ 64 + z1 * 2 ^ 32 + z2) with zSig in HJ by reflexivity.
  destruct (shift64ExtraRightJamming z0 z1 z2 (- zExp)) as [[y0 y1] y2].
  set (Z' := val96 (y0, y1, y2)) in *.
  destruct (subnormal_ref 53 32 mode s zExp zSig N D A B ltac:(lia) ltac:(lia) ltac:(lia) HD HB HA
    Hstk Hsc Z' Hneg HJ) as (Q1 & Q2 & Q4 & Q5).
  pose proof (tiny_ref 53 32 mode s zExp zSig N D A B ltac:(lia) ltac:(lia) ltac:(lia) HD HB HA
    Hstk Hsc (float_detect_tininess st) Hneg Q2) as T. rewrite <- T.
  destruct HW as (W0 & W1 & W2).
  assert (EZ : Z' = (y0 * 2 ^ 32 + y1) * 2 ^ 32 + y2) by (unfold Z', val96; lia).
  assert (Hb : y0 * 2 ^ 32 + y1 < 2 ^ 52) by (unfold is_u in *; lia).
  assert (Em : Z' mod 2 ^ 32 = y2) by (rewrite EZ; now apply div_mod_low).
  assert (Hr : round_q mode s Z' (2 ^ 32) <= 2 ^ 52) by (apply round_q_le; lia).
  rewrite rounded64_finite by lia. rewrite Q4, Q5, Em, roundIncrement64_again.
  change (negb (y2 =? 0)) with (truthy y2). unfold bind at 1, when_ at 1. destruct (_ && _) eqn:Eu.
  - rewrite float_raise_eq by (assumption || flag_range).
    change mode with (float_rounding_mode (raised st float_flag_underflow)).
    rewrite roundAndPackFloat64_tail_eq
      by (lia || (apply raised_ok; [assumption | flag_range]) || assumption || easy).
    rewrite raised_raised. cbn [raised float_rounding_mode].
    apply andb_true_iff in Eu as [_ Eu]. rewrite Eu. apply negb_true_iff in Eu. now rewrite Eu.
  - unfold ret at 1. rewrite roundAndPackFloat64_tail_eq by (lia || assumption || easy).
    unfold truthy. now destruct (y2 =? 0).
Qed.

Lemma roundAndPackFloat64_ref : roundAndPackFloat64 zSign zExp z0 z1 z2 st = rounded64 st zSign A B.
Proof.
  pose proof (mode_ok st Hst) as Hm. destruct Hw as (H0 & H1 & H2). destruct sig_range64 as [R1 R2].
  destruct (round_carry64 mode zSign z0 z1 z2 Hm H2 H1 ltac:(lia) R2) as [Ec Et].
  rewrite <- (proj1 val96_split) in Ec, Et.
  unfold roundAndPackFloat64, bind at 1, get_mode. rewrite u16_big64 by lia.
  rewrite <- andb_assoc, Ec.
  destruct (Z.leb_spec 0x7FD zExp), (Z.ltb_spec zExp 0); try lia; cbn [orb].
  - destruct (Z.ltb_spec 0x7FD zExp); cbn [orb].
    + rewrite overflow_exit64, rounded64_overflow by (assumption || apply overflow_case64; lia).
      reflexivity.
    + rewrite (proj2 (Z.eqb_eq zExp 0x7FD)) by lia. cbn [andb].
      destruct (Z.leb_spec (2 ^ 53) r).
      * rewrite overflow_exit64, rounded64_overflow by (assumption || apply overflow_case64; lia).
        reflexivity.
      * apply normal_case64; lia.
  - rewrite (proj2 (Z.ltb_ge 0x7FD zExp)), (proj2 (Z.eqb_neq zExp 0x7FD)) by lia. cbn [orb andb].
    unfold bind at 1, get_tininess. rewrite <- (orb_assoc _ (negb _)), Et.
    now apply subnormal_case64.
  - apply normal_case64; lia.
Qed.
End RoundAndPack64.
