(* ===== verification/Float64Arith.v ===== *)
(** * Double-precision addition and subtraction round correctly

    The exact value of a pattern is counted in units of 2^-1074, the least positive number. *)

From S2P Require Import Prelude.
From S2P Require Import CInt.
From S2P Require Import FPState.
From S2P Require Import Rounding.
From S2P Require Import SoftFloatPrim.
From S2P Require Import Float32.
From S2P Require Import Float64.
From S2P Require Import Float32Round.
From S2P Require Import Float32Arith.
From S2P Require Import Float64Round.

(** ** Decoding *)

Definition f64_sign (a : float64) : Z := high a / 2 ^ 31.
Definition f64_mag (a : float64) : Z := mag_val64 (bits64 a mod 2 ^ 63).
Definition f64_val (a : float64) : Z := (1 - 2 * f64_sign a) * f64_mag a.
Definition f64_finite (a : float64) : Prop := f64_word a /\ extractFloat64Exp a < 0x7FF.

(** The 52 fraction bits. *)
Definition f64_frac (a : float64) : Z := val64 (extractFloat64Frac0 a, extractFloat64Frac1 a).

Lemma frac64_mod a : extractFloat64Frac0 a = high a mod 2 ^ 20.
Proof. exact (Z.land_ones (high a) 20 ltac:(lia)). Qed.

Lemma exp64_mod a : extractFloat64Exp a = high a / 2 ^ 20 mod 2 ^ 11.
Proof. unfold extractFloat64Exp. rewrite shr_div by lia. exact (Z.land_ones _ 11 ltac:(lia)). Qed.

Lemma sign64_div a : extractFloat64Sign a = f64_sign a.
Proof. unfold extractFloat64Sign, f64_sign. now rewrite shr_div by lia. Qed.

Lemma fields64 a : f64_word a ->
  bits64 a = f64_sign a * 2 ^ 63 + (extractFloat64Exp a * 2 ^ 52 + f64_frac a) /\
  is_flag (f64_sign a) /\ 0 <= extractFloat64Exp a < 2 ^ 11 /\ 0 <= f64_frac a < 2 ^ 52 /\
  0 <= extractFloat64Frac0 a < 2 ^ 20 /\ is_u 32 (extractFloat64Frac1 a).
Proof.
  intros [H0 H1]. unfold bits64, f64_frac, val64, f64_sign, is_flag, extractFloat64Frac1, is_u in *.
  cbn [fst snd] in *. rewrite frac64_mod, exp64_mod. repeat split; try dlia.
Qed.

Lemma f64_mag_fields a : f64_word a ->
  f64_mag a = if extractFloat64Exp a =? 0 then f64_frac a
              else (f64_frac a + 2 ^ 52) * 2 ^ (extractFloat64Exp a - 1).
Proof.
  intros Ha. destruct (fields64 a Ha) as (E & Hs & He & Hf & _). unfold f64_mag, mag_val.
  change (53 - 1) with 52.
  assert (Em : bits64 a mod 2 ^ 63 = extractFloat64Exp a * 2 ^ 52 + f64_frac a).
  { symmetry. apply (Z.mod_unique _ _ (f64_sign a)); [left; lia | lia]. }
  rewrite Em, Z.div_add_l, (Z.div_small (f64_frac a)), Z.add_0_r by lia.
  rewrite Z.add_comm, Z.mod_add, Z.mod_small by lia. reflexivity.
Qed.

Lemma f64_mag_nonneg a : f64_word a -> 0 <= f64_mag a.
Proof.
  intros Ha. rewrite f64_mag_fields by assumption. destruct (fields64 a Ha) as (_ & _ & He & Hf & _).
  destruct (Z.eqb_spec (extractFloat64Exp a) 0); [lia|]. nonneg.
Qed.

(** Significand and effective exponent. *)
Definition sig64 (a : float64) : Z :=
  if extractFloat64Exp a =? 0 then f64_frac a else f64_frac a + 2 ^ 52.
Definition eexp64 (a : float64) : Z := Z.max 1 (extractFloat64Exp a).

(** The high word of the significand, as the code computes it. *)
Definition sig64_high (a : float64) : Z :=
  if extractFloat64Exp a =? 0 then extractFloat64Frac0 a else extractFloat64Frac0 a ||| 2 ^ 20.

Lemma sig64_words a : f64_word a ->
  val64 (sig64_high a, extractFloat64Frac1 a) = sig64 a /\ 0 <= sig64_high a < 2 ^ 21 /\
  0 <= sig64 a < 2 ^ 53.
Proof.
  intros Ha. destruct (fields64 a Ha) as (_ & _ & He & Hf & H0 & H1).
  unfold sig64, sig64_high, f64_frac, val64 in *. cbn [fst snd] in *.
  destruct (extractFloat64Exp a =? 0); [|rewrite lor_bit by lia]; lia.
Qed.

Lemma f64_mag_sig a : f64_word a -> f64_mag a = sig64 a * 2 ^ (eexp64 a - 1).
Proof.
  intros Ha. rewrite f64_mag_fields by assumption. unfold sig64, eexp64.
  destruct (fields64 a Ha) as (_ & _ & He & _). destruct (Z.eqb_spec (extractFloat64Exp a) 0) as [->|].
  - change (2 ^ (Z.max 1 0 - 1)) with 1. lia.
  - now rewrite Z.max_r by lia.
Qed.

Lemma larger64 a : 0 < extractFloat64Exp a ->
  eexp64 a = extractFloat64Exp a /\ sig64 a = f64_frac a + 2 ^ 52.
Proof.
  intros. unfold eexp64, sig64. destruct (Z.eqb_spec (extractFloat64Exp a) 0); lia.
Qed.

(** The alignment of the operand with the smaller exponent. *)
Lemma smaller64 b E (x y : Z) : f64_word b -> extractFloat64Exp b < E <= 0x7FE ->
  let d := E - eexp64 b in
  0 <= d <= E - 1 /\ (d = 0 -> sig64 b < 2 ^ 52) /\ eexp64 b - 1 = E - 1 - d /\
  (if extractFloat64Exp b =? 0 then (s16 (E - extractFloat64Exp b - 1), x)
   else (E - extractFloat64Exp b, y)) = (d, if extractFloat64Exp b =? 0 then x else y) /\
  (if extractFloat64Exp b =? 0 then (s16 (extractFloat64Exp b - E + 1), x)
   else (extractFloat64Exp b - E, y)) = (- d, if extractFloat64Exp b =? 0 then x else y).
Proof.
  intros Hb HE d. destruct (fields64 b Hb) as (_ & _ & He & Hf & _).
  unfold d, eexp64, sig64 in *. repeat split; try lia.
  - destruct (Z.eqb_spec (extractFloat64Exp b) 0); lia.
  - destruct (Z.eqb_spec (extractFloat64Exp b) 0); rewrite ?s16_small by lia; f_equal; lia.
  - destruct (Z.eqb_spec (extractFloat64Exp b) 0); rewrite ?s16_small by lia; f_equal; lia.
Qed.

(** Exact small integers: no rounding, no flags. *)
Lemma rounded64_exact st zSign b : 0 <= b < 2047 * 2 ^ 52 ->
  rounded64 st zSign (mag_val64 b) 1 = Some (of_bits64 (zSign * 2 ^ 63 + b), st).
Proof.
  intros Hb. destruct (ref_exact 53 ltac:(lia) (float_rounding_mode st) (truthy zSign) b) as [E1 E2]; [lia|].
  rewrite rounded64_finite by (rewrite E1; lia). rewrite E1, E2, andb_false_r. cbn [Z.lor].
  now rewrite raised_0.
Qed.

Lemma mag_val64_small n : 0 <= n < 2 ^ 53 -> mag_val64 n = n.
Proof.
  intros Hn. pose proof (mag_val_enc 53 ltac:(lia) 0 n ltac:(lia) ltac:(lia) ltac:(lia)) as E.
  rewrite Z.mul_0_l, Z.add_0_l, Z.mul_1_r in E. exact E.
Qed.

(** ** Addition of magnitudes *)

(** A significand with one bit too many. *)
Lemma shiftRight1_ref st zSign E z0 z1 z2 N D A B :
  fp_ok st -> is_flag zSign -> words96 (z0, z1, z2) -> 2 ^ 21 <= z0 < 2 ^ 22 ->
  - 2 ^ 14 < E < 2 ^ 14 -> 0 < D -> 0 < B -> 0 <= A ->
  sticky (2 ^ 31) (val96 (z0, z1, z2)) N D -> scaled N D (E - 33) A B ->
  addFloat64Sigs_shiftRight1 zSign E z0 z1 z2 st = rounded64 st zSign A B.
Proof.
  intros Hst Hs Hw Hz HE HD HB HA Hstk Hsc. unfold addFloat64Sigs_shiftRight1.
  pose proof (shift64Extra_sticky z0 z1 z2 1 Hw ltac:(lia)) as HJ.
  pose proof (shift64Extra_words z0 z1 z2 1 Hw ltac:(lia)) as HW.
  assert (Hy : exists y1 y2, shift64ExtraRightJamming z0 z1 z2 1 = (z0 / 2, y1, y2)).
  { unfold shift64ExtraRightJamming. change (1 =? 0) with false. change (1 <? 32) with true. cbn iota.
    rewrite shiftr_1. eauto. }
  destruct Hy as (y1 & y2 & Ey). rewrite Ey in *.
  apply (roundAndPackFloat64_ref st zSign E (z0 / 2) y1 y2 N (D * 2 ^ 1)); try assumption; try lia.
  - split; [apply Z.div_le_lower_bound | apply Z.div_lt_upper_bound]; lia.
  - apply (sticky_trans (2 ^ 31) (2 ^ 31) (2 ^ 1) _ (val96 (z0, z1, z2))); try assumption. lia.
  - replace (E - 32) with (E - 33 + 1) by lia. apply scaled_den; lia || assumption.
Qed.

Lemma addFloat64Sigs_tail_ref st zSign x0 x1 y0 y1 z2 E N D A B :
  fp_ok st -> is_flag zSign -> 0 <= x0 < 2 ^ 20 -> is_u 32 x1 -> 0 <= y0 < 2 ^ 20 -> is_u 32 y1 ->
  is_u 32 z2 -> 1 <= E <= 0x7FE -> 0 < D -> 0 < B -> 0 <= A ->
  sticky (2 ^ 31) ((x0 * 2 ^ 32 + x1 + 2 ^ 52 + (y0 * 2 ^ 32 + y1)) * 2 ^ 32 + z2) N D ->
  scaled N D (E - 33) A B ->
  addFloat64Sigs_tail x0 x1 y0 y1 z2 E zSign st = rounded64 st zSign A B.
Proof.
  intros Hst Hs Hx0 Hx1 Hy0 Hy1 Hz2 HE HD HB HA Hstk Hsc. unfold addFloat64Sigs_tail.
  change 0x00100000 with (2 ^ 20). change 0x00200000 with (2 ^ 21). rewrite lor_bit by lia.
  destruct (add64_val (x0 + 2 ^ 20) x1 y0 y1) as [[W0 W1] V];
    [split; cbn; unfold is_u in *; lia | split; cbn; unfold is_u in *; lia|].
  destruct (add64 (x0 + 2 ^ 20) x1 y0 y1) as [z0 z1]. unfold val64 in V. cbn [fst snd] in *.
  unfold is_u in Hx1, Hy1. rewrite Z.mod_small in V by lia. pose proof W1 as W1'. unfold is_u in W1'.
  assert (EV : val96 (z0, z1, z2) = (x0 * 2 ^ 32 + x1 + 2 ^ 52 + (y0 * 2 ^ 32 + y1)) * 2 ^ 32 + z2)
    by (unfold val96; lia). rewrite <- EV in Hstk.
  rewrite !(s16_small (E - 1)) by lia. replace (E - 1 + 1) with E by lia. rewrite s16_small by lia.
  destruct (Z.ltb_spec z0 (2 ^ 21)).
  - apply (roundAndPackFloat64_ref st zSign (E - 1) z0 z1 z2 N D); try assumption; try easy; try lia.
    now replace (E - 1 - 32) with (E - 33) by lia.
  - apply (shiftRight1_ref st zSign E z0 z1 z2 N D); try assumption; try easy; lia.
Qed.

(** The larger operand has fraction [f] and exponent [E]; the smaller one's significand [s] is
    [d] places to the right. *)
Lemma add_aligned64 st zSign f s s0 s1 E d x0 x1 y0 y1 z2 :
  fp_ok st -> is_flag zSign -> 0 <= f < 2 ^ 52 -> val64 (s0, s1) = s -> words64 (s0, s1) ->
  0 <= s < 2 ^ 53 -> 1 <= E <= 0x7FE -> 0 <= d <= E - 1 -> (d = 0 -> s < 2 ^ 52) ->
  is_u 32 x1 -> is_u 32 y1 ->
  (x0 * 2 ^ 32 + x1 = f /\ (y0, y1, z2) = shift64ExtraRightJamming s0 s1 0 d) \/
  (y0 * 2 ^ 32 + y1 = f /\ (x0, x1, z2) = shift64ExtraRightJamming s0 s1 0 d) ->
  addFloat64Sigs_tail x0 x1 y0 y1 z2 E zSign st
  = rounded64 st zSign ((f + 2 ^ 52) * 2 ^ (E - 1) + s * 2 ^ (E - 1 - d)) 1.
Proof.
  intros Hst Hs Hf Hv [Hs0 Hs1] Hsr HE Hd Hd0 Hx1 Hy1 Hxy. cbn [fst snd] in *.
  pose proof (pow2_pos d ltac:(lia)) as HD.
  assert (Hw : words96 (s0, s1, 0)) by (split; [|split]; auto with cint).
  pose proof (shift64Extra_sticky s0 s1 0 d Hw ltac:(lia)) as HJ.
  pose proof (shift64Extra_words s0 s1 0 d Hw ltac:(lia)) as HW.
  replace (s0 * 2 ^ 64 + s1 * 2 ^ 32 + 0) with (s * 2 ^ 32) in HJ by (rewrite <- Hv; unfold val64; cbn; lia).
  destruct (shift64ExtraRightJamming s0 s1 0 d) as [[w0 w1] w2]. destruct HW as (W0 & W1 & W2).
  assert (Hw0 : w0 < 2 ^ 20).
  { pose proof (sticky_compare _ _ _ _ (2 ^ 53) HJ) as C.
    assert (s < 2 ^ 52 * 2 ^ d).
    { destruct (Z.eq_dec d 0) as [->|]; [specialize (Hd0 eq_refl); change (2 ^ 0) with 1; lia|].
      pose proof (pow2_le 1 d ltac:(lia) ltac:(lia)). nia. }
    assert (Hlt : val96 (w0, w1, w2) < 2 ^ 31 * 2 ^ 53) by (apply C; nia).
    unfold val96, is_u in *. lia. }
  apply (sticky_add _ _ _ _ (2 * (f + 2 ^ 52))) in HJ.
  pose proof (align_scaled 32 (f + 2 ^ 52) s E d 1 Hd ltac:(lia) ltac:(lia)) as Hsc.
  rewrite !Z.mul_1_l in Hsc.
  assert (HA : 0 <= (f + 2 ^ 52) * 2 ^ (E - 1) + s * 2 ^ (E - 1 - d)) by nonneg.
  unfold is_u in Hx1, Hy1, W0.
  assert (X : x0 * 2 ^ 32 + x1 + (y0 * 2 ^ 32 + y1) = f + (w0 * 2 ^ 32 + w1) /\ z2 = w2 /\
    0 <= x0 < 2 ^ 20 /\ 0 <= y0 < 2 ^ 20).
  { destruct Hxy as [[Ef Eq] | [Ef Eq]]; injection Eq as -> -> ->; lia. }
  destruct X as (EX & -> & X0 & Y0).
  apply addFloat64Sigs_tail_ref with
    (N := s * 2 ^ 32 + 2 ^ 31 * (2 * (f + 2 ^ 52)) * 2 ^ d) (D := 2 ^ d); try assumption; try lia.
  - replace ((x0 * 2 ^ 32 + x1 + 2 ^ 52 + (y0 * 2 ^ 32 + y1)) * 2 ^ 32 + w2)
      with (val96 (w0, w1, w2) + 2 ^ 31 * (2 * (f + 2 ^ 52))) by (unfold val96; lia). exact HJ.
  - replace (s * 2 ^ 32 + 2 ^ 31 * (2 * (f + 2 ^ 52)) * 2 ^ d)
      with ((f + 2 ^ 52) * 2 ^ 32 * 2 ^ d + s * 2 ^ 32) by ring.
    now replace (E - 33) with (E - 1 - 32) by lia.
Qed.

(** Equal exponents. *)
Lemma add_equal_exp64 st a b zSign :
  fp_ok st -> is_flag zSign -> f64_finite a -> f64_finite b -> extractFloat64Exp b = extractFloat64Exp a ->
  (if extractFloat64Exp a =? 0x7FF then
     (if truthy (extractFloat64Frac0 a ||| extractFloat64Frac1 a
                 ||| extractFloat64Frac0 b ||| extractFloat64Frac1 b)
      then propagateFloat64NaN a b else ret a)
   else
     let '(zSig0, zSig1) :=
       add64 (extractFloat64Frac0 a) (extractFloat64Frac1 a)
             (extractFloat64Frac0 b) (extractFloat64Frac1 b) in
     if extractFloat64Exp a =? 0 then ret (packFloat64 zSign 0 zSig0 zSig1)
     else addFloat64Sigs_shiftRight1 zSign (extractFloat64Exp a) (zSig0 ||| 0x00200000) zSig1 0) st
  = rounded64 st zSign (sig64 a * 2 ^ (eexp64 a - 1) + sig64 b * 2 ^ (eexp64 b - 1)) 1.
Proof.
  intros Hst Hs [Ha Ea] [Hb _] Ee.
  destruct (fields64 a Ha) as (_ & _ & Hea & Hfa & Ha0 & Ha1).
  destruct (fields64 b Hb) as (_ & _ & Heb & Hfb & Hb0 & Hb1).
  rewrite (proj2 (Z.eqb_neq _ 0x7FF)) by lia. unfold sig64, eexp64. rewrite Ee.
  destruct (add64_val (extractFloat64Frac0 a) (extractFloat64Frac1 a)
    (extractFloat64Frac0 b) (extractFloat64Frac1 b)) as [[W0 W1] V];
    [split; cbn; unfold is_u in *; lia | split; cbn; unfold is_u in *; lia|].
  fold (f64_frac a) (f64_frac b) in V.
  destruct (add64 _ _ _ _) as [z0 z1]. rewrite Z.mod_small in V by lia.
  pose proof W1 as W1'. unfold val64, is_u in V, W0, W1'. cbn [fst snd] in *.
  destruct (Z.eqb_spec (extractFloat64Exp a) 0) as [E0|E0].
  - rewrite E0. change (2 ^ (Z.max 1 0 - 1)) with 1. rewrite !Z.mul_1_r. unfold ret.
    rewrite packFloat64_eq by (assumption || lia). unfold val64. cbn [fst snd]. rewrite V.
    rewrite <- (mag_val64_small (f64_frac a + f64_frac b)) at 2 by lia.
    now rewrite rounded64_exact by lia.
  - change 0x00200000 with (2 ^ 21). rewrite lor_bit by lia.
    apply (shiftRight1_ref _ _ _ _ _ _ ((f64_frac a + f64_frac b + 2 ^ 53) * 2 ^ 32) 1);
      try assumption; try lia.
    + split; [unfold is_u; lia | split; [assumption | apply zero_word; lia]].
    + apply sticky_exact; unfold val96; lia.
    + apply (scaled_intro _ _ _ _ _ 32); [lia | lia |]. rewrite Z.max_r by lia.
      replace (extractFloat64Exp a - 33 + 32) with (extractFloat64Exp a - 1) by lia. ring.
Qed.

(** Sum of two finite operands taken with the same sign. *)
Lemma addFloat64Sigs_ref st a b zSign :
  fp_ok st -> is_flag zSign -> f64_finite a -> f64_finite b ->
  addFloat64Sigs a b zSign st = rounded64 st zSign (f64_mag a + f64_mag b) 1.
Proof.
  intros Hst Hs [Ha Ea] [Hb Eb].
  destruct (fields64 a Ha) as (_ & _ & Hea & Hfa & Ha0 & Ha1).
  destruct (fields64 b Hb) as (_ & _ & Heb & Hfb & Hb0 & Hb1).
  destruct (sig64_words a Ha) as (Va & Wa & Ra). destruct (sig64_words b Hb) as (Vb & Wb & Rb).
  rewrite !f64_mag_sig by assumption. unfold addFloat64Sigs.
  change 0x00100000 with (2 ^ 20). rewrite s16_small by lia.
  destruct (Z.ltb_spec 0 (extractFloat64Exp a - extractFloat64Exp b)) as [Hd|Hd].
  { destruct (Z.eqb_spec (extractFloat64Exp a) 0x7FF); [lia|].
    destruct (larger64 a ltac:(lia)) as [-> ->].
    destruct (smaller64 b (extractFloat64Exp a) (extractFloat64Frac0 b) (extractFloat64Frac0 b ||| 2 ^ 20)
      Hb ltac:(lia)) as (D1 & D2 & -> & -> & _). fold (sig64_high b).
    destruct (shift64ExtraRightJamming _ _ _ _) as [[w0 w1] w2] eqn:Ew.
    eapply add_aligned64; try eassumption; try lia.
    - split; cbn; [unfold is_u; lia | assumption].
    - pose proof (shift64Extra_words (sig64_high b) (extractFloat64Frac1 b) 0
        (extractFloat64Exp a - eexp64 b)) as W. rewrite Ew in W. apply W; [|lia].
      split; [unfold is_u; lia | split; [assumption | apply zero_word; lia]].
    - left. split; [reflexivity | now rewrite Ew]. }
  destruct (Z.ltb_spec (extractFloat64Exp a - extractFloat64Exp b) 0) as [Hd'|Hd'].
  { destruct (Z.eqb_spec (extractFloat64Exp b) 0x7FF); [lia|].
    destruct (larger64 b ltac:(lia)) as [-> ->].
    destruct (smaller64 a (extractFloat64Exp b) (extractFloat64Frac0 a) (extractFloat64Frac0 a ||| 2 ^ 20)
      Ha ltac:(lia)) as (D1 & D2 & -> & _ & ->). fold (sig64_high a).
    rewrite s16_small, Z.opp_involutive, (Z.add_comm (sig64 a * _)) by lia.
    destruct (shift64ExtraRightJamming _ _ _ _) as [[w0 w1] w2] eqn:Ew.
    eapply add_aligned64; try eassumption; try lia.
    - split; cbn; [unfold is_u; lia | assumption].
    - pose proof (shift64Extra_words (sig64_high a) (extractFloat64Frac1 a) 0
        (extractFloat64Exp b - eexp64 a)) as W. rewrite Ew in W. apply W; [|lia].
      split; [unfold is_u; lia | split; [assumption | apply zero_word; lia]].
    - right. split; [reflexivity | now rewrite Ew]. }
  apply add_equal_exp64; first [assumption | split; assumption | lia].
Qed.

(** ** Normalisation before rounding *)

(** Shifting the leading bit of the high word to bit 20. *)
Lemma normalize_words st zSign zExp z0 z1 N D A B :
  fp_ok st -> is_flag zSign -> words64 (z0, z1) -> 0 < z0 ->
  - 2 ^ 13 < zExp < 2 ^ 13 -> 0 < D -> 0 < B -> 0 <= A ->
  N = val64 (z0, z1) * D \/ (2 ^ 23 <= z0 /\ sticky 2 (val64 (z0, z1)) N D) ->
  scaled N D zExp A B ->
  (let shiftCount := s8 (countLeadingZeros32 z0 - 11) in
   let '(zSig0, zSig1, zSig2) :=
     if 0 <=? shiftCount then
       let '(zSig0, zSig1) := shortShift64Left z0 z1 shiftCount in (zSig0, zSig1, 0)
     else shift64ExtraRightJamming z0 z1 0 (- shiftCount) in
   roundAndPackFloat64 zSign (s16 (zExp - shiftCount)) zSig0 zSig1 zSig2) st
  = rounded64 st zSign A B.
Proof.
  intros Hst Hs [W0 W1] Hz He HD HB HA Hex Hsc. cbn [fst snd] in *. cbv zeta.
  pose proof W0 as W0'. pose proof W1 as W1'. unfold is_u in W0', W1'.
  rewrite countLeadingZeros32_log2 by lia. set (V := val64 (z0, z1)) in *.
  assert (EV : V = z0 * 2 ^ 32 + z1) by reflexivity.
  pose proof (Z.log2_spec z0 ltac:(lia)) as [Hl Hh]. pose proof (Z.log2_nonneg z0) as Hl0.
  assert (Hl32 : Z.log2 z0 < 32) by (apply Z.log2_lt_pow2; lia).
  assert (Hlb : 2 ^ 23 <= z0 -> 23 <= Z.log2 z0) by (intros; apply Z.log2_le_pow2; lia).
  set (l := Z.log2 z0) in *. clearbody l. replace (Z.succ l) with (l + 1) in Hh by lia.
  rewrite s8_small, s16_small by lia. destruct (Z.leb_spec 0 (31 - l - 11)) as [Hc|Hc].
  - set (c := 31 - l - 11) in *. pose proof (pow2_pos c Hc) as Pc.
    assert (Hn : 2 ^ 20 <= z0 * 2 ^ c /\ (z0 + 1) * 2 ^ c <= 2 ^ 21).
    { replace (2 ^ 21) with (2 ^ (l + 1) * 2 ^ c) by (rewrite <- Z.pow_add_r by lia; f_equal; lia).
      replace (2 ^ 20) with (2 ^ l * 2 ^ c) by (rewrite <- Z.pow_add_r by lia; f_equal; lia). nia. }
    destruct (shortShift64Left_val z0 z1 c) as [[Y0 Y1] EY]; [easy | lia | unfold val64; cbn; nia|].
    destruct (shortShift64Left z0 z1 c) as [y0 y1]. unfold val64 in EY. cbn [fst snd] in *.
    pose proof Y1 as Y1'. unfold is_u in Y0, Y1'.
    destruct Hex as [HN | [Hb _]]; [|exfalso; specialize (Hlb Hb); lia].
    apply (roundAndPackFloat64_ref st zSign (zExp - c) y0 y1 0 (N * 2 ^ (c + 32)) D); try assumption; try lia.
    + split; [unfold is_u; lia | split; [assumption | apply zero_word; lia]].
    + nia.
    + apply sticky_exact; [assumption|]. rewrite HN. unfold val96. rewrite Z.pow_add_r by lia. nia.
    + apply scaled_unshift; [lia|]. now replace (zExp - c - 32 + (c + 32)) with zExp by lia.
  - set (c := - (31 - l - 11)) in *. assert (Hc' : 1 <= c <= 11) by lia.
    pose proof (pow2_pos c ltac:(lia)) as Pc.
    assert (Hw : words96 (z0, z1, 0)) by (split; [|split]; auto with cint).
    pose proof (shift64Extra_sticky z0 z1 0 c Hw ltac:(lia)) as HJ.
    pose proof (shift64Extra_words z0 z1 0 c Hw ltac:(lia)) as HW.
    assert (Hy : exists y1 y2, shift64ExtraRightJamming z0 z1 0 c = (z0 / 2 ^ c, y1, y2)).
    { unfold shift64ExtraRightJamming. rewrite (proj2 (Z.eqb_neq c 0)), (proj2 (Z.ltb_lt c 32)) by lia.
      rewrite !shr_div by lia. eauto. }
    destruct Hy as (y1 & y2 & Ey). rewrite Ey in *.
    replace (z0 * 2 ^ 64 + z1 * 2 ^ 32 + 0) with (2 ^ 32 * V) in HJ by lia.
    assert (Hn : 2 ^ 20 <= z0 / 2 ^ c < 2 ^ 21).
    { split; [apply Z.div_le_lower_bound | apply Z.div_lt_upper_bound]; try lia;
        rewrite <- Z.pow_add_r by lia; [replace (c + 20) with l by lia | replace (c + 21) with (l + 1) by lia]; lia. }
    apply (roundAndPackFloat64_ref st zSign (zExp - (31 - l - 11)) (z0 / 2 ^ c) y1 y2 (2 ^ 32 * N) (D * 2 ^ c));
      try assumption; try lia.
    + destruct Hex as [HN | [Hb Hstk]].
      * apply (sticky_trans (2 ^ 31) (2 ^ 31) (2 ^ c) _ (2 ^ 32 * V)); try assumption; try lia.
        apply sticky_exact; lia.
      * specialize (Hlb Hb). apply (sticky_trans (2 ^ 32 * 2) (2 ^ 31) (2 ^ (c - 2)) _ (2 ^ 32 * V)); try assumption.
        -- replace c with (2 + (c - 2)) at 1 by lia. rewrite Z.pow_add_r by lia. ring.
        -- apply sticky_scale; [lia | assumption].
    + replace (zExp - (31 - l - 11) - 32) with (zExp - 32 + c) by lia.
      apply scaled_den; [lia | assumption|]. rewrite Z.mul_comm. apply scaled_unshift; [lia|].
      now replace (zExp - 32 + 32) with zExp by lia.
Qed.

Lemma normalizeRoundAndPackFloat64_ref st zSign zExp z0 z1 N D A B :
  fp_ok st -> is_flag zSign -> words64 (z0, z1) -> 0 < val64 (z0, z1) ->
  - 2 ^ 12 < zExp < 2 ^ 12 -> 0 < D -> 0 < B -> 0 <= A ->
  N = val64 (z0, z1) * D \/ (2 ^ 61 <= val64 (z0, z1) /\ sticky 2 (val64 (z0, z1)) N D) ->
  scaled N D zExp A B ->
  normalizeRoundAndPackFloat64 zSign zExp z0 z1 st = rounded64 st zSign A B.
Proof.
  intros Hst Hs [W0 W1] Hz He HD HB HA Hex Hsc. cbn [fst snd] in *. unfold normalizeRoundAndPackFloat64.
  unfold val64, is_u in *. cbn [fst snd] in *.
  destruct (Z.eqb_spec z0 0) as [->|H0].
  - rewrite (s16_small (zExp - 32)) by lia.
    apply (normalize_words st zSign (zExp - 32) z1 0 (N * 2 ^ 32) D); try assumption; try lia.
    + split; cbn; [unfold is_u; lia | apply zero_word; lia].
    + left. unfold val64. cbn [fst snd]. destruct Hex as [-> | [Hb _]]; lia.
    + apply scaled_unshift; [lia|]. now replace (zExp - 32 + 32) with zExp by lia.
  - apply (normalize_words st zSign zExp z0 z1 N D); try assumption; try lia.
    + split; assumption.
    + destruct Hex as [|[Hb Hstk]]; [now left | right]. split; [lia | exact Hstk].
Qed.

(** ** Numbers from their bit patterns *)

Lemma of_bits64_spec b : 0 <= b < 2 ^ 64 -> f64_word (of_bits64 b) /\ bits64 (of_bits64 b) = b.
Proof.
  intros Hb. unfold f64_word, words64, bits64, val64, of_bits64, is_u. cbn [high low fst snd]. repeat split; dlia.
Qed.

Lemma sign_of_bits z s x : f64_word z -> bits64 z = s * 2 ^ 63 + x -> 0 <= x < 2 ^ 63 ->
  f64_sign z = s /\ f64_mag z = mag_val64 x.
Proof.
  intros [_ Hl] E Hx. unfold f64_mag.
  assert (Em : bits64 z mod 2 ^ 63 = x) by (rewrite E, Z.add_comm, Z.mod_add, Z.mod_small; lia).
  rewrite Em. split; [|reflexivity]. unfold f64_sign, bits64, val64, is_u in *. cbn [fst snd] in *. dlia.
Qed.
