(* ===== verification/Float64Sum.v ===== *)
(** * Double-precision subtraction of magnitudes, and the sum of signed operands *)

From S2P Require Import Prelude.
From S2P Require Import CInt.
From S2P Require Import FPState.
From S2P Require Import Rounding.
From S2P Require Import SoftFloatPrim.
From S2P Require Import Float32.
From S2P Require Import Float64.
From S2P Require Import Float32Round.
From S2P Require Import Float32Arith.
From S2P Require Import Float32MulDiv.
From S2P Require Import Float64Round.
From S2P Require Import Float64Arith.

(** The exact sum of signed values: rounded, or a zero of the given sign. *)
Definition sum64 (st : fpstate) (zeroSign v : Z) : option (float64 * fpstate) :=
  if v =? 0 then Some (of_bits64 (zeroSign * 2 ^ 63), st)
  else rounded64 st (b2z (v <? 0)) (Z.abs v) 1.

(** ** Subtraction *)

Definition f64_shifted (a : float64) : Z * Z :=
  shortShift64Left (extractFloat64Frac0 a) (extractFloat64Frac1 a) 10.

(** The significand shifted by ten places, with its implicit bit. *)
Lemma f64_shifted_val a : f64_word a ->
  words64 (f64_shifted a) /\ val64 (f64_shifted a) = f64_frac a * 2 ^ 10 /\
  fst (f64_shifted a) < 2 ^ 30 /\
  val64 (if extractFloat64Exp a =? 0 then fst (f64_shifted a) else fst (f64_shifted a) ||| 0x40000000,
         snd (f64_shifted a)) = sig64 a * 2 ^ 10 /\
  is_u 32 (if extractFloat64Exp a =? 0 then fst (f64_shifted a) else fst (f64_shifted a) ||| 0x40000000).
Proof.
  intros Ha. destruct (fields64 a Ha) as (_ & _ & He & Hf & H0 & H1).
  destruct (shortShift64Left_val (extractFloat64Frac0 a) (extractFloat64Frac1 a) 10) as [[W0 W1] V];
    [split; cbn; unfold is_u in *; lia | lia | fold (f64_frac a); lia|].
  fold (f64_shifted a) (f64_frac a) in *. destruct (f64_shifted a) as [x0 x1]. unfold val64 in *.
  cbn [fst snd] in *. unfold is_u in W0, W1. assert (Hx : x0 < 2 ^ 30) by lia.
  split; [split; unfold is_u; cbn; lia|]. split; [exact V|]. split; [exact Hx|].
  unfold sig64. change 0x40000000 with (2 ^ 30).
  destruct (Z.eqb_spec (extractFloat64Exp a) 0); [|rewrite lor_bit by lia]; unfold is_u; lia.
Qed.

(** The larger operand minus the aligned smaller one. *)
Lemma sub_aligned64 st zSign f s x0 x1 y0 y1 E d :
  fp_ok st -> is_flag zSign -> 0 <= f < 2 ^ 52 -> 0 <= s < 2 ^ 53 -> 1 <= E <= 0x7FE ->
  0 <= d <= E - 1 -> (d = 0 -> s < 2 ^ 52) ->
  words64 (x0, x1) -> x0 < 2 ^ 30 -> val64 (x0, x1) = f * 2 ^ 10 ->
  words64 (y0, y1) -> val64 (y0, y1) = jam (s * 2 ^ 10) (2 ^ d) ->
  (let '(zSig0, zSig1) := sub64 (x0 ||| 0x40000000) x1 y0 y1 in
   normalizeRoundAndPackFloat64 zSign (s16 (s16 (E - 1) - 10)) zSig0 zSig1) st
  = rounded64 st zSign ((f + 2 ^ 52) * 2 ^ (E - 1) - s * 2 ^ (E - 1 - d)) 1.
Proof.
  intros Hst Hs Hf Hsg HE Hd Hd0 [Wx0 Wx1] Hx0 Vx Wy Vy. cbn [fst snd] in *.
  change 0x40000000 with (2 ^ 30). pose proof Wx0 as Wx0'. unfold is_u in Wx0'. rewrite lor_bit by lia.
  pose proof (pow2_pos d ltac:(lia)) as HD.
  assert (Hj : 0 <= jam (s * 2 ^ 10) (2 ^ d) < 2 ^ 62 /\
    (d <= 1 \/ 2 <= d /\ jam (s * 2 ^ 10) (2 ^ d) < 2 ^ 61)).
  { destruct (Z.le_gt_cases d 1).
    - rewrite jam_exact by lia. assert (C : d = 0 \/ d = 1) by lia. destruct C as [-> | ->].
      + specialize (Hd0 eq_refl). change (2 ^ (10 - 0)) with (2 ^ 10). lia.
      + change (2 ^ (10 - 1)) with (2 ^ 9). lia.
    - enough (0 <= jam (s * 2 ^ 10) (2 ^ d) < 2 ^ 61) by lia. apply jam_range; try lia.
      pose proof (pow2_le 63 (61 + d) ltac:(lia) ltac:(lia)). lia. }
  assert (Vx' : val64 (x0 + 2 ^ 30, x1) = (f + 2 ^ 52) * 2 ^ 10) by (unfold val64 in *; cbn [fst snd] in *; lia).
  destruct (sub64_val (x0 + 2 ^ 30) x1 y0 y1) as [Ws Vs];
    [split; [cbn; unfold is_u; lia | assumption] | assumption|].
  destruct (sub64 (x0 + 2 ^ 30) x1 y0 y1) as [z0 z1]. rewrite Vx', Vy, Z.mod_small in Vs by lia.
  rewrite (s16_small (E - 1)), s16_small by lia.
  pose proof (align_scaled 10 (f + 2 ^ 52) s E d (-1) Hd ltac:(lia) ltac:(lia)) as Hsc.
  assert (HA : 0 <= (f + 2 ^ 52) * 2 ^ (E - 1) - s * 2 ^ (E - 1 - d)).
  { replace (2 ^ (E - 1)) with (2 ^ (E - 1 - d) * 2 ^ d) by (rewrite <- Z.pow_add_r by lia; f_equal; lia).
    pose proof (pow2_pos (E - 1 - d) ltac:(lia)).
    assert (s <= (f + 2 ^ 52) * 2 ^ d).
    { destruct (Z.eq_dec d 0) as [->|]; [specialize (Hd0 eq_refl); change (2 ^ 0) with 1; lia|].
      pose proof (pow2_le 1 d ltac:(lia) ltac:(lia)). nia. }
    nia. }
  apply normalizeRoundAndPackFloat64_ref with
    (N := (f + 2 ^ 52) * 2 ^ 10 * 2 ^ d + -1 * (s * 2 ^ 10)) (D := 2 ^ d); try assumption; try lia.
  rewrite Vs. destruct (Z.le_gt_cases d 1) as [Hd1|Hd1].
  - left. rewrite jam_exact by lia.
    replace 10 with (10 - d + d) at 2 by lia. rewrite (Z.pow_add_r 2 (10 - d) d) by lia. ring.
  - right. split; [lia|].
    replace ((f + 2 ^ 52) * 2 ^ 10) with (2 * ((f + 2 ^ 52) * 2 ^ 9)) by lia.
    replace (2 * ((f + 2 ^ 52) * 2 ^ 9) * 2 ^ d + -1 * (s * 2 ^ 10))
      with (2 * ((f + 2 ^ 52) * 2 ^ 9) * 2 ^ d - s * 2 ^ 10) by lia.
    apply sticky_rsub. now apply sticky_jam.
Qed.

Lemma aligned_pos64 f s E d : 0 <= f -> 0 <= s < 2 ^ 53 -> 0 <= d <= E - 1 -> (d = 0 -> s < 2 ^ 52) ->
  s * 2 ^ (E - 1 - d) < (f + 2 ^ 52) * 2 ^ (E - 1).
Proof.
  intros Hf Hs Hd Hd0.
  replace (2 ^ (E - 1)) with (2 ^ (E - 1 - d) * 2 ^ d) by (rewrite <- Z.pow_add_r by lia; f_equal; lia).
  pose proof (pow2_pos (E - 1 - d) ltac:(lia)).
  assert (s < (f + 2 ^ 52) * 2 ^ d).
  { destruct (Z.eq_dec d 0) as [->|]; [specialize (Hd0 eq_refl); change (2 ^ 0) with 1; lia|].
    pose proof (pow2_le 1 d ltac:(lia) ltac:(lia)). nia. }
  nia.
Qed.

(** The equal-exponent case. *)
Lemma sub_equal_exp64 st zSign E f1 f2 x0 x1 y0 y1 :
  fp_ok st -> is_flag zSign -> 1 <= E <= 0x7FE -> 0 <= f1 < 2 ^ 52 -> 0 <= f2 < f1 ->
  words64 (x0, x1) -> val64 (x0, x1) = f1 * 2 ^ 10 -> words64 (y0, y1) -> val64 (y0, y1) = f2 * 2 ^ 10 ->
  (let '(zSig0, zSig1) := sub64 x0 x1 y0 y1 in
   normalizeRoundAndPackFloat64 zSign (s16 (s16 (E - 1) - 10)) zSig0 zSig1) st
  = rounded64 st zSign (f1 * 2 ^ (E - 1) - f2 * 2 ^ (E - 1)) 1.
Proof.
  intros Hst Hs HE H1 H2 Wx Vx Wy Vy. pose proof (pow2_pos (E - 1) ltac:(lia)).
  destruct (sub64_val x0 x1 y0 y1 Wx Wy) as [Ws Vs]. destruct (sub64 x0 x1 y0 y1) as [z0 z1].
  rewrite Vx, Vy, Z.mod_small in Vs by lia. rewrite (s16_small (E - 1)), s16_small by lia.
  apply normalizeRoundAndPackFloat64_ref with (N := f1 * 2 ^ 10 - f2 * 2 ^ 10) (D := 1);
    try assumption; try lia.
  - nia.
  - apply (scaled_intro _ _ _ _ _ 10); [lia | lia |].
    replace (E - 1 - 10 + 10) with (E - 1) by lia. ring.
Qed.

(** A positive difference, with the sign it is given. *)
Lemma sum64_pos st zSign v : is_flag zSign -> 0 < v ->
  sum64 st (down_sign st) ((1 - 2 * zSign) * v) = rounded64 st zSign v 1 /\
  sum64 st (down_sign st) ((1 - 2 * zSign) * - v) = rounded64 st (1 - zSign) v 1.
Proof.
  intros Hs Hv. unfold sum64. destruct Hs as [-> | ->]; split; repeat ztest; try lia; cbn [b2z].
  all: match goal with |- context [Z.abs ?x] => replace (Z.abs x) with v by lia end; reflexivity.
Qed.

Lemma shift64RightJamming_words a0 a1 c : words64 (a0, a1) -> 0 <= c ->
  words64 (shift64RightJamming a0 a1 c).
Proof.
  intros [H0 H1] Hc. cbn [fst snd] in *. unfold shift64RightJamming.
  destruct (Z.eqb_spec c 0); [now split|]. destruct (Z.ltb_spec c 32).
  - split; cbn [fst snd]; auto 6 with cint.
  - split; cbn [fst snd]; [auto with cint|]. destruct (Z.eqb_spec c 32); [auto with cint|].
    destruct (Z.ltb_spec c 64); [rewrite count_and_hi by lia|]; auto 6 with cint.
Qed.

Lemma jam64_words a0 a1 c s : words64 (a0, a1) -> val64 (a0, a1) = s * 2 ^ 10 -> 0 <= c ->
  words64 (shift64RightJamming a0 a1 c) /\
  val64 (shift64RightJamming a0 a1 c) = jam (s * 2 ^ 10) (2 ^ c).
Proof.
  intros HW HV Hc. split; [now apply shift64RightJamming_words|]. destruct HW as [H0 H1].
  rewrite shift64RightJamming_jam by assumption. f_equal. exact HV.
Qed.

(** The comparison of two-word significands made by [subFloat64Sigs]. *)
Lemma sub_compare64 {T} x0 x1 y0 y1 (big small eq : T) : words64 (x0, x1) -> words64 (y0, y1) ->
  (if y0 <? x0 then big else if x0 <? y0 then small
   else if y1 <? x1 then big else if x1 <? y1 then small else eq)
  = match val64 (x0, x1) ?= val64 (y0, y1) with Gt => big | Lt => small | Eq => eq end.
Proof.
  intros [X0 X1] [Y0 Y1]. unfold val64, is_u in *. cbn [fst snd] in *.
  repeat ztest; symmetry.
  - rewrite (proj2 (Z.compare_gt_iff _ _)); [reflexivity | lia].
  - rewrite (proj2 (Z.compare_lt_iff _ _)); [reflexivity | lia].
  - rewrite (proj2 (Z.compare_gt_iff _ _)); [reflexivity | lia].
  - rewrite (proj2 (Z.compare_lt_iff _ _)); [reflexivity | lia].
  - rewrite (proj2 (Z.compare_eq_iff _ _)); [reflexivity | lia].
Qed.

Lemma sub_zero64 st : (let* mode := get_mode in
   ret (packFloat64 (b2z (mode =? float_round_down)) 0 0 0)) st = sum64 st (down_sign st) 0.
Proof.
  unfold sum64, bind, get_mode, ret, down_sign. cbn [Z.eqb].
  rewrite packFloat64_eq;
    [| destruct (_ =? _); [now right | now left] | lia | lia | lia | apply zero_word; lia].
  change (0 * 2 ^ 52 + val64 (0, 0)) with 0. now rewrite Z.add_0_r.
Qed.

Lemma subFloat64Sigs_ref st a b zSign :
  fp_ok st -> is_flag zSign -> f64_finite a -> f64_finite b ->
  subFloat64Sigs a b zSign st
  = sum64 st (down_sign st) ((1 - 2 * zSign) * (f64_mag a - f64_mag b)).
Proof.
  intros Hst Hs [Ha Ea] [Hb Eb].
  assert (Hs' : is_flag (1 - zSign)) by (destruct Hs as [-> | ->]; [now right | now left]).
  destruct (fields64 a Ha) as (_ & _ & Hea & Hfa & _). destruct (fields64 b Hb) as (_ & _ & Heb & Hfb & _).
  destruct (f64_shifted_val a Ha) as (Wa & Va & Ba & Vs_a & Us_a).
  destruct (f64_shifted_val b Hb) as (Wb & Vb & Bb & Vs_b & Us_b).
  destruct (sig64_words a Ha) as (_ & _ & Ra). destruct (sig64_words b Hb) as (_ & _ & Rb).
  rewrite !f64_mag_sig by assumption. unfold subFloat64Sigs. fold (f64_shifted a) (f64_shifted b).
  destruct (f64_shifted a) as [x0 x1]. destruct (f64_shifted b) as [y0 y1]. cbn [fst snd] in *.
  rewrite lxor1, s16_small by (assumption || lia).
  destruct (Z.ltb_spec 0 (extractFloat64Exp a - extractFloat64Exp b)) as [Hd|Hd].
  { destruct (Z.eqb_spec (extractFloat64Exp a) 0x7FF); [lia|].
    destruct (larger64 a ltac:(lia)) as [-> ->].
    destruct (smaller64 b (extractFloat64Exp a) y0 (y0 ||| 0x40000000) Hb ltac:(lia)) as (D1 & D2 & -> & -> & _).
    destruct (jam64_words _ _ (extractFloat64Exp a - eexp64 b) _ (conj Us_b (proj2 Wb)) Vs_b ltac:(lia)) as [Wj Vj].
    destruct (shift64RightJamming _ _ _) as [j0 j1].
    rewrite (sub_aligned64 st zSign (f64_frac a) (sig64 b) x0 x1 j0 j1 _ (extractFloat64Exp a - eexp64 b))
      by (assumption || lia).
    symmetry. apply sum64_pos; [assumption|].
    pose proof (aligned_pos64 (f64_frac a) (sig64 b) (extractFloat64Exp a) _ ltac:(lia) Rb D1 D2). lia. }
  destruct (Z.ltb_spec (extractFloat64Exp a - extractFloat64Exp b) 0) as [Hd'|Hd'].
  { destruct (Z.eqb_spec (extractFloat64Exp b) 0x7FF); [lia|].
    destruct (larger64 b ltac:(lia)) as [-> ->].
    destruct (smaller64 a (extractFloat64Exp b) x0 (x0 ||| 0x40000000) Ha ltac:(lia)) as (D1 & D2 & -> & _ & ->).
    rewrite Z.opp_involutive, (s16_small (extractFloat64Exp b - eexp64 a)) by lia.
    destruct (jam64_words _ _ (extractFloat64Exp b - eexp64 a) _ (conj Us_a (proj2 Wa)) Vs_a ltac:(lia)) as [Wj Vj].
    destruct (shift64RightJamming _ _ _) as [j0 j1].
    rewrite (sub_aligned64 st (1 - zSign) (f64_frac b) (sig64 a) y0 y1 j0 j1 _ (extractFloat64Exp b - eexp64 a))
      by (assumption || lia).
    match goal with |- _ = sum64 _ _ (_ * (?x - ?y)) => replace (x - y) with (- (y - x)) by lia end.
    symmetry. apply sum64_pos; [assumption|].
    pose proof (aligned_pos64 (f64_frac b) (sig64 a) (extractFloat64Exp b) _ ltac:(lia) Ra D1 D2). lia. }
  assert (Ee : extractFloat64Exp b = extractFloat64Exp a) by lia. unfold sig64, eexp64. rewrite Ee.
  destruct (Z.eqb_spec (extractFloat64Exp a) 0x7FF); [lia|].
  set (E := Z.max 1 (extractFloat64Exp a)).
  replace (if extractFloat64Exp a =? 0 then (1, 1) else (extractFloat64Exp a, extractFloat64Exp a))
    with (E, E) by (unfold E; destruct (Z.eqb_spec (extractFloat64Exp a) 0); f_equal; lia).
  match goal with |- _ = sum64 _ _ (_ * ?v) =>
    replace v with (f64_frac a * 2 ^ (E - 1) - f64_frac b * 2 ^ (E - 1))
      by (destruct (extractFloat64Exp a =? 0); ring) end.
  assert (HE : 1 <= E <= 0x7FE) by lia. pose proof (pow2_pos (E - 1) ltac:(lia)).
  rewrite sub_compare64, Va, Vb by assumption.
  destruct (Z.compare_spec (f64_frac a * 2 ^ 10) (f64_frac b * 2 ^ 10)).
  - replace (f64_frac a) with (f64_frac b) by lia. rewrite Z.sub_diag, Z.mul_0_r. apply sub_zero64.
  - rewrite (sub_equal_exp64 st (1 - zSign) E (f64_frac b) (f64_frac a)) by (assumption || lia).
    replace (f64_frac a * 2 ^ (E - 1) - f64_frac b * 2 ^ (E - 1))
      with (- (f64_frac b * 2 ^ (E - 1) - f64_frac a * 2 ^ (E - 1))) by lia.
    symmetry. apply sum64_pos; [assumption | nia].
  - rewrite (sub_equal_exp64 st zSign E (f64_frac a) (f64_frac b)) by (assumption || lia).
    symmetry. apply sum64_pos; [assumption | nia].
Qed.

(** ** Specifications on all operands *)

Definition f64_is_nan (a : float64) : bool :=
  (extractFloat64Exp a =? 0x7FF) && negb ((extractFloat64Frac0 a ||| extractFloat64Frac1 a) =? 0).
Definition f64_is_inf (a : float64) : bool :=
  (extractFloat64Exp a =? 0x7FF) && ((extractFloat64Frac0 a ||| extractFloat64Frac1 a) =? 0).
Definition f64_inf (s : Z) : float64 := of_bits64 (s * 2 ^ 63 + 0x7FF * 2 ^ 52).

Definition invalid64 (st : fpstate) : option (float64 * fpstate) :=
  Some (float64_default_nan, raised st float_flag_invalid).

(** The sum of [a] and [b], where [b] counts with the sign [sb]. *)
Definition ref_sum64 (st : fpstate) (a b : float64) (sb : Z) : option (float64 * fpstate) :=
  let sa := f64_sign a in
  if f64_is_nan a || f64_is_nan b then propagateFloat64NaN a b st
  else if f64_is_inf a then
    (if f64_is_inf b && negb (sa =? sb) then invalid64 st else Some (f64_inf sa, st))
  else if f64_is_inf b then Some (f64_inf sb, st)
  else sum64 st (if sa =? sb then sa else down_sign st)
         ((1 - 2 * sa) * f64_mag a + (1 - 2 * sb) * f64_mag b).

Lemma special_cases64 a : f64_word a ->
  (f64_is_nan a = true /\ f64_is_inf a = false /\ extractFloat64Exp a = 0x7FF /\
     truthy (extractFloat64Frac0 a ||| extractFloat64Frac1 a) = true) \/
  (f64_is_nan a = false /\ f64_is_inf a = true /\ extractFloat64Exp a = 0x7FF /\
     truthy (extractFloat64Frac0 a ||| extractFloat64Frac1 a) = false /\ a = f64_inf (f64_sign a)) \/
  (f64_is_nan a = false /\ f64_is_inf a = false /\ extractFloat64Exp a < 0x7FF).
Proof.
  intros Ha. destruct (fields64 a Ha) as (Eq & _ & He & Hf & _). unfold f64_is_nan, f64_is_inf, truthy.
  destruct (Z.eqb_spec (extractFloat64Exp a) 0x7FF) as [E|E]; cbn [andb].
  - destruct (Z.eqb_spec (extractFloat64Frac0 a ||| extractFloat64Frac1 a) 0) as [F|F]; cbn [negb].
    + right. left. repeat split; try assumption. rewrite <- (of_bits64_bits a Ha) at 1.
      unfold f64_inf. f_equal. apply Z.lor_eq_0_iff in F as [F0 F1].
      unfold f64_frac, val64 in Eq. rewrite F0, F1, E in Eq. cbn [fst snd] in Eq. lia.
    + left. repeat split; assumption.
  - right. right. repeat split; lia.
Qed.

Lemma f64_sign_flag a : f64_word a -> is_flag (f64_sign a).
Proof. intros Ha. now destruct (fields64 a Ha) as (_ & Hs & _). Qed.

Lemma pack_inf64 s st : is_flag s -> ret (packFloat64 s 0x7FF 0 0) st = Some (f64_inf s, st).
Proof.
  intros Hs. unfold ret. rewrite packFloat64_eq by (assumption || lia || (apply zero_word; lia)). reflexivity.
Qed.

Lemma invalid64_eq st : fp_ok st ->
  (float_raise float_flag_invalid ;; ret float64_default_nan) st = invalid64 st.
Proof. intros Hst. unfold bind. rewrite float_raise_eq by (assumption || flag_range). reflexivity. Qed.

(** The shifted fraction is zero exactly when the fraction is. *)
Lemma truthy_shifted64 a : f64_word a ->
  truthy (fst (f64_shifted a) ||| snd (f64_shifted a))
  = truthy (extractFloat64Frac0 a ||| extractFloat64Frac1 a).
Proof.
  intros Ha. destruct (fields64 a Ha) as (_ & _ & _ & _ & H0 & H1).
  destruct (f64_shifted_val a Ha) as ([W0 W1] & V & _). destruct (f64_shifted a) as [x0 x1].
  unfold f64_frac, val64, is_u in *. cbn [fst snd] in *. rewrite !truthy_lor. unfold truthy.
  repeat ztest; cbn [negb orb]; try reflexivity; exfalso; lia.
Qed.

(** Deciding the exponent tests of an operation on special operands, and its outcome. *)
Ltac special64 :=
  repeat ztest; try lia; cbn [orb andb negb];
  match goal with
  | |- propagateFloat64NaN _ _ _ = _ => reflexivity
  | |- (float_raise _ ;; _) _ = _ => now apply invalid64_eq
  | |- ret (packFloat64 _ _ _ _) _ = _ =>
      apply pack_inf64; unfold is_flag in *; solve [assumption | lia]
  | H : ?a = f64_inf _ |- ret ?a _ = _ => unfold ret; now rewrite <- H
  end.

Lemma addFloat64Sigs_special st a b :
  f64_word a -> f64_word b -> extractFloat64Exp a = 0x7FF \/ extractFloat64Exp b = 0x7FF ->
  addFloat64Sigs a b (f64_sign a) st =
  if f64_is_nan a || f64_is_nan b then propagateFloat64NaN a b st else Some (f64_inf (f64_sign a), st).
Proof.
  intros Ha Hb Hsp. pose proof (f64_sign_flag a Ha) as Hs. unfold addFloat64Sigs.
  rewrite <- (Z.lor_assoc (_ ||| _)), (truthy_lor (extractFloat64Frac0 a ||| extractFloat64Frac1 a)).
  rewrite s16_small by (destruct (fields64 a Ha) as (_ & _ & ? & _),
    (fields64 b Hb) as (_ & _ & ? & _); lia).
  destruct (special_cases64 a Ha) as [(Na & _ & Ea & Fa) | [(Na & _ & Ea & Fa & Va) | (Na & _ & Ea)]];
  destruct (special_cases64 b Hb) as [(Nb & _ & Eb & Fb) | [(Nb & _ & Eb & Fb & Vb) | (Nb & _ & Eb)]];
    rewrite Na, Nb; cbn [orb]; try lia; rewrite ?Fa, ?Fb; rewrite ?Ea, ?Eb; special64.
Qed.

Lemma subFloat64Sigs_special st a b : fp_ok st ->
  f64_word a -> f64_word b -> extractFloat64Exp a = 0x7FF \/ extractFloat64Exp b = 0x7FF ->
  subFloat64Sigs a b (f64_sign a) st =
  if f64_is_nan a || f64_is_nan b then propagateFloat64NaN a b st
  else if f64_is_inf a && f64_is_inf b then invalid64 st
  else Some (f64_inf (if f64_is_inf a then f64_sign a else 1 - f64_sign a), st).
Proof.
  intros Hst Ha Hb Hsp. pose proof (f64_sign_flag a Ha) as Hs. unfold subFloat64Sigs.
  fold (f64_shifted a) (f64_shifted b).
  pose proof (truthy_shifted64 a Ha) as Ta. pose proof (truthy_shifted64 b Hb) as Tb.
  destruct (f64_shifted a) as [x0 x1]. destruct (f64_shifted b) as [y0 y1]. cbn [fst snd] in *.
  rewrite <- (Z.lor_assoc (_ ||| _)), (truthy_lor (x0 ||| x1)), Ta, Tb, lxor1 by assumption.
  rewrite s16_small by (destruct (fields64 a Ha) as (_ & _ & ? & _),
    (fields64 b Hb) as (_ & _ & ? & _); lia).
  destruct (special_cases64 a Ha) as [(Na & Ia & Ea & Fa) | [(Na & Ia & Ea & Fa & Va) | (Na & Ia & Ea)]];
  destruct (special_cases64 b Hb) as [(Nb & Ib & Eb & Fb) | [(Nb & Ib & Eb & Fb & Vb) | (Nb & Ib & Eb)]];
    rewrite Na, Nb, ?Ia, ?Ib; cbn [orb andb]; try lia; rewrite ?Fa, ?Fb; rewrite ?Ea, ?Eb; special64.
Qed.

Lemma special_operand64 a b : extractFloat64Exp a = 0x7FF \/ extractFloat64Exp b = 0x7FF ->
  f64_is_nan a || f64_is_nan b || (f64_is_inf a || f64_is_inf b) = true.
Proof.
  unfold f64_is_nan, f64_is_inf.
  intros [-> | ->]; rewrite Z.eqb_refl; cbn [andb];
    [destruct ((extractFloat64Frac0 a ||| extractFloat64Frac1 a) =? 0)
    | destruct ((extractFloat64Frac0 b ||| extractFloat64Frac1 b) =? 0)];
    rewrite ?orb_true_r; reflexivity.
Qed.

Lemma nonspecial64 a : extractFloat64Exp a <> 0x7FF ->
  f64_is_nan a = false /\ f64_is_inf a = false.
Proof. intros H. unfold f64_is_nan, f64_is_inf. now rewrite (proj2 (Z.eqb_neq _ _) H). Qed.

(** The two dispatchers, as one lemma: [sb] is the sign [b] counts with. *)
Lemma sum_dispatch64 st a b sb : fp_ok st -> f64_word a -> f64_word b -> is_flag sb ->
  (if f64_sign a =? sb then addFloat64Sigs a b (f64_sign a) st
   else subFloat64Sigs a b (f64_sign a) st) = ref_sum64 st a b sb.
Proof.
  intros Hst Ha Hb Hsb. pose proof (f64_sign_flag a Ha) as Hs. unfold ref_sum64.
  assert (Esb : negb (f64_sign a =? sb) = true -> 1 - f64_sign a = sb)
    by (unfold is_flag in *; destruct (Z.eqb_spec (f64_sign a) sb); [discriminate | lia]).
  destruct (Z.eq_dec (extractFloat64Exp a) 0x7FF) as [Ea|Ea];
    [|destruct (Z.eq_dec (extractFloat64Exp b) 0x7FF) as [Eb|Eb]].
  1, 2: destruct (Z.eqb_spec (f64_sign a) sb) as [<-|Hne];
    [rewrite addFloat64Sigs_special | rewrite subFloat64Sigs_special]; auto;
    pose proof (special_operand64 a b ltac:(auto)) as Hsp;
    cbn [negb] in *; rewrite ?andb_false_r, ?andb_true_r;
    destruct (f64_is_nan a || f64_is_nan b); try reflexivity;
    destruct (f64_is_inf a), (f64_is_inf b); try discriminate; cbn [andb]; rewrite ?Esb by reflexivity;
    reflexivity.
  pose proof (fields64 a Ha) as (_ & _ & Ra & _). pose proof (fields64 b Hb) as (_ & _ & Rb & _).
  destruct (nonspecial64 a Ea) as [-> ->], (nonspecial64 b Eb) as [-> ->]. cbn [orb].
  pose proof (f64_mag_nonneg a Ha). pose proof (f64_mag_nonneg b Hb).
  destruct (Z.eqb_spec (f64_sign a) sb) as [<-|Hne]; cbn [negb] in *.
  - rewrite addFloat64Sigs_ref by first [assumption | split; [assumption | lia]].
    rewrite <- Z.mul_add_distr_l. unfold sum64. destruct Hs as [-> | ->]; repeat ztest; try lia; cbn [b2z].
    1, 3: replace (f64_mag a + f64_mag b) with (mag_val64 0) by (rewrite mag_val64_small; lia);
      rewrite rounded64_exact by lia; reflexivity.
    all: f_equal; lia.
  - rewrite subFloat64Sigs_ref by first [assumption | split; [assumption | lia]].
    f_equal. rewrite <- Esb by reflexivity. ring.
Qed.

(** Double-precision addition returns, for finite operands, the exact sum rounded in the current
    mode with exactly the exceptions of that rounding, on the two-word representation; infinities
    add as limits, opposite infinities are invalid, and NaN operands propagate. *)
Theorem float64_add_correct st a b : fp_ok st -> f64_word a -> f64_word b ->
  float64_add a b st = ref_sum64 st a b (f64_sign b).
Proof.
  intros Hst Ha Hb. unfold float64_add. rewrite !sign64_div.
  rewrite <- sum_dispatch64 by (auto using f64_sign_flag). now destruct (f64_sign a =? f64_sign b).
Qed.

(** 1.0 + 2^-53 is a tie and rounds to even. *)
Lemma float64_add_witness :
  float64_add (mk_float64 0x3FF00000 0) (mk_float64 0x3CA00000 0) fp_init
  = Some (mk_float64 0x3FF00000 0, raised fp_init float_flag_inexact).
Proof.
  rewrite float64_add_correct by (exact fp_init_ok || (split; unfold is_u; cbn; lia)).
  vm_compute. reflexivity.
Defined.

(** Double-precision subtraction is addition with the sign of the second operand reversed, on
    every operand, with the same rounding and exceptions. *)
Theorem float64_sub_correct st a b : fp_ok st -> f64_word a -> f64_word b ->
  float64_sub a b st = ref_sum64 st a b (1 - f64_sign b).
Proof.
  intros Hst Ha Hb. pose proof (f64_sign_flag b Hb) as Hs. unfold float64_sub. rewrite !sign64_div.
  rewrite <- sum_dispatch64 by (unfold is_flag in *; assumption || lia).
  pose proof (f64_sign_flag a Ha) as Hsa. unfold is_flag in *.
  destruct (Z.eqb_spec (f64_sign a) (f64_sign b)), (Z.eqb_spec (f64_sign a) (1 - f64_sign b));
    reflexivity || lia.
Qed.

(** The smallest normal number minus its predecessor is the smallest subnormal. *)
Lemma float64_sub_witness :
  float64_sub (mk_float64 0x00100000 0) (mk_float64 0x000FFFFF 0xFFFFFFFF) fp_init
  = Some (mk_float64 0 1, fp_init).
Proof.
  rewrite float64_sub_correct by (exact fp_init_ok || (split; unfold is_u; cbn; lia)).
  vm_compute. reflexivity.
Defined.

(** C1: Double-precision addition and subtraction return, for finite operands, the exact sum or
    difference rounded in the current mode (an exact zero taking the sign IEEE 754 prescribes) with
    exactly the overflow, underflow and inexact exceptions of that rounding; infinities add as
    limits, opposite infinities are invalid, and NaN operands propagate.  Subtraction is addition
    with the sign of the second operand reversed. *)
Theorem float64_sums_correct st a b : fp_ok st -> f64_word a -> f64_word b ->
  float64_add a b st = ref_sum64 st a b (f64_sign b) /\
  float64_sub a b st = ref_sum64 st a b (1 - f64_sign b).
Proof. split; [now apply float64_add_correct | now apply float64_sub_correct]. Qed.

(** 1.0 + 2^-53 is a tie and rounds to even; the smallest normal number minus its predecessor is
    the smallest subnormal. *)
Lemma float64_sums_witness :
  float64_add (mk_float64 0x3FF00000 0) (mk_float64 0x3CA00000 0) fp_init
    = Some (mk_float64 0x3FF00000 0, raised fp_init float_flag_inexact) /\
  float64_sub (mk_float64 0x00100000 0) (mk_float64 0x000FFFFF 0xFFFFFFFF) fp_init
    = Some (mk_float64 0 1, fp_init).
Proof.
  split.
  - rewrite (proj1 (float64_sums_correct fp_init (mk_float64 0x3FF00000 0) (mk_float64 0x3CA00000 0) fp_init_ok
      ltac:(split; unfold is_u; cbn; lia) ltac:(split; unfold is_u; cbn; lia))). vm_compute. reflexivity.
  - rewrite (proj2 (float64_sums_correct fp_init (mk_float64 0x00100000 0) (mk_float64 0x000FFFFF 0xFFFFFFFF)
      fp_init_ok ltac:(split; unfold is_u; cbn; lia) ltac:(split; unfold is_u; cbn; lia))). vm_compute. reflexivity.
Defined.
