(* ===== verification/Float64MulDiv.v ===== *)
(** * Double-precision multiplication and division round correctly *)

From S2P Require Import Prelude.
From S2P Require Import CInt.
From S2P Require Import FPState.
From S2P Require Import Rounding.
From S2P Require Import SoftFloatPrim.
From S2P Require Import Float32.
From S2P Require Import Float64.
From S2P Require Import Float32Round.
From S2P Require Import Float32Arith.
From S2P Require Import Float32MulDiv.
From S2P Require Import Float64Round.
From S2P Require Import Float64Arith.
From S2P Require Import Float64Sum.

(** ** Normalised operands *)

Definition norm64 (a : float64) : Z * Z * Z :=
  if extractFloat64Exp a =? 0 then
    normalizeFloat64Subnormal (extractFloat64Frac0 a) (extractFloat64Frac1 a)
  else (extractFloat64Exp a, extractFloat64Frac0 a, extractFloat64Frac1 a).

Lemma normalizeFloat64Subnormal_eq x0 x1 : 0 <= x0 < 2 ^ 20 -> is_u 32 x1 -> 0 < val64 (x0, x1) ->
  let '(e, y0, y1) := normalizeFloat64Subnormal x0 x1 in
  -51 <= e <= 0 /\ 2 ^ 20 <= y0 < 2 ^ 21 /\ is_u 32 y1 /\
  val64 (y0, y1) = val64 (x0, x1) * 2 ^ (1 - e).
Proof.
  intros H0 H1 Hv. unfold normalizeFloat64Subnormal, val64 in *. cbn [fst snd] in *. unfold is_u in H1.
  assert (Norm : forall x, 0 < x < 2 ^ 32 -> exists l, countLeadingZeros32 x = 31 - l /\ 0 <= l < 32 /\
    2 ^ l <= x < 2 ^ (l + 1)).
  { intros x Hx. exists (Z.log2 x). rewrite countLeadingZeros32_log2 by lia.
    pose proof (Z.log2_spec x ltac:(lia)) as Hl. pose proof (Z.log2_nonneg x).
    assert (Z.log2 x < 32) by (apply Z.log2_lt_pow2; lia).
    replace (Z.log2 x + 1) with (Z.succ (Z.log2 x)) by lia. lia. }
  destruct (Z.eqb_spec x0 0) as [->|Hx0].
  - destruct (Norm x1 ltac:(lia)) as (l & -> & Hl & Hx). rewrite s8_small by lia.
    destruct (Z.ltb_spec (31 - l - 11) 0) as [Hc|Hc].
    + rewrite s16_small, shr_div, count_and by lia.
      replace ((31 - l - 11) mod 32) with (32 - (l - 20)) by (apply (Z.mod_unique _ _ (-1)); lia).
      replace (- (31 - l - 11)) with (l - 20) by lia. rewrite u32_shl by lia.
      replace (32 - (32 - (l - 20))) with (l - 20) by lia.
      pose proof (pow2_pos (l - 20) ltac:(lia)) as Pc. pose proof (pow2_pos (32 - (l - 20)) ltac:(lia)) as Pd.
      pose proof (Z.div_mod x1 (2 ^ (l - 20)) ltac:(lia)) as E1.
      pose proof (Z.mod_pos_bound x1 (2 ^ (l - 20)) Pc) as R1.
      assert (E32 : 2 ^ 32 = 2 ^ (l - 20) * 2 ^ (32 - (l - 20)))
        by (rewrite <- Z.pow_add_r by lia; f_equal; lia).
      replace (1 - (l - 20 - 31)) with (32 - (l - 20)) by lia.
      assert (Q0 : 2 ^ 20 <= x1 / 2 ^ (l - 20)).
      { apply Z.div_le_lower_bound; [lia|]. rewrite <- Z.pow_add_r by lia.
        replace (l - 20 + 20) with l by lia. lia. }
      assert (Q1 : x1 / 2 ^ (l - 20) < 2 ^ 21).
      { apply Z.div_lt_upper_bound; [lia|]. rewrite <- Z.pow_add_r by lia.
        replace (l - 20 + 21) with (l + 1) by lia. lia. }
      repeat split; try assumption; try lia; rewrite E32; nia.
    + set (c := 31 - l - 11) in *. rewrite s16_small by lia. pose proof (pow2_pos c Hc).
      assert (Hy : 2 ^ 20 <= x1 * 2 ^ c < 2 ^ 21).
      { replace (2 ^ 21) with (2 ^ (l + 1) * 2 ^ c) by (rewrite <- Z.pow_add_r by lia; f_equal; lia).
        replace (2 ^ 20) with (2 ^ l * 2 ^ c) by (rewrite <- Z.pow_add_r by lia; f_equal; lia). nia. }
      rewrite u32_shl_small by lia. repeat split; try lia; try (unfold is_u; lia).
      replace (1 - (- c - 31)) with (c + 32) by lia. rewrite Z.pow_add_r by lia. ring.
  - destruct (Norm x0 ltac:(lia)) as (l & -> & Hl & Hx). rewrite s8_small by lia.
    assert (Hl20 : l < 20) by (apply (Z.pow_lt_mono_r_iff 2); lia).
    set (c := 31 - l - 11) in *. pose proof (pow2_pos c ltac:(lia)) as Pc.
    assert (Hn : 2 ^ 20 <= x0 * 2 ^ c /\ (x0 + 1) * 2 ^ c <= 2 ^ 21).
    { replace (2 ^ 21) with (2 ^ (l + 1) * 2 ^ c) by (rewrite <- Z.pow_add_r by lia; f_equal; lia).
      replace (2 ^ 20) with (2 ^ l * 2 ^ c) by (rewrite <- Z.pow_add_r by lia; f_equal; lia). nia. }
    destruct (shortShift64Left_val x0 x1 c) as [[Y0 Y1] EY];
      [split; cbn; unfold is_u; lia | lia | unfold val64; cbn; nia|].
    destruct (shortShift64Left x0 x1 c) as [y0 y1]. unfold val64 in EY. cbn [fst snd] in *.
    pose proof Y1 as Y1'. unfold is_u in Y0, Y1'. rewrite s16_small by lia.
    replace (1 - (1 - c)) with c by lia. repeat split; try lia; try nia; assumption.
Qed.

(** Exponent and significand words of a nonzero finite operand. *)
Lemma norm64_spec a : f64_finite a -> 0 < f64_mag a ->
  let '(e, x0, x1) := norm64 a in
  -51 <= e <= 0x7FE /\ 0 <= x0 < 2 ^ 21 /\ is_u 32 x1 /\
  exists m, val64 (x0 ||| 2 ^ 20, x1) = m /\ 2 ^ 52 <= m < 2 ^ 53 /\ 2 ^ 20 <= x0 ||| 2 ^ 20 < 2 ^ 21 /\
    (val64 (x0, x1) = m \/ val64 (x0, x1) = m - 2 ^ 52) /\
    m * 2 ^ (e + 51) = f64_mag a * 2 ^ 52.
Proof.
  intros [Ha Ea] Hm. destruct (fields64 a Ha) as (_ & _ & He & Hf & H0 & H1).
  rewrite f64_mag_fields in Hm |- * by assumption. unfold norm64, f64_frac in *.
  destruct (Z.eqb_spec (extractFloat64Exp a) 0) as [E0|E0].
  - pose proof (normalizeFloat64Subnormal_eq _ _ H0 H1 Hm) as H.
    destruct (normalizeFloat64Subnormal _ _) as [[e y0] y1]. destruct H as (K1 & K2 & K3 & K4).
    assert (E : y0 ||| 2 ^ 20 = y0).
    { replace y0 with (2 ^ 20 + (y0 - 2 ^ 20)) by lia.
      rewrite <- (lor_add (2 ^ 20) (y0 - 2 ^ 20) 20) by (lia || reflexivity).
      rewrite (Z.lor_comm (2 ^ 20)), <- Z.lor_assoc, Z.lor_diag. reflexivity. }
    rewrite E. repeat split; try lia; try assumption; try (unfold is_u in K3; lia).
    exists (val64 (y0, y1)). repeat split; try lia.
    + unfold val64, is_u in *. cbn [fst snd]. lia.
    + unfold val64, is_u in *. cbn [fst snd]. lia.
    + rewrite K4, <- Z.mul_assoc, <- Z.pow_add_r by lia. do 2 f_equal. lia.
  - rewrite lor_bit by lia. repeat split; try lia; try assumption; try (unfold is_u in H1; lia).
    exists (val64 (extractFloat64Frac0 a, extractFloat64Frac1 a) + 2 ^ 52).
    unfold val64, is_u in *. cbn [fst snd] in *. repeat split; try lia.
    rewrite <- (Z.mul_assoc _ (2 ^ (extractFloat64Exp a - 1))), <- Z.pow_add_r by lia. do 2 f_equal. lia.
Qed.

Lemma f64_mag_zero a : f64_word a ->
  (f64_mag a =? 0) = (extractFloat64Exp a =? 0) && ((extractFloat64Frac0 a ||| extractFloat64Frac1 a) =? 0).
Proof.
  intros Ha. destruct (fields64 a Ha) as (_ & _ & He & Hf & H0 & H1). rewrite f64_mag_fields by assumption.
  rewrite lor_eq0. unfold f64_frac, val64, is_u in *. cbn [fst snd] in *.
  destruct (Z.eqb_spec (extractFloat64Exp a) 0); cbn [andb]; [zdec; lia|].
  apply Z.eqb_neq. pose proof (pow2_pos (extractFloat64Exp a - 1) ltac:(lia)). nia.
Qed.

(** ** Multiplication *)

Definition ref_mul64 (st : fpstate) (a b : float64) : option (float64 * fpstate) :=
  let s := f64_sign a ^^^ f64_sign b in
  if f64_is_nan a || f64_is_nan b then propagateFloat64NaN a b st
  else if f64_is_inf a then
    (if negb (f64_is_inf b) && (f64_mag b =? 0) then invalid64 st else Some (f64_inf s, st))
  else if f64_is_inf b then
    (if f64_mag a =? 0 then invalid64 st else Some (f64_inf s, st))
  else rounded64 st s (f64_mag a * f64_mag b) (2 ^ 1074).

(** The left shift reduces modulo 2^64. *)
Lemma shortShift64Left_mod a0 a1 c : words64 (a0, a1) -> 0 < c < 32 ->
  words64 (shortShift64Left a0 a1 c) /\
  val64 (shortShift64Left a0 a1 c) = (val64 (a0, a1) * 2 ^ c) mod 2 ^ 64.
Proof.
  intros [H0 H1] Hc. cbn [fst snd] in *. pose proof (pow2_pos c ltac:(lia)).
  pose proof (pow2_pos (32 - c) ltac:(lia)). unfold is_u in H0, H1.
  assert (E32 : 2 ^ 32 = 2 ^ (32 - c) * 2 ^ c) by (rewrite <- Z.pow_add_r by lia; f_equal; lia).
  pose proof (Z.mod_pos_bound a0 (2 ^ (32 - c)) ltac:(lia)) as Hr.
  pose proof (Z.div_mod a0 (2 ^ (32 - c)) ltac:(lia)) as Ed.
  pose proof (Z.mod_le a0 (2 ^ (32 - c)) ltac:(lia) ltac:(lia)) as Hle.
  set (r := a0 mod 2 ^ (32 - c)) in *.
  assert (Hrc : (r + 1) * 2 ^ c <= 2 ^ 32) by (rewrite E32; apply Z.mul_le_mono_nonneg_r; lia).
  assert (Hv : (r * 2 ^ 32 + a1) * 2 ^ c < 2 ^ 64).
  { apply Z.lt_le_trans with ((r + 1) * 2 ^ c * 2 ^ 32); nia. }
  destruct (shortShift64Left_val r a1 c) as [W V].
  - split; cbn; unfold is_u; lia.
  - lia.
  - exact Hv.
  - assert (Es : shortShift64Left a0 a1 c = shortShift64Left r a1 c).
    { unfold shortShift64Left, r. rewrite (proj2 (Z.eqb_neq c 0)), !u32_shl, Z.mod_mod by lia. reflexivity. }
    rewrite Es. split; [exact W|]. rewrite V. unfold val64. cbn [fst snd].
    apply (Z.mod_unique _ _ (a0 / 2 ^ (32 - c))); [left; nia|].
    rewrite Ed at 1. replace (2 ^ 64) with (2 ^ 32 * (2 ^ (32 - c) * 2 ^ c)) by (rewrite <- E32; reflexivity). ring.
Qed.

Lemma float64_mul_tail_ref st zSign ea x0 x1 eb y0 y1 m n ma mb : fp_ok st -> is_flag zSign ->
  -51 <= ea <= 0x7FE -> -51 <= eb <= 0x7FE ->
  is_u 32 x1 -> 2 ^ 20 <= x0 ||| 2 ^ 20 < 2 ^ 21 -> val64 (x0 ||| 2 ^ 20, x1) = m ->
  0 <= y0 < 2 ^ 21 -> is_u 32 y1 -> val64 (y0, y1) = n \/ val64 (y0, y1) = n - 2 ^ 52 ->
  2 ^ 52 <= m < 2 ^ 53 -> 2 ^ 52 <= n < 2 ^ 53 ->
  m * 2 ^ (ea + 51) = ma * 2 ^ 52 -> n * 2 ^ (eb + 51) = mb * 2 ^ 52 -> 0 <= ma -> 0 <= mb ->
  float64_mul_tail zSign ea x0 x1 eb y0 y1 st = rounded64 st zSign (ma * mb) (2 ^ 1074).
Proof.
  intros Hst Hs Hea Heb Hx1 Hx Vm Hy0 Hy1 Vn Hm Hn Va Vb Pa Pb. unfold float64_mul_tail.
  change 0x00100000 with (2 ^ 20). change 0x00200000 with (2 ^ 21). set (w0 := x0 ||| 2 ^ 20) in *.
  destruct (shortShift64Left_mod y0 y1 12) as [Wb Eb]; [split; cbn; unfold is_u in *; lia | lia|].
  assert (Eb' : val64 (shortShift64Left y0 y1 12) = n * 2 ^ 12 - 2 ^ 64).
  { rewrite Eb. destruct Vn as [-> | ->]; symmetry; [apply (Z.mod_unique _ _ 1) | apply (Z.mod_unique _ _ 0)]; lia. }
  destruct (shortShift64Left y0 y1 12) as [v0 v1].
  assert (Ww : words64 (w0, x1)) by (split; cbn; [unfold is_u; lia | assumption]).
  destruct (mul64To128_val w0 x1 v0 v1 Ww Wb) as [VP WP].
  destruct (mul64To128 w0 x1 v0 v1) as [[[p0 p1] p2] p3]. destruct WP as ((P0 & P1 & P2) & P3).
  rewrite Vm, Eb' in VP.
  destruct (add64_val p0 p1 w0 x1) as [[W0 W1] Vz]; [now split | assumption|].
  destruct (add64 p0 p1 w0 x1) as [z0 z1]. rewrite Vm in Vz.
  assert (HP : 2 ^ 116 <= m * n * 2 ^ 12 < 2 ^ 118) by nia.
  assert (Hv : val64 (p0, p1) + m = m * n * 2 ^ 12 / 2 ^ 64).
  { unfold val128, val64, is_u in *. cbn [fst snd] in *. symmetry. apply div_eq; [lia|]. nia. }
  assert (Hb : 2 ^ 52 <= val64 (p0, p1) + m < 2 ^ 54)
    by (rewrite Hv; split; [apply Z.div_le_lower_bound | apply Z.div_lt_upper_bound]; lia).
  rewrite Z.mod_small in Vz by lia.
  unfold val64, val128, is_u in *. cbn [fst snd] in *.
  assert (Hz0 : 2 ^ 20 <= z0 < 2 ^ 22) by lia.
  assert (EJ : val96 (z0, z1, p2 ||| b2z (truthy p3)) = jam (m * n * 2 ^ 12) (2 ^ 32)).
  { unfold val96. replace (z0 * 2 ^ 64 + z1 * 2 ^ 32) with ((z0 * 2 ^ 32 + z1) * 2 ^ 32) by lia.
    rewrite lor_low, jam_words by (unfold is_u; lia). f_equal. lia. }
  assert (Hstk : sticky (2 ^ 31) (val96 (z0, z1, p2 ||| b2z (truthy p3))) (m * n * 2 ^ 12) (2 ^ 32)).
  { rewrite EJ. apply (sticky_weaken 2 (2 ^ 30)), sticky_jam. lia. }
  assert (Hw96 : words96 (z0, z1, p2 ||| b2z (truthy p3))).
  { split; [unfold is_u; lia | split; [unfold is_u; lia|]]. apply lor_b2z_range; lia. }
  assert (Hsc : scaled (m * n * 2 ^ 12) (2 ^ 32) (ea + eb - 1024 - 32) (ma * mb) (2 ^ 1074)).
  { apply (scaled_intro _ _ _ _ _ 1158); [lia | lia |].
    replace (ea + eb - 1024 - 32 + 1158) with (ea + 51 + (eb + 51)) by lia. rewrite Z.pow_add_r by lia.
    replace (m * n * 2 ^ 12 * (2 ^ (ea + 51) * 2 ^ (eb + 51)) * 2 ^ 1074)
      with (m * 2 ^ (ea + 51) * (n * 2 ^ (eb + 51)) * (2 ^ 12 * 2 ^ 1074)) by ring.
    rewrite Va, Vb. ring. }
  rewrite (s16_small (ea + eb - 1024)) by lia.
  destruct (Z.leb_spec (2 ^ 21) z0).
  - rewrite s16_small by lia.
    apply (shiftRight1_ref st zSign (ea + eb - 1024 + 1) z0 z1 _ (m * n * 2 ^ 12) (2 ^ 32));
      try assumption; try lia.
    now replace (ea + eb - 1024 + 1 - 33) with (ea + eb - 1024 - 32) by lia.
  - apply (roundAndPackFloat64_ref st zSign (ea + eb - 1024) z0 z1 _ (m * n * 2 ^ 12) (2 ^ 32));
      try assumption; try lia.
Qed.

Lemma f64_zero_words a : f64_word a ->
  ((extractFloat64Exp a ||| extractFloat64Frac0 a ||| extractFloat64Frac1 a) =? 0) = (f64_mag a =? 0).
Proof. intros Ha. now rewrite <- Z.lor_assoc, lor_eq0, f64_mag_zero. Qed.

Lemma f64_inf_mag a : f64_word a -> extractFloat64Exp a = 0x7FF -> f64_mag a <> 0.
Proof.
  intros Ha E H. pose proof (f64_mag_zero a Ha) as Hz. rewrite H, E in Hz. discriminate.
Qed.

Lemma rounded64_frac st s N D N' D' : 0 < D -> 0 < D' -> N * D' = N' * D ->
  rounded64 st s N D = rounded64 st s N' D'.
Proof.
  intros HD HD' E. unfold rounded64.
  rewrite (ref_bits_frac 53 2047 _ _ N D N' D'), (ref_flags_frac 53 2047 ltac:(lia) _ _ _ N D N' D')
    by assumption. reflexivity.
Qed.

Lemma pack_zero64 st s D : is_flag s -> 0 < D ->
  ret (packFloat64 s 0 0 0) st = rounded64 st s 0 D.
Proof.
  intros Hs HD. unfold ret. rewrite packFloat64_eq by (assumption || lia || (apply zero_word; lia)).
  rewrite (rounded64_frac st s 0 D 0 1) by lia. symmetry. apply (rounded64_exact st s 0). lia.
Qed.

Lemma float64_mul_finite st a b : fp_ok st -> f64_finite a -> f64_finite b ->
  float64_mul a b st
  = rounded64 st (f64_sign a ^^^ f64_sign b) (f64_mag a * f64_mag b) (2 ^ 1074).
Proof.
  intros Hst Fa Fb. pose proof Fa as [Ha Ea]. pose proof Fb as [Hb Eb].
  pose proof (f64_mag_nonneg a Ha). pose proof (f64_mag_nonneg b Hb).
  assert (Hs : is_flag (f64_sign a ^^^ f64_sign b)) by (apply xor_flag; now apply f64_sign_flag).
  unfold float64_mul. rewrite !sign64_div. set (s := f64_sign a ^^^ f64_sign b) in *.
  rewrite (proj2 (Z.eqb_neq (extractFloat64Exp a) 0x7FF)), (proj2 (Z.eqb_neq (extractFloat64Exp b) 0x7FF))
    by lia.
  rewrite <- !f64_mag_zero by assumption. fold (norm64 a) (norm64 b).
  destruct (Z.eqb_spec (f64_mag a) 0) as [Za|Za]; [rewrite Za; apply pack_zero64; [assumption | lia]|].
  pose proof (norm64_spec a Fa ltac:(lia)) as Na. destruct (norm64 a) as [[ea x0] x1].
  destruct (Z.eqb_spec (f64_mag b) 0) as [Zb|Zb];
    [rewrite Zb, Z.mul_0_r; apply pack_zero64; [assumption | lia]|].
  pose proof (norm64_spec b Fb ltac:(lia)) as Nb. destruct (norm64 b) as [[eb y0] y1].
  destruct Na as (R1 & R2 & R3 & m & R4 & R5 & R6 & R7 & R8).
  destruct Nb as (S1 & S2 & S3 & n & S4 & S5 & S6 & S7 & S8).
  now apply (float64_mul_tail_ref st s ea x0 x1 eb y0 y1 m n).
Qed.

(** Double-precision multiplication, built on 32-bit words, returns the exact product rounded in
    the current mode with exactly the exceptions of that rounding, for all finite operands
    including subnormals; zero times infinity is invalid, and NaN operands propagate. *)
Lemma float64_mul_correct st a b : fp_ok st -> f64_word a -> f64_word b ->
  float64_mul a b st = ref_mul64 st a b.
Proof.
  intros Hst Ha Hb. unfold ref_mul64.
  destruct (Z.eq_dec (extractFloat64Exp a) 0x7FF) as [Ea|Ea];
    [|destruct (Z.eq_dec (extractFloat64Exp b) 0x7FF) as [Eb|Eb]].
  3: { destruct (nonspecial64 a Ea) as [-> ->], (nonspecial64 b Eb) as [-> ->]. cbn [orb].
       destruct (fields64 a Ha) as (_ & _ & ? & _), (fields64 b Hb) as (_ & _ & ? & _).
       apply float64_mul_finite; [assumption | split; [assumption | lia] | split; [assumption | lia]]. }
  all: assert (Hs : is_flag (f64_sign a ^^^ f64_sign b)) by (apply xor_flag; now apply f64_sign_flag).
  all: unfold float64_mul; rewrite !sign64_div; set (s := f64_sign a ^^^ f64_sign b) in *.
  all: rewrite !f64_zero_words by assumption.
  all: destruct (special_cases64 a Ha) as [(Na & Ia & Fa & Za) | [(Na & Ia & Fa & Za & _) | (Na & Ia & Fa)]];
    destruct (special_cases64 b Hb) as [(Nb & Ib & Fb & Zb) | [(Nb & Ib & Fb & Zb & _) | (Nb & Ib & Fb)]];
    try lia.
  all: rewrite Na, ?Nb, ?Ia, ?Ib, ?Za, ?Zb; rewrite ?Fa, ?Fb; cbn [Z.eqb Pos.eqb andb orb negb];
    try reflexivity.
  all: rewrite ?(proj2 (Z.eqb_neq (extractFloat64Exp a) 0x7FF)) by lia.
  all: rewrite ?(proj2 (Z.eqb_neq (extractFloat64Exp b) 0x7FF)) by lia; cbn [andb].
  all: repeat match goal with |- context [f64_mag ?x =? 0] => destruct (Z.eqb_spec (f64_mag x) 0) end.
  all: try (now apply invalid64_eq); try (now apply pack_inf64); try reflexivity.
  exfalso. now apply (f64_inf_mag b Hb).
Qed.
