(* ===== verification/Float64Div.v ===== *)
(** * Double-precision division rounds correctly

    The quotient is developed as two 32-bit digits, each estimated from the leading word of the
    divisor and corrected by adding the divisor back to a 96-bit remainder. *)

From S2P Require Import Prelude.
From S2P Require Import CInt.
From S2P Require Import FPState.
From S2P Require Import Rounding.
From S2P Require Import SoftFloatPrim.
From S2P Require Import Float32.
From S2P Require Import Float64.
From S2P Require Import Float32Round.
From S2P Require Import Float32Arith.
From S2P Require Import Float32MulDiv.
From S2P Require Import Float64Round.
From S2P Require Import Float64Arith.
From S2P Require Import Float64Sum.
From S2P Require Import Float64MulDiv.

(** ** One quotient digit *)

Section Digit.
Variables b0 b1 : Z.
Hypothesis Hb0 : 2 ^ 31 <= b0 < 2 ^ 32.
Hypothesis Hb1 : is_u 32 b1.
Let B := b0 * 2 ^ 32 + b1.

(** Estimating with the leading word only overestimates a digit by at most four. *)
Lemma div_digit_estimate fuel a0 a1 : (2 < fuel)%nat -> is_u 32 a0 -> is_u 32 a1 ->
  a0 * 2 ^ 32 + a1 < B ->
  exists z, estimateDiv64To32 fuel a0 a1 b0 = Some z /\ z < 2 ^ 32 /\
  let q := (a0 * 2 ^ 32 + a1) * 2 ^ 32 / B in 0 <= q /\ q <= z <= q + 4.
Proof.
  intros Hf Ha0 Ha1 HAB. unfold is_u in Ha0, Ha1, Hb1. set (A := a0 * 2 ^ 32 + a1) in *.
  assert (HB : 0 < B) by (unfold B; lia). pose proof (div_bounds (A * 2 ^ 32) B HB) as Hq.
  cbv zeta. set (q := A * 2 ^ 32 / B) in *. assert (Hq0 : 0 <= q) by (apply Z.div_pos; unfold A; lia).
  destruct (Z.lt_ge_cases a0 b0) as [H|H].
  - destruct (estimateDiv64To32_bounds fuel a0 a1 b0 Hf Hb0 ltac:(lia) Ha1) as (z & -> & Hz & Hz32).
    fold A in Hz. exists z. split; [reflexivity|]. split; [assumption|]. split; [assumption|].
    pose proof (div_bounds A b0 ltac:(lia)) as He. set (e := A / b0) in *.
    assert (q <= e) by (unfold B in *; nia).
    assert (e * B < (q + 3) * B) by (unfold B in *; nia). nia.
  - assert (a0 = b0) as -> by (unfold A, B in *; lia). unfold estimateDiv64To32.
    rewrite (proj2 (Z.leb_le b0 b0)) by lia. exists (2 ^ 32 - 1).
    split; [reflexivity|]. split; [lia|]. split; [assumption|]. unfold A, B in *. nia.
Qed.

(** The sign of a 96-bit remainder that is up to four divisors below zero. *)
Lemma rem_sign96 R n r0 r1 r2 : 0 <= R < B -> 0 <= n <= 4 -> words96 (r0, r1, r2) ->
  val96 (r0, r1, r2) = (R - B * n) mod 2 ^ 96 -> (s32 r0 <? 0) = (0 <? n).
Proof.
  intros HR Hn (W0 & W1 & W2) Hv. rewrite s32_neg by assumption.
  unfold val96, is_u in *. assert (HB : 2 ^ 63 <= B < 2 ^ 64) by (unfold B; lia).
  destruct (Z.ltb_spec 0 n).
  - rewrite <- (Z.mod_add _ 1), Z.mod_small in Hv by nia. apply Z.leb_le. nia.
  - replace n with 0 in Hv by lia. rewrite Z.mod_small in Hv by lia. apply Z.leb_gt. lia.
Qed.

(** The remainder loop brings an estimate down to the digit; at most four steps. *)
Lemma div_digit_loop fuel A q n rem : (4 < fuel)%nat ->
  0 <= q -> q + n < 2 ^ 32 -> 0 <= n <= 4 -> 0 <= A - B * q < B ->
  words96 rem -> val96 rem = (A - B * (q + n)) mod 2 ^ 96 ->
  exists r1 r2, while fuel float64_div_cond (float64_div_body b0 b1) (q + n, rem)
  = Some (q, (0, r1, r2)) /\ words64 (r1, r2) /\ val64 (r1, r2) = A - B * q.
Proof.
  intros Hf Hq Hqn Hn HR Hw Hv. unfold is_u in Hb1.
  assert (HB : 2 ^ 63 <= B < 2 ^ 64) by (unfold B; lia).
  pose (I := fun (k : nat) (s : Z * (Z * Z * Z)) => exists r,
    s = (q + Z.of_nat k, r) /\ (Z.of_nat k <= n) /\ words96 r /\
    val96 r = (A - B * q - B * Z.of_nat k) mod 2 ^ 96).
  destruct (while_rule float64_div_cond (float64_div_body b0 b1) I)
    with (n := Z.to_nat n) (fuel := fuel) (s := (q + n, rem))
    as (s' & k' & -> & Hc & (r & -> & Hk' & Hw' & Hv')).
  - intros k s (x & -> & Hk & Hx & Hvx) Hc. destruct x as [[x0 x1] x2]. cbn in Hc.
    rewrite (rem_sign96 (A - B * q) (Z.of_nat k) x0 x1 x2) in Hc by (assumption || lia).
    apply Z.ltb_lt in Hc. exists (k - 1)%nat. split; [lia|]. cbn [float64_div_body].
    destruct (add96_val x0 x1 x2 0 b0 b1 Hx) as [Wa Va];
      [split; [apply zero_word; lia | split; [unfold is_u; lia | assumption]]|].
    eexists. split; [|split; [lia | split; [exact Wa|]]].
    + do 2 f_equal. rewrite u32_small by lia. lia.
    + rewrite Va, Hvx, Zplus_mod_idemp_l. unfold val96. f_equal.
      replace (Z.of_nat (k - 1)) with (Z.of_nat k - 1) by lia. unfold B. ring.
  - exists rem. rewrite Z2Nat.id by lia. repeat split; try lia; try assumption.
    rewrite Hv. f_equal. lia.
  - lia.
  - destruct r as [[y0 y1] y2]. cbn in Hc.
    rewrite (rem_sign96 (A - B * q) (Z.of_nat k') y0 y1 y2) in Hc by (assumption || lia).
    apply Z.ltb_ge in Hc. assert (Z.of_nat k' = 0) as E by lia. rewrite E in *.
    rewrite Z.add_0_r. rewrite Z.mul_0_r, Z.sub_0_r, Z.mod_small in Hv' by lia.
    destruct Hw' as (W0 & W1 & W2). unfold val96, is_u in *.
    assert (y0 = 0) as -> by lia. exists y1, y2. split; [reflexivity|].
    split; [split; assumption|]. unfold val64. cbn [fst snd]. lia.
Qed.

(** Estimate, multiply back, correct: the digit and its remainder. *)
Lemma div_digit_exact fuel a0 a1 z : (4 < fuel)%nat -> is_u 32 a0 -> is_u 32 a1 ->
  a0 * 2 ^ 32 + a1 < B -> z < 2 ^ 32 ->
  let A := a0 * 2 ^ 32 + a1 in let q := A * 2 ^ 32 / B in 0 <= q -> q <= z <= q + 4 ->
  exists r1 r2,
  (let '(t0, t1, t2) := mul64By32To96 b0 b1 z in
  while fuel float64_div_cond (float64_div_body b0 b1) (z, sub96 a0 a1 0 t0 t1 t2))
  = Some (q, (0, r1, r2)) /\ words64 (r1, r2) /\ val64 (r1, r2) = (A * 2 ^ 32) mod B.
Proof.
  intros Hf H0 H1 HAB Hz A q Hq Hqz. unfold is_u in H0, H1, Hb1.
  assert (HB : 2 ^ 63 <= B < 2 ^ 64) by (unfold B; lia).
  pose proof (div_bounds (A * 2 ^ 32) B ltac:(lia)) as Hqb. fold q in Hqb.
  destruct (mul64By32To96_val b0 b1 z) as [Wm Vm];
    [split; cbn; unfold is_u; lia | unfold is_u; lia|].
  destruct (mul64By32To96 b0 b1 z) as [[t0 t1] t2].
  destruct (sub96_val a0 a1 0 t0 t1 t2) as [Ws Vs];
    [split; [|split]; unfold is_u; lia | assumption|].
  destruct (div_digit_loop fuel (A * 2 ^ 32) q (z - q) (sub96 a0 a1 0 t0 t1 t2))
    as (r1 & r2 & Hl & Hw & Hv); try assumption; try lia.
  - rewrite Vs, Vm. unfold val96, val64. cbn [fst snd]. f_equal. unfold A, B. ring.
  - replace (q + (z - q)) with z in Hl by lia. exists r1, r2.
    split; [exact Hl|]. split; [exact Hw|]. rewrite Hv, Z.mod_eq by lia. reflexivity.
Qed.

End Digit.

(** ** The quotient significand *)

Lemma div_next_digit A B : 0 < B -> 0 <= A ->
  A * 2 ^ 64 / B = A * 2 ^ 32 / B * 2 ^ 32 + ((A * 2 ^ 32) mod B) * 2 ^ 32 / B.
Proof.
  intros HB HA. pose proof (Z.div_mod (A * 2 ^ 32) B ltac:(lia)) as E.
  rewrite <- Z.div_add_l by lia. f_equal. lia.
Qed.

Lemma truthy_words a b : is_u 32 a -> is_u 32 b -> truthy (a ||| b) = truthy (val64 (a, b)).
Proof.
  intros Ha Hb. rewrite truthy_lor. unfold truthy, val64, is_u in *. cbn [fst snd].
  repeat ztest; cbn [negb orb]; try reflexivity; exfalso; lia.
Qed.

(** The two quotient words stand for the exact quotient up to bits below bit 10. *)
Lemma float64_div_sig_sticky fuel a0 a1 b0 b1 : (4 < fuel)%nat ->
  is_u 32 a0 -> is_u 32 a1 -> 2 ^ 31 <= b0 < 2 ^ 32 -> is_u 32 b1 ->
  let A := a0 * 2 ^ 32 + a1 in let B := b0 * 2 ^ 32 + b1 in A < B -> B <= 2 * A ->
  exists z0 z1, float64_div_sig fuel a0 a1 b0 b1 = Some (z0, z1) /\ words64 (z0, z1) /\
    2 ^ 31 <= z0 /\ sticky (2 ^ 10) (val64 (z0, z1)) (A * 2 ^ 64) B.
Proof.
  intros Hf H0 H1 Hb0 Hb1 A B HAB Hlo. unfold float64_div_sig.
  assert (HB : 2 ^ 63 <= B < 2 ^ 64) by (unfold B, is_u in *; lia).
  destruct (div_digit_estimate b0 b1 Hb0 Hb1 fuel a0 a1 ltac:(lia) H0 H1 HAB) as (z & -> & Hz & Hq & Hqz).
  destruct (div_digit_exact b0 b1 Hb0 Hb1 fuel a0 a1 z Hf H0 H1 HAB Hz Hq Hqz) as (r1 & r2 & Hl & [W1 W2] & Vr).
  fold A B in Hq, Hqz, Hl, Vr. pose proof (div_next_digit A B ltac:(lia) ltac:(unfold A, is_u in *; lia)) as Ed.
  set (q0 := A * 2 ^ 32 / B) in *. destruct (mul64By32To96 b0 b1 z) as [[t0 t1] t2]. rewrite Hl.
  pose proof (Z.mod_pos_bound (A * 2 ^ 32) B ltac:(lia)) as HR. rewrite <- Vr in HR, Ed.
  assert (Hq31 : 2 ^ 31 <= q0) by (apply Z.div_le_lower_bound; lia).
  rewrite Z.mod_eq in Vr by lia. fold q0 in Vr.
  unfold val64 in HR, Ed, Vr. cbn [fst snd] in *. clear Hl z Hz Hqz t0 t1 t2.
  destruct (div_digit_estimate b0 b1 Hb0 Hb1 fuel r1 r2 ltac:(lia) W1 W2 ltac:(fold B; lia))
    as (y & -> & Hy & Hp & Hpy). fold B in Hp, Hpy.
  assert (Hq0 : q0 < 2 ^ 32) by (apply Z.div_lt_upper_bound; lia).
  change 0x3FF with (2 ^ 10 - 1). rewrite land_ones_mod by lia.
  pose proof (div_bounds (A * 2 ^ 64) B ltac:(lia)) as Hqb.
  destruct (Z.leb_spec (y mod 2 ^ 10) 4) as [Hm|Hm].
  - destruct (div_digit_exact b0 b1 Hb0 Hb1 fuel r1 r2 y Hf W1 W2 ltac:(fold B; lia) Hy Hp Hpy)
      as (s1 & s2 & Hl & [V1 V2] & Vs). fold B in Hl, Vs.
    destruct (mul64By32To96 b0 b1 y) as [[t0 t1] t2]. rewrite Hl.
    set (q1 := (r1 * 2 ^ 32 + r2) * 2 ^ 32 / B) in *.
    assert (EJ : val64 (q0, q1 ||| b2z (truthy (0 ||| s1 ||| s2))) = jam (A * 2 ^ 64) B).
    { unfold val64, jam. cbn [fst snd]. rewrite lor_low, Ed. do 2 f_equal. change (0 ||| s1) with s1.
      rewrite truthy_words, Vs by assumption. unfold truthy. do 2 f_equal.
      rewrite !Z.mod_eq, Ed by lia. fold q1. lia. }
    eexists _, _. split; [reflexivity|]. split; [|split; [assumption|]].
    + split; [unfold is_u; cbn; lia|]. apply lor_b2z_range; lia.
    + rewrite EJ. apply (sticky_weaken 2 (2 ^ 9)), sticky_jam. lia.
  - eexists _, _. split; [reflexivity|].
    split; [split; cbn; unfold is_u; lia | split; [assumption|]].
    set (q1 := (r1 * 2 ^ 32 + r2) * 2 ^ 32 / B) in *. set (Q := A * 2 ^ 64 / B) in *.
    unfold val64. cbn [fst snd].
    pose proof (Z.div_mod y (2 ^ 10) ltac:(lia)) as Ez. pose proof (Z.mod_pos_bound y (2 ^ 10) ltac:(lia)).
    apply (sticky_intro _ _ _ _ (q0 * 2 ^ 22 + y / 2 ^ 10)); [lia | lia | |].
    + assert (2 ^ 10 * (q0 * 2 ^ 22 + y / 2 ^ 10) + 1 <= Q < 2 ^ 10 * (q0 * 2 ^ 22 + y / 2 ^ 10 + 1)) by lia. nia.
    + assert (2 ^ 10 * (q0 * 2 ^ 22 + y / 2 ^ 10) + 1 <= Q) by lia. split; intros; exfalso; nia.
Qed.

(** ** The rounded quotient *)

Lemma le64_val a0 a1 b0 b1 : words64 (a0, a1) -> words64 (b0, b1) ->
  le64 a0 a1 b0 b1 = (val64 (a0, a1) <=? val64 (b0, b1)).
Proof.
  intros [H0 H1] [H2 H3]. unfold le64, val64, is_u in *. cbn [fst snd] in *.
  repeat ztest; cbn [andb orb]; try reflexivity; exfalso; lia.
Qed.

(** The exponent of the quotient. *)
Lemma div_scaled64 m n ea eb ma mb : -51 <= ea <= 0x7FE -> -51 <= eb <= 0x7FE ->
  m * 2 ^ (ea + 51) = ma * 2 ^ 52 -> n * 2 ^ (eb + 51) = mb * 2 ^ 52 ->
  scaled (m * 2 ^ 11 * 2 ^ 96) (n * 2 ^ 11 * 2 ^ 11) (ea - eb + 1021 - 32) (ma * 2 ^ 1074) mb.
Proof.
  intros Ha Hb Va Vb. apply (scaled_intro _ _ _ _ _ 1200); [lia | lia |].
  apply (Z.mul_reg_r _ _ (2 ^ 52)); [lia|].
  set (F := 2 ^ (ea - eb + 1021 - 32 + 1200)).
  replace (m * 2 ^ 11 * 2 ^ 96 * F * mb * 2 ^ 52) with (m * 2 ^ 107 * F * (mb * 2 ^ 52)) by ring.
  replace (ma * 2 ^ 1074 * (n * 2 ^ 11 * 2 ^ 11 * 2 ^ 1200) * 2 ^ 52)
    with (ma * 2 ^ 52 * (2 ^ 1096 * (n * 2 ^ 1200))) by ring.
  rewrite <- Va, <- Vb.
  replace (m * 2 ^ 107 * F * (n * 2 ^ (eb + 51))) with (m * n * 2 ^ 107 * (F * 2 ^ (eb + 51))) by ring.
  unfold F. rewrite <- Z.pow_add_r by lia.
  replace (ea - eb + 1021 - 32 + 1200 + (eb + 51)) with (ea + 51 + 2189) by lia.
  rewrite Z.pow_add_r by lia. ring.
Qed.

(** From the normalised significands to the packed result. *)
Lemma float64_div_round st fuel zSign e a0 a1 b0 b1 A B : (4 < fuel)%nat -> fp_ok st -> is_flag zSign ->
  words64 (a0, a1) -> words64 (b0, b1) -> 2 ^ 63 <= val64 (b0, b1) ->
  val64 (a0, a1) < val64 (b0, b1) -> val64 (b0, b1) <= 2 * val64 (a0, a1) ->
  -2 ^ 15 + 64 <= e < 2 ^ 15 - 64 -> 0 <= A -> 0 < B ->
  scaled (val64 (a0, a1) * 2 ^ 96) (val64 (b0, b1) * 2 ^ 11) (e - 32) A B ->
  (let* (zSig0, zSig1) := lift (float64_div_sig fuel a0 a1 b0 b1) in
   let '(zSig0, zSig1, zSig2) := shift64ExtraRightJamming zSig0 zSig1 0 11 in
   roundAndPackFloat64 zSign e zSig0 zSig1 zSig2) st = rounded64 st zSign A B.
Proof.
  intros Hf Hst Hs [Wa0 Wa1] [Wb0 Wb1] Hn Hlt Hle He HA HB Hsc. cbn [fst snd] in *.
  destruct (float64_div_sig_sticky fuel a0 a1 b0 b1 Hf Wa0 Wa1) as (z0 & z1 & Ez & [W0 W1] & Hz & Hstk);
    [unfold val64, is_u in *; cbn [fst snd] in *; lia | assumption | exact Hlt | exact Hle |].
  unfold bind, lift. rewrite Ez. cbn [fst snd] in *.
  assert (Wz : words96 (z0, z1, 0)) by (split; [assumption | split; [assumption | apply zero_word; lia]]).
  pose proof (shift64Extra_words z0 z1 0 11 Wz ltac:(lia)) as Ws.
  pose proof (shift64Extra_sticky z0 z1 0 11 Wz ltac:(lia)) as Ss.
  set (aV := a0 * 2 ^ 32 + a1) in *. set (bV := b0 * 2 ^ 32 + b1) in *.
  change (val64 (a0, a1)) with aV in *. change (val64 (b0, b1)) with bV in *.
  assert (HbV : 0 < bV) by lia. apply (sticky_scale (2 ^ 32)) in Hstk; [|lia].
  replace (2 ^ 32 * val64 (z0, z1)) with (z0 * 2 ^ 64 + z1 * 2 ^ 32 + 0) in Hstk
    by (unfold val64; cbn [fst snd]; lia).
  assert (E42 : 2 ^ 31 * 2 ^ 11 = 2 ^ 32 * 2 ^ 10 * 1) by reflexivity.
  pose proof (sticky_trans _ _ _ _ _ _ _ _ HbV E42 Hstk Ss) as St.
  destruct (shift64ExtraRightJamming z0 z1 0 11) as [[y0 y1] y2].
  assert (Hy : 2 ^ 20 <= y0 < 2 ^ 21).
  { pose proof (sticky_compare _ _ _ _ (2 ^ 53) St) as C1. pose proof (sticky_compare _ _ _ _ (2 ^ 54) St) as C2.
    destruct Ws as (Y0 & Y1 & Y2). unfold val96, is_u in *. split.
    - destruct (Z.lt_ge_cases y0 (2 ^ 20)) as [H|]; [exfalso|assumption]. nia.
    - assert (y0 * 2 ^ 64 + y1 * 2 ^ 32 + y2 < 2 ^ 31 * 2 ^ 54) by (apply C2; nia). lia. }
  apply (roundAndPackFloat64_ref st zSign e y0 y1 y2 (2 ^ 32 * (aV * 2 ^ 64)) (bV * 2 ^ 11));
    try assumption; try lia.
  now replace (2 ^ 32 * (aV * 2 ^ 64)) with (aV * 2 ^ 96) by lia.
Qed.

Lemma shift64Right_words a0 a1 c : is_u 32 a0 -> is_u 32 a1 -> 0 <= c < 32 ->
  words64 (shift64Right a0 a1 c).
Proof.
  intros H0 H1 Hc. unfold shift64Right. destruct (Z.eqb_spec c 0); [easy|].
  rewrite (proj2 (Z.ltb_lt c 32)) by lia. split; cbn [fst snd]; auto with cint.
Qed.

Lemma float64_div_tail_ref st fuel zSign ea x0 x1 eb y0 y1 m n ma mb :
  (4 < fuel)%nat -> fp_ok st -> is_flag zSign ->
  -51 <= ea <= 0x7FE -> -51 <= eb <= 0x7FE ->
  is_u 32 x1 -> 2 ^ 20 <= x0 ||| 2 ^ 20 < 2 ^ 21 -> val64 (x0 ||| 2 ^ 20, x1) = m ->
  is_u 32 y1 -> 2 ^ 20 <= y0 ||| 2 ^ 20 < 2 ^ 21 -> val64 (y0 ||| 2 ^ 20, y1) = n ->
  2 ^ 52 <= m < 2 ^ 53 -> 2 ^ 52 <= n < 2 ^ 53 ->
  m * 2 ^ (ea + 51) = ma * 2 ^ 52 -> n * 2 ^ (eb + 51) = mb * 2 ^ 52 -> 0 <= ma -> 0 < mb ->
  float64_div_tail fuel zSign ea x0 x1 eb y0 y1 st = rounded64 st zSign (ma * 2 ^ 1074) mb.
Proof.
  intros Hf Hst Hs Ra Rb Hx1 Hx Vm Hy1 Hy Vn Hm Hn Va Vb Pa Pb. unfold float64_div_tail.
  change 0x00100000 with (2 ^ 20). set (u0 := x0 ||| 2 ^ 20) in *. set (v0 := y0 ||| 2 ^ 20) in *.
  pose proof (div_scaled64 m n ea eb _ _ Ra Rb Va Vb) as Hsc. rewrite (s16_small (ea - eb + 1021)) by lia.
  destruct (shortShift64Left_val u0 x1 11) as [Wa Ea];
    [split; cbn; [unfold is_u; lia | assumption] | lia | change (val64 (u0, x1) * 2 ^ 11 < 2 ^ 64); rewrite Vm; lia |].
  destruct (shortShift64Left_val v0 y1 11) as [Wb Eb];
    [split; cbn; [unfold is_u; lia | assumption] | lia | change (val64 (v0, y1) * 2 ^ 11 < 2 ^ 64); rewrite Vn; lia |].
  destruct (shortShift64Left u0 x1 11) as [a0 a1]. destruct (shortShift64Left v0 y1 11) as [b0 b1].
  rewrite Vm in Ea. rewrite Vn in Eb. rewrite le64_val, Ea, Eb by assumption.
  destruct (Z.leb_spec (n * 2 ^ 11) (m * 2 ^ 11)).
  - pose proof Wa as [Wa0 Wa1]. cbn [fst snd] in *.
    pose proof (shift64Right_div a0 a1 1 Wa0 Wa1 ltac:(lia)) as Er.
    pose proof (shift64Right_words a0 a1 1 Wa0 Wa1 ltac:(lia)) as Wr.
    change (a0 * 2 ^ 32 + a1) with (val64 (a0, a1)) in Er. rewrite Ea in Er.
    replace (m * 2 ^ 11 / 2 ^ 1) with (m * 2 ^ 10) in Er by dlia.
    destruct (shift64Right a0 a1 1) as [c0 c1]. rewrite s16_small by lia.
    apply float64_div_round; try assumption; rewrite ?Er, ?Eb; try lia.
    replace (ea - eb + 1021 + 1 - 32) with (ea - eb + 1021 - 32 + 1) by lia.
    apply scaled_shift; [lia|]. now replace (m * 2 ^ 10 * 2 ^ 96 * 2 ^ 1) with (m * 2 ^ 11 * 2 ^ 96) by lia.
  - apply float64_div_round; try assumption; rewrite ?Ea, ?Eb; try lia. exact Hsc.
Qed.

Definition ref_div64 (st : fpstate) (a b : float64) : option (float64 * fpstate) :=
  let s := f64_sign a ^^^ f64_sign b in
  if f64_is_nan a || f64_is_nan b then propagateFloat64NaN a b st
  else if f64_is_inf a then
    (if f64_is_inf b then invalid64 st else Some (f64_inf s, st))
  else if f64_is_inf b then Some (of_bits64 (s * 2 ^ 63), st)
  else if f64_mag b =? 0 then
    (if f64_mag a =? 0 then invalid64 st else Some (f64_inf s, raised st float_flag_divbyzero))
  else rounded64 st s (f64_mag a * 2 ^ 1074) (f64_mag b).

Lemma pack_signed_zero64 s st : is_flag s ->
  ret (packFloat64 s 0 0 0) st = Some (of_bits64 (s * 2 ^ 63), st).
Proof.
  intros Hs. unfold ret. rewrite packFloat64_eq by (assumption || lia || (apply zero_word; lia)).
  change (val64 (0, 0)) with 0. f_equal. f_equal. f_equal. lia.
Qed.

Lemma float64_div_finite st fuel a b : (4 < fuel)%nat -> fp_ok st -> f64_finite a -> f64_finite b ->
  0 < f64_mag b ->
  float64_div fuel a b st
  = rounded64 st (f64_sign a ^^^ f64_sign b) (f64_mag a * 2 ^ 1074) (f64_mag b).
Proof.
  intros Hf Hst Fa Fb Mb. pose proof Fa as [Ha Ea]. pose proof Fb as [Hb Eb].
  pose proof (f64_mag_nonneg a Ha).
  assert (Hs : is_flag (f64_sign a ^^^ f64_sign b)) by (apply xor_flag; now apply f64_sign_flag).
  unfold float64_div. rewrite !sign64_div. set (s := f64_sign a ^^^ f64_sign b) in *.
  rewrite (proj2 (Z.eqb_neq (extractFloat64Exp a) 0x7FF)), (proj2 (Z.eqb_neq (extractFloat64Exp b) 0x7FF))
    by lia.
  rewrite <- !f64_mag_zero by assumption. fold (norm64 a) (norm64 b).
  rewrite (proj2 (Z.eqb_neq (f64_mag b) 0)) by lia.
  pose proof (norm64_spec b Fb Mb) as Nb. destruct (norm64 b) as [[eb y0] y1].
  destruct (Z.eqb_spec (f64_mag a) 0) as [Za|Za]; [rewrite Za; now apply pack_zero64|].
  pose proof (norm64_spec a Fa ltac:(lia)) as Na. destruct (norm64 a) as [[ea x0] x1].
  destruct Na as (R1 & R2 & R3 & m & R4 & R5 & R6 & R7 & R8).
  destruct Nb as (S1 & S2 & S3 & n & S4 & S5 & S6 & S7 & S8).
  now apply (float64_div_tail_ref st fuel s ea x0 x1 eb y0 y1 m n).
Qed.

(** Double-precision division terminates (each quotient digit needs at most four corrections)
    and returns the exact quotient rounded in the current mode, with exactly the exceptions of
    that rounding; a finite nonzero operand over zero raises divide-by-zero and gives infinity,
    0/0 and inf/inf are invalid. *)
Lemma float64_div_correct st fuel a b : (4 < fuel)%nat -> fp_ok st -> f64_word a -> f64_word b ->
  float64_div fuel a b st = ref_div64 st a b.
Proof.
  intros Hf Hst Ha Hb. unfold ref_div64.
  assert (Hs : is_flag (f64_sign a ^^^ f64_sign b)) by (apply xor_flag; now apply f64_sign_flag).
  pose proof (f64_mag_nonneg b Hb).
  destruct (special_cases64 a Ha) as [(Na & Ia & Fa & Za) | [(Na & Ia & Fa & Za & _) | (Na & Ia & Fa)]];
    destruct (special_cases64 b Hb) as [(Nb & Ib & Fb & Zb) | [(Nb & Ib & Fb & Zb & _) | (Nb & Ib & Fb)]];
    rewrite Na, ?Nb, ?Ia, ?Ib; cbn [orb]; try (destruct (Z.eqb_spec (f64_mag b) 0) as [Mb|Mb]).
  all: try (apply float64_div_finite; solve [assumption | lia | split; assumption]).
  all: unfold float64_div; rewrite !sign64_div; set (s := f64_sign a ^^^ f64_sign b) in *.
  all: rewrite !f64_zero_words, <- ?f64_mag_zero, ?Za, ?Zb, ?Fa, ?Fb by assumption.
  all: rewrite ?(proj2 (Z.eqb_neq (extractFloat64Exp a) 0x7FF)) by lia.
  all: rewrite ?(proj2 (Z.eqb_neq (extractFloat64Exp b) 0x7FF)) by lia.
  all: rewrite ?Mb; cbn [Z.eqb Pos.eqb andb orb negb].
  all: try reflexivity; try (now apply invalid64_eq); try (now apply pack_inf64);
    try (now apply pack_signed_zero64).
  destruct (f64_mag a =? 0); [now apply invalid64_eq|]. unfold bind.
  rewrite float_raise_eq by (assumption || flag_range). now apply pack_inf64.
Qed.

(** C2: Double-precision multiplication and division, built on 32-bit words, return the exact product
    or quotient rounded in the current mode, with exactly the exceptions of that rounding, for all
    finite operands including subnormals; the division terminates (each quotient digit needs at
    most four corrections).  Zero times infinity, 0/0 and inf/inf are invalid, a finite nonzero
    operand over zero raises divide-by-zero and gives infinity, and NaN operands propagate. *)
Theorem float64_products_correct st fuel a b : (4 < fuel)%nat -> fp_ok st -> f64_word a -> f64_word b ->
  float64_mul a b st = ref_mul64 st a b /\ float64_div fuel a b st = ref_div64 st a b.
Proof. intros. split; [now apply float64_mul_correct | now apply float64_div_correct]. Qed.

(** 1.5 * -2.5 is exact; 1/3 is inexact. *)
Lemma float64_products_witness :
  float64_mul (of_bits64 0x3FF8000000000000) (of_bits64 0xC004000000000000) fp_init
    = Some (of_bits64 0xC00E000000000000, fp_init) /\
  float64_div 5 (of_bits64 0x3FF0000000000000) (of_bits64 0x4008000000000000) fp_init
    = Some (of_bits64 0x3FD5555555555555, raised fp_init float_flag_inexact).
Proof.
  split.
  - rewrite (proj1 (float64_products_correct fp_init 5 (of_bits64 0x3FF8000000000000)
      (of_bits64 0xC004000000000000) ltac:(lia) fp_init_ok
      ltac:(split; cbn; unfold is_u; lia) ltac:(split; cbn; unfold is_u; lia))). vm_compute. reflexivity.
  - rewrite (proj2 (float64_products_correct fp_init 5 (of_bits64 0x3FF0000000000000)
      (of_bits64 0x4008000000000000) ltac:(lia) fp_init_ok
      ltac:(split; cbn; unfold is_u; lia) ltac:(split; cbn; unfold is_u; lia))). vm_compute. reflexivity.
Defined.
