(* ===== verification/Float64Rem.v ===== *)
(** * The double-precision remainder is the IEEE remainder

    As in single precision, with significands of two words: the quotient is developed twenty-nine
    bits at a time from estimates that may be four too large, and only the remainder and the parity
    of the quotient are kept. *)

From S2P Require Import Prelude.
From S2P Require Import CInt.
From S2P Require Import FPState.
From S2P Require Import Rounding.
From S2P Require Import SoftFloatPrim.
From S2P Require Import Float64.
From S2P Require Import Float32Round.
From S2P Require Import Float32Arith.
From S2P Require Import Float32MulDiv.
From S2P Require Import Float32Rem.
From S2P Require Import Float64Round.
From S2P Require Import Float64Arith.
From S2P Require Import Float64Sum.
From S2P Require Import Float64MulDiv.
From S2P Require Import Float64Div.

(** ** Specification *)

(** The remainder is exact: it raises nothing and keeps the sign of [a] when it is zero. *)
Definition is_rem64 (a b z : float64) : Prop :=
  let r := rem_mag (f64_mag a) (f64_mag b) in
  f64_word z /\ f64_sign z = f64_sign a ^^^ b2z (r <? 0) /\ f64_mag z = Z.abs r.

(** ** Pairs of words as integers modulo 2^64 *)

Definition is64 (w : Z * Z) (v : Z) : Prop := words64 w /\ val64 w = v mod 2 ^ 64.

Lemma is64_val w v : words64 w -> val64 w = v -> is64 w v.
Proof.
  intros [H0 H1] <-. split; [now split|]. symmetry. apply Z.mod_small. unfold val64, is_u in *. lia.
Qed.

Lemma is64_exact w v : is64 w v -> 0 <= v < 2 ^ 64 -> val64 w = v.
Proof. intros [_ ->] Hv. now apply Z.mod_small. Qed.

Lemma is64_unique v w w' : is64 w v -> is64 w' v -> w = w'.
Proof.
  intros [[H0 H1] E] [[H2 H3] E']. destruct w as [x y], w' as [x' y'].
  unfold val64, is_u in *. cbn [fst snd] in *. f_equal; lia.
Qed.

Lemma sub64_is a0 a1 b0 b1 v w : is64 (a0, a1) v -> is64 (b0, b1) w -> is64 (sub64 a0 a1 b0 b1) (v - w).
Proof.
  intros [Wa Ea] [Wb Eb]. destruct (sub64_val a0 a1 b0 b1 Wa Wb) as [W E]. split; [exact W|].
  now rewrite E, Ea, Eb, <- Zminus_mod.
Qed.

Lemma add64_is a0 a1 b0 b1 v w : is64 (a0, a1) v -> is64 (b0, b1) w -> is64 (add64 a0 a1 b0 b1) (v + w).
Proof.
  intros [Wa Ea] [Wb Eb]. destruct (add64_val a0 a1 b0 b1 Wa Wb) as [W E]. split; [exact W|].
  now rewrite E, Ea, Eb, <- Zplus_mod.
Qed.

Lemma shortShift64Left_is a0 a1 c v : is64 (a0, a1) v -> 0 <= c < 32 ->
  is64 (shortShift64Left a0 a1 c) (v * 2 ^ c).
Proof.
  intros [Wa Ea] Hc. destruct (Z.eq_dec c 0) as [->|H0].
  - change (2 ^ 0) with 1. rewrite Z.mul_1_r. unfold shortShift64Left. cbn [Z.eqb].
    destruct Wa as [H0 H1]. cbn [fst snd] in *. rewrite Z.shiftl_0_r, u32_small by exact H1. now split.
  - destruct (shortShift64Left_mod a0 a1 c Wa ltac:(lia)) as [W E]. split; [exact W|].
    now rewrite E, Ea, Z.mul_mod_idemp_l.
Qed.

(** The sign bit of a pair of words. *)
Lemma sign64_is w v : is64 w v -> - 2 ^ 63 <= v < 2 ^ 63 -> (s32 (fst w) <? 0) = (v <? 0).
Proof.
  intros [[H0 H1] E] Hv. rewrite s32_neg by exact H0. unfold val64, is_u in *.
  destruct (Z.leb_spec (2 ^ 31) (fst w)), (Z.ltb_spec v 0); try reflexivity; exfalso; dlia.
Qed.

Lemma zero64_is w v : is64 w v -> - 2 ^ 63 <= v < 2 ^ 63 -> ((fst w ||| snd w) =? 0) = (v =? 0).
Proof.
  intros [[H0 H1] E] Hv. rewrite lor_eq0. unfold val64, is_u in *.
  destruct (Z.eqb_spec (fst w) 0), (Z.eqb_spec (snd w) 0), (Z.eqb_spec v 0); cbn [andb]; try reflexivity; exfalso; dlia.
Qed.

(** The three-word left shift reduces modulo 2^96. *)
Lemma shortShift96Left_mod a0 a1 a2 c : words96 (a0, a1, a2) -> 0 < c < 32 ->
  words96 (shortShift96Left a0 a1 a2 c) /\
  val96 (shortShift96Left a0 a1 a2 c) = (val96 (a0, a1, a2) * 2 ^ c) mod 2 ^ 96.
Proof.
  intros (H0 & H1 & H2) Hc. unfold shortShift96Left. rewrite (proj2 (Z.ltb_lt 0 c)), neg_count_lo by lia.
  rewrite s8_small, !shr_div, !u32_shl by lia.
  replace (2 ^ c) with (2 ^ (32 - (32 - c))) by (f_equal; lia).
  rewrite !join_words by (assumption || lia). replace (32 - (32 - c)) with c by lia.
  assert (J : forall x y, is_u 32 y ->
    0 <= x mod 2 ^ (32 - c) * 2 ^ c + y / 2 ^ (32 - c) < 2 ^ 32 /\ 0 <= x mod 2 ^ (32 - c) * 2 ^ c < 2 ^ 32).
  { intros x y Hy. pose proof (pow2_pos c ltac:(lia)). pose proof (pow2_pos (32 - c) ltac:(lia)).
    pose proof (Z.mod_pos_bound x (2 ^ (32 - c)) ltac:(lia)).
    pose proof (div_pow2_range y (32 - c) 32 ltac:(lia) Hy) as R. replace (32 - (32 - c)) with c in R by lia.
    assert (E : 2 ^ 32 = 2 ^ (32 - c) * 2 ^ c) by (rewrite <- Z.pow_add_r by lia; f_equal; lia). nia. }
  pose proof (J a0 a1 H1) as [J0 _]. pose proof (J a1 a2 H2) as [J1 _].
  pose proof (J a2 0 ltac:(apply zero_word; lia)) as [_ J2].
  split; [repeat split; apply J0 || apply J1 || apply J2|].
  pose proof (pow2_pos (32 - c) ltac:(lia)).
  assert (E : 2 ^ 32 = 2 ^ (32 - c) * 2 ^ c) by (rewrite <- Z.pow_add_r by lia; f_equal; lia).
  pose proof (Z.div_mod a0 (2 ^ (32 - c)) ltac:(lia)) as D0. pose proof (Z.div_mod a1 (2 ^ (32 - c)) ltac:(lia)) as D1.
  pose proof (Z.div_mod a2 (2 ^ (32 - c)) ltac:(lia)) as D2.
  unfold val96. set (p := 2 ^ (32 - c)) in *. set (k := 2 ^ c) in *. clearbody p k.
  set (d0 := a0 / p) in *. set (m0 := a0 mod p) in *. set (d1 := a1 / p) in *. set (m1 := a1 mod p) in *.
  set (d2 := a2 / p) in *. set (m2 := a2 mod p) in *. clearbody d0 d1 d2 m0 m1 m2.
  apply (Z.mod_unique _ _ d0); [left; lia|]. rewrite D0, D1, D2.
  replace (2 ^ 96) with (p * k * 2 ^ 64) by (rewrite <- E; lia).
  replace (((p * d0 + m0) * 2 ^ 64 + (p * d1 + m1) * 2 ^ 32 + (p * d2 + m2)) * k)
    with (p * k * d0 * 2 ^ 64 + m0 * k * 2 ^ 64 + (p * k * d1 * 2 ^ 32 + m1 * k * 2 ^ 32) + (p * k * d2 + m2 * k)) by ring.
  rewrite <- E. lia.
Qed.

(** ** Quotient digits *)

(** The estimate less four, and not below zero, is at most four too small. *)
Definition low_estimate4 (e : Z) : Z := if 4 <? e then u32 (e - 4) else 0.

Lemma low_estimate4_spec fuel a0 a1 b0 b1 A B : (2 < fuel)%nat -> is64 (a0, a1) A -> is64 (b0, b1) B ->
  2 ^ 63 <= B < 2 ^ 64 -> 0 <= A < B ->
  exists e, estimateDiv64To32 fuel a0 a1 b0 = Some e /\
    let q := low_estimate4 e in 0 <= q < 2 ^ 32 /\ q * B <= A * 2 ^ 32 < (q + 5) * B.
Proof.
  intros Hf Ha Hb HB HA. pose proof (is64_exact _ _ Ha ltac:(lia)) as Ea. pose proof (is64_exact _ _ Hb ltac:(lia)) as Eb.
  destruct Ha as [[A0 A1] _], Hb as [[B0 B1] _]. unfold val64, is_u in *. cbn [fst snd] in *.
  destruct (div_digit_estimate b0 b1 ltac:(lia) B1 fuel a0 a1 Hf A0 A1 ltac:(lia)) as (e & -> & He & Hq).
  rewrite Ea, Eb in Hq. pose proof (div_bounds (A * 2 ^ 32) B ltac:(lia)) as Hd. cbv zeta in Hq.
  set (Q := A * 2 ^ 32 / B) in *. clearbody Q.
  exists e. split; [reflexivity|]. unfold low_estimate4.
  destruct (Z.ltb_spec 4 e); [rewrite u32_small by lia|]; cbv zeta; (split; [lia|]; nia).
Qed.

(** The dropped low words are zero. *)
Lemma shifted_product w v : words96 w -> val96 w = (2 ^ 32 * v) mod 2 ^ 96 ->
  let '(w0, w1, _) := w in is64 (w0, w1) v.
Proof.
  destruct w as [[w0 w1] w2]. intros (H0 & H1 & H2) E. replace (2 ^ 96) with (2 ^ 32 * 2 ^ 64) in E by reflexivity.
  rewrite Z.mul_mod_distr_l in E by lia. unfold val96, is_u in *. split; [now split|].
  unfold val64. cbn [fst snd]. lia.
Qed.

Lemma shifted_dividend w v : is64 w (2 ^ 32 * v) -> is64 (fst w, 0) (2 ^ 32 * v).
Proof.
  destruct w as [w0 w1]. intros [[H0 H1] E]. split; [split; [exact H0 | apply zero_word; lia]|].
  rewrite <- E. replace (2 ^ 64) with (2 ^ 32 * 2 ^ 32) in E by reflexivity.
  rewrite Z.mul_mod_distr_l in E by lia. unfold val64, is_u in *. cbn [fst snd] in *. lia.
Qed.

(** One round of the first loop: the remainder of twenty-nine more quotient bits, an even number of
    which contribute to the quotient. *)
Lemma float64_rem_round fuel a0 a1 b0 b1 A B q E : (2 < fuel)%nat -> is64 (a0, a1) A -> is64 (b0, b1) B ->
  2 ^ 63 <= B < 2 ^ 64 -> B mod 2 ^ 11 = 0 -> 0 <= A < B -> A mod 2 ^ 8 = 0 -> 0 < E < 2 ^ 14 ->
  exists q' a0' a1' A' c, float64_rem_body fuel b0 b1 (q, a0, a1, E) = Some (q', a0', a1', E - 29) /\
    is64 (a0', a1') A' /\ 0 <= A' < B /\ A' mod 2 ^ 8 = 0 /\
    A * 2 ^ (E + 32) = A' * 2 ^ (E + 3) + 2 * (B * c).
Proof.
  intros Hf Ha Hb HB HB11 HA HA8 HE.
  destruct (low_estimate4_spec fuel a0 a1 b0 b1 A B Hf Ha Hb HB HA) as (e & Ee & Hq & Hd).
  unfold float64_rem_body. rewrite Ee. fold (low_estimate4 e). set (n := low_estimate4 e) in *. clearbody n.
  assert (EB : B = 8 * (2 ^ 8 * (B / 2 ^ 11))) by dlia. set (b := B / 2 ^ 11) in *. clearbody b.
  assert (EA : A = 2 ^ 8 * (A / 2 ^ 8)) by dlia. set (x := A / 2 ^ 8) in *. clearbody x.
  destruct (mul64By32To96_val b0 b1 n (proj1 Hb) Hq) as [Wt Et]. rewrite (is64_exact _ _ Hb) in Et by lia.
  destruct (mul64By32To96 b0 b1 n) as [[t0 t1] t2].
  destruct (shortShift96Left_mod t0 t1 t2 29 Wt ltac:(lia)) as [Ws Es]. rewrite Et in Es.
  replace (B * n * 2 ^ 29) with (2 ^ 32 * (2 ^ 8 * b * n)) in Es by (rewrite EB; ring).
  pose proof (shifted_product _ _ Ws Es) as Ht. destruct (shortShift96Left t0 t1 t2 29) as [[u0 u1] u2].
  pose proof (shortShift64Left_is a0 a1 29 A Ha ltac:(lia)) as Hs.
  replace (A * 2 ^ 29) with (2 ^ 32 * (2 ^ 5 * x)) in Hs by (rewrite EA; ring).
  apply shifted_dividend in Hs. destruct (shortShift64Left a0 a1 29) as [v0 v1]. cbn [fst] in Hs.
  pose proof (sub64_is _ _ _ _ _ _ Hs Ht) as Hr. destruct (sub64 v0 0 u0 u1) as [r0 r1].
  rewrite s16_small by lia. exists n, r0, r1, (2 ^ 32 * (2 ^ 5 * x) - 2 ^ 8 * b * n), (n * 2 ^ (E - 1)).
  split; [reflexivity|]. split; [exact Hr|]. split; [nia|]. split.
  - replace (2 ^ 32 * (2 ^ 5 * x) - 2 ^ 8 * b * n) with ((2 ^ 29 * x - b * n) * 2 ^ 8) by ring. apply Z.mod_mul. lia.
  - replace (E + 32) with (E - 1 + 33) by lia. replace (E + 3) with (E - 1 + 4) by lia.
    rewrite !Z.pow_add_r by lia. rewrite EA, EB. ring.
Qed.

Lemma float64_rem_rounds fuel a0 a1 b0 b1 A B q E : (73 < fuel)%nat -> is64 (a0, a1) A -> is64 (b0, b1) B ->
  2 ^ 63 <= B < 2 ^ 64 -> B mod 2 ^ 11 = 0 -> 0 <= A < B -> A mod 2 ^ 8 = 0 -> -33 <= E <= 2070 ->
  exists q' a0' a1' A' E',
    while_opt fuel (fun s => 0 <? snd s) (float64_rem_body fuel b0 b1) (q, a0, a1, E) = Some (q', a0', a1', E') /\
    is64 (a0', a1') A' /\ -33 <= E' <= 0 /\ 0 <= A' < B /\ A' mod 2 ^ 8 = 0 /\
    (if 0 <? E then -32 < E' /\ exists c, A * 2 ^ (E + 32) = A' * 2 ^ (E' + 32) + 2 * (B * c)
     else q' = q /\ A' = A /\ E' = E).
Proof.
  intros Hf Ha Hb HB HB11 HA HA8 HE. destruct (Z.ltb_spec 0 E) as [HE0|HE0].
  2: { exists q, a0, a1, A, E. destruct fuel as [|fuel]; [lia|]. cbn [while_opt snd].
       rewrite (proj2 (Z.ltb_ge 0 E)) by lia. repeat split; lia || apply Ha. }
  pose (I := fun (n : nat) (s : Z * Z * Z * Z) => exists q' a0' a1' E' A' c, s = (q', a0', a1', E') /\
    is64 (a0', a1') A' /\ -29 < E' /\ E' <= 29 * Z.of_nat n /\ E' <= E /\ 0 <= A' < B /\ A' mod 2 ^ 8 = 0 /\
    A * 2 ^ (E + 32) = A' * 2 ^ (E' + 32) + 2 * (B * c)).
  destruct (while_opt_rule (fun s => 0 <? snd s) (float64_rem_body fuel b0 b1) I)
    with (n := 73%nat) (fuel := fuel) (s := (q, a0, a1, E))
    as (s & n & Hr & Hc & (q' & a0' & a1' & E' & A' & c & -> & H0 & H1 & H2 & H3 & H4 & H5 & H6)).
  - intros n s (q' & a0' & a1' & E' & A' & c & -> & H0 & H1 & H2 & H3 & H4 & H5 & H6) Hc.
    cbn [snd] in Hc. apply Z.ltb_lt in Hc.
    destruct (float64_rem_round fuel a0' a1' b0 b1 A' B q' E') as (q2 & x0 & x1 & A2 & c2 & Es & G0 & G1 & G2 & G3);
      try assumption; try lia.
    exists (q2, x0, x1, E' - 29), (n - 1)%nat. split; [exact Es|]. split; [lia|].
    exists q2, x0, x1, (E' - 29), A2, (c + c2). split; [reflexivity|]. split; [exact G0|].
    repeat split; try assumption; try lia.
    rewrite H6, G3. replace (E' - 29 + 32) with (E' + 3) by lia. ring.
  - exists q, a0, a1, E, A, 0. split; [reflexivity|]. split; [exact Ha|]. repeat split; try assumption; lia.
  - lia.
  - cbn [snd] in Hc. apply Z.ltb_ge in Hc. exists q', a0', a1', A', E'. split; [exact Hr|]. split; [exact H0|].
    repeat split; try assumption; try lia. now exists c.
Qed.

(** Shifting right a pair of words. *)
Lemma shift64Right_is a0 a1 c v : is64 (a0, a1) v -> 0 <= v < 2 ^ 64 -> 0 <= c < 32 ->
  is64 (shift64Right a0 a1 c) (v / 2 ^ c).
Proof.
  intros Ha Hv Hc. pose proof (is64_exact _ _ Ha Hv) as E. destruct Ha as [[H0 H1] _]. cbn [fst snd] in *.
  apply is64_val; [now apply shift64Right_words|]. rewrite shift64Right_div by (assumption || lia).
  unfold val64 in E. cbn [fst snd] in E. now rewrite E.
Qed.

(** Aligning the dividend with the divisor, both eight bits down. *)
Lemma aligned_dividend a0 a1 A D : is64 (a0, a1) A -> 0 <= A < 2 ^ 64 -> A mod 2 ^ 8 = 0 -> 0 < D <= 32 ->
  is64 (if D - 8 <? 0 then shift64Right a0 a1 (s16 (- (D - 8))) else shortShift64Left a0 a1 (D - 8))
    (A / 2 ^ 8 * 2 ^ D).
Proof.
  intros Ha HA HA8 HD. assert (EA : A = A / 2 ^ 8 * 2 ^ 8) by dlia. set (x := A / 2 ^ 8) in *.
  destruct (Z.ltb_spec (D - 8) 0) as [H|H].
  - rewrite s16_small by lia. replace (x * 2 ^ D) with (A / 2 ^ (- (D - 8))); [apply shift64Right_is; assumption || lia|].
    rewrite EA. replace (2 ^ 8) with (2 ^ D * 2 ^ (- (D - 8))) by (rewrite <- Z.pow_add_r by lia; f_equal; lia).
    rewrite Z.mul_assoc, Z.div_mul; [reflexivity|]. pose proof (pow2_pos (- (D - 8)) ltac:(lia)). lia.
  - replace (x * 2 ^ D) with (A * 2 ^ (D - 8)); [apply shortShift64Left_is; assumption || lia|].
    rewrite EA. replace D with (8 + (D - 8)) at 2 by lia. rewrite (Z.pow_add_r 2 8) by lia. ring.
Qed.

(** The remainder after the last bits of the quotient stays below five divisors. *)
Lemma last_bits A B n D : 0 <= n -> 0 < B -> n * B <= A * 2 ^ 32 < (n + 5) * B -> 0 < D <= 32 ->
  0 <= A * 2 ^ D - B * (n / 2 ^ (32 - D)) < 5 * B.
Proof.
  intros Hn0 HB Hb HD. pose proof (pow2_pos (32 - D) ltac:(lia)) as Pc.
  pose proof (div_bounds n (2 ^ (32 - D)) Pc) as Hn. set (q := n / 2 ^ (32 - D)) in *. clearbody q.
  assert (E32 : 2 ^ 32 = 2 ^ D * 2 ^ (32 - D)) by (rewrite <- Z.pow_add_r by lia; f_equal; lia).
  rewrite E32 in Hb. set (k := 2 ^ (32 - D)) in *. clearbody k. split.
  - assert (q * k * B <= A * (2 ^ D * k)) by nia. nia.
  - assert (A * (2 ^ D * k) < (q + 5) * k * B) by nia. nia.
Qed.

(** The last bits of the quotient. *)
Lemma float64_rem_last_spec fuel a0 a1 b0 b1 A B q D : (2 < fuel)%nat -> is64 (a0, a1) A -> is64 (b0, b1) B ->
  2 ^ 63 <= B < 2 ^ 64 -> B mod 2 ^ 11 = 0 -> 0 <= A < B -> A mod 2 ^ 8 = 0 -> -1 <= D <= 32 ->
  exists q' a0' a1' b0' b1' x,
    float64_rem_last fuel q a0 a1 b0 b1 (D - 32) = Some (q', a0', a1', b0', b1') /\
    is64 (a0', a1') x /\ is64 (b0', b1') (B / 2 ^ 8) /\ 0 <= x < 5 * (B / 2 ^ 8) /\
    if 0 <? D then A * 2 ^ D = 2 ^ 8 * x + B * q' else q' = q /\ 2 ^ 8 * x = A.
Proof.
  intros Hf Ha Hb HB HB11 HA HA8 HD. unfold float64_rem_last.
  pose proof (shift64Right_is b0 b1 8 B Hb ltac:(lia) ltac:(lia)) as Hb'.
  assert (EB : B = 2 ^ 8 * (B / 2 ^ 8)) by dlia. set (b := B / 2 ^ 8) in *. clearbody b.
  assert (EA : A = 2 ^ 8 * (A / 2 ^ 8)) by dlia.
  destruct (Z.ltb_spec (-32) (D - 32)) as [H|H]; destruct (Z.ltb_spec 0 D); try lia.
  2: { pose proof (shift64Right_is a0 a1 8 A Ha ltac:(lia) ltac:(lia)) as Ha'.
       destruct (shift64Right a0 a1 8) as [a0' a1'], (shift64Right b0 b1 8) as [b0' b1'].
       exists q, a0', a1', b0', b1', (A / 2 ^ 8). split; [reflexivity|].
       split; [exact Ha'|]. split; [exact Hb'|]. split; [lia|]. split; [reflexivity | lia]. }
  destruct (low_estimate4_spec fuel a0 a1 b0 b1 A B Hf Ha Hb HB HA) as (e & -> & Hq & Hd). fold (low_estimate4 e).
  cbv zeta. set (n := low_estimate4 e) in *. clearbody n.
  replace (- (D - 32)) with (32 - D) by lia. replace (D - 32 + 24) with (D - 8) by lia.
  rewrite shr_div, (s16_small (D - 8)) by lia.
  pose proof (last_bits A B n D ltac:(lia) ltac:(lia) Hd ltac:(lia)) as Hx.
  assert (Wq : is_u 32 (n / 2 ^ (32 - D))) by (pose proof (div_pow2_range n (32 - D) 32 ltac:(lia) Hq); unfold is_u; pose proof (pow2_le (32 - (32 - D)) 32 ltac:(lia) ltac:(lia)); lia).
  set (q' := n / 2 ^ (32 - D)) in *. clearbody q'.
  pose proof (aligned_dividend a0 a1 A D Ha ltac:(lia) HA8 ltac:(lia)) as Ha'. set (x := A / 2 ^ 8) in *. clearbody x.
  destruct (shift64Right b0 b1 8) as [b0' b1'].
  destruct (if D - 8 <? 0 then _ else _) as [v0 v1].
  destruct (mul64By32To96_val b0' b1' q' (proj1 Hb') Wq) as [Wt Et]. rewrite (is64_exact _ _ Hb') in Et by lia.
  destruct (mul64By32To96 b0' b1' q') as [[t0 t1] t2].
  assert (Ht : is64 (t1, t2) (b * q')).
  { destruct Wt as (W0 & W1 & W2). split; [now split|]. rewrite <- Et. unfold val96, val64, is_u in *. cbn [fst snd]. dlia. }
  pose proof (sub64_is _ _ _ _ _ _ Ha' Ht) as Hr. destruct (sub64 v0 v1 t1 t2) as [r0 r1].
  exists q', r0, r1, b0', b1', (x * 2 ^ D - b * q'). split; [reflexivity|]. split; [exact Hr|]. split; [exact Hb'|].
  assert (EAD : A * 2 ^ D = 2 ^ 8 * (x * 2 ^ D)) by (rewrite EA; ring). rewrite EAD, EB in Hx.
  split; [lia|]. rewrite EAD, EB. ring.
Qed.

(** ** The final subtractions *)

(** At most five subtractions leave the remainder and the value below zero after it. *)
Lemma float64_rem_subs b b0 b1 : is64 (b0, b1) b -> 2 ^ 55 <= b < 2 ^ 56 -> forall n fuel q a x z,
  (n <= 4)%nat -> (n < fuel)%nat -> is64 a x -> 0 <= x < Z.of_nat (S n) * b ->
  exists k r a' r', 0 <= k /\ x = k * b + r /\ 0 <= r < b /\ is64 r' r /\ is64 a' (r - b) /\
    do_while fuel (float64_rem_sub b0 b1) (fun s => 0 <=? s32 (fst (snd (fst s)))) (q, a, z)
    = Some (u32 (q + k + 1), a', r').
Proof.
  intros Hb Rb.
  assert (St : forall q a0 a1 z, float64_rem_sub b0 b1 (q, (a0, a1), z)
    = (u32 (q + 1), sub64 a0 a1 b0 b1, (a0, a1))) by reflexivity.
  induction n as [|n IH]; intros [|fuel] q [a0 a1] x z Hn Hf Ha Hx; try lia.
  all: pose proof (sub64_is _ _ _ _ _ _ Ha Hb) as Hs; pose proof (sign64_is _ _ Hs ltac:(nia)) as Sg.
  all: unfold do_while; rewrite St; cbn [while fst snd].
  all: replace (0 <=? s32 (fst (sub64 a0 a1 b0 b1))) with (0 <=? x - b)
    by (now rewrite !(Z.leb_antisym _ 0), Sg).
  - rewrite (proj2 (Z.leb_gt 0 (x - b))) by lia. exists 0, x, (sub64 a0 a1 b0 b1), (a0, a1).
    rewrite Z.add_0_r. repeat split; try lia; apply Ha || apply Hs.
  - destruct (Z.leb_spec 0 (x - b)) as [Hp|Hp].
    + destruct (IH fuel (u32 (q + 1)) _ (x - b) (a0, a1) ltac:(lia) ltac:(lia) Hs
        ltac:(revert Hx; rewrite (Nat2Z.inj_succ (S n)), Z.mul_succ_l; lia))
        as (k & r & a' & r' & Hk & Ex & Hr & Er & Ea & Eq).
      exists (k + 1), r, a', r'. unfold do_while in Eq. rewrite Eq.
      split; [lia|]. split; [lia|]. split; [lia|]. split; [exact Er|]. split; [exact Ea|].
      rewrite u32_add_l2. now replace (q + (k + 1) + 1) with (q + 1 + k + 1) by lia.
    + exists 0, x, (sub64 a0 a1 b0 b1), (a0, a1). rewrite Z.add_0_r.
      repeat split; try lia; apply Ha || apply Hs.
Qed.

(** ** The whole quotient *)

(** The statements of [float64_rem] from the first comparison to the final subtractions. *)
Definition rem_quotient64 (fuel : nat) (a0 a1 b0 b1 D : Z) : option (Z * Z * Z * Z * Z) :=
  let q := b2z (le64 b0 b1 a0 a1) in
  let '(a0, a1) := if truthy q then sub64 a0 a1 b0 b1 else (a0, a1) in
  match while_opt fuel (fun s => 0 <? snd s) (float64_rem_body fuel b0 b1) (q, a0, a1, s16 (D - 32)) with
  | None => None
  | Some (q, a0, a1, D) => float64_rem_last fuel q a0 a1 b0 b1 D
  end.

(** The first bit of the quotient. *)
Lemma first_bit64 a0 a1 b0 b1 A B : is64 (a0, a1) A -> is64 (b0, b1) B -> 0 <= A < 2 ^ 64 -> 2 ^ 63 <= B < 2 ^ 64 ->
  A mod 2 ^ 8 = 0 -> B mod 2 ^ 11 = 0 ->
  exists q A1, b2z (le64 b0 b1 a0 a1) = q /\
    is64 (if truthy q then sub64 a0 a1 b0 b1 else (a0, a1)) A1 /\
    A = A1 + q * B /\ 0 <= A1 < B /\ A1 mod 2 ^ 8 = 0.
Proof.
  intros Ha Hb HA HB HA8 HB11. rewrite le64_val by (apply Hb || apply Ha).
  rewrite (is64_exact _ _ Ha HA), (is64_exact _ _ Hb) by lia. destruct (Z.leb_spec B A).
  - exists 1, (A - B). change (truthy (b2z true)) with true. split; [reflexivity|].
    split; [now apply sub64_is|]. repeat split; lia || dlia.
  - exists 0, A. change (truthy (b2z false)) with false. split; [reflexivity|].
    split; [exact Ha|]. repeat split; lia.
Qed.

(** It reduces the dividend by a multiple of the divisor of known parity. *)
Lemma rem_quotient64_spec fuel a0 a1 b0 b1 A B D : (73 < fuel)%nat -> is64 (a0, a1) A -> is64 (b0, b1) B ->
  2 ^ 63 <= B < 2 ^ 64 -> B mod 2 ^ 11 = 0 -> 0 <= A < 2 ^ 64 -> A mod 2 ^ 8 = 0 -> -1 <= D <= 2100 ->
  exists q x0 x1 b0' b1' x m, rem_quotient64 fuel a0 a1 b0 b1 D = Some (q, x0, x1, b0', b1') /\
    is64 (x0, x1) x /\ is64 (b0', b1') (B / 2 ^ 8) /\ 0 <= x < 5 * (B / 2 ^ 8) /\
    A * 2 ^ Z.max 0 D = 2 ^ 8 * x + B * m /\ q mod 2 = m mod 2.
Proof.
  intros Hf Ha Hb HB HB11 HA HA8 HD. unfold rem_quotient64. rewrite s16_small by lia.
  destruct (first_bit64 a0 a1 b0 b1 A B Ha Hb HA HB HA8 HB11) as (q0 & A1 & -> & Ha1 & EA & HA1 & HA18).
  destruct (if truthy q0 then _ else _) as [y0 y1].
  destruct (float64_rem_rounds fuel y0 y1 b0 b1 A1 B q0 (D - 32))
    as (q1 & z0 & z1 & A2 & E & -> & Ha2 & HE & HA2 & HA28 & Hrel); try assumption; try lia.
  assert (HE' : -1 <= E + 32 <= 32) by (destruct (Z.ltb_spec 0 (D - 32)); lia).
  pose proof (float64_rem_last_spec fuel z0 z1 b0 b1 A2 B q1 (E + 32)) as L. replace (E + 32 - 32) with E in L by lia.
  destruct L as (q2 & x0 & x1 & b0' & b1' & x & -> & Hx & Hb' & Rx & Hl); try assumption; try lia.
  replace (D - 32 + 32) with D in Hrel by lia. destruct (Z.ltb_spec 0 (D - 32)) as [HD32|HD32].
  - destruct Hrel as (HE2 & c & Hc). rewrite (proj2 (Z.ltb_lt 0 (E + 32))) in Hl by lia.
    exists q2, x0, x1, b0', b1', x, (q2 + 2 * (c + q0 * 2 ^ (D - 1))). rewrite Z.max_r by lia.
    split; [reflexivity|]. split; [exact Hx|]. split; [exact Hb'|]. split; [exact Rx|]. split.
    + rewrite EA, Z.mul_add_distr_r, Hc, Hl. replace D with (1 + (D - 1)) at 1 by lia.
      rewrite Z.pow_add_r by lia. ring.
    + now rewrite (Z.mul_comm 2), Z.mod_add.
  - destruct Hrel as (-> & -> & ->). replace (D - 32 + 32) with D in * by lia.
    exists q2, x0, x1, b0', b1', x, (if 0 <? D then q2 + q0 * 2 ^ (D - 1) * 2 else q0).
    split; [reflexivity|]. split; [exact Hx|]. split; [exact Hb'|]. split; [exact Rx|].
    destruct (Z.ltb_spec 0 D) as [HD0|HD0].
    + rewrite Z.max_r by lia. split; [|now rewrite Z.mod_add].
      rewrite EA, Z.mul_add_distr_r, Hl. replace D with (1 + (D - 1)) at 1 by lia.
      rewrite Z.pow_add_r by lia. ring.
    + destruct Hl as [-> Hl]. rewrite Z.max_l by lia. change (2 ^ 0) with 1. split; [lia|reflexivity].
Qed.

(** The statements after the subtractions: the nearest remainder and its magnitude. *)
Lemma float64_rem_choice s e q k r b m a0 a1 r0 r1 st : 2 ^ 55 <= b < 2 ^ 56 -> 0 <= r < b ->
  (q + k) mod 2 = m mod 2 -> is64 (r0, r1) r -> is64 (a0, a1) (r - b) ->
  exists z0 z1, is64 (z0, z1) (Z.abs (nearest_rem m r b)) /\
    (let '(sigMean0, sigMean1) := add64 a0 a1 r0 r1 in
     let '(aSig0, aSig1) :=
       if (s32 sigMean0 <? 0) || (((sigMean0 ||| sigMean1) =? 0) && truthy (u32 (q + k + 1) &&& 1))
       then (r0, r1) else (a0, a1) in
     let zSign := b2z (s32 aSig0 <? 0) in
     let '(aSig0, aSig1) := if truthy zSign then sub64 0 0 aSig0 aSig1 else (aSig0, aSig1) in
     normalizeRoundAndPackFloat64 (s ^^^ zSign) e aSig0 aSig1) st
    = normalizeRoundAndPackFloat64 (s ^^^ b2z (nearest_rem m r b <? 0)) e z0 z1 st.
Proof.
  intros Hb Hr Hp Er Ea. pose proof (add64_is _ _ _ _ _ _ Ea Er) as Es.
  destruct (add64 a0 a1 r0 r1) as [s0 s1]. pose proof (sign64_is _ _ Es ltac:(lia)) as Sg.
  pose proof (zero64_is _ _ Es ltac:(lia)) as Sz. cbn [fst snd] in Sg, Sz. rewrite Sg, Sz, land_1_odd.
  assert (Et : truthy (u32 (q + k + 1) mod 2) = Z.even m).
  { unfold truthy. rewrite Zeven_mod, <- Hp, u32_mod.
    destruct (Z.eqb_spec (((q + k + 1) mod 2 ^ 32) mod 2) 0), (Z.eqb_spec ((q + k) mod 2) 0); try reflexivity;
      exfalso; dlia. }
  rewrite Et.
  replace (r - b + r <? 0) with (2 * r <? b) by (repeat ztest; (reflexivity || lia)).
  replace (r - b + r =? 0) with (2 * r =? b) by (repeat ztest; (reflexivity || lia)).
  unfold nearest_rem. set (c := (2 * r <? b) || _). clearbody c.
  assert (Hz : is64 (if c then (r0, r1) else (a0, a1)) (if c then r else r - b)) by (destruct c; assumption).
  destruct (if c then (r0, r1) else (a0, a1)) as [x0 x1]. set (R := if c then r else r - b) in *.
  assert (HR : - 2 ^ 56 < R < 2 ^ 56) by (unfold R; destruct c; lia). clearbody R.
  pose proof (sign64_is _ _ Hz ltac:(lia)) as Sx. cbn [fst] in Sx. rewrite Sx.
  destruct (Z.ltb_spec R 0); cbn [b2z].
  - change (truthy 1) with true. cbv iota.
    pose proof (sub64_is 0 0 x0 x1 0 R ltac:(apply is64_val; [split; apply zero_word; lia | reflexivity]) Hz) as Hn.
    destruct (sub64 0 0 x0 x1) as [z0 z1]. exists z0, z1. rewrite Z.abs_neq by lia. split; [|reflexivity].
    now replace (- R) with (0 - R) by lia.
  - change (truthy 0) with false. cbv iota. exists x0, x1. rewrite Z.abs_eq by lia. now split.
Qed.

Lemma float64_rem_tail_eq st fuel s x0 x1 eb y0 y1 m n D : (73 < fuel)%nat ->
  words64 (x0 ||| 2 ^ 20, x1) -> val64 (x0 ||| 2 ^ 20, x1) = m -> 2 ^ 52 <= m < 2 ^ 53 ->
  words64 (y0 ||| 2 ^ 20, y1) -> val64 (y0 ||| 2 ^ 20, y1) = n -> 2 ^ 52 <= n < 2 ^ 53 ->
  -1 <= D <= 2100 -> -51 <= eb <= 0x7FE ->
  exists R z0 z1, rem_mag (m * 2 ^ (11 - b2z (D <? 0)) * 2 ^ Z.max 0 D) (n * 2 ^ 11) = 2 ^ 8 * R /\
    Z.abs R < 2 ^ 55 /\ is64 (z0, z1) (Z.abs R) /\
    float64_rem_tail fuel s x0 x1 eb y0 y1 D st
    = normalizeRoundAndPackFloat64 (s ^^^ b2z (R <? 0)) (eb - 4) z0 z1 st.
Proof.
  intros Hf Wx Vx Hm Wy Vy Hn HD He. unfold float64_rem_tail. change 0x00100000 with (2 ^ 20).
  assert (Hc : 10 <= 11 - b2z (D <? 0) <= 11) by (destruct (D <? 0); cbn; lia).
  set (c := 11 - b2z (D <? 0)) in *. clearbody c.
  pose proof (shortShift64Left_is _ _ c m (is64_val _ _ Wx Vx) ltac:(lia)) as Ha.
  pose proof (shortShift64Left_is _ _ 11 n (is64_val _ _ Wy Vy) ltac:(lia)) as Hb.
  destruct (shortShift64Left _ _ c) as [a0 a1], (shortShift64Left _ _ 11) as [b0 b1].
  set (B := n * 2 ^ 11) in *. assert (HB : 2 ^ 63 <= B < 2 ^ 64) by (unfold B; lia).
  assert (HB11 : B mod 2 ^ 11 = 0) by (apply Z.mod_mul; lia).
  set (A := m * 2 ^ c) in *. assert (HA : 0 <= A < 2 ^ 64 /\ A mod 2 ^ 8 = 0).
  { pose proof (pow2_le c 11 ltac:(lia) ltac:(lia)). pose proof (pow2_pos c ltac:(lia)). unfold A. split; [nia|].
    replace c with (c - 8 + 8) by lia. rewrite Z.pow_add_r, Z.mul_assoc by lia. apply Z.mod_mul. lia. }
  destruct HA as [HA HA8].
  destruct (rem_quotient64_spec fuel a0 a1 b0 b1 A B D Hf Ha Hb HB HB11 HA HA8 HD)
    as (q & u0 & u1 & v0 & v1 & x & p & Eq & Hu & Hv & Rx & Ex & Hp).
  set (b := B / 2 ^ 8) in *. assert (EB : B = 2 ^ 8 * b) by (unfold b; dlia).
  destruct (float64_rem_subs b v0 v1 Hv ltac:(lia) 4 fuel q (u0, u1) x (0, 0) ltac:(lia) ltac:(lia) Hu ltac:(lia))
    as (k & r & [a0' a1'] & [r0 r1] & Hk & Exr & Hr & Er & Ea & Es).
  destruct (nearest_rem_spec (2 ^ 8) (p + k) r b ltac:(lia) Hr) as [En Hn2].
  destruct (float64_rem_choice s (eb - 4) q k r b (p + k) a0' a1' r0 r1 st ltac:(lia) Hr) as (z0 & z1 & Wz & Ez);
    try assumption.
  { rewrite Z.add_mod, Hp, <- Z.add_mod by lia. reflexivity. }
  exists (nearest_rem (p + k) r b), z0, z1. split; [|split; [|split; [exact Wz|]]].
  - rewrite Ex, EB, <- En, Exr. f_equal. ring.
  - assert (b / 2 < 2 ^ 55) by (apply Z.div_lt_upper_bound; lia). lia.
  - unfold rem_quotient64 in Eq. destruct (if truthy (b2z (le64 b0 b1 a0 a1)) then _ else _) as [w0 w1].
    unfold bind, lift. destruct (while_opt _ _ _ _) as [[[[q1 A0] A1] E1]|]; [|discriminate].
    rewrite Eq. rewrite Es, s16_small by lia. exact Ez.
Qed.

(** ** Packing the exact remainder *)

Lemma mag_val64_top : mag_val64 (2047 * 2 ^ 52) = 2 ^ 52 * 2 ^ 2046.
Proof. reflexivity. Qed.

Lemma rounded64_representable st s r j : 0 <= r < 2 ^ 53 -> 0 <= j <= 2045 ->
  exists b, rounded64 st s (r * 2 ^ j) 1 = Some (of_bits64 (s * 2 ^ 63 + b), st) /\ 0 <= b < 2047 * 2 ^ 52 /\
    mag_val64 b = r * 2 ^ j.
Proof.
  intros Hr Hj. pose proof (ref_representable 53 ltac:(lia) float_round_to_zero false r j Hr ltac:(lia)) as E.
  set (b := ref_mag 53 float_round_to_zero false (r * 2 ^ j) 1) in *.
  pose proof (pow2_pos j ltac:(lia)) as Pj.
  assert (Hb0 : 0 <= b).
  { unfold b, ref_mag. pose proof (round_q_ge float_round_to_zero false (r * 2 ^ j) (1 * 2 ^ ref_k 53 (r * 2 ^ j) 1) 0).
    unfold ref_k in *. pose proof (pow2_pos (Z.max 0 (Z.log2 (r * 2 ^ j / 1) - (53 - 1))) ltac:(lia)). nia. }
  assert (Hb : b < 2047 * 2 ^ 52).
  { pose proof (mag_val_compare 53 ltac:(lia) b (2047 * 2 ^ 52) Hb0 ltac:(lia)) as C. rewrite E, mag_val64_top in C.
    unfold Z.lt. rewrite <- C. apply Z.compare_lt_iff.
    replace 2046 with (j + (2046 - j)) by lia. rewrite Z.pow_add_r by lia.
    pose proof (pow2_le 1 (2046 - j) ltac:(lia) ltac:(lia)) as P2. set (u := 2 ^ (2046 - j)) in *. clearbody u.
    clear - Hr Pj P2. set (v := 2 ^ j) in *. clearbody v. nia. }
  exists b. split; [|split; [lia|exact E]]. rewrite <- E. now apply rounded64_exact.
Qed.

Lemma shift64Extra_zero c : 0 <= c -> shift64ExtraRightJamming 0 0 0 c = (0, 0, 0).
Proof.
  intros Hc. assert (W0 : words96 (0, 0, 0)) by (repeat split; lia).
  pose proof (shift64Extra_words 0 0 0 c W0 Hc) as W. pose proof (shift64Extra_sticky 0 0 0 c W0 Hc) as S.
  apply (sticky_compare_eq _ _ _ _ 0) in S. destruct (shift64ExtraRightJamming 0 0 0 c) as [[z0 z1] z2].
  destruct W as (H0 & H1 & H2). unfold val96, is_u in *. destruct S as [_ S]. specialize (S ltac:(lia)).
  repeat f_equal; lia.
Qed.

(** A zero remainder is packed as a zero. *)
Lemma normalizeRoundAndPackFloat64_zero st s e : fp_ok st -> is_flag s -> -60 <= e <= 0x7FE ->
  normalizeRoundAndPackFloat64 s e 0 0 st = Some (of_bits64 (s * 2 ^ 63), st).
Proof.
  intros Hst Hs He. unfold normalizeRoundAndPackFloat64. cbn [Z.eqb].
  change (s8 (countLeadingZeros32 0 - 11)) with 21. cbn [Z.leb Z.compare].
  change (shortShift64Left 0 0 21) with (0, 0). rewrite (s16_small (e - 32)), s16_small by lia.
  assert (T : forall x, roundAndPackFloat64_tail (float_rounding_mode st =? float_round_nearest_even) false
    s x 0 0 0 st = Some (of_bits64 (s * 2 ^ 63), st)).
  { intros x. unfold roundAndPackFloat64_tail, bind, when_, ret, truthy. cbn [Z.eqb negb Z.lor].
    rewrite packFloat64_eq by (assumption || lia || (apply zero_word; lia)). do 3 f_equal. unfold val64. cbn [fst snd]. lia. }
  assert (I : roundIncrement64 (float_rounding_mode st) s 0 = false).
  { unfold roundIncrement64. change (truthy 0) with false. change (s32 0 <? 0) with false.
    destruct (_ =? _), (_ =? _), (truthy s); cbn [negb]; rewrite ?andb_false_r; reflexivity. }
  unfold roundAndPackFloat64, bind at 1, get_mode. rewrite I, u16_big64 by lia.
  rewrite (proj2 (Z.leb_gt 0x7FD _)), (proj2 (Z.ltb_ge 0x7FD _)), (proj2 (Z.eqb_neq _ 0x7FD)) by lia.
  cbn [orb andb]. destruct (Z.ltb_spec (e - 32 - 21) 0); [|apply T].
  unfold bind at 1, get_tininess. rewrite s16_small, shift64Extra_zero by lia. change (truthy 0) with false.
  rewrite andb_false_r. unfold bind at 1, when_, ret.
  replace (if float_rounding_mode st =? float_round_nearest_even then _ else _) with false; [apply T|].
  change (s32 0 <? 0) with false. destruct (_ =? _), (truthy s); rewrite ?andb_false_r; reflexivity.
Qed.

(** The remainder is representable and packed without rounding. *)
Lemma float64_rem_pack st s e R z0 z1 : fp_ok st -> is_flag s -> -51 <= e <= 0x7FE -> Z.abs R < 2 ^ 55 ->
  is64 (z0, z1) (Z.abs R) -> R mod 4 = 0 -> (e < 2 -> R mod 2 ^ (4 - e) = 0) ->
  exists b, normalizeRoundAndPackFloat64 s (e - 4) z0 z1 st = Some (of_bits64 (s * 2 ^ 63 + b), st) /\
    0 <= b < 2047 * 2 ^ 52 /\ mag_val64 b * 2 ^ 55 = Z.abs R * 2 ^ (e + 51).
Proof.
  intros Hst Hs He HR Wz H4 Hsub. pose proof (is64_exact _ _ Wz ltac:(lia)) as Vz.
  destruct (Z.eq_dec R 0) as [->|HR0].
  { exists 0. injection (is64_unique 0 _ (0, 0) Wz (is64_val (0, 0) 0 ltac:(split; apply zero_word; lia) eq_refl)) as -> ->.
    rewrite normalizeRoundAndPackFloat64_zero by (assumption || lia). rewrite Z.add_0_r.
    repeat split; lia. }
  set (j := Z.max 0 (e - 2)). set (w := 4 - e + j). assert (Hw : 2 <= w) by (unfold w, j; lia).
  pose proof (pow2_pos w ltac:(lia)) as Pw.
  assert (Hd : Z.abs R mod 2 ^ w = 0).
  { apply Z.mod_divide; [lia|]. apply Z.divide_abs_r, Z.mod_divide; [lia|]. unfold w, j.
    destruct (Z.lt_ge_cases e 2) as [Hl|Hl].
    - rewrite Z.max_l, Z.add_0_r by lia. now apply Hsub.
    - rewrite Z.max_r by lia. now replace (4 - e + (e - 2)) with 2 by lia. }
  pose proof (Z.div_mod (Z.abs R) (2 ^ w) ltac:(lia)) as Er. rewrite Hd, Z.add_0_r in Er.
  set (r := Z.abs R / 2 ^ w) in *. assert (Hr0 : 0 <= r) by (apply Z.div_pos; lia).
  pose proof (pow2_le 2 w ltac:(lia) ltac:(lia)).
  assert (Hr : 0 <= r < 2 ^ 53) by nia.
  assert (Ew : Z.abs R * 2 ^ (e + 51) = r * 2 ^ j * 2 ^ 55).
  { rewrite Er. replace (2 ^ w * r * 2 ^ (e + 51)) with (r * (2 ^ w * 2 ^ (e + 51))) by ring.
    rewrite <- Z.mul_assoc, <- !Z.pow_add_r by (lia || (unfold w, j; lia)). do 2 f_equal. unfold w. lia. }
  destruct (rounded64_representable st s r j Hr ltac:(unfold j; lia)) as (b & Eb & Hb & Vb).
  exists b. split; [|split; [exact Hb | now rewrite Vb]].
  rewrite <- Eb. apply (normalizeRoundAndPackFloat64_ref st s (e - 4) z0 z1 (Z.abs R) 1); try assumption; try lia.
  - apply Wz.
  - apply (scaled_intro _ _ _ _ _ 55); [lia | lia |].
    replace (e - 4 + 55) with (e + 51) by lia. rewrite !Z.mul_1_r, Z.mul_1_l. exact Ew.
Qed.

(** ** The whole routine *)

Lemma is_rem64_self a b : f64_word a -> 2 * f64_mag a < f64_mag b -> is_rem64 a b a.
Proof.
  intros Ha H. pose proof (f64_mag_nonneg a Ha). unfold is_rem64. rewrite rem_mag_small by lia.
  rewrite (proj2 (Z.ltb_ge _ 0)), Z.lxor_0_r, Z.abs_eq by lia. repeat split; assumption || apply Ha.
Qed.

(** The significands' remainder is the operands', in units of [2^(eb-12)]. *)
Lemma rem_scaled64 m n ea eb ma mb : -51 <= ea -> -51 <= eb -> -1 <= ea - eb -> 0 < n -> 0 < mb ->
  m * 2 ^ (ea + 51) = ma * 2 ^ 52 -> n * 2 ^ (eb + 51) = mb * 2 ^ 52 ->
  rem_mag (m * 2 ^ (11 - b2z (ea - eb <? 0)) * 2 ^ Z.max 0 (ea - eb)) (n * 2 ^ 11) * 2 ^ (eb + 51)
  = rem_mag ma mb * 2 ^ 63.
Proof.
  intros Ha Hb Hd Hn Hmb Va Vb. apply rem_mag_frac; [lia | lia | apply pow2_pos; lia | lia | |].
  - replace (ma * 2 ^ 63) with (ma * 2 ^ 52 * 2 ^ 11) by ring. rewrite <- Va.
    rewrite <- !Z.mul_assoc, <- !Z.pow_add_r by (destruct (ea - eb <? 0); cbn [b2z]; lia).
    do 2 f_equal. destruct (Z.ltb_spec (ea - eb) 0); cbn [b2z]; lia.
  - replace (mb * 2 ^ 63) with (mb * 2 ^ 52 * 2 ^ 11) by ring. rewrite <- Vb. ring.
Qed.

(** The remainder of the significands is a multiple of their common unit. *)
Lemma rem_divisible m n c d R : 10 <= c -> 0 <= d ->
  rem_mag (m * 2 ^ c * 2 ^ d) (n * 2 ^ 11) = 2 ^ 8 * R -> R mod 4 = 0.
Proof.
  intros Hc Hd E. assert (Hr : (2 ^ 10 | 2 ^ 8 * R)).
  { rewrite <- E. apply rem_mag_divide.
    - exists (m * 2 ^ (c - 10) * 2 ^ d). replace c with (c - 10 + 10) at 1 by lia. rewrite Z.pow_add_r by lia. ring.
    - exists (n * 2). lia. }
  destruct Hr as [x Hr]. replace R with (x * 4) by lia. apply Z.mod_mul. lia.
Qed.

Lemma float64_rem_nonzero st fuel a b : (73 < fuel)%nat -> fp_ok st -> f64_finite a -> f64_finite b ->
  0 < f64_mag a -> 0 < f64_mag b ->
  exists z, (let '(bExp, bSig0, bSig1) := norm64 b in let '(aExp, aSig0, aSig1) := norm64 a in
     let expDiff := s16 (aExp - bExp) in
     if expDiff <? -1 then ret a
     else float64_rem_tail fuel (f64_sign a) aSig0 aSig1 bExp bSig0 bSig1 expDiff) st = Some (z, st) /\
    is_rem64 a b z.
Proof.
  intros Hf Hst Fa Fb Ma Mb. pose proof Fa as [Ha _].
  pose proof (norm64_spec a Fa Ma) as Na. pose proof (norm64_spec b Fb Mb) as Nb.
  destruct (norm64 a) as [[ea x0] x1], (norm64 b) as [[eb y0] y1].
  destruct Na as (Ra & _ & Wx1 & m & Vm & Rm & Wx0 & _ & Va), Nb as (Rb & _ & Wy1 & n & Vn & Rn & Wy0 & _ & Vb).
  cbv zeta. rewrite s16_small by lia. destruct (Z.ltb_spec (ea - eb) (-1)) as [Hd|Hd].
  { exists a. split; [reflexivity|]. apply is_rem64_self; [assumption|].
    pose proof (pow2_pos (ea + 51) ltac:(lia)).
    assert (E : 2 ^ (eb + 51) = 2 ^ (ea + 51) * (4 * 2 ^ (eb - ea - 2))).
    { change 4 with (2 ^ 2). rewrite <- !Z.pow_add_r by lia. f_equal. lia. }
    pose proof (pow2_pos (eb - ea - 2) ltac:(lia)). rewrite E in Vb. nia. }
  destruct (float64_rem_tail_eq st fuel (f64_sign a) x0 x1 eb y0 y1 m n (ea - eb) Hf)
    as (R & z0 & z1 & ER & HR & Wz & Et); try assumption; try lia;
    try (split; [unfold is_u; cbn [fst]; lia | assumption]).
  pose proof (rem_scaled64 m n ea eb _ _ ltac:(lia) ltac:(lia) Hd ltac:(lia) Mb Va Vb) as Hsc.
  assert (HR4 : R mod 4 = 0).
  { eapply (rem_divisible m n (11 - b2z (ea - eb <? 0))); [destruct (ea - eb <? 0); cbn; lia | | exact ER]. lia. }
  rewrite Et, ER in *. clear Et ER. set (F := rem_mag (f64_mag a) (f64_mag b)) in *.
  assert (EF : R * 2 ^ (eb + 51) = F * 2 ^ 55) by lia. clear Hsc.
  pose proof (pow2_pos (eb + 51) ltac:(lia)) as Pe.
  assert (Hs : is_flag (f64_sign a ^^^ b2z (R <? 0))).
  { apply xor_flag; [now apply f64_sign_flag|]. unfold is_flag. destruct (R <? 0); cbn; auto. }
  destruct (float64_rem_pack st (f64_sign a ^^^ b2z (R <? 0)) eb R z0 z1) as (p & Ep & Hp & Vp); try assumption.
  - intros He. replace R with (F * 2 ^ (4 - eb)); [apply Z.mod_mul; pose proof (pow2_pos (4 - eb)); lia|].
    apply (Z.mul_reg_r _ _ (2 ^ (eb + 51))); [lia|]. rewrite EF, <- Z.mul_assoc, <- Z.pow_add_r by lia.
    do 2 f_equal. lia.
  - exists (of_bits64 ((f64_sign a ^^^ b2z (R <? 0)) * 2 ^ 63 + p)). split; [exact Ep|]. unfold is_rem64. fold F.
    assert (Ec : (F <? 0) = (R <? 0)) by (destruct (Z.ltb_spec F 0), (Z.ltb_spec R 0); try reflexivity; nia).
    rewrite Ec. set (s := f64_sign a ^^^ b2z (R <? 0)) in *.
    destruct (of_bits64_spec (s * 2 ^ 63 + p)) as [W E]; [destruct Hs as [-> | ->]; lia|].
    destruct (sign_of_bits _ s p W E ltac:(lia)) as [-> ->]. split; [exact W|]. split; [reflexivity|].
    apply (Z.mul_reg_r _ _ (2 ^ 55)); [lia|]. rewrite Vp. nia.
Qed.

(** The double-precision remainder terminates (at most seventy-three rounds of twenty-nine
    quotient bits) and is the IEEE remainder: for finite operands with a nonzero divisor it returns
    exactly [a - b n], where [n] is the integer nearest to [a / b], ties to even, without any
    exception, a zero result having the sign of [a]; an infinite dividend or a zero divisor is
    invalid, an infinite divisor leaves [a], and NaNs propagate. *)
Lemma float64_rem_correct st fuel a b : (73 < fuel)%nat -> fp_ok st -> f64_word a -> f64_word b ->
  if f64_is_nan a || f64_is_nan b then float64_rem fuel a b st = propagateFloat64NaN a b st
  else if f64_is_inf a || (f64_mag b =? 0) then float64_rem fuel a b st = invalid64 st
  else if f64_is_inf b then float64_rem fuel a b st = Some (a, st)
  else exists z, float64_rem fuel a b st = Some (z, st) /\ is_rem64 a b z.
Proof.
  intros Hf Hst Ha Hb. pose proof (f64_mag_nonneg a Ha). pose proof (f64_mag_nonneg b Hb).
  unfold float64_rem. rewrite sign64_div.
  destruct (special_cases64 a Ha) as [(Na & Ia & Ea & Za) | [(Na & Ia & Ea & Za & _) | (Na & Ia & Ea)]]; rewrite Na, Ia.
  - rewrite Ea, Za. reflexivity.
  - rewrite Ea, Za. unfold f64_is_nan. destruct (_ && _); [reflexivity | now apply invalid64_eq].
  - rewrite (proj2 (Z.eqb_neq _ 0x7FF)) by lia.
    destruct (special_cases64 b Hb) as [(Nb & Ib & Eb & Zb) | [(Nb & Ib & Eb & Zb & _) | (Nb & Ib & Eb)]]; rewrite Nb, Ib.
    + rewrite Eb, Zb. reflexivity.
    + rewrite Eb, Zb, (proj2 (Z.eqb_neq _ _) (f64_inf_mag b Hb Eb)). reflexivity.
    + rewrite (proj2 (Z.eqb_neq _ 0x7FF)), <- !f64_mag_zero by (assumption || lia).
      fold (norm64 a) (norm64 b). cbn [orb].
      destruct (Z.eqb_spec (f64_mag b) 0) as [Mb|Mb]; [now apply invalid64_eq|].
      destruct (Z.eqb_spec (f64_mag a) 0) as [Ma|Ma].
      * exists a. destruct (norm64 b) as [[eb y0] y1]. split; [reflexivity|]. apply is_rem64_self; [assumption | lia].
      * apply float64_rem_nonzero; try assumption; try lia; (split; [assumption | lia]).
Qed.
