(* ===== verification/Float64Sqrt.v ===== *)
(** * Double-precision square root rounds correctly

    The high digit of the root is half the 32-bit estimate, corrected against a 64-bit remainder;
    the low digit is a long division of that remainder by twice the high digit, corrected against
    a 96-bit remainder. *)

From S2P Require Import Prelude.
From S2P Require Import CInt.
From S2P Require Import FPState.
From S2P Require Import Rounding.
From S2P Require Import SoftFloatPrim.
From S2P Require Import SqrtEstimate.
From S2P Require Import Float32.
From S2P Require Import Float64.
From S2P Require Import Float32Round.
From S2P Require Import Float32Arith.
From S2P Require Import Float32MulDiv.
From S2P Require Import Float32Sqrt.
From S2P Require Import Float64Round.
From S2P Require Import Float64Arith.
From S2P Require Import Float64Sum.
From S2P Require Import Float64MulDiv.
From S2P Require Import Float64Div.

(** The root of [f64_mag a * 2^-1074], in units of 2^-1074. *)
Definition ref_sqrt64 (st : fpstate) (a : float64) : option (float64 * fpstate) :=
  if f64_is_nan a then propagateFloat64NaN a a st
  else if f64_mag a =? 0 then Some (a, st)
  else if f64_sign a =? 1 then invalid64 st
  else if f64_is_inf a then Some (a, st)
  else rounded64 st 0 (root_num (f64_mag a * 2 ^ 1074)) 2.

(** ** The high digit *)

(** The loop that corrects the high digit keeps its double beside it. *)
Lemma float64_sqrt_loop0 fuel X s k r0 r1 : (4 < fuel)%nat ->
  s * s <= X < (s + 1) * (s + 1) -> 0 <= s < 2 ^ 31 -> s + k <= 2 ^ 31 -> 0 <= k <= 4 ->
  words64 (r0, r1) -> val64 (r0, r1) = (X - (s + k) * (s + k)) mod 2 ^ 64 ->
  while fuel (fun s => s32 (fst (snd s)) <? 0) float64_sqrt_body0
    (s + k, u32 (s + k + (s + k)), (r0, r1)) = Some (s, 2 * s, (0, X - s * s)).
Proof.
  intros Hf HX Hs Hsk Hk Hw Hv.
  pose (I := fun (n : nat) (y : Z * Z * (Z * Z)) => exists x0 x1,
    y = (s + Z.of_nat n, u32 (2 * (s + Z.of_nat n)), (x0, x1)) /\
    Z.of_nat n <= k /\ words64 (x0, x1) /\
    val64 (x0, x1) = (X - (s + Z.of_nat n) * (s + Z.of_nat n)) mod 2 ^ 64).
  destruct (while_rule (fun s => s32 (fst (snd s)) <? 0) float64_sqrt_body0 I)
    with (n := Z.to_nat k) (fuel := fuel) (s := (s + k, u32 (s + k + (s + k)), (r0, r1)))
    as (y & n & Hr & Hc & (x0 & x1 & -> & Hn & Hx & Hvx)).
  - intros n y (x0 & x1 & -> & Hn & Hx & Hvx) Hc. cbn [fst snd] in Hc.
    rewrite (root_rem_sign X s (Z.of_nat n) x0 x1) in Hc by (assumption || lia). apply Z.ltb_lt in Hc.
    exists (n - 1)%nat. split; [lia|]. cbn [float64_sqrt_body0].
    assert (exists z, s + Z.of_nat n = z + 1 /\ s + Z.of_nat (n - 1) = z /\ 0 <= z < 2 ^ 31)
      as (z & Ez & Hz & Hzr) by (exists (s + Z.of_nat n - 1); lia).
    rewrite Ez in *. rewrite u32_sub_l. replace (2 * (z + 1) - 2) with (2 * z) by lia.
    replace (z + 1 - 1) with z by lia. rewrite (u32_small z), (u32_small (2 * z)) by lia.
    assert (Et : 2 * z ||| 1 = 2 * z + 1) by (rewrite lor_1; dlia). rewrite Et.
    destruct (add64_val x0 x1 0 (2 * z + 1) Hx) as [Wa Va]; [split; cbn [fst snd]; unfold is_u; lia|].
    destruct (add64 x0 x1 0 (2 * z + 1)) as [y0 y1]. exists y0, y1. rewrite Hz.
    rewrite (u32_small (2 * z)) by lia.
    repeat split; try lia; try apply Wa. rewrite Va, Hvx, Zplus_mod_idemp_l.
    unfold val64. cbn [fst snd]. f_equal. lia.
  - exists r0, r1. rewrite Z2Nat.id by lia. repeat split; try assumption; try lia; try apply Hw.
    do 3 f_equal. lia.
  - lia.
  - cbn [fst snd] in Hc. rewrite (root_rem_sign X s (Z.of_nat n) x0 x1) in Hc by (assumption || lia).
    apply Z.ltb_ge in Hc. replace n with 0%nat in * by lia. cbn [Z.of_nat] in *. rewrite Z.add_0_r in *.
    rewrite Hr, u32_small by lia. rewrite Z.mod_small in Hvx by nia.
    destruct Hx as [W0 W1]. unfold val64, is_u in *. cbn [fst snd] in *.
    assert (X - s * s <= 2 * s) by lia. assert (x0 = 0) as -> by lia. do 3 f_equal. lia.
Qed.

(** Half the estimate for the leading word is within two of the high digit. *)
Lemma sqrt_high_digit e a o X : 0 <= o <= 1 -> 2 ^ 31 <= a < 2 ^ 32 -> e < 2 ^ 32 ->
  near_root e ((a >> o) * 2 ^ 32) -> 2 ^ 60 <= X < 2 ^ 62 ->
  (a >> o) * 2 ^ 32 <= 4 * X < ((a >> o) + 1) * 2 ^ 32 ->
  let z := (e >> 1) + 1 in Z.sqrt X <= z <= Z.sqrt X + 4 /\ z <= 2 ^ 31.
Proof.
  intros Ho Ha He [He2 [Hlo Hhi]] HX HY z. unfold z. rewrite shiftr_1.
  destruct (Z.sqrt_spec X ltac:(lia)) as [Hl Hh]. pose proof (Z.sqrt_nonneg X) as Hs0.
  set (s := Z.sqrt X) in *. clearbody s. unfold Z.succ in Hh. set (Y := (a >> o) * 2 ^ 32) in *.
  assert (HY31 : 2 ^ 62 <= 4 * X < Y + 2 ^ 32) by (unfold Y in *; lia). clearbody Y.
  assert (Hs : 2 ^ 30 <= s < 2 ^ 31) by nia.
  assert (Hmul : 2 ^ 31 <= e + 2) by nia.
  assert (H1 : (2 * s) * (2 * s) < (e + 3) * (e + 3)) by nia.
  assert (H2 : (e - 2) * (e - 2) < (2 * s + 2) * (2 * s + 2)) by nia.
  assert (2 * s < e + 3) by nia. assert (e - 2 < 2 * s + 2) by nia.
  pose proof (Z.div_mod e 2 ltac:(lia)). pose proof (Z.mod_pos_bound e 2 ltac:(lia)). lia.
Qed.

(** ** The low digit *)

Section LowDigit.
Variables X s : Z.
Hypothesis (HX : s * s <= X < (s + 1) * (s + 1)) (Hs : 2 ^ 30 <= s < 2 ^ 31).

Lemma sqrt_low_range : s * 2 ^ 32 <= Z.sqrt (X * 2 ^ 64) < (s + 1) * 2 ^ 32.
Proof.
  split.
  - apply Z.sqrt_le_square; nia.
  - apply Z.sqrt_lt_square; nia.
Qed.

(** The quotient of the remainder by the doubled high digit overestimates the low digit by at
    most four; a remainder equal to the divisor gives the saturated estimate. *)
Lemma sqrt_low_estimate fuel : (2 < fuel)%nat ->
  exists z, estimateDiv64To32 fuel (X - s * s) 0 (2 * s) = Some z /\ 0 <= z < 2 ^ 32 /\
    Z.sqrt (X * 2 ^ 64) <= s * 2 ^ 32 + z <= Z.sqrt (X * 2 ^ 64) + 4.
Proof.
  intros Hf. assert (HX0 : 0 <= X * 2 ^ 64) by nia.
  assert (Key : forall q z, 0 <= q -> q <= z <= q + 2 -> z < 2 ^ 32 -> 2 * s * q <= (X - s * s) * 2 ^ 32 ->
    (z = 2 ^ 32 - 1 \/ (X - s * s) * 2 ^ 32 < 2 * s * (q + 1)) ->
    Z.sqrt (X * 2 ^ 64) <= s * 2 ^ 32 + z <= Z.sqrt (X * 2 ^ 64) + 4).
  { intros q z Hq Hz Hz32 Hl Hh. pose proof sqrt_low_range as Hr. split.
    - destruct Hh as [-> | Hh]; [lia|]. enough (Z.sqrt (X * 2 ^ 64) < s * 2 ^ 32 + z + 1) by lia.
      apply Z.sqrt_lt_square; [lia | lia |]. apply (Z.lt_le_trans _ ((s * 2 ^ 32 + q + 1) * (s * 2 ^ 32 + q + 1)));
        [|apply Z.square_le_mono_nonneg; lia].
      replace ((s * 2 ^ 32 + q + 1) * (s * 2 ^ 32 + q + 1))
        with (s * s * 2 ^ 64 + 2 * s * (q + 1) * 2 ^ 32 + (q + 1) * (q + 1)) by ring.
      pose proof (Z.square_nonneg (q + 1)). lia.
    - destruct (Z.le_gt_cases z 4); [lia|].
      enough (s * 2 ^ 32 + (q - 2) <= Z.sqrt (X * 2 ^ 64)) by lia. apply Z.sqrt_le_square; [lia | lia |].
      replace ((s * 2 ^ 32 + (q - 2)) * (s * 2 ^ 32 + (q - 2)))
        with (s * s * 2 ^ 64 + 2 * s * q * 2 ^ 32 + ((q - 2) * (q - 2) - 4 * s * 2 ^ 32)) by ring.
      assert ((q - 2) * (q - 2) <= 2 ^ 64) by nia. lia. }
  destruct (Z.lt_ge_cases (X - s * s) (2 * s)) as [H|H].
  - destruct (estimateDiv64To32_bounds fuel (X - s * s) 0 (2 * s) Hf) as (z & -> & Hz & Hz32);
      [lia | lia | apply zero_word; lia |]. rewrite Z.add_0_r in Hz.
    pose proof (div_bounds ((X - s * s) * 2 ^ 32) (2 * s) ltac:(lia)) as Hb.
    assert (Hq0 : 0 <= (X - s * s) * 2 ^ 32 / (2 * s)) by (apply Z.div_pos; lia).
    set (q := (X - s * s) * 2 ^ 32 / (2 * s)) in *. clearbody q.
    exists z. split; [reflexivity|]. split; [lia|]. apply (Key q); lia.
  - unfold estimateDiv64To32. rewrite (proj2 (Z.leb_le _ _)) by lia.
    exists (2 ^ 32 - 1). split; [reflexivity|]. split; [lia|]. apply (Key (2 ^ 32 - 1)); lia.
Qed.

End LowDigit.

(** The sign of a 96-bit remainder of a root that is up to four too large. *)
Lemma root_rem_sign96 X s k r0 r1 r2 : s * s <= X < (s + 1) * (s + 1) -> 0 <= s < 2 ^ 63 -> 0 <= k <= 4 ->
  words96 (r0, r1, r2) -> val96 (r0, r1, r2) = (X - (s + k) * (s + k)) mod 2 ^ 96 ->
  (s32 r0 <? 0) = (0 <? k).
Proof.
  intros HX Hs Hk (W0 & W1 & W2) Hv. rewrite s32_neg by assumption.
  unfold val96, is_u in *. destruct (Z.ltb_spec 0 k).
  - rewrite <- (Z.mod_add _ 1), Z.mod_small in Hv by nia. apply Z.leb_le. nia.
  - replace k with 0 in Hv by lia. rewrite Z.mod_small in Hv by nia. apply Z.leb_gt. nia.
Qed.

(** One turn of the second loop adds twice the root plus one to the remainder. *)
Lemma root_step96 X s z r0 r1 r2 : 0 <= s < 2 ^ 31 -> 0 <= z < 2 ^ 32 -> words96 (r0, r1, r2) ->
  val96 (r0, r1, r2) = (X - (s * 2 ^ 32 + z + 1) * (s * 2 ^ 32 + z + 1)) mod 2 ^ 96 ->
  let '(t2, t3) := shortShift64Left 0 z 1 in
  let y := add96 r0 r1 r2 0 (t2 ||| 2 * s) (t3 ||| 1) in
  words96 y /\ val96 y = (X - (s * 2 ^ 32 + z) * (s * 2 ^ 32 + z)) mod 2 ^ 96.
Proof.
  intros Hs Hz Hw Hv. destruct (shortShift64Left_val 0 z 1) as [Wt Vt];
    [split; cbn [fst snd]; unfold is_u; lia|lia|unfold val64; cbn [fst snd]; lia|].
  destruct (shortShift64Left 0 z 1) as [t0 t1]. destruct Wt as [W0 W1].
  unfold val64 in Vt. cbn [fst snd] in *. unfold is_u in W0, W1.
  assert (Et : t1 ||| 1 = t1 + 1) by (rewrite lor_1; dlia).
  assert (Ed : t0 ||| 2 * s = 2 * s + t0) by (rewrite Z.lor_comm; apply (lor_add _ _ 1); dlia).
  cbv zeta. rewrite Et, Ed.
  destruct (add96_val r0 r1 r2 0 (2 * s + t0) (t1 + 1) Hw) as [Wa Va]; [split; [|split]; unfold is_u; lia|].
  split; [exact Wa|]. rewrite Va, Hv, Zplus_mod_idemp_l. unfold val96. f_equal. lia.
Qed.

Lemma float64_sqrt_loop1 fuel X s t k rem : (4 < fuel)%nat ->
  let S := s * 2 ^ 32 + t in
  S * S <= X < (S + 1) * (S + 1) -> 0 <= s < 2 ^ 31 -> 0 <= t -> t + k < 2 ^ 32 -> 0 <= k <= 4 ->
  words96 rem -> val96 rem = (X - (S + k) * (S + k)) mod 2 ^ 96 ->
  exists rem', while fuel float64_div_cond (float64_sqrt_body1 (2 * s)) (t + k, rem) = Some (t, rem') /\
    words96 rem' /\ val96 rem' = X - S * S.
Proof.
  intros Hf S HX Hs Ht Htk Hk Hw Hv. assert (HS : 0 <= S < 2 ^ 63) by (unfold S; lia).
  pose (I := fun (n : nat) (y : Z * (Z * Z * Z)) => exists r, y = (t + Z.of_nat n, r) /\
    Z.of_nat n <= k /\ words96 r /\ val96 r = (X - (S + Z.of_nat n) * (S + Z.of_nat n)) mod 2 ^ 96).
  destruct (while_rule float64_div_cond (float64_sqrt_body1 (2 * s)) I)
    with (n := Z.to_nat k) (fuel := fuel) (s := (t + k, rem))
    as (y & n & Hr & Hc & (r & -> & Hn & Hx & Hvx)).
  - intros n y (r & -> & Hn & Hx & Hvx) Hc. destruct r as [[x0 x1] x2]. cbn in Hc.
    rewrite (root_rem_sign96 X S (Z.of_nat n) x0 x1 x2) in Hc by (assumption || lia). apply Z.ltb_lt in Hc.
    exists (n - 1)%nat. split; [lia|]. cbn [float64_sqrt_body1].
    assert (exists z, t + Z.of_nat n = z + 1 /\ t + Z.of_nat (n - 1) = z /\ 0 <= z < 2 ^ 32)
      as (z & Ez & Hz & Hzr) by (exists (t + Z.of_nat n - 1); lia).
    rewrite Ez, u32_small by lia. replace (z + 1 - 1) with z by lia.
    replace (S + Z.of_nat n) with (s * 2 ^ 32 + z + 1) in Hvx by (unfold S; lia).
    pose proof (root_step96 X s z x0 x1 x2 Hs Hzr Hx Hvx) as Hstep.
    destruct (shortShift64Left 0 z 1) as [t0 t1]. destruct Hstep as [Wa Va].
    eexists. split; [rewrite Hz; reflexivity|]. split; [lia|]. split; [exact Wa|].
    rewrite Va. replace (S + Z.of_nat (n - 1)) with (s * 2 ^ 32 + z) by (unfold S; lia). reflexivity.
  - exists rem. rewrite Z2Nat.id by lia. repeat split; try assumption; lia.
  - lia.
  - destruct r as [[x0 x1] x2]. cbn in Hc.
    rewrite (root_rem_sign96 X S (Z.of_nat n) x0 x1 x2) in Hc by (assumption || lia).
    apply Z.ltb_ge in Hc. replace n with 0%nat in * by lia. cbn [Z.of_nat] in *. rewrite Z.add_0_r in *.
    exists (x0, x1, x2). split; [exact Hr|]. split; [exact Hx|]. rewrite Hvx. apply Z.mod_small. nia.
Qed.

(** The exact path of the low digit. *)
Lemma float64_sqrt_exact fuel X s z : (4 < fuel)%nat ->
  s * s <= X < (s + 1) * (s + 1) -> 2 ^ 30 <= s < 2 ^ 31 -> 0 <= z < 2 ^ 32 ->
  let R := Z.sqrt (X * 2 ^ 64) in R <= s * 2 ^ 32 + z <= R + 4 ->
  exists r0 r1 r2,
    (let '(term1, term2) := mul32To64 (2 * s) z in
     let '(rem1, rem2) := sub64 (X - s * s) 0 term1 term2 in
     let '(term2, term3) := mul32To64 z z in
     while fuel float64_div_cond (float64_sqrt_body1 (2 * s)) (z, sub96 rem1 rem2 0 0 term2 term3))
    = Some (R - s * 2 ^ 32, (r0, r1, r2)) /\
    truthy (r0 ||| r1 ||| r2) = negb (R * R =? X * 2 ^ 64).
Proof.
  intros Hf HX Hs Hz R HR. pose proof (sqrt_low_range X s HX Hs) as Hlow. fold R in Hlow.
  destruct (Z.sqrt_spec (X * 2 ^ 64)) as [Hl Hh]; [nia|]. fold R in Hl, Hh. unfold Z.succ in Hh.
  assert (Hrem : 0 <= X - s * s < 2 ^ 32) by lia.
  destruct (mul32To64_val (2 * s) z ltac:(unfold is_u; lia) ltac:(unfold is_u; lia)) as [Wt Vt].
  destruct (mul32To64 (2 * s) z) as [t1 t2].
  destruct (sub64_val (X - s * s) 0 t1 t2 ltac:(split; cbn [fst snd]; unfold is_u; lia) Wt) as [[W1 W2] Vr].
  destruct (sub64 (X - s * s) 0 t1 t2) as [r1 r2].
  destruct (mul32To64_val z z ltac:(unfold is_u; lia) ltac:(unfold is_u; lia)) as [[Wq2 Wq3] Vq].
  destruct (mul32To64 z z) as [q2 q3]. cbn [fst snd] in *.
  destruct (sub96_val r1 r2 0 0 q2 q3) as [Ws Vs];
    [split; [|split]; (assumption || (unfold is_u; lia)) | split; [|split]; (assumption || (unfold is_u; lia)) |].
  set (t := R - s * 2 ^ 32) in *. assert (Et : R = s * 2 ^ 32 + t) by (unfold t; lia). clearbody t.
  destruct (float64_sqrt_loop1 fuel (X * 2 ^ 64) s t (z - t) (sub96 r1 r2 0 0 q2 q3) Hf) as (rem & Hr & Wx & Vx);
    try assumption; try lia; rewrite <- ?Et; try lia.
  - rewrite Vs. replace (val96 (r1, r2, 0)) with (val64 (r1, r2) * 2 ^ 32) by (unfold val64, val96; cbn [fst snd]; lia).
    replace (val96 (0, q2, q3)) with (z * z) by (rewrite <- Vq; unfold val64, val96; cbn [fst snd]; lia).
    rewrite Vr, Vt, <- Z.mul_mod_distr_r by lia. change (2 ^ 64 * 2 ^ 32) with (2 ^ 96).
    rewrite Zminus_mod_idemp_l.
    unfold val64. cbn [fst snd]. f_equal. rewrite Et. ring.
  - rewrite <- Et in Vx. replace (t + (z - t)) with z in Hr by lia. rewrite Hr.
    destruct rem as [[x0 x1] x2]. exists x0, x1, x2. split; [reflexivity|].
    destruct Wx as (Wx0 & Wx1 & Wx2). rewrite !truthy_lor. unfold truthy, val96, is_u in *.
    destruct (Z.eqb_spec x0 0), (Z.eqb_spec x1 0), (Z.eqb_spec x2 0), (Z.eqb_spec (R * R) (X * 2 ^ 64));
      try reflexivity; cbn [negb orb]; exfalso; lia.
Qed.

(** ** The significand of the root *)

(** The leading word and the aligned significand, for either parity of the exponent. *)
Lemma sqrt_operands m o a0 a1 : 0 <= o <= 1 -> words64 (a0, a1) -> val64 (a0, a1) = m -> 2 ^ 52 <= m < 2 ^ 53 ->
  let '(t0, t1) := shortShift64Left a0 a1 11 in
  let '(c0, c1) := shortShift64Left a0 a1 (9 - o) in
  2 ^ 31 <= t0 < 2 ^ 32 /\ words64 (c0, c1) /\ val64 (c0, c1) = m * 2 ^ (9 - o) /\
  (t0 >> o) * 2 ^ 32 <= 4 * (m * 2 ^ (9 - o)) < ((t0 >> o) + 1) * 2 ^ 32.
Proof.
  intros Ho Hw Hv Hm. assert (C : o = 0 \/ o = 1) by lia.
  assert (Hp : 2 ^ 8 <= 2 ^ (9 - o) <= 2 ^ 9) by (destruct C as [-> | ->]; lia).
  destruct (shortShift64Left_val a0 a1 11 Hw) as [Wt Vt]; [lia | rewrite Hv; lia |].
  destruct (shortShift64Left_val a0 a1 (9 - o) Hw) as [Wc Vc]; [lia | rewrite Hv; nia |].
  destruct (shortShift64Left a0 a1 11) as [t0 t1], (shortShift64Left a0 a1 (9 - o)) as [c0 c1].
  rewrite Hv in Vt, Vc. destruct Wt as [W0 W1]. unfold val64 in Vt at 1. unfold is_u in *. cbn [fst snd] in *.
  split; [lia|]. split; [exact Wc|]. split; [exact Vc|].
  destruct C as [-> | ->]; [rewrite Z.shiftr_0_r; lia|]. rewrite shiftr_1. change (9 - 1) with 8. dlia.
Qed.

Lemma float64_sqrt_sig_sticky fuel e a0 a1 m : (4 < fuel)%nat -> words64 (a0, a1) -> val64 (a0, a1) = m ->
  2 ^ 52 <= m < 2 ^ 53 ->
  exists z0 z1, float64_sqrt_sig fuel e a0 a1 = Some (z0, z1) /\ words64 (z0, z1) /\ 2 ^ 30 <= z0 < 2 ^ 31 /\
    root_sticky 512 (val64 (z0, z1)) (m * 2 ^ (9 - e mod 2) * 2 ^ 64).
Proof.
  intros Hf Hw Hv Hm. unfold float64_sqrt_sig. rewrite land_1_odd.
  pose proof (Z.mod_pos_bound e 2 ltac:(lia)) as Ho. set (o := e mod 2) in *.
  pose proof (sqrt_operands m o a0 a1 ltac:(lia) Hw Hv Hm) as Hop.
  destruct (shortShift64Left a0 a1 11) as [t0 t1], (shortShift64Left a0 a1 (9 - o)) as [c0 c1].
  destruct Hop as (Ht & Wc & Vc & HY). set (X := m * 2 ^ (9 - o)) in *.
  assert (HX : 2 ^ 60 <= X < 2 ^ 62).
  { assert (Hp : o = 0 \/ o = 1) by lia. unfold X. destruct Hp as [-> | ->]; lia. }
  destruct (estimateSqrt32_near fuel e t0 ltac:(lia) Ht) as (es & -> & He & Hn).
  rewrite land_1_odd in Hn. fold o in Hn.
  destruct (sqrt_high_digit es t0 o X ltac:(lia) Ht He Hn HX HY) as [Hz Hz31].
  assert (HX0 : 0 <= X) by lia. destruct (Z.sqrt_spec X HX0) as [Hl Hh]. pose proof (Z.sqrt_nonneg X) as Hs0.
  set (s := Z.sqrt X) in *. clearbody s. unfold Z.succ in Hh. assert (Hs : 2 ^ 30 <= s < 2 ^ 31) by nia.
  rewrite (u32_small ((es >> 1) + 1)), (proj2 (Z.eqb_neq ((es >> 1) + 1) 0)) by lia.
  set (z := (es >> 1) + 1) in *. clearbody z.
  destruct (mul32To64_val z z ltac:(unfold is_u; lia) ltac:(unfold is_u; lia)) as [Wt Vt].
  destruct (mul32To64 z z) as [q0 q1]. destruct (sub64_val c0 c1 q0 q1 Wc Wt) as [Wr Vr].
  destruct (sub64 c0 c1 q0 q1) as [r0 r1]. rewrite Vc, Vt in Vr.
  pose proof (float64_sqrt_loop0 fuel X s (z - s) r0 r1 Hf (conj Hl Hh) ltac:(lia) ltac:(lia) ltac:(lia) Wr) as Hloop.
  replace (s + (z - s)) with z in Hloop by lia. rewrite (Hloop Vr).
  destruct (sqrt_low_estimate X s (conj Hl Hh) Hs fuel ltac:(lia)) as (y & -> & Hy & HR).
  pose proof (sqrt_low_range X s (conj Hl Hh) Hs) as Hlow.
  change 511 with (2 ^ 9 - 1). rewrite land_ones_mod by lia.
  destruct (Z.leb_spec (y mod 2 ^ 9) 5) as [Hb|Hb].
  - set (y' := if y =? 0 then 1 else y).
    assert (Hy' : 0 <= y' < 2 ^ 32 /\ Z.sqrt (X * 2 ^ 64) <= s * 2 ^ 32 + y' <= Z.sqrt (X * 2 ^ 64) + 4)
      by (unfold y'; destruct (Z.eqb_spec y 0); lia).
    destruct (float64_sqrt_exact fuel X s y' Hf (conj Hl Hh) Hs ltac:(lia) ltac:(lia)) as (x0 & x1 & x2 & Hr & Ht').
    destruct (mul32To64 (2 * s) y') as [u1 u2]. destruct (sub64 (X - s * s) 0 u1 u2) as [v1 v2].
    destruct (mul32To64 y' y') as [w2 w3]. rewrite Hr, Ht'. eexists _, _. split; [reflexivity|].
    split; [split; cbn [fst snd]; [unfold is_u; lia | apply lor_b2z_range; lia]|]. split; [assumption|].
    unfold val64. cbn [fst snd]. rewrite lor_low. replace (s * 2 ^ 32 + (Z.sqrt (X * 2 ^ 64) - s * 2 ^ 32))
      with (Z.sqrt (X * 2 ^ 64)) by lia.
    apply (root_sticky_weaken 2 256); [lia|]. apply root_jam. lia.
  - exists s, y. split; [reflexivity|]. split; [split; cbn [fst snd]; unfold is_u; lia|]. split; [assumption|].
    unfold val64. cbn [fst snd]. apply root_near; try lia.
    replace (s * 2 ^ 32 + y) with (y + s * 2 ^ 23 * 512) by lia. rewrite Z.mod_add by lia.
    change 512 with (2 ^ 9). lia.
Qed.

(** ** Rounding the root *)

(** The operand of the root in units of the significand's square. *)
Lemma sqrt_scaled m e mag : -51 <= e <= 0x7FE -> m * 2 ^ (e + 51) = mag * 2 ^ 52 ->
  let P := 2 ^ (e / 2 + e mod 2 + 500) in
  mag * 2 ^ 1074 = m * 2 ^ (9 - e mod 2) * 2 ^ 64 * (P * P).
Proof.
  intros He V P. pose proof (Z.div_mod e 2 ltac:(lia)). pose proof (Z.mod_pos_bound e 2 ltac:(lia)).
  unfold P. rewrite <- Z.pow_add_r by lia. apply (Z.mul_reg_r _ _ (2 ^ 52)); [lia|].
  replace (mag * 2 ^ 1074 * 2 ^ 52) with (mag * 2 ^ 52 * 2 ^ 1074) by ring. rewrite <- V.
  rewrite <- !Z.mul_assoc, <- !Z.pow_add_r by lia. do 2 f_equal. lia.
Qed.

Lemma float64_sqrt_round st fuel e a0 a1 m mag : (4 < fuel)%nat -> fp_ok st -> words64 (a0, a1) ->
  val64 (a0, a1) = m -> 2 ^ 52 <= m < 2 ^ 53 -> -51 <= e <= 0x7FE ->
  m * 2 ^ (e + 51) = mag * 2 ^ 52 ->
  (let* (zSig0, zSig1) := lift (float64_sqrt_sig fuel e a0 a1) in
   let '(zSig0, zSig1, zSig2) := shift64ExtraRightJamming zSig0 zSig1 0 10 in
   roundAndPackFloat64 0 (s16 (((e - 0x3FF) >> 1) + 0x3FE)) zSig0 zSig1 zSig2) st
  = rounded64 st 0 (root_num (mag * 2 ^ 1074)) 2.
Proof.
  intros Hf Hst Hw Hv Hm He V.
  destruct (float64_sqrt_sig_sticky fuel e a0 a1 m Hf Hw Hv Hm) as (z0 & z1 & Ez & [W0 W1] & Hz & Hstk).
  unfold bind, lift. rewrite Ez. cbn [fst snd] in *.
  rewrite (sqrt_scaled m e mag He V). set (X := m * 2 ^ (9 - e mod 2) * 2 ^ 64) in *.
  pose proof (Z.div_mod e 2 ltac:(lia)) as Ee. pose proof (Z.mod_pos_bound e 2 ltac:(lia)) as Ho.
  set (h := e / 2) in *. set (o := e mod 2) in *. set (P := 2 ^ (h + o + 500)) in *.
  assert (HP : 0 < P) by (apply pow2_pos; lia).
  assert (Ezx : ((e - 1023) >> 1) + 1022 = h + o + 510) by (rewrite shiftr_1; dlia).
  rewrite Ezx, s16_small by lia.
  assert (Wz : words96 (z0, z1, 0)) by (split; [assumption | split; [assumption | apply zero_word; lia]]).
  pose proof (shift64Extra_words z0 z1 0 10 Wz ltac:(lia)) as Ws.
  pose proof (shift64Extra_sticky z0 z1 0 10 Wz ltac:(lia)) as Ss.
  apply (root_sticky_rational 512 _ X P) in Hstk;
    [| unfold val64, is_u in *; cbn [fst snd]; lia | unfold X; pose proof (pow2_pos (9 - o) ltac:(lia)); nia | lia | assumption].
  apply (sticky_scale (2 ^ 32)) in Hstk; [|lia].
  replace (2 ^ 32 * val64 (z0, z1)) with (z0 * 2 ^ 64 + z1 * 2 ^ 32 + 0) in Hstk
    by (unfold val64; cbn [fst snd]; lia).
  assert (E41 : 2 ^ 31 * 2 ^ 10 = 2 ^ 32 * 512 * 1) by reflexivity.
  assert (HD : 0 < 2 * P) by lia. pose proof (sticky_trans _ _ _ _ _ _ _ _ HD E41 Hstk Ss) as St.
  assert (Hy : let '(y0, _, _) := shift64ExtraRightJamming z0 z1 0 10 in 2 ^ 20 <= y0 < 2 ^ 21).
  { pose proof (sticky_compare _ _ _ _ (2 ^ 53) Ss) as C1. pose proof (sticky_compare _ _ _ _ (2 ^ 54) Ss) as C2.
    destruct (shift64ExtraRightJamming z0 z1 0 10) as [[y0 y1] y2].
    destruct Ws as (Y0 & Y1 & Y2). unfold val96, is_u in *. split.
    - destruct (Z.lt_ge_cases y0 (2 ^ 20)) as [H|]; [exfalso|assumption]. lia.
    - assert (y0 * 2 ^ 64 + y1 * 2 ^ 32 + y2 < 2 ^ 31 * 2 ^ 54) by (apply C2; lia). lia. }
  destruct (shift64ExtraRightJamming z0 z1 0 10) as [[y0 y1] y2].
  apply (roundAndPackFloat64_ref st 0 (h + o + 510) y0 y1 y2 (2 ^ 32 * root_num (X * (P * P))) (2 * P * 2 ^ 10));
    try assumption; try lia; [now left | apply root_num_nonneg |].
  apply (scaled_intro _ _ _ _ _ 0); [lia | lia |].
  replace (h + o + 510 - 32 + 0) with (h + o + 500 - 22) by lia.
  assert (EP : P = 2 ^ (h + o + 500 - 22) * 2 ^ 22) by (unfold P; rewrite <- Z.pow_add_r by lia; f_equal; lia).
  rewrite EP. ring.
Qed.

(** The double-precision square root terminates (each digit of the root needs at most four
    corrections) and returns, for every positive operand including subnormals, the real root
    rounded in the current mode with exactly the exceptions of that rounding; the root of a zero
    is that zero, a negative operand is invalid, and NaN operands propagate. *)
Lemma float64_sqrt_correct st fuel a : (4 < fuel)%nat -> fp_ok st -> f64_word a ->
  float64_sqrt fuel a st = ref_sqrt64 st a.
Proof.
  intros Hf Hst Ha. unfold ref_sqrt64, float64_sqrt. pose proof (f64_mag_nonneg a Ha) as Hm.
  pose proof (f64_sign_flag a Ha) as Hs. rewrite sign64_div, f64_zero_words, <- f64_mag_zero by assumption.
  assert (Es : truthy (f64_sign a) = (f64_sign a =? 1)) by (destruct Hs as [-> | ->]; reflexivity).
  rewrite Es.
  destruct (special_cases64 a Ha) as [(Na & Ia & Fa & Za) | [(Na & Ia & Fa & Za & _) | (Na & Ia & Fa)]];
    rewrite Na, ?Ia.
  - rewrite Fa, Za. reflexivity.
  - rewrite Fa, Za, (proj2 (Z.eqb_neq _ _) (f64_inf_mag a Ha Fa)). cbn [Z.eqb Pos.eqb].
    destruct (f64_sign a =? 1); cbn [negb]; [now apply invalid64_eq | reflexivity].
  - rewrite (proj2 (Z.eqb_neq (extractFloat64Exp a) 0x7FF)) by lia.
    destruct (Z.eqb_spec (f64_mag a) 0) as [Mz|Mz]; destruct (Z.eqb_spec (f64_sign a) 1) as [S1|S1];
      [reflexivity | | now apply invalid64_eq |].
    + rewrite pack_signed_zero64 by now left. do 2 f_equal. rewrite <- (of_bits64_bits a Ha). f_equal.
      pose proof (f64_mag_zero a Ha) as M0. rewrite Mz in M0. symmetry in M0.
      apply andb_true_iff in M0 as [M1 M2]. rewrite lor_eq0 in M2. apply andb_true_iff in M2 as [M2 M3].
      apply Z.eqb_eq in M1, M2, M3. destruct (fields64 a Ha) as (E & _).
      unfold f64_frac, val64 in E. rewrite M1, M2, M3 in E. cbn [fst snd] in E.
      destruct Hs as [S0|S0]; [|contradiction]. rewrite S0 in E. lia.
    + fold (norm64 a). assert (Fin : f64_finite a) by (split; assumption).
      pose proof (norm64_spec a Fin ltac:(lia)) as Na'. destruct (norm64 a) as [[e x0] x1].
      destruct Na' as (R1 & R2 & R3 & m & R4 & R5 & R6 & R7 & R8).
      apply (float64_sqrt_round st fuel e (x0 ||| 0x00100000) x1 m); try assumption.
      split; [unfold is_u; cbn [fst]; change 0x00100000 with (2 ^ 20); lia | assumption].
Qed.
