(* ===== verification/Float64Compare.v ===== *)
(** * Double-precision comparisons and their entry points *)

From S2P Require Import Prelude.
From S2P Require Import CInt.
From S2P Require Import FPState.
From S2P Require Import Rounding.
From S2P Require Import SoftFloatPrim.
From S2P Require Import Float32.
From S2P Require Import Float64.
From S2P Require Import Float32Round.
From S2P Require Import Float32Arith.
From S2P Require Import Float32MulDiv.
From S2P Require Import Emulate.
From S2P Require Import Float32Compare.
From S2P Require Import Float64Round.
From S2P Require Import Float64Arith.
From S2P Require Import Float64Sum.
From S2P Require Import Float64MulDiv.
From S2P Require Import Float64Div.

(** The comparison a routine makes: on the values, except with NaN operands, where it is false
    and raises the invalid exception for a signaling NaN or in the signaling variant. *)
Definition ref_compare64 (signals : bool) (r : Z -> Z -> bool) (a b : float64) (st : fpstate)
  : option (bool * fpstate) :=
  if f64_is_nan a || f64_is_nan b then
    Some (false, if signals || float64_is_signaling_nan a || float64_is_signaling_nan b
                 then raised st float_flag_invalid else st)
  else Some (r (f64_val a) (f64_val b), st).

Lemma unordered64 a b : float64_unordered a b = f64_is_nan a || f64_is_nan b.
Proof. reflexivity. Qed.

Lemma float64_is_nan_eq a : f64_word a -> float64_is_nan a = f64_is_nan a.
Proof.
  intros Ha. pose proof Ha as [H0 H1]. cbn [fst snd] in *. unfold float64_is_nan, f64_is_nan.
  change (high a &&& 0x000FFFFF) with (extractFloat64Frac0 a). change (low a) with (extractFloat64Frac1 a).
  rewrite <- truthy_lor, Z.lor_comm. fold (truthy (extractFloat64Frac0 a ||| extractFloat64Frac1 a)).
  f_equal. rewrite exp64_mod, u32_shl by lia. change (32 - 1) with 31. unfold is_u in H0.
  zbool. dlia.
Qed.

(** ** The results on ordered operands *)

Lemma sign_mag64 a : f64_word a -> bits64 a = f64_sign a * 2 ^ 63 + bits64 a mod 2 ^ 63 /\
  is_flag (f64_sign a) /\
  f64_val a = (1 - 2 * f64_sign a) * mag_val64 (bits64 a mod 2 ^ 63) /\
  (mag_val64 (bits64 a mod 2 ^ 63) = 0 <-> bits64 a mod 2 ^ 63 = 0) /\
  0 <= mag_val64 (bits64 a mod 2 ^ 63).
Proof.
  intros Ha. pose proof (f64_sign_flag a Ha) as Hs.
  pose proof (Z.mod_pos_bound (bits64 a) (2 ^ 63) ltac:(lia)).
  pose proof (mag_val_compare 53 ltac:(lia) (bits64 a mod 2 ^ 63) 0 ltac:(lia) ltac:(lia)) as C.
  rewrite mag_val_0 in C. repeat split.
  - pose proof (Z.div_mod (bits64 a) (2 ^ 63) ltac:(lia)).
    destruct (fields64 a Ha) as (E & _ & He & Hf & _).
    assert (bits64 a / 2 ^ 63 = f64_sign a) by (apply div_eq; lia). lia.
  - exact Hs.
  - intros E. rewrite E in C. now apply Z.compare_eq.
  - intros E. rewrite E in C |- *. apply mag_val_0.
  - destruct (Z.compare_spec (bits64 a mod 2 ^ 63) 0); [|lia|].
    + apply Z.compare_eq in C. lia.
    + apply Z.compare_gt_iff in C. lia.
Qed.

(** The test for two zeros. *)
Lemma both_zero64 a b : f64_word a -> f64_word b ->
  ((u32 ((high a ||| high b) << 1) ||| low a ||| low b) =? 0)
  = (bits64 a mod 2 ^ 63 =? 0) && (bits64 b mod 2 ^ 63 =? 0).
Proof.
  intros [H0 H1] [H2 H3]. cbn [fst snd] in *. rewrite !lor_eq0, both_zero32.
  assert (E : forall h l, is_u 32 h -> is_u 32 l ->
    (val64 (h, l) mod 2 ^ 63 =? 0) = (h mod 2 ^ 31 =? 0) && (l =? 0)).
  { intros h l Hh Hl. unfold val64, is_u in *. cbn [fst snd].
    replace ((h * 2 ^ 32 + l) mod 2 ^ 63) with (h mod 2 ^ 31 * 2 ^ 32 + l)
      by (apply (Z.mod_unique _ _ (h / 2 ^ 31)); dlia).
    pose proof (Z.mod_pos_bound h (2 ^ 31) ltac:(lia)). repeat ztest; cbn [andb]; try reflexivity; exfalso; lia. }
  unfold bits64. rewrite !E by assumption.
  now destruct (high a mod 2 ^ 31 =? 0), (high b mod 2 ^ 31 =? 0), (low a =? 0), (low b =? 0).
Qed.

Lemma lt64_val a0 a1 b0 b1 : words64 (a0, a1) -> words64 (b0, b1) ->
  lt64 a0 a1 b0 b1 = (val64 (a0, a1) <? val64 (b0, b1)).
Proof.
  intros [H0 H1] [H2 H3]. unfold lt64, val64, is_u in *. cbn [fst snd] in *.
  repeat ztest; cbn [andb orb]; try reflexivity; exfalso; lia.
Qed.

(** Equality of the patterns or of two zeros. *)
Lemma float64_eq_words a b : f64_word a -> f64_word b ->
  float64_eq_result a b
  = (bits64 a =? bits64 b) || ((bits64 a mod 2 ^ 63 =? 0) && (bits64 b mod 2 ^ 63 =? 0)).
Proof.
  intros Ha Hb. rewrite <- both_zero64, !lor_eq0 by assumption. unfold float64_eq_result.
  destruct Ha as [H0 H1], Hb as [H2 H3]. cbn [fst snd] in *.
  set (z := u32 ((high a ||| high b) << 1) =? 0). unfold bits64, val64, is_u in *. cbn [fst snd].
  repeat ztest; cbn [andb orb]; try reflexivity; try (destruct z; reflexivity); exfalso; lia.
Qed.

Ltac compare64 a b Ha Hb :=
  destruct (sign_mag64 a Ha) as (Ea & Sa & Va & Za & Pa);
  destruct (sign_mag64 b Hb) as (Eb & Sb & Vb & Zb & Pb);
  rewrite ?sign64_div, ?both_zero64, ?le64_val, ?lt64_val, ?Va, ?Vb by assumption;
  fold (bits64 a) (bits64 b);
  pose proof (mag_val_compare 53 ltac:(lia) (bits64 a mod 2 ^ 63) (bits64 b mod 2 ^ 63)
    ltac:(apply Z.mod_pos_bound; lia) ltac:(apply Z.mod_pos_bound; lia)) as C;
  pose proof (Z.mod_pos_bound (bits64 a) (2 ^ 63) ltac:(lia));
  pose proof (Z.mod_pos_bound (bits64 b) (2 ^ 63) ltac:(lia));
  set (ma := bits64 a mod 2 ^ 63) in *; set (mb := bits64 b mod 2 ^ 63) in *;
  set (va := mag_val64 ma) in *; set (vb := mag_val64 mb) in *; clearbody va vb ma mb;
  unfold is_flag, truthy in *;
  destruct (Z.compare_spec ma mb);
    [apply -> Z.compare_eq_iff in C | apply -> Z.compare_lt_iff in C | apply -> Z.compare_gt_iff in C];
  destruct Sa as [Sa | Sa], Sb as [Sb | Sb]; rewrite Sa, Sb in *;
  cbn [Z.eqb negb andb orb xorb];
  repeat ztest; cbn [negb andb orb xorb]; try reflexivity; try (exfalso; lia).

Lemma float64_eq_result_val a b : f64_word a -> f64_word b ->
  float64_eq_result a b = (f64_val a =? f64_val b).
Proof. intros Ha Hb. rewrite float64_eq_words by assumption. compare64 a b Ha Hb. Qed.

Lemma float64_le_result_val a b : f64_word a -> f64_word b ->
  float64_le_result a b = (f64_val a <=? f64_val b).
Proof. intros Ha Hb. unfold float64_le_result. compare64 a b Ha Hb. Qed.

Lemma float64_lt_result_val a b : f64_word a -> f64_word b ->
  float64_lt_result a b = (f64_val a <? f64_val b).
Proof. intros Ha Hb. unfold float64_lt_result. compare64 a b Ha Hb. Qed.

Lemma compare_signaling_ref64 st r r' a b : fp_ok st -> r a b = r' (f64_val a) (f64_val b) ->
  float64_compare_signaling r a b st = ref_compare64 true r' a b st.
Proof.
  intros Hst E. unfold float64_compare_signaling, ref_compare64. rewrite unordered64, E.
  destruct (_ || _); [|reflexivity]. unfold bind. now rewrite float_raise_eq by (assumption || flag_range).
Qed.

Lemma compare_quiet_ref64 st r r' a b : fp_ok st -> r a b = r' (f64_val a) (f64_val b) ->
  float64_compare_quiet r a b st = ref_compare64 false r' a b st.
Proof.
  intros Hst E. unfold float64_compare_quiet, ref_compare64. rewrite unordered64, E.
  destruct (f64_is_nan a || f64_is_nan b); [|reflexivity]. cbn [orb]. unfold bind, when_.
  destruct (_ || _); [|reflexivity]. now rewrite float_raise_eq by (assumption || flag_range).
Qed.

(** The six double-precision comparisons decide the order of the represented values, zeros
    of either sign being equal and infinities outermost; a NaN operand makes them false, and
    raises the invalid exception in the signaling variants or when the NaN is signaling. *)
Theorem float64_comparisons_correct st a b : fp_ok st -> f64_word a -> f64_word b ->
  float64_eq a b st = ref_compare64 false Z.eqb a b st /\
  float64_le a b st = ref_compare64 true Z.leb a b st /\
  float64_lt a b st = ref_compare64 true Z.ltb a b st /\
  float64_eq_signaling a b st = ref_compare64 true Z.eqb a b st /\
  float64_le_quiet a b st = ref_compare64 false Z.leb a b st /\
  float64_lt_quiet a b st = ref_compare64 false Z.ltb a b st.
Proof.
  intros Hst Ha Hb.
  pose proof (float64_eq_result_val a b Ha Hb). pose proof (float64_le_result_val a b Ha Hb).
  pose proof (float64_lt_result_val a b Ha Hb).
  repeat split; (apply compare_signaling_ref64 || apply compare_quiet_ref64); assumption.
Qed.

(** The smallest negative subnormal against zero, and a signaling NaN. *)
Lemma float64_comparisons_witness :
  float64_lt (of_bits64 0x8000000000000001) (of_bits64 0) fp_init = Some (true, fp_init) /\
  float64_eq (of_bits64 0x7FF0000000000001) (of_bits64 0) fp_init = Some (false, raised fp_init float_flag_invalid).
Proof.
  split.
  - rewrite (proj1 (proj2 (proj2 (float64_comparisons_correct fp_init (of_bits64 0x8000000000000001) (of_bits64 0) fp_init_ok
      ltac:(split; cbn; unfold is_u; lia) ltac:(split; cbn; unfold is_u; lia))))). vm_compute. reflexivity.
  - rewrite (proj1 (float64_comparisons_correct fp_init (of_bits64 0x7FF0000000000001) (of_bits64 0) fp_init_ok
      ltac:(split; cbn; unfold is_u; lia) ltac:(split; cbn; unfold is_u; lia))). vm_compute. reflexivity.
Defined.

(** ** The entry points *)

Lemma or_nan64_eq a b m st : f64_word a -> f64_word b ->
  or_nan64 a b m st = if f64_is_nan a || f64_is_nan b then Some (1, st) else m st.
Proof.
  intros Ha Hb. unfold or_nan64. rewrite !float64_is_nan_eq by assumption.
  now destruct (_ || _).
Qed.

Lemma ref_compare64_result signals r a b st :
  result (ref_compare64 signals r a b st)
  = Some (negb (f64_is_nan a || f64_is_nan b) && r (f64_val a) (f64_val b)).
Proof. unfold ref_compare64. now destruct (_ || _). Qed.

(** At least one operand is a NaN. *)
Definition f64_unordered (a b : float64) : bool := f64_is_nan a || f64_is_nan b.

(** What the comparison instructions' entry points return.  With a NaN operand EQD, LED, LTD
    and ORDD give 0 and the "unordered or" variants give 1; GED and GTD, written as negations of
    [float64_lt] and [float64_le], also give 1, the same as GEUD and GTUD. *)
Theorem emulated_double_comparisons_result st a b : fp_ok st -> f64_word a -> f64_word b ->
  let nan := f64_unordered a b in
  let va := f64_val a in let vb := f64_val b in
  result (__emulate_EQD_2_1_f64_f64_i64 a b st) = Some (b2z (negb nan && (va =? vb))) /\
  result (__emulate_LED_2_1_f64_f64_i64 a b st) = Some (b2z (negb nan && (va <=? vb))) /\
  result (__emulate_LTD_2_1_f64_f64_i64 a b st) = Some (b2z (negb nan && (va <? vb))) /\
  result (__emulate_NED_2_1_f64_f64_i64 a b st) = Some (b2z (nan || negb (va =? vb))) /\
  result (__emulate_GED_2_1_f64_f64_i64 a b st) = Some (b2z (nan || (vb <=? va))) /\
  result (__emulate_GTD_2_1_f64_f64_i64 a b st) = Some (b2z (nan || (vb <? va))) /\
  result (__emulate_EQUD_2_1_f64_f64_i64 a b st) = Some (b2z (nan || (va =? vb))) /\
  result (__emulate_LEUD_2_1_f64_f64_i64 a b st) = Some (b2z (nan || (va <=? vb))) /\
  result (__emulate_LTUD_2_1_f64_f64_i64 a b st) = Some (b2z (nan || (va <? vb))) /\
  result (__emulate_NEUD_2_1_f64_f64_i64 a b st) = Some (b2z (nan || negb (va =? vb))) /\
  result (__emulate_GEUD_2_1_f64_f64_i64 a b st) = Some (b2z (nan || (vb <=? va))) /\
  result (__emulate_GTUD_2_1_f64_f64_i64 a b st) = Some (b2z (nan || (vb <? va))) /\
  __emulate_ORDD_2_1_f64_f64_i64 a b = b2z (negb nan) /\
  __emulate_UORDD_2_1_f64_f64_i64 a b = b2z nan.
Proof.
  intros Hst Ha Hb nan va vb. unfold f64_unordered in nan.
  assert (Q : float64_eq a b st = ref_compare64 false Z.eqb a b st)
    by (apply compare_quiet_ref64; [assumption | now apply float64_eq_result_val]).
  assert (L : float64_le a b st = ref_compare64 true Z.leb a b st)
    by (apply compare_signaling_ref64; [assumption | now apply float64_le_result_val]).
  assert (T : float64_lt a b st = ref_compare64 true Z.ltb a b st)
    by (apply compare_signaling_ref64; [assumption | now apply float64_lt_result_val]).
  unfold __emulate_EQD_2_1_f64_f64_i64, __emulate_LED_2_1_f64_f64_i64,
    __emulate_LTD_2_1_f64_f64_i64, __emulate_NED_2_1_f64_f64_i64, __emulate_GED_2_1_f64_f64_i64,
    __emulate_GTD_2_1_f64_f64_i64, __emulate_EQUD_2_1_f64_f64_i64, __emulate_LEUD_2_1_f64_f64_i64,
    __emulate_LTUD_2_1_f64_f64_i64, __emulate_NEUD_2_1_f64_f64_i64, __emulate_GEUD_2_1_f64_f64_i64,
    __emulate_GTUD_2_1_f64_f64_i64, __emulate_ORDD_2_1_f64_f64_i64, __emulate_UORDD_2_1_f64_f64_i64.
  rewrite !or_nan64_eq, !float64_is_nan_eq, (Z.leb_antisym va vb), (Z.ltb_antisym va vb) by assumption.
  fold nan. destruct nan eqn:N; repeat split;
    rewrite ?result_as_int, ?result_as_not, ?Q, ?L, ?T, ?ref_compare64_result; fold va vb;
    fold nan; rewrite ?N; cbn [negb andb orb option_map]; rewrite ?negb_involutive; try reflexivity.
  all: rewrite <- negb_orb; fold nan; now rewrite N.
Qed.

(** A quiet NaN is reported as greater than 1.0. *)
Lemma emulated_double_comparisons_witness :
  result (__emulate_GTD_2_1_f64_f64_i64 (of_bits64 0x7FF8000000000000) (of_bits64 0x3FF0000000000000) fp_init) = Some 1.
Proof.
  rewrite (proj1 (proj2 (proj2 (proj2 (proj2 (proj2 (emulated_double_comparisons_result fp_init (of_bits64 0x7FF8000000000000)
    (of_bits64 0x3FF0000000000000) fp_init_ok ltac:(split; cbn; unfold is_u; lia) ltac:(split; cbn; unfold is_u; lia)))))))).
  vm_compute. reflexivity.
Defined.
