(* ===== verification/Float64Conv.v ===== *)
(** * Conversions between the formats, and from double precision to integers *)

From S2P Require Import Prelude.
From S2P Require Import CInt.
From S2P Require Import FPState.
From S2P Require Import Rounding.
From S2P Require Import SoftFloatPrim.
From S2P Require Import Float32.
From S2P Require Import Float64.
From S2P Require Import Float32Round.
From S2P Require Import Float32Arith.
From S2P Require Import Float32MulDiv.
From S2P Require Import Float32Conv.
From S2P Require Import Float64Round.
From S2P Require Import Float64Arith.
From S2P Require Import Float64Sum.
From S2P Require Import Float64MulDiv.
From S2P Require Import Float64Div.

(** ** Narrowing *)

(** A positive value below half the least positive number: every rounding yields zero or that
    number, tiny and inexact. *)
Lemma rounded32_tiny st s A B : 0 < A -> 2 * A < B ->
  rounded32 st s A B =
  Some (s * 2 ^ 31 + b2z (rounds_away (float_rounding_mode st) (truthy s) 0 1 3),
        raised st (float_flag_underflow ||| float_flag_inexact)).
Proof.
  intros HA HB.
  assert (Hk : ref_k 24 A B = 0) by (unfold ref_k; rewrite Z.div_small by lia; reflexivity).
  assert (Hq : round_q (float_rounding_mode st) (truthy s) A B
               = b2z (rounds_away (float_rounding_mode st) (truthy s) 0 1 3)).
  { unfold round_q. rewrite Z.div_small, Z.mod_small by lia. unfold rounds_away.
    rewrite (proj2 (Z.compare_lt_iff (2 * A) B) HB), (proj2 (Z.eqb_neq A 0)) by lia. reflexivity. }
  assert (Hm : ref_mag 24 (float_rounding_mode st) (truthy s) A B
               = b2z (rounds_away (float_rounding_mode st) (truthy s) 0 1 3))
    by (unfold ref_mag; rewrite Hk, Z.mul_1_r, Hq; reflexivity).
  rewrite rounded32_finite by (rewrite Hm; destruct (rounds_away _ _ _ _ _); cbn; lia). rewrite Hm.
  assert (Hi : ref_inexact 24 A B = true).
  { unfold ref_inexact. rewrite Hk, Z.mul_1_r, Z.mod_small, (proj2 (Z.eqb_neq A 0)) by lia. reflexivity. }
  assert (Ht : ref_tiny 24 (float_detect_tininess st) (float_rounding_mode st) (truthy s) A B = true).
  { unfold ref_tiny. rewrite (proj2 (Z.ltb_lt A _)) by lia. cbn [andb]. apply orb_true_iff. right.
    apply Z.ltb_lt. pose proof (round_q_le (float_rounding_mode st) (truthy s) (2 * A) B 1). lia. }
  rewrite Hi, Ht. reflexivity.
Qed.

(** A significand shifted out completely. *)
Lemma roundAndPackFloat32_tiny st s zSig : fp_ok st -> is_flag s -> 0 <= zSig < 2 ^ 31 ->
  roundAndPackFloat32 s (-897) zSig st = rounded32 st s (b2z (truthy zSig)) 4.
Proof.
  intros Hst Hs Hz. unfold roundAndPackFloat32, bind at 1, get_mode.
  change (s16 (- -897)) with 897. change (u16 (-897)) with 64639. change (253 <=? 64639) with true.
  change ((253 <? -897) || ((-897 =? 253) && (s32 (u32 (zSig + roundIncrement32 (float_rounding_mode st) s)) <? 0)))
    with false.
  change (-897 <? 0) with true. change (-897 <? -1) with true. unfold bind, get_tininess. cbv beta iota.
  rewrite (orb_comm _ true). cbn [orb andb]. change (shift32RightJamming zSig 897) with (b2z (truthy zSig)).
  destruct (truthy zSig) eqn:T; cbn [b2z].
  - rewrite rounded32_tiny by lia. change (truthy (1 &&& 127)) with true. change (1 &&& 127) with 1.
    unfold when_, roundAndPackFloat32_tail. change (truthy 1) with true. unfold when_, bind.
    rewrite float_raise_eq by (assumption || flag_range).
    rewrite float_raise_eq by ((apply raised_ok; [assumption | flag_range]) || flag_range).
    rewrite raised_raised. cbn [raised float_rounding_mode].
    pose proof (mode_ok st Hst). assert (C : float_rounding_mode st = 0 \/ float_rounding_mode st = 1 \/
      float_rounding_mode st = 2 \/ float_rounding_mode st = 3) by lia.
    destruct C as [-> | [-> | [-> | ->]]], Hs as [-> | ->]; vm_compute; reflexivity.
  - change (truthy (0 &&& 127)) with false. change (0 &&& 127) with 0.
    rewrite (rounded32_frac st s 0 4 0 1) by lia. rewrite (rounded32_small st s 0) by lia.
    unfold when_, roundAndPackFloat32_tail. change (truthy 0) with false. unfold when_, bind, ret.
    pose proof (mode_ok st Hst). assert (C : float_rounding_mode st = 0 \/ float_rounding_mode st = 1 \/
      float_rounding_mode st = 2 \/ float_rounding_mode st = 3) by lia.
    destruct C as [-> | [-> | [-> | ->]]], Hs as [-> | ->]; reflexivity.
Qed.

(** The value converted to a 23-bit fraction: NaNs keep their sign and leading fraction bits and
    become quiet. *)
Definition ref_float64_to_float32 (st : fpstate) (a : float64) : option (Z * fpstate) :=
  if f64_is_nan a then
    Some (f64_sign a * 2 ^ 31 + (0x7FC00000 ||| f64_frac a / 2 ^ 29),
          if float64_is_signaling_nan a then raised st float_flag_invalid else st)
  else if f64_is_inf a then Some (f32_inf (f64_sign a), st)
  else rounded32 st (f64_sign a) (f64_mag a) (2 ^ 925).

Lemma narrow_jam a : f64_word a ->
  exists h, shift64RightJamming (extractFloat64Frac0 a) (extractFloat64Frac1 a) 22
            = (h, jam (f64_frac a) (2 ^ 22)) /\ 0 <= jam (f64_frac a) (2 ^ 22) < 2 ^ 30.
Proof.
  intros Ha. destruct (fields64 a Ha) as (_ & _ & _ & Hf & H0 & H1).
  assert (Hw : words64 (extractFloat64Frac0 a, extractFloat64Frac1 a))
    by (split; cbn; [unfold is_u; lia | assumption]).
  pose proof (shift64RightJamming_jam _ _ 22 (proj1 Hw) H1 ltac:(lia)) as HJ. cbn [fst snd] in HJ.
  change (extractFloat64Frac0 a * 2 ^ 32 + extractFloat64Frac1 a) with (f64_frac a) in HJ.
  destruct (shift64RightJamming_words _ _ 22 Hw ltac:(lia)) as [W0 W1].
  assert (Hj : 0 <= jam (f64_frac a) (2 ^ 22) < 2 ^ 30).
  { unfold jam. apply lor_b2z_range; [lia|]. split; [apply Z.div_pos | apply Z.div_lt_upper_bound]; lia. }
  destruct (shift64RightJamming _ _ 22) as [h z]. exists h. split; [|exact Hj].
  unfold val64, is_u in *. cbn [fst snd] in *. f_equal. lia.
Qed.

(** The 31-bit significand of a normal operand. *)
Lemma narrow_sticky a : f64_word a -> 0 < extractFloat64Exp a < 0x7FF ->
  let z := jam (f64_frac a) (2 ^ 22) ||| 0x40000000 in
  2 ^ 30 <= z < 2 ^ 31 /\ sticky (2 ^ 6) z (sig64 a) (2 ^ 22).
Proof.
  intros Ha He z. destruct (narrow_jam a Ha) as (_ & _ & Hj).
  pose proof (sticky_jam (f64_frac a) (2 ^ 22) ltac:(lia)) as Hs.
  unfold z. change 0x40000000 with (2 ^ 30). rewrite lor_bit by lia.
  split; [lia|]. apply (sticky_weaken 2 32). destruct (larger64 a ltac:(lia)) as [_ ->].
  apply (sticky_add 2 _ _ _ (2 ^ 29)) in Hs.
  now replace (f64_frac a + 2 * 2 ^ 29 * 2 ^ 22) with (f64_frac a + 2 ^ 52) in Hs by lia.
Qed.

Lemma jam_zero N D : 0 < D -> 0 <= N -> truthy (jam N D) = truthy N.
Proof.
  intros HD HN. unfold jam, truthy. pose proof (Z.div_mod N D ltac:(lia)) as E.
  pose proof (Z.mod_pos_bound N D HD). pose proof (Z.div_pos N D HN HD). f_equal.
  destruct (Z.eqb_spec N 0) as [->|Hn].
  - now rewrite Zdiv_0_l, Zmod_0_l.
  - apply Z.eqb_neq. intros Hz. apply Z.lor_eq_0_iff in Hz as [Hz1 Hz2].
    destruct (Z.eqb_spec (N mod D) 0); cbn in Hz2; nia.
Qed.

(** The finite case. *)
Lemma float64_to_float32_finite st a : fp_ok st -> f64_finite a ->
  float64_to_float32 a st = rounded32 st (f64_sign a) (f64_mag a) (2 ^ 925).
Proof.
  intros Hst [Ha Ea]. destruct (fields64 a Ha) as (_ & Hs & He & Hf & H0 & H1).
  destruct (narrow_jam a Ha) as (h & Ej & Hj).
  unfold float64_to_float32. rewrite (proj2 (Z.eqb_neq _ 0x7FF)) by lia. rewrite Ej, sign64_div, s16_small by lia.
  unfold truthy at 1. destruct (Z.eqb_spec (extractFloat64Exp a) 0) as [E0|E0]; cbn [negb].
  - rewrite E0. change (0 - 0x381) with (-897). rewrite roundAndPackFloat32_tiny by (assumption || lia).
    rewrite jam_zero by lia. rewrite f64_mag_fields, E0 by assumption. cbn [Z.eqb]. unfold truthy.
    destruct (Z.eqb_spec (f64_frac a) 0) as [->|Hn]; cbn [negb b2z].
    + now apply rounded32_frac.
    + rewrite !rounded32_tiny by lia. reflexivity.
  - destruct (narrow_sticky a Ha ltac:(lia)) as [Hz Hk].
    apply (roundAndPackFloat32_ref _ _ _ _ (sig64 a) (2 ^ 22)); try assumption; try lia.
    + rewrite f64_mag_fields by assumption. destruct (extractFloat64Exp a =? 0); nonneg.
    + rewrite f64_mag_sig by assumption. destruct (larger64 a ltac:(lia)) as [-> _].
      apply (scaled_intro _ _ _ _ _ 1000); [lia | lia |].
      replace (extractFloat64Exp a - 0x381 - 7 + 1000) with (extractFloat64Exp a - 1 + 97) by lia.
      rewrite Z.pow_add_r by lia. ring.
Qed.

(** The fraction a NaN carries between the formats. *)
Lemma float64ToCommonNaN_eq st a : fp_ok st -> f64_word a ->
  exists h l, float64ToCommonNaN a st
    = Some (mk_commonNaN (f64_sign a) h l,
            if float64_is_signaling_nan a then raised st float_flag_invalid else st) /\
  h = f64_frac a / 2 ^ 20.
Proof.
  intros Hst Ha. destruct (fields64 a Ha) as (E & Hs & He & Hf & _). pose proof Ha as [H0 H1].
  destruct (shortShift64Left_mod (high a) (low a) 12 Ha ltac:(lia)) as [[W0 W1] V].
  fold (bits64 a) in V. rewrite E in V.
  unfold float64ToCommonNaN. destruct (shortShift64Left (high a) (low a) 12) as [h l].
  exists h, l. split.
  - rewrite shr_div by lia. unfold bind, when_, ret. fold (f64_sign a).
    destruct (float64_is_signaling_nan a); [now rewrite float_raise_eq by (assumption || flag_range)|reflexivity].
  - unfold val64, is_u in *. cbn [fst snd] in *.
    replace (((f64_sign a * 2 ^ 63 + (extractFloat64Exp a * 2 ^ 52 + f64_frac a)) * 2 ^ 12) mod 2 ^ 64)
      with (f64_frac a * 2 ^ 12) in V.
    + symmetry. apply div_eq; lia.
    + apply (Z.mod_unique _ _ (f64_sign a * 2 ^ 11 + extractFloat64Exp a)); [left; lia | ring].
Qed.

Lemma commonNaNToFloat32_eq s h l : is_flag s -> is_u 32 h ->
  commonNaNToFloat32 (mk_commonNaN s h l) = s * 2 ^ 31 + (0x7FC00000 ||| h / 2 ^ 9).
Proof.
  intros Hs Hh. unfold commonNaNToFloat32, is_u in *. cbn [nan_sign nan_high].
  rewrite u32_shl_small, shr_div, <- Z.lor_assoc by (unfold is_flag in Hs; lia).
  apply (lor_add _ _ 31); [lia | | now rewrite Z.mod_mul].
  apply lor_bound; [lia | lia |]. dlia.
Qed.

(** Narrowing a double to single precision rounds correctly in the current mode with the IEEE
    exceptions, for every operand: underflow to zero or to the least subnormal, overflow,
    infinities, and NaNs, whose leading fraction bits survive in a quiet NaN. *)
Theorem float64_to_float32_correct st a : fp_ok st -> f64_word a ->
  float64_to_float32 a st = ref_float64_to_float32 st a.
Proof.
  intros Hst Ha. destruct (fields64 a Ha) as (_ & Hs & _ & Hf & _). unfold ref_float64_to_float32.
  destruct (special_cases64 a Ha) as [(Na & Ia & Ea & Fa) | [(Na & Ia & Ea & Fa & _) | (Na & Ia & Ea)]];
    rewrite Na, ?Ia.
  - unfold float64_to_float32. rewrite Ea, Fa. cbn [Z.eqb Pos.eqb].
    destruct (float64ToCommonNaN_eq st a Hst Ha) as (h & l & En & Eh). unfold bind. rewrite En.
    unfold ret. rewrite commonNaNToFloat32_eq by (assumption || (unfold is_u; rewrite Eh; dlia)).
    rewrite Eh, Z.div_div by lia. reflexivity.
  - unfold float64_to_float32. rewrite Ea, Fa. cbn [Z.eqb Pos.eqb]. rewrite sign64_div. now apply pack_inf32.
  - apply float64_to_float32_finite; [assumption | now split].
Qed.

(** 1 + 2^-24 is a tie; the least subnormal double underflows. *)
Lemma float64_to_float32_witness :
  float64_to_float32 (of_bits64 0x3FF0000010000000) fp_init
    = Some (0x3F800000, raised fp_init float_flag_inexact) /\
  float64_to_float32 (of_bits64 1) fp_init
    = Some (0, raised fp_init (float_flag_underflow ||| float_flag_inexact)) /\
  float64_to_float32 (of_bits64 0xFFF4000000000000) fp_init
    = Some (0xFFE00000, raised fp_init float_flag_invalid).
Proof.
  split; [|split]; rewrite float64_to_float32_correct by (exact fp_init_ok || (split; cbn; unfold is_u; lia));
    vm_compute; reflexivity.
Defined.

(** ** Widening *)

(** The double with significand [Y] and biased exponent [e + 1]. *)
Lemma encoded_bits s e Y : is_flag s -> 0 <= e < 2046 -> 2 ^ 52 <= Y < 2 ^ 53 ->
  let z := of_bits64 (s * 2 ^ 63 + (e * 2 ^ 52 + Y)) in
  f64_finite z /\ f64_sign z = s /\ f64_mag z = Y * 2 ^ e.
Proof.
  intros Hs He HY z. set (b := e * 2 ^ 52 + Y) in *. unfold is_flag in Hs.
  assert (Hb : 0 <= s * 2 ^ 63 + b < 2 ^ 64) by lia.
  assert (Hw : f64_word z).
  { split; unfold z, of_bits64, is_u; cbn [fst snd high low]; dlia. }
  assert (Ez : bits64 z = s * 2 ^ 63 + b).
  { unfold bits64, val64, z, of_bits64. cbn [fst snd high low]. dlia. }
  destruct (fields64 z Hw) as (E & Sz & Rz & Fz & _). rewrite Ez in E. unfold is_flag in Sz.
  assert (Es : f64_sign z = s) by lia. assert (Ee : extractFloat64Exp z = e + 1) by lia.
  split; [split; [exact Hw | lia]|]. split; [exact Es|].
  rewrite f64_mag_fields, Ee by assumption. destruct (Z.eqb_spec (e + 1) 0); [lia|].
  replace (e + 1 - 1) with e by lia. f_equal. lia.
Qed.

Lemma widened_words Y : 0 <= Y < 2 ^ 24 ->
  exists z0 z1, shift64Right Y 0 3 = (z0, z1) /\ words64 (z0, z1) /\ val64 (z0, z1) = Y * 2 ^ 29.
Proof.
  intros HY. assert (Hw : is_u 32 Y) by (unfold is_u; lia). assert (H0 : is_u 32 0) by (apply zero_word; lia).
  pose proof (shift64Right_div Y 0 3 Hw H0 ltac:(lia)) as V.
  pose proof (shift64Right_words Y 0 3 Hw H0 ltac:(lia)) as W.
  destruct (shift64Right Y 0 3) as [z0 z1]. exists z0, z1. split; [reflexivity|]. split; [exact W|].
  rewrite V. dlia.
Qed.

Lemma float32_to_float64_finite st a : f32_finite a ->
  exists z, float32_to_float64 a st = Some (z, st) /\ f64_finite z /\
    f64_sign z = f32_sign a /\ f64_mag z = f32_mag a * 2 ^ 925.
Proof.
  intros [Ha Ea]. destruct (fields32 a Ha) as (_ & _ & He & Hf). rewrite f32_mag_fields by assumption.
  pose proof (f32_sign_flag a Ha) as Hs. unfold float32_to_float64. rewrite (proj2 (Z.eqb_neq _ 0xFF)), sign32_div by lia.
  change (a / 2 ^ 31) with (f32_sign a) in *.
  destruct (Z.eqb_spec (extractFloat32Exp a) 0) as [E0|E0]; cbn [andb].
  - destruct (Z.eqb_spec (extractFloat32Frac a) 0) as [F0|F0].
    + rewrite F0. eexists. split; [reflexivity|]. rewrite packFloat64_eq by (assumption || lia || (apply zero_word; lia)).
      destruct Hs as [-> | ->]; (split; [split; [split; unfold is_u; cbn; lia | cbn; lia] | split; reflexivity]).
    + pose proof (normalizeFloat32Subnormal_eq (extractFloat32Frac a) ltac:(lia)) as N.
      destruct (normalizeFloat32Subnormal _) as [e Y]. destruct N as (N1 & N2 & N3).
      rewrite (s16_small (e - 1)) by lia. destruct (widened_words Y ltac:(lia)) as (z0 & z1 & -> & [W0 W1] & V).
      rewrite s16_small by lia. eexists. split; [reflexivity|].
      unfold val64, is_u in *. cbn [fst snd] in *. rewrite packFloat64_eq by (assumption || lia).
      unfold val64. cbn [fst snd]. rewrite V.
      destruct (encoded_bits (f32_sign a) (e - 1 + 896) (Y * 2 ^ 29) Hs ltac:(lia) ltac:(lia)) as (K1 & K2 & K3).
      split; [exact K1|]. split; [exact K2|]. rewrite K3, N3, <- !Z.mul_assoc, <- !Z.pow_add_r by lia.
      do 2 f_equal. lia.
  - destruct (widened_words (extractFloat32Frac a) ltac:(lia)) as (z0 & z1 & -> & [W0 W1] & V).
    rewrite s16_small by lia. eexists. split; [reflexivity|].
    unfold val64, is_u in *. cbn [fst snd] in *. rewrite packFloat64_eq by (assumption || lia).
    unfold val64. cbn [fst snd]. rewrite V.
    destruct (encoded_bits (f32_sign a) (extractFloat32Exp a + 895) ((extractFloat32Frac a + 2 ^ 23) * 2 ^ 29) Hs
      ltac:(lia) ltac:(lia)) as (K1 & K2 & K3).
    replace ((extractFloat32Exp a + 896) * 2 ^ 52 + extractFloat32Frac a * 2 ^ 29)
      with ((extractFloat32Exp a + 895) * 2 ^ 52 + (extractFloat32Frac a + 2 ^ 23) * 2 ^ 29) by lia.
    split; [exact K1|]. split; [exact K2|]. rewrite K3, <- !Z.mul_assoc, <- !Z.pow_add_r by lia.
    do 2 f_equal. lia.
Qed.

(** [z] is [a], not a NaN, in double precision. *)
Definition widened (a : Z) (z : float64) : Prop :=
  f64_word z /\ f64_sign z = f32_sign a /\
  if f32_is_inf a then z = f64_inf (f32_sign a) else f64_finite z /\ f64_mag z = f32_mag a * 2 ^ 925.

Lemma f32_bits a : is_u 32 a -> a = f32_sign a * 2 ^ 31 + a mod 2 ^ 31 /\ 0 <= a mod 2 ^ 31 < 2 ^ 31.
Proof.
  intros Ha. unfold f32_sign. pose proof (Z.div_mod a (2 ^ 31) ltac:(lia)).
  pose proof (Z.mod_pos_bound a (2 ^ 31) ltac:(lia)). lia.
Qed.

(** Widening a single, other than a NaN, is exact and raises nothing, subnormals becoming
    normal; narrowing the result gives back the same pattern, also without exceptions. *)
Lemma float32_to_float64_roundtrip st a : fp_ok st -> is_u 32 a -> f32_is_nan a = false ->
  exists z, float32_to_float64 a st = Some (z, st) /\ widened a z /\
    float64_to_float32 z st = Some (a, st).
Proof.
  intros Hst Ha Na. pose proof (f32_sign_flag a Ha) as Hs. unfold widened.
  destruct (f32_is_inf a) eqn:Ia.
  - unfold f32_is_inf in Ia. apply andb_true_iff in Ia as [Ea Fa].
    apply Z.eqb_eq in Ea, Fa. destruct (fields32 a Ha) as (E & _).
    rewrite Ea, Fa, sign32_div in E. change (a / 2 ^ 31) with (f32_sign a) in E.
    exists (f64_inf (f32_sign a)). unfold float32_to_float64. rewrite Ea, Fa. cbn [Z.eqb Pos.eqb].
    change (truthy 0) with false. rewrite sign32_div. change (a / 2 ^ 31) with (f32_sign a).
    rewrite pack_inf64 by assumption.
    replace (Some (a, st)) with (Some (f32_inf (f32_sign a), st)) by (unfold f32_inf; do 2 f_equal; lia).
    destruct Hs as [-> | ->]; (split; [reflexivity|]; split; [|vm_compute; reflexivity];
      split; [split; unfold is_u; cbn; lia | split; reflexivity]).
  - assert (Fa : f32_finite a).
    { split; [exact Ha|]. destruct (fields32 a Ha) as (_ & _ & He & _). unfold f32_is_nan, f32_is_inf in *.
      destruct (Z.eqb_spec (extractFloat32Exp a) 0xFF); [|lia].
      destruct (extractFloat32Frac a =? 0); discriminate. }
    destruct (float32_to_float64_finite st a Fa) as (z & Ez & Fz & Sz & Mz). exists z.
    split; [exact Ez|]. split; [split; [apply Fz | split; [exact Sz | now split]]|].
    rewrite float64_to_float32_finite, Sz, Mz by assumption.
    rewrite (rounded32_frac st _ _ _ (f32_mag a) 1) by lia.
    destruct (f32_bits a Ha) as [Eb Rb]. unfold f32_mag. rewrite rounded32_exact.
    + now rewrite <- Eb.
    + destruct Fa as [_ Fe]. destruct (fields32 a Ha) as (E & _ & He & Hf).
      rewrite sign32_div in E. change (a / 2 ^ 31) with (f32_sign a) in E. lia.
Qed.

(** ** Integers to double precision *)

Definition ref_from_int (a : Z) (z : float64) : Prop := f64_finite z /\ f64_val z = a * 2 ^ 1074.

(** Every 32-bit integer converts to the double with exactly its value. *)
Lemma int32_to_float64_exact a : is_s 32 a -> ref_from_int a (int32_to_float64 a).
Proof.
  intros Ha. unfold is_s in Ha. change (2 ^ (32 - 1)) with (2 ^ 31) in Ha. unfold int32_to_float64.
  destruct (Z.eqb_spec a 0) as [->|H0]; [split; [split; [split; unfold is_u; cbn; lia | cbn; lia] | reflexivity]|].
  set (s := b2z (a <? 0)). assert (Hs : is_flag s) by (unfold s, is_flag; destruct (a <? 0); cbn; lia).
  assert (Es : a = (1 - 2 * s) * Z.abs a) by (unfold s; destruct (Z.ltb_spec a 0); cbn [b2z]; lia).
  replace (u32 (if truthy s then s32 (- a) else a)) with (Z.abs a).
  2: { unfold s. destruct (Z.ltb_spec a 0); cbn [b2z]; [change (truthy 1) with true | change (truthy 0) with false].
       - destruct (Z.eq_dec a (- 2 ^ 31)) as [->|]; [reflexivity|].
         unfold s32. rewrite sw_small, u32_small by (lia || (unfold is_s; lia)). lia.
       - rewrite u32_small by lia. lia. }
  set (m := Z.abs a) in *. assert (Hm : 0 < m <= 2 ^ 31) by lia.
  rewrite countLeadingZeros32_log2 by lia. pose proof (Z.log2_spec m ltac:(lia)) as [Hl Hh].
  pose proof (Z.log2_nonneg m). assert (Hl32 : Z.log2 m < 32) by (apply Z.log2_lt_pow2; lia).
  set (l := Z.log2 m) in *. replace (Z.succ l) with (l + 1) in Hh by lia. rewrite s8_small by lia.
  assert (K : exists z0 z1,
    (if 0 <=? 31 - l - 11 then (u32 (m << (31 - l - 11)), 0) else shift64Right m 0 (- (31 - l - 11)))
    = (z0, z1) /\ words64 (z0, z1) /\ val64 (z0, z1) = m * 2 ^ (52 - l)).
  { destruct (Z.leb_spec 0 (31 - l - 11)) as [Hc|Hc].
    - eexists _, _. split; [reflexivity|]. replace (31 - l - 11) with (20 - l) by lia.
      assert (m * 2 ^ (20 - l) < 2 ^ 21).
      { replace (2 ^ 21) with (2 ^ (l + 1) * 2 ^ (20 - l)) by (rewrite <- Z.pow_add_r by lia; f_equal; lia).
        apply Z.mul_lt_mono_pos_r; [apply pow2_pos|]; lia. }
      assert (0 <= m * 2 ^ (20 - l)) by nonneg.
      rewrite u32_shl_small by lia. split; [split; cbn [fst snd]; unfold is_u; lia|]. unfold val64. cbn [fst snd].
      replace (52 - l) with (20 - l + 32) by lia. rewrite Z.pow_add_r by lia. lia.
    - assert (W0 : is_u 32 m) by (unfold is_u; lia). assert (W1 : is_u 32 0) by (apply zero_word; lia).
      replace (- (31 - l - 11)) with (l - 20) by lia.
      pose proof (shift64Right_div m 0 (l - 20) W0 W1 ltac:(lia)) as V.
      pose proof (shift64Right_words m 0 (l - 20) W0 W1 ltac:(lia)) as W.
      destruct (shift64Right m 0 (l - 20)) as [z0 z1]. eexists _, _. split; [reflexivity|]. split; [exact W|].
      rewrite V, Z.add_0_r. apply div_eq; [apply pow2_pos; lia|]. pose proof (pow2_pos (l - 20) ltac:(lia)).
      replace (2 ^ 32) with (2 ^ (52 - l) * 2 ^ (l - 20)) by (rewrite <- Z.pow_add_r by lia; f_equal; lia). nia. }
  destruct K as (z0 & z1 & -> & [W0 W1] & V). rewrite s16_small by lia.
  assert (HV : 2 ^ 52 <= m * 2 ^ (52 - l) < 2 ^ 53).
  { pose proof (pow2_pos (52 - l) ltac:(lia)).
    replace (2 ^ 53) with (2 ^ (l + 1) * 2 ^ (52 - l)) by (rewrite <- Z.pow_add_r by lia; f_equal; lia).
    replace (2 ^ 52) with (2 ^ l * 2 ^ (52 - l)) at 1 by (rewrite <- Z.pow_add_r by lia; f_equal; lia). nia. }
  unfold val64, is_u in *. cbn [fst snd] in *.
  rewrite packFloat64_eq by (assumption || lia). unfold val64. cbn [fst snd]. rewrite V.
  destruct (encoded_bits s (l + 1022) (m * 2 ^ (52 - l)) Hs ltac:(lia) HV) as (K1 & K2 & K3).
  replace (0x412 - (31 - l - 11)) with (l + 1022) by lia.
  split; [exact K1|]. unfold f64_val. rewrite K2, K3, Es. rewrite <- !Z.mul_assoc. f_equal.
  fold m. rewrite <- Z.pow_add_r by lia. do 2 f_equal. lia.
Qed.

(** C30: Conversions between the formats.  Narrowing a double to single precision rounds correctly
    in the current mode with the IEEE exceptions, for every operand: underflow to zero or to the
    least subnormal, overflow, infinities, and NaNs, whose leading fraction bits survive in a quiet
    NaN.  Widening a single, other than a NaN, is exact and raises nothing, subnormals becoming
    normal, and narrowing the result gives back the same pattern, also without exceptions; every
    32-bit integer converts to the double with exactly its value. *)
Theorem format_conversions_correct st : fp_ok st ->
  (forall a, f64_word a -> float64_to_float32 a st = ref_float64_to_float32 st a) /\
  (forall a, is_u 32 a -> f32_is_nan a = false ->
     exists z, float32_to_float64 a st = Some (z, st) /\ widened a z /\ float64_to_float32 z st = Some (a, st)) /\
  (forall n, is_s 32 n -> ref_from_int n (int32_to_float64 n)).
Proof.
  intros Hst. split; [|split]; intros;
    [now apply float64_to_float32_correct | now apply float32_to_float64_roundtrip | now apply int32_to_float64_exact].
Qed.

(** 1 + 2^-24 is a tie and narrows to even; the least subnormal single is 2^-149, a normal double. *)
Lemma format_conversions_witness :
  float64_to_float32 (of_bits64 0x3FF0000010000000) fp_init = Some (0x3F800000, raised fp_init float_flag_inexact) /\
  (exists z, float32_to_float64 1 fp_init = Some (z, fp_init) /\ widened 1 z /\
     float64_to_float32 z fp_init = Some (1, fp_init)) /\
  ref_from_int (- 2 ^ 31) (int32_to_float64 (- 2 ^ 31)).
Proof.
  destruct (format_conversions_correct fp_init fp_init_ok) as (N & W & I). split; [|split].
  - rewrite N by (split; cbn; unfold is_u; lia). vm_compute. reflexivity.
  - apply W; [unfold is_u; lia | reflexivity].
  - apply I. unfold is_s. lia.
Defined.
