(* ===== verification/HostDouble.v ===== *)
(** * Double-precision arithmetic of the host

    The companion of HostFloat.v for double, with the conversions between the formats. *)

From S2P Require Import Prelude.
From S2P Require Import CInt.
From S2P Require Import FPState.
From S2P Require Import Rounding.
From S2P Require Import SoftFloatPrim.
From S2P Require Import Float32.
From S2P Require Import Float64.
From S2P Require Import Float32Round.
From S2P Require Import Float32Arith.
From S2P Require Import Float32MulDiv.
From S2P Require Import Float32Conv.
From S2P Require Import HostFloat.
From S2P Require Import Float64Round.
From S2P Require Import Float64Arith.
From S2P Require Import Float64Sum.
From S2P Require Import Float64MulDiv.
From S2P Require Import Float64Div.
From S2P Require Import Float64Conv.

Definition double_of_ref (r : option (float64 * fpstate)) : float64 := match r with Some (z, _) => z | None => of_bits64 0 end.
Definition same_double (x y : float64) : Prop := x = y \/ (f64_is_nan x = true /\ f64_is_nan y = true).

Definition double_result (nan : bool) (z : float64) (r : option (float64 * fpstate)) : Prop :=
  f64_word z /\ if nan then f64_is_nan z = true else same_double z (double_of_ref r).

Definition either_nan64 (a b : float64) : bool := f64_is_nan a || f64_is_nan b.

Class HostDouble := {
  dadd : float64 -> float64 -> float64;
  dsub : float64 -> float64 -> float64;
  dmul : float64 -> float64 -> float64;
  ddiv : float64 -> float64 -> float64;
  double_of_float : Z -> float64;
  float_of_double : float64 -> Z;
  dadd_law a b : f64_word a -> f64_word b -> double_result (either_nan64 a b) (dadd a b) (ref_sum64 fp_init a b (f64_sign b));
  dsub_law a b : f64_word a -> f64_word b -> double_result (either_nan64 a b) (dsub a b) (ref_sum64 fp_init a b (1 - f64_sign b));
  dmul_law a b : f64_word a -> f64_word b -> double_result (either_nan64 a b) (dmul a b) (ref_mul64 fp_init a b);
  ddiv_law a b : f64_word a -> f64_word b -> double_result (either_nan64 a b) (ddiv a b) (ref_div64 fp_init a b);
  double_of_float_law a : is_u 32 a -> f64_word (double_of_float a) /\
    if f32_is_nan a then f64_is_nan (double_of_float a) = true else widened a (double_of_float a);
  float_of_double_law a : f64_word a -> float_result (f64_is_nan a) (float_of_double a) (ref_float64_to_float32 fp_init a);
}.

(** ** A host *)

Definition one_nan64 (nan : bool) (r : option (float64 * fpstate)) : float64 := if nan then float64_default_nan else double_of_ref r.

Lemma default_nan_word : f64_word float64_default_nan.
Proof. vm_compute. intuition discriminate. Qed.

Lemma one_nan64_result (nan : bool) r : (nan = false -> f64_word (double_of_ref r)) -> double_result nan (one_nan64 nan r) r.
Proof.
  intros Hr. destruct nan; (split; [|first [reflexivity | now left]]); cbn [one_nan64]; [exact default_nan_word | auto].
Qed.

Lemma double_word s m : is_flag s -> 0 <= m < 2 ^ 63 -> f64_word (of_bits64 (s * 2 ^ 63 + m)).
Proof. intros Hs Hm. apply (proj1 (of_bits64_spec (s * 2 ^ 63 + m) ltac:(destruct Hs as [-> | ->]; lia))). Qed.

Lemma rounded64_word st s A B : is_flag s -> 0 <= A -> 0 < B -> f64_word (double_of_ref (rounded64 st s A B)).
Proof.
  intros Hs HA HB. cbn [rounded64 double_of_ref]. pose proof (ref_bits_in_range 53 2047 (float_rounding_mode st) (truthy s) A B) as R.
  change (inf_bits 53 2047) with (2047 * 2 ^ 52) in R. apply double_word; [assumption | lia].
Qed.

Lemma invalid64_word st : f64_word (double_of_ref (invalid64 st)).
Proof. exact default_nan_word. Qed.

Lemma f64_inf_word s st : is_flag s -> f64_word (double_of_ref (Some (f64_inf s, st))).
Proof. intros Hs. apply double_word; [assumption | lia]. Qed.

Lemma zero_word64 s st : is_flag s -> f64_word (double_of_ref (Some (of_bits64 (s * 2 ^ 63), st))).
Proof. intros Hs. cbn [double_of_ref]. rewrite <- (Z.add_0_r (s * 2 ^ 63)). apply double_word; [assumption | lia]. Qed.

#[export] Hint Resolve invalid64_word f64_inf_word zero_word64 rounded64_word f64_sign_flag f64_mag_nonneg : host.

Lemma ref_sum64_word st a b sb : f64_word a -> f64_word b -> is_flag sb -> either_nan64 a b = false ->
  f64_word (double_of_ref (ref_sum64 st a b sb)).
Proof.
  intros Ha Hb Hs Hn. unfold ref_sum64, either_nan64 in *. rewrite Hn. destruct (f64_is_inf a), (f64_is_inf b); cbn [andb];
    try destruct (negb _); auto with host. unfold sum64. destruct (_ =? 0).
  - destruct (f64_sign a =? sb); [|unfold down_sign]; auto with host.
  - apply rounded64_word; auto with host; lia.
Qed.

Lemma ref_mul64_word st a b : f64_word a -> f64_word b -> either_nan64 a b = false -> f64_word (double_of_ref (ref_mul64 st a b)).
Proof.
  intros Ha Hb Hn. unfold ref_mul64, either_nan64 in *. rewrite Hn.
  destruct (f64_is_inf a); [destruct (_ && _); auto with host|]. destruct (f64_is_inf b); [destruct (_ =? 0); auto with host|].
  apply rounded64_word; auto with host; try lia. apply Z.mul_nonneg_nonneg; auto with host.
Qed.

Lemma ref_div64_word st a b : f64_word a -> f64_word b -> either_nan64 a b = false -> f64_word (double_of_ref (ref_div64 st a b)).
Proof.
  intros Ha Hb Hn. unfold ref_div64, either_nan64 in *. rewrite Hn.
  destruct (f64_is_inf a); [destruct (f64_is_inf b); auto with host|]. destruct (f64_is_inf b); [auto with host|].
  pose proof (f64_mag_nonneg a Ha). pose proof (f64_mag_nonneg b Hb).
  destruct (Z.eqb_spec (f64_mag b) 0); [destruct (_ =? 0); auto with host|]. apply rounded64_word; auto with host; lia.
Qed.

Lemma ref_narrow_word st a : f64_word a -> f64_is_nan a = false -> is_u 32 (bits_of (ref_float64_to_float32 st a)).
Proof.
  intros Ha Hn. unfold ref_float64_to_float32. rewrite Hn. destruct (f64_is_inf a); [auto with host|].
  apply rounded32_word; auto with host; lia.
Qed.

#[export] Instance reference_host_double : HostDouble.
Proof.
  refine {| dadd a b := one_nan64 (either_nan64 a b) (ref_sum64 fp_init a b (f64_sign b));
    dsub a b := one_nan64 (either_nan64 a b) (ref_sum64 fp_init a b (1 - f64_sign b));
    dmul a b := one_nan64 (either_nan64 a b) (ref_mul64 fp_init a b);
    ddiv a b := one_nan64 (either_nan64 a b) (ref_div64 fp_init a b);
    double_of_float a := one_nan64 (f32_is_nan a) (float32_to_float64 a fp_init);
    float_of_double a := one_nan (f64_is_nan a) (ref_float64_to_float32 fp_init a) |}.
  - intros a b Ha Hb. apply one_nan64_result. apply ref_sum64_word; auto with host.
  - intros a b Ha Hb. apply one_nan64_result. apply ref_sum64_word; auto with host.
    destruct (f64_sign_flag b Hb) as [-> | ->]; unfold is_flag; lia.
  - intros a b Ha Hb. apply one_nan64_result. now apply ref_mul64_word.
  - intros a b Ha Hb. apply one_nan64_result. now apply ref_div64_word.
  - intros a Ha. destruct (f32_is_nan a) eqn:Na; [split; [exact default_nan_word | reflexivity]|].
    destruct (float32_to_float64_roundtrip fp_init a fp_init_ok Ha Na) as (z & E & W & _). unfold one_nan64. rewrite E. exact (conj (proj1 W) W).
  - intros a Ha. apply one_nan_result. now apply ref_narrow_word.
Defined.
