(* ===== verification/ValueFloat.v ===== *)
(** * Floating-point operators of simulator values (tools/SimValue.cc)

    The arithmetic and comparison operators of [SimValue] with half, single and double operands.  The
    value is read in the type of the operand, combined with the arithmetic of the host and assigned to
    a copy, which gets the width of the type. *)

From S2P Require Import Prelude.
From S2P Require Import CInt.
From S2P Require Import Cpp.
From S2P Require Import SimValue.
From S2P Require Import SimValueLaws.
From S2P Require Import FPState.
From S2P Require Import Rounding.
From S2P Require Import SoftFloatPrim.
From S2P Require Import Float32.
From S2P Require Import Float64.
From S2P Require Import Float32Arith.
From S2P Require Import HostFloat.
From S2P Require Import HalfFloat.
From S2P Require Import Float64Round.
From S2P Require Import Float64Arith.
From S2P Require Import Float64Sum.
From S2P Require Import HostDouble.
#[local] Open Scope cpp_scope.

(** [==], [<], [<=], [>] and [>=] of the language are false when an operand is a NaN. *)
Definition float_relation (r : Z -> Z -> bool) (a b : Z) : bool := negb (either_nan a b) && r (f32_val a) (f32_val b).
Definition double_relation (r : Z -> Z -> bool) (a b : float64) : bool := negb (either_nan64 a b) && r (f64_val a) (f64_val b).

(** A double read from a value. *)
Definition doubleValue (v : SimValue) : float64 := of_bits64 (doubleWordValue v).

Definition operator_HalfFloatWord (op : Z -> Z -> Z) (memory : list Z) (v : SimValue) (r : Z) : outcome SimValue :=
  assign_HalfFloatWord (op (halfFloatWordValue v) r) (SimValue_copy memory v).
Definition operator_FloatWord (op : Z -> Z -> Z) (memory : list Z) (v : SimValue) (r : Z) : outcome SimValue :=
  assign_FloatWord (op (floatWordValue v) r) (SimValue_copy memory v).
Definition operator_DoubleWord (op : float64 -> float64 -> float64) (memory : list Z) (v : SimValue) (r : float64)
  : outcome SimValue := assign_DoubleWord (bits64 (op (doubleValue v) r)) (SimValue_copy memory v).

Section Operators.
Context `{HostFloat} `{HostDouble}.
Definition plus_HalfFloatWord := operator_HalfFloatWord operator_plus.
Definition plus_FloatWord := operator_FloatWord fadd.
Definition plus_DoubleWord := operator_DoubleWord dadd.
Definition minus_HalfFloatWord := operator_HalfFloatWord operator_minus.
Definition minus_FloatWord := operator_FloatWord fsub.
Definition minus_DoubleWord := operator_DoubleWord dsub.
Definition times_HalfFloatWord := operator_HalfFloatWord operator_times.
Definition times_FloatWord := operator_FloatWord fmul.
Definition times_DoubleWord := operator_DoubleWord dmul.
Definition divided_HalfFloatWord := operator_HalfFloatWord operator_over.
Definition divided_FloatWord := operator_FloatWord fdiv.
Definition divided_DoubleWord := operator_DoubleWord ddiv.
End Operators.

Definition equal_FloatWord (v : SimValue) (r : Z) : bool := float_relation Z.eqb (floatWordValue v) r.
Definition equal_DoubleWord (v : SimValue) (r : float64) : bool := double_relation Z.eqb (doubleValue v) r.

(** ** Reading back what was assigned *)

Lemma setBitWidth_done w v : length (rawData_ v) = 512%nat -> 0 <= w <= SIMD_WORD_WIDTH ->
  exists v', setBitWidth w v = Done v' /\ bitWidth_ v' = w.
Proof. intros Hv Hw. destruct (setBitWidth_eq v w Hv Hw) as (n & _ & _ & E). rewrite E. now eexists. Qed.

Lemma assign_bits_reads k x v : (0 < k <= 8)%nat -> length (rawData_ v) = 512%nat ->
  exists v', outcome_map (assign_bytes k x) (setBitWidth (8 * Z.of_nat k) v) = Done v' /\
    cast k v' = x mod 2 ^ (8 * Z.of_nat k) /\ bitWidth_ v' = 8 * Z.of_nat k.
Proof.
  intros Hk Hv. destruct (setBitWidth_done (8 * Z.of_nat k) v Hv) as (v' & E & W); [unfold SIMD_WORD_WIDTH; lia|].
  exists (assign_bytes k x v'). rewrite E. split; [reflexivity|]. split; [apply cast_assign; lia | exact W].
Qed.

Lemma assign_float_reads x v : length (rawData_ v) = 512%nat -> is_u 32 x ->
  exists v', assign_FloatWord x v = Done v' /\ floatWordValue v' = x /\ bitWidth_ v' = 32.
Proof.
  intros Hv Hx. destruct (assign_bits_reads 4 x v ltac:(lia) Hv) as (v' & E & V & W).
  exists v'. split; [exact E|]. split; [unfold floatWordValue; rewrite V; apply Z.mod_small, Hx | exact W].
Qed.

Lemma bits64_range z : f64_word z -> is_u 64 (bits64 z).
Proof. intros Hz. unfold bits64, val64, f64_word, words64, is_u in *. lia. Qed.

Lemma assign_double_reads z v : length (rawData_ v) = 512%nat -> f64_word z ->
  exists v', assign_DoubleWord (bits64 z) v = Done v' /\ doubleValue v' = z /\ bitWidth_ v' = 64.
Proof.
  intros Hv Hz. destruct (assign_bits_reads 8 (bits64 z) v ltac:(lia) Hv) as (v' & E & V & W).
  exists v'. split; [exact E|]. split; [|exact W]. unfold doubleValue, doubleWordValue. rewrite V.
  rewrite Z.mod_small by (apply bits64_range, Hz). now apply of_bits64_bits.
Qed.

Lemma copy_length memory v : length memory = 512%nat -> value_ok v -> length (rawData_ (SimValue_copy memory v)) = 512%nat.
Proof.
  intros Hm Hv. pose proof (width_range _ Hv) as Hw. unfold SIMD_WORD_WIDTH in Hw.
  unfold SimValue_copy, deepCopy. cbn [rawData_ uninitialised]. rewrite memcpy_length; [exact Hm|].
  rewrite length_firstn, bytes_for_eq by lia. pose proof (Z.div_mod (bitWidth_ v + 7) 8). pose proof (Z.mod_pos_bound (bitWidth_ v + 7) 8). lia.
Qed.

(** The operators answer the host's result in the width of the type, whatever the value was. *)
Lemma float_operators_read memory v (op : Z -> Z -> Z) r : length memory = 512%nat -> value_ok v -> is_u 32 (op (floatWordValue v) r) ->
  exists v', operator_FloatWord op memory v r = Done v' /\ floatWordValue v' = op (floatWordValue v) r /\ bitWidth_ v' = 32.
Proof. intros Hm Hv Hx. apply assign_float_reads; [now apply copy_length | exact Hx]. Qed.

Lemma double_operators_read memory v (op : float64 -> float64 -> float64) r : length memory = 512%nat -> value_ok v ->
  f64_word (op (doubleValue v) r) ->
  exists v', operator_DoubleWord op memory v r = Done v' /\ doubleValue v' = op (doubleValue v) r /\ bitWidth_ v' = 64.
Proof. intros Hm Hv Hx. apply assign_double_reads; [now apply copy_length | exact Hx]. Qed.

Lemma half_operators_read memory v (op : Z -> Z -> Z) r : length memory = 512%nat -> value_ok v -> is_u 16 (op (halfFloatWordValue v) r) ->
  exists v', operator_HalfFloatWord op memory v r = Done v' /\ halfFloatWordValue v' = op (halfFloatWordValue v) r /\ bitWidth_ v' = 16.
Proof.
  intros Hm Hv Hx. destruct (assign_bits_reads 2 (op (halfFloatWordValue v) r) _ ltac:(lia) (copy_length memory v Hm Hv)) as (v' & E & V & W).
  exists v'. split; [exact E|]. split; [|exact W]. unfold halfFloatWordValue in *. rewrite V. apply Z.mod_small, Hx.
Qed.
