(* ===== verification/BaseFloat.v ===== *)
(** * Floating-point operations of the base library (opset/base/base.cc)

    The behaviours of the single- and double-precision operations, which choose the format by the
    widths of their operands, and of the conversions, including those of half precision.  They
    compute with the float and double of the host (HostFloat.v, HostDouble.v).  A value is read from
    its operand as a bit pattern; [abortWithError] ends the process. *)

From S2P Require Import Prelude.
From S2P Require Import CInt.
From S2P Require Import Cpp.
From S2P Require Import SimValue.
From S2P Require Import OSAL.
From S2P Require Import BaseInt.
From S2P Require Import FPState.
From S2P Require Import Float32.
From S2P Require Import Float64.
From S2P Require Import Float32Arith.
From S2P Require Import HostFloat.
From S2P Require Import HalfFloat.
From S2P Require Import Float64Round.
From S2P Require Import Float64Arith.
From S2P Require Import Float64Sum.
From S2P Require Import HostDouble.
From S2P Require Import ValueFloat.
#[local] Open Scope cpp_scope.

Definition FLT_WORD_SIZE : Z := 32.
Definition DBL_WORD_SIZE : Z := 64.

Definition abortWithError {A : Type} : outcome A := Throws AssertionFailed.

Definition DOUBLE (n : nat) (io : operands) : outcome float64 := outcome_map of_bits64 (DBL n io).
Definition as_float (x : Z) : SimValue -> outcome SimValue := assign_FloatWord x.
Definition as_double (x : float64) : SimValue -> outcome SimValue := assign_DoubleWord (bits64 x).
Definition as_half (x : Z) : SimValue -> outcome SimValue := assign_HalfFloatWord x.

(** ** Negation and conversions of the language *)

Definition float_neg (a : Z) : Z := a ^^^ 0x80000000.
Definition double_neg (a : float64) : float64 := of_bits64 (bits64 a ^^^ 0x8000000000000000).

(** The integer part of a float; a conversion to a type that cannot hold it is undefined. *)
Definition float_to_integer (in_range : Z -> bool) (a : Z) : outcome Z :=
  let n := (1 - 2 * f32_sign a) * (f32_mag a / 2 ^ 149) in
  if negb (f32_is_nan a || f32_is_inf a) && in_range n then Done n else Undefined.
Definition float_to_int : Z -> outcome Z := float_to_integer (fun n => (- 2 ^ 31 <=? n) && (n <? 2 ^ 31)).
Definition float_to_uint : Z -> outcome Z := float_to_integer (fun n => (0 <=? n) && (n <? 2 ^ 32)).

Section BaseFloat.
Context `{HostFloat} `{HostDouble}.

(** ** Arithmetic *)

Definition by_format (single double : trigger) : trigger := fun io =>
  w1 <~ BWIDTH 1 io ; w2 <~ BWIDTH 2 io ;
  if (w1 =? FLT_WORD_SIZE) && (w2 =? FLT_WORD_SIZE) then single io
  else if (w1 =? DBL_WORD_SIZE) && (w2 =? DBL_WORD_SIZE) then double io
  else abortWithError.

Definition arithmetic (single : Z -> Z -> Z) (double : float64 -> float64 -> float64) : trigger := by_format
  (fun io => a <~ FLT 1 io ; b <~ FLT 2 io ; IO 3 (as_float (single a b)) io)
  (fun io => a <~ DOUBLE 1 io ; b <~ DOUBLE 2 io ; IO 3 (as_double (double a b)) io).

Definition ADDF : trigger := arithmetic fadd dadd.
Definition SUBF : trigger := arithmetic fsub dsub.
Definition MULF : trigger := arithmetic fmul dmul.
Definition DIVF : trigger := arithmetic fdiv ddiv.

Definition by_format1 (single double : trigger) : trigger := fun io =>
  w <~ BWIDTH 1 io ;
  if w =? FLT_WORD_SIZE then single io else if w =? DBL_WORD_SIZE then double io else abortWithError.

Definition NEGF : trigger := by_format1
  (fun io => a <~ FLT 1 io ; IO 2 (as_float (float_neg a)) io)
  (fun io => a <~ DOUBLE 1 io ; IO 2 (as_double (double_neg a)) io).

Definition ABSF : trigger := by_format1
  (fun io => a <~ FLT 1 io ; IO 2 (as_float (if float_relation Z.ltb a 0 then float_neg a else a)) io)
  (fun io => a <~ DOUBLE 1 io ;
     IO 2 (as_double (if double_relation Z.ltb a (of_bits64 0) then double_neg a else a)) io).

Definition SQRTF : trigger := fun io => a <~ FLT 1 io ; IO 2 (as_float (sqrtf a)) io.

Definition MAXF : trigger := fun io =>
  a <~ FLT 1 io ; b <~ FLT 2 io ;
  if float_relation (fun x y => y <? x) a b then IO 3 (as_float a) io else IO 3 (as_float b) io.
Definition MINF : trigger := fun io =>
  a <~ FLT 1 io ; b <~ FLT 2 io ;
  if float_relation Z.ltb a b then IO 3 (as_float a) io else IO 3 (as_float b) io.

(** ** Comparisons *)

Definition comparison (single : Z -> Z -> bool) (double : float64 -> float64 -> bool) : trigger := by_format
  (fun io => a <~ FLT 1 io ; b <~ FLT 2 io ; IO 3 (as_int (if single a b then 1 else 0)) io)
  (fun io => a <~ DOUBLE 1 io ; b <~ DOUBLE 2 io ; IO 3 (as_int (if double a b then 1 else 0)) io).

(** [!isnan(a) && !isnan(b) && r] and [isnan(a) || isnan(b) || r]. *)
Definition ordered (single : Z -> Z -> bool) (double : float64 -> float64 -> bool) : trigger := comparison
  (fun a b => negb (f32_is_nan a) && negb (f32_is_nan b) && single a b)
  (fun a b => negb (f64_is_nan a) && negb (f64_is_nan b) && double a b).
Definition or_unordered (single : Z -> Z -> bool) (double : float64 -> float64 -> bool) : trigger := comparison
  (fun a b => f32_is_nan a || f32_is_nan b || single a b)
  (fun a b => f64_is_nan a || f64_is_nan b || double a b).

Definition EQF : trigger := ordered (float_relation Z.eqb) (double_relation Z.eqb).
Definition EQUF : trigger := or_unordered (float_relation Z.eqb) (double_relation Z.eqb).
Definition NEF : trigger := ordered (fun a b => negb (float_relation Z.eqb a b)) (fun a b => negb (double_relation Z.eqb a b)).
Definition NEUF : trigger := or_unordered (fun a b => negb (float_relation Z.eqb a b)) (fun a b => negb (double_relation Z.eqb a b)).
Definition GTF : trigger := ordered (float_relation (fun x y => y <? x)) (double_relation (fun x y => y <? x)).
Definition GTUF : trigger := or_unordered (float_relation (fun x y => y <? x)) (double_relation (fun x y => y <? x)).
Definition GEF : trigger := ordered (float_relation (fun x y => y <=? x)) (double_relation (fun x y => y <=? x)).
Definition GEUF : trigger := or_unordered (float_relation (fun x y => y <=? x)) (double_relation (fun x y => y <=? x)).
Definition LTF : trigger := ordered (float_relation Z.ltb) (double_relation Z.ltb).
Definition LTUF : trigger := or_unordered (float_relation Z.ltb) (double_relation Z.ltb).
Definition LEF : trigger := ordered (float_relation Z.leb) (double_relation Z.leb).
Definition LEUF : trigger := or_unordered (float_relation Z.leb) (double_relation Z.leb).
Definition ORDF : trigger := comparison
  (fun a b => negb (f32_is_nan a) && negb (f32_is_nan b)) (fun a b => negb (f64_is_nan a) && negb (f64_is_nan b)).
Definition UORDF : trigger := comparison
  (fun a b => f32_is_nan a || f32_is_nan b) (fun a b => f64_is_nan a || f64_is_nan b).

(** ** Conversions *)

Definition CFI : trigger := fun io => a <~ FLT 1 io ; x <~ float_to_int a ; IO 2 (as_int x) io.
Definition CFIU : trigger := fun io => a <~ FLT 1 io ; x <~ float_to_uint a ; IO 2 (as_uint x) io.
Definition CIF : trigger := fun io => a <~ INT 1 io ; IO 2 (as_float (float_of_int a)) io.
Definition CIFU : trigger := fun io => a <~ UINT 1 io ; IO 2 (as_float (float_of_int a)) io.
Definition CFD : trigger := fun io => a <~ FLT 1 io ; IO 2 (as_double (double_of_float a)) io.
Definition CDF : trigger := fun io => a <~ DOUBLE 1 io ; IO 2 (as_float (float_of_double a)) io.

(** *** Half precision *)

Definition CHF : trigger := fun io => h <~ HFLT 1 io ; IO 2 (as_float (operator_float h)) io.
Definition CFH : trigger := fun io => a <~ FLT 1 io ; IO 2 (as_half (convertFloatToHalfWordRep a)) io.
Definition CHI : trigger := fun io => h <~ HFLT 1 io ; x <~ float_to_int (operator_float h) ; IO 2 (as_int x) io.
Definition CHIU : trigger := fun io => h <~ HFLT 1 io ; x <~ float_to_uint (operator_float h) ; IO 2 (as_uint x) io.
Definition CIH : trigger := fun io => a <~ INT 1 io ; IO 2 (as_half (convertFloatToHalfWordRep (float_of_int a))) io.
Definition CIHU : trigger := fun io => a <~ UINT 1 io ; IO 2 (as_half (convertFloatToHalfWordRep (float_of_int a))) io.

Definition CHS : trigger := fun io =>
  h <~ HFLT 1 io ; tmp <~ float_to_int (operator_float h) ;
  IO 2 (as_int (if tmp <? -32768 then -32768 else if 32767 <? tmp then 32767 else tmp)) io.
Definition CHSU : trigger := fun io =>
  h <~ HFLT 1 io ; tmp <~ float_to_int (operator_float h) ;
  IO 2 (as_int (if tmp <? 0 then 0 else tmp)) io.
Definition CSH : trigger := fun io =>
  a <~ INT 1 io ;
  let a := s32 (if truthy (a &&& 0x8000) then a ||| 0xFFFF0000 else a &&& 0x0000FFFF) in
  IO 2 (as_half (convertFloatToHalfWordRep (float_of_int a))) io.
Definition CSHU : trigger := fun io =>
  a <~ UINT 1 io ; IO 2 (as_half (convertFloatToHalfWordRep (float_of_int (a &&& 0xFFFF)))) io.
End BaseFloat.

Example add_floats : (io <~ ADDF [port 32 0x3F800000; port 32 0x40000000; port 32 0] ; FLT 3 io) = Done 0x40400000.
Proof. vm_compute. reflexivity. Qed.
Example nan_not_greater : (io <~ GTF [port 32 0x7FC00000; port 32 0; port 32 5] ; INT 3 io) = Done 0.
Proof. vm_compute. reflexivity. Qed.
Example mixed_widths : ADDF [port 32 0; port 64 0; port 32 5] = Throws AssertionFailed.
Proof. vm_compute. reflexivity. Qed.
