(* ===== verification/FloatNaN.v ===== *)
(** * NaN results and sign changes

    The routines of float_emulation.c return a NaN when an operand is one; flipping the sign bit of
    a pattern changes neither that nor the magnitude. *)

From S2P Require Import Prelude.
From S2P Require Import CInt.
From S2P Require Import FPState.
From S2P Require Import Rounding.
From S2P Require Import SoftFloatPrim.
From S2P Require Import Float32.
From S2P Require Import Float64.
From S2P Require Import Float32Round.
From S2P Require Import Float32Arith.
From S2P Require Import Float32Compare.
From S2P Require Import Float32Conv.
From S2P Require Import HostFloat.
From S2P Require Import Float64Round.
From S2P Require Import Float64Arith.
From S2P Require Import Float64Sum.
From S2P Require Import Float64Compare.
From S2P Require Import Float64Conv.
From S2P Require Import HostDouble.
#[local] Open Scope Z_scope.

Lemma lor_absorb x m : (x &&& m) ||| m = m.
Proof.
  apply Z.bits_inj'. intros i _. rewrite Z.lor_spec, Z.land_spec. now destruct (Z.testbit x i), (Z.testbit m i).
Qed.

Lemma lor_nonzero x m : m <> 0 -> (x ||| m =? 0) = false.
Proof. intros Hm. apply Z.eqb_neq. intros E. apply Z.lor_eq_0_iff in E. tauto. Qed.

(** ** Propagation in single precision *)

Lemma quiet32 a : extractFloat32Exp a = 0xFF -> f32_is_nan (a ||| 0x00400000) = true.
Proof.
  unfold f32_is_nan, extractFloat32Exp, extractFloat32Frac. intros E.
  rewrite Z.shiftr_lor. change (0x00400000 >> 23) with 0. rewrite Z.lor_0_r, E.
  rewrite Z.land_lor_distr_l. change (0x00400000 &&& 0x007FFFFF) with 0x00400000. rewrite lor_nonzero by lia. reflexivity.
Qed.

Lemma signaling_exp32 a : float32_is_signaling_nan a = true -> extractFloat32Exp a = 0xFF.
Proof.
  unfold float32_is_signaling_nan, extractFloat32Exp. intros [E _]%andb_true_iff. apply Z.eqb_eq in E.
  change 23 with (22 + 1). rewrite <- Z.shiftr_shiftr by lia. change 0xFF with (0x1FF >> 1).
  now rewrite <- Z.shiftr_land, E.
Qed.

Lemma quiet32_cases a : f32_is_nan a || float32_is_signaling_nan a = true -> f32_is_nan (a ||| 0x00400000) = true.
Proof.
  intros [E|E]%orb_true_iff; apply quiet32; [|now apply signaling_exp32].
  unfold f32_is_nan in E. apply andb_true_iff in E as [E _]. now apply Z.eqb_eq.
Qed.

Lemma propagate32_nan st a b : is_u 32 a -> is_u 32 b -> either_nan a b = true ->
  f32_is_nan (bits_of (propagateFloat32NaN a b st)) = true.
Proof.
  intros Ha Hb Hn. unfold either_nan in Hn. pose proof (quiet32_cases a) as Qa. pose proof (quiet32_cases b) as Qb.
  unfold propagateFloat32NaN. rewrite !float32_is_nan_eq by assumption.
  set (larger := if _ <? _ then _ else if _ <? _ then _ else _).
  assert (L : f32_is_nan (a ||| 0x00400000) = true -> f32_is_nan (b ||| 0x00400000) = true -> f32_is_nan larger = true).
  { intros. unfold larger. repeat match goal with |- context [if ?c then _ else _] => destruct c end; assumption. }
  unfold bind, when_, float_raise, ret.
  destruct (float32_is_signaling_nan a), (float32_is_signaling_nan b), (f32_is_nan a), (f32_is_nan b);
    try discriminate; cbn [orb negb bits_of] in *; auto.
Qed.

(** ** Propagation in double precision *)

Lemma quiet64 a : extractFloat64Exp a = 0x7FF -> f64_is_nan (mk_float64 (high a ||| 0x00080000) (low a)) = true.
Proof.
  unfold f64_is_nan, extractFloat64Exp, extractFloat64Frac0, extractFloat64Frac1. cbn [high low]. intros E.
  rewrite Z.shiftr_lor. change (0x00080000 >> 20) with 0. rewrite Z.lor_0_r, E.
  rewrite Z.land_lor_distr_l. change (0x00080000 &&& 0x000FFFFF) with 0x00080000.
  rewrite <- Z.lor_assoc, (Z.lor_comm 0x00080000), Z.lor_assoc. rewrite lor_nonzero by lia. reflexivity.
Qed.

Lemma signaling_exp64 a : float64_is_signaling_nan a = true -> extractFloat64Exp a = 0x7FF.
Proof.
  unfold float64_is_signaling_nan, extractFloat64Exp. intros [E _]%andb_true_iff. apply Z.eqb_eq in E.
  change 20 with (19 + 1). rewrite <- Z.shiftr_shiftr by lia. change 0x7FF with (0xFFF >> 1).
  now rewrite <- Z.shiftr_land, E.
Qed.

Lemma quiet64_cases a : f64_is_nan a || float64_is_signaling_nan a = true ->
  f64_is_nan (mk_float64 (high a ||| 0x00080000) (low a)) = true.
Proof.
  intros [E|E]%orb_true_iff; apply quiet64; [|now apply signaling_exp64].
  unfold f64_is_nan in E. apply andb_true_iff in E as [E _]. now apply Z.eqb_eq.
Qed.

Lemma propagate64_nan st a b : f64_word a -> f64_word b -> either_nan64 a b = true ->
  f64_is_nan (double_of_ref (propagateFloat64NaN a b st)) = true.
Proof.
  intros Ha Hb Hn. unfold either_nan64 in Hn. pose proof (quiet64_cases a) as Qa. pose proof (quiet64_cases b) as Qb.
  unfold propagateFloat64NaN. rewrite !float64_is_nan_eq by assumption.
  set (larger := if lt64 _ _ _ _ then _ else if lt64 _ _ _ _ then _ else _).
  assert (L : f64_is_nan (mk_float64 (high a ||| 0x00080000) (low a)) = true ->
    f64_is_nan (mk_float64 (high b ||| 0x00080000) (low b)) = true -> f64_is_nan larger = true).
  { intros. unfold larger. repeat match goal with |- context [if ?c then _ else _] => destruct c end; assumption. }
  unfold bind, when_, float_raise, ret.
  destruct (float64_is_signaling_nan a), (float64_is_signaling_nan b), (f64_is_nan a), (f64_is_nan b);
    try discriminate; cbn [orb negb double_of_ref] in *; auto.
Qed.

(** ** Conversions between the formats *)

Lemma narrow_nan st a : f64_word a -> f64_is_nan a = true ->
  f32_is_nan (bits_of (ref_float64_to_float32 st a)) = true.
Proof.
  intros Ha Hn. unfold ref_float64_to_float32. rewrite Hn. cbn [bits_of].
  destruct (fields64 a Ha) as (_ & Hs & _ & Hf & _).
  assert (Hq : 0 <= f64_frac a / 2 ^ 29 < 2 ^ 23) by dlia. set (f := f64_frac a / 2 ^ 29) in *.
  assert (V : 0x7FC00000 ||| f = 255 * 2 ^ 23 + (2 ^ 22 ||| f)).
  { change 0x7FC00000 with (255 * 2 ^ 23 + 2 ^ 22).
    rewrite <- (lor_add (255 * 2 ^ 23) (2 ^ 22) 23) by (unfold is_u; lia || (apply Z.mod_mul; lia)).
    rewrite <- Z.lor_assoc. apply (lor_add _ _ 23); [lia| |apply Z.mod_mul; lia].
    unfold is_u. apply lor_bound; lia. }
  assert (Q : 0 <= 2 ^ 22 ||| f < 2 ^ 23) by (apply lor_bound; lia).
  pose proof (lor_nonzero f (2 ^ 22) ltac:(lia)) as Z0. rewrite Z.lor_comm in Z0. apply Z.eqb_neq in Z0.
  rewrite V. set (q := 2 ^ 22 ||| f) in *. unfold f32_is_nan. rewrite exp32_mod, frac32_mod.
  apply andb_true_iff. split; [apply Z.eqb_eq | apply negb_true_iff, Z.eqb_neq]; destruct Hs as [-> | ->]; dlia.
Qed.

Lemma widen_nan st a : f32_is_nan a = true ->
  exists z st', float32_to_float64 a st = Some (z, st') /\ f64_is_nan z = true.
Proof.
  unfold f32_is_nan. intros [E F]%andb_true_iff. unfold float32_to_float64. rewrite E. unfold truthy. rewrite F.
  unfold float32ToCommonNaN, bind, when_, float_raise, ret.
  assert (N : forall c, f64_is_nan (commonNaNToFloat64 c) = true).
  { intros [s h l]. unfold commonNaNToFloat64. cbn [nan_sign nan_high nan_low].
    destruct (shift64Right h l 12) as [zh zl]. unfold f64_is_nan, extractFloat64Exp, extractFloat64Frac0, extractFloat64Frac1.
    cbn [high low]. rewrite !Z.shiftr_lor, !Z.land_lor_distr_l.
    change ((0x7FF80000 >> 20) &&& 0x7FF) with 0x7FF. change (0x7FF80000 &&& 0x000FFFFF) with 0x00080000.
    rewrite !lor_absorb. cbn [Z.eqb Pos.eqb andb]. rewrite Z.lor_assoc, <- Z.lor_assoc, (Z.lor_comm 0x00080000), Z.lor_assoc.
    rewrite lor_nonzero by lia. reflexivity. }
  destruct (float32_is_signaling_nan a); eexists _, _; (split; [reflexivity | apply N]).
Qed.

(** ** The sign bit *)

Lemma flip_top k x : 0 <= k -> is_u (k + 1) x -> x ^^^ 2 ^ k = (1 - x / 2 ^ k) * 2 ^ k + x mod 2 ^ k.
Proof.
  intros Hk Hx. unfold is_u in Hx. rewrite pow2_succ in Hx by lia. pose proof (pow2_pos k Hk) as P.
  assert (N : forall m, 0 <= m < 2 ^ k -> m ^^^ 2 ^ k = 2 ^ k + m).
  { intros m Hm. rewrite (Z.add_comm (2 ^ k)). symmetry. apply Z.add_nocarry_lxor.
    apply Z.bits_inj'. intros n Hn. rewrite Z.land_spec, Z.bits_0, Z.pow2_bits_eqb by lia.
    destruct (Z.eqb_spec k n) as [<-|]; [|apply andb_false_r]. rewrite andb_true_r.
    rewrite <- (Z.mod_small m (2 ^ k)) by lia. apply Z.mod_pow2_bits_high. lia. }
  destruct (Z.lt_ge_cases x (2 ^ k)).
  - rewrite N, Z.div_small, Z.mod_small by lia. lia.
  - replace (x / 2 ^ k) with 1 by (symmetry; apply div_eq; lia).
    replace (x mod 2 ^ k) with (x - 2 ^ k) by (apply (Z.mod_unique _ _ 1); lia).
    replace x with ((x - 2 ^ k) ^^^ 2 ^ k) at 1 by (rewrite N; lia).
    rewrite Z.lxor_assoc, Z.lxor_nilpotent, Z.lxor_0_r. lia.
Qed.
