(* ===== verification/FloatAgrees.v ===== *)
(** * The floating-point emulation against the operations it stands for

    A processor without the floating-point operations gets them from float_emulation.c.  The results
    on numbers are the same patterns, NaN results are NaNs; comparisons differ on NaNs where the
    emulation negates the opposite comparison. *)

From S2P Require Import Prelude.
From S2P Require Import CInt.
From S2P Require Import Cpp.
From S2P Require Import SimValue.
From S2P Require Import SimValueLaws.
From S2P Require Import OSAL.
From S2P Require Import BaseInt.
From S2P Require Import BaseIntSpec.
From S2P Require Import FPState.
From S2P Require Import Rounding.
From S2P Require Import SoftFloatPrim.
From S2P Require Import Float32.
From S2P Require Import Float64.
From S2P Require Import Float32Round.
From S2P Require Import Float32Arith.
From S2P Require Import Float32MulDiv.
From S2P Require Import Float32Sqrt.
From S2P Require Import Emulate.
From S2P Require Import Float32Compare.
From S2P Require Import Float32Conv.
From S2P Require Import HostFloat.
From S2P Require Import Float64Round.
From S2P Require Import Float64Arith.
From S2P Require Import Float64Sum.
From S2P Require Import Float64MulDiv.
From S2P Require Import Float64Div.
From S2P Require Import Float64Compare.
From S2P Require Import Float64Conv.
From S2P Require Import HostDouble.
From S2P Require Import ValueFloat.
From S2P Require Import BaseFloat.
From S2P Require Import FloatNaN.
#[local] Open Scope cpp_scope.
#[local] Open Scope Z_scope.

(** ** Reading and writing floating-point operands *)

Lemma float_word v : value_ok v -> is_u 32 (floatWordValue v).
Proof. intros Hv. exact (cast_range 4 v Hv ltac:(lia)). Qed.

Lemma double_value_word v : value_ok v -> f64_word (doubleValue v).
Proof. intros Hv. exact (proj1 (of_bits64_spec _ (cast_range 8 v Hv ltac:(lia)))). Qed.

Lemma write_float n io out z : operand n io = Done out -> value_ok out -> is_u 32 z ->
  exists out', IO n (as_float z) io = Done (replace_nth (n - 1) out' io) /\ floatWordValue out' = z /\ bitWidth_ out' = 32.
Proof.
  intros Ho Hout Hz. destruct (assign_float_reads z out (raw_length _ Hout) Hz) as (v & E & V & W).
  exists v. unfold IO, as_float. rewrite Ho. cbn [obind]. rewrite E. now split.
Qed.

Lemma write_double n io out z : operand n io = Done out -> value_ok out -> f64_word z ->
  exists out', IO n (as_double z) io = Done (replace_nth (n - 1) out' io) /\ doubleValue out' = z /\ bitWidth_ out' = 64.
Proof.
  intros Ho Hout Hz. destruct (assign_double_reads z out (raw_length _ Hout) Hz) as (v & E & V & W).
  exists v. unfold IO, as_double. rewrite Ho. cbn [obind]. rewrite E. now split.
Qed.

(** ** The operations and their emulation

    With each comparison, whether the emulation answers NaNs with the opposite. *)

Section Lists.
Context `{HostFloat} `{HostDouble}.
Definition float_arithmetic (fuel : nat) : list (trigger * (Z -> Z -> FP Z)) :=
    [(ADDF, __emulate_ADDF_2_1_f32_f32_f32); (SUBF, __emulate_SUBF_2_1_f32_f32_f32);
     (MULF, __emulate_MULF_2_1_f32_f32_f32); (DIVF, __emulate_DIVF_2_1_f32_f32_f32 fuel)].
Definition double_arithmetic_operations (fuel : nat) : list (trigger * (float64 -> float64 -> FP float64)) :=
    [(ADDF, __emulate_ADDD_2_1_f64_f64_f64); (SUBF, __emulate_SUBD_2_1_f64_f64_f64);
     (MULF, __emulate_MULD_2_1_f64_f64_f64); (DIVF, __emulate_DIVD_2_1_f64_f64_f64 fuel)].
Definition float_relations : list (trigger * (Z -> Z -> FP Z) * bool) :=
    [(EQF, __emulate_EQF_2_1_f32_f32_i32, false); (EQUF, __emulate_EQUF_2_1_f32_f32_i32, false);
     (NEF, __emulate_NEF_2_1_f32_f32_i32, true); (NEUF, __emulate_NEUF_2_1_f32_f32_i32, false);
     (GTF, __emulate_GTF_2_1_f32_f32_i32, true); (GTUF, __emulate_GTUF_2_1_f32_f32_i32, false);
     (GEF, __emulate_GEF_2_1_f32_f32_i32, true); (GEUF, __emulate_GEUF_2_1_f32_f32_i32, false);
     (LTF, __emulate_LTF_2_1_f32_f32_i32, false); (LTUF, __emulate_LTUF_2_1_f32_f32_i32, false);
     (LEF, __emulate_LEF_2_1_f32_f32_i32, false); (LEUF, __emulate_LEUF_2_1_f32_f32_i32, false);
     (ORDF, fun a b => ret (__emulate_ORDF_2_1_f32_f32_i32 a b), false); (UORDF, fun a b => ret (__emulate_UORDF_2_1_f32_f32_i32 a b), false)].
Definition double_relations : list (trigger * (float64 -> float64 -> FP Z) * bool) :=
    [(EQF, __emulate_EQD_2_1_f64_f64_i64, false); (EQUF, __emulate_EQUD_2_1_f64_f64_i64, false);
     (NEF, __emulate_NED_2_1_f64_f64_i64, true); (NEUF, __emulate_NEUD_2_1_f64_f64_i64, false);
     (GTF, __emulate_GTD_2_1_f64_f64_i64, true); (GTUF, __emulate_GTUD_2_1_f64_f64_i64, false);
     (GEF, __emulate_GED_2_1_f64_f64_i64, true); (GEUF, __emulate_GEUD_2_1_f64_f64_i64, false);
     (LTF, __emulate_LTD_2_1_f64_f64_i64, false); (LTUF, __emulate_LTUD_2_1_f64_f64_i64, false);
     (LEF, __emulate_LED_2_1_f64_f64_i64, false); (LEUF, __emulate_LEUD_2_1_f64_f64_i64, false);
     (ORDF, fun a b => ret (__emulate_ORDD_2_1_f64_f64_i64 a b), false); (UORDF, fun a b => ret (__emulate_UORDD_2_1_f64_f64_i64 a b), false)].
End Lists.

(** ** What it means to agree *)

Section Agreement.
Context `{HostFloat} `{HostDouble}.
Context (v1 v2 out : SimValue).
Let a := floatWordValue v1.
Let b := floatWordValue v2.
Let da := doubleValue v1.
Let db := doubleValue v2.

(** The operation writes a float, which is the emulated one; or both are NaNs, as they are when
    [nan], that is when an operand is one. *)
Definition writes_float (t : trigger) (io : operands) (n : nat) (nan : bool) (emulated : option (Z * fpstate)) : Prop :=
  exists out' z st, t io = Done (replace_nth n out' io) /\ bitWidth_ out' = 32 /\ emulated = Some (z, st) /\
    if nan then f32_is_nan (floatWordValue out') = true /\ f32_is_nan z = true else same_float (floatWordValue out') z.
Definition writes_double (t : trigger) (io : operands) (n : nat) (nan : bool) (emulated : option (float64 * fpstate)) : Prop :=
  exists out' z st, t io = Done (replace_nth n out' io) /\ bitWidth_ out' = 64 /\ emulated = Some (z, st) /\
    if nan then f64_is_nan (doubleValue out') = true /\ f64_is_nan z = true else same_double (doubleValue out') z.

(** The operation writes a truth value; the emulation may answer NaNs with the opposite. *)
Definition writes_truth (t : trigger) (nan : bool) (emulated : option Z) (differs : bool) : Prop :=
  exists x, t [v1; v2; out] = Done [v1; v2; assign_bytes 4 (b2z x) out] /\
    emulated = Some (b2z (if differs && nan then negb x else x)).

Definition float_arithmetic_agrees '((t, emulated) : trigger * (Z -> Z -> FP Z)) : Prop :=
  writes_float t [v1; v2; out] 2 (either_nan a b) (emulated a b fp_init).
Definition double_arithmetic_agrees '((t, emulated) : trigger * (float64 -> float64 -> FP float64)) : Prop :=
  writes_double t [v1; v2; out] 2 (either_nan64 da db) (emulated da db fp_init).
Definition float_comparison_agrees '((t, emulated, differs) : trigger * (Z -> Z -> FP Z) * bool) : Prop :=
  writes_truth t (either_nan a b) (result (emulated a b fp_init)) differs.
Definition double_comparison_agrees '((t, emulated, differs) : trigger * (float64 -> float64 -> FP Z) * bool) : Prop :=
  writes_truth t (either_nan64 da db) (result (emulated da db fp_init)) differs.

Context (Hv1 : value_ok v1) (Hv2 : value_ok v2) (Hout : value_ok out).

(** The reference result is a value, and a NaN when [nan]. *)
Definition nan_reference (nan : bool) (r : option (Z * fpstate)) : Prop :=
  r <> None /\ (nan = true -> f32_is_nan (bits_of r) = true).
Definition nan_reference64 (nan : bool) (r : option (float64 * fpstate)) : Prop :=
  r <> None /\ (nan = true -> f64_is_nan (double_of_ref r) = true).

Lemma emulated_some (nan : bool) (z : Z) r emulated : float_result nan z r -> emulated = r -> nan_reference nan r ->
  is_u 32 z /\ exists y st, emulated = Some (y, st) /\ if nan then f32_is_nan z = true /\ f32_is_nan y = true else same_float z y.
Proof.
  intros [Hz Hr] -> [Hs Hn]. split; [exact Hz|]. destruct r as [[y st]|]; [|congruence]. exists y, st.
  split; [reflexivity|]. destruct nan; auto.
Qed.

Lemma emulated_some64 (nan : bool) (z : float64) r emulated : double_result nan z r -> emulated = r -> nan_reference64 nan r ->
  f64_word z /\ exists y st, emulated = Some (y, st) /\ if nan then f64_is_nan z = true /\ f64_is_nan y = true else same_double z y.
Proof.
  intros [Hz Hr] -> [Hs Hn]. split; [exact Hz|]. destruct r as [[y st]|]; [|congruence]. exists y, st.
  split; [reflexivity|]. destruct nan; auto.
Qed.

(** The NaN operands go to the routine that propagates them. *)
Lemma propagated32 x y r : is_u 32 x -> is_u 32 y -> r <> None ->
  (either_nan x y = true -> r = propagateFloat32NaN x y fp_init) -> nan_reference (either_nan x y) r.
Proof. intros Hx Hy Hs Hr. split; [exact Hs|]. intros Hn. rewrite Hr by assumption. now apply propagate32_nan. Qed.

Lemma propagated64 x y r : f64_word x -> f64_word y -> r <> None ->
  (either_nan64 x y = true -> r = propagateFloat64NaN x y fp_init) -> nan_reference64 (either_nan64 x y) r.
Proof. intros Hx Hy Hs Hr. split; [exact Hs|]. intros Hn. rewrite Hr by assumption. now apply propagate64_nan. Qed.

(** A reference result is always a value. *)
Ltac is_some := unfold ref_sum32, ref_mul32, ref_div32, ref_sqrt32, ref_sum64, ref_mul64, ref_div64, sum32, sum64, rounded32, rounded64,
  invalid32, invalid64, propagateFloat32NaN, propagateFloat64NaN, when_, float_raise, bind, ret;
  repeat match goal with |- context [if ?c then _ else _] => destruct c end; discriminate.

(** With a NaN operand, it is what the propagation returns. *)
Ltac propagated := first [apply propagated32 | apply propagated64]; [assumption | assumption | is_some |];
  unfold either_nan, either_nan64, ref_sum32, ref_mul32, ref_div32, ref_sum64, ref_mul64, ref_div64; intros ->; reflexivity.

Lemma single_result t single double emulated r : bitWidth_ v1 = 32 -> bitWidth_ v2 = 32 -> t = arithmetic single double ->
  float_result (either_nan a b) (single a b) r -> emulated a b fp_init = r -> nan_reference (either_nan a b) r -> float_arithmetic_agrees (t, emulated).
Proof.
  intros W1 W2 -> Hr He Hs. destruct (emulated_some _ _ _ _ Hr He Hs) as (Hz & y & st & Ey & Hy).
  destruct (write_float 3 [v1; v2; out] out (single a b) eq_refl Hout Hz) as (out' & E & Ez & W). rewrite <- Ez in Hy.
  exists out', y, st. split; [|exact (conj W (conj Ey Hy))]. unfold arithmetic, by_format, BWIDTH, FLT. cbn [operand nth_error Nat.sub obind]. unfold width.
  rewrite W1, W2. exact E.
Qed.

Lemma double_result_agrees t single double emulated r : bitWidth_ v1 = 64 -> bitWidth_ v2 = 64 -> t = arithmetic single double ->
  double_result (either_nan64 da db) (double da db) r -> emulated da db fp_init = r -> nan_reference64 (either_nan64 da db) r -> double_arithmetic_agrees (t, emulated).
Proof.
  intros W1 W2 -> Hr He Hs. destruct (emulated_some64 _ _ _ _ Hr He Hs) as (Hz & y & st & Ey & Hy).
  destruct (write_double 3 [v1; v2; out] out (double da db) eq_refl Hout Hz) as (out' & E & Ez & W). rewrite <- Ez in Hy.
  exists out', y, st. split; [|exact (conj W (conj Ey Hy))]. unfold arithmetic, by_format, BWIDTH, DOUBLE, DBL. cbn [operand nth_error Nat.sub obind outcome_map]. unfold width.
  rewrite W1, W2. exact E.
Qed.

Lemma single_arithmetic fuel : (4 < fuel)%nat -> bitWidth_ v1 = 32 -> bitWidth_ v2 = 32 ->
  Forall float_arithmetic_agrees (float_arithmetic fuel).
Proof.
  intros Hf W1 W2. pose proof (float_word v1 Hv1) as Ha. pose proof (float_word v2 Hv2) as Hb. fold a in Ha. fold b in Hb.
  repeat constructor.
  - eapply single_result; [exact W1 | exact W2 | reflexivity | now apply fadd_law | now apply float32_add_correct | propagated].
  - eapply single_result; [exact W1 | exact W2 | reflexivity | now apply fsub_law | now apply float32_sub_correct | propagated].
  - eapply single_result; [exact W1 | exact W2 | reflexivity | now apply fmul_law | now apply float32_mul_correct | propagated].
  - eapply single_result; [exact W1 | exact W2 | reflexivity | now apply fdiv_law | apply float32_div_correct; assumption || exact fp_init_ok || lia | propagated].
Qed.

Lemma double_arithmetic fuel : (4 < fuel)%nat -> bitWidth_ v1 = 64 -> bitWidth_ v2 = 64 ->
  Forall double_arithmetic_agrees (double_arithmetic_operations fuel).
Proof.
  intros Hf W1 W2. pose proof (double_value_word v1 Hv1) as Ha. pose proof (double_value_word v2 Hv2) as Hb. fold da in Ha. fold db in Hb.
  repeat constructor.
  - eapply double_result_agrees; [exact W1 | exact W2 | reflexivity | now apply dadd_law | now apply float64_add_correct | propagated].
  - eapply double_result_agrees; [exact W1 | exact W2 | reflexivity | now apply dsub_law | now apply float64_sub_correct | propagated].
  - eapply double_result_agrees; [exact W1 | exact W2 | reflexivity | now apply dmul_law | now apply float64_mul_correct | propagated].
  - eapply double_result_agrees; [exact W1 | exact W2 | reflexivity | now apply ddiv_law | apply float64_div_correct; assumption || exact fp_init_ok || lia | propagated].
Qed.

(** ** Comparisons *)

Lemma comparison_single single double : bitWidth_ v1 = 32 -> bitWidth_ v2 = 32 ->
  comparison single double [v1; v2; out] = Done [v1; v2; assign_bytes 4 (b2z (single a b)) out].
Proof.
  intros W1 W2. unfold comparison, by_format, BWIDTH, FLT. cbn [operand nth_error Nat.sub obind]. unfold width. rewrite W1, W2. reflexivity.
Qed.

Lemma comparison_double single double : bitWidth_ v1 = 64 -> bitWidth_ v2 = 64 ->
  comparison single double [v1; v2; out] = Done [v1; v2; assign_bytes 4 (b2z (double da db)) out].
Proof.
  intros W1 W2. unfold comparison, by_format, BWIDTH, DOUBLE, DBL. cbn [operand nth_error Nat.sub obind outcome_map]. unfold width.
  rewrite W1, W2. reflexivity.
Qed.

(** The truth value that an operation writes, in terms of the order of the numbers. *)
Lemma writes_single t single double (nan r : bool) emulated differs : bitWidth_ v1 = 32 -> bitWidth_ v2 = 32 -> t = comparison single double ->
  single a b = r -> emulated = Some (b2z (if differs && nan then negb r else r)) -> writes_truth t nan emulated differs.
Proof. intros W1 W2 -> Hr He. exists r. rewrite comparison_single, Hr by assumption. split; [reflexivity | exact He]. Qed.

Lemma writes_double_truth t single double (nan r : bool) emulated differs : bitWidth_ v1 = 64 -> bitWidth_ v2 = 64 -> t = comparison single double ->
  double da db = r -> emulated = Some (b2z (if differs && nan then negb r else r)) -> writes_truth t nan emulated differs.
Proof. intros W1 W2 -> Hr He. exists r. rewrite comparison_double, Hr by assumption. split; [reflexivity | exact He]. Qed.

(** The behaviour's truth value on both sides, by cases on the NaNs. *)
Ltac truth_table E := first [rewrite E | unfold result, ret; cbn [option_map fst]; rewrite E]; unfold float_relation, double_relation, either_nan, either_nan64, f64_unordered; cbn [andb];
  repeat match goal with |- context [?f_is_nan ?x] => match f_is_nan with f32_is_nan => idtac | f64_is_nan => idtac end; destruct (f_is_nan x) end;
  cbn [andb orb negb]; rewrite ?negb_involutive; reflexivity.

Ltac single_truth E W1 W2 := eapply writes_single; [exact W1 | exact W2 | reflexivity | reflexivity | truth_table E].
Ltac double_truth E W1 W2 := eapply writes_double_truth; [exact W1 | exact W2 | reflexivity | reflexivity | truth_table E].

Lemma single_comparisons : bitWidth_ v1 = 32 -> bitWidth_ v2 = 32 ->
  Forall float_comparison_agrees float_relations.
Proof.
  intros W1 W2. pose proof (float_word v1 Hv1) as Ha. pose proof (float_word v2 Hv2) as Hb. fold a in Ha. fold b in Hb.
  destruct (emulated_comparisons_result fp_init a b fp_init_ok Ha Hb)
    as (EQ & LE & LT & NE & GE & GT & EQU & LEU & LTU & NEU & GEU & GTU & ORD & UORD). cbn zeta in *.
  repeat apply Forall_cons; try apply Forall_nil; cbn beta iota delta [float_comparison_agrees].
  - single_truth EQ W1 W2.
  - single_truth EQU W1 W2.
  - single_truth NE W1 W2.
  - single_truth NEU W1 W2.
  - single_truth GT W1 W2.
  - single_truth GTU W1 W2.
  - single_truth GE W1 W2.
  - single_truth GEU W1 W2.
  - single_truth LT W1 W2.
  - single_truth LTU W1 W2.
  - single_truth LE W1 W2.
  - single_truth LEU W1 W2.
  - single_truth ORD W1 W2.
  - single_truth UORD W1 W2.
Qed.

Lemma double_comparisons : bitWidth_ v1 = 64 -> bitWidth_ v2 = 64 ->
  Forall double_comparison_agrees double_relations.
Proof.
  intros W1 W2. pose proof (double_value_word v1 Hv1) as Ha. pose proof (double_value_word v2 Hv2) as Hb. fold da in Ha. fold db in Hb.
  destruct (emulated_double_comparisons_result fp_init da db fp_init_ok Ha Hb)
    as (EQ & LE & LT & NE & GE & GT & EQU & LEU & LTU & NEU & GEU & GTU & ORD & UORD). cbn zeta in *.
  repeat apply Forall_cons; try apply Forall_nil; cbn beta iota delta [double_comparison_agrees].
  - double_truth EQ W1 W2.
  - double_truth EQU W1 W2.
  - double_truth NE W1 W2.
  - double_truth NEU W1 W2.
  - double_truth GT W1 W2.
  - double_truth GTU W1 W2.
  - double_truth GE W1 W2.
  - double_truth GEU W1 W2.
  - double_truth LT W1 W2.
  - double_truth LTU W1 W2.
  - double_truth LE W1 W2.
  - double_truth LEU W1 W2.
  - double_truth ORD W1 W2.
  - double_truth UORD W1 W2.
Qed.

(** ** Operations of one operand *)

Let io1 : operands := [v1; out].

Lemma writes_one t (nan : bool) z r emulated : t io1 = IO 2 (as_float z) io1 -> float_result nan z r -> emulated = r -> nan_reference nan r ->
  writes_float t io1 1 nan emulated.
Proof.
  intros Ht Hr He Hs. destruct (emulated_some _ _ _ _ Hr He Hs) as (Hz & y & st & Ey & Hy).
  destruct (write_float 2 io1 out z eq_refl Hout Hz) as (out' & E & Ez & W). rewrite <- Ez in Hy. unfold writes_float.
  exists out', y, st. rewrite Ht. exact (conj E (conj W (conj Ey Hy))).
Qed.

Lemma float_of_int_result x : float_result false (float_of_int x) (ref_from_int32 fp_init x).
Proof. split; [|now left]. apply rounded32_word; [apply flag_b2z | lia | lia]. Qed.

Lemma square_root_agrees fuel : (4 < fuel)%nat ->
  writes_float SQRTF io1 1 (f32_is_nan a) (__emulate_SQRTF_1_1_f32_f32 fuel a fp_init).
Proof.
  intros Hf. pose proof (float_word v1 Hv1) as Ha. fold a in Ha.
  eapply writes_one; [reflexivity | now apply sqrtf_law | apply float32_sqrt_correct; assumption || exact fp_init_ok|].
  split; [is_some|]. intros Hn. fold a. unfold ref_sqrt32. rewrite Hn.
  apply propagate32_nan; [exact Ha | unfold is_u; lia | unfold either_nan; now rewrite Hn].
Qed.

Lemma int_to_float_agrees x : holds 32 v1 x ->
  writes_float CIF io1 1 false (__emulate_CIF_1_1_i32_f32 (s32 x) fp_init) /\
  (u32 x < 2 ^ 31 \/ u32 x mod 2 = 0 -> writes_float CIFU io1 1 false (__emulate_CIFU_1_1_i32_f32 (u32 x) fp_init)).
Proof.
  intros Hx. split; [|intros Hu]; eapply writes_one.
  - unfold CIF. rewrite (INT_1 v1 v2 out x Hx : INT 1 io1 = _). reflexivity.
  - apply float_of_int_result.
  - apply int32_to_float32_correct; [exact fp_init_ok | apply (sw_range 32); lia].
  - split; [is_some | discriminate].
  - unfold CIFU. rewrite (UINT_1 v1 v2 out x Hx : UINT 1 io1 = _). reflexivity.
  - apply float_of_int_result.
  - etransitivity; [apply uint32_to_float32_value; [exact fp_init_ok | apply u32_word]|]. f_equal.
    destruct (Z.leb_spec (2 ^ 31) (u32 x)); [|reflexivity]. destruct Hu; lia.
  - split; [is_some | discriminate].
Qed.

(** A conversion out of the range of the type is undefined, where the emulation returns a number. *)
Lemma float_to_int_agrees : exists n st, __emulate_CFI_1_1_f32_i32 a fp_init = Some (n, st) /\
  (CFI io1 = Done [v1; assign_bytes 4 n out] \/ (CFI io1 = Undefined /\ n = - 2 ^ 31)).
Proof.
  pose proof (float_word v1 Hv1) as Ha. fold a in Ha. unfold __emulate_CFI_1_1_f32_i32.
  rewrite (proj2 (float32_to_integers fp_init a fp_init_ok Ha)). unfold ref_trunc32, CFI, FLT. cbn [operand nth_error Nat.sub obind io1].
  fold a. unfold float_to_int, float_to_integer. set (n := (1 - 2 * f32_sign a) * (f32_mag a / 2 ^ 149)).
  assert (En : f32_is_nan a || f32_is_inf a = (extractFloat32Exp a =? 0xFF)).
  { unfold f32_is_nan, f32_is_inf. now destruct (_ =? 0xFF), (extractFloat32Frac a =? 0). }
  rewrite En. destruct (extractFloat32Exp a =? 0xFF), ((- 2 ^ 31 <=? n) && (n <? 2 ^ 31)); cbn [negb andb orb];
    eexists _, _; (split; [reflexivity|]); [right; now split.. | left; reflexivity | right; now split].
Qed.

Lemma float_to_uint_agrees : exists n st, __emulate_CFIU_1_1_f32_i32 a fp_init = Some (n, st) /\
  (CFIU io1 = Done [v1; assign_bytes 4 n out] \/ CFIU io1 = Undefined).
Proof.
  pose proof (float_word v1 Hv1) as Ha. fold a in Ha. rewrite (emulated_cfiu_value fp_init a fp_init_ok Ha).
  unfold cfiu_result, CFIU, FLT. cbn [operand nth_error Nat.sub obind io1]. fold a. unfold float_to_uint, float_to_integer.
  set (n := (1 - 2 * f32_sign a) * (f32_mag a / 2 ^ 149)).
  destruct (negb (f32_is_nan a || f32_is_inf a)) eqn:Ef; cbn [andb].
  2: { destruct (0x9E <? extractFloat32Exp a); eexists _, _; (split; [reflexivity | now right]). }
  destruct ((0 <=? n) && (n <? 2 ^ 32)) eqn:En; cbn [obind].
  2: { destruct (0x9E <? extractFloat32Exp a); eexists _, _; (split; [reflexivity | now right]). }
  apply andb_true_iff in En as [N0 N1]. apply Z.leb_le in N0. apply Z.ltb_lt in N1.
  destruct (Z.ltb_spec 0x9E (extractFloat32Exp a)) as [He|He].
  - exfalso. destruct (fields32 a Ha) as (_ & _ & Re & Rf). pose proof (f32_sign_flag a Ha) as Hs. unfold n in N0, N1.
    rewrite f32_mag_fields in N0, N1 by assumption. rewrite (proj2 (Z.eqb_neq (extractFloat32Exp a) 0)) in N0, N1 by lia.
    pose proof (pow2_le 158 (extractFloat32Exp a - 1) ltac:(lia) ltac:(lia)).
    assert (2 ^ 32 <= (extractFloat32Frac a + 2 ^ 23) * 2 ^ (extractFloat32Exp a - 1) / 2 ^ 149) by (apply Z.div_le_lower_bound; [lia | nia]).
    destruct Hs as [E|E]; rewrite E in N0, N1; lia.
  - eexists _, _. split; [reflexivity|]. left. rewrite (u32_small n) by lia. reflexivity.
Qed.

Lemma narrowing_agrees : writes_float CDF io1 1 (f64_is_nan da) (__truncdfsf2 da fp_init).
Proof.
  pose proof (double_value_word v1 Hv1) as Ha. fold da in Ha.
  eapply writes_one; [reflexivity | now apply float_of_double_law | |
    split; [unfold ref_float64_to_float32; is_some | now apply narrow_nan]].
  unfold __truncdfsf2. now apply float64_to_float32_correct.
Qed.

Lemma widened_unique x z z' : widened x z -> widened x z' -> z = z'.
Proof.
  intros (Hz & Sz & Vz) (Hz' & Sz' & Vz'). destruct (f32_is_inf x); [congruence|]. destruct Vz as [_ Mz], Vz' as [_ Mz'].
  destruct (sign_mag64 z Hz) as (Ez & _), (sign_mag64 z' Hz') as (Ez' & _).
  pose proof (Z.mod_pos_bound (bits64 z) (2 ^ 63) ltac:(lia)). pose proof (Z.mod_pos_bound (bits64 z') (2 ^ 63) ltac:(lia)).
  pose proof (mag_val_compare 53 ltac:(lia) (bits64 z mod 2 ^ 63) (bits64 z' mod 2 ^ 63) ltac:(lia) ltac:(lia)) as C.
  unfold f64_mag in *. rewrite Mz, Mz', Z.compare_refl in C. symmetry in C. apply Z.compare_eq in C.
  rewrite <- (of_bits64_bits z Hz), <- (of_bits64_bits z' Hz'). congruence.
Qed.

Lemma widening_agrees : writes_double CFD io1 1 (f32_is_nan a) (__emulate_CFD_1_1_f32_f64 a fp_init).
Proof.
  pose proof (float_word v1 Hv1) as Ha. fold a in Ha. pose proof (double_of_float_law a Ha) as [Hz W].
  destruct (write_double 2 io1 out (double_of_float a) eq_refl Hout Hz) as (out' & Eo & Ez & Wo).
  destruct (f32_is_nan a) eqn:Na.
  - destruct (widen_nan fp_init a Na) as (z & st & E & Nz). exists out', z, st.
    do 3 (split; [assumption|]). rewrite Ez. now split.
  - destruct (float32_to_float64_roundtrip fp_init a fp_init_ok Ha Na) as (z & E & W' & _).
    exists out', z, fp_init. do 3 (split; [assumption|]). left. rewrite Ez. exact (widened_unique a _ _ W W').
Qed.

(** ** Negation *)

Lemma float_neg_eq x : is_u 32 x -> float_neg x = (1 - f32_sign x) * 2 ^ 31 + x mod 2 ^ 31.
Proof. intros Hx. exact (flip_top 31 x ltac:(lia) Hx). Qed.

Lemma neg_word x : is_u 32 x -> is_u 32 (float_neg x) /\ f32_is_nan (float_neg x) = f32_is_nan x.
Proof.
  intros Hx. rewrite float_neg_eq by assumption. pose proof (f32_sign_flag x Hx) as Hs. unfold is_u, f32_sign, is_flag in *.
  split; [dlia|]. unfold f32_is_nan. rewrite !exp32_mod, !frac32_mod.
  assert (E1 : ((1 - x / 2 ^ 31) * 2 ^ 31 + x mod 2 ^ 31) / 2 ^ 23 mod 2 ^ 8 = x / 2 ^ 23 mod 2 ^ 8) by dlia.
  assert (E2 : ((1 - x / 2 ^ 31) * 2 ^ 31 + x mod 2 ^ 31) mod 2 ^ 23 = x mod 2 ^ 23) by dlia. now rewrite E1, E2.
Qed.

Lemma sign_bits64 x : f64_word x -> f64_sign x = bits64 x / 2 ^ 63.
Proof.
  intros Hx. destruct (sign_mag64 x Hx) as (E & _). symmetry. apply div_eq; [lia|].
  pose proof (Z.mod_pos_bound (bits64 x) (2 ^ 63) ltac:(lia)). lia.
Qed.

Lemma double_neg_eq x : f64_word x -> double_neg x = of_bits64 ((1 - f64_sign x) * 2 ^ 63 + bits64 x mod 2 ^ 63).
Proof.
  intros Hx. rewrite sign_bits64 by assumption. unfold double_neg. f_equal.
  exact (flip_top 63 (bits64 x) ltac:(lia) (bits64_range x Hx)).
Qed.

Lemma nan_of_magnitude s m : is_flag s -> 0 <= m < 2 ^ 63 -> f64_is_nan (of_bits64 (s * 2 ^ 63 + m)) = f64_is_nan (of_bits64 m).
Proof.
  intros Hs Hm. unfold f64_is_nan. rewrite !exp64_mod, !frac64_mod. unfold extractFloat64Frac1, of_bits64. cbn [high low].
  replace ((s * 2 ^ 63 + m) / 2 ^ 32 / 2 ^ 20 mod 2 ^ 11) with (m / 2 ^ 32 / 2 ^ 20 mod 2 ^ 11) by (destruct Hs as [-> | ->]; dlia).
  replace ((s * 2 ^ 63 + m) / 2 ^ 32 mod 2 ^ 20) with (m / 2 ^ 32 mod 2 ^ 20) by (destruct Hs as [-> | ->]; dlia).
  replace ((s * 2 ^ 63 + m) mod 2 ^ 32) with (m mod 2 ^ 32) by (destruct Hs as [-> | ->]; dlia). reflexivity.
Qed.

Lemma neg_word64 x : f64_word x -> f64_word (double_neg x) /\ f64_is_nan (double_neg x) = f64_is_nan x.
Proof.
  intros Hx. rewrite double_neg_eq by assumption. destruct (sign_mag64 x Hx) as (E & Hs & _).
  pose proof (Z.mod_pos_bound (bits64 x) (2 ^ 63) ltac:(lia)).
  assert (Hs' : is_flag (1 - f64_sign x)) by (destruct Hs as [-> | ->]; unfold is_flag; lia).
  split; [apply double_word; assumption|]. rewrite nan_of_magnitude by assumption.
  rewrite <- (of_bits64_bits x Hx) at 2. rewrite E at 2. now rewrite nan_of_magnitude.
Qed.

(** Zero less a nonzero number, whose magnitude is [m] and whose sign is [s]: the sum of the reference. *)
Lemma zero_minus s m : is_flag s -> 0 <= m -> s = 1 \/ m <> 0 ->
  let d := (1 - 2 * 0) * 0 + (1 - 2 * (1 - s)) * m in
  Z.abs d = m /\ (m <> 0 -> (d =? 0) = false /\ b2z (d <? 0) = 1 - s) /\ (m = 0 -> (d =? 0) = true).
Proof.
  intros Hs Hm Hz d. unfold d. destruct Hs as [-> | ->]; (split; [lia|]; split; intros; [|apply Z.eqb_eq; lia]);
    (split; [apply Z.eqb_neq; lia|]).
  - destruct (Z.ltb_spec ((1 - 2 * 0) * 0 + (1 - 2 * (1 - 0)) * m) 0); cbn [b2z]; lia.
  - destruct (Z.ltb_spec ((1 - 2 * 0) * 0 + (1 - 2 * (1 - 1)) * m) 0); cbn [b2z]; lia.
Qed.

Lemma zero_minus32 x : is_u 32 x -> x <> 0 -> f32_is_nan x = false ->
  ref_sum32 fp_init 0 x (1 - f32_sign x) = Some (float_neg x, fp_init).
Proof.
  intros Hx X0 Nx. unfold ref_sum32. rewrite Nx. change (f32_is_nan 0) with false. change (f32_is_inf 0) with false.
  change (f32_mag 0) with 0. change (f32_sign 0) with 0. cbn [orb]. pose proof (f32_sign_flag x Hx) as Hs.
  rewrite float_neg_eq by assumption. destruct (sign_mag32 x Hx) as (Ex & _ & _ & Mz & M0).
  change (mag_val32 (x mod 2 ^ 31)) with (f32_mag x) in *. set (s := f32_sign x) in *.
  destruct (special_cases32 x Hx) as [(N & _)|[(_ & I & _ & _ & Ei)|(_ & I & He)]]; [congruence | |]; rewrite I.
  { do 2 f_equal. rewrite Ei. fold s. unfold f32_inf. destruct Hs as [-> | ->]; reflexivity. }
  assert (Hfin : 0 <= x mod 2 ^ 31 < 255 * 2 ^ 23) by (rewrite exp32_mod in He; unfold is_u in Hx; dlia).
  destruct (zero_minus s (f32_mag x) Hs M0) as (Ea & En & Ez).
  { destruct Hs as [E|E]; [right; rewrite E in Ex; intros M; apply Mz in M; lia | now left]. }
  unfold sum32. rewrite Ea. destruct (Z.eq_dec (f32_mag x) 0) as [M|M].
  - rewrite Ez by assumption. apply Mz in M. rewrite M in *.
    assert (E1 : s = 1) by (destruct Hs as [E|E]; [rewrite E in Ex; lia | exact E]). rewrite E1. reflexivity.
  - destruct (En M) as [-> ->]. now apply rounded32_exact.
Qed.

Lemma zero_minus64 x : f64_word x -> bits64 x <> 0 -> f64_is_nan x = false ->
  ref_sum64 fp_init (mk_float64 0 0) x (1 - f64_sign x) = Some (double_neg x, fp_init).
Proof.
  intros Hx X0 Nx. unfold ref_sum64. rewrite Nx. change (f64_is_nan (mk_float64 0 0)) with false.
  change (f64_is_inf (mk_float64 0 0)) with false. change (f64_mag (mk_float64 0 0)) with 0.
  change (f64_sign (mk_float64 0 0)) with 0. cbn [orb].
  rewrite double_neg_eq by assumption. destruct (sign_mag64 x Hx) as (Ex & Hs & _ & Mz & M0).
  change (mag_val64 (bits64 x mod 2 ^ 63)) with (f64_mag x) in *. set (s := f64_sign x) in *.
  pose proof (Z.mod_pos_bound (bits64 x) (2 ^ 63) ltac:(lia)) as Hm.
  destruct (special_cases64 x Hx) as [(N & _)|[(_ & I & _ & _ & Ei)|(_ & I & He)]]; [congruence | |]; rewrite I.
  { do 2 f_equal. replace (bits64 x mod 2 ^ 63) with (0x7FF * 2 ^ 52); [reflexivity|]. rewrite Ei. fold s.
    destruct Hs as [E|E]; rewrite E; reflexivity. }
  assert (Hfin : 0 <= bits64 x mod 2 ^ 63 < 2047 * 2 ^ 52).
  { destruct (fields64 x Hx) as (E & _ & _ & Hf & _). fold s in E. lia. }
  destruct (zero_minus s (f64_mag x) Hs M0) as (Ea & En & Ez).
  { destruct Hs as [E|E]; [right; rewrite E in Ex; intros M; apply Mz in M; lia | now left]. }
  unfold sum64. rewrite Ea. destruct (Z.eq_dec (f64_mag x) 0) as [M|M].
  - rewrite Ez by assumption. apply Mz in M. rewrite M in *.
    assert (E1 : s = 1) by (destruct Hs as [E|E]; [rewrite E in Ex; lia | exact E]). rewrite E1. reflexivity.
  - destruct (En M) as [-> ->]. now apply rounded64_exact.
Qed.

(** The emulation subtracts from zero, so that it makes +0 of +0. *)
Lemma negation_agrees : bitWidth_ v1 = 32 ->
  if a =? 0 then (exists out', NEGF io1 = Done [v1; out'] /\ floatWordValue out' = 0x80000000) /\
    result (__emulate_NEGF_1_1_f32_f32 a fp_init) = Some 0
  else writes_float NEGF io1 1 (f32_is_nan a) (__emulate_NEGF_1_1_f32_f32 a fp_init).
Proof.
  intros W1. pose proof (float_word v1 Hv1) as Ha. fold a in Ha. destruct (neg_word a Ha) as [Hn Nn].
  assert (EN : NEGF io1 = IO 2 (as_float (float_neg a)) io1).
  { unfold NEGF, by_format1, BWIDTH. cbn [operand nth_error Nat.sub obind io1]. unfold width. rewrite W1. reflexivity. }
  destruct (Z.eqb_spec a 0) as [E0|E0].
  { destruct (write_float 2 io1 out (float_neg a) eq_refl Hout Hn) as (out' & E & Ez & _).
    split; [exists out'; split; [rewrite EN; exact E | now rewrite Ez, E0] | rewrite E0; reflexivity]. }
  apply (writes_one _ _ (float_neg a) (ref_sum32 fp_init 0 a (1 - f32_sign a))); [exact EN | | |].
  - split; [exact Hn|]. destruct (f32_is_nan a) eqn:Na; [exact Nn | left; now rewrite zero_minus32].
  - apply float32_sub_correct; exact fp_init_ok || assumption || (unfold is_u; lia).
  - split; [is_some|]. intros Na. unfold ref_sum32. rewrite Na, orb_true_r.
    apply propagate32_nan; [unfold is_u; lia | exact Ha | unfold either_nan; now rewrite Na, orb_true_r].
Qed.

Lemma negation_agrees64 : bitWidth_ v1 = 64 ->
  if bits64 da =? 0 then (exists out', NEGF io1 = Done [v1; out'] /\ doubleValue out' = of_bits64 (2 ^ 63)) /\
    result (__emulate_NEGD_1_1_f64_f64 da fp_init) = Some (of_bits64 0)
  else writes_double NEGF io1 1 (f64_is_nan da) (__emulate_NEGD_1_1_f64_f64 da fp_init).
Proof.
  intros W1. pose proof (double_value_word v1 Hv1) as Ha. fold da in Ha. destruct (neg_word64 da Ha) as [Hn Nn].
  assert (EN : NEGF io1 = IO 2 (as_double (double_neg da)) io1).
  { unfold NEGF, by_format1, BWIDTH, DOUBLE, DBL. cbn [operand nth_error Nat.sub obind outcome_map io1]. unfold width. rewrite W1. reflexivity. }
  destruct (write_double 2 io1 out (double_neg da) eq_refl Hout Hn) as (out' & E & Ez & Wo).
  destruct (Z.eqb_spec (bits64 da) 0) as [E0|E0].
  { split; [exists out'; split; [rewrite EN; exact E | rewrite Ez; unfold double_neg; now rewrite E0]|].
    rewrite <- (of_bits64_bits da Ha), E0. reflexivity. }
  assert (R : double_result (f64_is_nan da) (double_neg da) (ref_sum64 fp_init (mk_float64 0 0) da (1 - f64_sign da))).
  { split; [exact Hn|]. destruct (f64_is_nan da) eqn:Na; [exact Nn | left; now rewrite zero_minus64]. }
  assert (Hz : f64_word (mk_float64 0 0)) by (vm_compute; intuition discriminate).
  destruct (emulated_some64 _ _ _ (__emulate_NEGD_1_1_f64_f64 da fp_init) R) as (_ & y & st & Ey & Hy).
  - apply float64_sub_correct; exact fp_init_ok || assumption.
  - split; [is_some|]. intros Na. unfold ref_sum64. rewrite Na, orb_true_r.
    apply propagate64_nan; [exact Hz | exact Ha | unfold either_nan64; now rewrite Na, orb_true_r].
  - exists out', y, st. rewrite EN, Ez. exact (conj E (conj Wo (conj Ey Hy))).
Qed.

Lemma negation_aborts : bitWidth_ v1 <> 32 -> bitWidth_ v1 <> 64 -> NEGF io1 = Throws AssertionFailed.
Proof.
  intros N32 N64. unfold NEGF, by_format1, BWIDTH, FLT_WORD_SIZE, DBL_WORD_SIZE. cbn [operand nth_error Nat.sub obind io1].
  unfold width. destruct (Z.eqb_spec (bitWidth_ v1) 32); [contradiction|]. now destruct (Z.eqb_spec (bitWidth_ v1) 64).
Qed.

Lemma mixed_widths_abort (l : list trigger) : (forall t, In t l -> exists single double, t = by_format single double) ->
  ~ (bitWidth_ v1 = 32 /\ bitWidth_ v2 = 32) -> ~ (bitWidth_ v1 = 64 /\ bitWidth_ v2 = 64) ->
  Forall (fun t => t [v1; v2; out] = Throws AssertionFailed) l.
Proof.
  intros Hl N32 N64. apply Forall_forall. intros t Ht. destruct (Hl t Ht) as (single & double & ->).
  unfold by_format, BWIDTH, FLT_WORD_SIZE, DBL_WORD_SIZE. cbn [operand nth_error Nat.sub obind]. unfold width.
  destruct (Z.eqb_spec (bitWidth_ v1) 32), (Z.eqb_spec (bitWidth_ v2) 32), (Z.eqb_spec (bitWidth_ v1) 64), (Z.eqb_spec (bitWidth_ v2) 64);
    cbn [andb]; try reflexivity; exfalso; tauto.
Qed.

Definition both_formats : list trigger :=
  [ADDF; SUBF; MULF; DIVF; EQF; EQUF; NEF; NEUF; GTF; GTUF; GEF; GEUF; LTF; LTUF; LEF; LEUF; ORDF; UORDF].

Lemma both_formats_by_format t : In t both_formats -> exists single double, t = by_format single double.
Proof. intros Ht. repeat (destruct Ht as [<- | Ht]; [eexists _, _; reflexivity|]). contradiction. Qed.
End Agreement.

(** C24: The floating-point operations of the base library and the emulation library compute the same.
    On operands of 32 or of 64 bits the four arithmetic operations write the pattern the emulation
    returns, or both are NaNs, as they are when an operand is a NaN; the fourteen comparisons write
    the truth value the emulation returns, except that the emulated NE, GT and GE are true of NaNs.
    So agree the single-precision square root, the conversions between the formats, NaNs included,
    and those from integers (from unsigned ones up to 2^31, and above if even); the conversions to
    integers agree wherever the operation is defined: out of range it is not, while the emulation
    returns a number.  Negation agrees in both formats, NaNs included, except at +0, which the
    operation makes -0 and the emulation keeps.  Operands of other widths, or of two widths, end the
    process. *)
Theorem float_operations_agree `{HostFloat} `{HostDouble} fuel v1 v2 out : (4 < fuel)%nat ->
  value_ok v1 -> value_ok v2 -> value_ok out ->
  let a := floatWordValue v1 in
  let da := doubleValue v1 in
  (bitWidth_ v1 = 32 -> bitWidth_ v2 = 32 ->
   Forall (float_arithmetic_agrees v1 v2 out) (float_arithmetic fuel) /\
   Forall (float_comparison_agrees v1 v2 out) float_relations) /\
  (bitWidth_ v1 = 64 -> bitWidth_ v2 = 64 ->
   Forall (double_arithmetic_agrees v1 v2 out) (double_arithmetic_operations fuel) /\
   Forall (double_comparison_agrees v1 v2 out) double_relations) /\
  (~ (bitWidth_ v1 = 32 /\ bitWidth_ v2 = 32) -> ~ (bitWidth_ v1 = 64 /\ bitWidth_ v2 = 64) ->
   Forall (fun t => t [v1; v2; out] = Throws AssertionFailed) both_formats) /\
  writes_float SQRTF [v1; out] 1 (f32_is_nan a) (__emulate_SQRTF_1_1_f32_f32 fuel a fp_init) /\
  writes_float CDF [v1; out] 1 (f64_is_nan da) (__truncdfsf2 da fp_init) /\
  writes_double CFD [v1; out] 1 (f32_is_nan a) (__emulate_CFD_1_1_f32_f64 a fp_init) /\
  (forall x, holds 32 v1 x -> writes_float CIF [v1; out] 1 false (__emulate_CIF_1_1_i32_f32 (s32 x) fp_init) /\
     (u32 x < 2 ^ 31 \/ u32 x mod 2 = 0 -> writes_float CIFU [v1; out] 1 false (__emulate_CIFU_1_1_i32_f32 (u32 x) fp_init))) /\
  (exists n st, __emulate_CFI_1_1_f32_i32 a fp_init = Some (n, st) /\
     (CFI [v1; out] = Done [v1; assign_bytes 4 n out] \/ (CFI [v1; out] = Undefined /\ n = - 2 ^ 31))) /\
  (exists n st, __emulate_CFIU_1_1_f32_i32 a fp_init = Some (n, st) /\
     (CFIU [v1; out] = Done [v1; assign_bytes 4 n out] \/ CFIU [v1; out] = Undefined)) /\
  (bitWidth_ v1 = 32 ->
   if a =? 0 then (exists out', NEGF [v1; out] = Done [v1; out'] /\ floatWordValue out' = 0x80000000) /\
     result (__emulate_NEGF_1_1_f32_f32 a fp_init) = Some 0
   else writes_float NEGF [v1; out] 1 (f32_is_nan a) (__emulate_NEGF_1_1_f32_f32 a fp_init)) /\
  (bitWidth_ v1 = 64 ->
   if bits64 da =? 0 then (exists out', NEGF [v1; out] = Done [v1; out'] /\ doubleValue out' = of_bits64 (2 ^ 63)) /\
     result (__emulate_NEGD_1_1_f64_f64 da fp_init) = Some (of_bits64 0)
   else writes_double NEGF [v1; out] 1 (f64_is_nan da) (__emulate_NEGD_1_1_f64_f64 da fp_init)) /\
  (bitWidth_ v1 <> 32 -> bitWidth_ v1 <> 64 -> NEGF [v1; out] = Throws AssertionFailed).
Proof.
  intros Hf H1 H2 Ho a da.
  split; [split; [now apply single_arithmetic | now apply single_comparisons]|].
  split; [split; [now apply double_arithmetic | now apply double_comparisons]|].
  split; [intros; apply mixed_widths_abort; [exact both_formats_by_format | assumption..]|].
  split; [now apply square_root_agrees|]. split; [now apply narrowing_agrees|]. split; [now apply widening_agrees|].
  split; [now apply int_to_float_agrees|]. split; [now apply float_to_int_agrees|].
  split; [now apply float_to_uint_agrees|]. split; [now apply negation_agrees|].
  split; [now apply negation_agrees64 | now apply negation_aborts].
Qed.

(** 7/5 is computed, a NaN is not greater than 1 for the operation and is widened to a NaN, and 5 is
    converted to an integer. *)
Lemma float_operations_agree_witness :
  let one := port 32 0x3F800000 in
  let nan := port 32 0x7FC00000 in
  let seven := port 32 0x40E00000 in
  let five := port 32 0x40A00000 in
  let out := port 32 0 in
  float_arithmetic_agrees seven five out (DIVF, __emulate_DIVF_2_1_f32_f32_f32 5) /\
  float_comparison_agrees nan one out (GTF, __emulate_GTF_2_1_f32_f32_i32, true) /\
  writes_double CFD [nan; out] 1 true (__emulate_CFD_1_1_f32_f64 0x7FC00000 fp_init) /\
  (exists n st, __emulate_CFI_1_1_f32_i32 0x40A00000 fp_init = Some (n, st) /\
     (CFI [five; out] = Done [five; assign_bytes 4 n out] \/ (CFI [five; out] = Undefined /\ n = - 2 ^ 31))).
Proof.
  assert (Hok : forall x, value_ok (port 32 x)) by (intros; apply port_ok; unfold SIMD_WORD_WIDTH; lia).
  intros one nan seven five out. split; [|split; [|split]].
  - apply (proj1 (Forall_forall _ _) (proj1 (proj1 (float_operations_agree 5 seven five out ltac:(lia) (Hok _) (Hok _) (Hok _)) eq_refl eq_refl))).
    cbn. tauto.
  - apply (proj1 (Forall_forall _ _) (proj2 (proj1 (float_operations_agree 5 nan one out ltac:(lia) (Hok _) (Hok _) (Hok _)) eq_refl eq_refl))).
    cbn. tauto.
  - exact (proj1 (proj2 (proj2 (proj2 (proj2 (proj2 (float_operations_agree 5 nan one out ltac:(lia) (Hok _) (Hok _) (Hok _)))))))).
  - exact (proj1 (proj2 (proj2 (proj2 (proj2 (proj2 (proj2 (proj2 (float_operations_agree 5 five five out ltac:(lia) (Hok _) (Hok _) (Hok _)))))))))).
Defined.
