(* ===== verification/Float64Int.v ===== *)
(** * Conversions from double precision to 32-bit integers *)

From S2P Require Import Prelude.
From S2P Require Import CInt.
From S2P Require Import FPState.
From S2P Require Import Rounding.
From S2P Require Import SoftFloatPrim.
From S2P Require Import Float32.
From S2P Require Import Float64.
From S2P Require Import Float32Round.
From S2P Require Import Float32Arith.
From S2P Require Import Float32MulDiv.
From S2P Require Import Float32Conv.
From S2P Require Import Float64Round.
From S2P Require Import Float64Arith.
From S2P Require Import Float64Sum.
From S2P Require Import Float64MulDiv.

(** The conversion in rounding mode [mode]: the rounded integer, inexact exactly when a fraction
    is discarded, or the invalid exception with the largest integer of the operand's sign, the
    largest positive one for a NaN. *)
Definition ref_int32_of64 (mode : Z) (st : fpstate) (a : float64) : option (Z * fpstate) :=
  let s := f64_sign a in
  let n := (1 - 2 * s) * round_q mode (truthy s) (f64_mag a) (2 ^ 1074) in
  if (extractFloat64Exp a =? 0x7FF) || negb ((- 2 ^ 31 <=? n) && (n <? 2 ^ 31)) then
    Some (if f64_is_nan a || (s =? 0) then 0x7FFFFFFF else - 2 ^ 31, raised st float_flag_invalid)
  else Some (n, if f64_mag a mod 2 ^ 1074 =? 0 then st else raised st float_flag_inexact).

(** ** Integer and fractional part *)

(** [extra], a fraction of 2^32, describes the fraction of [M / 2^1074] well enough to round. *)
Definition fraction_of (M z extra : Z) : Prop :=
  is_u 32 extra /\ z = M / 2 ^ 1074 /\ (extra =? 0) = (M mod 2 ^ 1074 =? 0) /\
  (extra ?= 2 ^ 31) = (2 * (M mod 2 ^ 1074) ?= 2 ^ 1074).

Lemma f64_mag_small a e : f64_word a -> extractFloat64Exp a <= e -> 1 <= e -> f64_mag a < 2 ^ (e + 52).
Proof.
  intros Ha He H1. rewrite f64_mag_sig by assumption. destruct (sig64_words a Ha) as (_ & _ & HS).
  destruct (fields64 a Ha) as (_ & _ & ? & _).
  pose proof (pow2_le (eexp64 a - 1) (e - 1) ltac:(unfold eexp64; lia) ltac:(unfold eexp64; lia)).
  pose proof (pow2_pos (eexp64 a - 1) ltac:(unfold eexp64; lia)).
  replace (e + 52) with (53 + (e - 1)) by lia. rewrite Z.pow_add_r by lia. nia.
Qed.

(** Exponents from 0x413 on: the integer part fills the upper word. *)
Lemma fraction_large a : f64_word a -> 0x413 <= extractFloat64Exp a <= 0x41E ->
  let '(z, extra) := shortShift64Left (extractFloat64Frac0 a ||| 0x00100000) (extractFloat64Frac1 a)
                       (extractFloat64Exp a - 0x413) in
  fraction_of (f64_mag a) z extra /\ is_u 32 z.
Proof.
  intros Ha He. destruct (fields64 a Ha) as (_ & _ & _ & Hf & H0 & H1).
  destruct (larger64 a ltac:(lia)) as [E1 S1]. destruct (sig64_words a Ha) as (Vs & Ws & Rs).
  assert (Eh : extractFloat64Frac0 a ||| 0x00100000 = sig64_high a).
  { unfold sig64_high. now rewrite (proj2 (Z.eqb_neq (extractFloat64Exp a) 0)) by lia. }
  rewrite Eh. set (c := extractFloat64Exp a - 0x413).
  pose proof (pow2_pos c ltac:(lia)). pose proof (pow2_le c 11 ltac:(lia) ltac:(lia)).
  destruct (shortShift64Left_val (sig64_high a) (extractFloat64Frac1 a) c) as [[W0 W1] V];
    [split; cbn [fst snd]; [unfold is_u; lia | assumption] | lia | rewrite Vs; nia|].
  destruct (shortShift64Left _ _ c) as [z extra]. rewrite Vs in V. unfold val64 in V. cbn [fst snd] in *.
  split; [|assumption]. rewrite f64_mag_sig, E1 by assumption.
  destruct (frac_ext (sig64 a * 2 ^ (extractFloat64Exp a - 1)) (2 ^ 1074) (sig64 a * 2 ^ c) (2 ^ 32) 1)
    as (F1 & F2 & F3); try lia.
  { replace (extractFloat64Exp a - 1) with (c + 1042) by lia. rewrite Z.pow_add_r by lia. ring. }
  rewrite !Z.mul_1_r in *. unfold fraction_of. rewrite F1, F2, F3, <- V. unfold is_u in W1.
  rewrite (div_eq _ (2 ^ 32) z) by lia.
  replace ((z * 2 ^ 32 + extra) mod 2 ^ 32) with extra by (apply (Z.mod_unique _ _ z); lia).
  split; [assumption|]. split; [reflexivity|]. split; [reflexivity|].
  symmetry. exact (compare_scale 2 extra (2 ^ 31) ltac:(lia)).
Qed.

(** Below: the words are shifted right, the lower one collapsed into a sticky bit. *)
Lemma fraction_mid a t : f64_word a -> 0x3FE <= extractFloat64Exp a < 0x413 ->
  is_u 11 t -> (t =? 0) = (extractFloat64Frac1 a =? 0) ->
  let h := extractFloat64Frac0 a ||| 0x00100000 in
  fraction_of (f64_mag a) (h >> (- (extractFloat64Exp a - 0x413)))
    (u32 (h << ((extractFloat64Exp a - 0x413) &&& 31)) ||| t) /\
  0 <= h >> (- (extractFloat64Exp a - 0x413)) < 2 ^ 20.
Proof.
  intros Ha He Ht Et h. destruct (fields64 a Ha) as (_ & _ & _ & Hf & H0 & H1).
  destruct (larger64 a ltac:(lia)) as [E1 S1]. destruct (sig64_words a Ha) as (Vs & Ws & Rs).
  assert (Eh : h = sig64_high a).
  { unfold h, sig64_high. now rewrite (proj2 (Z.eqb_neq (extractFloat64Exp a) 0)) by lia. }
  rewrite Eh. set (d := 0x413 - extractFloat64Exp a). assert (Hd : 1 <= d <= 21) by lia.
  replace (- (extractFloat64Exp a - 0x413)) with d by lia. rewrite count_and.
  replace ((extractFloat64Exp a - 0x413) mod 32) with (32 - d) by (apply (Z.mod_unique _ _ (-1)); lia).
  rewrite shr_div, u32_shl by lia. replace (32 - (32 - d)) with d by lia.
  set (x := sig64_high a) in *. set (l := extractFloat64Frac1 a) in *.
  pose proof (pow2_pos d ltac:(lia)) as Pd. pose proof (Z.mod_pos_bound x (2 ^ d) Pd) as Hm.
  pose proof (Z.div_mod x (2 ^ d) ltac:(lia)) as Ed.
  assert (E21 : 2 ^ 32 = 2 ^ (32 - d) * 2 ^ d) by (rewrite <- Z.pow_add_r by lia; f_equal; lia).
  assert (P11 : 2 ^ 11 <= 2 ^ (32 - d)) by (apply pow2_le; lia).
  assert (Hlow : (x mod 2 ^ d * 2 ^ (32 - d)) mod 2 ^ 11 = 0).
  { replace (32 - d) with (21 - d + 11) by lia. rewrite Z.pow_add_r, Z.mul_assoc by lia. apply Z.mod_mul. lia. }
  rewrite (lor_add _ t 11) by (assumption || lia || exact Ht).
  destruct (frac_ext (f64_mag a) (2 ^ 1074) (sig64 a) (2 ^ d * 2 ^ 32) 1) as (F1 & F2 & F3); try nia.
  { rewrite f64_mag_sig, E1, <- !Z.mul_assoc, <- !Z.pow_add_r by (assumption || lia). do 2 f_equal. lia. }
  rewrite !Z.mul_1_r in *. unfold fraction_of. rewrite F1, F2, F3. rewrite <- Vs. unfold val64, is_u in *.
  cbn [fst snd].
  replace ((x * 2 ^ 32 + l) / (2 ^ d * 2 ^ 32)) with (x / 2 ^ d)
    by (rewrite (Z.mul_comm (2 ^ d)), <- Z.div_div, Z.div_add_l, (Z.div_small l), Z.add_0_r by lia; reflexivity).
  replace ((x * 2 ^ 32 + l) mod (2 ^ d * 2 ^ 32)) with (x mod 2 ^ d * 2 ^ 32 + l)
    by (apply (Z.mod_unique _ _ (x / 2 ^ d)); nia).
  set (m := x mod 2 ^ d) in *. set (k := 2 ^ (32 - d)) in *.
  assert (Et' : t = 0 <-> l = 0) by (destruct (Z.eqb_spec t 0), (Z.eqb_spec l 0); (discriminate || tauto)).
  split; [split; [split; [nia | nia] | split; [reflexivity|]]|].
  - split; [destruct (Z.eqb_spec (m * k + t) 0), (Z.eqb_spec (m * 2 ^ 32 + l) 0);
              try reflexivity; exfalso; nia|].
    pose proof (pow2_succ (d - 1) ltac:(lia)) as EH. replace (d - 1 + 1) with d in EH by lia.
    pose proof (pow2_pos (d - 1) ltac:(lia)). set (HH := 2 ^ (d - 1)) in *.
    assert (E31 : 2 ^ 31 = HH * k) by (unfold HH, k; rewrite <- Z.pow_add_r by lia; f_equal; lia).
    rewrite E31, EH. clearbody HH k m. clear EH E31 E21.
    destruct (Z.compare_spec (m * k + t) (HH * k)); symmetry;
      [apply Z.compare_eq_iff | apply Z.compare_lt_iff | apply Z.compare_gt_iff].
    + assert (m = HH) by nia. nia.
    + assert (m < HH) by nia. nia.
    + assert (HH <= m) by nia. destruct (Z.eq_dec m HH) as [->|]; [|nia]. assert (0 < t) by lia. nia.
  - pose proof (pow2_le 1 d ltac:(lia) ltac:(lia)).
    split; [apply Z.div_pos; lia | apply Z.div_lt_upper_bound; lia].
Qed.

(** ** The tails *)

(** The sign is applied modulo 2^w; the range test is a comparison of signs. *)
Lemma signed_range_w w s X : 1 < w -> is_flag s -> 0 <= X < 2 ^ w ->
  let z := sw w (if truthy s then uw w (- X) else X) in let n := (1 - 2 * s) * X in
  truthy (s ^^^ b2z (z <? 0)) && truthy z = negb ((- 2 ^ (w - 1) <=? n) && (n <? 2 ^ (w - 1))) /\
  ((- 2 ^ (w - 1) <=? n) && (n <? 2 ^ (w - 1)) = true -> z = n).
Proof.
  intros Hw Hs HX z n. pose proof (pow2_succ (w - 1) ltac:(lia)) as Ew. replace (w - 1 + 1) with w in Ew by lia.
  pose proof (pow2_pos (w - 1) ltac:(lia)) as HM. set (M := 2 ^ (w - 1)) in *.
  assert (Wrap : forall x k, - M <= x + k * 2 ^ w < M -> sw w x = x + k * 2 ^ w).
  { intros x k Hx. apply sw_wrap; [lia|]. unfold is_s. fold M. lia. }
  assert (Ez : z = if (- M <=? n) && (n <? M) then n else n + (1 - 2 * (1 - s)) * 2 ^ w).
  { unfold z, n. destruct Hs as [-> | ->];
      [change (truthy 0) with false | change (truthy 1) with true]; cbn iota; rewrite ?sw_uw by lia;
      repeat ztest; cbn [andb]; try lia.
    all: first [rewrite (Wrap _ 0) by lia; lia | rewrite (Wrap _ (-1)) by lia; lia | rewrite (Wrap _ 1) by lia; lia]. }
  assert (T0 : forall b, truthy (0 ^^^ b2z b) = b) by (now intros []).
  assert (T1 : forall b, truthy (1 ^^^ b2z b) = negb b) by (now intros []).
  rewrite Ez. destruct ((- M <=? n) && (n <? M)) eqn:Er; (split; [|trivial]); cbn [negb].
  - apply andb_true_iff in Er as [R1 R2]. apply Z.leb_le in R1. apply Z.ltb_lt in R2.
    unfold n in *. destruct Hs as [-> | ->]; rewrite ?T0, ?T1; unfold truthy;
      repeat ztest; cbn [andb negb]; try reflexivity; exfalso; lia.
  - apply andb_false_iff in Er. rewrite Z.leb_gt, Z.ltb_ge in Er. unfold n in *.
    destruct Hs as [-> | ->]; rewrite ?T0, ?T1; unfold truthy;
      repeat ztest; cbn [andb negb]; try reflexivity; exfalso; lia.
  - discriminate.
Qed.

Lemma signed_range s X : is_flag s -> 0 <= X < 2 ^ 32 ->
  let z := s32 (if truthy s then u32 (- X) else X) in let n := (1 - 2 * s) * X in
  truthy (s ^^^ b2z (z <? 0)) && truthy z = negb ((- 2 ^ 31 <=? n) && (n <? 2 ^ 31)) /\
  ((- 2 ^ 31 <=? n) && (n <? 2 ^ 31) = true -> z = n).
Proof. exact (signed_range_w 32 s X ltac:(lia)). Qed.

Lemma int32_invalid_eq st s : fp_ok st ->
  float64_to_int32_invalid s st
  = Some (if truthy s then - 2 ^ 31 else 0x7FFFFFFF, raised st float_flag_invalid).
Proof.
  intros Hst. unfold float64_to_int32_invalid, bind. rewrite float_raise_eq by (assumption || flag_range).
  reflexivity.
Qed.

(** The common end: from the rounded magnitude [X] to the result. *)
Lemma int32_finish st mode a X (x : bool) : fp_ok st -> f64_finite a -> 0 <= X < 2 ^ 32 ->
  X = round_q mode (truthy (f64_sign a)) (f64_mag a) (2 ^ 1074) ->
  x = negb (f64_mag a mod 2 ^ 1074 =? 0) ->
  (let z := s32 (if truthy (f64_sign a) then u32 (- X) else X) in
   if truthy (f64_sign a ^^^ b2z (z <? 0)) && truthy z then float64_to_int32_invalid (f64_sign a)
   else when_ x (float_raise float_flag_inexact) ;; ret z) st = ref_int32_of64 mode st a.
Proof.
  intros Hst [Ha Ea] HX -> ->. pose proof (f64_sign_flag a Ha) as Hs.
  destruct (signed_range (f64_sign a) _ Hs HX) as [E1 E2]. cbv zeta. rewrite E1. unfold ref_int32_of64.
  set (n := (1 - 2 * f64_sign a) * _) in *. rewrite (proj2 (Z.eqb_neq _ 0x7FF)) by lia. cbn [orb].
  destruct ((- 2 ^ 31 <=? n) && (n <? 2 ^ 31)); cbn [negb].
  - rewrite inexact_ret, E2 by trivial. now destruct (f64_mag a mod 2 ^ 1074 =? 0).
  - rewrite int32_invalid_eq by assumption. destruct (nonspecial64 a ltac:(lia)) as [-> _]. cbn [orb].
    unfold truthy. now destruct (f64_sign a =? 0).
Qed.

(** Magnitudes above 2^31 are out of range with either sign. *)
Lemma int32_out_of_range mode st a :
  f64_word a -> 2 ^ 31 < round_q mode (truthy (f64_sign a)) (f64_mag a) (2 ^ 1074) ->
  ref_int32_of64 mode st a
  = Some (if f64_is_nan a || (f64_sign a =? 0) then 0x7FFFFFFF else - 2 ^ 31, raised st float_flag_invalid).
Proof.
  intros Ha Hr. unfold ref_int32_of64. set (r := round_q _ _ _ _) in *. clearbody r.
  replace (negb ((- 2 ^ 31 <=? (1 - 2 * f64_sign a) * r) && ((1 - 2 * f64_sign a) * r <? 2 ^ 31))) with true;
    [now rewrite orb_true_r|].
  destruct (f64_sign_flag a Ha) as [-> | ->]; repeat ztest; cbn [andb negb]; try reflexivity; lia.
Qed.

(** Exponents above 0x41E: the magnitude is at least 2^32. *)
Lemma int32_overflow mode st a : fp_ok st -> f64_word a -> 0x41E < extractFloat64Exp a ->
  float64_to_int32_invalid
    (if (extractFloat64Exp a =? 0x7FF) && truthy (extractFloat64Frac0 a ||| extractFloat64Frac1 a)
     then 0 else f64_sign a) st = ref_int32_of64 mode st a.
Proof.
  intros Hst Ha He. rewrite int32_invalid_eq by assumption.
  change ((extractFloat64Exp a =? 0x7FF) && truthy (extractFloat64Frac0 a ||| extractFloat64Frac1 a))
    with (f64_is_nan a).
  rewrite int32_out_of_range; [|assumption|].
  - unfold truthy. destruct (f64_is_nan a); cbn [orb]; [reflexivity|]. now destruct (f64_sign a =? 0).
  - apply Z.lt_le_trans with (2 ^ 32); [lia|]. apply round_q_ge; [lia|]. rewrite f64_mag_sig by assumption.
    destruct (larger64 a ltac:(lia)) as [-> ->]. destruct (fields64 a Ha) as (_ & _ & He' & Hf & _).
    pose proof (pow2_le 1054 (extractFloat64Exp a - 1) ltac:(lia) ltac:(lia)).
    replace (2 ^ 32 * 2 ^ 1074) with (2 ^ 52 * 2 ^ 1054) by reflexivity. nia.
Qed.

(** Rounding to nearest from the fraction of 2^32. *)
Lemma nearest_fraction M z extra s : fraction_of M z extra -> 0 <= z <= 2 ^ 31 ->
  (if s32 extra <? 0 then
     let absZ := u32 (z + 1) in
     if u32 (extra << 1) =? 0 then absZ &&& u32 (Z.lnot 1) else absZ
   else z) = round_q float_round_nearest_even s M (2 ^ 1074).
Proof.
  intros (He & Ez & E0 & Ec) Hz. unfold round_q, rounds_away. cbn [Z.eqb float_round_nearest_even].
  rewrite <- Ez, <- Ec, s32_neg by assumption. unfold is_u in He. cbv zeta.
  rewrite u32_shl, (u32_small (z + 1)) by lia. change (32 - 1) with 31.
  destruct (Z.compare_spec extra (2 ^ 31)) as [->|Hlt|Hgt].
  - cbn [Z.leb Z.compare]. change (2 ^ 31 mod 2 ^ 31 * 2 ^ 1 =? 0) with true. cbn iota.
    rewrite (proj2 (Z.leb_le _ _)) by lia. rewrite mask_clear by lia.
    rewrite <- (Z.negb_even z). destruct (Z.even z) eqn:Ev; cbn [negb b2z].
    + apply Z.even_spec in Ev as [k ->]. dlia.
    + assert (Ho : Z.odd z = true) by (rewrite <- Z.negb_even, Ev; reflexivity).
      apply Z.odd_spec in Ho as [k ->]. dlia.
  - rewrite (proj2 (Z.leb_gt _ _)) by lia. cbn [b2z]. lia.
  - rewrite (proj2 (Z.leb_le _ _)), (proj2 (Z.eqb_neq _ 0)) by dlia. reflexivity.
Qed.

Lemma directed_fraction mode M z s : 0 <= mode <= 3 -> mode <> float_round_nearest_even ->
  z = M / 2 ^ 1074 -> 0 <= z <= 2 ^ 31 -> is_flag s ->
  u32 (z + (b2z (mode =? (if truthy s then float_round_down else float_round_up))
            &&& b2z (negb (M mod 2 ^ 1074 =? 0)))) = round_q mode (truthy s) M (2 ^ 1074).
Proof.
  intros Hm Hn Ez Hz Hs. unfold round_q, rounds_away, float_round_nearest_even in *.
  rewrite <- Ez. rewrite (proj2 (Z.eqb_neq mode 0)) by assumption.
  assert (C : mode = 1 \/ mode = 2 \/ mode = 3) by lia.
  destruct Hs as [-> | ->]; [change (truthy 0) with false | change (truthy 1) with true];
    destruct C as [-> | [-> | ->]]; destruct (M mod 2 ^ 1074 =? 0); cbn; apply u32_small; lia.
Qed.

Lemma float64_to_int32_tail_ref st a z extra : fp_ok st -> f64_finite a ->
  fraction_of (f64_mag a) z extra -> 0 <= z <= 2 ^ 31 ->
  float64_to_int32_tail (f64_sign a) z extra st = ref_int32_of64 (float_rounding_mode st) st a.
Proof.
  intros Hst Fa Hfr Hz. pose proof (mode_ok st Hst) as Hm. pose proof (f64_sign_flag a (proj1 Fa)) as Hs.
  pose proof Hfr as (He & Ez & E0 & Ec).
  assert (Et : truthy extra = negb (f64_mag a mod 2 ^ 1074 =? 0)) by (unfold truthy; now rewrite E0).
  set (r := round_q (float_rounding_mode st) (truthy (f64_sign a)) (f64_mag a) (2 ^ 1074)).
  assert (Hr : 0 <= r < 2 ^ 32).
  { pose proof (round_q_bounds (float_rounding_mode st) (truthy (f64_sign a)) (f64_mag a) (2 ^ 1074)).
    fold r in H. lia. }
  unfold float64_to_int32_tail. unfold bind at 1, get_mode.
  destruct (Z.eqb_spec (float_rounding_mode st) float_round_nearest_even) as [Em|Hne].
  - pose proof (nearest_fraction _ z extra (truthy (f64_sign a)) Hfr Hz) as En.
    rewrite <- Em in En. fold r in En. cbv zeta in En. rewrite En.
    now apply (int32_finish st (float_rounding_mode st) a r (truthy extra)).
  - pose proof (directed_fraction _ _ z (f64_sign a) Hm Hne Ez Hz Hs) as Ed. fold r in Ed.
    rewrite <- (int32_finish st (float_rounding_mode st) a r (truthy extra) Hst Fa Hr eq_refl Et).
    cbv zeta. rewrite <- Ed, Et. destruct Hs as [E | E]; rewrite E in *;
      [change (truthy 0) with false in * | change (truthy 1) with true in *]; cbn iota;
      now destruct (f64_mag a mod 2 ^ 1074 =? 0).
Qed.

(** Exponents below 0x3FE: the magnitude is less than a half. *)
Lemma fraction_small a : f64_word a -> extractFloat64Exp a < 0x3FE ->
  fraction_of (f64_mag a) 0
    (extractFloat64Exp a ||| extractFloat64Frac0 a ||| b2z (truthy (extractFloat64Frac1 a))).
Proof.
  intros Ha He. destruct (fields64 a Ha) as (_ & _ & Re & _ & H0 & H1). pose proof (f64_mag_nonneg a Ha).
  pose proof (f64_mag_small a 0x3FD Ha ltac:(lia) ltac:(lia)) as Hb. change (1021 + 52) with 1073 in Hb.
  assert (Hl : 0 <= extractFloat64Exp a ||| extractFloat64Frac0 a ||| b2z (truthy (extractFloat64Frac1 a)) < 2 ^ 20).
  { apply lor_b2z_range; [lia|]. apply lor_bound; lia. }
  unfold fraction_of. rewrite Z.div_small, Z.mod_small by lia.
  split; [unfold is_u; lia|]. split; [reflexivity|]. split.
  - rewrite <- f64_zero_words, !lor_eq0 by assumption. unfold truthy. now destruct (extractFloat64Frac1 a =? 0).
  - transitivity Lt; [apply Z.compare_lt_iff | symmetry; apply Z.compare_lt_iff]; lia.
Qed.

(** Truncation keeps the integer part. *)
Lemma int32_truncate st a z extra : fp_ok st -> f64_finite a -> is_u 32 z -> z = f64_mag a / 2 ^ 1074 ->
  truthy extra = negb (f64_mag a mod 2 ^ 1074 =? 0) ->
  float64_to_int32_round_to_zero_tail (f64_sign a) z extra st = ref_int32_of64 float_round_to_zero st a.
Proof.
  intros Hst Fa Hz Ez Et. unfold float64_to_int32_round_to_zero_tail. rewrite Et.
  apply int32_finish; try assumption; [|reflexivity].
  rewrite Ez. unfold round_q, rounds_away. cbn [Z.eqb float_round_to_zero float_round_nearest_even Pos.eqb b2z]. lia.
Qed.

(** The double to integer conversion rounds in the current mode, raises inexact exactly when
    the operand is not an integer, and on NaNs and overflow delivers the documented extreme
    integer with the invalid exception. *)
Theorem float64_to_int32_correct st a : fp_ok st -> f64_word a ->
  float64_to_int32 a st = ref_int32_of64 (float_rounding_mode st) st a.
Proof.
  intros Hst Ha. destruct (fields64 a Ha) as (_ & Hs & He & Hf & H0 & H1).
  unfold float64_to_int32. rewrite sign64_div, s16_small by lia.
  destruct (Z.leb_spec 0 (extractFloat64Exp a - 0x413)); [destruct (Z.ltb_spec 0x41E (extractFloat64Exp a))|].
  - now apply int32_overflow.
  - pose proof (fraction_large a Ha ltac:(lia)) as X. destruct (shortShift64Left _ _ _) as [z extra].
    destruct X as [X Wz]. unfold is_u in Wz. destruct (Z.ltb_spec 0x80000000 z).
    + rewrite int32_invalid_eq, int32_out_of_range by
        (assumption || (destruct X as (_ & Ez & _);
           pose proof (round_q_bounds (float_rounding_mode st) (truthy (f64_sign a)) (f64_mag a) (2 ^ 1074)); lia)).
      destruct (nonspecial64 a ltac:(lia)) as [-> _]. unfold truthy. now destruct (f64_sign a =? 0).
    + apply float64_to_int32_tail_ref; try assumption; [split; [assumption | lia] | lia].
  - destruct (Z.ltb_spec (extractFloat64Exp a) 0x3FE).
    + apply float64_to_int32_tail_ref; [assumption | split; [assumption | lia] | | lia].
      now apply fraction_small.
    + destruct (fraction_mid a (b2z (truthy (extractFloat64Frac1 a))) Ha ltac:(lia)) as [X R].
      * unfold is_u. destruct (truthy _); cbn; lia.
      * unfold truthy. now destruct (extractFloat64Frac1 a =? 0).
      * apply float64_to_int32_tail_ref; try assumption; [split; [assumption | lia] | lia].
Qed.

(** 2.5 rounds to even, -2^31 - 1/2 rounds into range, a NaN gives the largest integer. *)
Lemma float64_to_int32_witness :
  float64_to_int32 (of_bits64 0x4004000000000000) fp_init = Some (2, raised fp_init float_flag_inexact) /\
  float64_to_int32 (of_bits64 0xC1E0000000100000) fp_init
    = Some (- 2 ^ 31, raised fp_init float_flag_inexact) /\
  float64_to_int32 (of_bits64 0x7FF8000000000000) fp_init
    = Some (0x7FFFFFFF, raised fp_init float_flag_invalid).
Proof.
  split; [|split]; rewrite float64_to_int32_correct by (exact fp_init_ok || (split; cbn; unfold is_u; lia));
    vm_compute; reflexivity.
Defined.

(** The truncating double to integer conversion, the one the compiler calls for a C cast,
    returns the operand rounded toward zero with the same exceptions and extreme results. *)
Theorem float64_to_int32_round_to_zero_correct st a : fp_ok st -> f64_word a ->
  float64_to_int32_round_to_zero a st = ref_int32_of64 float_round_to_zero st a.
Proof.
  intros Hst Ha. destruct (fields64 a Ha) as (_ & Hs & He & Hf & H0 & H1).
  unfold float64_to_int32_round_to_zero. rewrite sign64_div, s16_small by lia.
  destruct (Z.leb_spec 0 (extractFloat64Exp a - 0x413)); [destruct (Z.ltb_spec 0x41E (extractFloat64Exp a))|].
  - now apply int32_overflow.
  - pose proof (fraction_large a Ha ltac:(lia)) as X. destruct (shortShift64Left _ _ _) as [z extra].
    destruct X as [X Wz]. apply int32_truncate; try assumption; [split; [assumption | lia] | apply X |].
    unfold truthy. now rewrite (proj1 (proj2 (proj2 X))).
  - destruct (Z.ltb_spec (extractFloat64Exp a) 0x3FF).
    + pose proof (f64_mag_nonneg a Ha). pose proof (f64_mag_small a 0x3FE Ha ltac:(lia) ltac:(lia)) as Hb.
      change (1022 + 52) with 1074 in Hb.
      rewrite <- (int32_truncate st a 0 (extractFloat64Exp a ||| extractFloat64Frac0 a ||| extractFloat64Frac1 a));
        try assumption.
      * unfold float64_to_int32_round_to_zero_tail.
        assert (E : s32 (if truthy (f64_sign a) then u32 (- 0) else 0) = 0)
          by (destruct Hs as [-> | ->]; reflexivity).
        rewrite E. change (truthy 0) with false. now rewrite andb_false_r.
      * split; [assumption | lia].
      * unfold is_u. lia.
      * symmetry. apply Z.div_small. lia.
      * unfold truthy. now rewrite f64_zero_words, Z.mod_small by (assumption || lia).
    + destruct (fraction_mid a (b2z (truthy (extractFloat64Frac1 a))) Ha ltac:(lia)) as [X R].
      * unfold is_u. destruct (truthy _); cbn; lia.
      * unfold truthy. now destruct (extractFloat64Frac1 a =? 0).
      * apply int32_truncate; try assumption; [split; [assumption | lia] | unfold is_u; lia | apply X |].
        destruct X as (_ & _ & E & _). rewrite <- E. set (u := u32 _). clearbody u. unfold truthy.
        rewrite !lor_eq0. destruct (u =? 0), (extractFloat64Frac1 a =? 0); reflexivity.
Qed.

(** -2.75 truncates to -2; -2^31 - 1/2 is in range after truncation. *)
Lemma float64_to_int32_round_to_zero_witness :
  float64_to_int32_round_to_zero (of_bits64 0xC006000000000000) fp_init
    = Some (-2, raised fp_init float_flag_inexact) /\
  float64_to_int32_round_to_zero (of_bits64 0xC1E0000000100000) fp_init
    = Some (- 2 ^ 31, raised fp_init float_flag_inexact).
Proof.
  split; rewrite float64_to_int32_round_to_zero_correct
    by (exact fp_init_ok || (split; cbn; unfold is_u; lia)); vm_compute; reflexivity.
Defined.

(** The conversions of double precision to 32-bit integers together, the one rounding in the current
    mode and the truncating one the compiler calls for a C cast, return the operand rounded in
    their mode, raise inexact exactly when the operand is not an integer, and on NaNs and overflow
    deliver the documented extreme integer with the invalid exception. *)
Theorem float64_to_integers st a : fp_ok st -> f64_word a ->
  float64_to_int32 a st = ref_int32_of64 (float_rounding_mode st) st a /\
  float64_to_int32_round_to_zero a st = ref_int32_of64 float_round_to_zero st a.
Proof.
  intros Hst Ha. split; [now apply float64_to_int32_correct | now apply float64_to_int32_round_to_zero_correct].
Qed.

(** -2^31 - 1/2 rounds into range, a NaN gives the largest integer. *)
Lemma float64_to_integers_witness :
  float64_to_int32 (of_bits64 0xC1E0000000100000) fp_init
    = Some (- 2 ^ 31, raised fp_init float_flag_inexact) /\
  float64_to_int32_round_to_zero (of_bits64 0x7FF8000000000000) fp_init
    = Some (0x7FFFFFFF, raised fp_init float_flag_invalid).
Proof.
  split.
  - rewrite (proj1 (float64_to_integers fp_init (of_bits64 0xC1E0000000100000) fp_init_ok
      ltac:(split; cbn; unfold is_u; lia))). vm_compute. reflexivity.
  - rewrite (proj2 (float64_to_integers fp_init (of_bits64 0x7FF8000000000000) fp_init_ok
      ltac:(split; cbn; unfold is_u; lia))). vm_compute. reflexivity.
Defined.
