(* ===== verification/Float64Long.v ===== *)
(** * Conversions between double precision and 64-bit integers

    The routines compiled under __TCE64__.  Integers are converted by cutting off the bits that do
    not fit; doubles are truncated, and above 2^64 reduced modulo 2^64 before the range test. *)

From S2P Require Import Prelude.
From S2P Require Import CInt.
From S2P Require Import FPState.
From S2P Require Import Rounding.
From S2P Require Import SoftFloatPrim.
From S2P Require Import Float32.
From S2P Require Import Float32Round.
From S2P Require Import Float64.
From S2P Require Import Float32Arith.
From S2P Require Import Float32MulDiv.
From S2P Require Import Emulate.
From S2P Require Import Float32Conv.
From S2P Require Import Float64Round.
From S2P Require Import Float64Arith.
From S2P Require Import Float64Sum.
From S2P Require Import Float64MulDiv.
From S2P Require Import Float64Conv.
From S2P Require Import Float64Int.

(** ** From integers *)

(** The 53 leading bits of a number. *)
Definition leading53 (m : Z) : Z := let k := Z.max 0 (Z.log2 m - 52) in m / 2 ^ k * 2 ^ k.

Definition truncated (a : Z) (z : float64) : Prop :=
  f64_finite z /\ f64_val z = Z.sgn a * leading53 (Z.abs a) * 2 ^ 1074.

Lemma u64_shift x n : 0 <= n -> 0 <= x -> x * 2 ^ n < 2 ^ 64 -> u64 (x << n) = x * 2 ^ n.
Proof. intros Hn Hx H. unfold u64, uw. rewrite Z.shiftl_mul_pow2 by lia. pose proof (pow2_pos n Hn). apply Z.mod_small. nia. Qed.

(** One of the three halving steps: shift left by [n] when the top [n] bits are zero. *)
Lemma clz_step s x n : 0 < n <= 32 -> 0 <= s -> s + n <= 56 -> 2 ^ (64 - 2 * n) <= x < 2 ^ 64 -> exists s' x',
  (if x <? 2 ^ (64 - n) then (s8 (s + n), u64 (x << n)) else (s, x)) = (s', x') /\
  0 <= s' <= s + n /\ 2 ^ (64 - n) <= x' < 2 ^ 64 /\ s' - Z.log2 x' = s - Z.log2 x.
Proof.
  intros Hn Hs Hsn Hx. pose proof (pow2_pos (64 - 2 * n) ltac:(lia)). pose proof (pow2_pos n ltac:(lia)).
  assert (E1 : 2 ^ 64 = 2 ^ (64 - n) * 2 ^ n) by (rewrite <- Z.pow_add_r by lia; f_equal; lia).
  assert (E2 : 2 ^ (64 - n) = 2 ^ (64 - 2 * n) * 2 ^ n) by (rewrite <- Z.pow_add_r by lia; f_equal; lia).
  destruct (Z.ltb_spec x (2 ^ (64 - n))).
  - exists (s + n), (x * 2 ^ n). rewrite s8_small, u64_shift by nia. rewrite Z.log2_mul_pow2 by lia.
    split; [reflexivity|]. split; [lia|]. split; [nia | lia].
  - exists s, x. split; [reflexivity|]. split; [lia|]. split; [lia | reflexivity].
Qed.

Lemma countLeadingZeros64_log2 a : 0 < a < 2 ^ 64 -> countLeadingZeros64 a = 63 - Z.log2 a.
Proof.
  intros Ha. unfold countLeadingZeros64.
  destruct (clz_step 0 a 32) as (s1 & x1 & E1 & S1 & R1 & L1); [lia..|]. change (2 ^ (64 - 32)) with 0x100000000 in *. rewrite E1.
  destruct (clz_step s1 x1 16) as (s2 & x2 & E2 & S2 & R2 & L2); [lia..|]. change (2 ^ (64 - 16)) with 0x1000000000000 in *. rewrite E2.
  destruct (clz_step s2 x2 8) as (s3 & x3 & E3 & S3 & R3 & L3); [lia..|]. change (2 ^ (64 - 8)) with 0x100000000000000 in *. rewrite E3.
  assert (56 <= Z.log2 x3 < 64) by (split; [apply Z.log2_le_pow2 | apply Z.log2_lt_pow2]; lia).
  rewrite shr_div, clz_table_eq, log2_div_pow2 by (lia || dlia). rewrite s8_small by lia. lia.
Qed.

(** The significand, shifted into 53 bits. *)
Lemma leading_bits m : 0 < m < 2 ^ 64 -> let l := Z.log2 m in
  let zSig := if 0 <=? 52 - l then u64 (m << (52 - l)) else m >> (- (52 - l)) in
  2 ^ 52 <= zSig < 2 ^ 53 /\ zSig * 2 ^ (l + 1022) = leading53 m * 2 ^ 1074.
Proof.
  intros Hm l. pose proof (Z.log2_spec m ltac:(lia)) as [Hl Hh]. pose proof (Z.log2_nonneg m). fold l in Hl, Hh, H.
  replace (Z.succ l) with (l + 1) in Hh by lia. unfold leading53. fold l.
  assert (Hl64 : l < 64) by (apply Z.log2_lt_pow2; lia).
  destruct (Z.leb_spec 0 (52 - l)) as [Hc|Hc].
  - pose proof (pow2_pos (52 - l) Hc).
    assert (2 ^ 52 = 2 ^ l * 2 ^ (52 - l)) by (rewrite <- Z.pow_add_r by lia; f_equal; lia).
    assert (2 ^ 53 = 2 ^ (l + 1) * 2 ^ (52 - l)) by (rewrite <- Z.pow_add_r by lia; f_equal; lia).
    rewrite u64_shift by nia. rewrite Z.max_l, Z.pow_0_r, Z.div_1_r, Z.mul_1_r by lia. split; [nia|].
    rewrite <- Z.mul_assoc, <- Z.pow_add_r by lia. do 2 f_equal. lia.
  - replace (- (52 - l)) with (l - 52) by lia. rewrite shr_div, Z.max_r by lia.
    pose proof (pow2_pos (l - 52) ltac:(lia)).
    assert (2 ^ l = 2 ^ 52 * 2 ^ (l - 52)) by (rewrite <- Z.pow_add_r by lia; f_equal; lia).
    assert (2 ^ (l + 1) = 2 ^ 53 * 2 ^ (l - 52)) by (rewrite <- Z.pow_add_r by lia; f_equal; lia).
    split; [split; [apply Z.div_le_lower_bound | apply Z.div_lt_upper_bound]; lia|].
    rewrite <- Z.mul_assoc, <- Z.pow_add_r by lia. do 2 f_equal. lia.
Qed.

Lemma abs64_to_float64_spec s m : is_flag s -> 0 < m < 2 ^ 64 -> let z := abs64_to_float64 s m in
  f64_finite z /\ f64_sign z = s /\ f64_mag z = leading53 m * 2 ^ 1074.
Proof.
  intros Hs Hm. unfold abs64_to_float64. rewrite countLeadingZeros64_log2 by lia.
  destruct (leading_bits m Hm) as [R V]. cbv zeta in R, V. set (l := Z.log2 m) in *.
  assert (Hl : 0 <= l < 64) by (split; [apply Z.log2_nonneg | apply Z.log2_lt_pow2; lia]).
  rewrite s8_small by lia. replace (63 - l - 11) with (52 - l) by lia. set (zSig := if 0 <=? 52 - l then _ else _) in *. clearbody zSig.
  rewrite s16_small by lia. replace (0x432 - (52 - l)) with (l + 1022) by lia.
  change 0xFFFFFFFF with (2 ^ 32 - 1). rewrite shr_div, land_ones_mod by lia. rewrite (u32_small (zSig / 2 ^ 32)) by dlia.
  rewrite packFloat64_eq; [|assumption | lia | dlia | dlia | unfold is_u; dlia].
  unfold val64. cbn [fst snd]. replace (zSig / 2 ^ 32 * 2 ^ 32 + zSig mod 2 ^ 32) with zSig by dlia.
  destruct (encoded_bits s (l + 1022) zSig Hs ltac:(lia) R) as (K1 & K2 & K3). rewrite K3. now rewrite V.
Qed.

Lemma zero_truncated : truncated 0 (packFloat64 0 0 0 0).
Proof. repeat split; unfold is_u; cbn; lia. Qed.

Lemma truncated_spec s m z : is_flag s -> 0 < m ->
  f64_finite z /\ f64_sign z = s /\ f64_mag z = leading53 m * 2 ^ 1074 -> truncated ((1 - 2 * s) * m) z.
Proof.
  intros Hs Hm (Z1 & Z2 & Z3). split; [exact Z1|]. unfold f64_val. rewrite Z2, Z3.
  assert (E : Z.sgn ((1 - 2 * s) * m) = 1 - 2 * s /\ Z.abs ((1 - 2 * s) * m) = m) by (destruct Hs as [-> | ->]; lia).
  destruct E as [-> ->]. ring.
Qed.

Lemma int64_truncates a : is_s 64 a -> truncated a (int64_to_float64 a).
Proof.
  intros Ha. unfold int64_to_float64. destruct (Z.eqb_spec a 0) as [->|H0]; [exact zero_truncated|].
  unfold is_s in Ha. change (2 ^ (64 - 1)) with (2 ^ 63) in Ha.
  set (s := b2z (a <? 0)). assert (Hs : is_flag s) by (unfold s, is_flag; destruct (a <? 0); cbn; lia).
  assert (Es : a = (1 - 2 * s) * Z.abs a) by (unfold s; destruct (Z.ltb_spec a 0); cbn [b2z]; lia).
  replace (u64 (if truthy s then s64 (- a) else a)) with (Z.abs a).
  2: { unfold s, u64, s64. destruct (Z.ltb_spec a 0); cbn [b2z]; [change (truthy 1) with true | change (truthy 0) with false]; cbn iota.
       - rewrite uw_sw by lia. rewrite uw_small by (unfold is_u; lia). lia.
       - rewrite uw_small by (unfold is_u; lia). lia. }
  rewrite Es at 1. apply truncated_spec; [exact Hs | lia|]. apply abs64_to_float64_spec; [exact Hs | lia].
Qed.

Lemma uint64_truncates a : is_u 64 a -> truncated a (uint64_to_float64 a).
Proof.
  intros Ha. unfold uint64_to_float64. destruct (Z.eqb_spec a 0) as [->|H0]; [exact zero_truncated|].
  unfold is_u in Ha. replace a with ((1 - 2 * 0) * a) at 1 by lia.
  apply truncated_spec; [now left | lia|]. apply abs64_to_float64_spec; [now left | lia].
Qed.

(** Nothing is cut off up to 2^53. *)
Lemma truncated_exact a z : Z.abs a <= 2 ^ 53 -> truncated a z -> ref_from_int a z.
Proof.
  intros Ha [F V]. split; [exact F|]. rewrite V. f_equal.
  assert (L : leading53 (Z.abs a) = Z.abs a); [|rewrite L; lia].
  destruct (Z.eq_dec (Z.abs a) (2 ^ 53)) as [->|]; [reflexivity|]. unfold leading53.
  destruct (Z.eq_dec (Z.abs a) 0) as [->|]; [reflexivity|].
  assert (Z.log2 (Z.abs a) < 53) by (apply Z.log2_lt_pow2; lia).
  rewrite Z.max_l by lia. rewrite Z.pow_0_r, Z.div_1_r. lia.
Qed.

(** ** To integers *)

(** The result for the magnitude [X] with the sign of [a]: the number if it is in range, inexact only
    for operands below one, and otherwise the extreme integer of that sign. *)
Definition extreme64 (a : float64) : Z := if f64_is_nan a || (f64_sign a =? 0) then 2 ^ 63 - 1 else - 2 ^ 63.
Definition int64_result (st : fpstate) (a : float64) (X : Z) : option (Z * fpstate) :=
  let v := (1 - 2 * f64_sign a) * X in
  if (- 2 ^ 63 <=? v) && (v <? 2 ^ 63) then
    Some (v, if (0 <? f64_mag a) && (f64_mag a <? 2 ^ 1074) then raised st float_flag_inexact else st)
  else Some (extreme64 a, raised st float_flag_invalid).

Definition unsigned_pattern (r : option (Z * fpstate)) : option (Z * fpstate) :=
  match r with Some (z, st) => Some (u64 z, st) | None => None end.

Lemma frac64_word a : f64_word a -> extractFloat64Frac a = f64_frac a.
Proof.
  intros Ha. destruct (fields64 a Ha) as (_ & _ & _ & _ & H0 & H1). unfold extractFloat64Frac, f64_frac, val64.
  change (high a &&& 0x000FFFFF) with (extractFloat64Frac0 a). change (low a) with (extractFloat64Frac1 a). cbn [fst snd].
  rewrite u64_shift by lia. rewrite Z.lor_comm. apply (lor_add _ _ 32); [lia | exact H1 | apply Z.mod_mul; lia].
Qed.

Lemma frac_or_hidden a : f64_word a -> extractFloat64Frac a ||| 0x0010000000000000 = f64_frac a + 2 ^ 52.
Proof. intros Ha. rewrite frac64_word by assumption. apply (lor_bit _ 52); [lia | apply (fields64 a Ha)]. Qed.

Lemma int64_invalid st a : fp_ok st ->
  float64_to_int64_invalid (if f64_is_nan a then 0 else f64_sign a) st
  = Some (u64 (extreme64 a), raised st float_flag_invalid).
Proof.
  intros Hst. unfold float64_to_int64_invalid, bind. rewrite float_raise_eq by (assumption || flag_range).
  unfold extreme64, truthy. destruct (f64_is_nan a); cbn [orb]; [reflexivity|]. now destruct (f64_sign a =? 0).
Qed.

Lemma int64_tail st a X : fp_ok st -> f64_word a -> f64_is_nan a = false -> is_u 64 X -> 2 ^ 1074 <= f64_mag a ->
  float64_to_int64_tail (f64_sign a) X st = unsigned_pattern (int64_result st a X).
Proof.
  intros Hst Ha Nn HX Hm. destruct (signed_range_w 64 (f64_sign a) X ltac:(lia) (f64_sign_flag a Ha) HX) as [E1 E2].
  change (2 ^ (64 - 1)) with (2 ^ 63) in E1, E2. change (uw 64) with u64 in E1, E2. change (sw 64) with s64 in E1, E2.
  cbv zeta in E1, E2. unfold float64_to_int64_tail, int64_result.
  rewrite (proj2 (Z.ltb_ge (f64_mag a) _)), andb_false_r by lia. cbv zeta. rewrite E1.
  destruct ((- 2 ^ 63 <=? _) && _) eqn:Er; cbn [negb].
  - rewrite E2 by trivial. reflexivity.
  - pose proof (int64_invalid st a Hst) as I. rewrite Nn in I. exact I.
Qed.

Lemma mag_of_fields a : f64_word a -> 0 < extractFloat64Exp a ->
  f64_mag a = (f64_frac a + 2 ^ 52) * 2 ^ (extractFloat64Exp a - 1).
Proof. intros Ha He. rewrite f64_mag_fields by assumption. now rewrite (proj2 (Z.eqb_neq _ _)) by lia. Qed.

Lemma f64_mag_zero_frac a : f64_word a -> (f64_mag a =? 0) = (extractFloat64Exp a =? 0) && (f64_frac a =? 0).
Proof.
  intros Ha. destruct (fields64 a Ha) as (_ & _ & He & Hf & _). rewrite f64_mag_fields by assumption.
  destruct (Z.eqb_spec (extractFloat64Exp a) 0); [reflexivity|]. cbn [andb].
  apply Z.eqb_neq. pose proof (pow2_pos (extractFloat64Exp a - 1) ltac:(lia)). nia.
Qed.

(** Both routines up to the exponent of 2^115. *)
Lemma int64_pattern bound st a : fp_ok st -> f64_word a -> 0x472 <= bound -> extractFloat64Exp a <= 0x472 ->
  float64_to_int64_pattern bound a st = unsigned_pattern (int64_result st a ((f64_mag a / 2 ^ 1074) mod 2 ^ 64)).
Proof.
  intros Hst Ha Hb He. destruct (fields64 a Ha) as (_ & _ & Re & Rf & _). pose proof (f64_mag_nonneg a Ha) as Hm0.
  pose proof (proj1 (nonspecial64 a ltac:(lia))) as Nn. unfold float64_to_int64_pattern. rewrite s16_small by lia.
  rewrite frac_or_hidden, sign64_div by assumption. set (e := extractFloat64Exp a) in *.
  assert (Big : 0x3FF <= e -> 2 ^ 1074 <= f64_mag a).
  { intros. rewrite mag_of_fields by (assumption || lia). fold e. replace (2 ^ 1074) with (2 ^ 52 * 2 ^ 1022) by reflexivity.
    pose proof (pow2_le 1022 (e - 1) ltac:(lia) ltac:(lia)). nia. }
  destruct (Z.leb_spec 0 (e - 0x433)) as [Hc|Hc].
  - rewrite (proj2 (Z.ltb_ge bound e)) by lia. unfold shl_u64. rewrite (proj2 (Z.ltb_lt (e - 0x433) 64)) by lia.
    cbn [lift]. unfold bind at 1, lift.
    replace (u64 _) with ((f64_mag a / 2 ^ 1074) mod 2 ^ 64).
    + apply int64_tail; try assumption; [apply (uw_range 64); lia | apply Big; lia].
    + rewrite mag_of_fields by (assumption || lia). fold e. unfold u64, uw. rewrite Z.shiftl_mul_pow2 by lia.
      f_equal. replace (e - 1) with (e - 0x433 + 1074) by lia. rewrite Z.pow_add_r, Z.mul_assoc by lia. apply Z.div_mul. lia.
  - destruct (Z.ltb_spec e 0x3FF) as [Hs|Hs].
    + assert (Hsm : f64_mag a < 2 ^ 1074) by exact (f64_mag_small a 0x3FE Ha ltac:(lia) ltac:(lia)).
      rewrite inexact_ret, Z.div_small, Zmod_0_l by (assumption || lia). unfold int64_result. cbv zeta. rewrite Z.mul_0_r.
      rewrite (proj2 (Z.ltb_lt _ _) Hsm), andb_true_r. change ((- 2 ^ 63 <=? 0) && (0 <? 2 ^ 63)) with true. cbn iota.
      unfold truthy. rewrite lor_eq0, frac64_word by assumption. unfold e. rewrite <- f64_mag_zero_frac by assumption.
      destruct (Z.eqb_spec (f64_mag a) 0) as [E0|E0], (Z.ltb_spec 0 (f64_mag a)); try lia; reflexivity.
    + rewrite shr_div by lia.
      replace ((f64_frac a + 2 ^ 52) / 2 ^ (- (e - 0x433))) with (f64_mag a / 2 ^ 1074).
      * assert (Hlt : 0 <= f64_mag a / 2 ^ 1074 < 2 ^ 64).
        { split; [apply Z.div_pos; lia|]. apply Z.div_lt_upper_bound; [lia|].
          pose proof (f64_mag_small a 0x432 Ha ltac:(fold e; lia) ltac:(lia)). change (0x432 + 52) with 1126 in *. lia. }
        rewrite (Z.mod_small _ (2 ^ 64)) by lia. apply int64_tail; try assumption. apply Big; lia.
      * rewrite mag_of_fields by (assumption || lia). fold e.
        replace 1074 with (- (e - 0x433) + (e - 1)) by lia. rewrite Z.pow_add_r by lia.
        apply Z.div_mul_cancel_r; apply Z.pow_nonzero; lia.
Qed.

Lemma nan_frac a : f64_word a -> f64_is_nan a = (extractFloat64Exp a =? 0x7FF) && negb (f64_frac a =? 0).
Proof.
  intros Ha. unfold f64_is_nan. f_equal. unfold truthy. f_equal. rewrite lor_eq0.
  destruct (fields64 a Ha) as (_ & _ & _ & _ & H0 & H1). unfold f64_frac, val64, is_u in *. cbn [fst snd] in *.
  destruct (Z.eqb_spec (extractFloat64Frac0 a) 0), (Z.eqb_spec (extractFloat64Frac1 a) 0);
    cbn [andb]; symmetry; (apply Z.eqb_eq || apply Z.eqb_neq); lia.
Qed.

Lemma int64_pattern_huge bound st a : fp_ok st -> f64_word a -> 0x472 <= bound -> 0x472 < extractFloat64Exp a ->
  float64_to_int64_pattern bound a st =
    if bound <? extractFloat64Exp a then Some (u64 (extreme64 a), raised st float_flag_invalid) else None.
Proof.
  intros Hst Ha Hb He. destruct (fields64 a Ha) as (_ & _ & Re & Rf & _).
  unfold float64_to_int64_pattern. rewrite s16_small, frac_or_hidden, frac64_word, sign64_div by (assumption || lia).
  rewrite (proj2 (Z.leb_le 0 _)) by lia. destruct (bound <? extractFloat64Exp a).
  - unfold truthy. rewrite <- nan_frac by assumption. now apply int64_invalid.
  - unfold shl_u64. rewrite (proj2 (Z.ltb_ge _ 64)) by lia. reflexivity.
Qed.

Lemma some_fst {A B} (x y : A) (u v : B) : Some (x, u) = Some (y, v) -> x = y.
Proof. congruence. Qed.

Lemma int64_result_range st a X z st' : int64_result st a X = Some (z, st') -> is_s 64 z.
Proof.
  unfold int64_result, extreme64, is_s. change (2 ^ (64 - 1)) with (2 ^ 63). cbv zeta.
  destruct (andb _ _) eqn:E; intros H%some_fst; subst z.
  - apply andb_true_iff in E as [E1 E2]. apply Z.leb_le in E1. apply Z.ltb_lt in E2. lia.
  - destruct (f64_is_nan a || _); lia.
Qed.

Lemma signed_again st a X :
  (let* z := (fun _ => unsigned_pattern (int64_result st a X)) in ret (s64 z)) st = int64_result st a X.
Proof.
  unfold bind, unsigned_pattern. destruct (int64_result st a X) as [[z st']|] eqn:E; [|reflexivity].
  unfold ret, s64, u64. rewrite sw_uw, sw_small by (lia || exact (int64_result_range _ _ _ _ _ E)). reflexivity.
Qed.

(** The integer part of a magnitude. *)
Definition whole (a : float64) : Z := f64_mag a / 2 ^ 1074.

Lemma to_int64_reduced st a : fp_ok st -> f64_word a -> extractFloat64Exp a <= 0x472 ->
  float64_to_int64_round_to_zero a st = int64_result st a (whole a mod 2 ^ 64).
Proof.
  intros Hst Ha He. rewrite <- (signed_again st a). unfold float64_to_int64_round_to_zero, bind.
  now rewrite int64_pattern by (assumption || lia).
Qed.

Lemma whole_exp a k : f64_word a -> 0 <= k -> (whole a <? 2 ^ k) = (extractFloat64Exp a <? 0x3FF + k).
Proof.
  intros Ha Hk. pose proof (pow2_pos k Hk). unfold whole.
  destruct (Z.ltb_spec (extractFloat64Exp a) (0x3FF + k)) as [He|He].
  - apply Z.ltb_lt, Z.div_lt_upper_bound; [lia|]. rewrite Z.mul_comm, <- Z.pow_add_r by lia.
    replace (k + 1074) with (0x3FE + k + 52) by lia. apply f64_mag_small; [assumption | lia..].
  - apply Z.ltb_ge, Z.div_le_lower_bound; [lia|]. rewrite Z.mul_comm, <- Z.pow_add_r by lia.
    rewrite mag_of_fields by (assumption || lia). destruct (fields64 a Ha) as (_ & _ & _ & Hf & _).
    transitivity (2 ^ 52 * 2 ^ (extractFloat64Exp a - 1)).
    + rewrite <- Z.pow_add_r by lia. apply pow2_le; lia.
    + pose proof (pow2_pos (extractFloat64Exp a - 1) ltac:(lia)). apply Z.mul_le_mono_nonneg_r; lia.
Qed.

Lemma whole_nonneg a : f64_word a -> 0 <= whole a.
Proof. intros Ha. apply Z.div_pos; [now apply f64_mag_nonneg | lia]. Qed.

Lemma to_int64_below st a : fp_ok st -> f64_word a -> whole a < 2 ^ 64 ->
  float64_to_int64_round_to_zero a st = int64_result st a (whole a).
Proof.
  intros Hst Ha Hw. pose proof (whole_nonneg a Ha). pose proof (whole_exp a 64 Ha ltac:(lia)) as E.
  rewrite (proj2 (Z.ltb_lt _ _) Hw) in E. symmetry in E. apply Z.ltb_lt in E.
  rewrite to_int64_reduced by (assumption || lia). now rewrite Z.mod_small by lia.
Qed.

Lemma to_int64_huge st a : fp_ok st -> f64_word a -> 0x472 < extractFloat64Exp a ->
  float64_to_int64_round_to_zero a st =
    if 0x61E <? extractFloat64Exp a then Some (extreme64 a, raised st float_flag_invalid) else None.
Proof.
  intros Hst Ha He. unfold float64_to_int64_round_to_zero, bind. rewrite int64_pattern_huge by (assumption || lia).
  destruct (0x61E <? _); [|reflexivity]. unfold ret, extreme64. now destruct (f64_is_nan a || _).
Qed.

Lemma to_uint64 st a : fp_ok st -> f64_word a ->
  float64_to_uint64 a st =
    if negb (f64_frac a =? 0) then Some (0, st)
    else if extractFloat64Exp a <=? 0x472 then unsigned_pattern (int64_result st a (whole a mod 2 ^ 64))
    else if 0x61F <? extractFloat64Exp a then Some (u64 (extreme64 a), raised st float_flag_invalid) else None.
Proof.
  intros Hst Ha. unfold float64_to_uint64, truthy. rewrite frac64_word by assumption.
  destruct (f64_frac a =? 0); cbn [negb]; [|reflexivity].
  destruct (Z.leb_spec (extractFloat64Exp a) 0x472); [apply int64_pattern | apply int64_pattern_huge]; assumption || lia.
Qed.

(** C31: Conversions between double precision and integers.  To 32 bits, the routine that rounds in the
    current mode and the truncating one return the operand rounded in their mode, inexact exactly
    when it is not an integer, and on NaNs and overflow the documented extreme integer with the
    invalid exception.  To 64 bits, a double below 2^64 is truncated, with the extreme integer when
    out of range, but inexact is raised for operands below one only; from 2^64 to 2^116 the
    magnitude is reduced modulo 2^64 before the range test, then come shifts by 64 and more, and
    only from 2^544 on the exception is certain.  The unsigned routine returns zero for every
    operand with a fraction bit.  From 64-bit integers, the leading 53 bits are kept and the others
    dropped, in every rounding mode and without an exception; up to 2^53 the result is exact. *)
Theorem float64_and_integers st a : fp_ok st -> f64_word a ->
  float64_to_int32 a st = ref_int32_of64 (float_rounding_mode st) st a /\
  float64_to_int32_round_to_zero a st = ref_int32_of64 float_round_to_zero st a /\
  (whole a < 2 ^ 64 -> float64_to_int64_round_to_zero a st = int64_result st a (whole a)) /\
  (2 ^ 64 <= whole a -> float64_to_int64_round_to_zero a st =
     if whole a <? 2 ^ 116 then int64_result st a (whole a mod 2 ^ 64)
     else if whole a <? 2 ^ 544 then None else Some (extreme64 a, raised st float_flag_invalid)) /\
  float64_to_uint64 a st =
    (if negb (f64_frac a =? 0) then Some (0, st)
     else if whole a <? 2 ^ 116 then unsigned_pattern (int64_result st a (whole a mod 2 ^ 64))
     else if whole a <? 2 ^ 545 then None else Some (u64 (extreme64 a), raised st float_flag_invalid)) /\
  (forall n, is_s 64 n -> truncated n (int64_to_float64 n) /\ (Z.abs n <= 2 ^ 53 -> ref_from_int n (int64_to_float64 n))) /\
  (forall n, is_u 64 n -> truncated n (uint64_to_float64 n) /\ (n <= 2 ^ 53 -> ref_from_int n (uint64_to_float64 n))).
Proof.
  intros Hst Ha. split; [now apply float64_to_int32_correct|]. split; [now apply float64_to_int32_round_to_zero_correct|].
  split; [now apply to_int64_below|]. rewrite !whole_exp by (assumption || lia). split; [|split; [|split]].
  - intros _. destruct (Z.ltb_spec (extractFloat64Exp a) (0x3FF + 116)); [apply to_int64_reduced; assumption || lia|].
    rewrite to_int64_huge by (assumption || lia). repeat ztest; try reflexivity; lia.
  - rewrite to_uint64 by assumption. destruct (negb _); [reflexivity|]. repeat ztest; try reflexivity; lia.
  - intros n Hn. pose proof (int64_truncates n Hn). split; [assumption | intros; now apply truncated_exact].
  - intros n Hn. pose proof (uint64_truncates n Hn). split; [assumption|].
    intros. apply truncated_exact; [unfold is_u in Hn; lia | assumption].
Qed.

(** -2.75 becomes -2 without inexact; 2^64 becomes 0; 2^120 is undefined; 3 is 0 as an unsigned number;
    2^53 + 1 loses its last bit. *)
Lemma float64_and_integers_witness :
  float64_to_int64_round_to_zero (of_bits64 0xC006000000000000) fp_init = Some (-2, fp_init) /\
  float64_to_int64_round_to_zero (of_bits64 0x43F0000000000000) fp_init = Some (0, fp_init) /\
  float64_to_int64_round_to_zero (of_bits64 0x4770000000000000) fp_init = None /\
  float64_to_uint64 (of_bits64 0x4008000000000000) fp_init = Some (0, fp_init) /\
  f64_val (int64_to_float64 (2 ^ 53 + 1)) = 2 ^ 53 * 2 ^ 1074.
Proof.
  assert (W : forall b, 0 <= b < 2 ^ 64 -> f64_word (of_bits64 b)) by (intros b Hb; apply (of_bits64_spec b Hb)).
  split; [|split; [|split; [|split]]].
  - rewrite (proj1 (proj2 (proj2 (float64_and_integers fp_init (of_bits64 0xC006000000000000) fp_init_ok (W 0xC006000000000000 ltac:(lia))))));
      vm_compute; reflexivity.
  - rewrite (proj1 (proj2 (proj2 (proj2 (float64_and_integers fp_init (of_bits64 0x43F0000000000000) fp_init_ok (W 0x43F0000000000000 ltac:(lia))))))).
    + vm_compute. reflexivity.
    + vm_compute. discriminate.
  - rewrite (proj1 (proj2 (proj2 (proj2 (float64_and_integers fp_init (of_bits64 0x4770000000000000) fp_init_ok (W 0x4770000000000000 ltac:(lia))))))).
    + vm_compute. reflexivity.
    + vm_compute. discriminate.
  - rewrite (proj1 (proj2 (proj2 (proj2 (proj2 (float64_and_integers fp_init (of_bits64 0x4008000000000000) fp_init_ok (W 0x4008000000000000 ltac:(lia)))))))).
    vm_compute. reflexivity.
  - destruct (proj1 (proj2 (proj2 (proj2 (proj2 (proj2 (float64_and_integers fp_init (of_bits64 0) fp_init_ok (W 0 ltac:(lia))))))))
      (2 ^ 53 + 1) ltac:(unfold is_s; lia)) as [[_ V] _]. rewrite V. vm_compute. reflexivity.
Defined.

(** The compiler-rt conversions between doubles and unsigned integers go through single precision:
    2^24 + 1 loses its last bit on either way although a double holds it. *)
Lemma unsigned_through_single :
  __floatunsidf (2 ^ 24 + 1) fp_init = Some (of_bits64 0x4170000000000000, raised fp_init float_flag_inexact) /\
  __fixunsdfsi (of_bits64 0x4170000010000000) fp_init = Some (2 ^ 24, raised fp_init float_flag_inexact).
Proof. split; vm_compute; reflexivity. Qed.
