(* ===== verification/RoundToInt.v ===== *)
(** * Rounding to an integral value

    [float32_round_to_int] and [float64_round_to_int] round the bit pattern itself: adding half
    an integer unit, or all but one, to the whole pattern lets a carry run into the exponent. *)

From S2P Require Import Prelude.
From S2P Require Import CInt.
From S2P Require Import FPState.
From S2P Require Import Rounding.
From S2P Require Import SoftFloatPrim.
From S2P Require Import Float32.
From S2P Require Import Float64.
From S2P Require Import Float32Round.
From S2P Require Import Float32Arith.
From S2P Require Import Float32MulDiv.
From S2P Require Import Float32Conv.
From S2P Require Import Float64Round.
From S2P Require Import Float64Arith.
From S2P Require Import Float64Sum.
From S2P Require Import Float64MulDiv.
From S2P Require Import Float64Conv.
From S2P Require Import Float64Int.

(** ** Rounding by adding and masking *)

Lemma land_not_word z m : is_u 32 z -> is_u 32 m -> z &&& u32 (Z.lnot m) = Z.ldiff z m.
Proof.
  intros Hz Hm. apply Z.bits_inj'. intros i Hi. rewrite Z.land_spec, Z.ldiff_spec. unfold u32, uw.
  destruct (Z.lt_ge_cases i 32).
  - rewrite Z.mod_pow2_bits_low, Z.lnot_spec by lia. reflexivity.
  - rewrite <- (Z.mod_small z (2 ^ 32)) by exact Hz. rewrite Z.mod_pow2_bits_high by lia. reflexivity.
Qed.

Lemma ldiff_word z m : is_u 32 z -> is_u 32 (Z.ldiff z m).
Proof.
  intros Hz. assert (E : Z.ldiff z m mod 2 ^ 32 = Z.ldiff z m).
  { apply Z.bits_inj'. intros i Hi. destruct (Z.lt_ge_cases i 32).
    - now rewrite Z.mod_pow2_bits_low by lia.
    - rewrite Z.mod_pow2_bits_high, Z.ldiff_spec by lia.
      rewrite <- (Z.mod_small z (2 ^ 32)) by exact Hz. now rewrite Z.mod_pow2_bits_high by lia. }
  unfold is_u. rewrite <- E. apply Z.mod_pos_bound. lia.
Qed.

(** Clearing the bits below [d]. *)
Lemma clear_below z d : is_u 32 z -> 0 <= d <= 32 -> z &&& u32 (Z.lnot (2 ^ d - 1)) = z / 2 ^ d * 2 ^ d.
Proof.
  intros Hz Hd. pose proof (pow2_pos d ltac:(lia)). pose proof (pow2_le d 32 ltac:(lia) ltac:(lia)).
  rewrite land_not_word by (assumption || (unfold is_u; lia)).
  replace (2 ^ d - 1) with (Z.ones d) by (rewrite Z.ones_equiv; lia).
  now rewrite Z.ldiff_ones_r, Z.shiftl_mul_pow2, Z.shiftr_div_pow2 by lia.
Qed.

(** Clearing bit [d] as well. *)
Lemma clear_bit_below z d : is_u 32 z -> 0 <= d < 32 ->
  (z &&& u32 (Z.lnot (2 ^ d))) &&& u32 (Z.lnot (2 ^ d - 1)) = z / 2 ^ (d + 1) * 2 ^ (d + 1).
Proof.
  intros Hz Hd. pose proof (pow2_pos d ltac:(lia)). pose proof (pow2_lt d 32 ltac:(lia) ltac:(lia)).
  pose proof (pow2_le (d + 1) 32 ltac:(lia) ltac:(lia)) as H1.
  rewrite (land_not_word z (2 ^ d)) by (assumption || (unfold is_u; lia)).
  rewrite land_not_word by ((apply ldiff_word; assumption) || (unfold is_u; lia)).
  rewrite <- clear_below, land_not_word by (assumption || lia || (unfold is_u; lia)).
  rewrite Z.ldiff_ldiff_l. f_equal. rewrite (lor_add _ _ d) by (lia || apply Z.mod_same; lia).
  rewrite pow2_succ by lia. lia.
Qed.

(** Rounding to nearest by adding one half; a tie drops the last bit too. *)
Lemma round_half s N h : 0 < h ->
  round_q float_round_nearest_even s N (2 * h) =
  if (N + h) mod (2 * h) =? 0 then 2 * ((N + h) / (2 * (2 * h))) else (N + h) / (2 * h).
Proof.
  intros Hh. unfold round_q, rounds_away. rewrite Z.eqb_refl.
  pose proof (Z.div_mod N (2 * h) ltac:(lia)) as E. pose proof (Z.mod_pos_bound N (2 * h) ltac:(lia)) as Hr.
  set (q := N / (2 * h)) in *. set (r := N mod (2 * h)) in *. clearbody q r. subst N.
  destruct (Z.compare_spec (2 * r) (2 * h)) as [C|C|C].
  - assert (r = h) as -> by lia. replace (2 * h * q + h + h) with ((q + 1) * (2 * h)) by ring.
    rewrite Z.mod_mul, Z.eqb_refl by lia. rewrite Z.div_mul_cancel_r by lia.
    rewrite Zodd_mod. destruct (Z.eqb_spec (q mod 2) 1); cbn [b2z]; dlia.
  - rewrite <- (Z.mod_unique (2 * h * q + r + h) (2 * h) q (r + h)) by lia.
    rewrite (proj2 (Z.eqb_neq _ 0)), (div_eq _ _ q) by nia. cbn [b2z]. lia.
  - rewrite <- (Z.mod_unique (2 * h * q + r + h) (2 * h) (q + 1) (r - h)) by lia.
    rewrite (proj2 (Z.eqb_neq _ 0)), (div_eq _ _ (q + 1)) by nia. cbn [b2z]. lia.
Qed.

Lemma ceil_div N D : 0 < D -> (N + (D - 1)) / D = N / D + b2z (negb (N mod D =? 0)).
Proof.
  intros HD. pose proof (Z.div_mod N D ltac:(lia)) as E. pose proof (Z.mod_pos_bound N D HD) as Hr.
  set (q := N / D) in *. set (r := N mod D) in *. clearbody q r. subst N.
  destruct (Z.eqb_spec r 0); cbn [negb b2z]; [rewrite (div_eq _ _ q) by nia | rewrite (div_eq _ _ (q + 1)) by nia]; lia.
Qed.

(** The directed modes: truncation, or adding all but one. *)
Definition away_mode (mode : Z) (s : bool) : bool :=
  negb (mode =? float_round_to_zero) && xorb s (mode =? float_round_up).

Lemma round_directed mode s N D : 0 <= mode <= 3 -> mode <> float_round_nearest_even -> 0 < D ->
  round_q mode s N D = if away_mode mode s then (N + (D - 1)) / D else N / D.
Proof.
  intros Hm Hn HD. unfold round_q, rounds_away, away_mode. rewrite (proj2 (Z.eqb_neq mode _)) by assumption.
  rewrite ceil_div by assumption.
  unfold float_round_nearest_even, float_round_to_zero, float_round_up, float_round_down in *.
  assert (C : mode = 1 \/ mode = 2 \/ mode = 3) by lia.
  destruct C as [-> | [-> | ->]], s; cbn [Z.eqb Pos.eqb negb xorb andb]; rewrite ?andb_true_r, ?andb_false_r;
    cbn [b2z]; lia.
Qed.

(** Rounding is not disturbed by a multiple of two units. *)
Lemma round_q_offset mode s B N D : 0 < D ->
  round_q mode s (B * (2 * D) + N) D = 2 * B + round_q mode s N D.
Proof.
  intros HD. unfold round_q. replace (B * (2 * D) + N) with (N + 2 * B * D) by ring.
  rewrite Z.div_add, Z.mod_add by lia.
  assert (E : rounds_away mode s (N / D + 2 * B) (N mod D) D = rounds_away mode s (N / D) (N mod D) D).
  { unfold rounds_away. destruct (mode =? _); [|reflexivity]. destruct (_ ?= _); try reflexivity.
    now rewrite Z.odd_add_mul_2. }
  rewrite E. lia.
Qed.

(** ** Single precision *)

(** [z] is the integral value nearest to [a] in the rounding mode of [st], with the sign of [a]. *)
Definition integral32 (st : fpstate) (a z : Z) : Prop :=
  is_u 32 z /\ f32_sign z = f32_sign a /\
  f32_mag z = round_q (float_rounding_mode st) (truthy (f32_sign a)) (f32_mag a) (2 ^ 149) * 2 ^ 149.

(** A pattern whose units are [2^d] has an integral value. *)
Lemma pattern_value s e d n : is_flag s -> 1 <= d <= 23 -> e = 0x96 - d -> 2 ^ (23 - d) <= n <= 2 ^ (24 - d) ->
  let z := s * 2 ^ 31 + ((e - 1) * 2 ^ 23 + n * 2 ^ d) in
  is_u 32 z /\ f32_sign z = s /\ f32_mag z = n * 2 ^ 149.
Proof.
  intros Hs Hd -> Hn z. pose proof (pow2_pos d ltac:(lia)).
  assert (E23 : 2 ^ 23 = 2 ^ (23 - d) * 2 ^ d) by (rewrite <- Z.pow_add_r by lia; f_equal; lia).
  assert (E24 : 2 ^ 24 = 2 ^ (24 - d) * 2 ^ d) by (rewrite <- Z.pow_add_r by lia; f_equal; lia).
  assert (Hr : 2 ^ 23 <= n * 2 ^ d <= 2 ^ 24) by nia.
  assert (Hz : 0 <= (150 - d - 1) * 2 ^ 23 + n * 2 ^ d < 2 ^ 31) by lia.
  unfold z, f32_sign, f32_mag, is_u. split; [destruct Hs as [-> | ->]; lia|]. split.
  - rewrite Z.div_add_l, Z.div_small by lia. lia.
  - rewrite Z.add_comm, Z.mod_add, Z.mod_small by lia.
    change (2 ^ 23) with (2 ^ (24 - 1)). rewrite mag_val_enc by (change (24 - 1) with 23; lia).
    rewrite <- Z.mul_assoc, <- Z.pow_add_r by lia. do 2 f_equal. lia.
Qed.

(** The pattern above its integral unit. *)
Lemma pattern_split a : is_u 32 a -> 0x7F <= extractFloat32Exp a < 0x96 ->
  let d := 0x96 - extractFloat32Exp a in
  a = f32_sign a * 2 ^ 31 + ((extractFloat32Exp a - 1) * 2 ^ 23 + sig32 a) /\
  exists B, f32_sign a * 2 ^ 31 + (extractFloat32Exp a - 1) * 2 ^ 23 = B * (2 * 2 ^ d).
Proof.
  intros Ha He d. destruct (fields32 a Ha) as (Eq & _ & _ & _). destruct (larger32 a ltac:(lia)) as [_ S1].
  rewrite sign32_div in Eq. change (a / 2 ^ 31) with (f32_sign a) in Eq. split; [lia|].
  destruct (Z.eq_dec d 23) as [E|E].
  - exists (f32_sign a * 2 ^ 7 + 63). rewrite E. replace (extractFloat32Exp a) with 127 by (unfold d in E; lia). lia.
  - exists ((f32_sign a * 2 ^ 8 + (extractFloat32Exp a - 1)) * 2 ^ (22 - d)).
    replace (2 * 2 ^ d) with (2 ^ (d + 1)) by (rewrite pow2_succ; unfold d; lia).
    rewrite <- Z.mul_assoc, <- Z.pow_add_r by (unfold d in *; lia).
    replace (22 - d + (d + 1)) with 23 by lia. lia.
Qed.

(** The significand's fraction is the value's. *)
Lemma value_fraction a : is_u 32 a -> 0x7F <= extractFloat32Exp a < 0x96 ->
  let d := 0x96 - extractFloat32Exp a in
  (forall mode s, round_q mode s (f32_mag a) (2 ^ 149) = round_q mode s (sig32 a) (2 ^ d)) /\
  (f32_mag a mod 2 ^ 149 =? 0) = (sig32 a mod 2 ^ d =? 0).
Proof.
  intros Ha He d. destruct (larger32 a ltac:(lia)) as [E1 _].
  assert (E : f32_mag a * 2 ^ d = sig32 a * 2 ^ 149).
  { rewrite f32_mag_sig, E1, <- Z.mul_assoc, <- Z.pow_add_r by (assumption || (unfold d; lia)).
    do 2 f_equal. unfold d. lia. }
  pose proof (pow2_pos d ltac:(unfold d; lia)). split.
  - intros mode s. pose proof (round_q_frac mode s (f32_mag a) (2 ^ 149) (sig32 a) (2 ^ d) 1) as R.
    rewrite !Z.mul_1_r in R. now apply R; lia.
  - destruct (frac_ext (f32_mag a) (2 ^ 149) (sig32 a) (2 ^ d) 1) as (_ & _ & F); try lia.
    now rewrite !Z.mul_1_r in F.
Qed.

(** The masks. *)
Lemma last_bit_mask d : 0 <= d < 32 -> u32 (1 << d) = 2 ^ d /\ u32 (2 ^ d - 1) = 2 ^ d - 1 /\
  (0 < d -> 2 ^ d >> 1 = 2 ^ (d - 1)).
Proof.
  intros Hd. pose proof (pow2_pos d ltac:(lia)). pose proof (pow2_lt d 32 ltac:(lia) ltac:(lia)).
  rewrite Z.shiftl_mul_pow2, Z.mul_1_l, !u32_small by lia. split; [reflexivity|]. split; [reflexivity|].
  intros H1. rewrite shiftr_1. symmetry. apply Z.div_unique_exact; [lia|]. rewrite <- pow2_succ by lia. f_equal. lia.
Qed.

(** Rounding a word to a multiple of [2^d]. *)
Lemma round_word mode s a d : 0 <= mode <= 3 -> is_u 32 a -> a + 2 ^ d < 2 ^ 32 -> 1 <= d < 32 ->
  (let z :=
     if mode =? float_round_nearest_even then
       let z := u32 (a + 2 ^ (d - 1)) in
       if (z &&& (2 ^ d - 1)) =? 0 then z &&& u32 (Z.lnot (2 ^ d)) else z
     else if negb (mode =? float_round_to_zero) then
       if xorb s (mode =? float_round_up) then u32 (a + (2 ^ d - 1)) else a
     else a in
   z &&& u32 (Z.lnot (2 ^ d - 1))) = round_q mode s a (2 ^ d) * 2 ^ d.
Proof.
  intros Hm Ha Hb Hd. pose proof (pow2_pos (d - 1) ltac:(lia)) as Hp.
  assert (E : 2 ^ d = 2 * 2 ^ (d - 1)) by (rewrite <- pow2_succ by lia; f_equal; lia).
  unfold is_u in Ha. cbv zeta. destruct (Z.eqb_spec mode float_round_nearest_even) as [->|Hn].
  - rewrite u32_small, land_ones_mod by lia. rewrite E at 4. rewrite round_half, <- E by lia.
    destruct (Z.eqb_spec ((a + 2 ^ (d - 1)) mod 2 ^ d) 0).
    + rewrite clear_bit_below by (lia || (unfold is_u; lia)). rewrite pow2_succ by lia. lia.
    + now rewrite clear_below by (lia || (unfold is_u; lia)).
  - rewrite round_directed by lia. unfold away_mode.
    destruct (negb (mode =? float_round_to_zero)); cbn [andb]; [destruct (xorb _ _)|];
      rewrite ?u32_small by lia; now rewrite clear_below by (lia || (unfold is_u; lia)).
Qed.

(** Values below one become a zero or a one. *)
Lemma unit_value a c st : is_u 32 a -> f32_mag a < 2 ^ 149 ->
  c = rounds_away (float_rounding_mode st) (truthy (f32_sign a)) 0 (f32_mag a) (2 ^ 149) ->
  integral32 st a (f32_sign a * 2 ^ 31 + (if c then 0x7F * 2 ^ 23 else 0)).
Proof.
  intros Ha Hm Hc. pose proof (f32_mag_nonneg a Ha) as H0. unfold integral32, round_q.
  rewrite Z.div_small, Z.mod_small, <- Hc by lia. cbn [Z.add].
  pose proof (f32_sign_flag a Ha) as Hs. unfold f32_sign, f32_mag, is_u in *.
  destruct Hs as [-> | ->], c; (split; [lia|]; split; [reflexivity|]); reflexivity.
Qed.

(** Magnitudes below one: a nearest value of one above one half only. *)
Lemma below_one32 st a : is_u 32 a -> extractFloat32Exp a <= 0x7E -> f32_mag a <> 0 ->
  let mode := float_rounding_mode st in
  0 <= mode <= 3 ->
  f32_mag a < 2 ^ 149 /\
  rounds_away mode (truthy (f32_sign a)) 0 (f32_mag a) (2 ^ 149) =
  if mode =? float_round_nearest_even then (extractFloat32Exp a =? 0x7E) && truthy (extractFloat32Frac a)
  else if mode =? float_round_down then truthy (f32_sign a)
  else if mode =? float_round_up then negb (truthy (f32_sign a)) else false.
Proof.
  intros Ha He Hnz mode Hm. pose proof (f32_mag_small a 0x7E Ha He ltac:(lia)) as Hs.
  change (2 ^ (126 + 23)) with (2 ^ 149) in Hs. pose proof (f32_mag_nonneg a Ha) as H0.
  split; [assumption|]. unfold rounds_away. rewrite (proj2 (Z.eqb_neq (f32_mag a) 0)) by lia.
  unfold float_round_nearest_even, float_round_down, float_round_up, float_round_to_zero.
  assert (C : mode = 0 \/ mode = 1 \/ mode = 2 \/ mode = 3) by lia.
  destruct C as [-> | [-> | [-> | ->]]]; cbn [Z.eqb Pos.eqb negb andb];
    [|now destruct (truthy (f32_sign a))..].
  destruct (fields32 a Ha) as (_ & _ & _ & Hf). unfold truthy.
  destruct (Z.eqb_spec (extractFloat32Exp a) 0x7E) as [E|E]; cbn [andb].
  - destruct (larger32 a ltac:(lia)) as [E1 S1]. rewrite f32_mag_sig, E1, E, S1 by assumption.
    destruct (Z.eqb_spec (extractFloat32Frac a) 0) as [F|F]; cbn [negb].
    + now rewrite F.
    + rewrite (proj2 (Z.compare_gt_iff _ _)) by lia. reflexivity.
  - pose proof (f32_mag_small a 0x7D Ha ltac:(lia) ltac:(lia)) as Hh. change (2 ^ (125 + 23)) with (2 ^ 148) in Hh.
    rewrite (proj2 (Z.compare_lt_iff _ _)) by lia. reflexivity.
Qed.

Lemma float32_round_to_int_small st a : fp_ok st -> is_u 32 a -> extractFloat32Exp a <= 0x7E ->
  exists z, float32_round_to_int a st
    = Some (z, if f32_mag a mod 2 ^ 149 =? 0 then st else raised st float_flag_inexact) /\
    integral32 st a z.
Proof.
  intros Hst Ha Hs. pose proof (mode_ok st Hst) as Hm. pose proof (f32_mag_nonneg a Ha) as H0.
  unfold float32_round_to_int.
  rewrite (proj2 (Z.leb_gt 0x96 (extractFloat32Exp a))), (proj2 (Z.leb_le (extractFloat32Exp a) 0x7E)) by lia.
  pose proof (truthy_shl a 1 ltac:(lia)) as T. unfold truthy in T. change (32 - 1) with 31 in T.
  apply (f_equal negb) in T. rewrite !negb_involutive in T. rewrite T.
  assert (Z0 : (f32_mag a =? 0) = (a mod 2 ^ 31 =? 0)).
  { unfold f32_mag. rewrite !Z.eqb_compare. rewrite <- (mag_val_0 24) at 1.
    rewrite mag_val_compare; [reflexivity | lia | apply Z.mod_pos_bound; lia | lia]. }
  rewrite <- Z0. destruct (Z.eqb_spec (f32_mag a) 0) as [Mz|Mz].
  + exists a. unfold ret, integral32. rewrite Mz, round_q_exact by (lia || reflexivity). repeat split; apply Ha.
  + destruct (below_one32 st a Ha Hs Mz Hm) as [Hb Hc]. rewrite Z.mod_small, (proj2 (Z.eqb_neq _ 0) Mz) by lia.
    unfold bind at 1. rewrite float_raise_eq by (assumption || flag_range). unfold bind, get_mode, ret.
    cbn [float_rounding_mode raised]. set (mode := float_rounding_mode st) in *. rewrite sign32_div.
    change (a / 2 ^ 31) with (f32_sign a). pose proof (f32_sign_flag a Ha) as Hf.
    rewrite !packFloat32_eq by (assumption || lia).
    eexists. split; [reflexivity|]. eapply eq_ind; [apply (unit_value a _ st Ha Hb eq_refl)|].
    fold mode. rewrite Hc. destruct Hf as [-> | ->]; destruct (mode =? float_round_nearest_even),
      (mode =? float_round_down), (mode =? float_round_up),
      ((extractFloat32Exp a =? 0x7E) && truthy (extractFloat32Frac a)); reflexivity.
Qed.

Lemma float32_round_to_int_fraction st a : fp_ok st -> is_u 32 a -> 0x7F <= extractFloat32Exp a < 0x96 ->
  exists z, float32_round_to_int a st
    = Some (z, if f32_mag a mod 2 ^ 149 =? 0 then st else raised st float_flag_inexact) /\
    integral32 st a z.
Proof.
  intros Hst Ha He. destruct (fields32 a Ha) as (Eq & _ & Hr & Hfr). pose proof (mode_ok st Hst) as Hm.
  unfold float32_round_to_int.
  rewrite (proj2 (Z.leb_gt 0x96 (extractFloat32Exp a))), (proj2 (Z.leb_gt (extractFloat32Exp a) 0x7E)) by lia.
  destruct (pattern_split a Ha ltac:(lia)) as [Ea [B EB]]. destruct (value_fraction a Ha ltac:(lia)) as [Ev Ef].
  set (d := 0x96 - extractFloat32Exp a) in *. assert (Hd : 1 <= d <= 23) by (unfold d; lia).
  destruct (last_bit_mask d ltac:(lia)) as (M1 & M2 & M3). rewrite M1, M2, M3 by lia.
  unfold bind at 1, get_mode. set (mode := float_rounding_mode st) in *. rewrite sign32_div.
  change (a / 2 ^ 31) with (f32_sign a). pose proof (f32_sign_flag a Ha) as Hf.
  pose proof (pow2_le d 23 ltac:(lia) ltac:(lia)) as Hp. pose proof (pow2_pos d ltac:(lia)).
  destruct (larger32 a ltac:(lia)) as [_ S1]. pose proof (sig32_range a Ha) as HS.
  assert (Hb : a + 2 ^ d < 2 ^ 32) by (destruct Hf as [E|E]; rewrite E in Ea; lia).
  pose proof (round_word mode (truthy (f32_sign a)) a d Hm Ha Hb ltac:(lia)) as Rw. cbv zeta in Rw |- *.
  rewrite Rw, inexact_ret by assumption. clear Rw.
  set (n := round_q mode (truthy (f32_sign a)) (sig32 a) (2 ^ d)).
  assert (Ez : round_q mode (truthy (f32_sign a)) a (2 ^ d) * 2 ^ d
    = f32_sign a * 2 ^ 31 + ((extractFloat32Exp a - 1) * 2 ^ 23 + n * 2 ^ d)).
  { rewrite Ea at 2. rewrite Z.add_assoc, EB, round_q_offset by lia. fold n.
    rewrite Z.add_assoc, EB. ring. }
  rewrite Ez. eexists. split.
  + do 2 f_equal. rewrite Ef. destruct (Z.eqb_spec (sig32 a mod 2 ^ d) 0) as [Fz|Fz].
    * rewrite (proj2 (Z.eqb_eq _ a)); [reflexivity|]. rewrite Ea at 3. unfold n.
      rewrite round_q_exact by lia. pose proof (Z.div_mod (sig32 a) (2 ^ d)). lia.
    * rewrite (proj2 (Z.eqb_neq _ a)); [reflexivity|]. intros F. rewrite Ea in F at 3. apply Fz.
      assert (Es : sig32 a = n * 2 ^ d) by lia. rewrite Es. apply Z.mod_mul. lia.
  + unfold integral32. fold mode. rewrite Ev. fold n. apply pattern_value; try assumption; [unfold d; lia|].
    assert (E23 : 2 ^ 23 = 2 ^ (23 - d) * 2 ^ d) by (rewrite <- Z.pow_add_r by lia; f_equal; lia).
    assert (E24 : 2 ^ 24 = 2 ^ (24 - d) * 2 ^ d) by (rewrite <- Z.pow_add_r by lia; f_equal; lia).
    split; [apply round_q_ge | apply round_q_le]; lia.
Qed.

Lemma float32_round_to_int_finite st a : fp_ok st -> is_u 32 a -> extractFloat32Exp a < 0xFF ->
  exists z, float32_round_to_int a st
    = Some (z, if f32_mag a mod 2 ^ 149 =? 0 then st else raised st float_flag_inexact) /\
    integral32 st a z.
Proof.
  intros Hst Ha He. destruct (Z.le_gt_cases (extractFloat32Exp a) 0x7E) as [Hs|Hs];
    [now apply float32_round_to_int_small|].
  destruct (Z.lt_ge_cases (extractFloat32Exp a) 0x96) as [Hl|Hl];
    [now apply float32_round_to_int_fraction; [| |lia]|].
  unfold float32_round_to_int. rewrite (proj2 (Z.leb_le 0x96 _) Hl), (proj2 (Z.eqb_neq _ 0xFF)) by lia.
  cbn [andb]. exists a. unfold ret, integral32.
  rewrite (f32_mag_integer a Ha Hl), Z.mod_mul, round_q_exact, Z.div_mul by (lia || (apply Z.mod_mul; lia)).
  repeat split; assumption || apply Ha.
Qed.

(** Rounding a single-precision number to an integral value gives, for every finite operand and
    rounding mode, the float of the same sign whose value is the integer the mode selects, zeros
    included, and raises inexact exactly when the operand was not an integer; infinities are
    returned unchanged and NaNs propagate. *)
Lemma float32_round_to_int_correct st a : fp_ok st -> is_u 32 a ->
  if f32_is_nan a then float32_round_to_int a st = propagateFloat32NaN a a st
  else if f32_is_inf a then float32_round_to_int a st = Some (a, st)
  else exists z, float32_round_to_int a st
    = Some (z, if f32_mag a mod 2 ^ 149 =? 0 then st else raised st float_flag_inexact) /\
    integral32 st a z.
Proof.
  intros Hst Ha. destruct (fields32 a Ha) as (_ & _ & He & _).
  destruct (Z.eq_dec (extractFloat32Exp a) 0xFF) as [E|E].
  - unfold f32_is_nan, f32_is_inf, float32_round_to_int, truthy. rewrite E. cbn [Z.eqb Pos.eqb Z.leb andb].
    now destruct (extractFloat32Frac a =? 0).
  - destruct (nonspecial32 a E) as [-> ->]. apply float32_round_to_int_finite; try assumption. lia.
Qed.
