(* ===== verification/RoundToInt64.v ===== *)
(** * Rounding a double to an integral value

    The 64-bit pattern is rounded across its two words, the unit being in the lower or in the
    upper one. *)

From S2P Require Import Prelude.
From S2P Require Import CInt.
From S2P Require Import FPState.
From S2P Require Import Rounding.
From S2P Require Import SoftFloatPrim.
From S2P Require Import Float32.
From S2P Require Import Float64.
From S2P Require Import Float32Round.
From S2P Require Import Float32Arith.
From S2P Require Import Float32MulDiv.
From S2P Require Import Float32Conv.
From S2P Require Import Float64Round.
From S2P Require Import Float64Arith.
From S2P Require Import Float64Sum.
From S2P Require Import Float64MulDiv.
From S2P Require Import Float64Div.
From S2P Require Import Float64Compare.
From S2P Require Import Float64Conv.
From S2P Require Import Float64Int.
From S2P Require Import RoundToInt.

(** [z] is the integral value nearest to [a] in the rounding mode of [st], with the sign of [a]. *)
Definition integral64 (st : fpstate) (a z : float64) : Prop :=
  f64_word z /\ f64_sign z = f64_sign a /\
  f64_mag z = round_q (float_rounding_mode st) (truthy (f64_sign a)) (f64_mag a) (2 ^ 1074) * 2 ^ 1074.

(** ** Rounding two words *)

(** Division of a two-word number by a power of two up to one word keeps the upper word. *)
Lemma clear_low_words h l d : 0 <= d <= 32 ->
  h * 2 ^ 32 + l / 2 ^ d * 2 ^ d = (h * 2 ^ 32 + l) / 2 ^ d * 2 ^ d.
Proof.
  intros Hd. pose proof (pow2_pos d ltac:(lia)).
  assert (E : 2 ^ 32 = 2 ^ (32 - d) * 2 ^ d) by (rewrite <- Z.pow_add_r by lia; f_equal; lia).
  rewrite E. replace (h * (2 ^ (32 - d) * 2 ^ d) + l) with (h * 2 ^ (32 - d) * 2 ^ d + l) by ring.
  rewrite Z.div_add_l by lia. ring.
Qed.

(** An addition to the lower word that does not overflow. *)
Lemma add_low_words h l x : words64 (h, l) -> is_u 32 x -> val64 (h, l) + x < 2 ^ 64 ->
  let '(h', l') := add64 h l 0 x in words64 (h', l') /\ h' * 2 ^ 32 + l' = h * 2 ^ 32 + l + x.
Proof.
  intros Hw Hx Hb. destruct (add64_val h l 0 x Hw) as [W V]; [split; [apply zero_word; lia|exact Hx]|].
  destruct (add64 h l 0 x) as [h' l']. split; [exact W|]. destruct Hw as [H0 H1].
  unfold val64, is_u in *. cbn [fst snd] in *. rewrite V, Z.mod_small; lia.
Qed.

(** Clearing the bits below the unit in the lower word. *)
Lemma clear_words h l d : words64 (h, l) -> 0 <= d <= 32 ->
  words64 (h, l &&& u32 (Z.lnot (2 ^ d - 1))) /\
  h * 2 ^ 32 + (l &&& u32 (Z.lnot (2 ^ d - 1))) = (h * 2 ^ 32 + l) / 2 ^ d * 2 ^ d.
Proof.
  intros [W0 W1] Hd. cbn [fst snd] in *. rewrite clear_below by assumption. pose proof (pow2_pos d ltac:(lia)).
  split; [split; [assumption|]|now apply clear_low_words]. cbn [snd]. unfold is_u in *.
  pose proof (div_bounds l (2 ^ d) ltac:(lia)). pose proof (Z.div_pos l (2 ^ d) ltac:(lia) ltac:(lia)). lia.
Qed.

(** To nearest, with the unit in the lower word or just above it. *)
Lemma round_nearest_low s h l d : words64 (h, l) -> h * 2 ^ 32 + l + 2 ^ d < 2 ^ 64 -> 1 <= d <= 32 ->
  let z :=
    if truthy (2 ^ d mod 2 ^ 32) then
      let '(zhigh, zlow) := add64 h l 0 ((2 ^ d mod 2 ^ 32) >> 1) in
      mk_float64 zhigh
        (if (zlow &&& (2 ^ d - 1)) =? 0 then zlow &&& u32 (Z.lnot (2 ^ d mod 2 ^ 32)) else zlow)
    else if s32 l <? 0 then
      let zhigh := u32 (h + 1) in
      mk_float64 (if u32 (l << 1) =? 0 then zhigh &&& u32 (Z.lnot 1) else zhigh) l
    else mk_float64 h l in
  let l' := low z &&& u32 (Z.lnot (2 ^ d - 1)) in
  words64 (high z, l') /\
  high z * 2 ^ 32 + l' = round_q float_round_nearest_even s (h * 2 ^ 32 + l) (2 ^ d) * 2 ^ d.
Proof.
  intros Ha Hb Hd. pose proof (pow2_pos (d - 1) ltac:(lia)) as Hp.
  assert (E : 2 ^ d = 2 * 2 ^ (d - 1)) by (rewrite <- pow2_succ by lia; f_equal; lia).
  replace (round_q float_round_nearest_even s (h * 2 ^ 32 + l) (2 ^ d))
    with (round_q float_round_nearest_even s (h * 2 ^ 32 + l) (2 * 2 ^ (d - 1))) by now rewrite E.
  rewrite round_half, <- E by lia. cbv zeta. destruct (Z.eq_dec d 32) as [->|Hd32].
  - change (2 ^ 32 mod 2 ^ 32) with 0. change (truthy 0) with false. cbv iota. change (32 - 1) with 31.
    destruct Ha as [H0 H1]. cbn [fst snd] in *. rewrite s32_neg by assumption. unfold is_u in H0, H1.
    destruct (Z.leb_spec (2 ^ 31) l) as [Hl|Hl]; cbn [high low].
    + rewrite (u32_small (h + 1)), clear_below, (Z.div_small l (2 ^ 32)) by (lia || (unfold is_u; lia)).
      assert (Em : (h * 2 ^ 32 + l + 2 ^ 31) mod 2 ^ 32 = l - 2 ^ 31) by dlia.
      assert (Et : (u32 (l << 1) =? 0) = (l - 2 ^ 31 =? 0)).
      { pose proof (truthy_shl l 1 ltac:(lia)) as T. unfold truthy in T. apply (f_equal negb) in T.
        rewrite !negb_involutive in T. rewrite T. change (32 - 1) with 31.
        destruct (Z.eqb_spec (l mod 2 ^ 31) 0), (Z.eqb_spec (l - 2 ^ 31) 0); try reflexivity; exfalso; dlia. }
      rewrite Em, Et. destruct (Z.eqb_spec (l - 2 ^ 31) 0).
      * rewrite mask_clear by lia. split; [split; cbn [fst snd]; unfold is_u; dlia|]. dlia.
      * split; [split; cbn [fst snd]; unfold is_u; lia|]. dlia.
    + rewrite clear_below by (lia || assumption). rewrite (Z.div_small l) by lia.
      split; [split; cbn [fst snd]; unfold is_u; lia|].
      rewrite (proj2 (Z.eqb_neq _ 0)) by dlia. dlia.
  - pose proof (pow2_lt d 32 ltac:(lia) ltac:(lia)) as Hlt. rewrite (Z.mod_small (2 ^ d)) by lia.
    unfold truthy. rewrite (proj2 (Z.eqb_neq (2 ^ d) 0)) by lia. cbn [negb].
    replace ((2 ^ d) >> 1) with (2 ^ (d - 1)) by (rewrite shiftr_1, E; dlia).
    pose proof (add_low_words h l (2 ^ (d - 1)) Ha ltac:(unfold is_u; lia)) as A.
    unfold val64 in A. cbn [fst snd] in A. specialize (A ltac:(lia)).
    destruct (add64 h l 0 (2 ^ (d - 1))) as [h' l']. destruct A as [W <-]. cbn [high low].
    rewrite land_ones_mod, mod_two_words_lo by lia. destruct (Z.eqb_spec (l' mod 2 ^ d) 0).
    + destruct W as [W0 W1]. cbn [fst snd] in *. rewrite clear_bit_below by (assumption || lia).
      pose proof (pow2_pos (d + 1) ltac:(lia)). rewrite clear_low_words by lia.
      assert (E1 : 2 * 2 ^ d = 2 ^ (d + 1)) by (rewrite <- pow2_succ; lia). rewrite E1. split; [|lia].
      split; [assumption|]. cbn [snd]. unfold is_u in *. pose proof (div_bounds l' (2 ^ (d + 1)) ltac:(lia)).
      pose proof (Z.div_pos l' (2 ^ (d + 1)) ltac:(lia) ltac:(lia)). lia.
    + apply clear_words; [assumption|lia].
Qed.

(** The unit is in the lower word, or is the whole of it. *)
Lemma round_words_large mode a d : 0 <= mode <= 3 -> f64_word a -> bits64 a + 2 ^ d < 2 ^ 64 -> 1 <= d <= 32 ->
  extractFloat64Exp a = 0x433 - d ->
  let z := float64_round_to_int_large mode (extractFloat64Exp a) a in
  f64_word z /\ bits64 z = round_q mode (truthy (f64_sign a)) (bits64 a) (2 ^ d) * 2 ^ d.
Proof.
  intros Hm Ha Hb Hd ->. unfold float64_round_to_int_large. rewrite sign64_div.
  replace (0x432 - (0x433 - d)) with (d - 1) by lia.
  generalize (truthy (f64_sign a)). intros s. destruct a as [h l]. unfold f64_word, bits64 in *.
  cbn [high low] in *. pose proof Ha as [H0 H1]. cbn [fst snd] in *. pose proof (pow2_pos (d - 1) ltac:(lia)) as Hp.
  assert (E : 2 ^ d = 2 * 2 ^ (d - 1)) by (rewrite <- pow2_succ by lia; f_equal; lia).
  pose proof (pow2_le d 32 ltac:(lia) ltac:(lia)) as Hd32.
  assert (M1 : u32 (u32 (1 << (d - 1)) << 1) = 2 ^ d mod 2 ^ 32).
  { rewrite (Z.shiftl_mul_pow2 1), (Z.mul_1_l (2 ^ (d - 1))), (u32_small (2 ^ (d - 1))), u32_mod, shiftl_1 by lia.
    now rewrite <- E. }
  assert (M2 : u32 (2 ^ d mod 2 ^ 32 - 1) = 2 ^ d - 1).
  { rewrite u32_mod, Zminus_mod_idemp_l. apply Z.mod_small. lia. }
  rewrite M1, M2.
  unfold val64 in *. cbn [fst snd] in *.
  destruct (Z.eqb_spec mode float_round_nearest_even) as [->|Hn].
  - apply round_nearest_low; (assumption || lia).
  - rewrite round_directed by lia. unfold away_mode.
    destruct (negb (mode =? float_round_to_zero)); cbn [andb]; [|cbn [high low]; apply clear_words; (assumption || lia)].
    destruct (xorb s (mode =? float_round_up)); [|cbn [high low]; apply clear_words; (assumption || lia)].
    pose proof (add_low_words h l (2 ^ d - 1) Ha ltac:(unfold is_u; lia)) as A.
    unfold val64 in A. cbn [fst snd] in A. specialize (A ltac:(lia)).
    destruct (add64 h l 0 (2 ^ d - 1)) as [h' l']. destruct A as [W <-]. cbn [high low]. apply clear_words; (assumption || lia).
Qed.

(** The lower word collapsed into the lowest bit of the upper one is enough to round up. *)
Lemma ceil_sticky h l c : is_u 32 l -> 1 <= c ->
  ((h ||| b2z (truthy l)) + (2 ^ c - 1)) / 2 ^ c = (h * 2 ^ 32 + l + (2 ^ (32 + c) - 1)) / 2 ^ (32 + c).
Proof.
  intros Hl Hc. pose proof (pow2_pos (c - 1) ltac:(lia)) as Hp.
  assert (E : 2 ^ c = 2 * 2 ^ (c - 1)) by (rewrite <- pow2_succ by lia; f_equal; lia).
  rewrite !ceil_div by (apply pow2_pos; lia). rewrite div_two_words_hi, mod_two_words_hi by (assumption || lia).
  unfold truthy. unfold is_u in Hl. pose proof (Z.mod_pos_bound h (2 ^ c) ltac:(lia)) as Hm.
  destruct (Z.eqb_spec l 0) as [->|Hl0]; cbn [negb b2z].
  - rewrite Z.lor_0_r. do 3 f_equal. destruct (Z.eqb_spec (h mod 2 ^ c) 0), (Z.eqb_spec (h mod 2 ^ c * 2 ^ 32 + 0) 0);
      try reflexivity; lia.
  - rewrite (proj2 (Z.eqb_neq (h mod 2 ^ c * 2 ^ 32 + l) 0)) by lia. rewrite lor_1.
    assert (Ed : (2 * (h / 2) + 1) / 2 ^ c = h / 2 ^ c).
    { rewrite E, <- !Z.div_div by lia. f_equal. dlia. }
    rewrite Ed. f_equal. f_equal. f_equal. apply Z.eqb_neq. intros F.
    pose proof (Z.div_mod (2 * (h / 2) + 1) (2 ^ c) ltac:(lia)) as Dm. rewrite F, E in Dm. lia.
Qed.

(** The unit is in the upper word. *)
Lemma round_words_small mode a c : 0 <= mode <= 3 -> f64_word a -> bits64 a + 2 ^ (32 + c) < 2 ^ 64 -> 1 <= c <= 20 ->
  extractFloat64Exp a = 0x413 - c ->
  let z := float64_round_to_int_small mode (extractFloat64Exp a) a in
  f64_word z /\ bits64 z = round_q mode (truthy (f64_sign a)) (bits64 a) (2 ^ (32 + c)) * 2 ^ (32 + c).
Proof.
  intros Hm Ha Hb Hc ->. unfold float64_round_to_int_small. rewrite sign64_div.
  replace (0x413 - (0x413 - c)) with c by lia. destruct (last_bit_mask c ltac:(lia)) as (M1 & M2 & M3).
  rewrite M1, M2, M3 by lia. generalize (truthy (f64_sign a)). intros s. destruct a as [h l].
  unfold f64_word, bits64 in *. cbn [high low] in *. destruct Ha as [H0 H1]. unfold val64 in *. cbn [fst snd] in *.
  pose proof (pow2_pos (c - 1) ltac:(lia)) as Hp. pose proof (pow2_le c 20 ltac:(lia) ltac:(lia)) as H20.
  assert (E : 2 ^ c = 2 * 2 ^ (c - 1)) by (rewrite <- pow2_succ by lia; f_equal; lia).
  assert (E32 : 2 ^ (32 + c) = 2 ^ 32 * 2 ^ c) by (rewrite Z.pow_add_r; lia).
  assert (Hh : h + 2 ^ c < 2 ^ 32) by (unfold is_u in H1; lia).
  assert (Clear : forall y, is_u 32 y -> words64 (y / 2 ^ c * 2 ^ c, 0) /\
    y / 2 ^ c * 2 ^ c * 2 ^ 32 + 0 = y / 2 ^ c * 2 ^ (32 + c)).
  { intros y Hy. unfold is_u in Hy. pose proof (div_bounds y (2 ^ c) ltac:(lia)).
    pose proof (Z.div_pos y (2 ^ c) ltac:(lia) ltac:(lia)). split; [|lia]. split; cbn [fst snd]; unfold is_u; lia. }
  unfold is_u in H0. destruct (Z.eqb_spec mode float_round_nearest_even) as [->|Hn].
  - rewrite u32_small, land_ones_mod, lor_eq0 by lia.
    assert (E1 : 2 ^ (32 + c) = 2 * (2 ^ 32 * 2 ^ (c - 1))) by lia.
    replace (round_q float_round_nearest_even s (h * 2 ^ 32 + l) (2 ^ (32 + c)))
      with (round_q float_round_nearest_even s (h * 2 ^ 32 + l) (2 * (2 ^ 32 * 2 ^ (c - 1)))) by now rewrite E1.
    rewrite round_half, <- E1 by lia.
    replace (h * 2 ^ 32 + l + 2 ^ 32 * 2 ^ (c - 1)) with ((h + 2 ^ (c - 1)) * 2 ^ 32 + l) by lia.
    set (y := h + 2 ^ (c - 1)). assert (Hy : is_u 32 y) by (unfold is_u, y; lia).
    rewrite mod_two_words_hi, div_two_words_hi by (assumption || lia).
    replace (2 * 2 ^ (32 + c)) with (2 ^ (32 + (c + 1))) by (replace (32 + (c + 1)) with (32 + c + 1) by lia; apply pow2_succ; lia).
    rewrite div_two_words_hi by (assumption || lia). pose proof (Z.mod_pos_bound y (2 ^ c) ltac:(lia)) as Hr.
    assert (Et : (y mod 2 ^ c =? 0) && (l =? 0) = (y mod 2 ^ c * 2 ^ 32 + l =? 0)).
    { unfold is_u in H1. destruct (Z.eqb_spec (y mod 2 ^ c) 0), (Z.eqb_spec l 0), (Z.eqb_spec (y mod 2 ^ c * 2 ^ 32 + l) 0);
        try reflexivity; lia. }
    rewrite Et. destruct (Z.eqb_spec (y mod 2 ^ c * 2 ^ 32 + l) 0).
    + rewrite clear_bit_below, pow2_succ by (assumption || lia). unfold is_u in Hy.
      set (q := y / (2 * 2 ^ c)). pose proof (div_bounds y (2 * 2 ^ c) ltac:(lia)) as Hq. fold q in Hq.
      pose proof (Z.div_pos y (2 * 2 ^ c) ltac:(lia) ltac:(lia)). fold q in H.
      split; [split; cbn [fst snd]; unfold is_u; lia|]. lia.
    + rewrite clear_below by (assumption || lia). now apply Clear.
  - rewrite round_directed by (assumption || (apply pow2_pos; lia)). unfold away_mode.
    destruct (negb (mode =? float_round_to_zero)); cbn [andb];
      [|rewrite clear_below, div_two_words_hi by (assumption || lia || (unfold is_u; lia)); apply Clear; unfold is_u; lia].
    destruct (xorb s (mode =? float_round_up));
      [|rewrite clear_below, div_two_words_hi by (assumption || lia || (unfold is_u; lia)); apply Clear; unfold is_u; lia].
    assert (Ht : h <= h ||| b2z (truthy l) <= h + 1).
    { destruct (truthy l); cbn [b2z]; [rewrite lor_1; dlia | rewrite Z.lor_0_r; lia]. }
    rewrite <- ceil_sticky, u32_small, clear_below by (assumption || lia || (unfold is_u; lia)).
    apply Clear. unfold is_u. lia.
Qed.

(** ** Values *)

(** The test for a zero. *)
Lemma zero_pattern64 a : f64_word a -> ((u32 (high a << 1) ||| low a) =? 0) = (f64_mag a =? 0).
Proof.
  intros Ha. destruct (sign_mag64 a Ha) as (_ & _ & _ & Hz & _). fold (f64_mag a) in Hz.
  pose proof (both_zero64 a a Ha Ha) as B. rewrite Z.lor_diag, andb_diag, <- Z.lor_assoc, Z.lor_diag in B. rewrite B.
  destruct (Z.eqb_spec (bits64 a mod 2 ^ 63) 0), (Z.eqb_spec (f64_mag a) 0); try reflexivity; tauto.
Qed.

(** A pattern whose units are [2^d] has an integral value. *)
Lemma pattern_value64 z s d n : f64_word z -> 1 <= d <= 52 -> 2 ^ (52 - d) <= n <= 2 ^ (53 - d) ->
  bits64 z = s * 2 ^ 63 + ((0x433 - d - 1) * 2 ^ 52 + n * 2 ^ d) ->
  f64_sign z = s /\ f64_mag z = n * 2 ^ 1074.
Proof.
  intros Hz Hd Hn E. pose proof (pow2_pos d ltac:(lia)).
  assert (E52 : 2 ^ 52 = 2 ^ (52 - d) * 2 ^ d) by (rewrite <- Z.pow_add_r by lia; f_equal; lia).
  assert (E53 : 2 ^ 53 = 2 ^ (53 - d) * 2 ^ d) by (rewrite <- Z.pow_add_r by lia; f_equal; lia).
  assert (Hr : 2 ^ 52 <= n * 2 ^ d <= 2 ^ 53) by nia.
  destruct (sign_of_bits z s _ Hz E) as [Es Em]; [lia|]. split; [exact Es|]. rewrite Em.
  change (2 ^ 52) with (2 ^ (53 - 1)). rewrite mag_val_enc by (change (53 - 1) with 52; lia).
  rewrite <- Z.mul_assoc, <- Z.pow_add_r by lia. do 2 f_equal. lia.
Qed.

Lemma pattern_split64 a : f64_word a -> 0x3FF <= extractFloat64Exp a < 0x433 ->
  let d := 0x433 - extractFloat64Exp a in
  bits64 a = f64_sign a * 2 ^ 63 + ((extractFloat64Exp a - 1) * 2 ^ 52 + sig64 a) /\
  exists B, f64_sign a * 2 ^ 63 + (extractFloat64Exp a - 1) * 2 ^ 52 = B * (2 * 2 ^ d).
Proof.
  intros Ha He d. destruct (fields64 a Ha) as (Eq & _). destruct (larger64 a ltac:(lia)) as [_ S1].
  split; [lia|]. destruct (Z.eq_dec d 52) as [E|E].
  - exists (f64_sign a * 2 ^ 10 + 511). rewrite E.
    replace (extractFloat64Exp a) with 1023 by (unfold d in E; lia). lia.
  - exists ((f64_sign a * 2 ^ 11 + (extractFloat64Exp a - 1)) * 2 ^ (51 - d)).
    replace (2 * 2 ^ d) with (2 ^ (d + 1)) by (rewrite pow2_succ; unfold d; lia).
    rewrite <- Z.mul_assoc, <- Z.pow_add_r by (unfold d in *; lia).
    replace (51 - d + (d + 1)) with 52 by lia. lia.
Qed.

Lemma value_fraction64 a : f64_word a -> 0x3FF <= extractFloat64Exp a < 0x433 ->
  let d := 0x433 - extractFloat64Exp a in
  (forall mode s, round_q mode s (f64_mag a) (2 ^ 1074) = round_q mode s (sig64 a) (2 ^ d)) /\
  (f64_mag a mod 2 ^ 1074 =? 0) = (sig64 a mod 2 ^ d =? 0).
Proof.
  intros Ha He d. destruct (larger64 a ltac:(lia)) as [E1 _].
  assert (E : f64_mag a * 2 ^ d = sig64 a * 2 ^ 1074).
  { rewrite f64_mag_sig, E1, <- Z.mul_assoc, <- Z.pow_add_r by (assumption || (unfold d; lia)).
    do 2 f_equal. unfold d. lia. }
  pose proof (pow2_pos d ltac:(unfold d; lia)). split.
  - intros mode s. pose proof (round_q_frac mode s (f64_mag a) (2 ^ 1074) (sig64 a) (2 ^ d) 1) as R.
    rewrite !Z.mul_1_r in R. now apply R; lia.
  - destruct (frac_ext (f64_mag a) (2 ^ 1074) (sig64 a) (2 ^ d) 1) as (_ & _ & F); try lia.
    now rewrite !Z.mul_1_r in F.
Qed.

(** The final test raises inexact when a word has changed. *)
Lemma float64_round_to_int_finish_eq st a z : fp_ok st -> f64_word a -> f64_word z ->
  float64_round_to_int_finish a z st
  = Some (z, if bits64 z =? bits64 a then st else raised st float_flag_inexact).
Proof.
  intros Hst [A0 A1] [Z0 Z1]. unfold float64_round_to_int_finish. rewrite inexact_ret by assumption.
  do 2 f_equal. unfold bits64, val64, is_u in *. cbn [fst snd] in *.
  destruct (Z.eqb_spec (low z) (low a)), (Z.eqb_spec (high z) (high a)),
    (Z.eqb_spec (high z * 2 ^ 32 + low z) (high a * 2 ^ 32 + low a)); try reflexivity; lia.
Qed.

(** A rounded pattern has the rounded value. *)
Lemma rounded_pattern64 st a z : f64_word a -> 0x3FF <= extractFloat64Exp a < 0x433 -> f64_word z ->
  let d := 0x433 - extractFloat64Exp a in
  bits64 z = round_q (float_rounding_mode st) (truthy (f64_sign a)) (bits64 a) (2 ^ d) * 2 ^ d ->
  integral64 st a z /\ (bits64 z =? bits64 a) = (f64_mag a mod 2 ^ 1074 =? 0).
Proof.
  intros Ha He Hz d Ez. destruct (pattern_split64 a Ha He) as [Ea [B EB]].
  destruct (value_fraction64 a Ha He) as [Ev Ef]. fold d in EB, Ev, Ef. assert (Hd : 1 <= d <= 52) by (unfold d; lia).
  pose proof (pow2_pos d ltac:(lia)). destruct (larger64 a ltac:(lia)) as [_ S1].
  destruct (fields64 a Ha) as (_ & _ & _ & Hfr & _).
  unfold integral64. rewrite Ev, Ef. set (mode := float_rounding_mode st) in *.
  set (n := round_q mode (truthy (f64_sign a)) (sig64 a) (2 ^ d)).
  assert (En : bits64 z = f64_sign a * 2 ^ 63 + ((extractFloat64Exp a - 1) * 2 ^ 52 + n * 2 ^ d)).
  { rewrite Ez, Ea. rewrite Z.add_assoc, EB, round_q_offset by lia. fold n.
    rewrite Z.add_assoc, EB. ring. }
  split.
  - split; [assumption|]. apply (pattern_value64 z _ d n); try assumption.
    + assert (E52 : 2 ^ 52 = 2 ^ (52 - d) * 2 ^ d) by (rewrite <- Z.pow_add_r by lia; f_equal; lia).
      assert (E53 : 2 ^ 53 = 2 ^ (53 - d) * 2 ^ d) by (rewrite <- Z.pow_add_r by lia; f_equal; lia).
      split; [apply round_q_ge | apply round_q_le]; lia.
    + rewrite En. unfold d. lia.
  - destruct (Z.eqb_spec (sig64 a mod 2 ^ d) 0) as [Fz|Fz].
    + apply Z.eqb_eq. rewrite En, Ea. unfold n. rewrite round_q_exact by lia.
      pose proof (Z.div_mod (sig64 a) (2 ^ d)). lia.
    + apply Z.eqb_neq. intros F. apply Fz. assert (Es : sig64 a = n * 2 ^ d) by lia.
      rewrite Es. apply Z.mod_mul. lia.
Qed.

(** Values below one become a zero or a one. *)
Lemma unit_value64 a c st : f64_word a -> f64_mag a < 2 ^ 1074 ->
  c = rounds_away (float_rounding_mode st) (truthy (f64_sign a)) 0 (f64_mag a) (2 ^ 1074) ->
  integral64 st a (of_bits64 (f64_sign a * 2 ^ 63 + (if c then 0x3FF * 2 ^ 52 else 0))).
Proof.
  intros Ha Hm Hc. pose proof (f64_mag_nonneg a Ha) as H0. unfold integral64, round_q.
  rewrite Z.div_small, Z.mod_small, <- Hc by lia. cbn [Z.add].
  set (x := if c then 0x3FF * 2 ^ 52 else 0). assert (Hx : 0 <= x <= 0x3FF * 2 ^ 52) by (unfold x; destruct c; lia).
  destruct (of_bits64_spec (f64_sign a * 2 ^ 63 + x)) as [Wz Bz];
    [destruct (f64_sign_flag a Ha) as [-> | ->]; lia|].
  destruct (sign_of_bits _ _ _ Wz Bz ltac:(lia)) as [Es Em]. split; [assumption|]. split; [assumption|].
  rewrite Em. unfold x. destruct c; reflexivity.
Qed.

(** Magnitudes below one: a nearest value of one above one half only. *)
Lemma below_one64 st a : f64_word a -> extractFloat64Exp a <= 0x3FE -> f64_mag a <> 0 ->
  let mode := float_rounding_mode st in
  0 <= mode <= 3 ->
  f64_mag a < 2 ^ 1074 /\
  rounds_away mode (truthy (f64_sign a)) 0 (f64_mag a) (2 ^ 1074) =
  if mode =? float_round_nearest_even then
    (extractFloat64Exp a =? 0x3FE) && truthy (extractFloat64Frac0 a ||| extractFloat64Frac1 a)
  else if mode =? float_round_down then truthy (f64_sign a)
  else if mode =? float_round_up then negb (truthy (f64_sign a)) else false.
Proof.
  intros Ha He Hnz mode Hm. pose proof (f64_mag_small a 0x3FE Ha He ltac:(lia)) as Hs.
  change (2 ^ (0x3FE + 52)) with (2 ^ 1074) in Hs. pose proof (f64_mag_nonneg a Ha) as H0.
  split; [assumption|]. unfold rounds_away. rewrite (proj2 (Z.eqb_neq (f64_mag a) 0)) by lia.
  unfold float_round_nearest_even, float_round_down, float_round_up, float_round_to_zero.
  assert (C : mode = 0 \/ mode = 1 \/ mode = 2 \/ mode = 3) by lia.
  destruct C as [-> | [-> | [-> | ->]]]; cbn [Z.eqb Pos.eqb negb andb];
    [|now destruct (truthy (f64_sign a))..].
  destruct (fields64 a Ha) as (_ & _ & _ & Hf & F0 & F1).
  destruct (Z.eqb_spec (extractFloat64Exp a) 0x3FE) as [E|E]; cbn [andb].
  - destruct (larger64 a ltac:(lia)) as [E1 S1]. rewrite f64_mag_sig, E1, E, S1 by assumption.
    assert (Et : truthy (extractFloat64Frac0 a ||| extractFloat64Frac1 a) = negb (f64_frac a =? 0)).
    { rewrite truthy_words by (assumption || (unfold is_u; lia)). reflexivity. }
    rewrite Et. destruct (Z.eqb_spec (f64_frac a) 0) as [F|F]; cbn [negb].
    + now rewrite F.
    + rewrite (proj2 (Z.compare_gt_iff _ _)) by lia. reflexivity.
  - pose proof (f64_mag_small a 0x3FD Ha ltac:(lia) ltac:(lia)) as Hh.
    change (2 ^ (0x3FD + 52)) with (2 ^ 1073) in Hh.
    rewrite (proj2 (Z.compare_lt_iff _ _)) by lia. reflexivity.
Qed.

(** ** The whole routine *)

Lemma float64_round_to_int_below st a : fp_ok st -> f64_word a -> extractFloat64Exp a <= 0x3FE ->
  exists z, float64_round_to_int a st
    = Some (z, if f64_mag a mod 2 ^ 1074 =? 0 then st else raised st float_flag_inexact) /\
    integral64 st a z.
Proof.
  intros Hst Ha Hs. pose proof (mode_ok st Hst) as Hm. pose proof (f64_mag_nonneg a Ha) as H0.
  unfold float64_round_to_int.
  rewrite (proj2 (Z.leb_gt 0x413 (extractFloat64Exp a))), (proj2 (Z.leb_le (extractFloat64Exp a) 0x3FE)) by lia.
  rewrite zero_pattern64 by assumption. destruct (Z.eqb_spec (f64_mag a) 0) as [Mz|Mz].
  - exists a. unfold ret, integral64. rewrite Mz, round_q_exact by (lia || reflexivity). repeat split; apply Ha.
  - destruct (below_one64 st a Ha Hs Mz Hm) as [Hb Hc]. rewrite Z.mod_small, (proj2 (Z.eqb_neq _ 0) Mz) by lia.
    unfold bind at 1. rewrite float_raise_eq by (assumption || flag_range). unfold bind, get_mode, ret.
    cbn [float_rounding_mode raised]. set (mode := float_rounding_mode st) in *. rewrite sign64_div.
    pose proof (f64_sign_flag a Ha) as Hf.
    assert (Hz : is_u 32 0) by (apply zero_word; lia). rewrite !packFloat64_eq
      by (assumption || (left; reflexivity) || (right; reflexivity) || (clear; lia)).
    change (val64 (0, 0)) with 0.
    eexists. split; [reflexivity|]. eapply eq_ind; [apply (unit_value64 a _ st Ha Hb eq_refl)|].
    fold mode. rewrite Hc. destruct Hf as [-> | ->]; destruct (mode =? float_round_nearest_even),
      (mode =? float_round_down), (mode =? float_round_up),
      ((extractFloat64Exp a =? 0x3FE) && truthy (extractFloat64Frac0 a ||| extractFloat64Frac1 a)); reflexivity.
Qed.

Lemma float64_round_to_int_fraction st a : fp_ok st -> f64_word a -> 0x3FF <= extractFloat64Exp a < 0x433 ->
  exists z, float64_round_to_int a st
    = Some (z, if f64_mag a mod 2 ^ 1074 =? 0 then st else raised st float_flag_inexact) /\
    integral64 st a z.
Proof.
  intros Hst Ha He. pose proof (mode_ok st Hst) as Hm. destruct (fields64 a Ha) as (_ & Hs & _).
  assert (Hb : bits64 a + 2 ^ 52 < 2 ^ 64).
  { destruct (pattern_split64 a Ha He) as [-> _]. destruct (sig64_words a Ha) as (_ & _ & HS).
    destruct Hs as [-> | ->]; lia. }
  pose proof (rounded_pattern64 st a) as Rp. unfold float64_round_to_int.
  destruct (Z.leb_spec 0x413 (extractFloat64Exp a)) as [Hl|Hl].
  - rewrite (proj2 (Z.leb_gt 0x433 (extractFloat64Exp a))) by lia. unfold bind, get_mode.
    set (d := 0x433 - extractFloat64Exp a) in *. pose proof (pow2_le d 52 ltac:(lia) ltac:(lia)).
    destruct (round_words_large (float_rounding_mode st) a d Hm Ha ltac:(lia) ltac:(lia) ltac:(lia)) as [Wz Ez].
    destruct (Rp _ Ha He Wz Ez) as [I E]. rewrite float64_round_to_int_finish_eq, E by assumption.
    eexists. exact (conj eq_refl I).
  - rewrite (proj2 (Z.leb_gt (extractFloat64Exp a) 0x3FE)) by lia. unfold bind, get_mode.
    set (c := 0x413 - extractFloat64Exp a) in *. pose proof (pow2_le (32 + c) 52 ltac:(lia) ltac:(lia)).
    destruct (round_words_small (float_rounding_mode st) a c Hm Ha ltac:(lia) ltac:(lia) ltac:(lia)) as [Wz Ez].
    replace (32 + c) with (0x433 - extractFloat64Exp a) in Ez by lia.
    destruct (Rp _ Ha He Wz Ez) as [I E]. rewrite float64_round_to_int_finish_eq, E by assumption.
    eexists. exact (conj eq_refl I).
Qed.

(** Rounding a double-precision number to an integral value gives, for every finite operand and
    rounding mode, the double of the same sign whose value is the integer the mode selects, zeros
    included, and raises inexact exactly when the operand was not an integer; infinities are
    returned unchanged and NaNs propagate. *)
Lemma float64_round_to_int_correct st a : fp_ok st -> f64_word a ->
  if f64_is_nan a then float64_round_to_int a st = propagateFloat64NaN a a st
  else if f64_is_inf a then float64_round_to_int a st = Some (a, st)
  else exists z, float64_round_to_int a st
    = Some (z, if f64_mag a mod 2 ^ 1074 =? 0 then st else raised st float_flag_inexact) /\
    integral64 st a z.
Proof.
  intros Hst Ha.
  destruct (special_cases64 a Ha) as [(Na & Ia & Fa & Za) | [(Na & Ia & Fa & Za & _) | (Na & Ia & Fa)]];
    rewrite Na, ?Ia.
  - unfold float64_round_to_int. now rewrite Fa, Za.
  - unfold float64_round_to_int. now rewrite Fa, Za.
  - destruct (Z.le_gt_cases (extractFloat64Exp a) 0x3FE); [now apply float64_round_to_int_below|].
    destruct (Z.lt_ge_cases (extractFloat64Exp a) 0x433) as [Hl|Hl];
      [now apply float64_round_to_int_fraction; [| |lia]|].
    unfold float64_round_to_int.
    rewrite (proj2 (Z.leb_le 0x413 _)), (proj2 (Z.leb_le 0x433 _) Hl), (proj2 (Z.eqb_neq _ 0x7FF)) by lia.
    exists a. cbn [andb]. unfold ret, integral64. destruct (larger64 a ltac:(lia)) as [E1 _].
    assert (Em : f64_mag a = sig64 a * 2 ^ (extractFloat64Exp a - 0x433) * 2 ^ 1074).
    { rewrite f64_mag_sig, E1, <- Z.mul_assoc, <- Z.pow_add_r by (assumption || lia). do 2 f_equal. lia. }
    rewrite Em, Z.mod_mul, round_q_exact, Z.div_mul by (lia || (apply Z.mod_mul; lia)).
    repeat split; assumption || apply Ha.
Qed.
