(* ===== verification/Formats.v ===== *)
(** * Both formats together: square root, remainder, rounding to an integral value, comparisons
    The routines of the two formats have the same contract; each theorem states it for both. *)
From S2P Require Import Prelude.
From S2P Require Import CInt.
From S2P Require Import FPState.
From S2P Require Import Rounding.
From S2P Require Import SoftFloatPrim.
From S2P Require Import Float32.
From S2P Require Import Float64.
From S2P Require Import Float32Round.
From S2P Require Import Float32Arith.
From S2P Require Import Float32MulDiv.
From S2P Require Import Float32Sqrt.
From S2P Require Import Float32Rem.
From S2P Require Import Float64Round.
From S2P Require Import Float64Arith.
From S2P Require Import Float64Sum.
From S2P Require Import Float64Rem.
From S2P Require Import Float64Sqrt.
From S2P Require Import RoundToInt.
From S2P Require Import RoundToInt64.
From S2P Require Import Emulate.
From S2P Require Import Float32Compare.
From S2P Require Import Float64Compare.

#[local] Open Scope Z_scope.

(** ** What a format provides, and the contracts of its routines *)

Class Format (F : Type) := {
  format_word : F -> Prop;
  format_is_nan : F -> bool;
  format_is_inf : F -> bool;
  format_is_signaling : F -> bool;
  (** a number in the order of the reals and the infinities *)
  format_val : F -> Z;
  (** the magnitude of a finite number, and of the number one, in units of the least positive one *)
  format_mag : F -> Z;
  format_one : Z;
  format_propagate : F -> F -> FP F;
  format_invalid : FP F;
}.

#[export] Instance single : Format Z := {|
  format_word := is_u 32;
  format_is_nan := f32_is_nan;
  format_is_inf := f32_is_inf;
  format_is_signaling := float32_is_signaling_nan;
  format_val := f32_val;
  format_mag := f32_mag;
  format_one := 2 ^ 149;
  format_propagate := propagateFloat32NaN;
  format_invalid := invalid32;
|}.

#[export] Instance double : Format float64 := {|
  format_word := f64_word;
  format_is_nan := f64_is_nan;
  format_is_inf := f64_is_inf;
  format_is_signaling := float64_is_signaling_nan;
  format_val := f64_val;
  format_mag := f64_mag;
  format_one := 2 ^ 1074;
  format_propagate := propagateFloat64NaN;
  format_invalid := invalid64;
|}.

Section Contracts.
Context {F : Type} `{Format F}.

Definition root_contract (sqrt : F -> FP F) (ref : fpstate -> F -> option (F * fpstate)) : Prop :=
  forall st a, fp_ok st -> format_word a -> sqrt a st = ref st a.

(** [is_rem a b z]: [z] is [a] less the nearest multiple of [b]. *)
Definition rem_contract (rem : F -> F -> FP F) (is_rem : F -> F -> F -> Prop) : Prop :=
  forall st a b, fp_ok st -> format_word a -> format_word b ->
  if format_is_nan a || format_is_nan b then rem a b st = format_propagate a b st
  else if format_is_inf a || (format_mag b =? 0) then rem a b st = format_invalid st
  else if format_is_inf b then rem a b st = Some (a, st)
  else exists z, rem a b st = Some (z, st) /\ is_rem a b z.

(** [integral st a z]: [z] is the integer that the mode of [st] selects for [a]. *)
Definition integral_contract (round : F -> FP F) (integral : fpstate -> F -> F -> Prop) : Prop :=
  forall st a, fp_ok st -> format_word a ->
  if format_is_nan a then round a st = format_propagate a a st
  else if format_is_inf a then round a st = Some (a, st)
  else exists z, round a st
    = Some (z, if format_mag a mod format_one =? 0 then st else raised st float_flag_inexact) /\
    integral st a z.

Definition unordered (a b : F) : bool := format_is_nan a || format_is_nan b.

(** A comparison, and whether it raises invalid for quiet NaNs too. *)
Definition comparison_contract '(compare, signals, r) : Prop := forall st (a b : F),
  fp_ok st -> format_word a -> format_word b ->
  compare a b st
  = if unordered a b
    then Some (false, if signals || format_is_signaling a || format_is_signaling b
                      then raised st float_flag_invalid else st)
    else Some (r (format_val a) (format_val b) : bool, st).

(** An entry point: its answer on numbers, and on NaNs. *)
Definition relation_contract '(entry, r, on_nan) : Prop := forall st (a b : F),
  fp_ok st -> format_word a -> format_word b ->
  result (entry a b st) = Some (b2z (if unordered a b then on_nan else r (format_val a) (format_val b))).

Definition ordered_contract (ord unord : F -> F -> Z) : Prop := forall a b, format_word a -> format_word b ->
  ord a b = b2z (negb (unordered a b)) /\ unord a b = b2z (unordered a b).
End Contracts.

Definition neqb (x y : Z) : bool := negb (x =? y).
Definition geb (x y : Z) : bool := y <=? x.
Definition gtb (x y : Z) : bool := y <? x.

(** C5: The square roots terminate (each digit of the root needs at most four corrections) and
    return, for every positive operand including subnormals, the real root rounded in the current
    mode with exactly the exceptions of that rounding; the root of a zero is that zero, a negative
    operand is invalid, and NaN operands propagate. *)
Theorem square_roots_correct fuel : (4 < fuel)%nat ->
  root_contract (float32_sqrt fuel) ref_sqrt32 /\ root_contract (float64_sqrt fuel) ref_sqrt64.
Proof. intros Hf. split; intros st a Hst Ha; [now apply float32_sqrt_correct | now apply float64_sqrt_correct]. Qed.

(** The root of two is inexact; the least subnormal double has the exact root 2^-537. *)
Lemma square_roots_witness :
  float32_sqrt 5 0x40000000 fp_init = Some (0x3FB504F3, raised fp_init float_flag_inexact) /\
  float64_sqrt 5 (of_bits64 1) fp_init = Some (of_bits64 0x1E60000000000000, fp_init).
Proof.
  destruct (square_roots_correct 5 ltac:(lia)) as [R32 R64].
  rewrite (R32 fp_init 0x40000000), (R64 fp_init (of_bits64 1))
    by (exact fp_init_ok || (cbn; unfold is_u; lia) || (split; cbn; unfold is_u; lia)).
  split; vm_compute; reflexivity.
Defined.

(** C6: The remainders terminate (at most ten rounds of thirty quotient bits in single precision,
    seventy-three of twenty-nine in double) and are the IEEE remainder: for finite operands with a
    nonzero divisor they return exactly [a - b n], where [n] is the integer nearest to [a / b],
    ties to even, without any exception, a zero result having the sign of [a]; an infinite dividend
    or a zero divisor is invalid, an infinite divisor leaves [a], and NaNs propagate. *)
Theorem remainders_correct fuel : (73 < fuel)%nat ->
  rem_contract (float32_rem fuel) is_rem32 /\ rem_contract (float64_rem fuel) is_rem64.
Proof.
  intros Hf. split; intros st a b Hst Ha Hb.
  - apply float32_rem_correct; [lia | assumption..].
  - now apply float64_rem_correct.
Qed.

(** 5 mod 3 (the nearest quotient is 2), and a quotient of a thousand bits. *)
Lemma remainders_witness :
  (exists z, float32_rem 74 0x40A00000 0x40400000 fp_init = Some (z, fp_init) /\
     is_rem32 0x40A00000 0x40400000 z) /\
  (exists z, float64_rem 74 (of_bits64 0x7FE0000000000000) (of_bits64 0x4008000000000000) fp_init
       = Some (z, fp_init) /\
     is_rem64 (of_bits64 0x7FE0000000000000) (of_bits64 0x4008000000000000) z).
Proof.
  destruct (remainders_correct 74 ltac:(lia)) as [R32 R64]. split.
  - apply (R32 fp_init 0x40A00000 0x40400000 fp_init_ok); cbn; unfold is_u; lia.
  - apply (R64 fp_init (of_bits64 0x7FE0000000000000) (of_bits64 0x4008000000000000) fp_init_ok);
      split; cbn; unfold is_u; lia.
Defined.

(** C7: Rounding to an integral value gives, for every finite operand of either format and rounding
    mode, the number of the same sign whose value is the integer the mode selects, zeros included,
    and raises inexact exactly when the operand was not an integer; infinities are returned
    unchanged and NaNs propagate. *)
Theorem round_to_int_correct :
  integral_contract float32_round_to_int integral32 /\ integral_contract float64_round_to_int integral64.
Proof.
  split; intros st a Hst Ha; [now apply float32_round_to_int_correct | now apply float64_round_to_int_correct].
Qed.

Lemma answer_on_nan (nan on_nan r : bool) : (if nan then on_nan else r) = if on_nan then nan || r else negb nan && r.
Proof. now destruct nan, on_nan. Qed.

(** C8: Ordering in both formats.  The six comparisons decide the order of the represented values,
    zeros of either sign being equal and infinities outermost; a NaN operand makes them false, and
    raises the invalid exception in the signaling variants or when the NaN is signaling.  The entry
    points of the comparison instructions return these answers as integers: with a NaN operand EQ,
    LE, LT and ORD give 0 and the "unordered or" variants give 1; GE and GT, written as negations of
    less-than and less-or-equal, also give 1, the same as their "unordered or" variants. *)
Theorem orderings_correct :
  Forall comparison_contract
    [(float32_eq, false, Z.eqb); (float32_le, true, Z.leb); (float32_lt, true, Z.ltb);
     (float32_eq_signaling, true, Z.eqb); (float32_le_quiet, false, Z.leb); (float32_lt_quiet, false, Z.ltb)] /\
  Forall comparison_contract
    [(float64_eq, false, Z.eqb); (float64_le, true, Z.leb); (float64_lt, true, Z.ltb);
     (float64_eq_signaling, true, Z.eqb); (float64_le_quiet, false, Z.leb); (float64_lt_quiet, false, Z.ltb)] /\
  Forall relation_contract
    [(__emulate_EQF_2_1_f32_f32_i32, Z.eqb, false); (__emulate_EQUF_2_1_f32_f32_i32, Z.eqb, true);
     (__emulate_NEF_2_1_f32_f32_i32, neqb, true); (__emulate_NEUF_2_1_f32_f32_i32, neqb, true);
     (__emulate_LEF_2_1_f32_f32_i32, Z.leb, false); (__emulate_LEUF_2_1_f32_f32_i32, Z.leb, true);
     (__emulate_LTF_2_1_f32_f32_i32, Z.ltb, false); (__emulate_LTUF_2_1_f32_f32_i32, Z.ltb, true);
     (__emulate_GEF_2_1_f32_f32_i32, geb, true); (__emulate_GEUF_2_1_f32_f32_i32, geb, true);
     (__emulate_GTF_2_1_f32_f32_i32, gtb, true); (__emulate_GTUF_2_1_f32_f32_i32, gtb, true)] /\
  Forall relation_contract
    [(__emulate_EQD_2_1_f64_f64_i64, Z.eqb, false); (__emulate_EQUD_2_1_f64_f64_i64, Z.eqb, true);
     (__emulate_NED_2_1_f64_f64_i64, neqb, true); (__emulate_NEUD_2_1_f64_f64_i64, neqb, true);
     (__emulate_LED_2_1_f64_f64_i64, Z.leb, false); (__emulate_LEUD_2_1_f64_f64_i64, Z.leb, true);
     (__emulate_LTD_2_1_f64_f64_i64, Z.ltb, false); (__emulate_LTUD_2_1_f64_f64_i64, Z.ltb, true);
     (__emulate_GED_2_1_f64_f64_i64, geb, true); (__emulate_GEUD_2_1_f64_f64_i64, geb, true);
     (__emulate_GTD_2_1_f64_f64_i64, gtb, true); (__emulate_GTUD_2_1_f64_f64_i64, gtb, true)] /\
  ordered_contract __emulate_ORDF_2_1_f32_f32_i32 __emulate_UORDF_2_1_f32_f32_i32 /\
  ordered_contract __emulate_ORDD_2_1_f64_f64_i64 __emulate_UORDD_2_1_f64_f64_i64.
Proof.
  split; [|split; [|split; [|split; [|split]]]]; cycle 4.
  1, 2: intros a b Ha Hb; split;
    first [apply (emulated_comparisons_result fp_init) | apply (emulated_double_comparisons_result fp_init)];
    assumption || exact fp_init_ok.
  all: repeat apply Forall_cons; try apply Forall_nil; intros st a b Hst Ha Hb; unfold unordered; cbn [format_is_nan single double];
    rewrite ?answer_on_nan;
    first [apply (float32_comparisons_correct st a b) | apply (emulated_comparisons_result st a b)
      | apply (float64_comparisons_correct st a b) | apply (emulated_double_comparisons_result st a b)]; assumption.
Qed.

(** The least negative number is below zero, and a quiet NaN is reported as greater than one. *)
Lemma orderings_witness :
  float32_lt 0x80000001 0 fp_init = Some (true, fp_init) /\
  result (__emulate_GTD_2_1_f64_f64_i64 (of_bits64 0x7FF8000000000000) (of_bits64 0x3FF0000000000000) fp_init) = Some 1.
Proof.
  destruct orderings_correct as (C & _ & _ & E & _). rewrite Forall_forall in C, E. split.
  - rewrite (C (float32_lt, true, Z.ltb) ltac:(cbn; auto 10) fp_init 0x80000001 0 fp_init_ok) by (cbn; unfold is_u; lia).
    vm_compute. reflexivity.
  - rewrite (E (__emulate_GTD_2_1_f64_f64_i64, gtb, true) ltac:(cbn; auto 20) fp_init
      (of_bits64 0x7FF8000000000000) (of_bits64 0x3FF0000000000000) fp_init_ok) by (split; cbn; unfold is_u; lia).
    vm_compute. reflexivity.
Defined.
