(* ===== verification/Trunctfdf2.v ===== *)
(** * Truncation of binary128 to binary64

    Models data/riscv/runtime/trunctfdf2.c, the conversion [printf] calls on RISC-V targets.  A
    [long double] and a [double] are their bit patterns.  The reference rounding measures the
    source in units of 2^-16494, its least positive number, and the result in units of 2^-1074. *)

From S2P Require Import Prelude.
From S2P Require Import CInt.
From S2P Require Import FPState.
From S2P Require Import Rounding.

(** ** The code *)

Definition SRC_SIG_BITS : Z := 112.
Definition SRC_EXP_MAX : Z := 0x7fff.
Definition SRC_EXP_BIAS : Z := 16383.
Definition DST_SIG_BITS : Z := 52.
Definition DST_EXP_MAX : Z := 0x7ff.
Definition DST_EXP_BIAS : Z := 1023.
Definition SIG_DROP : Z := SRC_SIG_BITS - DST_SIG_BITS.

Definition u128 := uw 128.

Definition sigMask : Z := u128 (u128 (1 << SRC_SIG_BITS) - 1).
Definition roundMask : Z := u128 (u128 (1 << SIG_DROP) - 1).
Definition halfway : Z := u128 (1 << (SIG_DROP - 1)).

(** [if (roundBits > halfway) absResult++; else if (roundBits == halfway) absResult += absResult & 1;] *)
Definition round_bits (absResult roundBits : Z) : Z :=
  if halfway <? roundBits then u64 (absResult + 1)
  else if roundBits =? halfway then u64 (absResult + (absResult &&& 1))
  else absResult.

(** The result, and the object [resultBits] points to unless it is null ([None]). *)
Definition oa_trunctfdf2_bits (aRep : Z) (resultBits : option Z) : Z * option Z :=
  let sign := u64 (u64 (aRep >> 127) << 63) in
  let srcExp := u32 ((aRep >> SRC_SIG_BITS) &&& SRC_EXP_MAX) in
  let srcSig := aRep &&& sigMask in
  let absResult :=
    if srcExp =? SRC_EXP_MAX then
      if srcSig =? 0 then u64 (DST_EXP_MAX << DST_SIG_BITS)
      else
        let absResult := u64 (DST_EXP_MAX << DST_SIG_BITS) in
        let absResult := absResult ||| u64 (1 << (DST_SIG_BITS - 1)) in
        absResult ||| (u64 (srcSig >> SIG_DROP) &&& u64 (u64 (1 << (DST_SIG_BITS - 1)) - 1))
    else
      let dstExp := s32 (s32 srcExp - SRC_EXP_BIAS + DST_EXP_BIAS) in
      if negb (srcExp =? 0) && (DST_EXP_MAX <=? dstExp) then u64 (DST_EXP_MAX << DST_SIG_BITS)
      else if negb (srcExp =? 0) && (0 <? dstExp) then
        let aAbs := aRep &&& u128 (u128 (1 << 127) - 1) in
        let absResult := u64 (aAbs >> SIG_DROP) in
        let absResult := u64 (absResult - u64 ((SRC_EXP_BIAS - DST_EXP_BIAS) << DST_SIG_BITS)) in
        let roundBits := aAbs &&& roundMask in
        round_bits absResult roundBits
      else
        let significand := if srcExp =? 0 then srcSig else srcSig ||| u128 (1 << SRC_SIG_BITS) in
        let shift := s32 (1 - dstExp) in
        if (srcExp =? 0) || (SRC_SIG_BITS + 1 <? shift) then 0
        else
          let sticky := b2z (negb (u128 (significand << (128 - shift)) =? 0)) in
          let denormalized := (significand >> shift) ||| sticky in
          let absResult := u64 (denormalized >> SIG_DROP) in
          let roundBits := denormalized &&& roundMask in
          round_bits absResult roundBits in
  let absResult := absResult ||| sign in
  (absResult, match resultBits with None => None | Some _ => Some absResult end).

Definition __trunctfdf2 (a : Z) : Z := fst (oa_trunctfdf2_bits a None).

(** ** Specification *)

(** The fields of a binary128 pattern. *)
Definition q_sign (a : Z) : Z := a / 2 ^ 127.
Definition q_exp (a : Z) : Z := a / 2 ^ 112 mod 2 ^ 15.
Definition q_sig (a : Z) : Z := a mod 2 ^ 112.
Definition q_mag (a : Z) : Z := a mod 2 ^ 127.

(** The units of the two formats differ by a factor of [2 ^ unit_ratio]. *)
Definition unit_ratio : Z := 15420.

Definition ref_trunc_mag (a : Z) : Z :=
  if q_exp a =? 0x7FFF then
    if q_sig a =? 0 then inf_bits 53 0x7FF
    else inf_bits 53 0x7FF + 2 ^ 51 + q_sig a / 2 ^ 60 mod 2 ^ 51
  else ref_bits 53 0x7FF float_round_nearest_even (truthy (q_sign a))
         (mag_val 113 (q_mag a)) (2 ^ unit_ratio).

Definition ref_trunc (a : Z) : Z := q_sign a * 2 ^ 63 + ref_trunc_mag a.

Example trunc_third : __trunctfdf2 0x3FFD5555555555555555555555555555 = 0x3FD5555555555555.
Proof. reflexivity. Qed.
Example trunc_tie : __trunctfdf2 0x3FFF0000000000000800000000000000 = 0x3FF0000000000000.
Proof. reflexivity. Qed.
Example trunc_nan : __trunctfdf2 0xFFFF0000000000001000000000000000 = 0xFFF8000000000001.
Proof. reflexivity. Qed.

(** ** Words *)

Lemma q_fields a : is_u 128 a ->
  a = q_sign a * 2 ^ 127 + q_exp a * 2 ^ 112 + q_sig a /\ q_mag a = q_exp a * 2 ^ 112 + q_sig a /\
  0 <= q_sign a <= 1 /\ 0 <= q_exp a < 2 ^ 15 /\ 0 <= q_sig a < 2 ^ 112.
Proof. unfold is_u, q_sign, q_exp, q_sig, q_mag. cbn. dlia. Qed.

Lemma code_fields a : is_u 128 a ->
  u64 (u64 (a >> 127) << 63) = q_sign a * 2 ^ 63 /\
  u32 ((a >> SRC_SIG_BITS) &&& SRC_EXP_MAX) = q_exp a /\ a &&& sigMask = q_sig a /\
  a &&& u128 (u128 (1 << 127) - 1) = q_mag a.
Proof.
  intros Ha. destruct (q_fields a Ha) as (E & _ & Hs & He & Hf).
  change (a &&& sigMask) with (a &&& (2 ^ 112 - 1)).
  change (a &&& u128 (u128 (1 << 127) - 1)) with (a &&& (2 ^ 127 - 1)).
  change ((a >> SRC_SIG_BITS) &&& SRC_EXP_MAX) with ((a >> 112) &&& (2 ^ 15 - 1)).
  rewrite !land_ones_mod, Z.shiftl_mul_pow2, !Z.shiftr_div_pow2 by lia.
  change (a / 2 ^ 127) with (q_sign a). change (a / 2 ^ 112 mod 2 ^ 15) with (q_exp a).
  unfold u64, u32. rewrite (uw_small 64 (q_sign a)), (uw_small 64), (uw_small 32) by (unfold is_u; lia).
  auto.
Qed.

(** The rounding step is round to nearest even. *)
Lemma round_bits_ref s Z : 0 <= Z < 2 ^ 120 ->
  round_bits (Z / 2 ^ 60) (Z &&& roundMask) = round_q float_round_nearest_even s Z (2 ^ 60).
Proof.
  intros HZ. unfold round_bits, round_q, rounds_away. change (roundMask) with (2 ^ 60 - 1).
  rewrite land_ones_mod by lia. change halfway with (2 ^ 59).
  change (float_round_nearest_even =? float_round_nearest_even) with true. cbv iota.
  pose proof (Z.div_lt_upper_bound Z (2 ^ 60) (2 ^ 60) ltac:(lia) ltac:(lia)).
  pose proof (Z.div_pos Z (2 ^ 60) ltac:(lia) ltac:(lia)).
  set (q := Z / 2 ^ 60) in *. set (r := Z mod 2 ^ 60). rewrite land_1_odd, Zmod_odd.
  unfold u64. destruct (Z.compare_spec (2 * r) (2 ^ 60)) as [E|E|E].
  - destruct (Z.ltb_spec (2 ^ 59) r); [lia|]. destruct (Z.eqb_spec r (2 ^ 59)); [|lia].
    destruct (Z.odd q); cbn [b2z]; rewrite uw_small; unfold is_u; lia.
  - destruct (Z.ltb_spec (2 ^ 59) r); [lia|]. destruct (Z.eqb_spec r (2 ^ 59)); cbn [b2z]; lia.
  - destruct (Z.ltb_spec (2 ^ 59) r); [|lia]. cbn [b2z]. rewrite uw_small; unfold is_u; lia.
Qed.

(** ** Correctness *)

Lemma q_mag_val a : is_u 128 a -> mag_val 113 (q_mag a)
  = if q_exp a =? 0 then q_sig a else (q_sig a + 2 ^ 112) * 2 ^ (q_exp a - 1).
Proof.
  intros Ha. destruct (q_fields a Ha) as (_ & E & _ & He & Hf). unfold mag_val.
  change (113 - 1) with 112. rewrite E, Z.div_add_l, (Z.div_small (q_sig a)), Z.add_0_r by lia.
  now rewrite Z.add_comm, Z.mod_add, (Z.mod_small (q_sig a)) by lia.
Qed.

(** The rounding of a normal number of the source, at the exponent it would have unbounded. *)
Lemma ref_normal s S e : 2 ^ 112 <= S < 2 ^ 113 -> 15361 <= e ->
  ref_mag 53 float_round_nearest_even s (S * 2 ^ (e - 1)) (2 ^ unit_ratio)
  = (e - 15361) * 2 ^ 52 + round_q float_round_nearest_even s S (2 ^ 60).
Proof.
  intros HS He. assert (Hu : 0 <= unit_ratio) by (unfold unit_ratio; lia).
  pose proof (pow2_pos (e - 1) ltac:(lia)).
  apply (ref_sticky 53 ltac:(lia) float_round_nearest_even s 1 S S 1 (2 ^ 59) (e - 15361) (S * 2 ^ (e - 1)) (2 ^ unit_ratio));
    try lia; try (apply sticky_refl).
  change (2 * 1 * 2 ^ 59) with (2 ^ 60). rewrite Z.mul_1_l, <- Z.mul_assoc, <- !Z.pow_add_r by lia.
  do 2 f_equal. unfold unit_ratio. lia.
Qed.

Lemma jam_word S D : 0 <= S < 2 ^ 113 -> 0 < D -> 0 <= jam S D < 2 ^ 113.
Proof.
  intros HS HD. unfold jam. apply lor_bound; [lia| |].
  - split; [apply Z.div_pos; lia|]. apply Z.div_lt_upper_bound; nia.
  - destruct (negb _); cbn; lia.
Qed.

(** Below the normal range of the destination. *)
Lemma ref_subnormal s S e : 0 <= S < 2 ^ 113 -> 1 <= e <= 15360 ->
  ref_mag 53 float_round_nearest_even s (S * 2 ^ (e - 1)) (2 ^ unit_ratio)
  = round_q float_round_nearest_even s (jam S (2 ^ (15361 - e))) (2 ^ 60).
Proof.
  intros HS He. assert (Hu : 0 <= unit_ratio) by (unfold unit_ratio; lia).
  pose proof (pow2_pos (e - 1) ltac:(lia)). pose proof (pow2_pos (15361 - e) ltac:(lia)) as HD.
  destruct (ref_sticky 53 ltac:(lia) float_round_nearest_even s 2 (jam S (2 ^ (15361 - e))) S (2 ^ (15361 - e))
    (2 ^ 58) 0 (S * 2 ^ (e - 1)) (2 ^ unit_ratio)) as (_ & E & _); try lia.
  - now apply sticky_jam.
  - rewrite Z.pow_0_r, Z.mul_1_r, <- Z.mul_assoc. change (2 * 2 * 2 ^ 58) with (2 ^ 60).
    rewrite <- !Z.pow_add_r by lia. do 2 f_equal. unfold unit_ratio. lia.
  - change (2 ^ 53 * (2 * 2 * 2 ^ 58)) with (2 ^ 113). now apply jam_word.
  - exact E.
Qed.

(** Truncating the source representation and subtracting the difference of the biases. *)
Lemma rebias a : is_u 128 a -> 15361 <= q_exp a < 2047 + 15360 ->
  u64 (u64 (q_mag a >> SIG_DROP) - u64 ((SRC_EXP_BIAS - DST_EXP_BIAS) << DST_SIG_BITS))
  = (q_exp a - 15361) * 2 ^ 52 + (q_sig a + 2 ^ 112) / 2 ^ 60.
Proof.
  intros Ha He. destruct (q_fields a Ha) as (_ & E & _ & _ & Hf).
  change ((SRC_EXP_BIAS - DST_EXP_BIAS) << DST_SIG_BITS) with (15360 * 2 ^ 52).
  rewrite Z.shiftr_div_pow2, E by (unfold SIG_DROP; cbn; lia).
  change (2 ^ SIG_DROP) with (2 ^ 60).
  replace (q_exp a * 2 ^ 112 + q_sig a) with (q_exp a * 2 ^ 52 * 2 ^ 60 + q_sig a) by lia.
  replace (q_sig a + 2 ^ 112) with (2 ^ 52 * 2 ^ 60 + q_sig a) by lia.
  rewrite !Z.div_add_l by lia. unfold u64, uw. rewrite <- Zminus_mod.
  pose proof (Z.div_lt_upper_bound (q_sig a) (2 ^ 60) (2 ^ 52) ltac:(lia) ltac:(lia)).
  pose proof (Z.div_pos (q_sig a) (2 ^ 60) ltac:(lia) ltac:(lia)).
  rewrite Z.mod_small; lia.
Qed.

Lemma ref_bits_min s N D : ref_bits 53 0x7FF float_round_nearest_even s N D
  = Z.min (inf_bits 53 0x7FF) (ref_mag 53 float_round_nearest_even s N D).
Proof.
  unfold ref_bits, ref_overflow. replace (saturates float_round_nearest_even s) with false by (now destruct s).
  destruct (Z.leb_spec (inf_bits 53 0x7FF) (ref_mag 53 float_round_nearest_even s N D)); cbn [b2z]; lia.
Qed.

Lemma round_q_range s N D M : 0 <= N <= M * D -> 0 < D ->
  0 <= round_q float_round_nearest_even s N D <= M.
Proof. intros HN HD. split; [apply round_q_ge | apply round_q_le]; lia. Qed.

(** An even part of the significand is not touched by the rounding step. *)
Lemma round_bits_add k q r : 0 <= q < 2 ^ 53 -> 0 <= k < 2046 ->
  round_bits (k * 2 ^ 52 + q) r = k * 2 ^ 52 + round_bits q r.
Proof.
  intros Hq Hk. unfold round_bits. rewrite !land_1_odd.
  replace ((k * 2 ^ 52 + q) mod 2) with (q mod 2) by dlia.
  assert (0 <= q mod 2 < 2) by dlia. unfold u64.
  destruct (halfway <? r); [|destruct (r =? halfway)]; rewrite ?uw_small; unfold is_u; lia.
Qed.

(** The three cases of a finite source. *)
Lemma trunc_overflow a s : is_u 128 a -> 2047 + 15360 <= q_exp a < 0x7FFF ->
  inf_bits 53 0x7FF
  = ref_bits 53 0x7FF float_round_nearest_even s (mag_val 113 (q_mag a)) (2 ^ unit_ratio).
Proof.
  intros Ha He. destruct (q_fields a Ha) as (_ & _ & _ & _ & Hf).
  rewrite q_mag_val by assumption. destruct (Z.eqb_spec (q_exp a) 0); [lia|].
  rewrite ref_bits_min, ref_normal by lia.
  pose proof (round_q_ge float_round_nearest_even s (q_sig a + 2 ^ 112) (2 ^ 60) (2 ^ 52) ltac:(lia) ltac:(lia)).
  unfold inf_bits. change (53 - 1) with 52. lia.
Qed.

Lemma trunc_normal a s : is_u 128 a -> 15361 <= q_exp a < 2047 + 15360 ->
  round_bits (u64 (u64 (q_mag a >> SIG_DROP) - u64 ((SRC_EXP_BIAS - DST_EXP_BIAS) << DST_SIG_BITS)))
    (q_mag a &&& roundMask)
  = ref_bits 53 0x7FF float_round_nearest_even s (mag_val 113 (q_mag a)) (2 ^ unit_ratio).
Proof.
  intros Ha He. destruct (q_fields a Ha) as (_ & E & _ & _ & Hf).
  rewrite rebias, q_mag_val by assumption. destruct (Z.eqb_spec (q_exp a) 0); [lia|].
  rewrite ref_bits_min, ref_normal by lia.
  pose proof (round_q_range s (q_sig a + 2 ^ 112) (2 ^ 60) (2 ^ 53) ltac:(lia) ltac:(lia)) as Hr.
  rewrite <- round_bits_ref in Hr |- * by lia.
  replace (q_mag a &&& roundMask) with ((q_sig a + 2 ^ 112) &&& roundMask).
  - change (inf_bits 53 0x7FF) with (2047 * 2 ^ 52).
    set (S := q_sig a + 2 ^ 112) in *. set (q := S / 2 ^ 60) in *. set (k := q_exp a - 15361) in *.
    assert (0 <= q < 2 ^ 53) by (unfold q; split; [apply Z.div_pos|apply Z.div_lt_upper_bound]; lia).
    rewrite round_bits_add by lia. lia.
  - change roundMask with (2 ^ 60 - 1). rewrite !land_ones_mod, E by lia.
    replace (q_exp a * 2 ^ 112 + q_sig a) with (q_sig a + q_exp a * 2 ^ 52 * 2 ^ 60) by lia.
    replace (q_sig a + 2 ^ 112) with (q_sig a + 2 ^ 52 * 2 ^ 60) by lia. now rewrite !Z.mod_add by lia.
Qed.

(** The bits a left shift keeps above the word are those the right shift drops. *)
Lemma sticky_shifted S shift : 0 <= S -> 0 <= shift <= 128 ->
  (u128 (S << (128 - shift)) =? 0) = (S mod 2 ^ shift =? 0).
Proof.
  intros HS Hs. unfold u128, uw. rewrite Z.shiftl_mul_pow2 by lia.
  replace 128 with (shift + (128 - shift)) at 2 by lia. rewrite Z.pow_add_r by lia.
  pose proof (pow2_pos (128 - shift) ltac:(lia)). pose proof (pow2_pos shift ltac:(lia)).
  rewrite Z.mul_mod_distr_r by lia.
  destruct (Z.eqb_spec (S mod 2 ^ shift) 0) as [->|]; [reflexivity|]. apply Z.eqb_neq. nia.
Qed.

Lemma trunc_small a s : is_u 128 a -> 0 < q_exp a <= 15360 ->
  let S := q_sig a ||| u128 (1 << SRC_SIG_BITS) in
  let shift := 15361 - q_exp a in
  (if SRC_SIG_BITS + 1 <? shift then 0
   else
     let den := (S >> shift) ||| b2z (negb (u128 (S << (128 - shift)) =? 0)) in
     round_bits (u64 (den >> SIG_DROP)) (den &&& roundMask))
  = ref_bits 53 0x7FF float_round_nearest_even s (mag_val 113 (q_mag a)) (2 ^ unit_ratio).
Proof.
  intros Ha He. destruct (q_fields a Ha) as (_ & _ & _ & _ & Hf).
  rewrite q_mag_val by assumption. destruct (Z.eqb_spec (q_exp a) 0); [lia|].
  rewrite ref_bits_min, ref_subnormal by lia.
  assert (q_sig a ||| u128 (1 << SRC_SIG_BITS) = q_sig a + 2 ^ 112) as ->.
  { rewrite Z.lor_comm, Z.add_comm. apply (lor_add _ _ 112); [lia|lia|reflexivity]. }
  set (S := q_sig a + 2 ^ 112). set (shift := 15361 - q_exp a). cbv zeta.
  pose proof (pow2_pos shift ltac:(lia)) as HD.
  pose proof (jam_word S (2 ^ shift) ltac:(lia) HD) as HJ.
  pose proof (round_q_range s (jam S (2 ^ shift)) (2 ^ 60) (2 ^ 53) ltac:(lia) ltac:(lia)) as Hr.
  rewrite Z.min_r by (change (inf_bits 53 0x7FF) with (2047 * 2 ^ 52); lia).
  rewrite <- round_bits_ref by lia.
  destruct (Z.ltb_spec (SRC_SIG_BITS + 1) shift) as [Hs|Hs]; change (SRC_SIG_BITS + 1) with 113 in Hs.
  - pose proof (pow2_le 114 shift ltac:(lia) ltac:(lia)). unfold jam.
    rewrite (Z.div_small S), (Z.mod_small S) by lia. destruct (Z.eqb_spec S 0); [lia|reflexivity].
  - rewrite sticky_shifted, (Z.shiftr_div_pow2 S), Z.shiftr_div_pow2 by (unfold SIG_DROP, SRC_SIG_BITS, DST_SIG_BITS; lia).
    change (2 ^ SIG_DROP) with (2 ^ 60). fold (jam S (2 ^ shift)).
    assert (jam S (2 ^ shift) / 2 ^ 60 < 2 ^ 53) by (apply Z.div_lt_upper_bound; lia).
    assert (0 <= jam S (2 ^ shift) / 2 ^ 60) by (apply Z.div_pos; lia).
    unfold u64. rewrite uw_small; [reflexivity|]. unfold is_u. lia.
Qed.

Lemma ref_bits_range s N D : 0 <= N -> 0 < D ->
  0 <= ref_bits 53 0x7FF float_round_nearest_even s N D <= inf_bits 53 0x7FF.
Proof.
  intros HN HD. rewrite ref_bits_min. destruct (ref_k_spec 53 ltac:(lia) N D HN HD) as (Hk & _).
  pose proof (round_q_ge float_round_nearest_even s N (D * 2 ^ ref_k 53 N D) 0
    ltac:(pose proof (pow2_pos _ Hk); nia) ltac:(lia)).
  unfold ref_mag. change (53 - 1) with 52.
  assert (0 <= inf_bits 53 0x7FF) by (unfold inf_bits; lia). lia.
Qed.

(** A subnormal source is below half of the least positive number of the destination. *)
Lemma trunc_zero a s : is_u 128 a -> q_exp a = 0 ->
  ref_bits 53 0x7FF float_round_nearest_even s (mag_val 113 (q_mag a)) (2 ^ unit_ratio) = 0.
Proof.
  intros Ha He. destruct (q_fields a Ha) as (_ & _ & _ & _ & Hf).
  rewrite q_mag_val, He by assumption. cbn [Z.eqb].
  replace (q_sig a) with (q_sig a * 2 ^ (1 - 1)) by lia. rewrite ref_bits_min, ref_subnormal by lia.
  assert (jam (q_sig a) (2 ^ (15361 - 1)) = b2z (truthy (q_sig a))) as ->.
  { pose proof (pow2_lt 112 (15361 - 1) ltac:(lia) ltac:(lia)) as HD.
    set (D := 2 ^ (15361 - 1)) in *. clearbody D. unfold jam, truthy. now rewrite Z.div_small, Z.mod_small by lia. }
  rewrite <- round_bits_ref by (destruct (truthy _); cbn; lia).
  now destruct (truthy (q_sig a)).
Qed.

Lemma quiet_nan x : 0 <= x < 2 ^ 112 ->
  u64 (DST_EXP_MAX << DST_SIG_BITS) ||| u64 (1 << (DST_SIG_BITS - 1))
    ||| (u64 (x >> SIG_DROP) &&& u64 (u64 (1 << (DST_SIG_BITS - 1)) - 1))
  = inf_bits 53 0x7FF + 2 ^ 51 + x / 2 ^ 60 mod 2 ^ 51.
Proof.
  intros Hx. change (u64 (u64 (1 << (DST_SIG_BITS - 1)) - 1)) with (2 ^ 51 - 1).
  rewrite land_ones_mod, Z.shiftr_div_pow2 by (unfold SIG_DROP, SRC_SIG_BITS, DST_SIG_BITS; lia).
  change (2 ^ SIG_DROP) with (2 ^ 60).
  assert (0 <= x / 2 ^ 60 < 2 ^ 52) by (split; [apply Z.div_pos|apply Z.div_lt_upper_bound]; lia).
  unfold u64 at 3. rewrite uw_small by (unfold is_u; lia).
  change (u64 (DST_EXP_MAX << DST_SIG_BITS) ||| u64 (1 << (DST_SIG_BITS - 1)))
    with (inf_bits 53 0x7FF + 2 ^ 51).
  apply (lor_add _ _ 51); [lia|apply Z.mod_pos_bound; lia|reflexivity].
Qed.

Lemma ref_trunc_mag_range a : is_u 128 a -> 0 <= ref_trunc_mag a < 2 ^ 63.
Proof.
  intros Ha. destruct (q_fields a Ha) as (_ & _ & _ & He & Hf). unfold ref_trunc_mag.
  change (inf_bits 53 0x7FF) with (2047 * 2 ^ 52).
  destruct (q_exp a =? 0x7FFF); [destruct (q_sig a =? 0); [lia|]|].
  - pose proof (Z.mod_pos_bound (q_sig a / 2 ^ 60) (2 ^ 51) ltac:(lia)). lia.
  - assert (0 <= mag_val 113 (q_mag a)).
    { rewrite q_mag_val by assumption. destruct (Z.eqb_spec (q_exp a) 0); [lia|].
      apply Z.mul_nonneg_nonneg; [lia|]. apply Z.pow_nonneg. lia. }
    pose proof (ref_bits_range (truthy (q_sign a)) (mag_val 113 (q_mag a)) (2 ^ unit_ratio)
      ltac:(assumption) (pow2_pos unit_ratio ltac:(now cbn))) as Hr.
    change (inf_bits 53 0x7FF) with (2047 * 2 ^ 52) in Hr. lia.
Qed.

(** C38: [__trunctfdf2] returns, for every binary128 pattern, the binary64 pattern of the exact
    value rounded to nearest, ties to even, over the whole range: normal and subnormal results,
    overflow to infinity and underflow to zero with the sign of the source; infinities stay, and a
    NaN becomes quiet and keeps the leading bits of its payload.  A non-null [resultBits] receives
    the same pattern. *)
Theorem trunctfdf2_correct a r : is_u 128 a ->
  __trunctfdf2 a = ref_trunc a /\
  oa_trunctfdf2_bits a (Some r) = (ref_trunc a, Some (ref_trunc a)).
Proof.
  intros Ha. destruct (q_fields a Ha) as (_ & _ & Hs & He & Hf).
  destruct (code_fields a Ha) as (C1 & C2 & C3 & C4).
  assert (E : fst (oa_trunctfdf2_bits a None) = ref_trunc a).
  { unfold oa_trunctfdf2_bits, ref_trunc. rewrite C1, C2, C3, C4. cbn [fst].
    pose proof (ref_trunc_mag_range a Ha) as Hm.
    rewrite <- (lor_add _ _ 63 ltac:(lia) Hm) by (apply Z.mod_mul; lia).
    rewrite (Z.lor_comm _ (ref_trunc_mag a)). f_equal. unfold ref_trunc_mag.
    change SRC_EXP_MAX with 0x7FFF. destruct (Z.eqb_spec (q_exp a) 0x7FFF).
    { destruct (q_sig a =? 0); [reflexivity|]. now apply quiet_nan. }
    change (s32 (s32 (q_exp a) - SRC_EXP_BIAS + DST_EXP_BIAS)) with (s32 (s32 (q_exp a) - 16383 + 1023)).
    unfold s32. rewrite (sw_small 32 (q_exp a)) by (unfold is_s; lia).
    rewrite (sw_small 32 (q_exp a - 16383 + 1023)), (sw_small 32 (1 - _)) by (unfold is_s; lia).
    replace (q_exp a - 16383 + 1023) with (q_exp a - 15360) by lia.
    destruct (Z.eqb_spec (q_exp a) 0) as [E0|E0]; cbn [negb andb orb].
    { symmetry. now apply trunc_zero. }
    change (DST_EXP_MAX <=? q_exp a - 15360) with (2047 <=? q_exp a - 15360).
    destruct (Z.leb_spec 2047 (q_exp a - 15360)).
    { rewrite <- (trunc_overflow a) by (assumption || lia). reflexivity. }
    destruct (Z.ltb_spec 0 (q_exp a - 15360)); [apply trunc_normal; (assumption || lia)|].
    replace (1 - (q_exp a - 15360)) with (15361 - q_exp a) by lia.
    apply trunc_small; (assumption || lia). }
  split; [exact E|]. rewrite <- E. reflexivity.
Qed.

Lemma trunctfdf2_witness :
  __trunctfdf2 0x3FFF0000000000000800000000000000 = ref_trunc 0x3FFF0000000000000800000000000000 /\
  __trunctfdf2 0xFFFF0000000000001000000000000000 = 0xFFF8000000000001.
Proof.
  split.
  - exact (proj1 (trunctfdf2_correct 0x3FFF0000000000000800000000000000 0 ltac:(unfold is_u; lia))).
  - rewrite (proj1 (trunctfdf2_correct 0xFFFF0000000000001000000000000000 0 ltac:(unfold is_u; lia))).
    vm_compute. reflexivity.
Defined.
