(* ===== verification/Lwpr.v ===== *)
(** * Light-weight printing

    Models bclib/lwpr/lwpr.c: printing a string, a decimal and a hexadecimal number with
    [putchar].  A routine's effect is the list of characters it writes, most recent last; a
    character is its code, and an [int] is 32 bits wide. *)

From S2P Require Import Prelude.
From S2P Require Import CInt.

(** ** The code *)

(** [while ( *str) putchar( *str++);] on the memory from [str] on. *)
Fixpoint lwpr_print_str (str : list Z) : option (list Z) :=
  match str with
  | [] => None  (* no terminator: reads past the object *)
  | c :: str => if truthy c then option_map (cons c) (lwpr_print_str str) else Some []
  end.

(** The digit loop of [lwpr_print_int]: the buffer [s], in order of [i], and [n]. *)
Definition int_digit_body (st : list Z * Z) : list Z * Z :=
  let '(s, n) := st in (s ++ [s8 (Z.rem n 10 + 48)], Z.quot n 10).

Definition int_digit_cond (st : list Z * Z) : bool := let '(s, n) := st in 0 <? n.

(** [for (; i >= 0; --i) putchar(s[i]);] *)
Definition put_reversed (s : list Z) : list Z := rev s.

(** [n = -n] is taken modulo 2^32. *)
Definition lwpr_print_int (fuel : nat) (n : Z) : option (list Z) :=
  let sign := n in
  let n := if sign <? 0 then s32 (- n) else n in
  match do_while fuel int_digit_body int_digit_cond ([], n) with
  | None => None
  | Some (s, n) =>
    if (50 <? Z.of_nat (length s)) then None  (* overflows [char s[50]] *)
    else Some ((if sign <? 0 then [45] else []) ++ put_reversed s)
  end.

(** The table built by the two loops of [lwpr_print_hex]. *)
Definition hexdigits : list Z :=
  map (fun i => s8 (48 + Z.of_nat i)) (seq 0 10) ++ map (fun i => s8 (97 + Z.of_nat i)) (seq 0 6).

Definition hex_digit_body (st : list Z * Z) : list Z * Z :=
  let '(s, n) := st in (s ++ [nth (Z.to_nat (n mod 16)) hexdigits 0], n / 16).

Definition lwpr_print_hex (fuel : nat) (n : Z) : option (list Z) :=
  match do_while fuel hex_digit_body int_digit_cond ([], n) with
  | None => None
  | Some (s, n) => if (50 <? Z.of_nat (length s)) then None else Some (put_reversed s)
  end.

(** ** Reading back *)

(** The number written by digits [ds], most significant first, in base [b]. *)
Definition digits_value (b : Z) (ds : list Z) : Z := fold_left (fun v d => b * v + d) ds 0.

Definition decimal_digit (c : Z) : Z := c - 48.
Definition hex_digit (c : Z) : Z := if c <? 58 then c - 48 else c - 87.

(** What [strtol] makes of an optional sign and digits. *)
Definition parse_int (cs : list Z) : Z :=
  match cs with
  | [] => 0
  | c :: cs' =>
    if c =? 45 then - digits_value 10 (map decimal_digit cs')
    else digits_value 10 (map decimal_digit cs)
  end.

Definition parse_hex (cs : list Z) : Z := digits_value 16 (map hex_digit cs).

(** The characters 0 to 9, and those with a to f. *)
Definition decimal_char (c : Z) : Prop := 48 <= c < 58.
Definition hexadecimal_char (c : Z) : Prop := 48 <= c < 58 \/ 97 <= c < 103.

(** A number without superfluous zeros: digits, at least one, the first of which is 0 only if it is
    the only one. *)
Definition numeral (digit : Z -> Prop) (ds : list Z) : Prop :=
  Forall digit ds /\ ds <> [] /\ (hd 0 ds = 48 -> ds = [48]).

Example print_120 : lwpr_print_int 11 (-120) = Some [45; 49; 50; 48].
Proof. reflexivity. Qed.
Example print_hex_beef : lwpr_print_hex 9 0xbeef = Some [98; 101; 101; 102].
Proof. reflexivity. Qed.

(** ** The digit loop *)

Lemma digits_value_cons b d ds : digits_value b (d :: ds) = d * b ^ Z.of_nat (length ds) + digits_value b ds.
Proof.
  unfold digits_value. cbn [fold_left]. rewrite Z.mul_0_r, Z.add_0_l.
  enough (H : forall v, fold_left (fun v d => b * v + d) ds v
      = v * b ^ Z.of_nat (length ds) + fold_left (fun v d => b * v + d) ds 0) by apply H.
  induction ds as [|e ds IH]; intros v; cbn [fold_left length].
  - rewrite Z.mul_1_r. lia.
  - rewrite (IH (b * v + e)), (IH (b * 0 + e)), Nat2Z.inj_succ, Z.pow_succ_r by lia. ring.
Qed.

(** The digits of [n] in base [b], least significant first; one digit at least. *)
Fixpoint digits (k : nat) (b n : Z) : list Z :=
  match k with
  | O => []
  | S k => n mod b :: (if 0 <? n / b then digits k b (n / b) else [])
  end.

Lemma digits_spec k b n : 1 < b -> 0 <= n < b ^ Z.of_nat k ->
  digits_value b (rev (digits k b n)) = n /\ (length (digits k b n) <= k)%nat /\
  Forall (fun d => 0 <= d < b) (digits k b n) /\
  (n <> 0 -> last (digits k b n) 0 <> 0) /\ (k <> 0%nat -> digits k b n <> []).
Proof.
  intros Hb. revert n. induction k as [|k IH]; intros n Hn.
  - cbn in *. replace n with 0 by lia. split; [reflexivity|]. split; [lia|]. split; [constructor|].
    split; congruence.
  - rewrite Nat2Z.inj_succ, Z.pow_succ_r in Hn by lia. cbn [digits].
    pose proof (Z.mod_pos_bound n b ltac:(lia)) as Hm. pose proof (Z.div_mod n b ltac:(lia)) as Hd.
    assert (Hq : 0 <= n / b < b ^ Z.of_nat k)
      by (split; [apply Z.div_pos|apply Z.div_lt_upper_bound]; lia).
    destruct (Z.ltb_spec 0 (n / b)) as [Hp|Hp].
    + destruct (IH (n / b) Hq) as (E & L & F & Z0 & N). cbn [rev length].
      split; [|split; [lia|split; [now constructor|split; [|easy]]]].
      * unfold digits_value in *. rewrite fold_left_app, E. cbn. lia.
      * intros _. destruct (digits k b (n / b)) eqn:D.
        { destruct k; [change (b ^ Z.of_nat 0) with 1 in Hq; lia|discriminate]. }
        cbn [last].
        apply Z0. lia.
    + replace (n / b) with 0 in * by lia. cbn. split; [lia|]. split; [lia|].
      split; [now repeat constructor|]. split; [lia|easy].
Qed.

(** A digit loop that divides by [b] and stores the character of the remainder. *)
Lemma digit_loop (body : list Z * Z -> list Z * Z) (f : Z -> Z) b : 1 < b ->
  (forall s n, 0 <= n -> body (s, n) = (s ++ [f (n mod b)], n / b)) ->
  forall k fuel s n, 0 <= n < b ^ Z.of_nat k -> k <> 0%nat -> (k <= fuel)%nat ->
  do_while fuel body int_digit_cond (s, n) = Some (s ++ map f (digits k b n), 0).
Proof.
  intros Hb Hbody. unfold do_while. induction k as [|k IH]; intros fuel s n Hn Hk Hf; [easy|].
  rewrite Hbody by lia. cbn [digits]. rewrite Nat2Z.inj_succ, Z.pow_succ_r in Hn by lia.
  assert (Hq : 0 <= n / b < b ^ Z.of_nat k)
    by (split; [apply Z.div_pos|apply Z.div_lt_upper_bound]; lia).
  destruct fuel as [|fuel]; [lia|]. cbn [while int_digit_cond].
  destruct (Z.ltb_spec 0 (n / b)) as [Hp|Hp].
  - destruct k as [|k]; [cbn in Hq; lia|]. rewrite (IH fuel) by lia. now rewrite <- app_assoc.
  - now replace (n / b) with 0 by lia.
Qed.

(** ** Decimal numbers *)

Lemma int_digit_body_nonneg s n : 0 <= n ->
  int_digit_body (s, n) = (s ++ [n mod 10 + 48], n / 10).
Proof.
  intros Hn. unfold int_digit_body. rewrite Z.rem_mod_nonneg, Z.quot_div_nonneg by lia.
  unfold s8. rewrite sw_small; [reflexivity|lia|]. pose proof (Z.mod_pos_bound n 10). unfold is_s. lia.
Qed.

Lemma map_decimal ds : map decimal_digit (map (fun d => d + 48) ds) = ds.
Proof.
  rewrite map_map. rewrite <- (map_id ds) at 2. apply map_ext. intros d. unfold decimal_digit. lia.
Qed.

(** What is printed for a nonnegative number. *)
Definition decimal (n : Z) : list Z := map (fun d => d + 48) (rev (digits 10 10 n)).

Lemma decimal_value n : 0 <= n < 10 ^ 10 -> digits_value 10 (map decimal_digit (decimal n)) = n.
Proof. intros Hn. unfold decimal. rewrite map_decimal. now apply digits_spec. Qed.

(** The digits of a number, as characters, are a numeral. *)
Lemma digits_numeral k b n (f : Z -> Z) (digit : Z -> Prop) : 1 < b -> 0 <= n < b ^ Z.of_nat k -> k <> 0%nat ->
  (forall d, 0 <= d < b -> digit (f d)) -> f 0 = 48 -> (forall d, 0 <= d < b -> f d = 48 -> d = 0) ->
  numeral digit (map f (rev (digits k b n))).
Proof.
  intros Hb Hn Hk Hf F0 F1. destruct (digits_spec k b n Hb Hn) as (_ & _ & F & L & N). specialize (N Hk).
  assert (Fr : Forall (fun d => 0 <= d < b) (rev (digits k b n))) by now apply Forall_rev.
  split; [|split].
  - apply Forall_map. revert Fr. apply Forall_impl. exact Hf.
  - intros E. apply map_eq_nil in E. apply N. now rewrite <- (rev_involutive (digits k b n)), E.
  - destruct (exists_last N) as (ds & d & E). rewrite E in L, Fr |- *. rewrite rev_app_distr in Fr |- *. cbn [rev app map hd].
    rewrite last_last in L. cbn [rev app] in Fr. inversion Fr as [|? ? Hd _]; subst. intros H48.
    apply F1 in H48; [|exact Hd]. subst d. destruct (Z.eq_dec n 0) as [->|Hn0]; [|now destruct (L Hn0)].
    destruct k as [|k]; [easy|]. cbn [digits] in E. rewrite Z.mod_0_l, Z.div_0_l in E by lia. cbn in E.
    destruct ds as [|x [|? ?]]; [cbn; now rewrite F0 | discriminate..].
Qed.

Lemma decimal_numeral n : 0 <= n < 10 ^ 10 -> numeral decimal_char (decimal n).
Proof.
  intros Hn. apply (digits_numeral 10 10 n (fun d => d + 48)); try lia; unfold decimal_char; intros; lia.
Qed.

Lemma lwpr_print_int_run fuel n : (10 <= fuel)%nat -> - 2 ^ 31 < n < 2 ^ 31 ->
  lwpr_print_int fuel n = Some ((if n <? 0 then [45] else []) ++ decimal (Z.abs n)).
Proof.
  intros Hf Hn. unfold lwpr_print_int.
  assert ((if n <? 0 then s32 (- n) else n) = Z.abs n) as ->.
  { destruct (Z.ltb_spec n 0); [|lia]. unfold s32. rewrite sw_small by (unfold is_s; lia). lia. }
  rewrite (digit_loop int_digit_body (fun d => d + 48) 10 ltac:(lia) int_digit_body_nonneg 10) by lia.
  cbn [app]. destruct (digits_spec 10 10 (Z.abs n) ltac:(lia) ltac:(lia)) as (_ & L & _).
  rewrite length_map. destruct (Z.ltb_spec 50 (Z.of_nat (length (digits 10 10 (Z.abs n))))); [lia|].
  do 2 f_equal. unfold put_reversed, decimal. now rewrite map_rev.
Qed.

(** ** Hexadecimal numbers *)

Definition hex_char (d : Z) : Z := nth (Z.to_nat d) hexdigits 0.

(** The sixteen digits are decided by evaluation. *)
Lemma hex_char_digit d : 0 <= d < 16 -> hex_digit (hex_char d) = d.
Proof.
  intros Hd. assert (H : forallb (fun i => hex_digit (hex_char (Z.of_nat i)) =? Z.of_nat i) (seq 0 16) = true)
    by reflexivity.
  rewrite forallb_forall in H. specialize (H (Z.to_nat d)). rewrite Z2Nat.id in H by lia.
  apply Z.eqb_eq, H, in_seq. lia.
Qed.

Definition hexadecimal (n : Z) : list Z := map hex_char (rev (digits 8 16 n)).

Lemma hexadecimal_numeral n : is_u 32 n -> numeral hexadecimal_char (hexadecimal n).
Proof.
  intros Hn. assert (H : forall d, 0 <= d < 16 -> hexadecimal_char (hex_char d) /\ (hex_char d = 48 -> d = 0)).
  { intros d Hd. unfold hexadecimal_char.
    assert (E : hex_char d = d + (if d <? 10 then 48 else 87)).
    { assert (T : forallb (fun i => hex_char (Z.of_nat i) =? Z.of_nat i + (if Z.of_nat i <? 10 then 48 else 87)) (seq 0 16) = true)
        by reflexivity.
      rewrite forallb_forall in T. specialize (T (Z.to_nat d)). rewrite Z2Nat.id in T by lia.
      apply Z.eqb_eq, T, in_seq. lia. }
    rewrite E. destruct (Z.ltb_spec d 10); lia. }
  apply (digits_numeral 8 16 n hex_char); try lia; [exact Hn | apply H | reflexivity | apply H].
Qed.

Lemma hexadecimal_value n : is_u 32 n -> parse_hex (hexadecimal n) = n.
Proof.
  intros Hn. destruct (digits_spec 8 16 n ltac:(lia) Hn) as (E & _ & F & _).
  unfold parse_hex, hexadecimal. rewrite map_map. etransitivity; [|exact E]. f_equal.
  rewrite <- (map_id (rev _)) at 2. apply map_ext_in. intros d Hd. apply hex_char_digit.
  rewrite <- in_rev in Hd. rewrite Forall_forall in F. now apply F.
Qed.

Lemma lwpr_print_hex_run fuel n : (8 <= fuel)%nat -> is_u 32 n ->
  lwpr_print_hex fuel n = Some (hexadecimal n).
Proof.
  intros Hf Hn. unfold lwpr_print_hex.
  rewrite (digit_loop hex_digit_body hex_char 16 ltac:(lia) (fun s n _ => eq_refl) 8)
    by (unfold is_u in Hn; lia).
  cbn [app]. destruct (digits_spec 8 16 n ltac:(lia) Hn) as (_ & L & _).
  rewrite length_map. destruct (Z.ltb_spec 50 (Z.of_nat (length (digits 8 16 n)))); [lia|].
  f_equal. unfold put_reversed, hexadecimal. now rewrite map_rev.
Qed.

(** ** Correctness *)

Lemma lwpr_print_str_run s rest : ~ In 0 s -> lwpr_print_str (s ++ 0 :: rest) = Some s.
Proof.
  induction s as [|c s IH]; intros H; [reflexivity|]. cbn. unfold truthy.
  destruct (Z.eqb_spec c 0) as [->|]; [exfalso; apply H; now left|]. cbn.
  rewrite IH; [reflexivity|]. intros Hs. apply H. now right.
Qed.

(** C39: what the printing routines write reads back as their argument: [lwpr_print_str] writes the
    characters before the terminator, [lwpr_print_int] for every [int] but the least a minus sign if
    it is negative and then its magnitude in decimal digits, and [lwpr_print_hex] every [unsigned]
    in digits and the letters a to f; a 0 comes first only if it is the only digit, and the digits
    fit the 50-character buffer.  For the least [int] the negation overflows and the text is a minus
    sign and an opening parenthesis. *)
Theorem printing_roundtrip fuel str rest n u : (10 <= fuel)%nat -> ~ In 0 str ->
  - 2 ^ 31 < n < 2 ^ 31 -> is_u 32 u ->
  lwpr_print_str (str ++ 0 :: rest) = Some str /\
  (exists ds, lwpr_print_int fuel n = Some ((if n <? 0 then [45] else []) ++ ds) /\ numeral decimal_char ds /\
     digits_value 10 (map decimal_digit ds) = Z.abs n /\ parse_int ((if n <? 0 then [45] else []) ++ ds) = n) /\
  (exists ds, lwpr_print_hex fuel u = Some ds /\ numeral hexadecimal_char ds /\ parse_hex ds = u) /\
  lwpr_print_int fuel (- 2 ^ 31) = Some [45; 40].
Proof.
  intros Hf Hs Hn Hu. split; [now apply lwpr_print_str_run|]. split; [|split].
  - rewrite lwpr_print_int_run by assumption. exists (decimal (Z.abs n)). split; [reflexivity|].
    pose proof (decimal_value (Z.abs n) ltac:(lia)) as V. pose proof (decimal_numeral (Z.abs n) ltac:(lia)) as N.
    split; [exact N|]. split; [exact V|]. destruct N as (F & N & _).
    destruct (decimal (Z.abs n)) as [|c cs]; [easy|]. apply Forall_inv in F. unfold decimal_char in F.
    destruct (Z.ltb_spec n 0); cbn [app parse_int Z.eqb Pos.eqb]; [lia|]. destruct (Z.eqb_spec c 45); lia.
  - rewrite lwpr_print_hex_run by (assumption || lia). exists (hexadecimal u). split; [reflexivity|].
    split; [now apply hexadecimal_numeral | now apply hexadecimal_value].
  - unfold lwpr_print_int. do 10 (destruct fuel as [|fuel]; [lia|]). reflexivity.
Qed.

Lemma printing_witness : lwpr_print_int 10 (-120) = Some [45; 49; 50; 48] /\
  exists ds, lwpr_print_int 10 (-120) = Some (45 :: ds) /\ numeral decimal_char ds /\ parse_int (45 :: ds) = -120.
Proof.
  split; [reflexivity|].
  destruct (printing_roundtrip 10 [104; 105] [] (-120) 48879 ltac:(lia)) as (_ & (ds & E & N & _ & V) & _).
  - intros [H|[H|[]]]; discriminate H.
  - lia.
  - unfold is_u. lia.
  - exists ds. exact (conj E (conj N V)).
Defined.
