(* ===== verification/OclLauncher.v ===== *)
(** * Launching OpenCL work-groups

    Models data/tcecc/oclc_launcher_single.c, the launcher oacc generates for each kernel: it runs
    the kernel once for every work-group of the grid.  A kernel only reads the context, so that its
    calls are recorded as the list of the contexts they get, in order.  [int], [unsigned] and
    [size_t] are 32 bits wide.  [None] in a context is an uninitialised object. *)

From S2P Require Import Prelude.
From S2P Require Import CInt.

(** ** The code *)

(** The [pocl_context] of a work-group; arrays of three are a component per dimension. *)
Record context : Type := mk_context {
  work_dim : Z;
  global_offset : Z * Z * Z;
  num_groups : option Z * option Z * option Z;
  group_id : option Z * option Z * option Z
}.

Definition size3 : Type := Z * Z * Z.

Definition set_num_groups_yz (y z : Z) (c : context) : context :=
  let '(x, _, _) := num_groups c in
  mk_context (work_dim c) (global_offset c) (x, Some y, Some z) (group_id c).
Definition set_group_id_x (x : Z) (c : context) : context :=
  let '(_, y, z) := group_id c in
  mk_context (work_dim c) (global_offset c) (num_groups c) (Some x, y, z).
Definition set_group_id_y (y : Z) (c : context) : context :=
  let '(x, _, z) := group_id c in
  mk_context (work_dim c) (global_offset c) (num_groups c) (x, Some y, z).
Definition set_group_id_z (z : Z) (c : context) : context :=
  let '(x, y, _) := group_id c in
  mk_context (work_dim c) (global_offset c) (num_groups c) (x, y, Some z).

(** The local variable [context] and the kernel calls made so far. *)
Definition launch_state : Type := context * list context.

Definition on_context (f : context -> context) (s : launch_state) : launch_state := (f (fst s), snd s).

Definition __opencl_launch_wg (s : launch_state) : launch_state := (fst s, snd s ++ [fst s]).

(** [for (unsigned i = from; cond(i); i++) body] *)
Fixpoint for_unsigned (fuel : nat) (i : Z) (cond : Z -> bool)
    (body : Z -> launch_state -> option launch_state) (s : launch_state) : option launch_state :=
  match fuel with
  | O => None
  | S fuel =>
    if cond i then
      match body i s with
      | None => None
      | Some s => for_unsigned fuel (u32 (i + 1)) cond body s
      end
    else Some s
  end.

(** [a / b] of two [size_t], stored in an [int]; division by zero is undefined. *)
Definition size_div (a b : Z) : option Z := if b =? 0 then None else Some (s32 (a / b)).

Definition initial_context (dim : Z) : context :=
  mk_context dim (0, 0, 0) (None, None, None) (None, None, None).

Definition trampoline_1 (fuel : nat) (first_gidx last_gidx : Z) (s : launch_state) : option launch_state :=
  let s := on_context (set_num_groups_yz 1 1) s in
  let s := on_context (set_group_id_y 0) s in
  let s := on_context (set_group_id_z 0) s in
  for_unsigned fuel (u32 first_gidx) (fun gid_x => gid_x <=? u32 last_gidx)
    (fun gid_x s => Some (__opencl_launch_wg (on_context (set_group_id_x gid_x) s))) s.

Definition trampoline_2 (fuel : nat) (num_groups_y first_gidx last_gidx : Z) (s : launch_state)
  : option launch_state :=
  let s := on_context (set_num_groups_yz num_groups_y 1) s in
  let s := on_context (set_group_id_z 0) s in
  for_unsigned fuel (u32 first_gidx) (fun gid_x => gid_x <=? u32 last_gidx)
    (fun gid_x => for_unsigned fuel 0 (fun gid_y => gid_y <? u32 num_groups_y)
       (fun gid_y s =>
          let s := on_context (set_group_id_x gid_x) s in
          let s := on_context (set_group_id_y gid_y) s in
          Some (__opencl_launch_wg s))) s.

Definition trampoline_3 (fuel : nat) (num_groups_y num_groups_z first_gidx last_gidx : Z)
    (s : launch_state) : option launch_state :=
  let s := on_context (set_group_id_y num_groups_y) s in
  let s := on_context (set_group_id_z num_groups_z) s in
  for_unsigned fuel (u32 first_gidx) (fun gid_x => gid_x <=? u32 last_gidx)
    (fun gid_x => for_unsigned fuel 0 (fun gid_y => gid_y <? u32 num_groups_y)
       (fun gid_y => for_unsigned fuel 0 (fun gid_z => gid_z <? u32 num_groups_z)
          (fun gid_z s =>
             let s := on_context (set_group_id_x gid_x) s in
             let s := on_context (set_group_id_y gid_y) s in
             let s := on_context (set_group_id_z gid_z) s in
             Some (__opencl_launch_wg s)))) s.

(** The kernel calls, or [None] for undefined behaviour or when the fuel runs out. *)
Definition __opencl_trampoline (fuel : nat) (work_dim : Z) (local_work_size global_work_size : size3)
    (first_gidx last_gidx : Z) : option (list context) :=
  let '(lx, ly, lz) := local_work_size in
  let '(gx, gy, gz) := global_work_size in
  let local_size_x := s32 lx in
  let global_size_x := s32 gx in
  if local_size_x =? 0 then None
  else
    let s := (initial_context work_dim, []) in
    let r :=
      if work_dim =? 1 then trampoline_1 fuel first_gidx last_gidx s
      else if work_dim =? 2 then
        match size_div gy ly with
        | None => None
        | Some num_groups_y => trampoline_2 fuel num_groups_y first_gidx last_gidx s
        end
      else if work_dim =? 3 then
        match size_div gy ly, size_div gz lz with
        | Some num_groups_y, Some num_groups_z =>
          trampoline_3 fuel num_groups_y num_groups_z first_gidx last_gidx s
        | _, _ => None
        end
      else Some s in
    option_map snd r.

(** The launch at the end of [__opencl_trampoline_mt], without the local buffers. *)
Definition __opencl_trampoline_mt (fuel : nat) (work_dim : Z) (local_work_size global_work_size : size3)
  : option (list context) :=
  let '(lx, _, _) := local_work_size in
  let '(gx, _, _) := global_work_size in
  match size_div gx lx with
  | None => None
  | Some num_groups_x =>
    __opencl_trampoline fuel work_dim local_work_size global_work_size 0 (s32 (num_groups_x - 1))
  end.

Example two_by_two : option_map (map group_id) (__opencl_trampoline_mt 3 2 (8, 4, 1) (16, 8, 1))
  = Some [(Some 0, Some 0, Some 0); (Some 0, Some 1, Some 0); (Some 1, Some 0, Some 0); (Some 1, Some 1, Some 0)].
Proof. reflexivity. Qed.
Example two_by_one_by_two : option_map (map group_id) (__opencl_trampoline_mt 3 3 (8, 4, 1) (16, 4, 2))
  = Some [(Some 0, Some 0, Some 0); (Some 0, Some 0, Some 1); (Some 1, Some 0, Some 0); (Some 1, Some 0, Some 1)].
Proof. reflexivity. Qed.

(** ** The loops *)

(** The indices [i, i + 1, ...] of [n] iterations. *)
Fixpoint range (i : Z) (n : nat) : list Z :=
  match n with O => [] | S n => i :: range (i + 1) n end.

(** A loop whose iterations keep [P] of the context and append the calls [out]. *)
Lemma for_unsigned_run (P : context -> Prop) cond body (out : Z -> list context) :
  forall n fuel i c t, 0 <= i -> i + Z.of_nat n < 2 ^ 32 -> (n < fuel)%nat -> P c ->
  (forall j, i <= j < i + Z.of_nat n -> cond j = true) -> cond (i + Z.of_nat n) = false ->
  (forall j c t, i <= j < i + Z.of_nat n -> P c -> exists c', body j (c, t) = Some (c', t ++ out j) /\ P c') ->
  exists c', for_unsigned fuel i cond body (c, t) = Some (c', t ++ flat_map out (range i n)) /\ P c'.
Proof.
  intros n. induction n as [|n IH]; intros [|fuel] i c t Hi Hn Hf HP Hc He Hb; try lia.
  - cbn [for_unsigned]. rewrite Z.add_0_r in He. rewrite He. cbn. rewrite app_nil_r. eauto.
  - cbn [for_unsigned]. destruct (Hb i c t) as (c1 & E1 & P1); [lia|exact HP|].
    rewrite (Hc i), E1 by lia. unfold u32. rewrite uw_small by (unfold is_u; lia).
    destruct (IH fuel (i + 1) c1 (t ++ out i)) as (c2 & E2 & P2); try lia; try assumption.
    + intros j Hj. apply Hc. lia.
    + now replace (i + 1 + Z.of_nat n) with (i + Z.of_nat (S n)) by lia.
    + intros j c' t' Hj. apply Hb. lia.
    + exists c2. split; [|exact P2]. rewrite E2. cbn [range flat_map]. now rewrite app_assoc.
Qed.

(** The two kinds of loop of the launcher. *)
Lemma loop_lt P body out n fuel c t : 0 <= n < 2 ^ 31 -> (Z.to_nat n < fuel)%nat -> P c ->
  (forall j c t, 0 <= j < n -> P c -> exists c', body j (c, t) = Some (c', t ++ out j) /\ P c') ->
  exists c', for_unsigned fuel 0 (fun j => j <? u32 n) body (c, t)
    = Some (c', t ++ flat_map out (range 0 (Z.to_nat n))) /\ P c'.
Proof.
  intros Hn Hf HP Hb. unfold u32. rewrite uw_small by (unfold is_u; lia).
  apply (for_unsigned_run P); rewrite ?Z2Nat.id by lia; try lia; try assumption.
Qed.

Lemma loop_le P body out n fuel c t : 0 < n < 2 ^ 31 -> (Z.to_nat n < fuel)%nat -> P c ->
  (forall j c t, 0 <= j < n -> P c -> exists c', body j (c, t) = Some (c', t ++ out j) /\ P c') ->
  exists c', for_unsigned fuel (u32 0) (fun j => j <=? u32 (s32 (n - 1))) body (c, t)
    = Some (c', t ++ flat_map out (range 0 (Z.to_nat n))) /\ P c'.
Proof.
  intros Hn Hf HP Hb. unfold u32, s32. rewrite uw_sw, !uw_small by (unfold is_u; lia).
  apply (for_unsigned_run P); rewrite ?Z2Nat.id by lia; try lia; try assumption.
Qed.

(** ** The calls *)

Definition grid1 (nx : Z) : list context :=
  flat_map (fun x => [mk_context 1 (0, 0, 0) (None, Some 1, Some 1) (Some x, Some 0, Some 0)])
    (range 0 (Z.to_nat nx)).

Definition grid2 (nx ny : Z) : list context :=
  flat_map (fun x => flat_map (fun y =>
      [mk_context 2 (0, 0, 0) (None, Some ny, Some 1) (Some x, Some y, Some 0)])
    (range 0 (Z.to_nat ny))) (range 0 (Z.to_nat nx)).

Definition grid3 (nx ny nz : Z) : list context :=
  flat_map (fun x => flat_map (fun y => flat_map (fun z =>
      [mk_context 3 (0, 0, 0) (None, None, None) (Some x, Some y, Some z)])
    (range 0 (Z.to_nat nz))) (range 0 (Z.to_nat ny))) (range 0 (Z.to_nat nx)).

Lemma trampoline_1_run fuel nx : 0 < nx < 2 ^ 31 -> (Z.to_nat nx < fuel)%nat ->
  option_map snd (trampoline_1 fuel 0 (s32 (nx - 1)) (initial_context 1, [])) = Some (grid1 nx).
Proof.
  intros Hn Hf. unfold trampoline_1, on_context. cbn [fst snd].
  destruct (loop_le (fun c => exists x, c = mk_context 1 (0, 0, 0) (None, Some 1, Some 1) (x, Some 0, Some 0))
    (fun x s => Some (__opencl_launch_wg (on_context (set_group_id_x x) s)))
    (fun x => [mk_context 1 (0, 0, 0) (None, Some 1, Some 1) (Some x, Some 0, Some 0)])
    nx fuel (mk_context 1 (0, 0, 0) (None, Some 1, Some 1) (None, Some 0, Some 0)) [] Hn Hf)
    as (c & E & _).
  - now exists None.
  - intros j c t _ [x ->]. eexists. split; [reflexivity|]. now exists (Some j).
  - exact (f_equal (option_map snd) E).
Qed.

Lemma trampoline_2_run fuel nx ny : 0 < nx < 2 ^ 31 -> 0 <= ny < 2 ^ 31 ->
  (Z.to_nat nx < fuel)%nat -> (Z.to_nat ny < fuel)%nat ->
  option_map snd (trampoline_2 fuel ny 0 (s32 (nx - 1)) (initial_context 2, [])) = Some (grid2 nx ny).
Proof.
  intros Hx Hy Hfx Hfy. unfold trampoline_2.
  set (P := fun c => exists x y, c = mk_context 2 (0, 0, 0) (None, Some ny, Some 1) (x, y, Some 0)).
  match goal with |- option_map snd (for_unsigned _ _ _ ?b ?s) = _ =>
    destruct (loop_le P b (fun x => flat_map (fun y =>
      [mk_context 2 (0, 0, 0) (None, Some ny, Some 1) (Some x, Some y, Some 0)]) (range 0 (Z.to_nat ny)))
      nx fuel (fst s) [] Hx Hfx) as (c & E & _) end.
  - eexists _, _. reflexivity.
  - intros x c t _ HP. apply (loop_lt P); [exact Hy|exact Hfy|exact HP|].
    intros y c' t' _ (x0 & y0 & ->). eexists. split; [reflexivity|]. eexists _, _. reflexivity.
  - exact (f_equal (option_map snd) E).
Qed.

Lemma trampoline_3_run fuel nx ny nz : 0 < nx < 2 ^ 31 -> 0 <= ny < 2 ^ 31 -> 0 <= nz < 2 ^ 31 ->
  (Z.to_nat nx < fuel)%nat -> (Z.to_nat ny < fuel)%nat -> (Z.to_nat nz < fuel)%nat ->
  option_map snd (trampoline_3 fuel ny nz 0 (s32 (nx - 1)) (initial_context 3, [])) = Some (grid3 nx ny nz).
Proof.
  intros Hx Hy Hz Hfx Hfy Hfz. unfold trampoline_3.
  set (P := fun c => exists x y z, c = mk_context 3 (0, 0, 0) (None, None, None) (x, y, z)).
  set (row := fun x y => flat_map (fun z =>
    [mk_context 3 (0, 0, 0) (None, None, None) (Some x, Some y, Some z)]) (range 0 (Z.to_nat nz))).
  match goal with |- option_map snd (for_unsigned _ _ _ ?b ?s) = _ =>
    destruct (loop_le P b (fun x => flat_map (row x) (range 0 (Z.to_nat ny)))
      nx fuel (fst s) [] Hx Hfx) as (c & E & _) end.
  - eexists _, _, _. reflexivity.
  - intros x c t _ HP. apply (loop_lt P); [exact Hy|exact Hfy|exact HP|].
    intros y c' t' _ HP'. apply (loop_lt P); [exact Hz|exact Hfz|exact HP'|].
    intros z c'' t'' _ (x0 & y0 & z0 & ->). eexists. split; [reflexivity|]. eexists _, _, _. reflexivity.
  - exact (f_equal (option_map snd) E).
Qed.

(** ** Correctness *)

Lemma size_div_pos a b : 0 < b -> 0 <= a < 2 ^ 31 -> size_div a b = Some (a / b) /\ 0 <= a / b < 2 ^ 31.
Proof.
  intros Hb Ha. assert (0 <= a / b < 2 ^ 31).
  { split; [apply Z.div_pos|apply Z.div_lt_upper_bound]; nia. }
  unfold size_div. destruct (Z.eqb_spec b 0); [lia|]. unfold s32.
  rewrite sw_small by (unfold is_s; lia). easy.
Qed.

(** C40: in one, two and three dimensions the launcher calls the kernel once for every work-group of
    the grid, in lexicographic order of the group ids, which the context holds.  In one and two
    dimensions the context also has the number of groups in the second and third dimension, while
    that of the first is left uninitialised; in three dimensions all three numbers of groups are,
    since the code that should store two of them stores into the group ids instead. *)
Theorem launcher_calls fuel dim lx ly lz gx gy gz :
  0 < lx < 2 ^ 31 -> 0 < ly -> 0 < lz -> lx <= gx < 2 ^ 31 -> 0 <= gy < 2 ^ 31 -> 0 <= gz < 2 ^ 31 ->
  (Z.to_nat (Z.max (gx / lx) (Z.max (gy / ly) (gz / lz))) < fuel)%nat -> 1 <= dim <= 3 ->
  __opencl_trampoline_mt fuel dim (lx, ly, lz) (gx, gy, gz)
  = Some (if dim =? 1 then grid1 (gx / lx)
          else if dim =? 2 then grid2 (gx / lx) (gy / ly)
          else grid3 (gx / lx) (gy / ly) (gz / lz)).
Proof.
  intros Hlx Hly Hlz Hgx Hgy Hgz Hf Hd.
  destruct (size_div_pos gx lx ltac:(lia) ltac:(lia)) as (Ex & Rx).
  destruct (size_div_pos gy ly ltac:(lia) ltac:(lia)) as (Ey & Ry).
  destruct (size_div_pos gz lz ltac:(lia) ltac:(lia)) as (Ez & Rz).
  assert (0 < gx / lx) by (apply Z.div_str_pos; lia).
  unfold __opencl_trampoline_mt, __opencl_trampoline. rewrite Ex.
  assert ((s32 lx =? 0) = false) as ->.
  { unfold s32. rewrite sw_small by (unfold is_s; lia). apply Z.eqb_neq. lia. }
  assert (dim = 1 \/ dim = 2 \/ dim = 3) as [->|[->| ->]] by lia; cbn [Z.eqb Pos.eqb]; rewrite ?Ey, ?Ez.
  - apply trampoline_1_run; lia.
  - apply trampoline_2_run; lia.
  - apply trampoline_3_run; lia.
Qed.

Lemma launcher_witness : __opencl_trampoline_mt 4 3 (8, 4, 2) (16, 8, 6) = Some (grid3 2 2 3) /\ length (grid3 2 2 3) = 12%nat.
Proof. split; [|reflexivity]. apply (launcher_calls 4 3 8 4 2 16 8 6); cbn; lia. Defined.
