(* ===== verification/Pthread.v ===== *)
(** * Threads

    Models newlib/libc/sys/tce/pthread_tce.c: the list of threads, their creation and removal,
    and the scheduler the timer calls.  Thread records live in a heap of addresses; following a
    null pointer or a pointer to a freed record is a fault.  [malloc] is given by its result. *)

From S2P Require Import Prelude.
From stdpp Require Import base gmap list.
Open Scope Z_scope.

(** ** Data *)

(** Addresses of thread records; a null pointer is [None]. *)
Abbreviation loc := positive.

(** What the words stored in a stack, and stack pointers, are. *)
Inductive word : Type :=
| WNull
| WStack (thread : loc) (index : Z)  (* [&thread->stack[index]] *)
| WThread (thread : loc)
| WCode (start_routine : Z)
| WArg (arg : Z)
| WRemoveActiveThread.               (* [&removeActiveThread] *)

Definition STACK_SIZE : Z := 4096.

Record ThreadInfo : Type := mk_ThreadInfo {
  prev : option loc;
  next : option loc;
  dead_next : option loc;
  sp : word;
  stack : gmap Z word
}.

(** The heap, [thread_lock] and [threadInternals]. *)
Record state : Type := mk_state {
  heap : gmap loc ThreadInfo;
  thread_lock : Z;
  firstThread : option loc;
  lastThread : option loc;
  currentThread : option loc;
  deadThreads : option loc
}.

(** The statically allocated record of the main thread. *)
Definition mainThread : loc := 1%positive.

Definition initial : state :=
  mk_state {[ mainThread := mk_ThreadInfo None None None WNull ∅ ]} 0
    (Some mainThread) (Some mainThread) (Some mainThread) None.

(** ** Effects *)

Inductive outcome (A : Type) : Type :=
| Ok (x : A) (st : state)
| Spin            (* waits in a loop that this thread cannot leave *)
| Fault           (* follows a null or dangling pointer, or frees twice *)
| Exit.           (* [exit(0)] *)
Arguments Ok {A} x st.
Arguments Spin {A}.
Arguments Fault {A}.
Arguments Exit {A}.

Definition M (A : Type) : Type := state -> outcome A.

Definition ret {A} (x : A) : M A := Ok x.

Definition bind {A B} (m : M A) (k : A -> M B) : M B :=
  fun st => match m st with
            | Ok x st' => k x st'
            | Spin => Spin
            | Fault => Fault
            | Exit => Exit
            end.

Notation "x <-- m ; k" := (bind m (fun x => k)) (at level 100, m at level 99, right associativity).
Notation "m ;;; k" := (bind m (fun _ => k)) (at level 100, right associativity).

Definition get : M state := fun st => Ok st st.
Definition modify (f : state -> state) : M unit := fun st => Ok tt (f st).

Definition set_heap (h : gmap loc ThreadInfo) (st : state) : state :=
  mk_state h (thread_lock st) (firstThread st) (lastThread st) (currentThread st) (deadThreads st).
Definition set_lock (v : Z) (st : state) : state :=
  mk_state (heap st) v (firstThread st) (lastThread st) (currentThread st) (deadThreads st).
Definition set_last (p : option loc) (st : state) : state :=
  mk_state (heap st) (thread_lock st) (firstThread st) p (currentThread st) (deadThreads st).
Definition set_current (p : option loc) (st : state) : state :=
  mk_state (heap st) (thread_lock st) (firstThread st) (lastThread st) p (deadThreads st).
Definition set_dead (p : option loc) (st : state) : state :=
  mk_state (heap st) (thread_lock st) (firstThread st) (lastThread st) (currentThread st) p.

(** [*p] and [p->field = ...]. *)
Definition load (p : option loc) : M ThreadInfo := fun st =>
  match p with
  | None => Fault
  | Some a => match heap st !! a with None => Fault | Some ti => Ok ti st end
  end.

Definition store (p : option loc) (f : ThreadInfo -> ThreadInfo) : M unit := fun st =>
  match p with
  | None => Fault
  | Some a => match heap st !! a with
              | None => Fault
              | Some ti => Ok tt (set_heap (<[a := f ti]> (heap st)) st)
              end
  end.

Definition with_prev (p : option loc) (ti : ThreadInfo) : ThreadInfo :=
  mk_ThreadInfo p (next ti) (dead_next ti) (sp ti) (stack ti).
Definition with_next (p : option loc) (ti : ThreadInfo) : ThreadInfo :=
  mk_ThreadInfo (prev ti) p (dead_next ti) (sp ti) (stack ti).
Definition with_dead_next (p : option loc) (ti : ThreadInfo) : ThreadInfo :=
  mk_ThreadInfo (prev ti) (next ti) p (sp ti) (stack ti).
Definition with_sp (w : word) (ti : ThreadInfo) : ThreadInfo :=
  mk_ThreadInfo (prev ti) (next ti) (dead_next ti) w (stack ti).
Definition with_stack (i : Z) (w : word) (ti : ThreadInfo) : ThreadInfo :=
  mk_ThreadInfo (prev ti) (next ti) (dead_next ti) (sp ti) (<[i := w]> (stack ti)).

(** [free(p)]. *)
Definition free (p : option loc) : M unit := fun st =>
  match p with
  | None => Ok tt st
  | Some a => match heap st !! a with
              | None => Fault
              | Some _ => Ok tt (set_heap (delete a (heap st)) st)
              end
  end.

(** ** Locks *)

Definition testandset (lockVar : Z) : Z * Z := (b2z (truthy lockVar), 1).
Definition releaselock (lockVar : Z) : Z := 0.

(** [WAIT_LOCK(thread_lock)]: once taken by someone else, every further test fails too. *)
Definition WAIT_LOCK : M unit := fun st =>
  let '(retVal, lock) := testandset (thread_lock st) in
  if truthy retVal then Spin else Ok tt (set_lock lock st).

Definition RELEASE_LOCK : M unit := modify (fun st => set_lock (releaselock (thread_lock st)) st).

(** ** The thread list *)

(** [while (currInfo != NULL) { if (currInfo == infoToFind) return 1; currInfo = currInfo->next; }] *)
Fixpoint find_thread (fuel : nat) (infoToFind currInfo : option loc) : M Z :=
  match fuel with
  | O => fun _ => Spin
  | S n =>
    match currInfo with
    | None => ret 0
    | Some c =>
      if decide (currInfo = infoToFind) then ret 1
      else ti <-- load currInfo ; find_thread n infoToFind (next ti)
    end
  end.

Definition isThreadInfoActive (fuel : nat) (infoToFind : option loc) : M Z :=
  ti <-- load (Some mainThread) ; find_thread fuel infoToFind (next ti).

Definition removeThreadInfo (threadToKill : option loc) : M unit :=
  WAIT_LOCK ;;;
  ti <-- load threadToKill ;
  store (prev ti) (with_next (next ti)) ;;;
  ti <-- load threadToKill ;
  match next ti with
  | Some _ => store (next ti) (with_prev (prev ti))
  | None => modify (set_last (prev ti))
  end ;;;
  st <-- get ;
  store threadToKill (with_dead_next (deadThreads st)) ;;;
  modify (set_dead threadToKill) ;;;
  RELEASE_LOCK.

Definition removeActiveThread : M unit :=
  st <-- get ; removeThreadInfo (currentThread st).

(** [malloc] returned [p]; the record's fields are not initialised. *)
Definition malloc_record (p : option loc) : M unit :=
  match p with
  | None => ret tt
  | Some a => modify (fun st => set_heap (<[a := mk_ThreadInfo None None None WNull ∅]> (heap st)) st)
  end.

Definition addThreadInfo (malloc : option loc) (lastThread : option loc) (start_routine arg : Z)
  : M (option loc) :=
  WAIT_LOCK ;;;
  malloc_record malloc ;;;
  match malloc with
  | None => ret tt
  | Some a =>
    let newThread := malloc in
    store newThread (with_dead_next None) ;;;
    match lastThread with
    | Some _ =>
      store lastThread (with_next newThread) ;;;
      store newThread (with_prev lastThread) ;;;
      store newThread (with_next None)
    | None =>
      store newThread (with_prev None) ;;;
      store newThread (with_next None)
    end ;;;
    store newThread (with_sp (WStack a (STACK_SIZE - 5))) ;;;
    ti <-- load newThread ;
    store newThread (with_stack (STACK_SIZE - 5) (sp ti)) ;;;
    store newThread (with_stack (STACK_SIZE - 4) (WCode start_routine)) ;;;
    store newThread (with_stack (STACK_SIZE - 3) (WArg arg)) ;;;
    store newThread (with_stack (STACK_SIZE - 2) WRemoveActiveThread) ;;;
    store newThread (with_stack (STACK_SIZE - 1) (WThread a))
  end ;;;
  RELEASE_LOCK ;;;
  ret malloc.

(** ** The scheduler *)

Fixpoint freeDeadThreads (fuel : nat) : M unit :=
  match fuel with
  | O => fun _ => Spin
  | S n =>
    st <-- get ;
    if decide (deadThreads st <> None /\ deadThreads st <> currentThread st) then
      let current := deadThreads st in
      ti <-- load current ;
      modify (set_dead (dead_next ti)) ;;;
      free current ;;;
      freeDeadThreads n
    else ret tt
  end.

Definition __tce_schedule_next_thread (fuel : nat) (w : word) : M word :=
  st <-- get ;
  let '(retVal, lock) := testandset (thread_lock st) in
  modify (set_lock lock) ;;;
  if truthy retVal then ret w
  else
    store (currentThread st) (with_sp w) ;;;
    ti <-- load (currentThread st) ;
    modify (set_current (next ti)) ;;;
    match next ti with
    | None => modify (set_current (firstThread st)) ;;; freeDeadThreads fuel
    | Some _ => ret tt
    end ;;;
    st <-- get ;
    ti <-- load (currentThread st) ;
    RELEASE_LOCK ;;;
    ret (sp ti).

(** ** The interface *)

(** The result code and the stored [*__pthread]. *)
Definition pthread_create (malloc : option loc) (start_routine arg : Z) : M (Z * option loc) :=
  st <-- get ;
  pthread <-- addThreadInfo malloc (lastThread st) start_routine arg ;
  modify (set_last pthread) ;;;
  match pthread with
  | None => ret (1, pthread)
  | Some _ => ret (0, pthread)
  end.

(** [while (isThreadInfoActive(__pthread));]: only another thread can end the wait. *)
Definition pthread_join (fuel : nat) (pthread : option loc) : M unit :=
  r <-- isThreadInfoActive fuel pthread ;
  if truthy r then (fun _ => Spin) else ret tt.

Definition pthread_exit : M unit :=
  st <-- get ;
  if decide (currentThread st = Some mainThread) then (fun _ => Exit)
  else removeThreadInfo (currentThread st).

(** ** Well-formed states

    [l] is the list of threads from the main thread on, [d] the list of the removed ones. *)

Record wf (st : state) (l d : list loc) : Prop := mk_wf {
  wf_nodup : NoDup (l ++ d);
  wf_main : l !! 0%nat = Some mainThread;
  wf_list : forall i a, l !! i = Some a ->
    exists ti, heap st !! a = Some ti /\ next ti = l !! S i /\
      prev ti = match i with O => None | S j => l !! j end;
  wf_dead : forall i a, d !! i = Some a ->
    exists ti, heap st !! a = Some ti /\ dead_next ti = d !! S i;
  wf_lock : thread_lock st = 0;
  wf_first : firstThread st = Some mainThread;
  wf_last : lastThread st = last l;
  wf_deadhead : deadThreads st = d !! 0%nat;
  wf_current : exists c ti, currentThread st = Some c /\ c ∈ l ++ d /\ heap st !! c = Some ti /\
    (next ti = None \/ exists n, next ti = Some n /\ n ∈ l)
}.

Lemma initial_wf : wf initial [mainThread] [].
Proof.
  split; try reflexivity.
  - rewrite app_nil_r. apply NoDup_singleton.
  - intros [|i] a H; [|done]. injection H as <-. eexists. split; [apply lookup_singleton_eq|]. done.
  - done.
  - exists mainThread. eexists. split; [done|]. split; [set_solver|].
    split; [apply lookup_singleton_eq|]. by left.
Qed.

(** Running a heap operation. *)
Lemma load_ok a ti st : heap st !! a = Some ti -> load (Some a) st = Ok ti st.
Proof. intros H. unfold load. by rewrite H. Qed.

Lemma store_ok a f ti st : heap st !! a = Some ti ->
  store (Some a) f st = Ok tt (set_heap (<[a := f ti]> (heap st)) st).
Proof. intros H. unfold store. by rewrite H. Qed.

Lemma free_ok a ti st : heap st !! a = Some ti ->
  free (Some a) st = Ok tt (set_heap (delete a (heap st)) st).
Proof. intros H. unfold free. by rewrite H. Qed.

Lemma bind_ok {A B} (m : M A) (k : A -> M B) st x st' : m st = Ok x st' -> bind m k st = k x st'.
Proof. intros H. unfold bind. by rewrite H. Qed.

Lemma bind_assoc {A B C} (m : M A) (f : A -> M B) (g : B -> M C) st :
  bind (bind m f) g st = bind m (fun x => bind (f x) g) st.
Proof. unfold bind. by destruct (m st). Qed.

Lemma wait_lock_ok st : thread_lock st = 0 -> WAIT_LOCK st = Ok tt (set_lock 1 st).
Proof. intros H. unfold WAIT_LOCK, testandset. by rewrite H. Qed.

(** Symbolic execution: each step rewrites with the operation's result. *)
Ltac step := cbv beta iota zeta; rewrite ?bind_assoc; erewrite bind_ok; [|
  first [ apply wait_lock_ok; cbn; assumption
        | apply load_ok; cbn; simplify_map_eq; reflexivity
        | apply store_ok; cbn; simplify_map_eq; reflexivity
        | eapply free_ok; cbn; simplify_map_eq; reflexivity
        | reflexivity ]].

Lemma state_eq st st' : heap st = heap st' -> thread_lock st = thread_lock st' ->
  firstThread st = firstThread st' -> lastThread st = lastThread st' ->
  currentThread st = currentThread st' -> deadThreads st = deadThreads st' -> st = st'.
Proof. destruct st, st'; cbn. congruence. Qed.

(** Equality of two heaps that were updated at [p] and [q] only. *)
Ltac map_lookup p q :=
  apply map_eq; intros ?a; destruct (decide (a = p)) as [->|];
  [by simplify_map_eq | destruct (decide (a = q)) as [->|]; by simplify_map_eq].

(** The stack of a new thread: five words below its end. *)
Definition first_frame (p : loc) (start_routine arg : Z) : gmap Z word :=
  <[4095 := WThread p]> (<[4094 := WRemoveActiveThread]> (<[4093 := WArg arg]>
    (<[4092 := WCode start_routine]> {[ 4091 := WStack p 4091 ]}))).

Definition new_thread (p : loc) (prev : option loc) (start_routine arg : Z) : ThreadInfo :=
  mk_ThreadInfo prev None None (WStack p 4091) (first_frame p start_routine arg).

Lemma addThreadInfo_linked st p q tq f x : thread_lock st = 0 -> heap st !! p = None ->
  heap st !! q = Some tq ->
  addThreadInfo (Some p) (Some q) f x st
  = Ok (Some p) (set_heap (<[p := new_thread p (Some q) f x]> (<[q := with_next (Some p) tq]> (heap st))) st).
Proof.
  intros Hl Hp Hq. assert (Hpq : p <> q) by congruence. unfold addThreadInfo.
  step. unfold malloc_record. do 13 step. unfold ret. f_equal. apply state_eq; cbn; try done.
  map_lookup p q.
Qed.

(** Without a predecessor the record is not linked anywhere. *)
Lemma addThreadInfo_unlinked st p f x : thread_lock st = 0 -> heap st !! p = None ->
  addThreadInfo (Some p) None f x st
  = Ok (Some p) (set_heap (<[p := new_thread p None f x]> (heap st)) st).
Proof.
  intros Hl Hp. unfold addThreadInfo. step. unfold malloc_record. do 12 step. unfold ret. f_equal.
  apply state_eq; cbn; try done. map_lookup p p.
Qed.

Lemma addThreadInfo_failed st q f x : thread_lock st = 0 ->
  addThreadInfo None q f x st = Ok None st.
Proof.
  intros Hl. unfold addThreadInfo. step. unfold malloc_record. do 3 step. unfold ret. f_equal.
  by apply state_eq.
Qed.

(** ** Creation *)

Section Wf.
Context (st : state) (l d : list loc) (W : wf st l d).

Lemma wf_l_heap i a : l !! i = Some a -> is_Some (heap st !! a).
Proof using W. intros H. destruct (wf_list _ _ _ W _ _ H) as (ti & ? & _). eauto. Qed.

Lemma wf_d_heap i a : d !! i = Some a -> is_Some (heap st !! a).
Proof using W. intros H. destruct (wf_dead _ _ _ W _ _ H) as (ti & ? & _). eauto. Qed.

Lemma wf_fresh p : heap st !! p = None -> p ∉ l ++ d.
Proof using W.
  intros Hp [Hin|Hin]%elem_of_app; apply list_elem_of_lookup in Hin as [i Hi].
  - destruct (wf_l_heap _ _ Hi). congruence.
  - destruct (wf_d_heap _ _ Hi). congruence.
Qed.

Lemma wf_l_inj i j a : l !! i = Some a -> l !! j = Some a -> i = j.
Proof using W. pose proof (wf_nodup _ _ _ W) as N. apply NoDup_app in N as (N & _). by apply NoDup_lookup. Qed.

Lemma wf_disjoint i j a : l !! i = Some a -> d !! j = Some a -> False.
Proof using W.
  intros Hi Hj. pose proof (wf_nodup _ _ _ W) as N. apply NoDup_app in N as (_ & N & _).
  apply (N a); by eapply list_elem_of_lookup_2.
Qed.

Lemma wf_last_thread : exists q j tq, last l = Some q /\ l !! j = Some q /\ l !! S j = None /\
  length l = S j /\ heap st !! q = Some tq.
Proof using W.
  pose proof (lookup_lt_Some _ _ _ (wf_main _ _ _ W)) as Hm.
  destruct (lookup_lt_is_Some_2 l (length l - 1)) as [q Hq]; [lia|].
  destruct (wf_l_heap _ _ Hq) as [tq Htq]. exists q, (length l - 1)%nat, tq.
  split; [rewrite last_lookup, <- Hq; f_equal; lia|]. split; [done|].
  split; [apply lookup_ge_None_2; lia|]. split; [lia|done].
Qed.

End Wf.

Lemma lookup_snoc {A} (l : list A) p i a :
  (l ++ [p]) !! i = Some a <-> l !! i = Some a \/ i = length l /\ a = p.
Proof.
  rewrite lookup_app_Some. split.
  - intros [H|[Hi H]]; [by left|]. right. apply list_lookup_singleton_Some in H. split; [lia|naive_solver].
  - intros [H|[-> ->]]; [by left|]. right. split; [done|]. by rewrite Nat.sub_diag.
Qed.

Lemma wf_create st l d p q tq f x : wf st l d -> heap st !! p = None -> last l = Some q ->
  heap st !! q = Some tq ->
  wf (set_last (Some p) (set_heap (<[p := new_thread p (Some q) f x]> (<[q := with_next (Some p) tq]> (heap st))) st))
    (l ++ [p]) d.
Proof.
  intros W Hp Hl Hq. pose proof (wf_fresh _ _ _ W _ Hp) as Hf. apply not_elem_of_app in Hf as [Hpl Hpd].
  destruct (wf_last_thread _ _ _ W) as (q' & j & tq' & E & Hj & HSj & Hlen & E2).
  assert (q' = q) as -> by congruence. assert (tq' = tq) as -> by congruence. clear E E2.
  assert (Hpq : p <> q) by congruence.
  split; cbn.
  - rewrite <- app_assoc. pose proof (wf_nodup _ _ _ W) as N. apply NoDup_app in N as (N1 & N2 & N3).
    apply NoDup_app. split; [done|]. split.
    + intros a Ha. specialize (N2 a Ha). set_solver.
    + by constructor.
  - rewrite lookup_app_l; [apply W|]. apply (lookup_lt_Some _ _ _ (wf_main _ _ _ W)).
  - intros i a H. apply lookup_snoc in H as [H|[-> ->]].
    + destruct (wf_list _ _ _ W _ _ H) as (ti & Hti & Hn & Hpr).
      assert (a <> p) by congruence. destruct (decide (a = q)) as [->|].
      * assert (i = j) as -> by (by eapply wf_l_inj). assert (ti = tq) as -> by congruence.
        exists (with_next (Some p) tq). split; [by simplify_map_eq|]. cbn.
        split; [symmetry; apply lookup_snoc; by right|]. rewrite Hpr. destruct j; [done|].
        symmetry. apply lookup_app_l. lia.
      * exists ti. split; [by simplify_map_eq|]. pose proof (lookup_lt_Some _ _ _ H).
        assert (i <> j) by congruence. split.
        -- rewrite Hn. symmetry. apply lookup_app_l. lia.
        -- rewrite Hpr. destruct i; [done|]. symmetry. apply lookup_app_l. lia.
    + exists (new_thread p (Some q) f x). split; [by simplify_map_eq|]. cbn. split.
      * symmetry. apply lookup_ge_None_2. rewrite length_app. cbn. lia.
      * rewrite Hlen. symmetry. rewrite lookup_app_l; [done|lia].
  - intros i a H. destruct (wf_dead _ _ _ W _ _ H) as (ti & Hti & Hn).
    assert (a <> q) by (intros ->; eapply wf_disjoint; eauto).
    assert (a <> p) by congruence. exists ti. split; [by simplify_map_eq|done].
  - apply W.
  - apply W.
  - by rewrite last_snoc.
  - apply W.
  - destruct (wf_current _ _ _ W) as (c & ti & Hc & Hin & Hti & Hn).
    assert (c <> p) by congruence.
    assert (Hin2 : c ∈ (l ++ [p]) ++ d) by (clear Hn; set_solver).
    exists c. destruct (decide (c = q)) as [->|].
    + exists (with_next (Some p) tq). split; [done|]. split; [done|].
      split; [by simplify_map_eq|]. right. exists p. split; [done|]. apply elem_of_app. right.
      by apply list_elem_of_singleton.
    + exists ti. split; [done|]. split; [done|]. split; [by simplify_map_eq|].
      destruct Hn as [Hn|(k & Hn & Hn')]; [by left|right; exists k; split; [done|]].
      apply elem_of_app. by left.
Qed.

(** The state after a successful creation. *)
Definition created (st : state) (p q : loc) (tq : ThreadInfo) (f x : Z) : state :=
  set_last (Some p)
    (set_heap (<[p := new_thread p (Some q) f x]> (<[q := with_next (Some p) tq]> (heap st))) st).

Lemma create_exact st l d p f x : wf st l d -> heap st !! p = None ->
  exists q tq, last l = Some q /\ heap st !! q = Some tq /\
    pthread_create (Some p) f x st = Ok (0, Some p) (created st p q tq f x) /\
    wf (created st p q tq f x) (l ++ [p]) d.
Proof.
  intros W Hp. destruct (wf_last_thread _ _ _ W) as (q & j & tq & Hl & _ & _ & _ & Hq).
  exists q, tq. split; [done|]. split; [done|]. split; [|by apply wf_create].
  unfold pthread_create. step. rewrite (wf_last _ _ _ W), Hl.
  erewrite bind_ok by (apply addThreadInfo_linked; [apply W|done|exact Hq]). cbv beta. by step.
Qed.

Lemma create_run st l d p f x : wf st l d -> heap st !! p = None ->
  exists st', pthread_create (Some p) f x st = Ok (0, Some p) st' /\ wf st' (l ++ [p]) d /\
    currentThread st' = currentThread st /\
    heap st' !! p = Some (new_thread p (last l) f x) /\
    forall a ti, heap st !! a = Some ti ->
      exists ti', heap st' !! a = Some ti' /\ sp ti' = sp ti /\ stack ti' = stack ti.
Proof.
  intros W Hp. destruct (create_exact _ _ _ _ f x W Hp) as (q & tq & Hl & Hq & E & W').
  eexists. split; [exact E|]. split; [done|]. split; [done|]. split; [cbn; rewrite Hl; by simplify_map_eq|].
  intros a ti Ha. cbn. assert (a <> p) by congruence. destruct (decide (a = q)) as [->|].
  - exists (with_next (Some p) tq). split; [by simplify_map_eq|]. naive_solver congruence.
  - exists ti. split; [by simplify_map_eq|done].
Qed.

(** [pthread_create], when [malloc] finds memory, appends the thread to the list of a
    well-formed state and returns 0; the thread's stack holds the start routine, its argument and
    the routine that removes it, and its stack pointer points to them. *)
Lemma pthread_create_correct st l d p f x : wf st l d -> heap st !! p = None ->
  exists st', pthread_create (Some p) f x st = Ok (0, Some p) st' /\ wf st' (l ++ [p]) d /\
    currentThread st' = currentThread st /\
    heap st' !! p = Some (new_thread p (last l) f x) /\
    forall a ti, heap st !! a = Some ti ->
      exists ti', heap st' !! a = Some ti' /\ sp ti' = sp ti /\ stack ti' = stack ti.
Proof. apply create_run. Qed.

(** ** Removal *)

(** The heap after the removal of [c], whose neighbours are [u] and, unless it is the last
    thread, [n]; [dd] is the head of the list of removed threads. *)
Definition unlink (h : gmap loc ThreadInfo) (c u : loc) (n dd : option loc) (tc tu : ThreadInfo)
  : gmap loc ThreadInfo :=
  let h1 := <[u := with_next n tu]> h in
  let h2 := match n with
            | Some b => match h !! b with Some tb => <[b := with_prev (Some u) tb]> h1 | None => h1 end
            | None => h1
            end in
  <[c := with_dead_next dd tc]> h2.

Lemma removeThreadInfo_run st c u n tc tu : thread_lock st = 0 -> heap st !! c = Some tc ->
  heap st !! u = Some tu -> u <> c -> prev tc = Some u -> next tc = n ->
  (forall b, n = Some b -> b <> u /\ b <> c /\ is_Some (heap st !! b)) ->
  removeThreadInfo (Some c) st
  = Ok tt (mk_state (unlink (heap st) c u n (deadThreads st) tc tu) 0 (firstThread st)
      (match n with Some _ => lastThread st | None => Some u end) (currentThread st) (Some c)).
Proof.
  intros Hl Hc Hu Huc Hp Hn Hb. unfold removeThreadInfo, unlink. step. step. rewrite Hp, Hn. step. step.
  rewrite Hp, Hn. destruct n as [b|].
  - destruct (Hb b eq_refl) as (Hbu & Hbc & [tb Htb]). rewrite Htb. step. by do 3 step.
  - step. by do 3 step.
Qed.

Lemma unlink_self h c u n dd tc tu : unlink h c u n dd tc tu !! c = Some (with_dead_next dd tc).
Proof. unfold unlink. by simplify_map_eq. Qed.

(** The other records keep all but the links to [c]. *)
Lemma unlink_other h c u n dd tc tu a ti : a <> c -> h !! u = Some tu -> n <> Some u ->
  h !! a = Some ti ->
  unlink h c u n dd tc tu !! a
  = Some (if decide (a = u) then with_next n ti
          else if decide (n = Some a) then with_prev (Some u) ti else ti).
Proof.
  intros Hac Hu Hn Ha. unfold unlink. rewrite lookup_insert_ne by congruence.
  destruct n as [b|].
  - destruct (decide (a = u)); destruct (decide (Some b = Some a));
      destruct (h !! b) eqn:Hb; simplify_map_eq; try done;
      rewrite lookup_insert_ne by congruence; by simplify_map_eq.
  - destruct (decide (a = u)); by simplify_map_eq.
Qed.

Lemma delete_last {A} (l : list A) i u c : l !! i = Some u -> l !! S i = Some c ->
  last (delete (S i) l) = match l !! S (S i) with Some _ => last l | None => Some u end.
Proof.
  intros Hu Hc. pose proof (lookup_lt_Some _ _ _ Hc).
  rewrite !last_lookup, list_lookup_delete, length_delete by (by exists c).
  destruct (l !! S (S i)) eqn:Hn.
  - pose proof (lookup_lt_Some _ _ _ Hn). case_decide; [lia|]. f_equal. lia.
  - apply lookup_ge_None in Hn. case_decide; [|lia]. rewrite <- Hu. f_equal. lia.
Qed.

Lemma wf_remove st l d i u c tc tu : wf st l d -> l !! i = Some u -> l !! S i = Some c ->
  heap st !! c = Some tc -> heap st !! u = Some tu -> currentThread st = Some c ->
  wf (mk_state (unlink (heap st) c u (l !! S (S i)) (deadThreads st) tc tu) 0 (firstThread st)
       (match l !! S (S i) with Some _ => lastThread st | None => Some u end) (currentThread st) (Some c))
    (delete (S i) l) (c :: d).
Proof.
  intros W Hu Hc Htc Htu Hcur.
  assert (Inj : forall j k a, l !! j = Some a -> l !! k = Some a -> j = k)
    by (intros; eapply wf_l_inj; eauto).
  assert (Hnu : l !! S (S i) <> Some u) by (intros H; specialize (Inj _ _ _ Hu H); lia).
  destruct (wf_list _ _ _ W _ _ Hc) as (tc' & E & Hnc & Hpc).
  assert (tc' = tc) as -> by congruence. clear E.
  assert (Hncur : forall k, l !! S (S i) = Some k -> k ∈ delete (S i) l).
  { intros k H. apply (list_elem_of_lookup_2 _ (S i)). by rewrite list_lookup_delete_ge by lia. }
  assert (Hperm : l ≡ₚ c :: delete (S i) l) by (by apply delete_Permutation).
  split; cbn.
  - assert (P : l ++ d ≡ₚ delete (S i) l ++ c :: d).
    { transitivity ((c :: delete (S i) l) ++ d); [by apply Permutation_app_tail|]. cbn.
      apply Permutation_middle. }
    rewrite <- P. apply W.
  - rewrite list_lookup_delete_lt by lia. apply W.
  - intros j a Hj. rewrite list_lookup_delete in Hj.
    destruct (wf_list _ _ _ W _ _ Hj) as (ti & Hti & Hn & Hp).
    assert (a <> c).
    { intros ->. specialize (Inj _ _ _ Hc Hj). case_decide; lia. }
    rewrite (unlink_other _ _ _ _ _ _ _ _ ti) by done. eexists. split; [reflexivity|].
    destruct (decide (a = u)) as [->|].
    { pose proof (Inj _ _ _ Hu Hj). assert (j = i) as -> by (case_decide; lia). cbn.
      rewrite list_lookup_delete_ge by lia. split; [done|]. rewrite Hp. case_decide; [|lia].
      destruct i; [done|]. by rewrite list_lookup_delete_lt by lia. }
    destruct (decide (l !! S (S i) = Some a)) as [E|E]; cbn.
    { pose proof (Inj _ _ _ E Hj). assert (j = S i) as -> by (case_decide; lia).
      case_decide; [lia|]. rewrite Hn, !list_lookup_delete_ge, list_lookup_delete_lt by lia. by split. }
    rewrite Hn, Hp. case_decide.
    + assert (j <> i) by congruence. rewrite list_lookup_delete_lt by lia. split; [done|].
      destruct j; [done|]. by rewrite list_lookup_delete_lt by lia.
    + assert (j <> S i) by congruence. rewrite list_lookup_delete_ge by lia. split; [done|].
      destruct j; [lia|]. by rewrite list_lookup_delete_ge by lia.
  - intros j a Hj. destruct j as [|j]; cbn in Hj.
    { injection Hj as <-. rewrite unlink_self. eexists. split; [done|]. cbn. apply W. }
    destruct (wf_dead _ _ _ W _ _ Hj) as (ti & Hti & Hn).
    assert (a <> c) by (intros ->; exact (wf_disjoint _ _ _ W _ _ _ Hc Hj)).
    assert (a <> u) by (intros ->; exact (wf_disjoint _ _ _ W _ _ _ Hu Hj)).
    rewrite (unlink_other _ _ _ _ _ _ _ _ ti) by done. eexists. split; [done|].
    repeat case_decide; done.
  - done.
  - apply W.
  - erewrite delete_last by done. by rewrite (wf_last _ _ _ W).
  - done.
  - exists c, (with_dead_next (deadThreads st) tc). split; [done|]. split; [set_solver|].
    split; [apply unlink_self|]. cbn. rewrite Hnc. destruct (l !! S (S i)) as [k|] eqn:E; eauto.
Qed.

Lemma thread_exit_run st l d i c : wf st l d -> l !! S i = Some c -> currentThread st = Some c ->
  exists st', pthread_exit st = Ok tt st' /\ removeActiveThread st = Ok tt st' /\
      wf st' (delete (S i) l) (c :: d) /\ currentThread st' = Some c /\
      forall a ti, heap st !! a = Some ti -> exists ti', heap st' !! a = Some ti' /\
        sp ti' = sp ti /\ stack ti' = stack ti /\ (a = c -> next ti' = next ti /\ prev ti' = prev ti).
Proof.
  intros W Hc Hcur. pose proof (wf_main _ _ _ W) as Hm.
  assert (c <> mainThread) by (intros ->; by pose proof (wf_l_inj _ _ _ W _ _ _ Hm Hc)).
  pose proof (lookup_lt_Some _ _ _ Hc). destruct (lookup_lt_is_Some_2 l i) as [u Hu]; [lia|].
  destruct (wf_list _ _ _ W _ _ Hc) as (tc & Htc & Hn & Hp).
  destruct (wf_list _ _ _ W _ _ Hu) as (tu & Htu & _).
  assert (u <> c) by (intros ->; pose proof (wf_l_inj _ _ _ W _ _ _ Hu Hc); lia).
  assert (Hne : forall b, l !! S (S i) = Some b -> b <> u /\ b <> c /\ is_Some (heap st !! b)).
  { intros b Hb. split; [intros ->; pose proof (wf_l_inj _ _ _ W _ _ _ Hb Hu); lia|].
    split; [intros ->; pose proof (wf_l_inj _ _ _ W _ _ _ Hb Hc); lia|]. by eapply wf_l_heap. }
  pose proof (removeThreadInfo_run st c u _ tc tu (wf_lock _ _ _ W) Htc Htu ltac:(done)
    ltac:(congruence) Hn Hne) as E.
  eexists. split; [|split; [|split; [|split]]].
  - unfold pthread_exit. step. rewrite decide_False by congruence.
    etransitivity; [|exact E]. by rewrite Hcur.
  - unfold removeActiveThread. step. etransitivity; [|exact E]. by rewrite Hcur.
  - by eapply wf_remove.
  - exact Hcur.
  - intros a ti Ha. cbn. destruct (decide (a = c)) as [->|Hac].
    + rewrite unlink_self. assert (ti = tc) as -> by congruence. by eexists.
    + rewrite (unlink_other _ _ _ _ _ _ _ _ ti) by (done || intros Hb; by destruct (Hne _ Hb)).
      eexists. split; [done|]. by repeat case_decide.
Qed.

(** A thread other than the main one that leaves, by [pthread_exit] or by returning from its
    start routine, is taken out of the list, the others keep their order, and its record joins
    the list of records to free; the main thread's [pthread_exit] ends the program. *)
Lemma thread_exit_correct st l d i c : wf st l d -> l !! i = Some c -> currentThread st = Some c ->
  match i with
  | O => pthread_exit st = Exit
  | S _ => exists st', pthread_exit st = Ok tt st' /\ removeActiveThread st = Ok tt st' /\
      wf st' (delete i l) (c :: d) /\ currentThread st' = Some c
  end.
Proof.
  intros W Hc Hcur. destruct i as [|i].
  2: { destruct (thread_exit_run _ _ _ _ _ W Hc Hcur) as (st' & E1 & E2 & W' & Hc' & _). by exists st'. }
  pose proof (wf_main _ _ _ W) as Hm. assert (c = mainThread) as -> by congruence.
  unfold pthread_exit. step. rewrite Hcur. by rewrite decide_True by done.
Qed.

(** ** Scheduling *)

Lemma freeDeadThreads_run d : forall st fuel, NoDup d -> deadThreads st = d !! 0%nat ->
  (forall i a, d !! i = Some a -> exists ti, heap st !! a = Some ti /\ dead_next ti = d !! S i) ->
  (forall a, a ∈ d -> currentThread st <> Some a) -> (length d < fuel)%nat ->
  exists h, freeDeadThreads fuel st
      = Ok tt (mk_state h (thread_lock st) (firstThread st) (lastThread st) (currentThread st) None) /\
    forall a, h !! a = if decide (a ∈ d) then None else heap st !! a.
Proof.
  induction d as [|a d IH]; intros st [|fuel] N Hd Hl Hc Hf; cbn in Hf; try lia; cbn in Hd.
  - exists (heap st). split; [|intros a; by rewrite decide_False by set_solver].
    cbn [freeDeadThreads]. step. rewrite decide_False by (rewrite Hd; naive_solver). unfold ret. f_equal.
    by apply state_eq.
  - destruct (Hl 0%nat a eq_refl) as (ti & Hti & Hn). apply NoDup_cons in N as (Hna & N).
    destruct (IH (mk_state (delete a (heap st)) (thread_lock st) (firstThread st) (lastThread st)
      (currentThread st) (d !! 0%nat)) fuel) as (h & E & Hh); cbn; try done; [| |lia|].
    + intros i b Hb. destruct (Hl (S i) b Hb) as (tb & Htb & Hnb). exists tb. split; [|done].
      rewrite lookup_delete_ne; [done|]. intros ->. by apply Hna, (list_elem_of_lookup_2 _ i).
    + intros b Hb. apply Hc. set_solver.
    + exists h. split.
      * cbn [freeDeadThreads]. rewrite Hd.
        rewrite decide_True by (split; [done|intros F; by apply (Hc a); [set_solver|]]).
        step. step. step. cbn in Hn. rewrite Hn. exact E.
      * intros b. rewrite Hh. cbn. destruct (decide (b = a)) as [->|].
        -- rewrite lookup_delete_eq. repeat case_decide; set_solver.
        -- rewrite lookup_delete_ne by done. repeat case_decide; set_solver.
Qed.

(** The thread a switch from [tc] goes to. *)
Definition next_thread (tc : ThreadInfo) : loc := default mainThread (next tc).

(** Saving a stack pointer and selecting a listed thread, the records of [d'] no longer needed. *)
Lemma wf_switch st l d d' c tc w n h : wf st l d -> heap st !! c = Some tc -> n ∈ l ->
  d' = d \/ d' = [] ->
  (forall a, a ∉ d \/ d' = d -> h !! a = <[c := with_sp w tc]> (heap st) !! a) ->
  wf (mk_state h 0 (firstThread st) (lastThread st) (Some n) (d' !! 0%nat)) l d'.
Proof.
  intros W Hc Hn Hd Hh.
  assert (Sp : forall a ti, heap st !! a = Some ti -> exists ti',
      <[c := with_sp w tc]> (heap st) !! a = Some ti' /\ next ti' = next ti /\ prev ti' = prev ti
      /\ dead_next ti' = dead_next ti).
  { intros a ti Ha. destruct (decide (a = c)) as [->|].
    - exists (with_sp w tc). simplify_map_eq. done.
    - exists ti. by simplify_map_eq. }
  assert (L : forall i a, l !! i = Some a -> exists ti, h !! a = Some ti /\ next ti = l !! S i /\
      prev ti = match i with O => None | S j => l !! j end).
  { intros i a Hi. destruct (wf_list _ _ _ W _ _ Hi) as (ti & Hti & E1 & E2).
    destruct (Sp _ _ Hti) as (ti' & Hti' & F1 & F2 & _). exists ti'.
    rewrite Hh; [split; [done|split; congruence]|]. left.
    intros [k Hk]%list_elem_of_lookup. exact (wf_disjoint _ _ _ W _ _ _ Hi Hk). }
  split; cbn; try apply W; try done.
  - destruct Hd as [->| ->]; [apply W|]. rewrite app_nil_r. pose proof (wf_nodup _ _ _ W) as N.
    by apply NoDup_app in N as (? & _).
  - intros i a Hi. destruct Hd as [->| ->]; [|done].
    destruct (wf_dead _ _ _ W _ _ Hi) as (ti & Hti & E).
    destruct (Sp _ _ Hti) as (ti' & Hti' & _ & _ & F). exists ti'. rewrite Hh by (by right).
    split; [done|congruence].
  - apply list_elem_of_lookup in Hn as [i Hi]. destruct (L _ _ Hi) as (ti & Hti & E & _).
    exists n, ti. split; [done|]. split; [apply elem_of_app; left; by eapply list_elem_of_lookup_2|].
    split; [done|]. rewrite E. destruct (l !! S i) as [k|] eqn:K; [right|by left].
    exists k. split; [done|]. by eapply list_elem_of_lookup_2.
Qed.

Lemma resume_current st n tn : currentThread st = Some n -> heap st !! n = Some tn ->
  (st0 <-- get ; ti <-- load (currentThread st0) ; RELEASE_LOCK ;;; ret (sp ti)) st
  = Ok (sp tn) (set_lock 0 st).
Proof. intros Hc Hn. step. rewrite Hc. step. by step. Qed.

Lemma schedule_run st l d fuel w c tc : wf st l d -> currentThread st = Some c ->
  heap st !! c = Some tc -> (length d < fuel)%nat ->
  exists st' tn, __tce_schedule_next_thread fuel w st = Ok (sp tn) st' /\
    heap st' !! next_thread tc = Some tn /\
    currentThread st' = Some (next_thread tc) /\ next_thread tc ∈ l /\
    wf st' l (match next tc with Some _ => d | None => [] end) /\
    forall a, heap st' !! a
      = if decide (next tc = None /\ a ∈ d) then None else <[c := with_sp w tc]> (heap st) !! a.
Proof.
  intros W Hcur Hc Hf. pose proof (wf_main _ _ _ W) as Hm.
  destruct (wf_current _ _ _ W) as (c' & tc' & E1 & _ & E2 & Hnext).
  assert (c' = c) as -> by congruence. assert (tc' = tc) as -> by congruence. clear E1 E2.
  assert (Hin : next_thread tc ∈ l).
  { unfold next_thread. destruct Hnext as [->|(k & -> & Hk)]; [|done].
    by eapply list_elem_of_lookup_2. }
  unfold __tce_schedule_next_thread. step. unfold testandset. rewrite (wf_lock _ _ _ W). step.
  change (truthy (b2z (truthy 0))) with false. rewrite Hcur. step. step. step.
  unfold next_thread in *. cbn [next with_sp].
  destruct (next tc) as [k|] eqn:Hn; cbn in Hin |- *.
  - pose proof (wf_switch st l d d c tc w k _ W Hc Hin (or_introl eq_refl) (fun _ _ => eq_refl)) as W'.
    rewrite <- (wf_deadhead _ _ _ W) in W'.
    destruct (wf_current _ _ _ W') as (k' & tk & [= <-] & _ & Hk & _). cbn in Hk.
    eexists. exists tk. split; [step; by step|]. cbn.
    split; [done|]. split; [done|]. split; [done|]. split; [exact W'|].
    intros a. by rewrite decide_False by naive_solver.
  - set (st1 := set_current _ _).
    destruct (freeDeadThreads_run d (set_current (firstThread st) st1) fuel) as (h & E & Hh).
    + pose proof (wf_nodup _ _ _ W) as N. by apply NoDup_app in N as (_ & _ & N).
    + apply W.
    + intros i a Hi. destruct (wf_dead _ _ _ W _ _ Hi) as (ti & Hti & Hd). cbn.
      destruct (decide (a = c)) as [->|]; [exists (with_sp w tc)|exists ti]; simplify_map_eq; done.
    + intros a Ha. cbn. rewrite (wf_first _ _ _ W). intros [= <-].
      apply list_elem_of_lookup in Ha as [j Hj]. exact (wf_disjoint _ _ _ W _ _ _ Hm Hj).
    + done.
    + assert (Hh' : forall a, a ∉ d \/ [] = d -> h !! a = <[c := with_sp w tc]> (heap st) !! a).
      { intros a Ha. rewrite Hh. cbn. destruct Ha as [Ha|<-]; by rewrite decide_False by set_solver. }
      pose proof (wf_switch st l d [] c tc w mainThread h W Hc Hin (or_intror eq_refl) Hh') as W'.
      destruct (wf_current _ _ _ W') as (m & tm & [= <-] & _ & Hk & _). cbn in Hk.
      eexists. exists tm. split; [step; erewrite bind_ok by exact E; eapply (resume_current _ mainThread); [apply W|done]|].
      cbn. split; [done|]. split; [apply W|]. split; [done|].
      split; [unfold set_lock; cbn; rewrite (wf_first _ _ _ W) in W' |- *; exact W'|].
      intros a. rewrite Hh. cbn. repeat case_decide; naive_solver.
Qed.

(** When the lock is free, the scheduler saves the running thread's stack pointer, makes the
    next thread of the list the current one, the main thread after the last, and returns its stack
    pointer; going back to the main thread, it frees the records of all the threads that have left. *)
Lemma schedule_correct st l d fuel w c tc : wf st l d -> currentThread st = Some c ->
  heap st !! c = Some tc -> (length d < fuel)%nat ->
  exists st' tn, __tce_schedule_next_thread fuel w st = Ok (sp tn) st' /\
    heap st' !! next_thread tc = Some tn /\
    currentThread st' = Some (next_thread tc) /\ next_thread tc ∈ l /\
    wf st' l (match next tc with Some _ => d | None => [] end) /\
    forall a, heap st' !! a
      = if decide (next tc = None /\ a ∈ d) then None else <[c := with_sp w tc]> (heap st) !! a.
Proof. apply schedule_run. Qed.

(** A number of timer switches, with the stack pointers the threads have at each. *)
Fixpoint switches (fuel : nat) (ws : list word) : M unit :=
  match ws with
  | [] => ret tt
  | w :: ws => __tce_schedule_next_thread fuel w ;;; switches fuel ws
  end.

Lemma mod_succ_pos i n : (i < n -> (if decide (S i < n) then S i else 0) = S i mod n)%nat.
Proof.
  intros H. case_decide; [symmetry; by apply Nat.mod_small|]. assert (S i = n) as -> by lia.
  by rewrite Nat.Div0.mod_same.
Qed.

Lemma switches_run ws : forall st l d fuel i c, wf st l d -> l !! i = Some c ->
  currentThread st = Some c -> (length d < fuel)%nat ->
  exists st' d', switches fuel ws st = Ok tt st' /\ wf st' l d' /\
    currentThread st' = l !! ((i + length ws) mod length l)%nat /\
    forall j p, l !! j = Some p -> (i + length ws <= j)%nat -> heap st' !! p = heap st !! p.
Proof.
  induction ws as [|w ws IH]; intros st l d fuel i c W Hi Hc Hf; cbn.
  - pose proof (lookup_lt_Some _ _ _ Hi). exists st, d. rewrite Nat.add_0_r, Nat.mod_small by done.
    split; [done|]. split; [done|]. split; [congruence|done].
  - destruct (wf_list _ _ _ W _ _ Hi) as (tc & Htc & Hn & _).
    destruct (schedule_run _ _ _ fuel w c tc W Hc Htc Hf)
      as (st' & tn & E & _ & Hcur & Hin & W' & Hheap).
    pose proof (lookup_lt_Some _ _ _ Hi) as Hlt.
    assert (Hj : l !! (S i mod length l)%nat = Some (next_thread tc)).
    { rewrite <- mod_succ_pos by done. unfold next_thread. rewrite Hn. case_decide as Hd.
      - destruct (lookup_lt_is_Some_2 _ _ Hd) as [k Hk]. by rewrite Hk.
      - rewrite (proj2 (lookup_ge_None l (S i))) by lia. apply W. }
    destruct (IH st' l _ fuel _ _ W' Hj Hcur) as (st2 & d2 & E2 & W2 & Hc2 & Hh2);
      [destruct (next tc); cbn; lia|].
    exists st2, d2. rewrite (bind_ok _ _ _ _ _ E). split; [done|]. split; [done|]. split.
    + rewrite Hc2. f_equal. rewrite Nat.Div0.add_mod_idemp_l. f_equal. lia.
    + intros j p Hp Hle. pose proof (lookup_lt_Some _ _ _ Hp).
      rewrite (Hh2 j p Hp) by (rewrite Nat.mod_small by lia; lia).
      rewrite Hheap, decide_False, lookup_insert_ne; [done| |].
      * intros ->. pose proof (wf_l_inj _ _ _ W _ _ _ Hi Hp). lia.
      * intros [_ [k Hk]%list_elem_of_lookup]. exact (wf_disjoint _ _ _ W _ _ _ Hp Hk).
Qed.

(** Scheduling is round-robin: from the thread at position [i], after [k] switches the thread
    at position [i + k] modulo the number of threads runs, so that every thread gets its turn. *)
Lemma round_robin ws : forall st l d fuel i c, wf st l d -> l !! i = Some c ->
  currentThread st = Some c -> (length d < fuel)%nat ->
  exists st' d', switches fuel ws st = Ok tt st' /\ wf st' l d' /\
    currentThread st' = l !! ((i + length ws) mod length l)%nat.
Proof.
  intros st l d fuel i c W Hi Hc Hf. destruct (switches_run ws _ _ _ fuel i c W Hi Hc Hf)
    as (st' & d' & E & W' & Hc' & _). eauto.
Qed.

(** A new thread starts: when the thread at position [i] of a list of [n] threads creates one
    and [n - i] switches follow, the new thread is the current one, its stack pointer is the
    initial one and its stack holds the frame of its start routine. *)
Lemma created_thread_starts st l d i c p f x fuel ws : wf st l d -> l !! i = Some c ->
  currentThread st = Some c -> heap st !! p = None -> (length d < fuel)%nat ->
  length ws = (length l - i)%nat ->
  exists st1 st2 tp, pthread_create (Some p) f x st = Ok (0, Some p) st1 /\
    switches fuel ws st1 = Ok tt st2 /\ currentThread st2 = Some p /\ heap st2 !! p = Some tp /\
    sp tp = WStack p (STACK_SIZE - 5) /\ stack tp = first_frame p f x.
Proof.
  intros W Hi Hc Hp Hf Hws. destruct (create_run _ _ _ _ f x W Hp) as (st1 & E1 & W1 & Hc1 & Hp1 & _).
  pose proof (lookup_lt_Some _ _ _ Hi) as Hlt.
  assert (Hi1 : (l ++ [p]) !! i = Some c) by (by apply lookup_snoc; left).
  assert (Hpl : (l ++ [p]) !! length l = Some p) by (by apply lookup_snoc; right).
  destruct (switches_run ws st1 _ d fuel i c W1 Hi1) as (st2 & d2 & E2 & _ & Hc2 & Hh); [congruence|done|].
  exists st1, st2, (new_thread p (last l) f x). split; [done|]. split; [done|]. split; [|split; [|done]].
  - rewrite Hc2, length_app, Nat.mod_small by (cbn; lia). rewrite <- Hpl. f_equal. lia.
  - rewrite (Hh (length l) p Hpl) by lia. done.
Qed.

(** ** Joining *)

(** The search needs a state that is well formed but for [lastThread], which it does not read. *)
Lemma join_run st l d fuel p : wf (set_last (last l) st) l d -> (length l < fuel)%nat ->
  isThreadInfoActive fuel (Some p) st = Ok (b2z (bool_decide (p ∈ drop 1 l))) st.
Proof.
  intros W Hf. destruct (wf_list _ _ _ W _ _ (wf_main _ _ _ W)) as (tm & Htm & Hn & _).
  unfold isThreadInfoActive. rewrite (bind_ok _ _ _ _ _ (load_ok _ _ st Htm)), Hn.
  assert (F : forall n i fuel, (length l - i < fuel)%nat -> n = (length l - i)%nat ->
    find_thread fuel (Some p) (l !! i) st = Ok (b2z (bool_decide (p ∈ drop i l))) st);
    [|by apply (F (length l - 1)%nat); lia].
  clear - W. intros n. induction n as [|n IH]; intros i [|fuel] Hf Hn; try lia.
  - rewrite (proj2 (lookup_ge_None l i)), drop_ge by lia. done.
  - destruct (lookup_lt_is_Some_2 l i) as [c Hc]; [lia|]. rewrite (drop_S _ _ _ Hc), Hc. cbn [find_thread].
    case_decide as E.
    + injection E as ->. unfold ret. by rewrite bool_decide_eq_true_2 by set_solver.
    + destruct (wf_list _ _ _ W _ _ Hc) as (tc & Htc & Hnx & _).
      rewrite (bind_ok _ _ _ _ _ (load_ok _ _ st Htc)), Hnx, IH by lia. do 2 f_equal.
      apply bool_decide_ext. rewrite elem_of_cons. naive_solver.
Qed.

Lemma wf_set_last st l d : wf st l d -> wf (set_last (last l) st) l d.
Proof. intros W. rewrite <- (wf_last _ _ _ W). by destruct st. Qed.

(** C36: [isThreadInfoActive] ends and tells whether the thread is in the list after the main
    thread, and [pthread_join] returns at once exactly when it is not: it waits for running threads
    only. *)
Theorem join_correct st l d fuel p : wf st l d -> (length l < fuel)%nat ->
  isThreadInfoActive fuel (Some p) st = Ok (b2z (bool_decide (p ∈ drop 1 l))) st /\
  pthread_join fuel (Some p) st = if bool_decide (p ∈ drop 1 l) then Spin else Ok tt st.
Proof.
  intros W Hf. pose proof (join_run st l d fuel p (wf_set_last _ _ _ W) Hf) as E.
  split; [exact E|]. unfold pthread_join. rewrite (bind_ok _ _ _ _ _ E). by case_bool_decide.
Qed.

(** ** The system *)

(** What threads and the timer do: a thread creates another, a thread other than the main one
    leaves, once, and the timer switches threads. *)
Inductive sys_step : state -> state -> Prop :=
| step_create p f x r st st' :
    heap st !! p = None -> pthread_create (Some p) f x st = Ok r st' -> sys_step st st'
| step_leave st st' :
    currentThread st <> Some mainThread -> currentThread st <> deadThreads st ->
    removeActiveThread st = Ok tt st' -> sys_step st st'
| step_tick fuel0 w r st st' :
    (forall fuel, (fuel0 <= fuel)%nat -> __tce_schedule_next_thread fuel w st = Ok r st') ->
    sys_step st st'.

(** Between steps the current thread is in the list, or has just left it. *)
Definition consistent (st : state) (l d : list loc) : Prop :=
  wf st l d /\ exists c, currentThread st = Some c /\ (c ∈ l \/ d !! 0%nat = Some c).

Lemma consistent_leave st l d : consistent st l d -> currentThread st <> Some mainThread ->
  currentThread st <> deadThreads st ->
  exists i c st', l !! S i = Some c /\ pthread_exit st = Ok tt st' /\ removeActiveThread st = Ok tt st' /\
    consistent st' (delete (S i) l) (c :: d).
Proof.
  intros (W & c & Hc & Hin) Hm Hd. rewrite (wf_deadhead _ _ _ W) in Hd.
  destruct Hin as [Hin|Hin]; [|congruence]. apply list_elem_of_lookup in Hin as [[|i] Hi].
  { pose proof (wf_main _ _ _ W). congruence. }
  destruct (thread_exit_run _ _ _ _ _ W Hi Hc) as (st' & E1 & E2 & W' & Hc' & _).
  exists i, c, st'. split; [done|]. split; [done|]. split; [done|]. split; [done|].
  exists c. split; [done|]. by right.
Qed.

Lemma consistent_tick st l d fuel w : consistent st l d -> (length d < fuel)%nat ->
  exists r st' d', __tce_schedule_next_thread fuel w st = Ok r st' /\ consistent st' l d'.
Proof.
  intros (W & _) Hf. destruct (wf_current _ _ _ W) as (c & tc & Hc & _ & Htc & _).
  destruct (schedule_run _ _ _ fuel w c tc W Hc Htc Hf) as (st' & tn & E & _ & Hc' & Hin & W' & _).
  eexists _, st', _. split; [exact E|]. split; [exact W'|]. eauto.
Qed.

Lemma consistent_create st l d p f x : consistent st l d -> heap st !! p = None ->
  exists st', pthread_create (Some p) f x st = Ok (0, Some p) st' /\ consistent st' (l ++ [p]) d.
Proof.
  intros (W & c & Hc & Hin) Hp. destruct (create_run _ _ _ _ f x W Hp) as (st' & E & W' & Hc' & _).
  exists st'. split; [done|]. split; [done|]. exists c. split; [congruence|]. set_solver.
Qed.

Lemma consistent_step st st' l d : consistent st l d -> sys_step st st' ->
  exists l' d', consistent st' l' d'.
Proof.
  intros C S. destruct S as [p f x r s s' Hp E|s s' Hm Hd E|fuel0 w r s s' E].
  - destruct (consistent_create _ _ _ _ f x C Hp) as (s2 & E2 & C'). rewrite E2 in E.
    injection E as _ ->. eauto.
  - destruct (consistent_leave _ _ _ C Hm Hd) as (i & c & s2 & _ & _ & E2 & C'). rewrite E2 in E.
    injection E as ->. eauto.
  - destruct (consistent_tick _ _ _ (fuel0 + S (length d))%nat w C) as (r2 & s2 & d' & E2 & C'); [lia|].
    rewrite E in E2 by lia. injection E2 as _ ->. eauto.
Qed.

(** C32: from the initial state, whatever sequence of creations, exits and timer switches happens,
    the list of threads, its back links, the first, last and current thread and the list of
    records to free stay consistent, and no step can go wrong: a creation that gets memory, the
    exit of a running thread and every switch succeed, without following a stale pointer, freeing
    a record twice or finding the lock taken. *)
Theorem reachable_safe st : rtc sys_step initial st ->
  exists l d, consistent st l d /\
    (forall p f x, heap st !! p = None -> exists st', pthread_create (Some p) f x st = Ok (0, Some p) st') /\
    (currentThread st <> Some mainThread -> currentThread st <> deadThreads st ->
     exists st', pthread_exit st = Ok tt st' /\ removeActiveThread st = Ok tt st') /\
    (forall w fuel, (length d < fuel)%nat -> exists r st', __tce_schedule_next_thread fuel w st = Ok r st').
Proof.
  intros R. assert (C : exists l d, consistent st l d).
  { revert R. apply (rtc_ind_r (fun s => exists l d, consistent s l d)).
    - exists [mainThread], []. split; [apply initial_wf|]. exists mainThread. set_solver.
    - intros s s' _ Hs (l & d & C). by eapply consistent_step. }
  destruct C as (l & d & C). exists l, d. split; [done|]. split; [|split].
  - intros p f x Hp. destruct (consistent_create _ _ _ _ f x C Hp) as (st' & ? & _). eauto.
  - intros Hm Hd. destruct (consistent_leave _ _ _ C Hm Hd) as (_ & _ & st' & _ & E1 & E2 & _). eauto.
  - intros w fuel Hf. destruct (consistent_tick _ _ _ fuel w C Hf) as (r & st' & _ & E & _). eauto.
Qed.

(** ** What goes wrong *)

Lemma wf_extra st l d p t x : wf st l d -> heap st !! p = None ->
  wf (set_last (last l) (set_heap (<[p := t]> (heap st)) (set_last x st))) l d.
Proof.
  intros W Hp.
  split; cbn; try done; try apply W.
  - intros i a Hi. destruct (wf_list _ _ _ W _ _ Hi) as (ti & Hti & E). exists ti.
    by rewrite lookup_insert_ne by congruence.
  - intros i a Hi. destruct (wf_dead _ _ _ W _ _ Hi) as (ti & Hti & E). exists ti.
    by rewrite lookup_insert_ne by congruence.
  - destruct (wf_current _ _ _ W) as (c & ti & Hc & Hin & Hti & Hn). exists c, ti.
    by rewrite lookup_insert_ne by congruence.
Qed.

(** A [pthread_create] that fails for lack of memory forgets the last thread of the list: the
    next [pthread_create] reports success, but the list stays [l], so that the scheduler never
    reaches the new thread and [pthread_join] does not wait for it. *)
Lemma failed_create_loses_threads st l d p f x g y fuel : wf st l d -> heap st !! p = None ->
  (length l < fuel)%nat ->
  exists st1 st2, pthread_create None f x st = Ok (1, None) st1 /\
    pthread_create (Some p) g y st1 = Ok (0, Some p) st2 /\
    wf (set_last (last l) st2) l d /\ (p ∉ l) /\
    pthread_join fuel (Some p) st2 = Ok tt st2.
Proof.
  intros W Hp Hf. exists (set_last None st).
  exists (set_last (Some p) (set_heap (<[p := new_thread p None g y]> (heap st)) (set_last None st))).
  split.
  { unfold pthread_create. step. erewrite bind_ok by (apply addThreadInfo_failed; apply W). by step. }
  split.
  { unfold pthread_create. step. erewrite bind_ok by (apply addThreadInfo_unlinked; [apply W|done]).
    by step. }
  pose proof (wf_extra st l d p (new_thread p None g y) None W Hp) as W'.
  split; [exact W'|]. pose proof (wf_fresh _ _ _ W _ Hp) as [Hpl _]%not_elem_of_app. split; [done|].
  unfold pthread_join. erewrite bind_ok by (by apply (join_run _ l d)).
  rewrite bool_decide_eq_false_2; [done|]. intros H. apply Hpl.
  rewrite <- (take_drop 1 l). apply elem_of_app. by right.
Qed.

(** Freeing a record that is its own successor in the list of records to free leaves it at the head
    of that list, so that the next round reads, and would free, the record just freed. *)
Lemma self_dead_frees s c t n : deadThreads s = Some c -> heap s !! c = Some t -> dead_next t = Some c ->
  currentThread s <> Some c ->
  freeDeadThreads (S n) s = freeDeadThreads n (set_heap (delete c (heap s)) s).
Proof.
  intros Hd Hc Ht Hcur. cbn [freeDeadThreads]. step. rewrite Hd, decide_True by naive_solver.
  do 3 step. rewrite Ht. f_equal. by apply state_eq.
Qed.

Lemma self_dead_fault s c t n : deadThreads s = Some c -> heap s !! c = Some t -> dead_next t = Some c ->
  currentThread s <> Some c -> freeDeadThreads (S (S n)) s = Fault.
Proof.
  intros Hd Hc Ht Hcur. rewrite (self_dead_frees s c t) by done. cbn [freeDeadThreads]. step.
  cbn. rewrite Hd, decide_True by naive_solver. unfold bind, load. cbn. by rewrite lookup_delete_eq.
Qed.

(** What holds between the second removal of [c] and the return to the main thread: the running
    thread is followed by position [k] of the list. *)
Record removed_twice (st : state) (l : list loc) (c : loc) (k : nat) : Prop := mk_removed_twice {
  twice_main : l !! 0%nat = Some mainThread;
  twice_list : forall i a, l !! i = Some a -> exists ti, heap st !! a = Some ti /\ next ti = l !! S i;
  twice_out : c ∉ l;
  twice_lock : thread_lock st = 0;
  twice_first : firstThread st = Some mainThread;
  twice_dead : deadThreads st = Some c;
  twice_self : exists t, heap st !! c = Some t /\ dead_next t = Some c;
  twice_current : exists x tx, currentThread st = Some x /\ heap st !! x = Some tx /\ next tx = l !! k;
}.

(** Saving a stack pointer changes no link. *)
Lemma save_links (h : gmap loc ThreadInfo) x tx w a ti : h !! x = Some tx -> h !! a = Some ti -> exists ti',
  <[x := with_sp w tx]> h !! a = Some ti' /\ next ti' = next ti /\ dead_next ti' = dead_next ti.
Proof.
  intros Hx Ha. destruct (decide (a = x)) as [->|].
  - exists (with_sp w tx). simplify_map_eq. done.
  - exists ti. by simplify_map_eq.
Qed.

Lemma twice_switch st l c k fuel w : removed_twice st l c k -> (k < length l)%nat ->
  exists r st', __tce_schedule_next_thread fuel w st = Ok r st' /\ removed_twice st' l c (S k).
Proof.
  intros [Hm Hl Hout Hlock Hf Hd (t & Hc & Ht) (x & tx & Hcur & Hx & Hn)] Hk.
  destruct (lookup_lt_is_Some_2 l k Hk) as [y Hy]. rewrite Hy in Hn.
  destruct (Hl _ _ Hy) as (ty & Hty & Hny). destruct (save_links _ _ _ w _ _ Hx Hty) as (ty' & Hty' & Eny & _).
  destruct (save_links _ _ _ w _ _ Hx Hc) as (t' & Hc' & _ & Edt).
  eexists _, _. split.
  - unfold __tce_schedule_next_thread. step. unfold testandset. rewrite Hlock. step.
    change (truthy (b2z (truthy 0))) with false. rewrite Hcur. do 3 step. cbn [next with_sp]. rewrite Hn.
    step. step. cbn. step. by step.
  - split; cbn; try done.
    + intros i a Hi. destruct (Hl _ _ Hi) as (ti & Hti & E). destruct (save_links _ _ _ w _ _ Hx Hti) as (ti' & ? & ? & _).
      exists ti'. split; [done|congruence].
    + exists t'. split; [done|congruence].
    + exists y, ty'. split; [done|]. split; [done|congruence].
Qed.

Lemma twice_switches l c fuel ws : forall st k, removed_twice st l c k -> (k + length ws <= length l)%nat ->
  exists st', switches fuel ws st = Ok tt st' /\ removed_twice st' l c (k + length ws).
Proof.
  induction ws as [|w ws IH]; intros st k T Hk; cbn in Hk; cbn [switches length].
  { exists st. rewrite Nat.add_0_r. done. }
  destruct (twice_switch st l c k fuel w T ltac:(lia)) as (r & st1 & E & T1).
  destruct (IH st1 (S k) T1 ltac:(lia)) as (st2 & E2 & T2). exists st2.
  rewrite (bind_ok _ _ _ _ _ E). split; [done|]. by rewrite <- Nat.add_succ_comm.
Qed.

Lemma twice_fault st l c fuel w : removed_twice st l c (length l) ->
  __tce_schedule_next_thread (S (S fuel)) w st = Fault.
Proof.
  intros [Hm Hl Hout Hlock Hf Hd (t & Hc & Ht) (x & tx & Hcur & Hx & Hn)].
  rewrite (proj2 (lookup_ge_None l (length l)) (le_n _)) in Hn.
  destruct (save_links _ _ _ w _ _ Hx Hc) as (t' & Hc' & _ & Edt).
  unfold __tce_schedule_next_thread. step. unfold testandset. rewrite Hlock. step.
  change (truthy (b2z (truthy 0))) with false. rewrite Hcur. do 3 step. cbn [next with_sp]. rewrite Hn.
  step. unfold bind. erewrite (self_dead_fault _ c t'); [done|done|exact Hc'|congruence|].
  cbn. rewrite Hf. intros [= <-]. apply Hout. by eapply list_elem_of_lookup_2.
Qed.

(** The links that removing [c] between [u] and [n] leaves. *)
Definition heap_linked (h : gmap loc ThreadInfo) (c u : loc) (n : option loc) (tc tu : ThreadInfo) : Prop :=
  h !! u = Some tu /\ next tu = n /\
  forall b, n = Some b -> b <> u /\ b <> c /\ exists tb, h !! b = Some tb /\ prev tb = Some u.

(** Removing [c] again changes only its successor in the list of records to free. *)
Lemma unlink_again h c u n tc tu : heap_linked h c u n tc tu ->
  unlink h c u n (Some c) tc tu = <[c := with_dead_next (Some c) tc]> h.
Proof.
  intros (Hu & Hn & Hb). unfold unlink. f_equal.
  assert (E : <[u := with_next n tu]> h = h) by (apply insert_id; rewrite Hu, <- Hn; by destruct tu).
  rewrite E. destruct n as [b|]; [|done]. destruct (Hb b eq_refl) as (_ & _ & tb & Htb & Hp). rewrite Htb.
  apply insert_id. rewrite Htb, <- Hp. by destruct tb.
Qed.

Lemma remove_again st l d i c : wf st l d -> l !! S i = Some c -> currentThread st = Some c ->
  exists st1 t, pthread_exit st = Ok tt st1 /\ wf st1 (delete (S i) l) (c :: d) /\
    currentThread st1 = Some c /\ heap st1 !! c = Some t /\ next t = l !! S (S i) /\
    removeActiveThread st1 = Ok tt (set_heap (<[c := with_dead_next (Some c) t]> (heap st1)) st1).
Proof.
  intros W Hc Hcur. destruct (thread_exit_run _ _ _ _ _ W Hc Hcur) as (st1 & E1 & _ & W1 & Hcur1 & Hh).
  destruct (wf_list _ _ _ W _ _ Hc) as (tc & Htc & Hn & Hp).
  destruct (Hh _ _ Htc) as (t & Ht & _ & _ & Hlinks). destruct (Hlinks eq_refl) as [Hnt Hpt].
  exists st1, t. do 4 (split; [done|]). split; [congruence|].
  pose proof (lookup_lt_Some _ _ _ Hc). destruct (lookup_lt_is_Some_2 l i) as [u Hu]; [lia|].
  set (l' := delete (S i) l) in *.
  assert (Hu' : l' !! i = Some u) by (unfold l'; by rewrite list_lookup_delete_lt by lia).
  assert (Hn' : l' !! S i = l !! S (S i)) by (unfold l'; by rewrite list_lookup_delete_ge by lia).
  assert (Hout : forall k a, l' !! k = Some a -> a <> c)
    by (intros k a Hk ->; exact (wf_disjoint _ _ _ W1 k 0%nat c Hk eq_refl)).
  destruct (wf_list _ _ _ W1 _ _ Hu') as (tu & Htu & Hnu & _).
  assert (L : heap_linked (heap st1) c u (next t) t tu).
  { split; [done|]. split; [congruence|]. intros b Hb. rewrite Hnt, Hn, <- Hn' in Hb.
    split; [intros ->; pose proof (wf_l_inj _ _ _ W1 _ _ _ Hb Hu'); lia|]. split; [by eapply Hout|].
    destruct (wf_list _ _ _ W1 _ _ Hb) as (tb & Htb & _ & Hpb). exists tb. split; [done|congruence]. }
  unfold removeActiveThread. step. rewrite Hcur1.
  rewrite (removeThreadInfo_run st1 c u (next t) t tu (wf_lock _ _ _ W1) Ht Htu); [|by eapply Hout|congruence|done|].
  2: { intros b Hb. destruct L as (_ & _ & L). destruct (L b Hb) as (? & ? & tb & ? & _). eauto. }
  f_equal. apply state_eq; cbn; try done.
  - rewrite (wf_deadhead _ _ _ W1). by apply unlink_again.
  - symmetry. apply W1.
  - rewrite (wf_last _ _ _ W1). unfold l'. rewrite (delete_last l i u c) by done. rewrite Hnt, Hn.
    by destruct (l !! S (S i)).
  - by rewrite (wf_deadhead _ _ _ W1).
Qed.

(** [pthread_exit] returns to its caller.  When the thread then returns from its start routine
    before the next switch, its record is removed a second time and becomes its own successor in
    the list of records to free.  The switches up to the end of the list still work; the one that
    returns to the main thread frees the record and then follows the pointer to it. *)
Lemma exit_then_return_frees_twice st l d i c : wf st l d -> l !! S i = Some c ->
  currentThread st = Some c ->
  exists st1 st2 t, pthread_exit st = Ok tt st1 /\ removeActiveThread st1 = Ok tt st2 /\
    deadThreads st2 = Some c /\ heap st2 !! c = Some t /\ dead_next t = Some c /\
    forall fuel ws, length ws = (length l - S (S i))%nat ->
      exists st3 t3, switches fuel ws st2 = Ok tt st3 /\
        deadThreads st3 = Some c /\ heap st3 !! c = Some t3 /\ dead_next t3 = Some c /\
        forall w, __tce_schedule_next_thread (S (S fuel)) w st3 = Fault.
Proof.
  intros W Hc Hcur. destruct (remove_again _ _ _ _ _ W Hc Hcur) as (st1 & t & E1 & W1 & Hcur1 & Ht & Hn & E2).
  pose proof (lookup_lt_Some _ _ _ Hc). set (l' := delete (S i) l) in *.
  assert (Len : length l' = (length l - 1)%nat) by (unfold l'; rewrite length_delete by (by exists c); lia).
  set (st2 := set_heap _ _) in E2.
  assert (T : removed_twice st2 l' c (S i)).
  { assert (Hout : c ∉ l').
    { intros [k Hk]%list_elem_of_lookup. exact (wf_disjoint _ _ _ W1 k 0%nat c Hk eq_refl). }
    split; cbn; try apply W1; try done.
    - intros k a Hk. destruct (wf_list _ _ _ W1 _ _ Hk) as (ti & Hti & Hnk & _). exists ti.
      rewrite lookup_insert_ne; [done|]. intros <-. apply Hout. by eapply list_elem_of_lookup_2.
    - eexists. split; [apply lookup_insert_eq|done].
    - exists c. eexists. split; [done|]. split; [apply lookup_insert_eq|]. cbn. rewrite Hn.
      unfold l'. by rewrite list_lookup_delete_ge by lia. }
  exists st1, st2. destruct (twice_self _ _ _ _ T) as (t2 & Ht2 & Hd2). exists t2.
  do 2 (split; [done|]). split; [by apply T|]. do 2 (split; [done|]). intros fuel ws Hws.
  destruct (twice_switches l' c fuel ws st2 (S i) T) as (st3 & E3 & T3); [lia|].
  replace (S i + length ws)%nat with (length l') in T3 by lia.
  destruct (twice_self _ _ _ _ T3) as (t3 & Ht3 & Hd3). exists st3, t3.
  split; [done|]. split; [apply T3|]. do 2 (split; [done|]). intros w. by eapply twice_fault.
Qed.

(** ** Concrete instances *)

(** The main thread and a thread 2, which runs. *)
Definition two_threads : state :=
  mk_state (<[1%positive := mk_ThreadInfo None (Some 2%positive) None (WArg 9) ∅]>
              {[2%positive := new_thread 2 (Some 1%positive) 100 5]}) 0
    (Some mainThread) (Some 2%positive) (Some 2%positive) None.

Lemma two_threads_wf : wf two_threads [mainThread; 2%positive] [].
Proof.
  split; try reflexivity.
  - apply NoDup_cons; split; [by intros ?%list_elem_of_singleton|apply NoDup_singleton].
  - intros [|[|i]] a H; [| |done]; injection H as <-; eexists; split; [reflexivity|done|reflexivity|done].
  - done.
  - exists 2%positive. eexists. split; [done|]. split; [set_solver|]. split; [reflexivity|]. by left.
Qed.

(** C35: what each thread routine does to a well-formed state.  [pthread_create], when [malloc] finds
    memory, appends the thread to the list, its stack holding the start routine, its argument and
    the routine that removes it.  A thread that leaves, by [pthread_exit] or by returning, is taken
    out of the list and its record joins those to free, while the main thread's [pthread_exit] ends
    the program.  The scheduler, when the lock is free, saves the stack pointer of the running
    thread, makes the next of the list the current one, the main thread after the last, returns
    its stack pointer, and frees the records of the threads that have left on the way back to the
    main thread. *)
Theorem thread_operations_correct st l d i c tc : wf st l d -> l !! i = Some c ->
  currentThread st = Some c -> heap st !! c = Some tc ->
  (forall p f x, heap st !! p = None ->
     exists st', pthread_create (Some p) f x st = Ok (0, Some p) st' /\ wf st' (l ++ [p]) d /\
       currentThread st' = currentThread st /\ heap st' !! p = Some (new_thread p (last l) f x) /\
       forall a ti, heap st !! a = Some ti ->
         exists ti', heap st' !! a = Some ti' /\ sp ti' = sp ti /\ stack ti' = stack ti) /\
  match i with
  | O => pthread_exit st = Exit
  | S _ => exists st', pthread_exit st = Ok tt st' /\ removeActiveThread st = Ok tt st' /\
      wf st' (delete i l) (c :: d) /\ currentThread st' = Some c
  end /\
  (forall fuel w, (length d < fuel)%nat ->
     exists st' tn, __tce_schedule_next_thread fuel w st = Ok (sp tn) st' /\
       heap st' !! next_thread tc = Some tn /\
       currentThread st' = Some (next_thread tc) /\ next_thread tc ∈ l /\
       wf st' l (match next tc with Some _ => d | None => [] end) /\
       forall a, heap st' !! a
         = if decide (next tc = None /\ a ∈ d) then None else <[c := with_sp w tc]> (heap st) !! a).
Proof.
  intros W Hi Hc Ht. split; [|split].
  - intros. by apply pthread_create_correct.
  - by eapply thread_exit_correct.
  - intros. by eapply schedule_correct.
Qed.

Lemma thread_operations_witness :
  (exists st', pthread_exit two_threads = Ok tt st' /\ wf st' [mainThread] [2%positive]) /\
  (exists st' tn, __tce_schedule_next_thread 1 (WArg 7) two_threads
    = Ok (sp tn) st' /\ heap st' !! mainThread = Some tn /\ currentThread st' = Some mainThread).
Proof.
  destruct (thread_operations_correct two_threads _ _ 1 2 _ two_threads_wf eq_refl eq_refl eq_refl)
    as (_ & (st' & E & _ & W & _) & S).
  split; [exists st'; exact (conj E W)|].
  destruct (S 1%nat (WArg 7)) as (st2 & tn & E2 & Hn & Hc & _); [cbn; lia|].
  exists st2, tn. exact (conj E2 (conj Hn Hc)).
Defined.

Lemma join_witness : pthread_join 3 (Some 2%positive) two_threads = Spin /\
  pthread_join 3 (Some 4%positive) two_threads = Ok tt two_threads.
Proof.
  split.
  - apply (join_correct two_threads [mainThread; 2%positive] [] 3 2 two_threads_wf). cbn. lia.
  - apply (join_correct two_threads [mainThread; 2%positive] [] 3 4 two_threads_wf). cbn. lia.
Defined.

Lemma reachable_safe_witness : exists st, pthread_create (Some 2%positive) 100 5 initial
    = Ok (0, Some 2%positive) st /\ exists l d, consistent st l d.
Proof.
  eexists. split; [vm_compute; reflexivity|].
  refine (let '(ex_intro _ l (ex_intro _ d (conj C _))) := reachable_safe _ _ in
          ex_intro _ l (ex_intro _ d C)).
  eapply rtc_once, (step_create 2 100 5); vm_compute; reflexivity.
Defined.

(** C34: every thread gets its turn.  From the thread at position [i], after [k] switches the thread
    at position [i + k] modulo the number of threads runs; and when the running thread creates
    one, the new thread runs after the switches that lead to the end of the list, with the initial
    stack pointer and the frame of its start routine on its stack. *)
Theorem threads_get_their_turn st l d i c fuel : wf st l d -> l !! i = Some c ->
  currentThread st = Some c -> (length d < fuel)%nat ->
  (forall ws, exists st' d', switches fuel ws st = Ok tt st' /\ wf st' l d' /\
     currentThread st' = l !! ((i + length ws) mod length l)%nat) /\
  (forall p f x ws, heap st !! p = None -> length ws = (length l - i)%nat ->
     exists st1 st2 tp, pthread_create (Some p) f x st = Ok (0, Some p) st1 /\
       switches fuel ws st1 = Ok tt st2 /\ currentThread st2 = Some p /\ heap st2 !! p = Some tp /\
       sp tp = WStack p (STACK_SIZE - 5) /\ stack tp = first_frame p f x).
Proof.
  intros W Hi Hc Hf. split; [intros ws; by eapply round_robin | intros; by eapply created_thread_starts].
Qed.

Lemma threads_get_their_turn_witness :
  (exists st', switches 1 [WArg 7; WArg 8; WArg 9] two_threads = Ok tt st' /\
    currentThread st' = Some mainThread) /\
  (exists st1 st2, pthread_create (Some 3%positive) 200 6 two_threads = Ok (0, Some 3%positive) st1 /\
    switches 1 [WArg 7] st1 = Ok tt st2 /\ currentThread st2 = Some 3%positive).
Proof.
  destruct (threads_get_their_turn two_threads _ _ 1 2 1 two_threads_wf eq_refl eq_refl) as [R C]; [cbn; lia|].
  destruct (R [WArg 7; WArg 8; WArg 9]) as (st' & d & E & _ & Hc).
  destruct (C 3%positive 200 6 [WArg 7] eq_refl eq_refl) as (st1 & st2 & tp & E1 & E2 & Hc2 & _).
  split; [exists st'; exact (conj E Hc) | exists st1, st2; exact (conj E1 (conj E2 Hc2))].
Defined.

(** C37: what goes wrong outside the rules.  A [pthread_create] that fails for lack of memory forgets
    the last thread of the list: the next one reports success, but the list stays [l], so that the
    scheduler never reaches the new thread and [pthread_join] does not wait for it.  And
    [pthread_exit] returns to its caller: when the thread, any but the main one, then returns from
    its start routine before the next switch, its record is removed a second time and becomes its
    own successor at the head of the list of records to free, which forgets the others.  The
    switches up to the end of the list of threads still succeed and leave it so; the one that
    returns to the main thread frees the record, finds the same pointer at the head of the list
    again (the third part states this round of [freeDeadThreads]) and follows it into the freed
    record, which it would free a second time. *)
Theorem thread_misuse st l d : wf st l d ->
  (forall p f x g y fuel, heap st !! p = None -> (length l < fuel)%nat ->
     exists st1 st2, pthread_create None f x st = Ok (1, None) st1 /\
       pthread_create (Some p) g y st1 = Ok (0, Some p) st2 /\
       wf (set_last (last l) st2) l d /\ (p ∉ l) /\ pthread_join fuel (Some p) st2 = Ok tt st2) /\
  (forall i c, l !! S i = Some c -> currentThread st = Some c ->
     exists st1 st2 t, pthread_exit st = Ok tt st1 /\ removeActiveThread st1 = Ok tt st2 /\
       deadThreads st2 = Some c /\ heap st2 !! c = Some t /\ dead_next t = Some c /\
       forall fuel ws, length ws = (length l - S (S i))%nat ->
         exists st3 t3, switches fuel ws st2 = Ok tt st3 /\
           deadThreads st3 = Some c /\ heap st3 !! c = Some t3 /\ dead_next t3 = Some c /\
           forall w, __tce_schedule_next_thread (S (S fuel)) w st3 = Fault) /\
  (forall s c t fuel, deadThreads s = Some c -> heap s !! c = Some t -> dead_next t = Some c ->
     currentThread s <> Some c ->
     let freed := set_heap (delete c (heap s)) s in
     deadThreads freed = Some c /\ free (Some c) freed = Fault /\
     freeDeadThreads (S fuel) s = freeDeadThreads fuel freed /\ freeDeadThreads (S fuel) freed = Fault).
Proof.
  intros W. split; [|split]; intros.
  - by apply failed_create_loses_threads.
  - by apply exit_then_return_frees_twice with (d := d).
  - split; [done|]. split; [unfold free; cbn; by rewrite lookup_delete_eq|].
    split; [by apply self_dead_frees with (t := t)|].
    rewrite <- (self_dead_frees s c t) by done. by apply self_dead_fault with (t := t) (c := c).
Qed.

Lemma thread_misuse_witness :
  (exists st1 st2, pthread_create None 100 5 two_threads = Ok (1, None) st1 /\
    pthread_create (Some 3%positive) 100 5 st1 = Ok (0, Some 3%positive) st2 /\
    pthread_join 3 (Some 3%positive) st2 = Ok tt st2) /\
  (exists st1 st2 st3, pthread_exit two_threads = Ok tt st1 /\
    removeActiveThread st1 = Ok tt st2 /\ deadThreads st2 = Some 2%positive /\
    switches 0 [] st2 = Ok tt st3 /\ __tce_schedule_next_thread 2 (WArg 7) st3 = Fault).
Proof.
  destruct (thread_misuse two_threads _ _ two_threads_wf) as (F & X & _). split.
  - destruct (F 3%positive 100 5 100 5 3%nat eq_refl) as (st1 & st2 & E1 & E2 & _ & _ & E3); [cbn; lia|].
    exists st1, st2. exact (conj E1 (conj E2 E3)).
  - destruct (X 0%nat 2%positive eq_refl eq_refl) as (st1 & st2 & t & E1 & E2 & E3 & _ & _ & S).
    destruct (S 0%nat [] eq_refl) as (st3 & t3 & E4 & _ & _ & _ & E5).
    exists st1, st2, st3. exact (conj E1 (conj E2 (conj E3 (conj E4 (E5 (WArg 7)))))).
Defined.
