(* ===== verification/ThreadPool.v ===== *)
(** * What the thread library promises

    The contract of pthread_tce.c, without addresses, links, heap or lock: a queue of threads in
    the order of their creation, served in rounds, each with the stack pointer it was stopped
    with.  Every run of the library is a run of this queue with the same observations. *)

From S2P Require Import Prelude.
From S2P Require Import Pthread.
From stdpp Require Import base gmap list.
Open Scope Z_scope.

(** ** The abstract queue *)

(** A suspended thread: its stack pointer and its stack. *)
Record context : Type := mk_context { resume : word; frame : gmap Z word }.

(** The threads before and after the running one, in order of creation.  There is no running
    thread between an exit and the next switch. *)
Record pool : Type := mk_pool {
  before : list loc;
  running : option loc;
  after : list loc;
  contexts : gmap loc context
}.

Definition threads (q : pool) : list loc := before q ++ option_list (running q) ++ after q.

(** The program starts in the main thread. *)
Definition pool_init : pool :=
  mk_pool [] (Some mainThread) [] {[ mainThread := mk_context WNull ∅ ]}.

(** A new thread goes to the end of the queue.  When a thread that was the last one of the round
    has left, the round is over and the new thread waits for the next one. *)
Definition pool_create (p : loc) (f x : Z) (q : pool) : pool :=
  let ctx := <[p := mk_context (WStack p (STACK_SIZE - 5)) (first_frame p f x)]> (contexts q) in
  match running q, after q with
  | None, [] => mk_pool (before q ++ [p]) None [] ctx
  | r, a => mk_pool (before q) r (a ++ [p]) ctx
  end.

Definition pool_leave (q : pool) : pool := mk_pool (before q) None (after q) (contexts q).

(** The running thread stops with stack pointer [w]; the next thread of the round, or the first
    one of the next round, continues with the one it was stopped with. *)
Definition pool_switch (w : word) (q : pool) : option (word * pool) :=
  let ctx := match running q with
             | Some c => alter (fun k => mk_context w (frame k)) c (contexts q)
             | None => contexts q
             end in
  let waited := before q ++ option_list (running q) in
  let '(served, rest) := match after q with [] => ([], waited) | a => (waited, a) end in
  match rest with
  | [] => None
  | n :: rest => k ← ctx !! n; Some (resume k, mk_pool served (Some n) rest ctx)
  end.

(** ** Runs *)

Inductive event : Type :=
| Create (p : loc) (f x : Z)   (* a thread starts [f x]; [malloc] returns [p] *)
| Leave                        (* the running thread returns or exits *)
| Switch (w : word).           (* the timer interrupts it with stack pointer [w] *)

(** What can be observed: the result code of a creation, the stack pointer a switch returns. *)
Inductive observation : Type :=
| Result (code : Z) (thread : option loc)
| Left
| Continue (w : word).

Definition pool_step (e : event) (q : pool) : option (observation * pool) :=
  match e with
  | Create p f x => Some (Result 0 (Some p), pool_create p f x q)
  | Leave => Some (Left, pool_leave q)
  | Switch w => '(w', q') ← pool_switch w q; Some (Continue w', q')
  end.

Fixpoint pool_run (es : list event) (q : pool) : option (list observation * pool) :=
  match es with
  | [] => Some ([], q)
  | e :: es => '(o, q') ← pool_step e q; '(os, q'') ← pool_run es q'; Some (o :: os, q'')
  end.

(** A step of the library, with what it does and shows. *)
Inductive lib_step : event -> observation -> state -> state -> Prop :=
| lib_create p f x code r st st' :
    heap st !! p = None -> pthread_create (Some p) f x st = Ok (code, r) st' ->
    lib_step (Create p f x) (Result code r) st st'
| lib_leave st st' :
    currentThread st <> Some mainThread -> currentThread st <> deadThreads st ->
    removeActiveThread st = Ok tt st' -> lib_step Leave Left st st'
| lib_switch fuel0 w r st st' :
    (forall fuel, (fuel0 <= fuel)%nat -> __tce_schedule_next_thread fuel w st = Ok r st') ->
    lib_step (Switch w) (Continue r) st st'.

Inductive lib_run : list event -> list observation -> state -> state -> Prop :=
| lib_done st : lib_run [] [] st st
| lib_more e o es os st st' st'' :
    lib_step e o st st' -> lib_run es os st' st'' -> lib_run (e :: es) (o :: os) st st''.

(** ** The simulation *)

(** The record of a queued thread holds its context. *)
Definition holds (h : gmap loc ThreadInfo) (ctx : gmap loc context) (a : loc) : Prop :=
  exists ti, h !! a = Some ti /\ ctx !! a = Some (mk_context (sp ti) (stack ti)).

Record represents (st : state) (q : pool) : Prop := mk_represents {
  rep_wf : exists d, wf st (threads q) d /\
    match running q with
    | Some c => currentThread st = Some c
    | None => before q <> [] /\ currentThread st = d !! 0%nat /\ d <> []
    end;
  rep_next : exists c tc, currentThread st = Some c /\ heap st !! c = Some tc /\ next tc = after q !! 0%nat;
  rep_contexts : forall a, a ∈ threads q -> holds (heap st) (contexts q) a
}.

Lemma initial_represents : represents initial pool_init.
Proof.
  split.
  - exists []. split; [exact initial_wf|done].
  - exists mainThread. eexists. split; [done|]. split; [apply lookup_singleton_eq|done].
  - intros a Ha. change (a ∈ [mainThread]) in Ha. apply list_elem_of_singleton in Ha as ->. eexists.
    split; [apply lookup_singleton_eq|]. apply lookup_singleton_eq.
Qed.

(** The position of the running thread. *)
Lemma running_position q c : running q = Some c -> threads q !! length (before q) = Some c /\
  threads q !! S (length (before q)) = after q !! 0%nat.
Proof.
  intros Hc. unfold threads. rewrite Hc. split.
  - by apply list_lookup_middle.
  - rewrite lookup_app_r by lia. replace (S (length (before q)) - length (before q))%nat with 1%nat by lia. done.
Qed.

Lemma threads_create p f x q : threads (pool_create p f x q) = threads q ++ [p].
Proof.
  unfold threads, pool_create. destruct (running q) as [c|], (after q) as [|a l]; cbn;
    by rewrite <- ?app_assoc, ?app_nil_r.
Qed.

(** The record of the running thread points to the next one of the round. *)
Lemma next_running st q d c : wf st (threads q) d -> running q = Some c -> currentThread st = Some c ->
  exists c tc, currentThread st = Some c /\ heap st !! c = Some tc /\ next tc = after q !! 0%nat.
Proof.
  intros W Hr Hc. destruct (running_position q c Hr) as [Hi Hn].
  destruct (wf_list _ _ _ W _ _ Hi) as (tc & Htc & E & _). exists c, tc. by rewrite E, Hn.
Qed.

(** A thread that has left is not in the queue. *)
Lemma left_not_queued st q d c : wf st (threads q) d -> d !! 0%nat = Some c -> c ∉ threads q.
Proof. intros W Hd [i Hi]%list_elem_of_lookup. exact (wf_disjoint _ _ _ W _ _ _ Hi Hd). Qed.

Lemma simulate_create st q p f x : represents st q -> heap st !! p = None ->
  exists st', pthread_create (Some p) f x st = Ok (0, Some p) st' /\ represents st' (pool_create p f x q).
Proof.
  intros [(d & W & Hrun) (c & tc & Hc & Htc & Hn) Hctx] Hp.
  destruct (create_exact _ _ _ _ f x W Hp) as (u & tu & Hl & Hu & E & W').
  rewrite <- (threads_create p f x) in W'. set (st' := created st p u tu f x) in *.
  assert (Hup : u <> p) by congruence.
  assert (Hrun' : running (pool_create p f x q) = running q)
    by (unfold pool_create; by destruct (running q), (after q)).
  assert (Hother : forall a, a <> p -> a <> u -> heap st' !! a = heap st !! a)
    by (intros a H1 H2; cbn; by rewrite !lookup_insert_ne).
  exists st'. split; [exact E|]. split.
  - exists d. split; [exact W'|]. rewrite Hrun'. destruct (running q) as [r|] eqn:Er; [done|].
    unfold pool_create. rewrite Er. destruct Hrun as (Hb & Hcur & Hd). split; [|done].
    destruct (after q); [by intros [? ?]%app_eq_nil|done].
  - destruct (running q) as [r|] eqn:Er; [by eapply next_running|].
    destruct Hrun as (_ & Hcur & _). rewrite Hc in Hcur. symmetry in Hcur.
    pose proof (left_not_queued _ _ _ _ W Hcur) as Hq. exists c, tc. split; [done|]. split.
    + rewrite Hother; [done|congruence|]. intros ->. apply Hq. apply last_Some in Hl as [l' ->].
      set_solver.
    + rewrite Hn. unfold pool_create. rewrite Er. by destruct (after q).
  - intros a Ha. rewrite threads_create in Ha.
    assert (Ec : contexts (pool_create p f x q)
      = <[p := mk_context (WStack p (STACK_SIZE - 5)) (first_frame p f x)]> (contexts q))
      by (unfold pool_create; by destruct (running q), (after q)).
    unfold holds. rewrite Ec. destruct (decide (a = p)) as [->|Hap].
    { exists (new_thread p (Some u) f x). cbn. by rewrite !lookup_insert_eq. }
    destruct (Hctx a) as (ti & Hti & Hk); [set_solver|]. rewrite (lookup_insert_ne (contexts q)) by done.
    destruct (decide (a = u)) as [->|Hau].
    + exists (with_next (Some p) tu). cbn. rewrite lookup_insert_ne, lookup_insert_eq by done.
      split; [done|]. rewrite Hk. by simplify_eq.
    + exists ti. by rewrite Hother.
Qed.

Lemma threads_leave q c : running q = Some c ->
  threads (pool_leave q) = delete (length (before q)) (threads q).
Proof.
  intros Hc. unfold threads. rewrite Hc. cbn. by rewrite delete_middle.
Qed.

(** The main thread is the first one, and the only one without another before it. *)
Lemma before_main st q d c : wf st (threads q) d -> running q = Some c -> c <> mainThread ->
  exists i, length (before q) = S i.
Proof.
  intros W Hc Hm. destruct (running_position q c Hc) as [Hi _].
  destruct (length (before q)) as [|i] eqn:E; [|by eexists]. pose proof (wf_main _ _ _ W). congruence.
Qed.

Lemma simulate_leave st q : represents st q ->
  currentThread st <> Some mainThread -> currentThread st <> deadThreads st ->
  exists st', removeActiveThread st = Ok tt st' /\ represents st' (pool_leave q).
Proof.
  intros [(d & W & Hrun) (c & tc & Hc & Htc & Hn) Hctx] Hm Hd. rewrite (wf_deadhead _ _ _ W) in Hd.
  destruct (running q) as [r|] eqn:Er; [|by destruct Hrun as (_ & ? & _)].
  assert (r = c) as -> by congruence.
  destruct (before_main st q d c W Er ltac:(congruence)) as [i Hi].
  destruct (running_position q c Er) as [Hpos _]. rewrite Hi in Hpos.
  destruct (thread_exit_run _ _ _ _ _ W Hpos Hc) as (st' & _ & E & W' & Hc' & Hh).
  rewrite <- Hi, <- (threads_leave q c Er) in W'. exists st'. split; [done|]. split.
  - exists (c :: d). split; [done|]. cbn. split; [|done]. intros F. by rewrite F in Hi.
  - destruct (Hh c tc Htc) as (tc' & Htc' & _ & _ & Hn'). destruct (Hn' eq_refl) as [En _]. exists c, tc'. rewrite En. done.
  - intros a Ha. assert (Ha' : a ∈ threads q).
    { revert Ha. unfold threads. cbn. rewrite !elem_of_app. tauto. }
    destruct (Hctx a Ha') as (ti & Hti & Hk). destruct (Hh a ti Hti) as (ti' & Hti' & E1 & E2 & _).
    exists ti'. split; [done|]. cbn. by rewrite Hk, E1, E2.
Qed.

(** Switching takes the next thread of the round, or starts the next round. *)
Lemma pool_switch_spec st q d tc w : wf st (threads q) d ->
  next tc = after q !! 0%nat -> (running q = None -> before q <> []) ->
  let ctx := match running q with
             | Some r => alter (fun k => mk_context w (frame k)) r (contexts q)
             | None => contexts q
             end in
  exists served rest,
    pool_switch w q = (k ← ctx !! next_thread tc;
                       Some (resume k, mk_pool served (Some (next_thread tc)) rest ctx)) /\
    served ++ next_thread tc :: rest = threads q.
Proof.
  intros W Hn Hb ctx. unfold pool_switch, next_thread. fold ctx. rewrite Hn. unfold threads.
  destruct (after q) as [|n r] eqn:Ea.
  - pose proof (wf_main _ _ _ W) as Hm. unfold threads in Hm. rewrite Ea, app_nil_r in *.
    destruct (before q ++ option_list (running q)) as [|m l]; [done|]. injection Hm as ->.
    exists [], l. done.
  - exists (before q ++ option_list (running q)), r. split; [done|]. cbn. by rewrite <- app_assoc.
Qed.

Lemma simulate_switch st q d w : represents st q -> wf st (threads q) d ->
  exists w' q', pool_switch w q = Some (w', q') /\
    forall fuel, (length d < fuel)%nat -> exists st',
      __tce_schedule_next_thread fuel w st = Ok w' st' /\ represents st' q'.
Proof.
  intros [(d' & W' & Hrun) (c & tc & Hc & Htc & Hn) Hctx] W.
  destruct (pool_switch_spec st q d tc w W Hn) as (served & rest & -> & Hq).
  { intros E. rewrite E in Hrun. by destruct Hrun. }
  set (ctx := match running q with Some _ => _ | None => _ end).
  assert (Hw : forall a h, a ∈ threads q -> h !! a = <[c := with_sp w tc]> (heap st) !! a -> holds h ctx a).
  { intros a h Ha Hh. destruct (Hctx a Ha) as (ti & Hti & Hk). unfold holds. rewrite Hh. unfold ctx.
    destruct (running q) as [r|] eqn:Er.
    - assert (r = c) as -> by congruence. destruct (decide (a = c)) as [->|Hac].
      + exists (with_sp w tc). rewrite lookup_insert_eq, lookup_alter_eq, Hk. by simplify_eq.
      + exists ti. by rewrite lookup_insert_ne, lookup_alter_ne.
    - destruct Hrun as (_ & Hd & _). rewrite Hc in Hd. symmetry in Hd.
      assert (a <> c) by (intros ->; exact (left_not_queued _ _ _ _ W' Hd Ha)).
      exists ti. by rewrite lookup_insert_ne. }
  assert (Hin : next_thread tc ∈ threads q) by (rewrite <- Hq; set_solver).
  destruct (Hw (next_thread tc) (<[c := with_sp w tc]> (heap st)) Hin eq_refl) as (tn & Htn & Hk).
  rewrite Hk. eexists _, _. split; [reflexivity|]. intros fuel Hf.
  destruct (schedule_run _ _ _ fuel w c tc W Hc Htc Hf) as (st' & tn' & E & Hh & Hcur & _ & W2 & Hheap).
  assert (Hnd : forall a, a ∈ threads q -> heap st' !! a = <[c := with_sp w tc]> (heap st) !! a).
  { intros a [i Hi]%list_elem_of_lookup. rewrite Hheap, decide_False; [done|].
    intros [_ [j Hj]%list_elem_of_lookup]. exact (wf_disjoint _ _ _ W _ _ _ Hi Hj). }
  rewrite Hnd, Htn in Hh by done. injection Hh as <-. exists st'. split; [exact E|].
  match goal with |- represents _ ?q' => assert (Eq' : threads q' = threads q) by exact Hq end.
  rewrite <- Eq' in W2. split.
  - eexists. split; [exact W2|]. exact Hcur.
  - eapply next_running; [exact W2|reflexivity|exact Hcur].
  - intros a Ha. rewrite Eq' in Ha. apply Hw; [done|]. by apply Hnd.
Qed.

Lemma simulate_step st q e o st' : represents st q -> lib_step e o st st' ->
  exists q', pool_step e q = Some (o, q') /\ represents st' q'.
Proof.
  intros R S. destruct S as [p f x code r st st' Hp E|st st' Hm Hd E|fuel0 w r st st' E].
  - destruct (simulate_create _ _ _ f x R Hp) as (st2 & E2 & R2). rewrite E2 in E.
    injection E as <- <- <-. eexists. by split.
  - destruct (simulate_leave _ _ R Hm Hd) as (st2 & E2 & R2). rewrite E2 in E. injection E as <-.
    eexists. by split.
  - pose proof R as [(d & W & _) _ _].
    destruct (simulate_switch st q d w R W) as (w' & q' & Eq & Hs).
    destruct (Hs (fuel0 + S (length d))%nat) as (st2 & E2 & R2); [lia|]. rewrite E in E2 by lia.
    injection E2 as -> ->. exists q'. split; [|done]. cbn. by rewrite Eq.
Qed.

Lemma simulate_run es os st st' : lib_run es os st st' -> forall q, represents st q ->
  exists q', pool_run es q = Some (os, q') /\ represents st' q'.
Proof.
  induction 1 as [st|e o es os st st1 st2 S _ IH]; intros q R; [by exists q|].
  destruct (simulate_step _ _ _ _ _ R S) as (q1 & E1 & R1).
  destruct (IH q1 R1) as (q2 & E2 & R2). exists q2. split; [|done]. cbn. rewrite E1. cbn. by rewrite E2.
Qed.

(** C33: the thread library refines the queue of suspended threads: whatever sequence of creations,
    exits and timer switches runs from the initial state, the result codes and the stack pointers
    it hands back are those of the queue, so that every thread continues where it was stopped, in
    rounds over the threads in order of creation; and the final state represents the queue. *)
Theorem threads_refine_queue es os st : lib_run es os initial st ->
  exists q, pool_run es pool_init = Some (os, q) /\ represents st q.
Proof. intros R. apply (simulate_run _ _ _ _ R). exact initial_represents. Qed.

(** Two threads: the new one starts at its first frame, and the main thread continues at 7. *)
Lemma threads_refine_witness :
  exists st, lib_run [Create 2 100 5; Switch (WArg 7); Switch (WArg 8)]
    [Result 0 (Some 2%positive); Continue (WStack 2 4091); Continue (WArg 7)] initial st /\
  exists q, pool_run [Create 2 100 5; Switch (WArg 7); Switch (WArg 8)] pool_init
    = Some ([Result 0 (Some 2%positive); Continue (WStack 2 4091); Continue (WArg 7)], q).
Proof.
  assert (R : exists st, lib_run [Create 2 100 5; Switch (WArg 7); Switch (WArg 8)]
    [Result 0 (Some 2%positive); Continue (WStack 2 4091); Continue (WArg 7)] initial st).
  { eexists. eapply lib_more; [apply (lib_create 2 100 5); vm_compute; reflexivity|].
    eapply lib_more; [apply (lib_switch 1); intros [|fuel] H; [lia|vm_compute; reflexivity]|].
    eapply lib_more; [apply (lib_switch 1); intros [|fuel] H; [lia|vm_compute; reflexivity]|].
    apply lib_done. }
  destruct R as [st R]. exists st. split; [exact R|].
  destruct (threads_refine_queue _ _ _ R) as (q & E & _). exact (ex_intro _ q E).
Defined.
